(* ===== verification/_CoqProject ===== *)
-Q . S2P
Prelude.v
RustStr.v
Events.v
CommandDetector.v
ConnState.v
Wire.v
Extractor.v
AuthMessages.v
UserList.v
CircuitBreaker.v
Races.v
Acquire.v
Rounding.v
HotData.v
StmtCache.v
Bind.v
Anonymize.v
Modes.v
Handler.v
Reports.v
Metrics.v
Progress.v
WaitQueue.v
PoolManager.v
System.v
Direct.v
Config.v
Backend.v
PgBouncer.v
Handshake.v
Lifetime.v
Server.v
Admin.v
Export.v
Bench.v
Logging.v
Boot.v
