(* ===== verification/Prelude.v ===== *)
(** * Scry proxy: a verification of its core

    Scry proxy sits between PostgreSQL clients and a PostgreSQL server.  It
    forwards both directions of the wire protocol, shares backend connections
    between clients (session, transaction and hybrid pooling), and publishes
    anonymised query events.  This library models the code under
    src/scry-proxy/src, and the benchmark runner beside it, and proves what makes it
    correct.

    ** How the program is put together

    [main] (main.rs) loads and validates the configuration (config/), sets up
    logging (observability/mod.rs) and the event publisher (publisher/), and starts
    the server (proxy/server.rs), which creates one pool per database (routing/,
    proxy/tcp_pool.rs) with its circuit breaker (resilience/), accepts clients up to
    a limit, registers them (proxy/admin_handles.rs) and hands each to a task.

    A task negotiates TLS (tls/), reads the start-up message (protocol/startup.rs)
    and serves either the admin console (admin/) or a session
    (proxy/connection.rs).  A session authenticates its client and its backend
    (auth/).  It acquires a backend connection from the pool manager
    (proxy/pool_manager.rs), which asks the pool (breaker, retries, recycling by
    protocol/postgres.rs) or makes the client wait (proxy/wait_queue.rs).  While it
    forwards, the handler reassembles messages (protocol/extractor.rs), checks
    statements against the pooling mode (proxy/mode_enforcer.rs), tracks what each
    statement leaves on the backend session (protocol/command_detector.rs,
    proxy/connection_state.rs), remembers prepared statements for the events
    (proxy/cache.rs, protocol/bind.rs), follows the transaction state
    (proxy/transaction.rs), and at the end of a transaction gives the connection
    back when the session has left nothing on it.  Events are anonymised
    (protocol/anonymize.rs), batched (proxy/event_batcher.rs) and published; metrics,
    health and hot data (observability/) are kept aside and exported over HTTP.

    ** Files

    - [Prelude]: this vocabulary: outcomes of Rust code (a value, a panic, or no
      end), machine integers, bytes, shared lemmas, tactics and hint databases.
    - [RustStr] (Module [Str]): the string API of Rust's standard library, on
      UTF-8 bytes, with slicing panics; case tables are the class [Unicode].
    - [Events] (Modules [Batch], [Debug], [Http]): proxy/event_batcher.rs and
      publisher/, against the class [EventPublisher], the trait.
    - [CommandDetector] (Module [Detector]): protocol/command_detector.rs.
    - [ConnState] (Module [CS]): proxy/connection_state.rs, with [apply_parse_state]
      of proxy/connection.rs; the specification is the list of effects of a
      session that nothing later in it has undone.
    - [Wire]: big-endian integers, frames and messages of protocol/mod.rs.
    - [Extractor] (Module [Ext]): protocol/extractor.rs, with the serialiser of
      tests/framing_fuzz.rs for the round trips.
    - [AuthMessages] (Modules [Startup], [Auth]): protocol/startup.rs and
      protocol/auth_messages.rs.
    - [UserList] (Module [FileAuth]): auth/file_auth.rs, auth/types.rs.
    - [CircuitBreaker] (Module [CB]): resilience/circuit_breaker.rs, a method a step.
    - [Races] (Module [Races]): the same methods as programs over single atomic
      accesses, and their interleavings.
    - [Acquire] (Module [Acquire]): resilience/retry.rs, resilience/healthcheck.rs
      and the acquisition and recycling decisions of proxy/tcp_pool.rs.
    - [Rounding] (Module [Rounding]): rounding of [f64] is monotone, for the decay
      of [HotData].
    - [HotData] (Module [Hot]): observability/hot_data.rs.
    - [StmtCache] (Module [Cache]): proxy/cache.rs.
    - [Bind] (Module [BindParams]): protocol/bind.rs.
    - [Anonymize] (Module [Anon]): protocol/anonymize.rs and the event
      construction of proxy/connection.rs.
    - [Modes] (Module [Modes]): proxy/mode_enforcer.rs, proxy/transaction.rs and
      the release decision of proxy/connection.rs.
    - [Handler] (Module [Handler]): the select loop of
      [handle_with_managed_connection] in proxy/connection.rs.
    - [Reports] (Module [Reports]): what that loop reports of a session, against
      what its client sent.
    - [Metrics] (Modules [Timeline], [Health], [Metrics]): observability/health.rs, timeline.rs
      and metrics.rs.
    - [Progress] (Module [Progress]): that the handler's steps return, for whole
      sessions.
    - [WaitQueue] (Module [WQ]): proxy/wait_queue.rs.
    - [PoolManager] (Module [Pool]): proxy/pool_manager.rs, with the clients that
      hold and wait for connections, and with what becomes of a connection and of
      a waiter when their task is dropped.
    - [System] (Module [System]): the handlers of [Handler] over the pool of
      [PoolManager], many tasks, one await a step.
    - [Direct] (Module [Direct]): [handle], [handle_acquire_error] and
      [handle_with_owned_backend] of proxy/connection.rs.
    - [Config] (Modules [Conf], [ConfSafe], [Publisher], [Routing], [StartUp]):
      config/mod.rs, publisher/mod.rs, routing/mod.rs.
    - [Backend] (Modules [Net], [Pg], [Proto], [TlsConf], [BackendTls], [TcpPool],
      [BackendRuns]): protocol/traits.rs (the class [Protocol]), protocol/postgres.rs
      (its instance), tls/, proxy/tcp_pool.rs.
    - [PgBouncer] (Module [PgBouncer]): config/pgbouncer.rs.
    - [Handshake] (Modules [Tls], [ClientAuth], [Scram], [BackendAuth], [Handshakes]):
      auth/authenticator.rs, auth/scram.rs, auth/backend.rs, tls/server.rs and the
      start-up handshakes of proxy/connection.rs.
    - [Lifetime] (Module [Lifetime]): one backend through the sessions it serves.
    - [Server] (Modules [Registry], [Server]): the accept loop, shutdown and reload
      of proxy/server.rs, proxy/admin_handles.rs.
    - [Admin] (Modules [Response], [Console], [Session]): admin/ and the routing of
      a connection in proxy/server.rs.
    - [Export] (Modules [Prometheus], [MetricsServer]): observability/prometheus.rs
      and metrics_server.rs.
    - [Logging] (Modules [Redaction], [Tracing], [Spans]): the [Debug] output of the
      configuration, observability/mod.rs, the spans.
    - [Boot] (Modules [Boot], [Background]): main.rs, [ProxyServer::new] and the
      background tasks of proxy/server.rs.
    - [Bench] (Modules [Queries], [Workers], [Runner]): the benchmark runner,
      benchmarks/src.

    State is a record per struct, an operation is a function from state to state
    (in [outcome] where the code can panic or loop), sums and options are the
    code's [Result] and [Option], traits are classes.  Loops over an event source
    (the handler, the two relay loops, the pool with its clients, the wait queue, the
    breaker, the accept loop, the batcher) are step functions or step relations, and
    their theorems speak of every reachable state.

    ** What the theorems show

    - Sessions sharing a pool: under every interleaving of the tasks a connection
      has one tenant at a time and is given back before the next has it, and each
      session does what its handler alone would do.
    - Handler: a connection is given back in mid-session only when the session is
      tracked as having left nothing on it, and the tracking is right for sessions
      that take no lock twice or under a computed key, do not merely parse what tidies
      up and prepare no more names than are tracked; a
      backend connection is used only while it is held, and is released once or
      dropped where a call fails, whichever write or acquisition fails, for sessions
      that do not time out; reads of either side are forwarded unchanged or, if
      refused, not at all and with an answer; a session of well-formed messages is
      processed to its end; every event reported is that of a statement the client
      sent.
    - Pool: connections are never lost or shared between two owners, a paused
      pool drains, a pinned connection comes back to its client, clean-up removes
      exactly the expired bindings; the wait queue is bounded and first in first
      out.
    - Backend: recycling reads exactly the answers of its two queries whatever the
      pieces they come in and keeps a connection when both were carried out, TLS is
      as the mode asks, and a backend is started up once in its life, as long as no
      session fails in the middle of it.
    - Session tracking: [has_unsafe_state] is exact for sessions whose advisory
      locks have literal keys and are taken once at a time, and the tracker's two
      views of prepared statements agree.
    - Wire: reassembly does not depend on how reads cut the stream, inverts the
      serialiser, ends, and keeps a bounded buffer; what the backend scans report;
      start-up and authentication messages read back.
    - Authentication: a client that is let in has proved its identity as the
      settings ask, SCRAM proves both sides, the three start-ups are one to the
      client, the user list reads back.
    - Breaker, retries, probes: the breaker's invariant, when it opens, fails
      fast and recovers; its accounts and its gate under every interleaving of single
      atomic accesses; breakers of different databases do not disturb each other;
      retrying ends within its bounds and the breaker hears of each acquisition once.
    - Server: the connection limit and the accounts of connections under every
      interleaving; after the drain's time-out the aborts alone bring it to its end;
      a process that comes up has what its configuration promises.
    - Console: only the admin password opens it, rows fit their columns, responses
      read back, secrets are shown only as set or unset; the debug output of a
      configuration without passwords of its own per database tells exactly its
      public part.
    - Events and metrics: an anonymised event does not depend on literals of the
      kinds the code names, parameter values or error texts; under every schedule
      the batcher publishes what it was sent, when its queue was never full, and the
      batches reach the endpoint; the hot-data list holds the largest counts under
      every sequence of accesses and decays; the exported text reads back.
    - Configuration: exactly which configurations are accepted, with which reason the
      others are refused, and what an import from PgBouncer changes.
    - Sessions without a pool relay both directions unchanged under every
      interleaving.
    - Benchmark runner: no query is left out under any schedule, exactly those asked
      for are run when no worker decides while another has yet to put one back, and
      what goes wrong when it does; a category is sent as one literal.
    - Theorems named as examples, and lemmas listed with the findings, show where
      the code departs from its comments or from what it means to do.

    ** Bounds and fuel

    Scans of a buffer are given one unit of fuel per byte (each round consumes at
    least one), the retry loop [max 1 max_attempts], the hexadecimal and UTF-8
    loops the length of their input, the wait for the backend's answer
    ([Pg.ready_fuel]) 64 KiB and two, since each read adds a byte and the loop gives
    up above 64 KiB, the authentication of a backend the bytes and reads there are;
    that the fuel suffices is proved where a theorem claims a result, and the scans
    that can fail to end do so in the model with any fuel
    ([length_minus_one_not_survived]).  [usize] and [u64] are 64 bits wide; a sum
    that leaves the range panics or wraps with the class [Build], atomics wrap.

    ** What is outside

    Sockets, files, timers and signals are inputs: what can be read, in which
    pieces, what fails, what time it is.  The crates below the code (deadpool,
    sqlparser, blake3, md5, HMAC and PBKDF2, rustls and webpki, HDR histograms,
    reqwest, serde, the tracing subscriber, rand) are parameters; their documented
    behaviour is stated where a theorem needs it.  Log output is left out but for
    what decides which secrets it shows.  An operation is one step, except where its
    interleaving matters and is modelled: the atomics of the breaker ([Races]), the
    two relay loops ([Direct]), the tasks that share a pool ([System]), the guards,
    the registry and the drain ([Server]), the batcher and its task ([Events]), the
    benchmark's workers ([Bench]).  The interleavings of [Races] are sequentially
    consistent, while the code's orderings are relaxed.  Not modelled:
    the accept loop for platforms without UNIX sockets (the same without the reload
    arm), deserialisation of the configuration by serde, and the tests and
    criterion benches beside the proxy. *)

From Stdlib Require Export ZArith Lia.
From Stdlib Require Export Strings.Byte.
From stdpp Require Export base tactics list gmap strings sets option.
Export list_basics.list list_relations.list list_monad.list list_misc.list list_numbers.list.

#[global] Open Scope Z_scope.
#[export] Set Warnings "-register-all,-clear-no-such-hyp".

(** ** Outcomes of Rust code

    A safe-Rust function returns, panics (slice index out of range, arithmetic
    overflow in a checked build, capacity overflow) or does not return at all.
    [Diverge] is what a fuelled loop yields when its fuel is exhausted. *)
Inductive outcome (A : Type) : Type :=
| Ret (a : A)
| Panic
| Diverge.
Arguments Ret {A} a.
Arguments Panic {A}.
Arguments Diverge {A}.

#[export] Instance outcome_ret : MRet outcome := λ A a, Ret a.
#[export] Instance outcome_bind : MBind outcome := λ A B f m,
  match m with Ret a => f a | Panic => Panic | Diverge => Diverge end.
#[export] Instance outcome_fmap : FMap outcome := λ A B f m,
  match m with Ret a => Ret (f a) | Panic => Panic | Diverge => Diverge end.

Definition panics {A} (m : outcome A) : bool :=
  match m with Panic => true | _ => false end.
Definition returns {A} (m : outcome A) : bool :=
  match m with Ret _ => true | _ => false end.

Lemma outcome_bind_Ret {A B} (f : A → outcome B) (m : outcome A) (b : B) :
  (m ≫= f) = Ret b ↔ ∃ a, m = Ret a ∧ f a = Ret b.
Proof. destruct m; simpl; split; [eauto|by intros (?&[=->]&?)|done|by intros (?&?&?)|done|by intros (?&?&?)]. Qed.

Lemma outcome_bind_assoc {A B C} (m : outcome A) (f : A → outcome B) (g : B → outcome C) :
  ((m ≫= f) ≫= g) = (m ≫= λ a, f a ≫= g).
Proof. by destruct m. Qed.

(** Code that always comes to an end, by returning or by panicking. *)
Definition ends {A} (m : outcome A) : Prop := m ≠ Diverge.
Lemma ends_Ret {A} (a : A) : ends (Ret a).
Proof. done. Qed.
Lemma ends_Panic {A} : ends (@Panic A).
Proof. done. Qed.
Lemma ends_bind {A B} (m : outcome A) (f : A → outcome B) :
  ends m → (∀ a, m = Ret a → ends (f a)) → ends (m ≫= f).
Proof. destruct m; simpl; [auto|done|done]. Qed.
Lemma ends_fmap {A B} (f : A → B) (m : outcome A) : ends m → ends (f <$> m).
Proof. by destruct m. Qed.

(** [ofoldl f a l]: a [for] loop over [l] that threads the state [a]. *)
Fixpoint ofoldl {A B} (f : A → B → outcome A) (a : A) (l : list B) : outcome A :=
  match l with
  | [] => Ret a
  | x :: l' => f a x ≫= λ a', ofoldl f a' l'
  end.

Lemma ofoldl_app {A B} (f : A → B → outcome A) (l1 l2 : list B) (a : A) :
  ofoldl f a (l1 ++ l2) = (ofoldl f a l1 ≫= λ a', ofoldl f a' l2).
Proof.
  revert a; induction l1 as [|x l1 IH]; intros a; [done|]; simpl.
  destruct (f a x); simpl; auto.
Qed.

(** An invariant kept by the body of a loop is kept by the loop. *)
Lemma ofoldl_inv {A B} (P : A → Prop) (f : A → B → outcome A) (l : list B) (a a' : A) :
  (∀ a x a', x ∈ l → P a → f a x = Ret a' → P a') →
  P a → ofoldl f a l = Ret a' → P a'.
Proof.
  revert a; induction l as [|x l IH]; intros a Hf Ha; simpl; [naive_solver|].
  intros (a1 & Hx & Hl)%outcome_bind_Ret.
  eapply IH; [| |exact Hl].
  - intros a2 y a3 Hy. apply Hf. by right.
  - eapply Hf; [|exact Ha|exact Hx]. by left.
Qed.

(** ** Machine integers

    [usize] and [u64] are 64 bits wide.  An addition or subtraction that
    leaves the range panics when the build checks overflow (the debug and test
    profiles) and wraps when it does not (the release profile, which the
    workspace's Cargo.toml leaves at its defaults). *)
Definition two64 : Z := 2 ^ 64.
Definition two32 : Z := 2 ^ 32.

Class Build : Type := { overflow_checks : bool }.
Definition debug_build : Build := {| overflow_checks := true |}.
Definition release_build : Build := {| overflow_checks := false |}.

Section machine.
Context `{Build}.

Definition wrap_or_panic (m z : Z) : outcome Z :=
  if (0 <=? z) && (z <? m) then Ret z
  else if overflow_checks then Panic else Ret (z mod m).

Definition u64_add (a b : Z) : outcome Z := wrap_or_panic two64 (a + b).
Definition u64_sub (a b : Z) : outcome Z := wrap_or_panic two64 (a - b).
Definition u32_add (a b : Z) : outcome Z := wrap_or_panic two32 (a + b).

Lemma wrap_or_panic_fits m z : 0 ≤ z < m → wrap_or_panic m z = Ret z.
Proof.
  intros Hz. unfold wrap_or_panic.
  replace (0 <=? z) with true by (symmetry; apply Z.leb_le; lia).
  by replace (z <? m) with true by (symmetry; apply Z.ltb_lt; lia).
Qed.

Lemma u64_add_fits a b : 0 ≤ a + b < two64 → u64_add a b = Ret (a + b).
Proof. apply wrap_or_panic_fits. Qed.
Lemma u64_sub_fits a b : 0 ≤ a - b < two64 → u64_sub a b = Ret (a - b).
Proof. apply wrap_or_panic_fits. Qed.
Lemma u32_add_fits a b : 0 ≤ a + b < two32 → u32_add a b = Ret (a + b).
Proof. apply wrap_or_panic_fits. Qed.
End machine.

(** [fetch_add] on an atomic of modulus [m] wraps in every build. *)
Definition atomic_add (m a b : Z) : Z := (a + b) mod m.

(** ** Bytes *)
#[export] Instance byte_eq_decision : EqDecision byte := Byte.byte_eq_dec.
#[export] Program Instance byte_countable : Countable byte :=
  inj_countable Byte.to_N Byte.of_N Byte.of_to_N.

Abbreviation bytes := (list byte).

Definition byte_Z (b : byte) : Z := Z.of_N (Byte.to_N b).
Definition Z_byte (z : Z) : byte :=
  match Byte.of_N (Z.to_N (z mod 256)) with Some b => b | None => x00 end.

Lemma byte_Z_range b : 0 ≤ byte_Z b < 256.
Proof. unfold byte_Z. pose proof (Byte.to_N_bounded b). lia. Qed.

Lemma Z_byte_Z b : Z_byte (byte_Z b) = b.
Proof.
  unfold Z_byte. rewrite Z.mod_small by apply byte_Z_range.
  unfold byte_Z. by rewrite N2Z.id, Byte.of_to_N.
Qed.

Lemma byte_Z_byte z : byte_Z (Z_byte z) = z mod 256.
Proof.
  unfold Z_byte. pose proof (Z.mod_pos_bound z 256 ltac:(lia)) as Hz.
  destruct (Byte.of_N (Z.to_N (z mod 256))) as [b|] eqn:Hb.
  - apply Byte.to_of_N in Hb. unfold byte_Z. rewrite Hb. lia.
  - apply Byte.of_N_None_iff in Hb. lia.
Qed.

#[export] Instance byte_Z_inj : Inj (=) (=) byte_Z.
Proof. intros a b Hab. by rewrite <-(Z_byte_Z a), <-(Z_byte_Z b), Hab. Qed.

Definition beqb (a b : byte) : bool := bool_decide (a = b).

(** A Rust byte-string or string literal, as its UTF-8 bytes. *)
Definition lit (s : string) : bytes := String.list_byte_of_string s.
Arguments lit s%_string.

(** ** Lists *)
Lemma drop_lookup_cons {A} (l : list A) (i : nat) (x : A) :
  l !! i = Some x → drop i l = x :: drop (S i) l.
Proof. intros Hi. by apply drop_S. Qed.

Lemma app_cons_assoc {A} (l k : list A) (x : A) : l ++ x :: k = (l ++ [x]) ++ k.
Proof. by rewrite <-app_assoc. Qed.

Lemma length_drop_lt {A} (l : list A) (i j : nat) :
  (i < length l)%nat → (0 < j)%nat → (length (drop (i + j) l) < length (drop i l))%nat.
Proof. rewrite !length_drop. lia. Qed.

(** [dequeue_filter]: [VecDeque::retain(|n| n != name)]. *)
Definition retain_ne {A} `{EqDecision A} (x : A) (l : list A) : list A :=
  filter (λ y, y ≠ x) l.

Section retain.
Context {A : Type} `{EqDecision A}.
Implicit Types (x y : A) (l : list A).

Lemma elem_of_retain_ne x y l : y ∈ retain_ne x l ↔ y ≠ x ∧ y ∈ l.
Proof. unfold retain_ne. by rewrite list_elem_of_filter. Qed.

Lemma NoDup_retain_ne x l : NoDup l → NoDup (retain_ne x l).
Proof. apply NoDup_filter. Qed.

Lemma retain_ne_notin x l : x ∉ l → retain_ne x l = l.
Proof.
  unfold retain_ne. induction l as [|y l IH]; intros Hx; [done|].
  rewrite filter_cons_True by set_solver. f_equal. apply IH. set_solver.
Qed.

Lemma NoDup_snoc x l : NoDup l → x ∉ l → NoDup (l ++ [x]).
Proof.
  intros Hl Hx. apply NoDup_app. repeat split; [done| |apply NoDup_singleton].
  intros y Hy ->%list_elem_of_singleton. done.
Qed.
End retain.

(** ** Automation *)
Create HintDb scry.
Create Rewrite HintDb scry_len.
#[export] Hint Resolve ends_Ret ends_Panic ends_bind ends_fmap : scry.
#[export] Hint Resolve byte_Z_range NoDup_retain_ne NoDup_snoc : scry.
#[export] Hint Extern 2 (Is_true _) => exact I : scry.
#[export] Hint Rewrite @length_app @length_drop @length_take : scry_len.

(** Split every [_ ≫= _ = Ret _] hypothesis into its steps. *)
Ltac outcome_inv :=
  repeat match goal with
  | H : (?m ≫= ?f) = Ret ?b |- _ =>
      let a := fresh "a" in let H1 := fresh H in
      apply outcome_bind_Ret in H as (a & H1 & H)
  | H : mret _ = Ret _ |- _ => injection H as H
  | H : Ret _ = Ret _ |- _ => injection H as H
  | H : Panic = Ret _ |- _ => discriminate H
  | H : Diverge = Ret _ |- _ => discriminate H
  end.

(** Reduce [Forall P] of concatenations to its parts. *)
Ltac forall_parts :=
  repeat first [rewrite Forall_app | rewrite Forall_cons]; split_and!; auto with scry.

(** Decide every boolean comparison of integers in sight. *)
Ltac case_bool :=
  match goal with
  | |- context [if ?b then _ else _] => destruct b eqn:?
  | H : context [if ?b then _ else _] |- _ => destruct b eqn:?
  end.

(** Turn boolean comparisons in the hypotheses into inequalities. *)
Ltac bool_to_Z :=
  repeat match goal with
  | H : (_ && _)%bool = true |- _ => apply andb_true_iff in H as [? ?]
  | H : (_ || _)%bool = false |- _ => apply orb_false_iff in H as [? ?]
  | H : (_ <? _) = true |- _ => apply Z.ltb_lt in H
  | H : (_ <? _) = false |- _ => apply Z.ltb_ge in H
  | H : (_ <=? _) = true |- _ => apply Z.leb_le in H
  | H : (_ <=? _) = false |- _ => apply Z.leb_gt in H
  | H : (_ =? _) = true |- _ => apply Z.eqb_eq in H
  | H : (_ =? _) = false |- _ => apply Z.eqb_neq in H
  | H : bool_decide _ = true |- _ => apply bool_decide_eq_true in H
  | H : bool_decide _ = false |- _ => apply bool_decide_eq_false in H
  end.

(** ** Counting the entries of a map *)
Definition map_count {K A} `{Countable K} (P : A → bool) (m : gmap K A) : Z :=
  Z.of_nat (size (filter (λ kv, P kv.2 = true) m)).

Section map_count.
Context {K A : Type} `{Countable K} (P : A → bool).
Implicit Types (m : gmap K A).

Lemma map_count_insert m k a :
  m !! k = None → map_count P (<[k := a]> m) = map_count P m + bool_to_Z (P a).
Proof.
  intros Hm. unfold map_count. destruct (P a) eqn:HP.
  - rewrite map_filter_insert_True by done. rewrite map_size_insert_None; [cbn; lia|].
    apply map_lookup_filter_None. by left.
  - rewrite map_filter_insert_not'; [cbn; lia|cbn; congruence|]. intros y. by rewrite Hm.
Qed.
Lemma map_count_delete m k a :
  m !! k = Some a → map_count P (delete k m) = map_count P m - bool_to_Z (P a).
Proof.
  intros Hm. rewrite <-(insert_delete_id m k a) at 2 by done.
  rewrite map_count_insert by apply lookup_delete_eq. lia.
Qed.
Lemma map_count_update m k a a' :
  m !! k = Some a →
  map_count P (<[k := a']> m) = map_count P m - bool_to_Z (P a) + bool_to_Z (P a').
Proof.
  intros Hm. rewrite <-insert_delete_eq. rewrite map_count_insert by apply lookup_delete_eq.
  by rewrite (map_count_delete _ _ _ Hm).
Qed.
Lemma map_count_none m : (∀ k a, m !! k = Some a → P a = false) → map_count P m = 0.
Proof.
  intros Hm. unfold map_count. rewrite map_empty_filter_2; [done|].
  intros k a Ha HP. cbn in HP. by rewrite (Hm k a Ha) in HP.
Qed.
Lemma map_count_some m : 0 < map_count P m → ∃ k a, m !! k = Some a ∧ P a = true.
Proof.
  intros Hm. unfold map_count in Hm.
  destruct (map_choose (filter (λ kv, P kv.2 = true) m)) as (k & a & [Ha HP]%map_lookup_filter_Some).
  - intros He. rewrite He, map_size_empty in Hm. lia.
  - by exists k, a.
Qed.
Lemma map_count_size m : map_count P m ≤ Z.of_nat (size m).
Proof. unfold map_count. apply inj_le, map_size_filter. Qed.
Lemma map_count_empty : map_count P (∅ : gmap K A) = 0.
Proof. unfold map_count. by rewrite map_filter_empty, map_size_empty. Qed.
End map_count.
