(* ===== verification/RustStr.v ===== *)
(** * Rust strings

    A Rust [str] is its UTF-8 bytes, and every offset the code computes is a
    byte offset, so [str] is modelled as [bytes].  This file holds the part of
    the standard library's string API that scry-proxy uses: validation
    ([from_utf8], [from_utf8_lossy]), Unicode trimming and case mapping,
    searching, splitting, slicing (a slice that is out of range or not on a
    character boundary panics) and integer parsing.

    The case-mapping tables of the standard library are data, not code: the
    mapping of ASCII letters is written out and the mapping of every other
    character is the parameter [Unicode], over which all theorems quantify. *)

From S2P Require Import Prelude.

Class Unicode : Type := {
  (** upper-case mapping of one non-ASCII character *)
  uni_upper : bytes → bytes;
  (** lower-case mapping of one non-ASCII character, which for the Greek final
      sigma depends on the text before and after it *)
  uni_lower : bytes → bytes → bytes → bytes
}.

(** The tables that leave every non-ASCII character alone, for evaluation. *)
Definition ascii_tables : Unicode :=
  {| uni_upper := λ c, c; uni_lower := λ _ c _, c |}.

Module Str.

(** ** Characters *)
Definition in_range (lo hi : Z) (b : byte) : bool := (lo <=? byte_Z b) && (byte_Z b <=? hi).
Definition is_cont : byte → bool := in_range 128 191.
Definition is_ascii : byte → bool := in_range 0 127.

(** [chars s]: the characters of [s], each as its bytes: a byte that does not
    continue a character together with the continuation bytes after it. *)
Fixpoint chars (s : bytes) : list bytes :=
  match s with
  | [] => []
  | b :: s' =>
      match chars s' with
      | (h :: c) :: cs => if is_cont h then (b :: h :: c) :: cs else [b] :: (h :: c) :: cs
      | cs => [b] :: cs
      end
  end.

(** [char::is_whitespace]: the Unicode White_Space property. *)
Definition is_whitespace (c : bytes) : bool :=
  match c with
  | [b] => in_range 9 13 b || beqb b x20
  | [a; b] => beqb a xc2 && (beqb b x85 || beqb b xa0)
  | [a; b; d] =>
      (beqb a xe1 && beqb b x9a && beqb d x80)
      || (beqb a xe2 && beqb b x80
          && (in_range 128 138 d || beqb d xa8 || beqb d xa9 || beqb d xaf))
      || (beqb a xe2 && beqb b x81 && beqb d x9f)
      || (beqb a xe3 && beqb b x80 && beqb d x80)
  | _ => false
  end.

Fixpoint skip_while {A} (p : A → bool) (l : list A) : list A :=
  match l with
  | [] => []
  | x :: l' => if p x then skip_while p l' else l
  end.

Definition trim_start (s : bytes) : bytes := concat (skip_while is_whitespace (chars s)).
Definition trim_end (s : bytes) : bytes :=
  concat (reverse (skip_while is_whitespace (reverse (chars s)))).
Definition trim (s : bytes) : bytes := trim_end (trim_start s).

(** [str::trim_matches(c)] for an ASCII character [c]. *)
Definition trim_matches (c : byte) (s : bytes) : bytes :=
  reverse (skip_while (beqb c) (reverse (skip_while (beqb c) s))).

(** ** Case *)
Definition ascii_upper (b : byte) : byte :=
  if in_range 97 122 b then Z_byte (byte_Z b - 32) else b.
Definition ascii_lower (b : byte) : byte :=
  if in_range 65 90 b then Z_byte (byte_Z b + 32) else b.

Definition to_uppercase `{Unicode} (s : bytes) : bytes :=
  concat ((λ c, match c with
                | [b] => if is_ascii b then [ascii_upper b] else uni_upper [b]
                | _ => uni_upper c
                end) <$> chars s).

Fixpoint to_lowercase_from `{Unicode} (before : bytes) (cs : list bytes) : bytes :=
  match cs with
  | [] => []
  | c :: cs' =>
      match c with
      | [b] => if is_ascii b then [ascii_lower b] else uni_lower before c (concat cs')
      | _ => uni_lower before c (concat cs')
      end ++ to_lowercase_from (before ++ c) cs'
  end.
Definition to_lowercase `{Unicode} (s : bytes) : bytes := to_lowercase_from [] (chars s).

Definition eq_ignore_ascii_case (a b : bytes) : bool :=
  bool_decide (ascii_lower <$> a = ascii_lower <$> b).

(** ** Searching *)
Fixpoint starts_with (s pat : bytes) {struct pat} : bool :=
  match pat, s with
  | [], _ => true
  | p :: pat', b :: s' => beqb p b && starts_with s' pat'
  | _ :: _, [] => false
  end.

Fixpoint find (s pat : bytes) : option nat :=
  if starts_with s pat then Some O
  else match s with
       | [] => None
       | _ :: s' => S <$> find s' pat
       end.
Definition contains (s pat : bytes) : bool := bool_decide (is_Some (find s pat)).

Definition strip_prefix (s pat : bytes) : option bytes :=
  if starts_with s pat then Some (drop (length pat) s) else None.

(** ** Splitting *)
Fixpoint split_byte (c : byte) (s : bytes) : list bytes :=
  match s with
  | [] => [[]]
  | b :: s' =>
      if beqb c b then [] :: split_byte c s'
      else match split_byte c s' with
           | w :: ws => (b :: w) :: ws
           | [] => [[b]]
           end
  end.

Fixpoint split_whitespace_chars (cur : bytes) (cs : list bytes) : list bytes :=
  match cs with
  | [] => if decide (cur = []) then [] else [cur]
  | c :: cs' =>
      if is_whitespace c
      then (if decide (cur = []) then [] else [cur]) ++ split_whitespace_chars [] cs'
      else split_whitespace_chars (cur ++ c) cs'
  end.
Definition split_whitespace (s : bytes) : list bytes := split_whitespace_chars [] (chars s).

(** [str::split_once]: at the first [c]. *)
Definition split_once (c : byte) (s : bytes) : option (bytes * bytes) :=
  match find s [c] with
  | Some n => Some (take n s, drop (S n) s)
  | None => None
  end.

(** ** Slicing *)
Definition is_char_boundary (s : bytes) (n : nat) : bool :=
  match s !! n with
  | Some b => negb (is_cont b)
  | None => bool_decide (n = length s)
  end || bool_decide (n = O).

(** [s.get(n..)], [&s[n..]] and [&s[a..b]]. *)
Definition get_from (s : bytes) (n : nat) : option bytes :=
  if is_char_boundary s n then Some (drop n s) else None.
Definition slice_from (s : bytes) (n : nat) : outcome bytes :=
  if is_char_boundary s n then Ret (drop n s) else Panic.
Definition slice (s : bytes) (a b : nat) : outcome bytes :=
  if bool_decide (a ≤ b)%nat && is_char_boundary s a && is_char_boundary s b
  then Ret (take (b - a) (drop a s)) else Panic.

(** ** Parsing integers: [str::parse] at a type with the range [lo, hi]. *)
Definition digit (b : byte) : option Z :=
  if in_range 48 57 b then Some (byte_Z b - 48) else None.

Fixpoint digits (acc : Z) (s : bytes) : option Z :=
  match s with
  | [] => Some acc
  | b :: s' => digit b ≫= λ d, digits (10 * acc + d) s'
  end.

Definition parse_int (lo hi : Z) (s : bytes) : option Z :=
  match s with
  | [] => None
  | b :: s' =>
      (if beqb b x2b then match s' with [] => None | _ => digits 0 s' end
       else if beqb b x2d && (lo <? 0)
       then match s' with [] => None | _ => Z.opp <$> digits 0 s' end
       else digits 0 s)
      ≫= λ z, if (lo <=? z) && (z <=? hi) then Some z else None
  end.
Definition parse_i16 := parse_int (- 2 ^ 15) (2 ^ 15 - 1).
Definition parse_i32 := parse_int (- 2 ^ 31) (2 ^ 31 - 1).
Definition parse_i64 := parse_int (- 2 ^ 63) (2 ^ 63 - 1).

(** ** UTF-8

    [utf8_step s] looks at the first character of [s]: [(true, n)] when it is
    well formed and [n] bytes long, [(false, n)] when the first [n] bytes are
    the maximal prefix of an ill-formed character. *)
Definition utf8_step (s : bytes) : bool * nat :=
  let at_ i := default x00 (s !! i) in
  let b0 := at_ 0%nat in let b1 := at_ 1%nat in
  let b2 := at_ 2%nat in let b3 := at_ 3%nat in
  if is_ascii b0 then (true, 1%nat)
  else if in_range 194 223 b0 then
    if is_cont b1 then (true, 2%nat) else (false, 1%nat)
  else if in_range 224 239 b0 then
    if (if beqb b0 xe0 then in_range 160 191 b1
        else if beqb b0 xed then in_range 128 159 b1 else is_cont b1) then
      if is_cont b2 then (true, 3%nat) else (false, 2%nat)
    else (false, 1%nat)
  else if in_range 240 244 b0 then
    if (if beqb b0 xf0 then in_range 144 191 b1
        else if beqb b0 xf4 then in_range 128 143 b1 else is_cont b1) then
      if is_cont b2 then
        if is_cont b3 then (true, 4%nat) else (false, 3%nat)
      else (false, 2%nat)
    else (false, 1%nat)
  else (false, 1%nat).

Fixpoint utf8_valid_fuel (fuel : nat) (s : bytes) : bool :=
  match s with
  | [] => true
  | _ :: _ =>
      match fuel with
      | O => false
      | S fuel => let '(ok, n) := utf8_step s in ok && utf8_valid_fuel fuel (drop n s)
      end
  end.
(** Every step consumes at least one byte, so [length s] steps are enough. *)
Definition utf8_valid (s : bytes) : bool := utf8_valid_fuel (length s) s.

(** [String::from_utf8(..).ok()] and [std::str::from_utf8(..).ok()]. *)
Definition from_utf8 (s : bytes) : option bytes := if utf8_valid s then Some s else None.

(** [String::from_utf8_lossy]: each ill-formed prefix becomes U+FFFD. *)
Definition replacement : bytes := [xef; xbf; xbd].
Fixpoint lossy_fuel (fuel : nat) (s : bytes) : bytes :=
  match s, fuel with
  | [], _ | _, O => []
  | _ :: _, S fuel =>
      let '(ok, n) := utf8_step s in
      (if ok then take n s else replacement) ++ lossy_fuel fuel (drop n s)
  end.
Definition from_utf8_lossy (s : bytes) : bytes := lossy_fuel (length s) s.


(** ** Lemmas *)
Lemma in_range_spec lo hi b : in_range lo hi b = true ↔ lo ≤ byte_Z b ≤ hi.
Proof. unfold in_range. rewrite andb_true_iff, !Z.leb_le. done. Qed.

Lemma is_cont_ascii b : is_ascii b = true → is_cont b = false.
Proof.
  unfold is_ascii, is_cont. rewrite in_range_spec. intros Hb.
  apply not_true_is_false. rewrite in_range_spec. lia.
Qed.

(** No byte is lost or reordered by splitting a string into characters. *)
Lemma chars_nonempty s : Forall (λ c, c ≠ []) (chars s).
Proof.
  induction s as [|b s IH]; simpl; [constructor|].
  destruct (chars s) as [|[|h c] cs]; try (by constructor).
  destruct (is_cont h); inversion IH; by repeat constructor.
Qed.

Lemma chars_concat s : concat (chars s) = s.
Proof.
  induction s as [|b s IH]; simpl; [done|].
  pose proof (chars_nonempty s) as Hne.
  destruct (chars s) as [|[|h c] cs]; simpl in *.
  - by subst.
  - inversion Hne; done.
  - destruct (is_cont h); simpl; by rewrite <-IH.
Qed.

Lemma chars_ascii s : Forall is_ascii s → chars s = (λ b, [b]) <$> s.
Proof.
  induction s as [|b s IH]; intros Hs; [done|]. inversion Hs as [|? ? Hb Hs']; subst.
  simpl. rewrite IH by done. destruct s as [|h s]; [done|]. simpl.
  inversion Hs' as [|? ? Hh _]; subst. by rewrite is_cont_ascii by (by apply Is_true_true).
Qed.

Lemma concat_singletons {A B} (f : A → B) (s : list A) : concat ((λ b, [f b]) <$> s) = f <$> s.
Proof. induction s; simpl; by f_equal. Qed.

Lemma to_uppercase_ascii `{Unicode} s :
  Forall is_ascii s → to_uppercase s = ascii_upper <$> s.
Proof.
  intros Hs. unfold to_uppercase. rewrite chars_ascii by done.
  rewrite <-(concat_singletons ascii_upper). f_equal. rewrite <-list_fmap_compose.
  apply list_fmap_ext. intros i b Hb. simpl.
  by rewrite (Is_true_true_1 _ (Forall_lookup_1 _ _ _ _ Hs Hb)).
Qed.

Lemma to_lowercase_from_ascii `{Unicode} before s :
  Forall is_ascii s → to_lowercase_from before ((λ b, [b]) <$> s) = ascii_lower <$> s.
Proof.
  revert before; induction s as [|b s IH]; intros before Hs; [done|].
  inversion Hs as [|? ? Hb Hs']; subst. simpl. rewrite IH by done.
  by rewrite (Is_true_true_1 _ Hb).
Qed.

Lemma to_lowercase_ascii `{Unicode} s :
  Forall is_ascii s → to_lowercase s = ascii_lower <$> s.
Proof.
  intros Hs. unfold to_lowercase. rewrite chars_ascii by done. by apply to_lowercase_from_ascii.
Qed.

Lemma ascii_upper_ascii b : is_ascii b → is_ascii (ascii_upper b).
Proof.
  unfold ascii_upper, is_ascii. destruct (in_range 97 122 b) eqn:Hr; [|done].
  apply in_range_spec in Hr. intros _. apply Is_true_true, in_range_spec.
  rewrite byte_Z_byte, Z.mod_small by lia. lia.
Qed.

Lemma Forall_ascii_upper s : Forall is_ascii s → Forall is_ascii (ascii_upper <$> s).
Proof. intros Hs. apply Forall_fmap. eapply Forall_impl; [exact Hs|]. apply ascii_upper_ascii. Qed.

(** Trimming removes a prefix and a suffix. *)
Lemma skip_while_suffix {A} (p : A → bool) l : ∃ a, l = a ++ skip_while p l.
Proof.
  induction l as [|x l [a IH]]; simpl; [by exists []|].
  destruct (p x); [|by exists []]. exists (x :: a). simpl. by f_equal.
Qed.

Lemma trim_start_suffix s : ∃ a, s = a ++ trim_start s.
Proof.
  unfold trim_start. destruct (skip_while_suffix is_whitespace (chars s)) as [a Ha].
  exists (concat a). rewrite <-concat_app, <-Ha. by rewrite chars_concat.
Qed.

Lemma trim_end_prefix s : ∃ a, s = trim_end s ++ a.
Proof.
  unfold trim_end. destruct (skip_while_suffix is_whitespace (reverse (chars s))) as [a Ha].
  exists (concat (reverse a)). rewrite <-concat_app, <-reverse_app, <-Ha, reverse_involutive.
  by rewrite chars_concat.
Qed.

Lemma trim_infix s : ∃ a b, s = a ++ trim s ++ b.
Proof.
  unfold trim. destruct (trim_start_suffix s) as [a Ha].
  destruct (trim_end_prefix (trim_start s)) as [b Hb].
  exists a, b. by rewrite <-Hb.
Qed.

Lemma Forall_trim (P : byte → Prop) s : Forall P s → Forall P (trim s).
Proof.
  destruct (trim_infix s) as (a & b & Hs). rewrite Hs at 1.
  rewrite !Forall_app. tauto.
Qed.

(** [starts_with] and [find] against their specifications. *)
Lemma starts_with_spec s pat : starts_with s pat = true ↔ ∃ t, s = pat ++ t.
Proof.
  revert s; induction pat as [|p pat IH]; intros s;
    destruct s as [|b s]; simpl; [by split; eauto..|split; [done|by intros [? ?]]|].
  unfold beqb. rewrite andb_true_iff, bool_decide_eq_true, IH. naive_solver.
Qed.

(** Stripping the prefix a text begins with leaves the rest. *)
Lemma strip_prefix_app p s : strip_prefix (p ++ s) p = Some s.
Proof. unfold strip_prefix. rewrite (proj2 (starts_with_spec _ _)) by eauto. by rewrite drop_app_length. Qed.

Lemma starts_with_length s pat : starts_with s pat = true → (length pat ≤ length s)%nat.
Proof. intros [t ->]%starts_with_spec. rewrite length_app. lia. Qed.

Lemma find_Some s pat n :
  find s pat = Some n → ∃ a b, s = a ++ pat ++ b ∧ length a = n.
Proof.
  revert n; induction s as [|c s IH]; intros n.
  - destruct pat; [|done]. intros [= <-]. by exists [], [].
  - cbn [find]. destruct (starts_with (c :: s) pat) eqn:Hs.
    { intros [= <-]. apply starts_with_spec in Hs as [t Ht]. by exists [], t. }
    intros (m & Hm & ->)%fmap_Some. destruct (IH m Hm) as (a & b & -> & <-).
    by exists (c :: a), b.
Qed.

Lemma find_Some_bound s pat n : find s pat = Some n → (n + length pat ≤ length s)%nat.
Proof. intros (a & b & -> & <-)%find_Some. rewrite !length_app. lia. Qed.

Lemma find_byte_app (c : byte) a b :
  c ∉ a → find (a ++ c :: b) [c] = Some (length a).
Proof.
  induction a as [|x a IH]; intros Hc; simpl.
  - unfold beqb. by rewrite bool_decide_true.
  - unfold beqb. rewrite bool_decide_false by set_solver. simpl.
    rewrite IH by set_solver. done.
Qed.

Lemma split_once_app (c : byte) (a b : bytes) : c ∉ a → split_once c (a ++ c :: b) = Some (a, b).
Proof.
  intros Hc. unfold split_once. rewrite find_byte_app by done. rewrite take_app_length. f_equal. f_equal.
  replace (S (length a)) with (length a + 1)%nat by lia. by rewrite <-drop_drop, drop_app_length.
Qed.

Lemma find_notin c pat s : c ∉ s → find s (c :: pat) = None.
Proof.
  induction s as [|x s IH]; intros Hc; simpl; [done|].
  unfold beqb. rewrite bool_decide_false by set_solver. simpl. by rewrite IH by set_solver.
Qed.

Lemma starts_with_notin c pat s : c ∉ s → starts_with s (c :: pat) = false.
Proof.
  intros Hc. apply not_true_is_false. intros [t ->]%starts_with_spec. set_solver.
Qed.

Lemma contains_notin c pat s : c ∉ s → contains s (c :: pat) = false.
Proof.
  intros Hc. unfold contains. rewrite find_notin by done.
  apply bool_decide_eq_false. by intros [? ?].
Qed.

(** On ASCII text every offset within the text is a character boundary. *)
Lemma is_char_boundary_ascii s n :
  Forall is_ascii s → (n ≤ length s)%nat → is_char_boundary s n = true.
Proof.
  intros Hs Hn. unfold is_char_boundary. destruct (s !! n) as [b|] eqn:Hb.
  - rewrite is_cont_ascii by (by apply Is_true_true_1, (Forall_lookup_1 _ _ _ _ Hs Hb)). done.
  - apply lookup_ge_None in Hb. by rewrite bool_decide_true by lia.
Qed.

Lemma slice_from_ascii s n :
  Forall is_ascii s → (n ≤ length s)%nat → slice_from s n = Ret (drop n s).
Proof. intros. unfold slice_from. by rewrite is_char_boundary_ascii. Qed.

Lemma slice_ascii s a b :
  Forall is_ascii s → (a ≤ b ≤ length s)%nat → slice s a b = Ret (take (b - a) (drop a s)).
Proof.
  intros Hs Hab. unfold slice. rewrite !is_char_boundary_ascii by (done || lia).
  by rewrite bool_decide_true by lia.
Qed.

Lemma split_byte_nonempty c s : split_byte c s ≠ [].
Proof. destruct s; simpl; [done|]. repeat case_match; done. Qed.

Lemma split_byte_app c a b : split_byte c (a ++ c :: b) = split_byte c a ++ split_byte c b.
Proof.
  induction a as [|x a IH]; simpl.
  - unfold beqb. by rewrite bool_decide_true.
  - destruct (beqb c x); [by rewrite IH|]. rewrite IH.
    pose proof (split_byte_nonempty c a). by destruct (split_byte c a).
Qed.

Lemma split_byte_notin c (l : bytes) : c ∉ l → split_byte c l = [l].
Proof.
  induction l as [|b l IH]; intros Hl; [done|]. simpl. apply not_elem_of_cons in Hl as [Hb Hl].
  unfold beqb. rewrite bool_decide_eq_false_2 by done. by rewrite IH.
Qed.

Lemma split_byte_word c (l rest : bytes) :
  c ∉ l → split_byte c (l ++ c :: rest) = l :: split_byte c rest.
Proof. intros Hl. by rewrite split_byte_app, split_byte_notin. Qed.

(** ** ASCII text, byte by byte *)
Definition ascii_ws (b : byte) : bool := is_whitespace [b].

Lemma skip_while_singletons (s : bytes) :
  skip_while is_whitespace ((λ b, [b]) <$> s) = (λ b, [b]) <$> skip_while ascii_ws s.
Proof.
  induction s as [|b s IH]; [done|]. rewrite fmap_cons. cbn [skip_while].
  change (ascii_ws b) with (is_whitespace [b]). by destruct (is_whitespace [b]).
Qed.

Lemma concat_bytes (s : bytes) : concat ((λ b, [b]) <$> s) = s.
Proof. rewrite (concat_singletons (λ b, b)). apply list_fmap_id. Qed.

Lemma trim_start_ascii s : Forall is_ascii s → trim_start s = skip_while ascii_ws s.
Proof.
  intros Hs. unfold trim_start. by rewrite chars_ascii, skip_while_singletons, concat_bytes.
Qed.

Lemma trim_end_ascii s :
  Forall is_ascii s → trim_end s = reverse (skip_while ascii_ws (reverse s)).
Proof.
  intros Hs. unfold trim_end. rewrite chars_ascii by done.
  by rewrite <-fmap_reverse, skip_while_singletons, <-fmap_reverse, concat_bytes.
Qed.

Lemma skip_while_app_stop {A} (p : A → bool) a x b :
  p x = false → skip_while p (a ++ x :: b) = skip_while p a ++ x :: b.
Proof. intros Hx. induction a as [|y a IH]; simpl; [by rewrite Hx|]. by destruct (p y). Qed.

Lemma skip_while_idem {A} (p : A → bool) l : skip_while p (skip_while p l) = skip_while p l.
Proof. induction l as [|x l IH]; simpl; [done|]. destruct (p x) eqn:Hx; simpl; by rewrite ?Hx. Qed.

Lemma Forall_skip_while {A} (P : A → Prop) (p : A → bool) l : Forall P l → Forall P (skip_while p l).
Proof. destruct (skip_while_suffix p l) as [a Ha]. rewrite Ha at 1. rewrite Forall_app. tauto. Qed.

Lemma trim_start_app_stop a x b :
  Forall is_ascii (a ++ x :: b) → ascii_ws x = false →
  trim_start (a ++ x :: b) = trim_start a ++ x :: b.
Proof.
  intros Hs Hx. pose proof Hs as [Ha _]%Forall_app.
  rewrite !trim_start_ascii by done. by apply skip_while_app_stop.
Qed.

Lemma trim_end_app_stop a x b :
  Forall is_ascii (a ++ x :: b) → ascii_ws x = false →
  trim_end (a ++ x :: b) = a ++ x :: trim_end b.
Proof.
  intros Hs Hx. pose proof Hs as [_ Hb]%Forall_app. apply Forall_cons in Hb as [_ Hb].
  rewrite !trim_end_ascii by done. rewrite reverse_app, reverse_cons, <-app_assoc.
  simpl. rewrite skip_while_app_stop by done.
  rewrite reverse_app, reverse_cons, reverse_involutive, <-app_assoc. done.
Qed.

Lemma trim_app_stop a x b :
  Forall is_ascii (a ++ x :: b) → ascii_ws x = false →
  trim (a ++ x :: b) = trim_start a ++ x :: trim_end b.
Proof.
  intros Hs Hx. unfold trim. rewrite trim_start_app_stop by done.
  apply trim_end_app_stop; [|done]. apply Forall_app in Hs as [Ha Hb].
  apply Forall_app. split; [|done]. rewrite trim_start_ascii by done. by apply Forall_skip_while.
Qed.

Lemma trim_start_idem s : Forall is_ascii s → trim_start (trim_start s) = trim_start s.
Proof.
  intros Hs. rewrite (trim_start_ascii s) by done.
  rewrite trim_start_ascii by (by apply Forall_skip_while). apply skip_while_idem.
Qed.

Lemma trim_end_idem s : Forall is_ascii s → trim_end (trim_end s) = trim_end s.
Proof.
  intros Hs. rewrite (trim_end_ascii s) by done.
  rewrite trim_end_ascii, reverse_involutive, skip_while_idem; [done|].
  by apply Forall_reverse, Forall_skip_while, Forall_reverse.
Qed.

Lemma trim_blank s : Forall ascii_ws s → Forall is_ascii s → trim_start s = [].
Proof.
  intros Hw Hs. rewrite trim_start_ascii by done. clear Hs.
  induction Hw as [|b s Hb _ IH]; simpl; [done|]. by rewrite (Is_true_true_1 _ Hb).
Qed.

(** Trimming at the two ends commutes on ASCII text. *)
Lemma trim_alt s : Forall is_ascii s → trim s = trim_start (trim_end s).
Proof.
  intros Hs. destruct (decide (Forall ascii_ws s)) as [Hw|Hw].
  - unfold trim. rewrite (trim_blank s) by done.
    destruct (trim_end_prefix s) as [t Ht]. rewrite Ht in Hw, Hs.
    apply Forall_app in Hw as [Hw _], Hs as [Hs _]. by rewrite (trim_blank (trim_end s)).
  - apply not_Forall_Exists, Exists_exists in Hw as (x & Hx & Hn); [|apply _].
    apply list_elem_of_split in Hx as (a & b & ->).
    assert (ascii_ws x = false) by (by apply Is_true_false).
    rewrite trim_app_stop, trim_end_app_stop by done. symmetry.
    apply trim_start_app_stop; [|done].
    rewrite Forall_app, Forall_cons in Hs. rewrite Forall_app, Forall_cons.
    split_and!; try tauto. rewrite trim_end_ascii by tauto.
    apply Forall_reverse, Forall_skip_while, Forall_reverse. tauto.
Qed.

Lemma trim_trim_start s : Forall is_ascii s → trim (trim_start s) = trim s.
Proof. intros Hs. unfold trim. by rewrite trim_start_idem. Qed.

Lemma Forall_trim_end (P : byte → Prop) s : Forall P s → Forall P (trim_end s).
Proof. destruct (trim_end_prefix s) as [t Ht]. rewrite Ht at 1. rewrite Forall_app. tauto. Qed.

Lemma trim_trim_end s : Forall is_ascii s → trim (trim_end s) = trim s.
Proof.
  intros Hs. rewrite !trim_alt by (done || by apply Forall_trim_end). by rewrite trim_end_idem.
Qed.

Lemma Forall_trim_start (P : byte → Prop) s : Forall P s → Forall P (trim_start s).
Proof. destruct (trim_start_suffix s) as [t Ht]. rewrite Ht at 1. rewrite Forall_app. tauto. Qed.

End Str.

#[export] Hint Resolve Str.Forall_trim Str.Forall_trim_end Str.Forall_trim_start : scry.
