(* ===== verification/Events.v ===== *)
(** * Event batching and publishing (proxy/event_batcher.rs, publisher/)

    The handlers hand query events to [EventBatcher::send_event], which puts
    them in a bounded channel; a background task collects them into batches and
    gives each batch to an [EventPublisher].  The batcher is a state machine: an
    [input] is one thing that can happen next (a send, the task's [select] taking
    the channel or the timer, the last sender going away), and a step says what
    was answered and what was published.  The task is spawned with its handle
    dropped, so it lives as long as the runtime: a run is what happens until [main]
    returns, and may stop anywhere.  The trait [EventPublisher] is a class,
    and the debug logger and the HTTP publisher are instances of it.  The HTTP
    client, the serialisers, the UUID and the environment are parameters. *)

From S2P Require Import Prelude RustStr.

(** The trait: [publish_batch] and [shutdown], [true] for [Ok(())]. *)
Class EventPublisher (E P : Type) : Type := {
  publish_batch : P → list E → outcome (P * bool);
  shutdown : P → P * bool
}.

(** A publisher whose [publish_batch] comes back in the states the batcher can
    bring it to, and whose [shutdown] only logs. *)
Class ResponsivePublisher (E P : Type) `{!EventPublisher E P} : Type := {
  serviceable : P → Prop;
  publish_batch_returns (p : P) (es : list E) :
    serviceable p → ∃ p' ok, publish_batch p es = Ret (p', ok) ∧ serviceable p';
  shutdown_keeps (p : P) : (shutdown p).1 = p
}.

Module Batch.

(** The background task: in its loop, returned, panicked, or inside a
    [publish_batch] that never returns.  The receiver is dropped, and with it the
    channel closed, when the task returns or panics. *)
Inductive task : Type := Running | Returned | Panicked | Stuck.
#[export] Instance task_eq_dec : EqDecision task.
Proof. solve_decision. Defined.

Definition receiver_dropped (t : task) : bool :=
  match t with Returned | Panicked => true | _ => false end.

Section batcher.
Context {E P : Type} `{!EventPublisher E P}.

Record Config : Type := { batch_size : nat; flush_interval_ms : Z; max_queue_size : nat }.

Record EventBatcher : Type := mk {
  queue : list E;
  senders : bool;
  events_sent : Z;
  events_dropped : Z;
  batch : list E;
  publisher : P;
  the_task : task
}.

Inductive output : Type :=
| Answered (e : E) (r : option bool)
| Published (es : list E)
| ShutDown.

(** [mpsc::channel(0)] panics; a zero interval panics in the spawned task. *)
Definition new (cfg : Config) (p : P) : outcome EventBatcher :=
  if decide (max_queue_size cfg = 0%nat) then Panic
  else Ret (mk [] true 0 0 [] p (if flush_interval_ms cfg =? 0 then Panicked else Running)).

(** [Ok(true)], [Ok(false)] or an error. *)
Definition send_event (cfg : Config) (b : EventBatcher) (e : E) : EventBatcher * option bool :=
  if receiver_dropped (the_task b) then (b, None)
  else if decide (length (queue b) < max_queue_size cfg)%nat then
    (mk (queue b ++ [e]) (senders b) (atomic_add two64 (events_sent b) 1) (events_dropped b)
        (batch b) (publisher b) (the_task b), Some true)
  else
    (mk (queue b) (senders b) (events_sent b) (atomic_add two64 (events_dropped b) 1)
        (batch b) (publisher b) (the_task b), Some false).

Definition get_metrics (b : EventBatcher) : Z * Z := (events_sent b, events_dropped b).

Definition with_task (t : task) (b : EventBatcher) : EventBatcher :=
  mk (queue b) (senders b) (events_sent b) (events_dropped b) (batch b) (publisher b) t.

(** [mem::take] empties the batch before it is published. *)
Definition flush_batch (b : EventBatcher) : list output * EventBatcher :=
  match batch b with
  | [] => ([], b)
  | events =>
      let taken p t := mk (queue b) (senders b) (events_sent b) (events_dropped b) [] p t in
      ([Published events],
       match publish_batch (publisher b) events with
       | Ret (p, _) => taken p (the_task b)
       | Panic => taken (publisher b) Panicked
       | Diverge => taken (publisher b) Stuck
       end)
  end.

(** The arm of [receiver.recv()]. *)
Definition on_recv (cfg : Config) (b : EventBatcher) : option (list output * EventBatcher) :=
  match queue b with
  | e :: rest =>
      let b1 := mk rest (senders b) (events_sent b) (events_dropped b) (batch b ++ [e])
                   (publisher b) (the_task b) in
      Some (if decide (batch_size cfg ≤ length (batch b1))%nat then flush_batch b1 else ([], b1))
  | [] =>
      if senders b then None
      else
        let '(outs, b1) := flush_batch b in
        Some (match the_task b1 with
              | Running =>
                  let p := (shutdown (publisher b1)).1 in
                  (outs ++ [ShutDown],
                   mk (queue b1) (senders b1) (events_sent b1) (events_dropped b1) (batch b1) p
                      Returned)
              | _ => (outs, b1)
              end)
  end.

Definition on_tick (b : EventBatcher) : list output * EventBatcher :=
  match batch b with [] => ([], b) | _ => flush_batch b end.

Inductive input : Type := Send (e : E) | Recv | Tick | DropSenders.

(** One step; [None] when the input cannot happen in this state. *)
Definition step (cfg : Config) (b : EventBatcher) (i : input) : option (list output * EventBatcher) :=
  match i with
  | Send e =>
      if senders b then
        let '(b1, r) := send_event cfg b e in Some ([Answered e r], b1)
      else None
  | DropSenders =>
      if senders b then
        Some ([], mk (queue b) false (events_sent b) (events_dropped b) (batch b) (publisher b)
                     (the_task b))
      else None
  | Recv => if decide (the_task b = Running) then on_recv cfg b else None
  | Tick => if decide (the_task b = Running) then Some (on_tick b) else None
  end.

Fixpoint run_batcher (cfg : Config) (b : EventBatcher) (l : list input)
    : option (list output * EventBatcher) :=
  match l with
  | [] => Some ([], b)
  | i :: l =>
      '(outs, b1) ← step cfg b i;
      '(outs', b2) ← run_batcher cfg b1 l;
      Some (outs ++ outs', b2)
  end.

(** ** What a run shows *)
Definition accepted (outs : list output) : list E :=
  omap (λ o, match o with Answered e (Some true) => Some e | _ => None end) outs.
Definition dropped (outs : list output) : list E :=
  omap (λ o, match o with Answered e (Some false) => Some e | _ => None end) outs.
Definition batches (outs : list output) : list (list E) :=
  omap (λ o, match o with Published es => Some es | _ => None end) outs.
Definition published (outs : list output) : list E := concat (batches outs).
Definition shutdowns (outs : list output) : nat :=
  length (omap (λ o, match o with ShutDown => Some tt | _ => None end) outs).

(** What every state keeps, and every publication respects. *)
Definition max_batch (cfg : Config) : nat := Nat.max 1 (batch_size cfg).

Record ok (cfg : Config) (b : EventBatcher) : Prop := {
  ok_queue : (length (queue b) ≤ max_queue_size cfg)%nat;
  ok_batch : (length (batch b) < max_batch cfg)%nat;
  ok_sent : 0 ≤ events_sent b < two64;
  ok_dropped : 0 ≤ events_dropped b < two64
}.

Definition sized (cfg : Config) (outs : list output) : Prop :=
  Forall (λ es, 0 < length es ≤ max_batch cfg)%nat (batches outs).

Lemma accepted_app o1 o2 : accepted (o1 ++ o2) = accepted o1 ++ accepted o2.
Proof. apply omap_app. Qed.
Lemma dropped_app o1 o2 : dropped (o1 ++ o2) = dropped o1 ++ dropped o2.
Proof. apply omap_app. Qed.
Lemma batches_app o1 o2 : batches (o1 ++ o2) = batches o1 ++ batches o2.
Proof. apply omap_app. Qed.
Lemma published_app o1 o2 : published (o1 ++ o2) = published o1 ++ published o2.
Proof. unfold published. by rewrite batches_app, concat_app. Qed.
Lemma sized_app cfg o1 o2 : sized cfg o1 → sized cfg o2 → sized cfg (o1 ++ o2).
Proof. unfold sized. rewrite batches_app, Forall_app. done. Qed.
Lemma shutdowns_app o1 o2 : shutdowns (o1 ++ o2) = (shutdowns o1 + shutdowns o2)%nat.
Proof. unfold shutdowns. by rewrite omap_app, length_app. Qed.

(** The step's account: what was pending and what was accepted is what was
    published and what is pending, in this order. *)
Definition accounts (b : EventBatcher) (outs : list output) (b' : EventBatcher) : Prop :=
  batch b ++ queue b ++ accepted outs = published outs ++ batch b' ++ queue b' ∧
  events_sent b' = (events_sent b + Z.of_nat (length (accepted outs))) mod two64 ∧
  events_dropped b' = (events_dropped b + Z.of_nat (length (dropped outs))) mod two64.

Lemma accounts_trans b1 o1 b2 o2 b3 :
  accounts b1 o1 b2 → accounts b2 o2 b3 → accounts b1 (o1 ++ o2) b3.
Proof.
  intros (Hc & Hs & Hd) (Hc' & Hs' & Hd'). unfold accounts.
  rewrite accepted_app, dropped_app, published_app, !length_app, !Nat2Z.inj_add.
  split_and!.
  - rewrite <-app_assoc, <-Hc', !app_assoc. f_equal. rewrite <-!app_assoc. exact Hc.
  - rewrite Hs', Hs, Zplus_mod_idemp_l. f_equal. lia.
  - rewrite Hd', Hd, Zplus_mod_idemp_l. f_equal. lia.
Qed.

Lemma accounts_quiet b b' outs :
  accepted outs = [] → dropped outs = [] →
  batch b ++ queue b = published outs ++ batch b' ++ queue b' →
  0 ≤ events_sent b < two64 → 0 ≤ events_dropped b < two64 →
  events_sent b' = events_sent b → events_dropped b' = events_dropped b → accounts b outs b'.
Proof.
  intros Ha Hd Hc Hs Hd' Es Ed. unfold accounts. rewrite Ha, Hd, app_nil_r, Es, Ed. simpl.
  rewrite !Z.add_0_r, !Z.mod_small by lia. done.
Qed.

(** [flush_batch] publishes what was in the batch and leaves it empty. *)
Lemma flush_batch_spec b outs b' :
  flush_batch b = (outs, b') →
  batch b' = [] ∧ queue b' = queue b ∧ senders b' = senders b ∧
  events_sent b' = events_sent b ∧ events_dropped b' = events_dropped b ∧
  accepted outs = [] ∧ dropped outs = [] ∧ shutdowns outs = 0%nat ∧ published outs = batch b ∧
  batches outs = match batch b with [] => [] | _ => [batch b] end.
Proof.
  unfold flush_batch. destruct (batch b) as [|e es] eqn:Hb; intros [= <- <-]; [done|].
  cbn. rewrite app_nil_r. by destruct (publish_batch (publisher b) (e :: es)) as [[p r]| |].
Qed.

Lemma flush_ok cfg b outs b' :
  (length (queue b) ≤ max_queue_size cfg)%nat → (length (batch b) ≤ max_batch cfg)%nat →
  0 ≤ events_sent b < two64 → 0 ≤ events_dropped b < two64 →
  flush_batch b = (outs, b') → ok cfg b' ∧ accounts b outs b' ∧ sized cfg outs.
Proof.
  intros ? Hb ? ? (Hb' & Hq & Hsn & Hs & Hd & Ha & Hdr & _ & Hp & Hbs)%flush_batch_spec.
  split_and!.
  - split; rewrite ?Hb', ?Hq, ?Hs, ?Hd; simpl; unfold max_batch; auto; lia.
  - apply accounts_quiet; rewrite ?Hb', ?Hq, ?Hp; auto.
  - unfold sized. rewrite Hbs. destruct (batch b); constructor; simpl in *; [lia|done].
Qed.

(** Each input keeps the invariant and the account. *)
Definition good_step (cfg : Config) (b : EventBatcher) (outs : list output) (b' : EventBatcher) : Prop :=
  ok cfg b' ∧ accounts b outs b' ∧ sized cfg outs.

Lemma send_ok cfg b e b' r :
  ok cfg b → send_event cfg b e = (b', r) → good_step cfg b [Answered e r] b'.
Proof.
  intros [Hq Hb Hs Hd]. unfold send_event, atomic_add. unfold two64 in *.
  destruct (receiver_dropped (the_task b)); [|destruct (decide _)]; intros [= <- <-].
  - split_and!; [by split| |by constructor]. by apply accounts_quiet.
  - split_and!; [|split_and!|by constructor]; cbn.
    + split; cbn; rewrite ?length_app; simpl; try lia; try apply Z.mod_pos_bound; unfold two64; lia.
    + done.
    + done.
    + by rewrite Z.add_0_r, Z.mod_small.
  - split_and!; [|split_and!|by constructor]; cbn.
    + split; cbn; try done; apply Z.mod_pos_bound; unfold two64; lia.
    + by rewrite app_nil_r.
    + by rewrite Z.add_0_r, Z.mod_small.
    + done.
Qed.

Lemma recv_ok cfg b outs b' :
  ok cfg b → on_recv cfg b = Some (outs, b') → good_step cfg b outs b'.
Proof.
  intros Hok. pose proof Hok as [Hq Hb Hs Hd]. unfold on_recv.
  destruct (queue b) as [|e rest] eqn:Hqb.
  - destruct (senders b); [done|]. destruct (flush_batch b) as [outs1 b1] eqn:Hf.
    apply (flush_ok cfg) in Hf as (Hok1 & Hacc & Hsz); [|rewrite ?Hqb; simpl; lia..|done|done].
    destruct (the_task b1); intros [= <- <-]; try by split_and!.
    split_and!; [by destruct Hok1| |].
    + apply (accounts_trans _ _ b1); [done|]. apply accounts_quiet; try done; by destruct Hok1.
    + apply sized_app; [done|constructor].
  - set (b1 := mk rest (senders b) (events_sent b) (events_dropped b) (batch b ++ [e])
                  (publisher b) (the_task b)).
    assert (Hacc1 : accounts b [] b1).
    { apply accounts_quiet; auto. cbn. rewrite Hqb. by rewrite <-app_assoc. }
    simpl in Hq. intros [= Hr]. case_decide as Hc.
    + apply (flush_ok cfg) in Hr as (Hok1 & Hacc & Hsz); cbn in *;
        rewrite ?length_app in *; simpl in *; unfold max_batch in *; [|lia..].
      split_and!; auto. by apply (accounts_trans _ [] b1).
    + injection Hr as <- <-. split_and!; [|done|constructor].
      split; cbn in *; unfold max_batch in *; rewrite ?length_app in *; simpl in *; lia.
Qed.

Lemma step_ok cfg b i outs b' :
  ok cfg b → step cfg b i = Some (outs, b') → good_step cfg b outs b'.
Proof.
  intros Hok. destruct i as [e| | |]; simpl.
  - destruct (senders b); [|done]. destruct (send_event cfg b e) as [b1 r] eqn:Hs.
    intros [= <- <-]. by apply send_ok.
  - case_decide; [|done]. by apply recv_ok.
  - case_decide; [|done]. intros [= Ht]. unfold on_tick in Ht.
    assert (Hf : flush_batch b = (outs, b')).
    { rewrite <-Ht. unfold flush_batch. by destruct (batch b). }
    destruct Hok. apply flush_ok; auto; lia.
  - destruct (senders b); [|done]. intros [= <- <-]. destruct Hok as [Hq Hb Hs Hd].
    split_and!; [by split|by apply accounts_quiet|constructor].
Qed.

Lemma run_cons cfg b i l o1 b1 o2 b2 :
  step cfg b i = Some (o1, b1) → run_batcher cfg b1 l = Some (o2, b2) →
  run_batcher cfg b (i :: l) = Some (o1 ++ o2, b2).
Proof. intros H1 H2. simpl. rewrite H1. simpl. by rewrite H2. Qed.

Lemma run_ok cfg b l outs b' :
  ok cfg b → run_batcher cfg b l = Some (outs, b') → good_step cfg b outs b'.
Proof.
  revert b outs. induction l as [|i l IH]; intros b outs Hok; simpl.
  - intros [= <- <-]. destruct Hok as [Hq Hb Hs Hd].
    split_and!; [by split|by apply accounts_quiet|constructor].
  - intros ([o1 b1] & H1 & ([o2 b2] & H2 & [= <- <-])%bind_Some)%bind_Some.
    apply step_ok in H1 as (Hok1 & Ha1 & Hz1); [|done].
    apply IH in H2 as (Hok2 & Ha2 & Hz2); [|done].
    split_and!; [done|by eapply accounts_trans|by apply sized_app].
Qed.

Lemma new_ok cfg p b : new cfg p = Ret b → ok cfg b ∧ batch b = [] ∧ queue b = [] ∧
  events_sent b = 0 ∧ events_dropped b = 0 ∧ senders b = true ∧ publisher b = p.
Proof.
  unfold new. case_decide; [done|]. intros [= <-]. split_and!; try done.
  split; cbn; unfold max_batch, two64; lia.
Qed.


(** No event is lost silently, sent twice or put out of order by the
    batcher: at every moment the accepted events are exactly those published,
    then those in the batch, then those in the queue; the two counters count the
    accepted and the dropped events; the queue and the batch stay within their
    configured sizes, and no empty or oversized batch is published. *)
Lemma events_conserved cfg p b l outs b' :
  new cfg p = Ret b → run_batcher cfg b l = Some (outs, b') →
  accepted outs = published outs ++ batch b' ++ queue b' ∧
  get_metrics b' = (Z.of_nat (length (accepted outs)) mod two64,
                    Z.of_nat (length (dropped outs)) mod two64) ∧
  (length (queue b') ≤ max_queue_size cfg)%nat ∧
  (length (batch b') < Nat.max 1 (batch_size cfg))%nat ∧
  Forall (λ es, 0 < length es ≤ Nat.max 1 (batch_size cfg))%nat (batches outs).
Proof.
  intros (Hok & Hb & Hq & Hs & Hd & _)%new_ok Hrun.
  apply run_ok in Hrun as ([Hq' Hb' _ _] & (Ha & Hs' & Hd') & Hz); [|done].
  rewrite Hb, Hq in Ha. rewrite Hs in Hs'. rewrite Hd in Hd'. simpl in *.
  unfold get_metrics. rewrite Hs', Hd'. done.
Qed.

(** ** The publisher under the batcher *)
Fixpoint publish_all (p : P) (bs : list (list E)) : outcome P :=
  match bs with
  | [] => Ret p
  | b :: bs => r ← publish_batch p b; publish_all r.1 bs
  end.

Lemma publish_all_app p bs bs' :
  publish_all p (bs ++ bs') = (publish_all p bs ≫= λ p', publish_all p' bs').
Proof.
  revert p. induction bs as [|b bs IH]; intros p; [done|]. simpl.
  destruct (publish_batch p b) as [[p' r]| |]; [apply IH|done|done].
Qed.

Section responsive.
Context `{!ResponsivePublisher E P}.

Lemma flush_publisher b outs b' :
  serviceable (publisher b) → flush_batch b = (outs, b') →
  serviceable (publisher b') ∧ the_task b' = the_task b ∧
  publish_all (publisher b) (batches outs) = Ret (publisher b').
Proof.
  unfold flush_batch. intros Hp. destruct (batch b) as [|e es]; intros [= <- <-]; [done|].
  destruct (publish_batch_returns (publisher b) (e :: es) Hp) as (p' & r & Hr & Hp').
  rewrite Hr. cbn. rewrite Hr. done.
Qed.

Lemma recv_publisher cfg b outs b' :
  serviceable (publisher b) → on_recv cfg b = Some (outs, b') →
  serviceable (publisher b') ∧ publish_all (publisher b) (batches outs) = Ret (publisher b').
Proof.
  intros Hp. unfold on_recv. destruct (queue b) as [|e rest].
  - destruct (senders b); [done|]. destruct (flush_batch b) as [o b1] eqn:Hf.
    apply flush_publisher in Hf as (Hs & _ & Hpub); [|done].
    destruct (the_task b1); intros [= <- <-]; [|done..].
    rewrite batches_app, app_nil_r. cbn. rewrite shutdown_keeps. done.
  - intros [= Hr]. case_decide; [|by injection Hr as <- <-].
    apply flush_publisher in Hr as (Hs & _ & Hpub); done.
Qed.

(** A run takes the publisher through exactly the batches it published. *)
Lemma run_publisher cfg b l outs b' :
  serviceable (publisher b) → run_batcher cfg b l = Some (outs, b') →
  serviceable (publisher b') ∧ publish_all (publisher b) (batches outs) = Ret (publisher b').
Proof.
  revert b outs. induction l as [|i l IH]; intros b outs Hp; simpl; [by intros [= <- <-]|].
  intros ([o1 b1] & H1 & ([o2 b2] & H2 & [= <- <-])%bind_Some)%bind_Some.
  assert (serviceable (publisher b1) ∧
          publish_all (publisher b) (batches o1) = Ret (publisher b1)) as [Hp1 Hb1].
  { destruct i as [e| | |]; simpl in H1.
    - destruct (senders b); [|done]. unfold send_event in H1.
      destruct (receiver_dropped (the_task b)); [|case_decide]; by injection H1 as <- <-.
    - case_decide; [|done]. by eapply recv_publisher.
    - case_decide; [|done]. unfold on_tick in H1. destruct (batch b); injection H1 as H1;
        [by simplify_eq|]. apply flush_publisher in H1 as (? & _ & ?); done.
    - destruct (senders b); [|done]. by injection H1 as <- <-. }
  apply IH in H2 as [Hp2 Hb2]; [|done]. split; [done|].
  rewrite batches_app, publish_all_app, Hb1. done.
Qed.

(** ** Draining: once the senders are gone the task empties the queue, shuts
    the publisher down and returns. *)
Definition offered (outs : list output) : list E :=
  omap (λ o, match o with Answered e _ => Some e | _ => None end) outs.
Definition recvs (l : list input) : nat :=
  length (omap (λ i, match i with Recv => Some tt | _ => None end) l).

Lemma offered_app o1 o2 : offered (o1 ++ o2) = offered o1 ++ offered o2.
Proof. apply omap_app. Qed.

(** The task of [b] is in its loop and its publisher comes back. *)
Definition live (b : EventBatcher) : Prop := the_task b = Running ∧ serviceable (publisher b).

Lemma flush_live b outs b' :
  live b → flush_batch b = (outs, b') →
  live b' ∧ senders b' = senders b ∧ queue b' = queue b ∧ batch b' = [] ∧
  shutdowns outs = 0%nat ∧ offered outs = [].
Proof.
  intros [Ht Hp] Hf. destruct (flush_publisher _ _ _ Hp Hf) as (Hp' & Ht' & _).
  assert (offered outs = []) as Ho.
  { revert Hf. unfold flush_batch. destruct (batch b); by intros [= <- _]. }
  apply flush_batch_spec in Hf as (Hb & Hq & Hs & _ & _ & _ & _ & Hz & _).
  split_and!; try done. split; [by rewrite Ht'|done].
Qed.

(** A receive takes the first event of the queue, or ends the task when the
    queue is empty and the senders are gone. *)
Lemma recv_live cfg b :
  live b →
  match queue b with
  | _ :: q =>
      ∃ outs b', on_recv cfg b = Some (outs, b') ∧ live b' ∧ senders b' = senders b ∧
        queue b' = q ∧ shutdowns outs = 0%nat ∧ offered outs = []
  | [] =>
      if senders b then on_recv cfg b = None
      else ∃ outs b', on_recv cfg b = Some (outs, b') ∧ the_task b' = Returned ∧ senders b' = false ∧
        queue b' = [] ∧ batch b' = [] ∧ shutdowns outs = 1%nat ∧ offered outs = []
  end.
Proof.
  intros Hl. unfold on_recv. destruct (queue b) as [|e q] eqn:Hq.
  - destruct (senders b) eqn:Hs; [done|]. destruct (flush_batch b) as [o b1] eqn:Hf.
    apply flush_live in Hf as ((Ht1 & _) & Hs1 & Hq1 & Hb1 & Hz & Ho); [|done].
    rewrite Ht1. eexists _, _. split; [done|]. cbn.
    rewrite shutdowns_app, offered_app, Hz, Ho, Hq1, Hs1. done.
  - set (b1 := mk q (senders b) (events_sent b) (events_dropped b) (batch b ++ [e])
                  (publisher b) (the_task b)).
    case_decide; [|by exists [], b1]. destruct (flush_batch b1) as [o b2] eqn:Hf.
    apply flush_live in Hf as (Hl2 & Hs2 & Hq2 & _ & Hz & Ho); [|done]. by exists o, b2.
Qed.

Lemma tick_live b outs b' :
  live b → on_tick b = (outs, b') →
  live b' ∧ senders b' = senders b ∧ queue b' = queue b ∧ shutdowns outs = 0%nat ∧ offered outs = [].
Proof.
  unfold on_tick. destruct (batch b) eqn:Hb; [by intros ? [= <- <-]|].
  intros Hl Hf. apply flush_live in Hf as (? & ? & ? & _ & ? & ?); done.
Qed.

Lemma quiet_accepted outs : offered outs = [] → accepted outs = [].
Proof. unfold offered, accepted. by induction outs as [|[]]. Qed.

(** The task ends here: the senders are gone and the queue is empty. *)
Definition task_ends (outs : list output) (b' : EventBatcher) : Prop :=
  the_task b' = Returned ∧ senders b' = false ∧ queue b' = [] ∧ batch b' = [] ∧ shutdowns outs = 1%nat.
(** The task goes on. *)
Definition goes_on (outs : list output) (b' : EventBatcher) : Prop := live b' ∧ shutdowns outs = 0%nat.

Lemma step_live cfg b i outs b' :
  live b → step cfg b i = Some (outs, b') →
  (dropped outs = [] → offered outs = accepted outs) ∧ (senders b = false → senders b' = false ∧ offered outs = []) ∧
  (goes_on outs b' ∧ (senders b = false → recvs [i] + length (queue b') = length (queue b))%nat ∨
   task_ends outs b' ∧ i = Recv ∧ senders b = false ∧ queue b = []).
Proof.
  intros Hl. pose proof Hl as [Ht _].
  assert (Hquiet : offered outs = [] → dropped outs = [] → offered outs = accepted outs).
  { intros Ho _. by rewrite (quiet_accepted _ Ho). }
  destruct i as [e| | |]; simpl.
  - destruct (senders b); [|done]. unfold send_event. rewrite Ht. simpl.
    case_decide; intros [= <- <-]; (split_and!; [by cbn|done|]);
      left; (split; [split; [split; [done|apply Hl]|done]|done]).
  - rewrite decide_True by done. pose proof (recv_live cfg b Hl) as Hr.
    destruct (queue b) as [|x q] eqn:Hq; [destruct (senders b) eqn:Hs|]; [by rewrite Hr|..];
      destruct Hr as (o & b1 & Hr & Hrest); rewrite Hr; intros [= -> ->].
    + destruct Hrest as (? & ? & ? & ? & ? & Ho). split_and!; [auto|done|]. right. by unfold task_ends.
    + destruct Hrest as (? & Hs1 & Hq1 & ? & Ho). split_and!; [auto|by rewrite Hs1, Ho|].
      left. rewrite Hq1. done.
  - rewrite decide_True by done. intros [= Ht1].
    apply tick_live in Ht1 as (? & Hs1 & Hq1 & ? & Ho); [|done].
    split_and!; [auto|by rewrite Hs1, Ho|]. left. by rewrite Hq1.
  - destruct (senders b); [|done]. intros [= <- <-]. split_and!; try done.
    left. split; [split; [exact Hl|done]|done].
Qed.

(** A task that has ended takes no further step. *)
Lemma ended_run cfg b l outs b' :
  the_task b = Returned → senders b = false → run_batcher cfg b l = Some (outs, b') →
  l = [] ∧ outs = [] ∧ b' = b.
Proof.
  intros Ht Hs. destruct l as [|i l]; simpl; [by intros [= <- <-]|].
  intros ([o1 b1] & H1 & _)%bind_Some. destruct i; simpl in H1; rewrite ?Hs, ?Ht in H1; done.
Qed.

Lemma recvs_cons i l : recvs (i :: l) = (recvs [i] + recvs l)%nat.
Proof. unfold recvs. by destruct i. Qed.

(** Every run of a live batcher: the task goes on, or it has ended after the
    senders went away. *)
Lemma run_live cfg l : ∀ b outs b',
  live b → run_batcher cfg b l = Some (outs, b') →
  (dropped outs = [] → offered outs = accepted outs) ∧ (senders b = false → senders b' = false ∧ offered outs = []) ∧
  (goes_on outs b' ∧ (senders b = false → recvs l + length (queue b') = length (queue b))%nat ∨
   task_ends outs b' ∧ (senders b = false → recvs l = S (length (queue b)))).
Proof.
  induction l as [|i l IH]; intros b outs b' Hl; simpl.
  { intros [= <- <-]. split_and!; try done. by left. }
  intros ([o1 b1] & H1 & ([o2 b2] & H2 & [= <- <-])%bind_Some)%bind_Some.
  apply step_live in H1 as (Ho1 & Hs1 & [[[Hl1 Hz1] Hn1]|[(Ht1 & Hs1' & Hend) (-> & Hs & Hq)]]); [|..|done].
  - apply IH in H2 as (Ho2 & Hs2 & Hor); [|done].
    rewrite recvs_cons. unfold goes_on, task_ends in *. rewrite dropped_app, offered_app, accepted_app, shutdowns_app, Hz1.
    split_and!; [intros [? ?]%app_nil; rewrite Ho1, Ho2; done| |].
    { intros Hs. destruct (Hs1 Hs) as [Hs' ->]. by apply Hs2. }
    destruct Hor as [[? Hn2]|[? Hn2]]; [left|right]; (split; [done|]); intros Hs;
      specialize (Hn1 Hs); specialize (Hn2 (proj1 (Hs1 Hs))); lia.
  - apply ended_run in H2 as (-> & -> & ->); [|done..]. rewrite app_nil_r.
    split_and!; [done..|]. right. split; [done|]. by rewrite Hq.
Qed.

End responsive.
End batcher.
Arguments EventBatcher : clear implicits.
Arguments output : clear implicits.
Arguments input : clear implicits.

(** ** A publisher that records what it is given *)
Section recording.
Context {E : Type}.

#[local] Instance recorder : EventPublisher E (list (list E)) := {|
  publish_batch log es := Ret (log ++ [es], true); shutdown log := (log, true) |}.
#[local] Program Instance recorder_responsive : ResponsivePublisher E (list (list E)) :=
  {| serviceable _ := True |}.
Next Obligation. intros p es _. by eexists _, _. Qed.
Next Obligation. done. Qed.
End recording.
#[local] Existing Instances recorder recorder_responsive.

Definition demo_cfg : Config := {| batch_size := 2; flush_interval_ms := 100; max_queue_size := 2 |}.
Definition demo_start : EventBatcher Z (list (list Z)) := mk [] true 0 0 [] [] Running.
Definition demo_run : list (input Z) := [Send 1; Send 2; Recv; Tick; Send 3].
Definition demo_rest : list (input Z) := [Tick; Recv; Tick; Recv; Recv].


(** The queue drops the event that does not fit, which is the newest. *)
Example newest_event_dropped :
  (λ r, dropped r.1) <$> run_batcher demo_cfg demo_start [Send 1; Send 2; Send 3] = Some [3].
Proof. reflexivity. Qed.
End Batch.

(** ** The HTTP publisher (publisher/http_publisher.rs) *)
Module Http.

Record PublisherMetrics : Type := metrics {
  total_events : Z;
  total_batches : Z;
  total_bytes : Z;
  batch_seq : Z;
  successful_publishes : Z;
  failed_publishes : Z
}.

Record request : Type := Request {
  url : bytes; headers : list (bytes * bytes); body : bytes
}.
(** [send()] fails, or gives a status and a body that may not be readable. *)
Inductive response : Type := SendFailed | Response (status : Z) (text : option bytes).
Inductive publish_error : Type :=
| FailedToSend
| FailedWithStatus (status : Z) (error_body : bytes).

(** [sent] are the requests made so far; what the server answers next may
    depend on all of them. *)
Record HttpPublisher : Type := mk {
  endpoint : bytes;
  max_retries : Z;
  api_key : option bytes;
  shadow_id : option bytes;
  proxy_id : bytes;
  the_metrics : PublisherMetrics;
  sent : list request
}.

Section publisher.
Context `{Build} {E : Type}.
Context (server : list request → response).
Context (serialize_batch : list E → bytes → Z → bytes).

(** [uuid] is the text of a fresh UUID, [client] whether the client builds. *)
Definition new (endpoint_ : bytes) (max_retries_ : Z) (api_key_ shadow_id_ : option bytes)
    (allow_insecure : bool) (uuid : bytes) (client : bool) : option HttpPublisher :=
  if negb (Str.starts_with endpoint_ (lit "https://")) && negb allow_insecure then None
  else if negb client then None
  else Some (mk endpoint_ max_retries_ api_key_ shadow_id_ (lit "scry-" ++ uuid)
                (metrics 0 0 0 0 0 0) []).

Definition with_metrics (f : PublisherMetrics → PublisherMetrics) (p : HttpPublisher) : HttpPublisher :=
  mk (endpoint p) (max_retries p) (api_key p) (shadow_id p) (proxy_id p) (f (the_metrics p)) (sent p).

Definition build_request (p : HttpPublisher) (payload : bytes) : request :=
  Request (endpoint p)
    ((lit "Content-Type", lit "application/x-flexbuffer")
     :: match api_key p with Some k => [(lit "X-API-Key", k)] | None => [] end
     ++ match shadow_id p with Some i => [(lit "X-Shadow-Id", i)] | None => [] end)
    payload.

Definition is_success (status : Z) : bool := (200 <=? status) && (status <? 300).

Definition send_request (p : HttpPublisher) (payload : bytes) : HttpPublisher * (unit + publish_error) :=
  let p' := mk (endpoint p) (max_retries p) (api_key p) (shadow_id p) (proxy_id p) (the_metrics p)
               (sent p ++ [build_request p payload]) in
  (p', match server (sent p') with
       | SendFailed => inr FailedToSend
       | Response status text =>
           if is_success status then inl tt
           else inr (FailedWithStatus status
                       (match text with Some t => t | None => lit "Unable to read response body" end))
       end).

Definition succeed (m : PublisherMetrics) : PublisherMetrics :=
  metrics (total_events m) (total_batches m) (total_bytes m) (batch_seq m)
          (atomic_add two64 (successful_publishes m) 1) (failed_publishes m).
Definition fail (m : PublisherMetrics) : PublisherMetrics :=
  metrics (total_events m) (total_batches m) (total_bytes m) (batch_seq m)
          (successful_publishes m) (atomic_add two64 (failed_publishes m) 1).

(** The publisher afterwards, the delays slept and the result. *)
Fixpoint retries_loop (fuel : nat) (p : HttpPublisher) (payload : bytes) (attempts backoff_ms : Z)
    : outcome (HttpPublisher * list Z * (unit + publish_error)) :=
  match fuel with
  | O => Diverge
  | S fuel =>
      let '(p1, r) := send_request p payload in
      match r with
      | inl _ => Ret (with_metrics succeed p1, [], inl tt)
      | inr e =>
          attempts' ← u32_add attempts 1;
          if max_retries p <? attempts' then Ret (with_metrics fail p1, [], inr e)
          else
            r ← retries_loop fuel p1 payload attempts' (Z.min (backoff_ms * 2) 5000);
            Ret (r.1.1, backoff_ms :: r.1.2, r.2)
      end
  end.

(** The attempt that exceeds [max_retries] is the last: [max_retries + 1]
    rounds are enough (for the largest [u32] the code counts past its range). *)
Definition publish_with_retries (p : HttpPublisher) (payload : bytes)
    : outcome (HttpPublisher * list Z * (unit + publish_error)) :=
  retries_loop (S (Z.to_nat (max_retries p))) p payload 0 50.

Definition count_batch (n byte_size : Z) (m : PublisherMetrics) : PublisherMetrics :=
  metrics (atomic_add two64 (total_events m) n) (atomic_add two64 (total_batches m) 1)
          (atomic_add two64 (total_bytes m) byte_size) (batch_seq m) (successful_publishes m)
          (failed_publishes m).
Definition next_seq (m : PublisherMetrics) : PublisherMetrics :=
  metrics (total_events m) (total_batches m) (total_bytes m) (atomic_add two64 (batch_seq m) 1)
          (successful_publishes m) (failed_publishes m).

(** [publish_batch]: failures are logged, never returned. *)
Definition http_publish_batch (p : HttpPublisher) (events : list E) : outcome (HttpPublisher * bool) :=
  match events with
  | [] => Ret (p, true)
  | _ =>
      let seq := batch_seq (the_metrics p) in
      let p1 := with_metrics next_seq p in
      let payload := serialize_batch events (proxy_id p) seq in
      let p2 := with_metrics
                  (count_batch (Z.of_nat (length events)) (Z.of_nat (length payload))) p1 in
      r ← publish_with_retries p2 payload;
      Ret (r.1.1, true)
  end.

#[local] Instance http_publisher : EventPublisher E HttpPublisher := {|
  publish_batch := http_publish_batch; shutdown p := (p, true) |}.

(** ** What is sent *)

(** [same p p']: only counters and the request log differ. *)
Definition same (p p' : HttpPublisher) : Prop :=
  endpoint p' = endpoint p ∧ max_retries p' = max_retries p ∧ api_key p' = api_key p ∧
  shadow_id p' = shadow_id p ∧ proxy_id p' = proxy_id p.

Lemma build_request_same p p' payload : same p p' → build_request p' payload = build_request p payload.
Proof. intros (He & _ & Hk & Hs & _). unfold build_request. by rewrite He, Hk, Hs. Qed.

Definition settled (m : PublisherMetrics) (r : unit + publish_error) : PublisherMetrics :=
  match r with inl _ => succeed m | inr _ => fail m end.

Lemma retries_loop_spec fuel p payload attempts backoff :
  0 ≤ attempts → attempts ≤ max_retries p < two32 - 1 →
  fuel = S (Z.to_nat (max_retries p - attempts)) → 50 ≤ backoff ≤ 5000 →
  ∃ k p' ds r,
    retries_loop fuel p payload attempts backoff = Ret (p', ds, r) ∧
    (0 < k ≤ fuel)%nat ∧ (r ≠ inl tt → k = fuel) ∧ k = S (length ds) ∧
    Forall (λ d, 50 ≤ d ≤ 5000) ds ∧ same p p' ∧ the_metrics p' = settled (the_metrics p) r ∧
    sent p' = sent p ++ replicate k (build_request p payload).
Proof.
  revert p attempts backoff. induction fuel as [|fuel IH]; intros p attempts backoff Ha Hm Hf Hb; [lia|].
  cbn [retries_loop send_request].
  set (p1 := mk (endpoint p) (max_retries p) (api_key p) (shadow_id p) (proxy_id p) (the_metrics p)
                (sent p ++ [build_request p payload])).
  destruct (match server (sent p1) with SendFailed => _ | _ => _ end) as [[]|e].
  - exists 1%nat, (with_metrics succeed p1), [], (inl tt). split_and!; try done; lia.
  - rewrite u32_add_fits by (unfold two32 in *; lia). simpl.
    destruct (max_retries p <? attempts + 1) eqn:Hlt; bool_to_Z.
    + exists 1%nat, (with_metrics fail p1), [], (inr e).
      replace fuel with 0%nat by lia. split_and!; try done; lia.
    + destruct (IH p1 (attempts + 1) (Z.min (backoff * 2) 5000))
        as (k & p' & ds & r & Hr & Hk & Hl & Hds & Hd & Hsame & Hmet & Hsent); simpl; try lia.
      exists (S k), p', (backoff :: ds), r. rewrite Hr. simpl.
      split_and!; try done; try lia.
      * intros Hne. rewrite (Hl Hne). done.
      * by constructor.
      * rewrite Hsent. simpl. rewrite <-app_assoc. simpl. by rewrite (build_request_same p p1).
Qed.

(** The requests of a sequence of batches: the [i]-th batch, serialised with
    its sequence number, is posted [k_i] times. *)
Fixpoint requests_from (p : HttpPublisher) (seq : Z) (bs : list (list E)) (ks : list nat)
    : list request :=
  match bs, ks with
  | b :: bs, k :: ks =>
      replicate k (build_request p (serialize_batch b (proxy_id p) seq))
      ++ requests_from p ((seq + 1) mod two64) bs ks
  | _, _ => []
  end.

Lemma http_publish_batch_spec p es :
  0 ≤ max_retries p < two32 - 1 → es ≠ [] →
  ∃ k p' r,
    http_publish_batch p es = Ret (p', true) ∧ (0 < k ≤ S (Z.to_nat (max_retries p)))%nat ∧
    same p p' ∧
    the_metrics p' = settled (count_batch (Z.of_nat (length es))
       (Z.of_nat (length (serialize_batch es (proxy_id p) (batch_seq (the_metrics p)))))
       (next_seq (the_metrics p))) r ∧
    sent p' = sent p ++ replicate k
       (build_request p (serialize_batch es (proxy_id p) (batch_seq (the_metrics p)))).
Proof.
  intros Hm Hes. unfold http_publish_batch. destruct es as [|e es]; [done|].
  set (payload := serialize_batch (e :: es) (proxy_id p) (batch_seq (the_metrics p))).
  set (p2 := with_metrics (count_batch _ _) (with_metrics next_seq p)).
  destruct (retries_loop_spec (S (Z.to_nat (max_retries p2))) p2 payload 0 50)
    as (k & p' & ds & r & Hr & Hk & _ & _ & _ & Hsame & Hmet & Hsent);
    change (max_retries p2) with (max_retries p) in *; try lia.
  exists k, p', r. unfold publish_with_retries.
  change (max_retries p2) with (max_retries p). rewrite Hr. split_and!; try done; lia.
Qed.

Definition totals (m : PublisherMetrics) : Z * Z * Z :=
  (total_events m, total_batches m, (successful_publishes m + failed_publishes m) mod two64).

Lemma publish_all_spec p bs p' :
  0 ≤ max_retries p < two32 - 1 → Forall (λ es, es ≠ []) bs →
  Batch.publish_all p bs = Ret p' →
  ∃ ks, length ks = length bs ∧
    Forall (λ k, 0 < k ≤ S (Z.to_nat (max_retries p)))%nat ks ∧ same p p' ∧
    sent p' = sent p ++ requests_from p (batch_seq (the_metrics p)) bs ks.
Proof.
  revert p. induction bs as [|b bs IH]; intros p Hm Hbs.
  - intros [= <-]. exists []. by rewrite app_nil_r.
  - apply Forall_cons in Hbs as [Hb Hbs].
    destruct (http_publish_batch_spec p b Hm Hb) as (k & p1 & r & H1 & Hk & Hs1 & Hm1 & Hsent1).
    cbn [Batch.publish_all publish_batch http_publisher]. rewrite H1. cbn [mbind outcome_bind fst].
    intros H2. destruct Hs1 as (He & Hmr & Ha & Hsi & Hpi). apply IH in H2 as (ks & Hl & Hks & Hs2 & Hsent2);
      [|by rewrite Hmr|done].
    exists (k :: ks). split; [simpl; lia|]. rewrite Hmr in Hks. split; [by constructor|].
    destruct Hs2 as (? & ? & ? & ? & ?).
    split; [unfold same; split_and!; congruence|].
    rewrite Hsent2, Hsent1, <-app_assoc. simpl. f_equal. f_equal.
    replace (batch_seq (the_metrics p1)) with ((batch_seq (the_metrics p) + 1) mod two64)
      by (rewrite Hm1; by destruct r).
    clear -He Ha Hsi Hpi. generalize ((batch_seq (the_metrics p) + 1) mod two64).
    revert ks. induction bs as [|b bs IH]; intros [|k ks] z; try done. simpl.
    rewrite IH. unfold build_request. by rewrite He, Ha, Hsi, Hpi.
Qed.

#[local] Program Instance http_responsive : ResponsivePublisher E HttpPublisher :=
  {| serviceable p := 0 ≤ max_retries p < two32 - 1 |}.
Next Obligation.
  intros p es Hp. destruct (decide (es = [])) as [->|Hes]; [by exists p, true|].
  destruct (http_publish_batch_spec p es Hp Hes) as (k & p' & r & Hr & _ & Hs & _).
  exists p', true. split; [done|]. destruct Hs as (_ & -> & _). done.
Qed.
Next Obligation. done. Qed.

Lemma new_spec endpoint_ mr key sid insecure uuid client p :
  new endpoint_ mr key sid insecure uuid client = Some p →
  max_retries p = mr ∧ sent p = [] ∧ batch_seq (the_metrics p) = 0 ∧
  (insecure = false → Str.starts_with (endpoint p) (lit "https://") = true).
Proof.
  unfold new. destruct (negb (Str.starts_with endpoint_ _) && negb insecure) eqn:Hg; [done|].
  destruct client; [|done]. intros [= <-]. split_and!; try done. intros ->.
  cbn [endpoint]. rewrite andb_true_r in Hg. by apply negb_false_iff in Hg.
Qed.

Lemma requests_from_url p z bs ks : Forall (λ r, url r = endpoint p) (requests_from p z bs ks).
Proof.
  revert z ks. induction bs as [|b bs IH]; intros z [|k ks]; try constructor. simpl.
  apply Forall_app. split; [|apply IH]. by apply Forall_replicate.
Qed.

(** C32. Batcher and HTTP publisher together: at every moment the requests made
    are those of the published batches in order, each batch serialised with the
    next sequence number and posted at least once and at most [max_retries + 1]
    times; with the batch and the queue they account for every accepted event;
    and unless the operator allowed otherwise every request goes to an https
    endpoint. *)
Theorem events_reach_endpoint (endpoint_ : bytes) mr key sid insecure uuid client p
    (cfg : Batch.Config) b l (outs : list (Batch.output E)) b' :
  new endpoint_ mr key sid insecure uuid client = Some p → 0 ≤ mr < two32 - 1 →
  Batch.new cfg p = Ret b → Batch.run_batcher cfg b l = Some (outs, b') →
  ∃ ks, length ks = length (Batch.batches outs) ∧
    Forall (λ k, 0 < k ≤ S (Z.to_nat mr))%nat ks ∧
    sent (Batch.publisher b') = requests_from p 0 (Batch.batches outs) ks ∧
    Batch.accepted outs = concat (Batch.batches outs) ++ Batch.batch b' ++ Batch.queue b' ∧
    (insecure = false →
     Forall (λ r, Str.starts_with (url r) (lit "https://") = true) (sent (Batch.publisher b'))).
Proof.
  intros (Hr & Hs0 & Hseq & Hsec)%new_spec Hmr Hnew Hrun. rewrite <-Hr in *.
  apply Batch.new_ok in Hnew as (Hok & Hb & Hq & _ & _ & _ & Hpb).
  assert (Hp : serviceable (Batch.publisher b)) by (by rewrite Hpb).
  destruct (Batch.run_publisher _ _ _ _ _ Hp Hrun) as [_ Hpub].
  apply Batch.run_ok in Hrun as (_ & (Ha & _) & Hz); [|done].
  rewrite Hb, Hq in Ha. rewrite Hpb in Hpub.
  assert (Hne : Forall (λ es, es ≠ []) (Batch.batches outs)).
  { eapply Forall_impl; [exact Hz|]. intros [|] ?; simpl in *; [lia|done]. }
  destruct (publish_all_spec p (Batch.batches outs) _ Hmr Hne Hpub) as (ks & Hl & Hks & Hs & Hsent).
  rewrite Hs0, Hseq in Hsent. exists ks. split_and!; try done.
  intros Hi. rewrite Hsent. eapply Forall_impl; [apply requests_from_url|].
  intros r ->. by apply Hsec.
Qed.
End publisher.

(** A server that fails twice and then accepts, and a list serialised as one
    byte per event. *)
Definition demo_server (log : list request) : response :=
  if decide (length log < 3)%nat then Response 503 None else Response 200 None.
Definition demo_ser (es : list byte) (_ : bytes) (seq : Z) : bytes := Z_byte seq :: es.
#[local] Instance demo_publisher : EventPublisher byte HttpPublisher :=
  http_publisher (H := release_build) demo_server demo_ser.
Definition demo_http : HttpPublisher :=
  mk (lit "https://h") 3 None None (lit "scry-u") (metrics 0 0 0 0 0 0) [].
Definition demo_batcher : Batch.EventBatcher byte HttpPublisher :=
  Batch.mk [] true 0 0 [] demo_http Batch.Running.
Definition demo_inputs : list (Batch.input byte) :=
  [Batch.Send x41; Batch.Recv; Batch.Tick; Batch.Send x42; Batch.Recv; Batch.Tick].

Lemma events_reach_endpoint_witness :
  ∃ outs b' ks, Batch.run_batcher Batch.demo_cfg demo_batcher demo_inputs = Some (outs, b') ∧
    sent (Batch.publisher b') = requests_from demo_ser demo_http 0 [[x41]; [x42]] ks ∧
    ks = [3; 1]%nat.
Proof.
  destruct (Batch.run_batcher Batch.demo_cfg demo_batcher demo_inputs) as [[outs b']|] eqn:Hr;
    [|vm_compute in Hr; discriminate].
  destruct (events_reach_endpoint (H := release_build) demo_server demo_ser (lit "https://h") 3 None
              None false (lit "u") true demo_http Batch.demo_cfg demo_batcher demo_inputs outs b')
    as (ks & Hl & Hks & Hsent & _ & _);
    [reflexivity|by vm_compute|reflexivity|exact Hr|].
  exists outs, b', ks. vm_compute in Hr. injection Hr as <- <-. split; [reflexivity|].
  destruct ks as [|k1 [|k2 [|]]]; try discriminate Hl. split; [exact Hsent|].
  rewrite !Forall_cons in Hks. destruct Hks as (H1 & H2 & _).
  change (Z.to_nat 3) with 3%nat in *.
  destruct k1 as [|[|[|[|[|]]]]], k2 as [|[|[|[|[|]]]]]; try lia; try reflexivity; vm_compute in Hsent;
    discriminate Hsent.
Defined.
End Http.

(** *** The debug logger (publisher/debug_logger.rs) *)
Module Debug.
Record DebugLoggerPublisher : Type := mk { total_events : Z; total_batches : Z; total_bytes : Z }.
Definition new : DebugLoggerPublisher := mk 0 0 0.
Definition get_metrics (p : DebugLoggerPublisher) : Z * Z * Z :=
  (total_events p, total_batches p, total_bytes p).

Section debug.
Context {E : Type} (to_json : list E → option bytes).

(** [serde_json] may fail, and the error is returned. *)
Definition debug_publish_batch (p : DebugLoggerPublisher) (events : list E)
    : outcome (DebugLoggerPublisher * bool) :=
  match events with
  | [] => Ret (p, true)
  | _ =>
      match to_json events with
      | None => Ret (p, false)
      | Some json =>
          Ret (mk (atomic_add two64 (total_events p) (Z.of_nat (length events)))
                  (atomic_add two64 (total_batches p) 1)
                  (atomic_add two64 (total_bytes p) (Z.of_nat (length json))), true)
      end
  end.

#[local] Instance debug_publisher : EventPublisher E DebugLoggerPublisher := {|
  publish_batch := debug_publish_batch; shutdown p := (p, true) |}.
#[local] Program Instance debug_responsive : ResponsivePublisher E DebugLoggerPublisher :=
  {| serviceable _ := True |}.
Next Obligation.
  intros p es _. cbn. unfold debug_publish_batch.
  destruct es; [by eexists _, _|]. by destruct (to_json _); eexists _, _.
Qed.
Next Obligation. done. Qed.
End debug.
End Debug.
