(* ===== verification/CommandDetector.v ===== *)
(** * Classification of SQL statements (protocol/command_detector.rs)

    [detect] recognises the statements that change the state of a backend
    session, [classify] decides whether a statement is safe to run on a pooled
    connection.  Slicing is by byte offset, and some of the offsets are computed
    on the upper-cased copy of the statement, so both may panic. *)

From S2P Require Import Prelude RustStr.

Module Detector.

Inductive DetectedCommand : Type :=
| Set_ (name value : bytes)
| Reset (name : bytes)
| ResetAll
| CreateTempTable (name : bytes)
| DropTable (name : bytes)
| DeclareCursor (name : bytes) (with_hold : bool)
| CloseCursor (name : bytes)
| AdvisoryLock (key : option Z)
| AdvisoryUnlock (key : option Z)
| DiscardAll
| Deallocate (name : bytes)
| DeallocateAll
| Listen (channel : bytes)
| Unlisten (channel : option bytes)
| Notify (channel : bytes) (payload : option bytes).

Inductive CommandClass : Type :=
| Clean
| Stateful (cmd : DetectedCommand)
| Unknown.

#[export] Instance DetectedCommand_eq_dec : EqDecision DetectedCommand.
Proof. solve_decision. Defined.
#[export] Instance CommandClass_eq_dec : EqDecision CommandClass.
Proof. solve_decision. Defined.

(** [x?] in a function that returns an [Option]. *)
Definition try_opt {A B} (o : option A) (k : A → outcome (option B)) : outcome (option B) :=
  match o with Some a => k a | None => Ret None end.

Definition starts_with_keyword (upper kw : bytes) : bool :=
  match Str.strip_prefix upper kw with
  | Some rest =>
      match Str.chars rest with
      | [] => true
      | c :: _ => Str.is_whitespace c || bool_decide (c = [x28]) || bool_decide (c = [x3b])
      end
  | None => false
  end.

Definition clean_keywords : list bytes :=
  lit <$> ["SELECT"; "INSERT"; "UPDATE"; "DELETE"; "WITH"; "VALUES"; "TABLE"; "EXPLAIN";
           "SHOW"; "BEGIN"; "START"; "COMMIT"; "ROLLBACK"; "END"; "ABORT"; "SAVEPOINT";
           "RELEASE"]%string.

(** The first word of [str::split_whitespace]. *)
Definition first_word (s : bytes) : option bytes := head (Str.split_whitespace s).

Section detect.
Context `{Unicode}.

Definition is_known_clean (sql : bytes) : bool :=
  let upper := Str.to_uppercase (Str.trim_start sql) in
  if Str.contains upper (lit "SET_CONFIG") then false
  else existsb (starts_with_keyword upper) clean_keywords.

Definition parse_set (sql : bytes) : outcome (option DetectedCommand) :=
  try_opt (Str.get_from sql 3) (λ r,
  let rest := Str.trim r in
  match Str.find rest (lit "=") with
  | Some eq_pos =>
      n ← Str.slice rest 0 eq_pos;
      v ← Str.slice_from rest (eq_pos + 1);
      Ret (Some (Set_ (Str.to_lowercase (Str.trim n)) (Str.trim_matches x27 (Str.trim v))))
  | None =>
      match Str.find (Str.to_uppercase rest) (lit " TO ") with
      | Some to_pos =>
          n ← Str.slice rest 0 to_pos;
          v ← Str.slice_from rest (to_pos + 4);
          Ret (Some (Set_ (Str.to_lowercase (Str.trim n)) (Str.trim_matches x27 (Str.trim v))))
      | None => Ret None
      end
  end).

Definition parse_reset (sql : bytes) : outcome (option DetectedCommand) :=
  try_opt (Str.get_from sql 5) (λ r,
  let rest := Str.trim r in
  if Str.eq_ignore_ascii_case rest (lit "ALL") then Ret (Some ResetAll)
  else Ret (Some (Reset (Str.to_lowercase rest)))).

Definition parse_create_temp_table (sql : bytes) : outcome (option DetectedCommand) :=
  let upper := Str.to_uppercase sql in
  let table_pos :=
    match Str.find upper (lit "TEMP TABLE") with
    | Some p => Some (p + 10)%nat
    | None => (λ p, p + 15)%nat <$> Str.find upper (lit "TEMPORARY TABLE")
    end in
  try_opt table_pos (λ p,
  r ← Str.slice_from sql p;
  try_opt (first_word (Str.trim r)) (λ name, Ret (Some (CreateTempTable name)))).

Definition parse_drop_table (sql : bytes) : outcome (option DetectedCommand) :=
  let upper := Str.to_uppercase sql in
  if Str.starts_with upper (lit "DROP TABLE") then
    r ← Str.slice_from sql 10;
    let rest := Str.trim r in
    rest ← (if Str.starts_with (Str.to_uppercase rest) (lit "IF EXISTS")
            then Str.trim <$> Str.slice_from rest 9 else Ret rest);
    try_opt (first_word rest) (λ name, Ret (Some (DropTable name)))
  else Ret None.

Definition parse_declare_cursor (sql : bytes) : outcome (option DetectedCommand) :=
  let upper := Str.to_uppercase sql in
  if Str.starts_with upper (lit "DECLARE ") then
    r ← Str.slice_from sql 8;
    try_opt (first_word (Str.trim r)) (λ name,
    Ret (Some (DeclareCursor name (Str.contains upper (lit "WITH HOLD")))))
  else Ret None.

Definition parse_close_cursor (sql : bytes) : outcome (option DetectedCommand) :=
  let upper := Str.to_uppercase sql in
  if Str.starts_with upper (lit "CLOSE ") then
    r ← Str.slice_from sql 6;
    try_opt (first_word (Str.trim r)) (λ name, Ret (Some (CloseCursor name)))
  else Ret None.

Definition parse_deallocate (sql : bytes) : outcome (option DetectedCommand) :=
  let upper := Str.to_uppercase sql in
  if Str.starts_with upper (lit "DEALLOCATE ") then
    r ← Str.slice_from sql 11;
    let rest := Str.trim r in
    rest ← (if Str.starts_with (Str.to_uppercase rest) (lit "PREPARE ")
            then Str.trim <$> Str.slice_from rest 8 else Ret rest);
    if Str.eq_ignore_ascii_case rest (lit "ALL") then Ret (Some DeallocateAll)
    else try_opt (first_word rest) (λ name, Ret (Some (Deallocate name)))
  else Ret None.

Definition parse_listen (sql : bytes) : outcome (option DetectedCommand) :=
  try_opt (Str.get_from sql 7) (λ r,
  try_opt (first_word (Str.trim r)) (λ w,
  Ret (Some (Listen (Str.trim_matches x22 w))))).

Definition parse_unlisten (sql : bytes) : outcome (option DetectedCommand) :=
  let rest := Str.trim (default [] (Str.get_from sql 8)) in
  if bool_decide (rest = []) || bool_decide (rest = lit "*") then Ret (Some (Unlisten None))
  else try_opt (first_word rest) (λ w,
       Ret (Some (Unlisten (Some (Str.trim_matches x22 w))))).

Definition parse_notify (sql : bytes) : outcome (option DetectedCommand) :=
  try_opt (Str.get_from sql 7) (λ r,
  let rest := Str.trim r in
  match Str.find rest (lit ",") with
  | Some idx =>
      v ← Str.slice_from rest (idx + 1);
      c ← Str.slice rest 0 idx;
      Ret (Some (Notify (Str.trim_matches x22 (Str.trim c))
                        (Some (Str.trim_matches x27 (Str.trim v)))))
  | None => Ret (Some (Notify (Str.trim_matches x22 (Str.trim rest)) None))
  end).

Definition extract_lock_key (sql : bytes) : outcome (option Z) :=
  match Str.find sql (lit "(") with
  | Some start =>
      match Str.find sql (lit ")") with
      | Some end_ =>
          inner ← Str.slice sql (start + 1) end_;
          Ret (Str.parse_i64 (Str.trim inner))
      | None => Ret None
      end
  | None => Ret None
  end.

Definition detect (sql : bytes) : outcome (option DetectedCommand) :=
  let sql_upper := Str.to_uppercase (Str.trim sql) in
  let sql_trimmed := Str.trim sql in
  let starts p := Str.starts_with sql_upper (lit p) in
  let has p := Str.contains sql_upper (lit p) in
  if starts "SET " then parse_set sql_trimmed
  else if starts "RESET " then parse_reset sql_trimmed
  else if starts "DISCARD ALL" then Ret (Some DiscardAll)
  else if has "CREATE" && (has "TEMP TABLE" || has "TEMPORARY TABLE")
  then parse_create_temp_table sql_trimmed
  else if starts "DROP TABLE" then parse_drop_table sql_trimmed
  else if starts "DECLARE " && has "CURSOR" then parse_declare_cursor sql_trimmed
  else if starts "CLOSE " then parse_close_cursor sql_trimmed
  else if starts "DEALLOCATE " then parse_deallocate sql_trimmed
  else if starts "LISTEN " then parse_listen sql_trimmed
  else if starts "UNLISTEN " || bool_decide (sql_upper = lit "UNLISTEN")
  then parse_unlisten sql_trimmed
  else if starts "NOTIFY " then parse_notify sql_trimmed
  else if has "PG_ADVISORY_LOCK" && negb (has "PG_ADVISORY_UNLOCK")
  then (λ k, Some (AdvisoryLock k)) <$> extract_lock_key sql_upper
  else if has "PG_ADVISORY_UNLOCK"
  then (λ k, Some (AdvisoryUnlock k)) <$> extract_lock_key sql_upper
  else Ret None.

Definition classify (sql : bytes) : outcome CommandClass :=
  d ← detect sql;
  match d with
  | Some cmd => Ret (Stateful cmd)
  | None => Ret (if is_known_clean sql then Clean else Unknown)
  end.
End detect.

Definition split_statements (sql : bytes) : list bytes :=
  filter (λ s, s ≠ []) (Str.trim <$> Str.split_byte x3b sql).


(** ** Lemmas *)
Lemma split_statements_app a b :
  split_statements (a ++ x3b :: b) = split_statements a ++ split_statements b.
Proof.
  unfold split_statements. by rewrite Str.split_byte_app, fmap_app, filter_app.
Qed.

Section totality.
Context `{Unicode}.

Abbreviation ascii := (Forall Str.is_ascii).
Abbreviation total m := (∃ r, m = Ret r).

Lemma try_opt_total {A B} (o : option A) (k : A → outcome (option B)) :
  (∀ a, o = Some a → total (k a)) → total (try_opt o k).
Proof. destruct o; simpl; eauto. Qed.

Lemma get_from_infix s n r : Str.get_from s n = Some r → r = drop n s.
Proof. unfold Str.get_from. case_match; congruence. Qed.

Lemma ascii_drop s n : ascii s → ascii (drop n s).
Proof. apply Forall_drop. Qed.

Lemma length_upper s : ascii s → length (Str.to_uppercase s) = length s.
Proof. intros Hs. by rewrite Str.to_uppercase_ascii, length_fmap. Qed.

Lemma upper_starts_length s pat :
  ascii s → Str.starts_with (Str.to_uppercase s) pat = true → (length pat ≤ length s)%nat.
Proof. intros Hs Hp%Str.starts_with_length. by rewrite length_upper in Hp. Qed.

Lemma upper_find_bound s pat n :
  ascii s → Str.find (Str.to_uppercase s) pat = Some n → (n + length pat ≤ length s)%nat.
Proof. intros Hs Hp%Str.find_Some_bound. by rewrite length_upper in Hp. Qed.

Hint Resolve ascii_drop Str.Forall_trim : core.

Lemma parse_set_total s : ascii s → total (parse_set s).
Proof.
  intros Hs. unfold parse_set. apply try_opt_total. intros r ->%get_from_infix.
  assert (Hr : ascii (Str.trim (drop 3 s))) by auto.
  destruct (Str.find _ (lit "=")) as [p|] eqn:Hp.
  - apply Str.find_Some_bound in Hp. simpl in Hp.
    rewrite Str.slice_ascii, Str.slice_from_ascii by (done || lia). simpl. eauto.
  - destruct (Str.find _ (lit " TO ")) as [p|] eqn:Hq; [|eauto].
    apply upper_find_bound in Hq; [|done]. simpl in Hq.
    rewrite Str.slice_ascii, Str.slice_from_ascii by (done || lia). simpl. eauto.
Qed.

Lemma parse_reset_total s : total (parse_reset s).
Proof. apply try_opt_total. intros r _. cbv zeta. case_match; eauto. Qed.

Lemma first_word_total (r : bytes) (f : bytes → option DetectedCommand) :
  total (try_opt (first_word r) (λ n, Ret (f n))).
Proof. apply try_opt_total. eauto. Qed.

Lemma parse_create_temp_table_total s : ascii s → total (parse_create_temp_table s).
Proof.
  intros Hs. apply try_opt_total. intros p Hp.
  assert (p ≤ length s)%nat.
  { destruct (Str.find _ (lit "TEMP TABLE")) as [n|] eqn:Hn; simplify_eq/=.
    - by apply upper_find_bound in Hn.
    - apply fmap_Some in Hp as (n & Hn' & ->). by apply upper_find_bound in Hn'. }
  rewrite Str.slice_from_ascii by done. apply first_word_total.
Qed.

Lemma parse_drop_table_total s : ascii s → total (parse_drop_table s).
Proof.
  intros Hs. unfold parse_drop_table. destruct (Str.starts_with _ _) eqn:Hp; [|eauto].
  apply upper_starts_length in Hp; [|done]. simpl in Hp.
  rewrite Str.slice_from_ascii by done. cbn [mbind outcome_bind].
  assert (Hr : ascii (Str.trim (drop 10 s))) by auto.
  destruct (Str.starts_with _ (lit "IF EXISTS")) eqn:Hq; [|apply first_word_total].
  apply upper_starts_length in Hq; [|done]. simpl in Hq.
  rewrite Str.slice_from_ascii by done. apply first_word_total.
Qed.

Lemma parse_declare_cursor_total s : ascii s → total (parse_declare_cursor s).
Proof.
  intros Hs. unfold parse_declare_cursor. destruct (Str.starts_with _ _) eqn:Hp; [|eauto].
  apply upper_starts_length in Hp; [|done]. simpl in Hp.
  rewrite Str.slice_from_ascii by done. apply try_opt_total. eauto.
Qed.

Lemma parse_close_cursor_total s : ascii s → total (parse_close_cursor s).
Proof.
  intros Hs. unfold parse_close_cursor. destruct (Str.starts_with _ _) eqn:Hp; [|eauto].
  apply upper_starts_length in Hp; [|done]. simpl in Hp.
  rewrite Str.slice_from_ascii by done. apply first_word_total.
Qed.

Lemma parse_deallocate_total s : ascii s → total (parse_deallocate s).
Proof.
  intros Hs. unfold parse_deallocate. destruct (Str.starts_with _ _) eqn:Hp; [|eauto].
  apply upper_starts_length in Hp; [|done]. simpl in Hp.
  rewrite Str.slice_from_ascii by done. cbn [mbind outcome_bind].
  assert (Hr : ascii (Str.trim (drop 11 s))) by auto.
  destruct (Str.starts_with _ (lit "PREPARE ")) eqn:Hq.
  - apply upper_starts_length in Hq; [|done]. simpl in Hq.
    rewrite Str.slice_from_ascii by done. cbn [mbind outcome_bind fmap outcome_fmap].
    case_match; [eauto|apply first_word_total].
  - cbn [mbind outcome_bind]. case_match; [eauto|apply first_word_total].
Qed.

Lemma parse_listen_total s : total (parse_listen s).
Proof. apply try_opt_total. intros r _. apply try_opt_total. eauto. Qed.

Lemma parse_unlisten_total s : total (parse_unlisten s).
Proof. unfold parse_unlisten. cbv zeta. case_match; [eauto|]. apply try_opt_total. eauto. Qed.

Lemma parse_notify_total s : ascii s → total (parse_notify s).
Proof.
  intros Hs. apply try_opt_total. intros r ->%get_from_infix.
  assert (Hr : ascii (Str.trim (drop 7 s))) by auto. cbv zeta.
  destruct (Str.find _ (lit ",")) as [p|] eqn:Hp; [|eauto].
  apply Str.find_Some_bound in Hp. simpl in Hp.
  rewrite Str.slice_from_ascii, Str.slice_ascii by (done || lia). simpl. eauto.
Qed.

(** The one place where ASCII text can panic: a closing parenthesis before the
    first opening one. *)
Definition parens_ordered (s : bytes) : bool :=
  match Str.find s (lit "("), Str.find s (lit ")") with
  | Some a, Some b => bool_decide (a < b)%nat
  | _, _ => true
  end.

Lemma extract_lock_key_total s :
  ascii s → parens_ordered s = true → total (extract_lock_key s).
Proof.
  intros Hs. unfold parens_ordered, extract_lock_key.
  destruct (Str.find s (lit "(")) as [a|] eqn:Ha; [|eauto].
  destruct (Str.find s (lit ")")) as [b|] eqn:Hb; [|eauto].
  intros Hab%bool_decide_eq_true. apply Str.find_Some_bound in Hb. simpl in Hb.
  rewrite Str.slice_ascii by (done || lia). simpl. eauto.
Qed.

Lemma fmap_total {A B} (f : A → B) (m : outcome A) : total m → total (f <$> m).
Proof. intros [r ->]. simpl. eauto. Qed.

Lemma detect_total s :
  ascii s → parens_ordered (Str.to_uppercase (Str.trim s)) = true → total (detect s).
Proof.
  intros Hs Hp. assert (ascii (Str.trim s)) by auto.
  assert (ascii (Str.to_uppercase (Str.trim s))).
  { rewrite Str.to_uppercase_ascii by done. by apply Str.Forall_ascii_upper. }
  unfold detect. cbv zeta.
  repeat case_match; eauto using parse_set_total, parse_reset_total,
    parse_create_temp_table_total, parse_drop_table_total, parse_declare_cursor_total,
    parse_close_cursor_total, parse_deallocate_total, parse_listen_total, parse_unlisten_total,
    parse_notify_total, extract_lock_key_total, fmap_total.
Qed.

(** [classify] returns on every ASCII statement whose first closing
    parenthesis, if any, comes after its first opening one; it slices by offsets
    computed on the upper-cased copy, and all of them are in range. *)
Lemma classify_total s :
  ascii s → parens_ordered (Str.to_uppercase (Str.trim s)) = true → ∃ c, classify s = Ret c.
Proof.
  intros Hs Hp. destruct (detect_total s Hs Hp) as [d Hd].
  unfold classify. rewrite Hd. simpl. destruct d; eauto.
Qed.
End totality.


(** ** Degenerate input *)
Section blank.
Context `{Unicode}.

(** Nothing but ASCII white space and semicolons. *)
Definition blank (b : byte) : bool := Str.ascii_ws b || beqb b x3b.

Lemma blank_byte b : blank b → Str.is_ascii b ∧ Str.ascii_upper b = b ∧ Str.in_range 65 90 b = false.
Proof. destruct b; vm_compute; tauto. Qed.

Lemma blank_upper s : Forall blank s → Str.to_uppercase s = s.
Proof.
  intros Hs. rewrite Str.to_uppercase_ascii.
  - induction Hs as [|b s Hb _ IH]; [done|]. rewrite fmap_cons, IH. f_equal.
    by apply blank_byte.
  - eapply Forall_impl; [exact Hs|]. intros b Hb. by apply blank_byte.
Qed.

Lemma blank_notin c s : Str.in_range 65 90 c = true → Forall blank s → c ∉ s.
Proof.
  intros Hc Hs Hin. rewrite Forall_forall in Hs. destruct (blank_byte c) as (_ & _ & Hn); auto.
  congruence.
Qed.

(** A pattern that starts with a capital letter is not found in blank text. *)
Definition capital (p : bytes) : bool :=
  match p with c :: _ => Str.in_range 65 90 c | [] => false end.

Lemma blank_starts s p : Forall blank s → capital p = true → Str.starts_with s p = false.
Proof. intros Hs Hp. destruct p; [done|]. by apply Str.starts_with_notin, blank_notin. Qed.
Lemma blank_contains s p : Forall blank s → capital p = true → Str.contains s p = false.
Proof. intros Hs Hp. destruct p; [done|]. by apply Str.contains_notin, blank_notin. Qed.

Lemma blank_not_clean s : Forall blank s → is_known_clean s = false.
Proof.
  intros Hs. assert (Ht : Forall blank (Str.trim_start s)) by (by apply Str.Forall_trim_start).
  unfold is_known_clean. rewrite blank_upper by done. cbv zeta.
  rewrite blank_contains by done.
  apply not_true_is_false. intros (kw & Hin & Hk)%existsb_exists.
  unfold starts_with_keyword, Str.strip_prefix in Hk. rewrite blank_starts in Hk; [done..|].
  clear -Hin. vm_compute in Hin. by repeat destruct Hin as [<-|Hin].
Qed.

(** A statement that is nothing but white space and semicolons is [Unknown]. *)
Lemma classify_blank s : Forall blank s → classify s = Ret Unknown.
Proof.
  intros Hs. assert (Ht : Forall blank (Str.trim s)) by (by apply Str.Forall_trim).
  unfold classify, detect. rewrite (blank_upper (Str.trim s)) by done. cbv beta zeta.
  rewrite !(blank_starts (Str.trim s)), !(blank_contains (Str.trim s)) by done. cbn [andb orb].
  rewrite bool_decide_false.
  2:{ intros He. apply (blank_notin x55 (Str.trim s)); [done..|]. rewrite He. left. }
  cbn [mbind outcome_bind]. by rewrite blank_not_clean.
Qed.
End blank.

(** ** SET statements *)
Section set_statement.
Context `{Unicode}.

Lemma upper_S b : Str.ascii_upper b = x53 → Str.is_ascii b ∧ Str.ascii_ws b = false.
Proof. destruct b; vm_compute; (discriminate || tauto). Qed.
Lemma upper_ascii b c : Str.ascii_upper b = c → Str.is_ascii c → Str.is_ascii b.
Proof. intros <-. destruct b; vm_compute; tauto. Qed.

Lemma trim_assignment name value :
  Forall Str.is_ascii name → Forall Str.is_ascii value →
  Str.trim (x20 :: name ++ x3d :: Str.trim_end value)
  = Str.trim_start name ++ x3d :: Str.trim_end value.
Proof.
  intros Hn Hv.
  change (x20 :: name ++ x3d :: Str.trim_end value)
    with ((x20 :: name) ++ x3d :: Str.trim_end value).
  rewrite Str.trim_app_stop; [| |done].
  - rewrite (Str.trim_start_ascii (x20 :: name)) by (by constructor).
    rewrite (Str.trim_start_ascii name) by done.
    change (Str.skip_while Str.ascii_ws (x20 :: name)) with (Str.skip_while Str.ascii_ws name).
    by rewrite Str.trim_end_idem.
  - simpl. constructor; [done|]. forall_parts.
Qed.

Lemma parse_set_assignment k name value :
  length k = 3%nat → Forall Str.is_ascii k →
  Forall Str.is_ascii name → Forall Str.is_ascii value → x3d ∉ name →
  parse_set (k ++ x20 :: name ++ x3d :: Str.trim_end value) =
    Ret (Some (Set_ (Str.to_lowercase (Str.trim name)) (Str.trim_matches x27 (Str.trim value)))).
Proof.
  intros Hk Hka Hn Hv Heq. unfold parse_set, Str.get_from.
  rewrite Str.is_char_boundary_ascii.
  2:{ forall_parts. }
  2:{ rewrite length_app. lia. }
  rewrite <-Hk, drop_app_length. cbn [try_opt]. rewrite trim_assignment by done.
  assert (Hn' : x3d ∉ Str.trim_start name).
  { destruct (Str.trim_start_suffix name) as [t Ht]. rewrite Ht in Heq. set_solver. }
  change (lit "=") with [x3d]. rewrite Str.find_byte_app by done.
  assert (Hf : Forall Str.is_ascii (Str.trim_start name ++ x3d :: Str.trim_end value)).
  { forall_parts. }
  rewrite Str.slice_ascii, Str.slice_from_ascii by (done || (rewrite length_app; simpl; lia)).
  cbn [mbind outcome_bind]. rewrite Nat.sub_0_r, drop_0, take_app_length.
  rewrite Nat.add_1_r, drop_app_ge, Nat.sub_succ_l, Nat.sub_diag by lia. simpl drop.
  rewrite drop_0. by rewrite Str.trim_trim_start, Str.trim_trim_end by done.
Qed.

(** [SET name = value], with the keyword in any case, is recognised as the
    assignment of the trimmed value, without its quotes, to the trimmed name in
    lower case. *)
Lemma detect_set kw name value :
  Str.ascii_upper <$> kw = lit "SET" →
  Forall Str.is_ascii (name ++ value) → x3d ∉ name →
  detect (kw ++ x20 :: name ++ x3d :: value) =
    Ret (Some (Set_ (Str.to_lowercase (Str.trim name)) (Str.trim_matches x27 (Str.trim value)))).
Proof.
  intros Hkw [Hn Hv]%Forall_app Heq.
  destruct kw as [|a [|b [|c [|? ?]]]]; try discriminate Hkw. injection Hkw as Ha Hb Hc.
  destruct (upper_S a Ha) as [Haa Haw].
  assert (Str.is_ascii b ∧ Str.is_ascii c) as [Hba Hca] by (split; by eapply upper_ascii).
  assert (Hk : Forall Str.is_ascii [a; b; c]) by (repeat constructor; done).
  assert (Hall : Forall Str.is_ascii ([a; b; c] ++ x20 :: name ++ x3d :: value)).
  { forall_parts. }
  assert (Htrim : Str.trim ([a; b; c] ++ x20 :: name ++ x3d :: value)
                  = [a; b; c] ++ x20 :: name ++ x3d :: Str.trim_end value).
  { unfold Str.trim. etrans; [|by apply (Str.trim_end_app_stop (a :: b :: c :: x20 :: name) x3d)].
    f_equal. by apply (Str.trim_start_app_stop [] a). }
  unfold detect. rewrite Htrim, Str.to_uppercase_ascii.
  2:{ forall_parts. }
  rewrite fmap_app, fmap_cons. cbn [fmap list_fmap]. rewrite Ha, Hb, Hc.
  change (Str.starts_with _ (lit "SET ")) with true. cbn iota zeta.
  by apply parse_set_assignment.
Qed.
End set_statement.


(** ** Concrete runs *)
(** A closing parenthesis ahead of the lock call makes [extract_lock_key] slice
    backwards: the statement below is valid SQL and panics. *)
Example lock_key_panics :
  classify (H := ascii_tables) (lit "SELECT ')', pg_advisory_lock(1)") = Panic.
Proof. vm_compute. reflexivity. Qed.

(** A lock whose key is not a literal is recognised, with no key. *)
Example lock_without_literal_key :
  classify (H := ascii_tables) (lit "SELECT pg_advisory_lock(hashtext('job'))")
  = Ret (Stateful (AdvisoryLock None)).
Proof. vm_compute. reflexivity. Qed.

End Detector.
