(* ===== verification/ConnState.v ===== *)
(** * Session-state tracking and pinning (proxy/connection_state.rs)

    [ConnectionState] records what a client has done to its backend session.
    A connection with any recorded state is pinned: it is not returned to the
    pool at a transaction boundary. *)

From S2P Require Import Prelude RustStr CommandDetector.

Module CS.
Import Detector.

Inductive PinReason : Type :=
| PreparedStatement | SessionVariable | TempTable | Cursor | AdvisoryLockHeld
| ListenChannel | UnknownCommand.

#[export] Instance PinReason_eq_dec : EqDecision PinReason.
Proof. solve_decision. Defined.

Definition is_unsafe (r : PinReason) : bool :=
  match r with
  | TempTable | Cursor | AdvisoryLockHeld | ListenChannel | UnknownCommand => true
  | PreparedStatement | SessionVariable => false
  end.

Record PreparedStatementInfo : Type := {
  psi_name : bytes; psi_query : bytes; psi_param_oids : list Z
}.

Record ReplayableState : Type := {
  rs_prepared_statements : list PreparedStatementInfo;
  rs_session_variables : gmap bytes bytes
}.

(** The two maps are hash maps: their iteration order is not observable except
    in [get_replayable_state], whose list is in no particular order. *)
Record ConnectionState : Type := {
  prepared_statements : gmap bytes (bytes * list Z);
  session_variables : gmap bytes bytes;
  temp_tables : gset bytes;
  cursors : gset bytes;
  advisory_locks : gset Z;
  listen_channels : gset bytes;
  unknown_command : bool;
  max_prepared_statements : nat;
  prepared_statements_lru : list bytes
}.

Definition new (max : nat) : ConnectionState := {|
  prepared_statements := ∅; session_variables := ∅; temp_tables := ∅; cursors := ∅;
  advisory_locks := ∅; listen_channels := ∅; unknown_command := false;
  max_prepared_statements := Nat.max max 1; prepared_statements_lru := []
|}.

(** ** Field updates *)
Definition with_prepared (m : gmap bytes (bytes * list Z)) (l : list bytes)
    (s : ConnectionState) : ConnectionState := {|
  prepared_statements := m; session_variables := session_variables s;
  temp_tables := temp_tables s; cursors := cursors s; advisory_locks := advisory_locks s;
  listen_channels := listen_channels s; unknown_command := unknown_command s;
  max_prepared_statements := max_prepared_statements s; prepared_statements_lru := l |}.
Definition with_vars (m : gmap bytes bytes) (s : ConnectionState) : ConnectionState := {|
  prepared_statements := prepared_statements s; session_variables := m;
  temp_tables := temp_tables s; cursors := cursors s; advisory_locks := advisory_locks s;
  listen_channels := listen_channels s; unknown_command := unknown_command s;
  max_prepared_statements := max_prepared_statements s;
  prepared_statements_lru := prepared_statements_lru s |}.
Definition with_temp_tables (t : gset bytes) (s : ConnectionState) : ConnectionState := {|
  prepared_statements := prepared_statements s; session_variables := session_variables s;
  temp_tables := t; cursors := cursors s; advisory_locks := advisory_locks s;
  listen_channels := listen_channels s; unknown_command := unknown_command s;
  max_prepared_statements := max_prepared_statements s;
  prepared_statements_lru := prepared_statements_lru s |}.
Definition with_cursors (c : gset bytes) (s : ConnectionState) : ConnectionState := {|
  prepared_statements := prepared_statements s; session_variables := session_variables s;
  temp_tables := temp_tables s; cursors := c; advisory_locks := advisory_locks s;
  listen_channels := listen_channels s; unknown_command := unknown_command s;
  max_prepared_statements := max_prepared_statements s;
  prepared_statements_lru := prepared_statements_lru s |}.
Definition with_locks (l : gset Z) (s : ConnectionState) : ConnectionState := {|
  prepared_statements := prepared_statements s; session_variables := session_variables s;
  temp_tables := temp_tables s; cursors := cursors s; advisory_locks := l;
  listen_channels := listen_channels s; unknown_command := unknown_command s;
  max_prepared_statements := max_prepared_statements s;
  prepared_statements_lru := prepared_statements_lru s |}.
Definition with_channels (c : gset bytes) (s : ConnectionState) : ConnectionState := {|
  prepared_statements := prepared_statements s; session_variables := session_variables s;
  temp_tables := temp_tables s; cursors := cursors s; advisory_locks := advisory_locks s;
  listen_channels := c; unknown_command := unknown_command s;
  max_prepared_statements := max_prepared_statements s;
  prepared_statements_lru := prepared_statements_lru s |}.
Definition with_unknown (u : bool) (s : ConnectionState) : ConnectionState := {|
  prepared_statements := prepared_statements s; session_variables := session_variables s;
  temp_tables := temp_tables s; cursors := cursors s; advisory_locks := advisory_locks s;
  listen_channels := listen_channels s; unknown_command := u;
  max_prepared_statements := max_prepared_statements s;
  prepared_statements_lru := prepared_statements_lru s |}.

(** ** Queries *)
Definition is_pinned (s : ConnectionState) : bool :=
  unknown_command s
  || negb (bool_decide (prepared_statements s = ∅))
  || negb (bool_decide (session_variables s = ∅))
  || negb (bool_decide (temp_tables s = ∅))
  || negb (bool_decide (cursors s = ∅))
  || negb (bool_decide (advisory_locks s = ∅))
  || negb (bool_decide (listen_channels s = ∅)).

Definition has_unsafe_state (s : ConnectionState) : bool :=
  unknown_command s
  || negb (bool_decide (temp_tables s = ∅))
  || negb (bool_decide (cursors s = ∅))
  || negb (bool_decide (advisory_locks s = ∅))
  || negb (bool_decide (listen_channels s = ∅)).

(** The set of reasons, in the order the code inserts them. *)
Definition pin_reasons (s : ConnectionState) : list PinReason :=
  (if bool_decide (prepared_statements s = ∅) then [] else [PreparedStatement])
  ++ (if bool_decide (session_variables s = ∅) then [] else [SessionVariable])
  ++ (if bool_decide (temp_tables s = ∅) then [] else [TempTable])
  ++ (if bool_decide (cursors s = ∅) then [] else [Cursor])
  ++ (if bool_decide (advisory_locks s = ∅) then [] else [AdvisoryLockHeld])
  ++ (if bool_decide (listen_channels s = ∅) then [] else [ListenChannel])
  ++ (if unknown_command s then [UnknownCommand] else []).

Definition get_replayable_state (s : ConnectionState) : ReplayableState := {|
  rs_prepared_statements :=
    (λ '(n, (q, o)), {| psi_name := n; psi_query := q; psi_param_oids := o |})
      <$> map_to_list (prepared_statements s);
  rs_session_variables := session_variables s
|}.

(** ** Updates *)
Definition mark_unknown_command (s : ConnectionState) : ConnectionState := with_unknown true s.

(** The eviction loop [while map.len() >= max { pop_front ... }]: it ends when
    the map is below the bound or the order tracker is empty. *)
Fixpoint evict (max : nat) (m : gmap bytes (bytes * list Z)) (lru : list bytes)
    : gmap bytes (bytes * list Z) * list bytes :=
  if decide (max ≤ size m)%nat then
    match lru with
    | oldest :: lru' => evict max (delete oldest m) lru'
    | [] => (m, [])
    end
  else (m, lru).

Definition add_prepared_statement (name query : bytes) (oids : list Z)
    (s : ConnectionState) : ConnectionState :=
  let p :=
    match prepared_statements s !! name with
    | Some _ => (prepared_statements s, retain_ne name (prepared_statements_lru s))
    | None => evict (max_prepared_statements s) (prepared_statements s)
                    (prepared_statements_lru s)
    end in
  with_prepared (<[name := (query, oids)]> p.1) (p.2 ++ [name]) s.
#[global] Arguments add_prepared_statement : simpl never.

Definition remove_prepared_statement (name : bytes) (s : ConnectionState) : ConnectionState :=
  with_prepared (delete name (prepared_statements s))
                (retain_ne name (prepared_statements_lru s)) s.
Definition clear_prepared_statements (s : ConnectionState) : ConnectionState :=
  with_prepared ∅ [] s.
Definition add_session_variable (n v : bytes) (s : ConnectionState) : ConnectionState :=
  with_vars (<[n := v]> (session_variables s)) s.
Definition remove_session_variable (n : bytes) (s : ConnectionState) : ConnectionState :=
  with_vars (delete n (session_variables s)) s.
Definition clear_session_variables (s : ConnectionState) : ConnectionState := with_vars ∅ s.
Definition add_temp_table (n : bytes) (s : ConnectionState) : ConnectionState :=
  with_temp_tables ({[n]} ∪ temp_tables s) s.
Definition remove_temp_table (n : bytes) (s : ConnectionState) : ConnectionState :=
  with_temp_tables (temp_tables s ∖ {[n]}) s.
Definition add_cursor (n : bytes) (s : ConnectionState) : ConnectionState :=
  with_cursors ({[n]} ∪ cursors s) s.
Definition remove_cursor (n : bytes) (s : ConnectionState) : ConnectionState :=
  with_cursors (cursors s ∖ {[n]}) s.
Definition add_advisory_lock (k : Z) (s : ConnectionState) : ConnectionState :=
  with_locks ({[k]} ∪ advisory_locks s) s.
Definition remove_advisory_lock (k : Z) (s : ConnectionState) : ConnectionState :=
  with_locks (advisory_locks s ∖ {[k]}) s.
Definition add_listen_channel (c : bytes) (s : ConnectionState) : ConnectionState :=
  with_channels ({[c]} ∪ listen_channels s) s.
Definition remove_listen_channel (c : bytes) (s : ConnectionState) : ConnectionState :=
  with_channels (listen_channels s ∖ {[c]}) s.
Definition clear_listen_channels (s : ConnectionState) : ConnectionState := with_channels ∅ s.

Definition clear_all (s : ConnectionState) : ConnectionState := {|
  prepared_statements := ∅; session_variables := ∅; temp_tables := ∅; cursors := ∅;
  advisory_locks := ∅; listen_channels := ∅; unknown_command := false;
  max_prepared_statements := max_prepared_statements s; prepared_statements_lru := []
|}.

(** The [match] of [apply_single_statement] on the classified statement. *)
Definition apply_class (s : ConnectionState) (c : CommandClass) : ConnectionState :=
  match c with
  | Clean => s
  | Unknown => mark_unknown_command s
  | Stateful cmd =>
      match cmd with
      | Set_ name value => add_session_variable name value s
      | Reset name => remove_session_variable name s
      | ResetAll => clear_session_variables s
      | CreateTempTable name => add_temp_table name s
      | DropTable name => remove_temp_table name s
      | DeclareCursor name _ => add_cursor name s
      | CloseCursor name => remove_cursor name s
      | AdvisoryLock key =>
          match key with Some k => add_advisory_lock k s | None => s end
      | AdvisoryUnlock key =>
          match key with Some k => remove_advisory_lock k s | None => s end
      | DiscardAll => clear_all s
      | Deallocate name => remove_prepared_statement name s
      | DeallocateAll => clear_prepared_statements s
      | Listen channel => add_listen_channel channel s
      | Unlisten channel =>
          match channel with
          | Some name => remove_listen_channel name s
          | None => clear_listen_channels s
          end
      | Notify _ _ => s
      end
  end.

Section apply.
Context `{Unicode}.

Definition apply_single_statement (s : ConnectionState) (query : bytes)
    : outcome ConnectionState := apply_class s <$> classify query.

Definition apply_query (s : ConnectionState) (query : bytes) : outcome ConnectionState :=
  match split_statements query with
  | [] => apply_single_statement s query
  | statements => ofoldl apply_single_statement s statements
  end.
End apply.

(** ** Well-formed states: the order tracker lists each tracked statement once,
    and the bound is respected. *)
Record wf (s : ConnectionState) : Prop := {
  wf_max : (1 ≤ max_prepared_statements s)%nat;
  wf_nodup : NoDup (prepared_statements_lru s);
  wf_dom : list_to_set (prepared_statements_lru s) = dom (prepared_statements s);
  wf_size : (size (prepared_statements s) ≤ max_prepared_statements s)%nat
}.

Lemma new_wf max : wf (new max).
Proof. split; simpl; [lia|constructor|set_solver|rewrite map_size_empty; lia]. Qed.

(** Operations that leave the prepared statements alone keep [wf]. *)
Lemma wf_same_prepared s s' :
  prepared_statements s' = prepared_statements s →
  prepared_statements_lru s' = prepared_statements_lru s →
  max_prepared_statements s' = max_prepared_statements s →
  wf s → wf s'.
Proof. intros Hm Hl Hx []. split; rewrite ?Hm, ?Hl, ?Hx; done. Qed.

Lemma with_prepared_empty_wf s : wf s → wf (clear_prepared_statements s).
Proof. intros []; split; simpl; [done|constructor|set_solver|rewrite map_size_empty; lia]. Qed.

Lemma clear_all_wf s : wf s → wf (clear_all s).
Proof. intros []; split; simpl; [done|constructor|set_solver|rewrite map_size_empty; lia]. Qed.

Lemma list_to_set_retain_ne (n : bytes) (l : list bytes) :
  list_to_set (C := gset bytes) (retain_ne n l) = list_to_set l ∖ {[n]}.
Proof.
  apply set_eq. intros x. rewrite elem_of_list_to_set, elem_of_retain_ne. set_solver.
Qed.

Lemma remove_prepared_statement_wf n s : wf s → wf (remove_prepared_statement n s).
Proof.
  intros [Hx Hd Hs Hn]; split; simpl; auto with scry.
  - by rewrite list_to_set_retain_ne, Hs, dom_delete_L.
  - etrans; [|exact Hn]. rewrite map_size_delete. destruct (_ !! n); simpl; lia.
Qed.

(** For a consistent pair the eviction loop removes exactly one entry when the
    map is full, and none otherwise. *)
Lemma evict_spec (max : nat) (m : gmap bytes (bytes * list Z)) (l : list bytes) :
  (1 ≤ max)%nat → NoDup l → list_to_set l = dom m → (size m ≤ max)%nat →
  evict max m l =
    (if decide (size m = max) then (match l with x :: _ => delete x m | [] => m end, tail l)
     else (m, l)).
Proof.
  intros Hx Hd Hs Hn. destruct (decide (size m = max)) as [He|He].
  - destruct l as [|x l]; simpl; rewrite decide_True by lia; [done|].
    assert (Hxm : is_Some (m !! x)) by (apply elem_of_dom; set_solver).
    assert (Hsz : size (delete x m) = Nat.pred (size m)).
    { rewrite map_size_delete. destruct Hxm as [? ->]. done. }
    destruct l; simpl; by rewrite decide_False by lia.
  - destruct l; simpl; by rewrite decide_False by lia.
Qed.

Lemma add_prepared_statement_wf n q o s : wf s → wf (add_prepared_statement n q o s).
Proof.
  intros [Hx Hd Hs Hn]. unfold add_prepared_statement.
  destruct (prepared_statements s !! n) eqn:Hl.
  - split; simpl; [done| | |].
    + apply NoDup_snoc; auto with scry. rewrite elem_of_retain_ne. tauto.
    + rewrite list_to_set_app_L, list_to_set_retain_ne, Hs, dom_insert_L.
      simpl. apply set_eq. intros x. destruct (decide (x = n)); set_solver.
    + by rewrite map_size_insert_Some by eauto.
  - assert (Hnl : n ∉ prepared_statements_lru s).
    { intros Hin. apply not_elem_of_dom in Hl. apply Hl. rewrite <-Hs.
      by apply elem_of_list_to_set. }
    rewrite evict_spec by done.
    destruct (decide (size (prepared_statements s) = max_prepared_statements s)) as [He|He];
      [|split; simpl; [done|by apply NoDup_snoc| |]].
    + destruct (prepared_statements_lru s) as [|x l] eqn:Hlru.
      { assert (prepared_statements s = ∅) as Hm.
        { apply dom_empty_inv_L. set_solver. }
        rewrite Hm, map_size_empty in He. lia. }
      apply NoDup_cons in Hd as [Hxl Hd].
      assert (Hxm : is_Some (prepared_statements s !! x)) by (apply elem_of_dom; set_solver).
      destruct Hxm as [v Hv].
      split; simpl; [done| | |].
      * apply NoDup_snoc; [done|]. intros ?. apply Hnl. by right.
      * rewrite list_to_set_app_L, dom_insert_L, dom_delete_L, <-Hs. set_solver.
      * rewrite map_size_insert_None.
        2:{ apply lookup_delete_None. auto. }
        rewrite map_size_delete, Hv. lia.
    + rewrite list_to_set_app_L, Hs, dom_insert_L. set_solver.
    + rewrite map_size_insert_None by done. lia.
Qed.

#[export] Hint Resolve new_wf with_prepared_empty_wf clear_all_wf remove_prepared_statement_wf
  add_prepared_statement_wf : scry.

Lemma apply_class_wf s c : wf s → wf (apply_class s c).
Proof.
  intros Hs. destruct c as [|cmd|]; simpl; [done| |eapply wf_same_prepared; [..|done]; done].
  destruct cmd; repeat case_match; simpl; auto with scry;
    (eapply wf_same_prepared; [..|done]; done).
Qed.

(** ** Traces

    What the connection handler does to the state, one event at a time: a
    classified statement (of a Query or a Parse message, or the handler's
    blanket [mark_unknown_command]), a prepared statement added by a Parse
    message, one removed by a Close message. *)
Inductive event : Type :=
| EClass (c : CommandClass)
| EPrepare (name query : bytes) (oids : list Z)
| EClose (name : bytes).

Definition step (s : ConnectionState) (e : event) : ConnectionState :=
  match e with
  | EClass c => apply_class s c
  | EPrepare n q o => add_prepared_statement n q o s
  | EClose n => remove_prepared_statement n s
  end.
Definition run : ConnectionState → list event → ConnectionState := foldl step.

(** The specification, independent of the representation: which events leave
    session state behind that cannot be replayed, ... *)
Definition leaves_unsafe (e : event) : bool :=
  match e with
  | EClass Unknown => true
  | EClass (Stateful (CreateTempTable _ | DeclareCursor _ _ | AdvisoryLock _ | Listen _)) => true
  | _ => false
  end.
(** ... which leave any session state behind, ... *)
Definition leaves_state (e : event) : bool :=
  leaves_unsafe e
  || match e with EClass (Stateful (Set_ _ _)) | EPrepare _ _ _ => true | _ => false end.
(** ... which of them the tracker can note: a lock whose key is not a literal
    has no key to be kept under, ... *)
Definition keyed (e : event) : bool :=
  match e with EClass (Stateful (AdvisoryLock None)) => false | _ => true end.
Definition notes_unsafe (e : event) : bool := leaves_unsafe e && keyed e.
Definition notes (e : event) : bool := leaves_state e && keyed e.
Lemma notes_unsafe_notes e : notes_unsafe e = true → notes e = true.
Proof. unfold notes_unsafe, notes, leaves_state. by intros [-> ->]%andb_true_iff. Qed.

(** ... and which later events take that state away again. *)
Definition undoes (e u : event) : bool :=
  match u with EClass (Stateful DiscardAll) => true | _ => false end
  || match e, u with
     | EClass (Stateful (CreateTempTable n)), EClass (Stateful (DropTable n'))
     | EClass (Stateful (DeclareCursor n _)), EClass (Stateful (CloseCursor n'))
     | EClass (Stateful (Listen n)), EClass (Stateful (Unlisten (Some n')))
     | EClass (Stateful (Set_ n _)), EClass (Stateful (Reset n'))
     | EPrepare n _ _, EClass (Stateful (Deallocate n'))
     | EPrepare n _ _, EClose n' => bool_decide (n = n')
     | EClass (Stateful (AdvisoryLock (Some k))), EClass (Stateful (AdvisoryUnlock (Some k'))) =>
         bool_decide (k = k')
     | EClass (Stateful (Listen _)), EClass (Stateful (Unlisten None))
     | EClass (Stateful (Set_ _ _)), EClass (Stateful ResetAll)
     | EPrepare _ _ _, EClass (Stateful DeallocateAll) => true
     | _, _ => false
     end.

(** What an event records, as a predicate on the state. *)
Definition recorded (e : event) (s : ConnectionState) : Prop :=
  match e with
  | EClass Unknown => unknown_command s = true
  | EClass (Stateful (Set_ n _)) => n ∈ dom (session_variables s)
  | EClass (Stateful (CreateTempTable n)) => n ∈ temp_tables s
  | EClass (Stateful (DeclareCursor n _)) => n ∈ cursors s
  | EClass (Stateful (AdvisoryLock (Some k))) => k ∈ advisory_locks s
  | EClass (Stateful (Listen n)) => n ∈ listen_channels s
  | EPrepare n _ _ => n ∈ dom (prepared_statements s)
  | _ => False
  end.

Lemma run_snoc s tr e : run s (tr ++ [e]) = step (run s tr) e.
Proof. apply foldl_snoc. Qed.

Lemma run_app s tr tr' : run s (tr ++ tr') = run (run s tr) tr'.
Proof. apply foldl_app. Qed.

Lemma step_wf s e : wf s → wf (step s e).
Proof. destruct e; simpl; auto using apply_class_wf with scry. Qed.

Lemma run_wf tr s : wf s → wf (run s tr).
Proof. revert s; induction tr as [|e tr IH]; simpl; auto using step_wf. Qed.

Lemma step_max s e : max_prepared_statements (step s e) = max_prepared_statements s.
Proof.
  by destruct e as [[|[]|]| |]; simpl; repeat case_match.
Qed.

Lemma run_max tr s : max_prepared_statements (run s tr) = max_prepared_statements s.
Proof. revert s; induction tr as [|e tr IH]; intros s; simpl; [done|]. by rewrite IH, step_max. Qed.

(** An event records what it leaves behind. *)
Lemma step_records e s : notes e = true → recorded e (step s e).
Proof.
  destruct e as [[|[]|]| |]; simpl; try done; intros He; repeat case_match; simplify_eq/=;
    try done; set_solver.
Qed.

Definition is_prepare (e : event) : bool := match e with EPrepare _ _ _ => true | _ => false end.

(** What is recorded stays recorded until an undoing event; only prepared
    statements can be displaced otherwise, by the LRU bound. *)
Lemma step_keeps e u s :
  notes e = true → is_prepare e = false ∨ is_prepare u = false →
  undoes e u = false → recorded e s → recorded e (step s u).
Proof.
  intros He Hp Hu. unfold undoes in Hu. apply orb_false_iff in Hu as [Hu1 Hu2].
  destruct u as [[|cu|]|n q o|n]; simpl; try done;
    [destruct cu| | |]; destruct e as [[|[]|]| |]; simpl in *; try done;
    repeat case_match; simplify_eq/=; repeat case_bool_decide; try done;
    first [by set_solver|by naive_solver].
Qed.

Lemma evict_dom max l m : dom (evict max m l).1 ⊆ dom m.
Proof.
  revert m; induction l as [|x l IH]; intros m; simpl; case_decide; simpl; try done.
  etrans; [apply IH|]. rewrite dom_delete_L. set_solver.
Qed.

Lemma add_prepared_dom n q o s x :
  x ∈ dom (prepared_statements (add_prepared_statement n q o s)) →
  x = n ∨ x ∈ dom (prepared_statements s).
Proof.
  unfold add_prepared_statement. destruct (prepared_statements s !! n); simpl.
  - set_solver.
  - destruct (evict _ _ _) as [m l] eqn:He; simpl. rewrite dom_insert_L.
    pose proof (evict_dom (max_prepared_statements s) (prepared_statements_lru s)
      (prepared_statements s)) as Hd. rewrite He in Hd. set_solver.
Qed.

(** Nothing is recorded without an event that left it, and an undone event is
    not recorded any more. *)
Lemma step_recorded_inv e u s :
  notes e = true → recorded e (step s u) →
  (recorded e s ∧ undoes e u = false)
  ∨ (notes u = true ∧ notes_unsafe u = notes_unsafe e ∧ ∀ v, undoes u v = undoes e v).
Proof.
  intros He Hr. destruct (is_prepare u && is_prepare e) eqn:Hp.
  { destruct u, e; try discriminate Hp. simpl in Hr.
    apply add_prepared_dom in Hr as [->|Hr]; [by right|by left]. }
  destruct u as [[|cu|]|n q o|n]; simpl in *;
    [|destruct cu| | |]; destruct e as [[|[]|]| |]; simpl in *; try done;
    repeat case_match; simplify_eq/=; unfold undoes; simpl in *;
    first [by (left; split; [done|])
          | rewrite ?elem_of_union, ?elem_of_singleton in Hr; destruct Hr as [->|Hr]; [by right|by left]
          | rewrite ?dom_delete_L in Hr; left; split; [set_solver|];
            rewrite ?orb_false_l; apply bool_decide_eq_false; set_solver
          | rewrite dom_insert_L, ?elem_of_union, ?elem_of_singleton in Hr;
            destruct Hr as [->|Hr]; [by right|by left]
          | by right
          | set_solver ].
Qed.

(** The event [e] happened and no later event of the trace undoes it. *)
Definition outstanding (tr : list event) (e : event) : Prop :=
  ∃ pre post, tr = pre ++ e :: post ∧ Forall (λ u, undoes e u = false) post.

Lemma outstanding_snoc_inv tr u e :
  outstanding (tr ++ [u]) e → e = u ∨ (outstanding tr e ∧ undoes e u = false).
Proof.
  intros (pre & post & Heq & Hpost). destruct post as [|u' post _] using rev_ind.
  - apply app_inj_tail in Heq as [_ ->]. by left.
  - rewrite app_comm_cons, app_assoc in Heq. apply app_inj_tail in Heq as [-> ->].
    rewrite Forall_app, Forall_singleton in Hpost. right. split; [|tauto].
    exists pre, post. tauto.
Qed.

Lemma outstanding_snoc tr u e :
  outstanding tr e → undoes e u = false → outstanding (tr ++ [u]) e.
Proof.
  intros (pre & post & -> & Hpost) Hu. exists pre, (post ++ [u]). split.
  - by rewrite app_comm_cons, app_assoc.
  - by rewrite Forall_app, Forall_singleton.
Qed.

Lemma outstanding_last tr e : outstanding (tr ++ [e]) e.
Proof. by exists tr, []. Qed.

(** Every event of the trace that left state which nothing undid is recorded,
    prepared statements apart (see [evicted_prepared]). *)
Lemma outstanding_recorded s tr e :
  notes e = true → is_prepare e = false →
  outstanding tr e → recorded e (run s tr).
Proof.
  intros He Hp. induction tr as [|u tr IH] using rev_ind.
  - intros (pre & post & Heq & _). by destruct pre.
  - rewrite run_snoc. intros [->|[Ho Hu]]%outstanding_snoc_inv.
    + by apply step_records.
    + apply step_keeps; auto.
Qed.

Lemma recorded_outstanding max tr e :
  notes e = true → recorded e (run (new max) tr) →
  ∃ e', outstanding tr e' ∧ notes e' = true ∧ notes_unsafe e' = notes_unsafe e ∧
        ∀ v, undoes e' v = undoes e v.
Proof.
  intros He. induction tr as [|u tr IH] using rev_ind.
  - simpl. destruct e as [[|[]|]| |]; simpl; try done; repeat case_match; set_solver.
  - rewrite run_snoc. intros Hr. apply step_recorded_inv in Hr as [[Hr Hu]|(Hl & Hs & Hu)]; [| |done].
    + destruct (IH Hr) as (e' & Ho & Hl & Hs & Hv). exists e'.
      split_and!; auto. apply outstanding_snoc; [done|]. by rewrite Hv.
    + exists u. split_and!; auto using outstanding_last.
Qed.

Lemma elem_of_dom_nonempty {A} (m : gmap bytes A) n : n ∈ dom m → m ≠ ∅.
Proof. intros Hn ->. set_solver. Qed.

Lemma is_pinned_recorded s e : notes e = true → recorded e s → is_pinned s = true.
Proof.
  unfold is_pinned. intros He Hr. rewrite !orb_true_iff, !negb_true_iff, !bool_decide_eq_false.
  destruct e as [[|[]|]| |]; simpl in *; try done; repeat case_match; try done;
    first [tauto | apply elem_of_dom_nonempty in Hr; tauto | set_solver].
Qed.

Lemma has_unsafe_state_recorded s :
  has_unsafe_state s = true ↔ ∃ e, notes_unsafe e = true ∧ recorded e s.
Proof.
  unfold has_unsafe_state. rewrite !orb_true_iff, !negb_true_iff, !bool_decide_eq_false.
  split.
  - intros [[[[Hu|Hu]|Hu]|Hu]|Hu].
    + by exists (EClass Unknown).
    + apply set_choose_L in Hu as [n Hn]. by exists (EClass (Stateful (CreateTempTable n))).
    + apply set_choose_L in Hu as [n Hn]. by exists (EClass (Stateful (DeclareCursor n false))).
    + apply set_choose_L in Hu as [n Hn]. by exists (EClass (Stateful (AdvisoryLock (Some n)))).
    + apply set_choose_L in Hu as [n Hn]. by exists (EClass (Stateful (Listen n))).
  - intros (e & He & Hr). destruct e as [[|[]|]| |]; simpl in *; try done;
      repeat case_match; try done; first [tauto | set_solver].
Qed.

(** ** Displacement of prepared statements by the LRU bound *)
Definition prepared_names (tr : list event) : gset bytes :=
  list_to_set (omap (λ e, match e with EPrepare n _ _ => Some n | _ => None end) tr).

Lemma prepared_names_snoc tr e :
  prepared_names (tr ++ [e]) =
    prepared_names tr ∪ match e with EPrepare n _ _ => {[n]} | _ => ∅ end.
Proof.
  unfold prepared_names. rewrite omap_app, list_to_set_app_L.
  destruct e; simpl; set_solver.
Qed.

Lemma prepared_names_app tr tr' : prepared_names (tr ++ tr') = prepared_names tr ∪ prepared_names tr'.
Proof. unfold prepared_names. by rewrite omap_app, list_to_set_app_L. Qed.
Lemma prepared_names_cons e tr :
  prepared_names (e :: tr) = match e with EPrepare n _ _ => {[n]} | _ => ∅ end ∪ prepared_names tr.
Proof. unfold prepared_names. destruct e; simpl; set_solver. Qed.

Lemma wf_length_lru s : wf s → length (prepared_statements_lru s) = size (prepared_statements s).
Proof.
  intros [_ Hd Hs _]. by rewrite <-size_dom, <-Hs, size_list_to_set.
Qed.

(** [n] is tracked, and what is behind it in the order tracker was prepared
    after it. *)
Definition tracked_since (n : bytes) (names : gset bytes) (s : ConnectionState) : Prop :=
  ∃ l1 l2, prepared_statements_lru s = l1 ++ n :: l2 ∧ list_to_set l2 ⊆ names.

Lemma tracked_since_mono n names names' s :
  names ⊆ names' → tracked_since n names s → tracked_since n names' s.
Proof. intros Hn (l1 & l2 & Hl & Hs). exists l1, l2. set_solver. Qed.

Lemma retain_ne_app (x : bytes) l1 l2 : retain_ne x (l1 ++ l2) = retain_ne x l1 ++ retain_ne x l2.
Proof. apply filter_app. Qed.

Lemma retain_ne_cons_ne (x y : bytes) l : y ≠ x → retain_ne x (y :: l) = y :: retain_ne x l.
Proof. intros. unfold retain_ne. by rewrite filter_cons_True. Qed.

Lemma tracked_since_remove n m names s :
  n ≠ m → tracked_since n names s → tracked_since n names (remove_prepared_statement m s).
Proof.
  intros Hne (l1 & l2 & Hl & Hs). exists (retain_ne m l1), (retain_ne m l2). simpl. split.
  - by rewrite Hl, retain_ne_app, retain_ne_cons_ne.
  - rewrite list_to_set_retain_ne. set_solver.
Qed.

(** Preparing another statement keeps [n] tracked unless [n] is the oldest of a
    full map, and then the bound's worth of other names came after it. *)
Lemma tracked_since_add n m q o names s :
  wf s → tracked_since n names s →
  tracked_since n (names ∪ {[m]}) (add_prepared_statement m q o s)
  ∨ (max_prepared_statements s ≤ size ((names ∪ {[m]}) ∖ {[n]}))%nat.
Proof.
  intros Hwf (l1 & l2 & Hl & Hs). pose proof (wf_length_lru s Hwf) as Hlen.
  destruct Hwf as [Hx Hd Hdom Hsz]. unfold tracked_since, add_prepared_statement; simpl.
  destruct (prepared_statements s !! m) eqn:Hm.
  - left. simpl. destruct (decide (m = n)) as [->|Hne].
    + exists (retain_ne n (prepared_statements_lru s)), []. set_solver.
    + exists (retain_ne m l1), (retain_ne m l2 ++ [m]). split.
      * by rewrite Hl, retain_ne_app, retain_ne_cons_ne, <-app_assoc by done.
      * rewrite list_to_set_app_L, list_to_set_retain_ne. set_solver.
  - rewrite evict_spec by done. case_decide as Hfull; simpl;
      [destruct l1 as [|x l1]|].
    + right. rewrite Hl in Hd, Hlen, Hdom. apply NoDup_cons in Hd as [Hn Hd].
      assert (Hmn : m ∉ n :: l2).
      { intros Hin. apply not_elem_of_dom in Hm. apply Hm. rewrite <-Hdom.
        by apply elem_of_list_to_set. }
      assert (NoDup (m :: l2)) as Hd' by (apply NoDup_cons; set_solver).
      rewrite <-Hfull, <-Hlen. simpl.
      change (S (length l2)) with (length (m :: l2)).
      rewrite <-(size_list_to_set (C := gset bytes) (m :: l2)) by done.
      apply subseteq_size. set_solver.
    + left. exists l1, (l2 ++ [m]). rewrite Hl. simpl. rewrite <-app_assoc. set_solver.
    + left. exists l1, (l2 ++ [m]). rewrite Hl, <-app_assoc. set_solver.
Qed.

Lemma evicted_prepared s n q o post :
  wf s → Forall (λ u, undoes (EPrepare n q o) u = false) post →
  tracked_since n (prepared_names post) (run (step s (EPrepare n q o)) post)
  ∨ (max_prepared_statements s ≤ size (prepared_names post ∖ {[n]}))%nat.
Proof.
  intros Hwf. induction post as [|u post IH] using rev_ind; intros Hpost.
  - left. exists (match prepared_statements s !! n with
      | Some _ => (prepared_statements s, retain_ne n (prepared_statements_lru s))
      | None => evict (max_prepared_statements s) (prepared_statements s)
                      (prepared_statements_lru s) end).2, []. set_solver.
  - rewrite Forall_app, Forall_singleton in Hpost. destruct Hpost as [Hpost Hu].
    rewrite run_snoc, prepared_names_snoc. specialize (IH Hpost).
    set (s1 := run (step s (EPrepare n q o)) post) in *.
    assert (Hwf1 : wf s1) by (apply run_wf, step_wf, Hwf).
    assert (Hmax : max_prepared_statements s1 = max_prepared_statements s)
      by (unfold s1; by rewrite run_max, step_max).
    destruct IH as [Ht|Hsz].
    2:{ right. etrans; [exact Hsz|]. apply subseteq_size. set_solver. }
    destruct u as [c|m q' o'|m].
    + left. rewrite union_empty_r_L. destruct c as [|[]|]; simpl in *; try done;
        repeat case_match; try done; unfold undoes in Hu; simpl in Hu; try done.
      case_bool_decide; [done|]. by apply tracked_since_remove.
    + rewrite <-Hmax. by apply tracked_since_add.
    + left. rewrite union_empty_r_L. unfold undoes in Hu; simpl in Hu.
      case_bool_decide; [done|]. by apply tracked_since_remove.
Qed.

(** ** Sessions

    What one client's messages do to the state, as the message arms of the
    pooled handler call it. *)
Section session.
Context `{Unicode}.

(** connection.rs [apply_parse_state]. *)
Definition apply_parse_state (s : ConnectionState) (name query : bytes) (param_oids : list Z)
    : outcome ConnectionState :=
  s' ← apply_query s query; Ret (add_prepared_statement name query param_oids s').

Inductive action : Type :=
| AQuery (query : bytes)
| AParse (name query : bytes) (oids : list Z)
| ACloseStatement (name : bytes).

Definition act (s : ConnectionState) (a : action) : outcome ConnectionState :=
  match a with
  | AQuery q => apply_query s q
  | AParse n q o => apply_parse_state s n q o
  | ACloseStatement n => Ret (remove_prepared_statement n s)
  end.
Definition session : ConnectionState → list action → outcome ConnectionState := ofoldl act.

(** Statements that take session state away. *)
Definition tidies (c : CommandClass) : bool :=
  match c with
  | Stateful (Reset _ | ResetAll | DropTable _ | CloseCursor _ | AdvisoryUnlock _ | DiscardAll
             | Deallocate _ | DeallocateAll | Unlisten _) => true
  | _ => false
  end.

(** The statements of one query text, and their classes. *)
Definition statements (query : bytes) : list bytes :=
  match split_statements query with [] => [query] | l => l end.
Fixpoint classes (l : list bytes) : outcome (list CommandClass) :=
  match l with
  | [] => Ret []
  | q :: l' => c ← classify q; cs ← classes l'; Ret (c :: cs)
  end.
Definition events_of (a : action) : outcome (list event) :=
  match a with
  | AQuery q => cs ← classes (statements q); Ret (map EClass cs)
  | AParse n q o => cs ← classes (statements q); Ret ((map EClass cs) ++ [EPrepare n q o])
  | ACloseStatement n => Ret [EClose n]
  end.
Fixpoint trace_of (l : list action) : outcome (list event) :=
  match l with
  | [] => Ret []
  | a :: l' => es ← events_of a; tr ← trace_of l'; Ret (es ++ tr)
  end.

(** A Parse message does not run its statement: nothing is tidied up by being
    parsed. *)
Definition parses_no_tidying (a : action) : Prop :=
  match a with
  | AParse _ q _ => ∀ cs, classes (statements q) = Ret cs → Forall (λ c, tidies c = false) cs
  | _ => True
  end.

Lemma ofoldl_classes s l :
  ofoldl apply_single_statement s l = (cs ← classes l; Ret (run s (map EClass cs))).
Proof.
  revert s; induction l as [|q l IH]; intros s; simpl; [done|].
  change (apply_single_statement s q) with (apply_class s <$> classify q).
  destruct (classify q); simpl; try done.
  rewrite IH. by destruct (classes l).
Qed.

Lemma apply_query_classes s q :
  apply_query s q = (cs ← classes (statements q); Ret (run s (map EClass cs))).
Proof.
  unfold apply_query, statements. destruct (split_statements q) as [|q' l].
  - rewrite <-ofoldl_classes. simpl. by destruct (apply_single_statement s q).
  - apply ofoldl_classes.
Qed.

Lemma act_events s a : act s a = (es ← events_of a; Ret (run s es)).
Proof.
  destruct a as [q|n q o|n]; simpl; [|unfold apply_parse_state|done];
    rewrite apply_query_classes; destruct (classes (statements q)); simpl; try done.
  by rewrite run_app.
Qed.

Lemma session_trace s l : session s l = (tr ← trace_of l; Ret (run s tr)).
Proof.
  unfold session. revert s; induction l as [|a l IH]; intros s; simpl; [done|].
  rewrite act_events. destruct (events_of a); simpl; try done.
  rewrite IH. destruct (trace_of l); simpl; try done. by rewrite run_app.
Qed.
End session.

(** What undoes an event is a tidying statement or a Close message. *)
Lemma undoes_tidies e u :
  undoes e u = true → (∃ c, u = EClass c ∧ tidies c = true) ∨ ∃ n, u = EClose n.
Proof.
  unfold undoes. destruct u as [[|c|]| |]; intros Hu; eauto;
    try (by destruct e as [[|[| | | | | | |[]| | | | | | |]|]| |]).
  left. exists (Stateful c). split; [done|].
  destruct c; try done; by destruct e as [[|[| | | | | | |[]| | | | | | |]|]| |].
Qed.

Lemma trace_of_elem `{Unicode} acts tr u :
  trace_of acts = Ret tr → u ∈ tr → ∃ a es, a ∈ acts ∧ events_of a = Ret es ∧ u ∈ es.
Proof.
  revert tr. induction acts as [|a acts IH]; intros tr; cbn [trace_of].
  - intros [= <-] Hu. set_solver.
  - intros (es & Hes & (tr' & Htr & [= <-])%outcome_bind_Ret)%outcome_bind_Ret [Hu|Hu]%elem_of_app.
    + exists a, es. set_solver.
    + destruct (IH _ Htr Hu) as (a' & es' & ? & ? & ?). exists a', es'. set_solver.
Qed.

(** With no tidying in Parse messages, it was sent to be run. *)
Lemma undone_by_request `{Unicode} acts tr e u :
  trace_of acts = Ret tr → Forall parses_no_tidying acts → u ∈ tr → undoes e u = true →
  ∃ a es, a ∈ acts ∧ events_of a = Ret es ∧ u ∈ es ∧ ¬ ∃ n q o, a = AParse n q o.
Proof.
  intros Htr Hno Hu Hun. destruct (trace_of_elem _ _ _ Htr Hu) as (a & es & Ha & Hes & Hue).
  exists a, es. split_and!; [done..|]. intros (n & q & o & ->). rewrite Forall_forall in Hno.
  specialize (Hno _ Ha). simpl in Hno, Hes. apply outcome_bind_Ret in Hes as (cs & Hcs & [= <-]).
  specialize (Hno cs Hcs). rewrite Forall_forall in Hno.
  apply undoes_tidies in Hun as [(c & -> & Hc)|[n' ->]]; apply elem_of_app in Hue as [Hue|Hue]; try set_solver.
  - apply list_elem_of_fmap in Hue as (c' & [= <-] & Hc'). specialize (Hno c Hc'). congruence.
Qed.

Lemma unpinned_none_recorded s e :
  is_pinned s = false → notes e = true → ¬ recorded e s.
Proof. intros Hp He Hr. by rewrite (is_pinned_recorded s e) in Hp. Qed.

Lemma not_undone e post :
  ¬ (∃ u, u ∈ post ∧ undoes e u = true) → Forall (λ u, undoes e u = false) post.
Proof.
  intros Hn. apply Forall_forall. intros u Hu. apply not_true_is_false. eauto.
Qed.

(** No tracked state outlives an unpinned connection.  Take any sequence of
    Query, Parse and Close messages that ends with the connection unpinned.
    Then every event of the session that left state on the backend was taken
    back by a later event of the same session; the only exception is a prepared
    statement that the bound displaced, after which at least [max] other names
    were prepared. *)
Lemma unpinned_session_is_clean `{Unicode} max acts tr s pre e post :
  session (new max) acts = Ret s → trace_of acts = Ret tr →
  is_pinned s = false → tr = pre ++ e :: post → notes e = true →
  (∃ u, u ∈ post ∧ undoes e u = true)
  ∨ (∃ n q o, e = EPrepare n q o ∧ (Nat.max max 1 ≤ size (prepared_names post ∖ {[n]}))%nat).
Proof.
  rewrite session_trace. intros Hs Htr Hp Heq He. rewrite Htr in Hs. injection Hs as <-.
  destruct (decide (Exists (λ u, undoes e u = true) post)) as [(u & Hu & Hux)%Exists_exists|Hno];
    [by left; eauto|right].
  assert (Hpost : Forall (λ u, undoes e u = false) post).
  { apply not_undone. intros (u & Hu & Hux). apply Hno, Exists_exists. eauto. }
  destruct (is_prepare e) eqn:Hprep.
  - destruct e as [|n q o|]; try done. exists n, q, o. split; [done|].
    subst tr. rewrite run_app in Hp. set (s0 := run (new max) pre) in *.
    change (run s0 (EPrepare n q o :: post)) with (run (step s0 (EPrepare n q o)) post) in Hp.
    assert (Hwf : wf s0) by (apply run_wf, new_wf).
    destruct (evicted_prepared s0 n q o post Hwf Hpost) as [(l1 & l2 & Hl & _)|Hsz].
    + destruct (unpinned_none_recorded _ (EPrepare n q o) Hp He). simpl.
      rewrite <-wf_dom by (apply run_wf, (step_wf _ (EPrepare n q o)), Hwf).
      setoid_rewrite Hl. set_solver.
    + unfold s0 in Hsz. by rewrite run_max in Hsz.
  - destruct (unpinned_none_recorded _ e Hp He).
    apply outstanding_recorded; [done..|]. by exists pre, post.
Qed.

(** So every event that left state was undone, when the locks have literal keys
    and no more names were prepared than are tracked. *)
Lemma unpinned_session_undone `{Unicode} max acts tr s pre e post :
  session (new max) acts = Ret s → trace_of acts = Ret tr → is_pinned s = false →
  Forall keyed tr → (size (prepared_names tr) ≤ max)%nat →
  tr = pre ++ e :: post → leaves_state e = true → ∃ u, u ∈ post ∧ undoes e u = true.
Proof.
  intros Hs Htr Hp Hk Hsz Heq He.
  assert (notes e = true) as Hn.
  { unfold notes. rewrite He. apply Is_true_true_1. rewrite Forall_forall in Hk. apply Hk. set_solver. }
  destruct (unpinned_session_is_clean max acts tr s pre e post) as [?|(n & q & o & -> & Hm)]; [done..|].
  exfalso. assert (prepared_names post ∖ {[n]} ⊂ prepared_names tr) as Hlt%subset_size.
  { subst tr. apply (strict_spec_alt _ _). split.
    - rewrite prepared_names_app, prepared_names_cons. set_solver.
    - rewrite prepared_names_app, prepared_names_cons. cbn. set_solver. }
  lia.
Qed.

(** ** Advisory locks as the server counts them

    A session can take a lock it has: the server then releases it at the second
    unlock.  [locks_held] is the server's count; the tracker keeps a set. *)
Definition relock (k : Z) (n : nat) (e : event) : nat :=
  match e with
  | EClass (Stateful (AdvisoryLock (Some k'))) => if decide (k = k') then S n else n
  | EClass (Stateful (AdvisoryUnlock (Some k'))) => if decide (k = k') then Nat.pred n else n
  | EClass (Stateful DiscardAll) => O
  | _ => n
  end.
Definition locks_held (k : Z) (tr : list event) : nat := foldl (relock k) O tr.
Definition lock (k : Z) : event := EClass (Stateful (AdvisoryLock (Some k))).

(** The locks of the session have literal keys, and none is taken while it is
    held. *)
Definition plain_locks (tr : list event) : Prop :=
  Forall keyed tr ∧ ∀ pre k post, tr = pre ++ lock k :: post → locks_held k pre = O.

Lemma plain_locks_none tr : Forall (λ e, keyed e ∧ ∀ k, e ≠ lock k) tr → plain_locks tr.
Proof.
  intros Hn. split; [eapply Forall_impl; [exact Hn|naive_solver]|].
  intros pre k post ->. apply Forall_app in Hn as [_ [[_ Hn] _]%Forall_cons]. by destruct (Hn k).
Qed.
Lemma plain_locks_prefix tr e : plain_locks (tr ++ [e]) → plain_locks tr.
Proof.
  intros [Hk Hl]. apply Forall_app in Hk as [Hk _]. split; [done|].
  intros pre k post ->. apply (Hl pre k (post ++ [e])). by rewrite <-app_assoc.
Qed.

(** For such a session the set is the count. *)
Lemma advisory_locks_held max k tr :
  plain_locks tr →
  locks_held k tr = (if decide (k ∈ advisory_locks (run (new max) tr)) then 1%nat else O).
Proof.
  induction tr as [|e tr IH] using rev_ind; intros Hp.
  - simpl. by rewrite decide_False by set_solver.
  - specialize (IH (plain_locks_prefix _ _ Hp)). destruct Hp as [_ Hl].
    assert (∀ k', e = lock k' → locks_held k' tr = O) as Hfree by (intros k' ->; by apply (Hl tr k' [])).
    unfold locks_held in *. rewrite foldl_snoc, run_snoc.
    set (s := run (new max) tr) in *.
    destruct e as [[|c|]| |]; try exact IH.
    destruct c as [| | | | | | |[k'|]|[k'|]| | | | |[]|]; try exact IH; cbn [relock step apply_class].
    + cbn. destruct (decide (k = k')) as [<-|Hne].
      * rewrite (Hfree k eq_refl). by rewrite decide_True by set_solver.
      * rewrite IH. apply decide_ext. set_solver.
    + cbn. destruct (decide (k = k')) as [<-|Hne]; rewrite IH.
      * rewrite (decide_False (P := k ∈ _ ∖ _)) by set_solver. by case_decide.
      * apply decide_ext. set_solver.
    + cbn. by rewrite decide_False by set_solver.
Qed.

(** Some statement the client sent has left state behind that cannot be replayed,
    and nothing it sent later has taken that state away: a lock is held as the
    server counts it, anything else is undone by name. *)
Definition unsafe_left (tr : list event) : Prop :=
  (∃ k, (0 < locks_held k tr)%nat)
  ∨ ∃ e, leaves_unsafe e = true ∧ (∀ k, e ≠ lock k) ∧ outstanding tr e.

Lemma recorded_unsafe_left max tr e :
  plain_locks tr → notes_unsafe e = true → recorded e (run (new max) tr) → unsafe_left tr.
Proof.
  intros Hp He Hr.
  assert ((∃ k, e = lock k) ∨ ∀ k, e ≠ lock k) as [[k ->]|Hne]
    by (destruct e as [[|[| | | | | | |[k|]| | | | | | |]|]| |]; eauto).
  - left. exists k. rewrite (advisory_locks_held max) by done. simpl in Hr. rewrite decide_True by done. lia.
  - right. assert (notes e = true) as Hn by (by apply notes_unsafe_notes).
    destruct (recorded_outstanding max tr e Hn Hr) as (e' & Ho & _ & Hs & Hu). exists e'.
    rewrite He in Hs. apply andb_true_iff in Hs as [Hs _]. split_and!; [done| |done].
    intros k ->. apply (Hne k). specialize (Hu (EClass (Stateful (AdvisoryUnlock (Some k))))).
    unfold undoes in Hu. simpl in Hu. rewrite bool_decide_true in Hu by done. symmetry in Hu.
    destruct e as [[|[]|]| |]; try done. case_match; [|done]. by apply bool_decide_eq_true in Hu as ->.
Qed.


(** C36. After any session the prepared-statement tracker is consistent: the
    order list names each tracked statement once and nothing else, and at most
    [max(max, 1)] statements are tracked. *)
Theorem session_tracker_consistent `{Unicode} max acts s :
  session (new max) acts = Ret s →
  NoDup (prepared_statements_lru s) ∧
  (∀ n, n ∈ prepared_statements_lru s ↔ is_Some (prepared_statements s !! n)) ∧
  (size (prepared_statements s) ≤ Nat.max max 1)%nat.
Proof.
  rewrite session_trace. intros Hs. apply outcome_bind_Ret in Hs as (tr & _ & [= <-]).
  pose proof (run_wf tr (new max) (new_wf max)) as [_ Hd Hs Hn].
  split_and!; [done| |].
  - intros n. rewrite <-elem_of_dom, <-Hs. by rewrite elem_of_list_to_set.
  - by rewrite run_max in Hn.
Qed.

Lemma elem_of_if_nil {A} (b : bool) (x y : A) : y ∈ (if b then [] else [x]) ↔ b = false ∧ y = x.
Proof. destruct b; set_solver. Qed.
Lemma elem_of_if_one {A} (b : bool) (x y : A) : y ∈ (if b then [x] else []) ↔ b = true ∧ y = x.
Proof. destruct b; set_solver. Qed.

Lemma elem_of_pin_reasons r s :
  r ∈ pin_reasons s ↔
  match r with
  | PreparedStatement => prepared_statements s ≠ ∅
  | SessionVariable => session_variables s ≠ ∅
  | TempTable => temp_tables s ≠ ∅
  | Cursor => cursors s ≠ ∅
  | AdvisoryLockHeld => advisory_locks s ≠ ∅
  | ListenChannel => listen_channels s ≠ ∅
  | UnknownCommand => unknown_command s = true
  end.
Proof.
  unfold pin_reasons.
  rewrite !elem_of_app, !elem_of_if_nil, elem_of_if_one, !bool_decide_eq_false.
  destruct r; naive_solver.
Qed.

(** The reasons reported for a pin agree with the decision to pin: there is
    one just when the connection is pinned, and an unsafe one just when it has
    unsafe state. *)
Lemma pin_reasons_agree s :
  (is_pinned s = true ↔ ∃ r, r ∈ pin_reasons s) ∧
  (has_unsafe_state s = true ↔ ∃ r, r ∈ pin_reasons s ∧ is_unsafe r = true).
Proof.
  unfold is_pinned, has_unsafe_state. setoid_rewrite elem_of_pin_reasons.
  rewrite !orb_true_iff, !negb_true_iff, !bool_decide_eq_false. split; split.
  - intros Hp. destruct Hp as [[[[[[?|?]|?]|?]|?]|?]|?];
      [exists UnknownCommand|exists PreparedStatement|exists SessionVariable|exists TempTable
      |exists Cursor|exists AdvisoryLockHeld|exists ListenChannel]; done.
  - intros ([] & ?); tauto.
  - intros Hp. destruct Hp as [[[[?|?]|?]|?]|?];
      [exists UnknownCommand|exists TempTable
      |exists Cursor|exists AdvisoryLockHeld|exists ListenChannel]; done.
  - intros ([] & ? & ?); try done; tauto.
Qed.

(** ** Query texts *)
Section query_texts.
Context `{Unicode}.

Lemma apply_query_split s q :
  split_statements q ≠ [] → apply_query s q = ofoldl apply_single_statement s (split_statements q).
Proof. unfold apply_query. by destruct (split_statements q). Qed.

(** A batch separated by a semicolon has the effect of its parts in
    order: no statement of it is overlooked. *)
Lemma apply_query_batch s a b :
  split_statements a ≠ [] → split_statements b ≠ [] →
  apply_query s (a ++ x3b :: b) = (apply_query s a ≫= λ s', apply_query s' b).
Proof.
  intros Ha Hb. rewrite !apply_query_split, split_statements_app, ofoldl_app; [|done|].
  - destruct (ofoldl _ s (split_statements a)); simpl; [|done..]. by rewrite apply_query_split.
  - rewrite split_statements_app. by destruct (split_statements a).
Qed.

Lemma split_blank q : Forall blank q → Forall (Forall Str.ascii_ws) (Str.split_byte x3b q).
Proof.
  induction 1 as [|b q Hb _ IH]; simpl; [by repeat constructor|].
  unfold beqb. case_bool_decide as He; [by constructor|].
  assert (Str.ascii_ws b).
  { unfold blank, beqb in Hb. rewrite (bool_decide_false (b = x3b)), orb_false_r in Hb by congruence.
    done. }
  destruct (Str.split_byte x3b q) as [|w ws]; [by repeat constructor|].
  apply Forall_cons in IH as [? ?]. by repeat constructor.
Qed.

Lemma trim_ascii_ws w : Forall Str.ascii_ws w → Str.trim w = [].
Proof.
  intros Hw. unfold Str.trim. rewrite Str.trim_blank; [done..|].
  eapply Forall_impl; [exact Hw|]. intros b Hb. apply blank_byte. unfold blank.
  by rewrite (Is_true_true_1 _ Hb).
Qed.

Lemma split_statements_blank q : Forall blank q → split_statements q = [].
Proof.
  intros Hq%split_blank. unfold split_statements. induction Hq as [|w ws Hw _ IH]; [done|].
  rewrite fmap_cons, filter_cons_False, IH; [done|]. intros Hn. by rewrite trim_ascii_ws in Hn.
Qed.

(** Fail closed on degenerate input: a text of white space and semicolons
    only has no statement to classify, and pins the connection. *)
Lemma apply_query_blank s q :
  Forall blank q → apply_query s q = Ret (mark_unknown_command s).
Proof.
  intros Hq. unfold apply_query, apply_single_statement.
  by rewrite split_statements_blank, classify_blank.
Qed.
End query_texts.

(** ** Concrete runs *)
Definition demo_actions : list action :=
  [AQuery (lit "SET x = 1; SELECT 1"); AParse (lit "s1") (lit "SELECT 2") [];
   ACloseStatement (lit "s1"); AQuery (lit "reset X")].
Definition demo_trace : list event :=
  [EClass (Stateful (Set_ (lit "x") (lit "1"))); EClass Clean; EClass Clean;
   EPrepare (lit "s1") (lit "SELECT 2") []; EClose (lit "s1");
   EClass (Stateful (Reset (lit "x")))].

Definition demo_locks : list action :=
  [AQuery (lit "SELECT pg_advisory_lock(7)"); AQuery (lit "SELECT pg_advisory_unlock(7)");
   AQuery (lit "LISTEN jobs"); AQuery (lit "SELECT pg_advisory_lock(7)")].
Definition demo_locks_trace : list event :=
  [lock 7; EClass (Stateful (AdvisoryUnlock (Some 7))); EClass (Stateful (Listen (lit "jobs"))); lock 7].

Lemma demo_plain_locks : plain_locks demo_locks_trace.
Proof.
  split; [by repeat constructor|]. intros pre k post Heq.
  destruct pre as [|? [|? [|? [|? [|? ?]]]]]; unfold demo_locks_trace, lock in Heq;
    simplify_eq/=; vm_compute; reflexivity.
Qed.


Lemma session_tracker_consistent_witness :
  NoDup (prepared_statements_lru (new 4)) ∧
  (∀ n, n ∈ prepared_statements_lru (new 4) ↔ is_Some (prepared_statements (new 4) !! n)) ∧
  (size (prepared_statements (new 4)) ≤ Nat.max 4 1)%nat.
Proof.
  apply (@session_tracker_consistent ascii_tables 4 demo_actions). vm_compute. reflexivity.
Defined.

(** An advisory lock whose key is not a literal is held on the backend but
    leaves the connection unpinned. *)
Example lock_without_key_does_not_pin :
  is_pinned <$> @apply_query ascii_tables (new 4) (lit "SELECT pg_advisory_lock(hashtext('job'))")
  = Ret false.
Proof. vm_compute. reflexivity. Qed.

(** A lock taken twice and released once is still held, but not tracked. *)
Example lock_taken_twice_forgotten :
  is_pinned <$> @session ascii_tables (new 4)
    [AQuery (lit "SELECT pg_advisory_lock(7)"); AQuery (lit "SELECT pg_advisory_lock(7)");
     AQuery (lit "SELECT pg_advisory_unlock(7)")] = Ret false.
Proof. vm_compute. reflexivity. Qed.

(** Parsing (without executing) DISCARD ALL forgets a subscription that the
    backend still has. *)
Example parsed_discard_forgets_listen :
  is_pinned <$> @session ascii_tables (new 4)
    [AQuery (lit "LISTEN jobs"); AParse (lit "d") (lit "DISCARD ALL") [];
     ACloseStatement (lit "d")] = Ret false.
Proof. vm_compute. reflexivity. Qed.

(** A displaced statement still lives on the backend when the last tracked one
    is closed and the connection counts as clean. *)
Example displaced_statement_forgotten :
  is_pinned <$> @session ascii_tables (new 1)
    [AParse (lit "a") (lit "SELECT 1") []; AParse (lit "b") (lit "SELECT 2") [];
     ACloseStatement (lit "b")] = Ret false.
Proof. vm_compute. reflexivity. Qed.
End CS.
