(* ===== verification/Wire.v ===== *)
(** * Bytes on the wire (protocol/mod.rs and the primitives it is read with)

    Big-endian integers, indexing and slicing of byte buffers as Rust does them
    (out of range panics), capacity requests of [Vec::with_capacity], the typed
    frontend messages of protocol/mod.rs, and the framing of the PostgreSQL
    protocol: a type byte and a length that counts itself but not the type.

    Offsets are [usize] values, kept as integers.  An offset that is bounded by
    the length of a buffer cannot overflow (a buffer has at most [2^63 - 1]
    bytes); an offset computed from a length field of the message can, and goes
    through [u64_add]. *)

From S2P Require Import Prelude RustStr.

(** ** Integers *)
Definition as_usize (z : Z) : Z := z mod two64.
(** [z] read as a two's complement number of [2^w] values. *)
Definition signed (w : Z) (z : Z) : Z := if z <? 2 ^ (w - 1) then z else z - 2 ^ w.

Definition u16_of_be (b0 b1 : byte) : Z := 256 * byte_Z b0 + byte_Z b1.
Definition u32_of_be (b0 b1 b2 b3 : byte) : Z :=
  256 * (256 * (256 * byte_Z b0 + byte_Z b1) + byte_Z b2) + byte_Z b3.
Definition i16_of_be (b0 b1 : byte) : Z := signed 16 (u16_of_be b0 b1).
Definition i32_of_be (b0 b1 b2 b3 : byte) : Z := signed 32 (u32_of_be b0 b1 b2 b3).

(** [to_be_bytes] at two and four bytes. *)
Definition be16 (z : Z) : bytes := [Z_byte (z / 256); Z_byte z].
Definition be32 (z : Z) : bytes :=
  [Z_byte (z / 16777216); Z_byte (z / 65536); Z_byte (z / 256); Z_byte z].

Lemma u16_range b0 b1 : 0 ≤ u16_of_be b0 b1 < 2 ^ 16.
Proof. unfold u16_of_be. pose proof (byte_Z_range b0). pose proof (byte_Z_range b1). lia. Qed.
Lemma u32_range b0 b1 b2 b3 : 0 ≤ u32_of_be b0 b1 b2 b3 < 2 ^ 32.
Proof.
  unfold u32_of_be. pose proof (byte_Z_range b0). pose proof (byte_Z_range b1).
  pose proof (byte_Z_range b2). pose proof (byte_Z_range b3). lia.
Qed.
Lemma signed_range w z : 1 ≤ w → 0 ≤ z < 2 ^ w → - 2 ^ (w - 1) ≤ signed w z < 2 ^ (w - 1).
Proof.
  intros Hw Hz. unfold signed. replace (2 ^ w) with (2 * 2 ^ (w - 1)) in *.
  - destruct (Z.ltb_spec z (2 ^ (w - 1))); lia.
  - rewrite <-Z.pow_succ_r by lia. f_equal. lia.
Qed.
Lemma signed_id w z : z < 2 ^ (w - 1) → signed w z = z.
Proof. intros Hz. unfold signed. by apply Z.ltb_lt in Hz as ->. Qed.
Lemma signed_mod w z : 1 ≤ w → - 2 ^ (w - 1) ≤ z < 2 ^ (w - 1) → signed w (z mod 2 ^ w) = z.
Proof.
  intros Hw Hz. unfold signed. assert (2 ^ w = 2 * 2 ^ (w - 1)) as He.
  { rewrite <-Z.pow_succ_r by lia. f_equal. lia. }
  destruct (Z.le_gt_cases 0 z).
  - rewrite Z.mod_small by lia. destruct (Z.ltb_spec z (2 ^ (w - 1))); lia.
  - rewrite <-(Z.mod_unique z (2 ^ w) (-1) (z + 2 ^ w)) by lia.
    destruct (Z.ltb_spec (z + 2 ^ w) (2 ^ (w - 1))); lia.
Qed.

Lemma u32_be32 z :
  match be32 z with
  | [a; b; c; d] => u32_of_be a b c d = z mod 2 ^ 32
  | _ => False
  end.
Proof.
  unfold be32, u32_of_be. rewrite !byte_Z_byte.
  change (2 ^ 32) with 4294967296. Z.to_euclidean_division_equations. lia.
Qed.

Lemma u16_be16 z :
  match be16 z with [a; b] => u16_of_be a b = z mod 2 ^ 16 | _ => False end.
Proof.
  unfold be16, u16_of_be. rewrite !byte_Z_byte.
  change (2 ^ 16) with 65536. Z.to_euclidean_division_equations. lia.
Qed.

Lemma length_be32 z : length (be32 z) = 4%nat.
Proof. done. Qed.
Lemma length_be16 z : length (be16 z) = 2%nat.
Proof. done. Qed.

(** ** Indexing and slicing *)
Definition at_ (data : bytes) (i : Z) : outcome byte :=
  match data !! Z.to_nat i with Some b => Ret b | None => Panic end.

Definition i16_at (data : bytes) (i : Z) : outcome Z :=
  b0 ← at_ data i; b1 ← at_ data (i + 1); Ret (i16_of_be b0 b1).
Definition u32_at (data : bytes) (i : Z) : outcome Z :=
  b0 ← at_ data i; b1 ← at_ data (i + 1); b2 ← at_ data (i + 2); b3 ← at_ data (i + 3);
  Ret (u32_of_be b0 b1 b2 b3).
Definition i32_at (data : bytes) (i : Z) : outcome Z := signed 32 <$> u32_at data i.

(** [&data[a..b]]. *)
Definition sub (data : bytes) (a b : Z) : outcome bytes :=
  if (a <=? b) && (b <=? Z.of_nat (length data))
  then Ret (take (Z.to_nat (b - a)) (drop (Z.to_nat a) data)) else Panic.

Definition zlen {A} (l : list A) : Z := Z.of_nat (length l).

(** [Vec::with_capacity(n)] at an element size of [sz] bytes. *)
Definition with_capacity (sz n : Z) : outcome unit :=
  if n * sz <=? 2 ^ 63 - 1 then Ret tt else Panic.

(** [data.iter().position(|&b| b == 0)] *)
Fixpoint nul_pos (data : bytes) : option nat :=
  match data with
  | [] => None
  | b :: data' => if beqb b x00 then Some O else S <$> nul_pos data'
  end.

(** ** Frames *)
Definition frame (t : byte) (payload : bytes) : bytes := t :: be32 (4 + zlen payload) ++ payload.

(** ** Messages (protocol/mod.rs) *)
Definition MSG_QUERY : byte := x51.
Definition MSG_PARSE : byte := x50.
Definition MSG_BIND : byte := x42.
Definition MSG_EXECUTE : byte := x45.
Definition MSG_SYNC : byte := x53.
Definition MSG_TERMINATE : byte := x58.
Definition MSG_CLOSE : byte := x43.
Definition MSG_COMMAND_COMPLETE : byte := x43.
Definition MSG_READY_FOR_QUERY : byte := x5a.
Definition MSG_ERROR_RESPONSE : byte := x45.
Definition MSG_AUTHENTICATION : byte := x52.
Definition MSG_PASSWORD : byte := x70.
Definition AUTH_OK : Z := 0.
Definition AUTH_CLEARTEXT_PASSWORD : Z := 3.
Definition AUTH_MD5_PASSWORD : Z := 5.
Definition AUTH_SASL : Z := 10.
Definition AUTH_SASL_CONTINUE : Z := 11.
Definition AUTH_SASL_FINAL : Z := 12.

(** The kind of a Close message is the character of one byte. *)
Inductive Message : Type :=
| Query (query : bytes)
| Parse (name query : bytes) (param_oids : list Z)
| Bind (portal statement : bytes) (format_codes : list Z) (params_raw : list (option bytes))
| Execute (portal : bytes)
| Close (kind : byte) (name : bytes)
| Sync
| Terminate.

#[export] Instance Message_eq_dec : EqDecision Message.
Proof. solve_decision. Defined.

(** ** Reading at a known place *)
Lemma zlen_nonneg {A} (l : list A) : 0 ≤ zlen l.
Proof. unfold zlen. lia. Qed.
Lemma zlen_app {A} (l k : list A) : zlen (l ++ k) = zlen l + zlen k.
Proof. unfold zlen. rewrite length_app. lia. Qed.
Lemma zlen_cons {A} (x : A) l : zlen (x :: l) = 1 + zlen l.
Proof. unfold zlen. simpl. lia. Qed.
Lemma zlen_nil {A} : zlen (@nil A) = 0.
Proof. done. Qed.
Lemma zlen_be32 z : zlen (be32 z) = 4.
Proof. done. Qed.
Lemma zlen_be16 z : zlen (be16 z) = 2.
Proof. done. Qed.
#[export] Hint Rewrite @zlen_app @zlen_cons @zlen_nil zlen_be32 zlen_be16 : scry_len.

Lemma at_app pre b post i : i = zlen pre → at_ (pre ++ b :: post) i = Ret b.
Proof. intros ->. unfold at_, zlen. by rewrite Nat2Z.id, list_lookup_middle. Qed.

Lemma at_app_r pre l k : 0 ≤ k → at_ (pre ++ l) (zlen pre + k) = at_ l k.
Proof.
  intros Hk. unfold at_, zlen. rewrite lookup_app_r by lia.
  by replace (Z.to_nat (Z.of_nat (length pre) + k) - length pre)%nat with (Z.to_nat k) by lia.
Qed.
Lemma at_app_r0 pre l : at_ (pre ++ l) (zlen pre) = at_ l 0.
Proof. rewrite <-(Z.add_0_r (zlen pre)). by apply at_app_r. Qed.

Lemma u32_at_app pre a b c d post i :
  i = zlen pre → u32_at (pre ++ a :: b :: c :: d :: post) i = Ret (u32_of_be a b c d).
Proof. intros ->. unfold u32_at. by rewrite at_app_r0, !at_app_r by lia. Qed.

Lemma u32_at_be32 pre z post i :
  i = zlen pre → u32_at (pre ++ be32 z ++ post) i = Ret (z mod 2 ^ 32).
Proof.
  intros Hi. etrans; [by apply u32_at_app|]. f_equal. apply (u32_be32 z).
Qed.

Lemma i32_at_be32 pre z post i :
  i = zlen pre → - 2 ^ 31 ≤ z < 2 ^ 31 → i32_at (pre ++ be32 z ++ post) i = Ret z.
Proof.
  intros Hi Hz. unfold i32_at. rewrite u32_at_be32 by done. simpl. f_equal.
  by apply (signed_mod 32).
Qed.

Lemma i16_at_be16 pre z post i :
  i = zlen pre → - 2 ^ 15 ≤ z < 2 ^ 15 → i16_at (pre ++ be16 z ++ post) i = Ret z.
Proof.
  intros -> Hz. unfold i16_at. rewrite at_app_r0, at_app_r by lia.
  transitivity (Ret (signed 16 (z mod 2 ^ 16))); [|f_equal; by apply (signed_mod 16)].
  rewrite <-(u16_be16 z : _ = _). done.
Qed.

Lemma sub_app pre mid post a b :
  a = zlen pre → b = zlen pre + zlen mid → sub (pre ++ mid ++ post) a b = Ret mid.
Proof.
  intros -> ->. unfold sub. pose proof (zlen_nonneg mid). pose proof (zlen_nonneg post).
  rewrite (proj2 (Z.leb_le _ _)) by lia.
  rewrite (proj2 (Z.leb_le _ _)) by (change (Z.of_nat (length ?l)) with (zlen l);
    autorewrite with scry_len; lia).
  simpl. unfold zlen. rewrite Nat2Z.id, drop_app_length.
  rewrite Z.add_simpl_l, Nat2Z.id, take_app_length. done.
Qed.

Lemma zlen_frame t p : zlen (frame t p) = 5 + zlen p.
Proof. unfold frame. autorewrite with scry_len. lia. Qed.
#[export] Hint Rewrite zlen_frame : scry_len.

Lemma nul_pos_app a b : x00 ∉ a → nul_pos (a ++ x00 :: b) = Some (length a).
Proof.
  induction a as [|c a IH]; intros Ha; [done|]. simpl. unfold beqb.
  rewrite bool_decide_false by set_solver. by rewrite IH by set_solver.
Qed.

Lemma nul_pos_Some data n :
  nul_pos data = Some n → ∃ a b, data = a ++ x00 :: b ∧ length a = n ∧ x00 ∉ a.
Proof.
  revert n; induction data as [|c data IH]; intros n; simpl; [done|].
  unfold beqb. case_bool_decide as Hc.
  - intros [= <-]. subst c. exists [], data. set_solver.
  - intros (m & Hm & ->)%fmap_Some. destruct (IH m Hm) as (a & b & -> & <- & Ha).
    exists (c :: a), b. set_solver.
Qed.

(** The header and the payload of a frame inside a buffer. *)
Lemma frame_type_at pre t p post i : i = zlen pre → at_ (pre ++ frame t p ++ post) i = Ret t.
Proof. intros ->. by rewrite at_app_r0. Qed.

Lemma frame_length_at pre t p post i :
  i = zlen pre + 1 → 4 + zlen p < 2 ^ 31 → i32_at (pre ++ frame t p ++ post) i = Ret (4 + zlen p).
Proof.
  intros -> Hp. unfold frame. pose proof (zlen_nonneg p).
  rewrite <-app_comm_cons, <-app_assoc, (cons_middle t), app_assoc.
  apply i32_at_be32; [|lia]. autorewrite with scry_len. lia.
Qed.

Lemma frame_payload_at pre t p post i j :
  i = zlen pre + 5 → j = zlen pre + 5 + zlen p → sub (pre ++ frame t p ++ post) i j = Ret p.
Proof.
  intros -> ->. unfold frame.
  replace (pre ++ (t :: be32 (4 + zlen p) ++ p) ++ post)
    with ((pre ++ t :: be32 (4 + zlen p)) ++ p ++ post)
    by (by rewrite <-!app_assoc, <-!app_comm_cons, <-!app_assoc).
  apply sub_app; autorewrite with scry_len; lia.
Qed.

(** A buffer of frames. *)
Definition frames (fs : list (byte * bytes)) : bytes := concat ((λ f, frame f.1 f.2) <$> fs).

Lemma frames_cons t p fs : frames ((t, p) :: fs) = frame t p ++ frames fs.
Proof. done. Qed.
Lemma frames_app fs gs : frames (fs ++ gs) = frames fs ++ frames gs.
Proof. unfold frames. by rewrite fmap_app, concat_app. Qed.

(** [at_] and [i32_at] do not see what follows. *)
Lemma at_app_l a b i : 0 ≤ i < zlen a → at_ (a ++ b) i = at_ a i.
Proof. unfold at_, zlen. intros Hi. rewrite lookup_app_l by lia. done. Qed.

Lemma i32_at_app_l a b i : 0 ≤ i → i + 4 ≤ zlen a → i32_at (a ++ b) i = i32_at a i.
Proof. intros Hi Ha. unfold i32_at, u32_at. by rewrite !at_app_l by lia. Qed.

Lemma i32_at_app_r a b i : 0 ≤ i → i32_at (a ++ b) (zlen a + i) = i32_at b i.
Proof.
  intros Hi. unfold i32_at, u32_at. rewrite <-!Z.add_assoc. by rewrite !at_app_r by lia.
Qed.

Lemma at_Ret data i : 0 ≤ i < zlen data → ∃ b, at_ data i = Ret b.
Proof.
  unfold at_, zlen. intros Hi.
  destruct (lookup_lt_is_Some_2 data (Z.to_nat i)) as [b Hb]; [lia|]. rewrite Hb. eauto.
Qed.

Lemma i32_at_Ret data i :
  0 ≤ i → i + 4 ≤ zlen data → ∃ n, i32_at data i = Ret n ∧ - 2 ^ 31 ≤ n < 2 ^ 31.
Proof.
  intros Hi Hd. unfold i32_at, u32_at.
  destruct (at_Ret data i) as [b0 ->]; [lia|]. destruct (at_Ret data (i + 1)) as [b1 ->]; [lia|].
  destruct (at_Ret data (i + 2)) as [b2 ->]; [lia|]. destruct (at_Ret data (i + 3)) as [b3 ->]; [lia|].
  eexists. split; [done|]. apply (signed_range 32); [lia|]. apply u32_range.
Qed.

Lemma ends_at data i : ends (at_ data i).
Proof. unfold at_. by case_match. Qed.
Lemma ends_sub data i j : ends (sub data i j).
Proof. unfold sub. by case_match. Qed.
Lemma ends_with_capacity sz n : ends (with_capacity sz n).
Proof. unfold with_capacity. by case_match. Qed.
Lemma ends_i16_at data i : ends (i16_at data i).
Proof. unfold i16_at. auto using ends_at with scry. Qed.
Lemma ends_u32_at data i : ends (u32_at data i).
Proof. unfold u32_at. eauto 10 using ends_at with scry. Qed.
Lemma ends_i32_at data i : ends (i32_at data i).
Proof. apply ends_fmap, ends_u32_at. Qed.
Lemma ends_wrap_or_panic `{Build} m z : ends (wrap_or_panic m z).
Proof. unfold wrap_or_panic. by repeat case_match. Qed.
#[export] Hint Resolve ends_at ends_sub ends_with_capacity ends_i16_at ends_u32_at ends_i32_at : scry.
#[export] Hint Extern 1 (ends (u64_add _ _)) => apply ends_wrap_or_panic : scry.
#[export] Hint Extern 1 (ends (u64_sub _ _)) => apply ends_wrap_or_panic : scry.
