(* ===== verification/Extractor.v ===== *)
(** * Message extraction (protocol/extractor.rs)

    The frontend direction reassembles messages across reads
    ([extract_messages]); the backend direction scans one read at a time
    ([extract_ready_for_query], [is_query_complete], [find_error_fields]).

    The loops advance a position in a buffer.  Each is a fuelled recursion whose
    fuel is one more than the length of the buffer: a loop that moves forward in
    every round visits at most that many positions, and a loop that visits more
    positions than the buffer has repeats one and never ends. *)

From S2P Require Import Prelude RustStr Wire.

Module Ext.

(** [x?] on an [Option], in code that may panic. *)
Definition try_ {A B} (o : option A) (k : A → outcome (option B)) : outcome (option B) :=
  match o with Some a => k a | None => Ret None end.
(** The same after a step that may panic itself. *)
Definition try_ret {A B} (m : outcome (option A)) (k : A → outcome (option B))
    : outcome (option B) := o ← m; try_ o k.

Record ErrorFields : Type := {
  severity : option bytes; sqlstate : option bytes; message : option bytes
}.

Definition MAX_FRONTEND_MESSAGE_SIZE : Z := 64 * 1024 * 1024.

(** A buffer behind a mutex: [None] once the lock is poisoned. *)
Record MessageExtractor : Type := {
  buffer : option bytes;
  frontend_buffer : option bytes
}.
Definition new : MessageExtractor := {| buffer := Some []; frontend_buffer := Some [] |}.

(** ** Message payloads *)
Definition read_cstring (data : bytes) (offset : Z) : option bytes :=
  let rest := drop (Z.to_nat offset) data in
  match nul_pos rest with
  | None => None
  | Some n => Str.from_utf8 (take n rest)
  end.

Definition parse_query_message (payload : bytes) : outcome (option Message) :=
  try_ (read_cstring payload 0) (λ query, Ret (Some (Query query))).

Fixpoint read_oids (n : nat) (payload : bytes) (offset : Z) : outcome (option (list Z)) :=
  match n with
  | O => Ret (Some [])
  | S n =>
      if zlen payload <? offset + 4 then Ret None
      else oid ← u32_at payload offset;
           try_ret (read_oids n payload (offset + 4)) (λ l, Ret (Some (oid :: l)))
  end.

Definition parse_parse_message (payload : bytes) : outcome (option Message) :=
  try_ (read_cstring payload 0) (λ name,
  let offset := zlen name + 1 in
  try_ (read_cstring payload offset) (λ query,
  let offset := offset + (zlen query + 1) in
  if zlen payload <? offset + 2 then Ret None
  else
    num_params ← as_usize <$> i16_at payload offset;
    let offset := offset + 2 in
    _ ← with_capacity 4 num_params;
    try_ret (read_oids (Z.to_nat num_params) payload offset) (λ param_oids,
    Ret (Some (Parse name query param_oids))))).

Fixpoint read_codes (n : nat) (payload : bytes) (offset : Z) : outcome (option (list Z * Z)) :=
  match n with
  | O => Ret (Some ([], offset))
  | S n =>
      if zlen payload <? offset + 2 then Ret None
      else code ← i16_at payload offset;
           try_ret (read_codes n payload (offset + 2)) (λ '(l, o), Ret (Some (code :: l, o)))
  end.

Section with_build.
Context `{Build}.

Fixpoint read_params (n : nat) (payload : bytes) (offset : Z)
    : outcome (option (list (option bytes))) :=
  match n with
  | O => Ret (Some [])
  | S n =>
      if zlen payload <? offset + 4 then Ret None
      else
        len ← i32_at payload offset;
        let offset := offset + 4 in
        if len =? -1 then
          try_ret (read_params n payload offset) (λ l, Ret (Some (None :: l)))
        else
          stop ← u64_add offset (as_usize len);
          if zlen payload <? stop then Ret None
          else v ← sub payload offset stop;
               try_ret (read_params n payload stop) (λ l, Ret (Some (Some v :: l)))
  end.

Definition parse_bind_message (payload : bytes) : outcome (option Message) :=
  try_ (read_cstring payload 0) (λ portal,
  let offset := zlen portal + 1 in
  try_ (read_cstring payload offset) (λ statement,
  let offset := offset + (zlen statement + 1) in
  if zlen payload <? offset + 2 then Ret None
  else
    num_format_codes ← as_usize <$> i16_at payload offset;
    let offset := offset + 2 in
    _ ← with_capacity 2 num_format_codes;
    try_ret (read_codes (Z.to_nat num_format_codes) payload offset) (λ '(format_codes, offset),
    if zlen payload <? offset + 2 then Ret None
    else
      num_params ← as_usize <$> i16_at payload offset;
      let offset := offset + 2 in
      _ ← with_capacity 24 num_params;
      try_ret (read_params (Z.to_nat num_params) payload offset) (λ params_raw,
      Ret (Some (Bind portal statement format_codes params_raw)))))).

Definition parse_execute_message (payload : bytes) : outcome (option Message) :=
  try_ (read_cstring payload 0) (λ portal, Ret (Some (Execute portal))).

Definition parse_close_message (payload : bytes) : outcome (option Message) :=
  match payload with
  | [] => Ret None
  | kind :: _ => try_ (read_cstring payload 1) (λ name, Ret (Some (Close kind name)))
  end.

(** The [match msg_type] of [extract_message] and [extract_messages]. *)
Definition parse_message (msg_type : byte) (payload : bytes) : outcome (option Message) :=
  if beqb msg_type MSG_QUERY then parse_query_message payload
  else if beqb msg_type MSG_PARSE then parse_parse_message payload
  else if beqb msg_type MSG_BIND then parse_bind_message payload
  else if beqb msg_type MSG_EXECUTE then parse_execute_message payload
  else if beqb msg_type MSG_CLOSE then parse_close_message payload
  else if beqb msg_type MSG_SYNC then Ret (Some Sync)
  else if beqb msg_type MSG_TERMINATE then Ret (Some Terminate)
  else Ret None.

(** ** The frontend direction *)
Definition extract_message (data : bytes) : outcome (option Message) :=
  if zlen data <? 5 then Ret None
  else
    msg_type ← at_ data 0;
    length ← as_usize <$> i32_at data 1;
    stop ← u64_add 1 length;
    if zlen data <? stop then Ret None
    else payload ← sub data 5 stop; parse_message msg_type payload.

(** The loop of [extract_messages]: the messages found, the offset reached and
    whether a framing error ended it. *)
Fixpoint messages_loop (fuel : nat) (buf : bytes) (offset : Z)
    : outcome (list Message * Z * bool) :=
  if zlen buf <? offset + 5 then Ret ([], offset, false)
  else
    match fuel with
    | O => Diverge
    | S fuel =>
        msg_type ← at_ buf offset;
        length_i32 ← i32_at buf (offset + 1);
        if (length_i32 <? 4) || (MAX_FRONTEND_MESSAGE_SIZE <? length_i32)
        then Ret ([], offset, true)
        else if zlen buf <? offset + 1 + length_i32 then Ret ([], offset, false)
        else
          payload ← sub buf (offset + 5) (offset + 1 + length_i32);
          msg ← parse_message msg_type payload;
          r ← messages_loop fuel buf (offset + (1 + length_i32));
          let '(ms, o, e) := r in
          Ret (match msg with Some m => m :: ms | None => ms end, o, e)
    end.

Definition extract_messages (x : MessageExtractor) (data : bytes)
    : outcome (list Message * MessageExtractor) :=
  match frontend_buffer x with
  | None => Ret ([], x)
  | Some fb =>
      let buf := fb ++ data in
      messages_loop (S (length buf)) buf 0 ≫= λ r : list Message * Z * bool,
      let '(ms, offset, framing_error) := r in
      let buf' := if framing_error then [] else drop (Z.to_nat offset) buf in
      Ret (ms, {| buffer := buffer x; frontend_buffer := Some buf' |})
  end.

(** ** The legacy query extraction *)
Definition extract_query_text (data : bytes) : option bytes :=
  let end_ := default (length data) (nul_pos data) in
  match Str.from_utf8 (take end_ data) with
  | Some s => let trimmed := Str.trim s in if decide (trimmed = []) then None else Some trimmed
  | None => None
  end.

(** [parse_messages_from]: the cursor of [Bytes] is the list still unread. *)
Fixpoint queries_loop (fuel : nat) (bytes_ : bytes) (query : option bytes)
    : outcome (option bytes) :=
  if zlen bytes_ <? 5 then Ret query
  else
    match fuel with
    | O => Diverge
    | S fuel =>
        msg_type ← at_ bytes_ 0;
        if beqb msg_type MSG_QUERY || beqb msg_type MSG_PARSE then
          length ← as_usize <$> i32_at bytes_ 1;
          let bytes_ := drop 5 bytes_ in
          n ← u64_sub length 4;
          if n <=? zlen bytes_ then
            data ← sub bytes_ 0 n;
            let text :=
              if beqb msg_type MSG_QUERY then extract_query_text data
              else match nul_pos data with
                   | Some p => extract_query_text (drop (p + 1) data)
                   | None => None
                   end in
            queries_loop fuel (drop (Z.to_nat n) bytes_)
              (match text with Some q => Some q | None => query end)
          else Ret query
        else queries_loop fuel (drop 1 bytes_) query
    end.

Definition parse_messages_from (buf : bytes) : outcome (option bytes) :=
  if zlen buf <? 5 then Ret None else queries_loop (S (length buf)) buf None.

Definition extract_query (x : MessageExtractor) (data : bytes)
    : outcome (option bytes * MessageExtractor) :=
  match data, buffer x with
  | [], _ => Ret (None, x)
  | _, None => Ret (None, x)
  | _, Some b =>
      query ← parse_messages_from (b ++ data);
      Ret (query, {| buffer := Some []; frontend_buffer := frontend_buffer x |})
  end.

(** ** The backend direction *)
Fixpoint complete_loop (fuel : nat) (data : bytes) (offset : Z) : outcome bool :=
  if zlen data <? offset + 5 then Ret false
  else
    match fuel with
    | O => Diverge
    | S fuel =>
        msg_type ← at_ data offset;
        if beqb msg_type MSG_COMMAND_COMPLETE || beqb msg_type MSG_READY_FOR_QUERY
        then Ret true
        else
          length ← as_usize <$> i32_at data (offset + 1);
          if length <? 4 then Ret false
          else
            stop ← u64_add (offset + 1) length;
            if zlen data <? stop then Ret false
            else
              d ← u64_add 1 length;
              offset ← u64_add offset d;
              complete_loop fuel data offset
    end.

Definition is_query_complete (data : bytes) : outcome bool :=
  match data with [] => Ret false | _ => complete_loop (S (length data)) data 0 end.

Fixpoint ready_loop (fuel : nat) (data : bytes) (offset : Z) (last_status : option byte)
    : outcome (option byte) :=
  if zlen data <? offset + 5 then Ret last_status
  else
    match fuel with
    | O => Diverge
    | S fuel =>
        msg_type ← at_ data offset;
        last_status ←
          (if beqb msg_type MSG_READY_FOR_QUERY && (offset + 6 <=? zlen data)
           then Some <$> at_ data (offset + 5) else Ret last_status);
        length ← as_usize <$> i32_at data (offset + 1);
        if length <? 4 then Ret last_status
        else
          stop ← u64_add (offset + 1) length;
          if zlen data <? stop then Ret last_status
          else
            d ← u64_add 1 length;
            offset ← u64_add offset d;
            ready_loop fuel data offset last_status
    end.

Definition extract_ready_for_query (data : bytes) : outcome (option byte) :=
  ready_loop (S (length data)) data 0 None.

Definition contains_ready_for_query (data : bytes) : outcome bool :=
  (λ o, bool_decide (is_Some o)) <$> extract_ready_for_query data.

(** ** Error responses *)
Definition set_field (t : byte) (v : bytes) (f : ErrorFields) : ErrorFields :=
  if beqb t x53 then {| severity := Some v; sqlstate := sqlstate f; message := message f |}
  else if beqb t x43 then {| severity := severity f; sqlstate := Some v; message := message f |}
  else if beqb t x4d then {| severity := severity f; sqlstate := sqlstate f; message := Some v |}
  else f.

(** [parse_error_fields]: the list is [data[i..]]. *)
Fixpoint error_fields_loop (fuel : nat) (data : bytes) (f : ErrorFields) : ErrorFields :=
  match fuel, data with
  | S fuel, field_type :: rest =>
      if beqb field_type x00 then f
      else match nul_pos rest with
           | None => f
           | Some n =>
               error_fields_loop fuel (drop (n + 1) rest)
                 (match Str.from_utf8 (take n rest) with
                  | Some value => set_field field_type value f
                  | None => f
                  end)
           end
  | _, _ => f
  end.
Definition parse_error_fields (data : bytes) : ErrorFields :=
  error_fields_loop (length data) data {| severity := None; sqlstate := None; message := None |}.

Fixpoint error_loop (fuel : nat) (bytes_ : bytes) : outcome (option ErrorFields) :=
  if zlen bytes_ <? 5 then Ret None
  else
    match fuel with
    | O => Diverge
    | S fuel =>
        msg_type ← at_ bytes_ 0;
        length ← as_usize <$> i32_at bytes_ 1;
        let rest := drop 5 bytes_ in
        if beqb msg_type MSG_ERROR_RESPONSE then
          n ← u64_sub length 4;
          if n <=? zlen rest
          then data ← sub rest 0 n; Ret (Some (parse_error_fields data))
          else error_loop fuel rest
        else if 4 <? length then
          n ← u64_sub length 4;
          if n <=? zlen rest then error_loop fuel (drop (Z.to_nat n) rest) else Ret None
        else Ret None
    end.

Definition find_error_fields (data : bytes) : outcome (option ErrorFields) :=
  match data with [] => Ret None | _ => error_loop (S (length data)) data end.

Definition join (a b : option bytes) : option bytes :=
  match a, b with
  | Some x, Some y => Some (x ++ lit ": " ++ y)
  | None, Some y => Some y
  | Some x, None => Some x
  | None, None => None
  end.

Definition extract_error (data : bytes) : outcome (option bytes) :=
  try_ret (find_error_fields data) (λ f, Ret (join (severity f) (message f))).
Definition extract_error_scrubbed (data : bytes) : outcome (option bytes) :=
  try_ret (find_error_fields data) (λ f, Ret (join (severity f) (sqlstate f))).
End with_build.

(** ** Streams of frames *)
Definition valid_frame (f : byte * bytes) : Prop := 4 + zlen f.2 ≤ MAX_FRONTEND_MESSAGE_SIZE.

(** A tail that is not yet a whole message, with a plausible length if the
    length can be read. *)
Definition incomplete (tl : bytes) : Prop :=
  zlen tl < 5 ∨
  ∃ n, i32_at tl 1 = Ret n ∧ 4 ≤ n ≤ MAX_FRONTEND_MESSAGE_SIZE ∧ zlen tl < 1 + n.

Ltac Zbool :=
  repeat match goal with
  | |- context [?a <? ?b] =>
      first [rewrite (proj2 (Z.ltb_lt a b)) by lia | rewrite (proj2 (Z.ltb_ge a b)) by lia]
  | |- context [?a <=? ?b] =>
      first [rewrite (proj2 (Z.leb_le a b)) by lia | rewrite (proj2 (Z.leb_gt a b)) by lia]
  | |- context [?a =? ?b] =>
      first [rewrite (proj2 (Z.eqb_eq a b)) by lia | rewrite (proj2 (Z.eqb_neq a b)) by lia]
  end; cbn [andb orb negb].

Section streams.
Context `{Build}.

Fixpoint parse_all (fs : list (byte * bytes)) : outcome (list Message) :=
  match fs with
  | [] => Ret []
  | (t, p) :: fs =>
      msg ← parse_message t p; ms ← parse_all fs;
      Ret (match msg with Some m => m :: ms | None => ms end)
  end.

Lemma parse_all_app fs gs :
  parse_all (fs ++ gs) = (ms ← parse_all fs; ns ← parse_all gs; Ret (ms ++ ns)).
Proof.
  induction fs as [|[t p] fs IH]; simpl; [by destruct (parse_all gs)|].
  destruct (parse_message t p) as [msg| |]; simpl; try done. rewrite IH.
  destruct (parse_all fs); simpl; try done. destruct (parse_all gs); simpl; try done.
  by destruct msg.
Qed.

Lemma messages_loop_tail fuel pre tl :
  incomplete tl → messages_loop (S fuel) (pre ++ tl) (zlen pre) = Ret ([], zlen pre, false).
Proof.
  intros Htl. cbn [messages_loop]. rewrite zlen_app.
  destruct (Z.ltb_spec (zlen pre + zlen tl) (zlen pre + 5)); [done|].
  destruct Htl as [?|(n & Hn & Hr & Hl)]; [lia|].
  pose proof (zlen_nonneg pre).
  destruct (at_Ret (pre ++ tl) (zlen pre)) as [b Hb]; [rewrite zlen_app; lia|].
  rewrite Hb. cbn [mbind outcome_bind]. rewrite i32_at_app_r, Hn by lia.
  cbn [mbind outcome_bind]. by Zbool.
Qed.

Lemma messages_loop_frames fs pre tl fuel :
  Forall valid_frame fs → incomplete tl → (length fs < fuel)%nat →
  messages_loop fuel (pre ++ frames fs ++ tl) (zlen pre)
  = (ms ← parse_all fs; Ret (ms, zlen pre + zlen (frames fs), false)).
Proof.
  intros Hfs Htl. revert pre fuel; induction Hfs as [|[t p] fs Hf _ IH]; intros pre fuel Hfuel;
    (destruct fuel as [|fuel]; [simpl in Hfuel; lia|]).
  - rewrite app_nil_l, messages_loop_tail by done. cbn. by rewrite Z.add_0_r.
  - unfold valid_frame, MAX_FRONTEND_MESSAGE_SIZE in Hf. simpl in Hf.
    rewrite frames_cons, <-app_assoc. cbn [messages_loop].
    pose proof (zlen_nonneg p). pose proof (zlen_nonneg pre). pose proof (zlen_nonneg (frames fs ++ tl)).
    rewrite frame_type_at by done. cbn [mbind outcome_bind].
    rewrite frame_length_at by lia. cbn [mbind outcome_bind].
    rewrite !(zlen_app pre), (zlen_app (frame t p) (frames fs ++ tl)), zlen_frame.
    unfold MAX_FRONTEND_MESSAGE_SIZE. Zbool.
    rewrite frame_payload_at by lia. cbn [mbind outcome_bind parse_all].
    destruct (parse_message t p) as [msg| |]; cbn [mbind outcome_bind]; try done.
    rewrite (app_assoc pre).
    replace (zlen pre + (1 + (4 + zlen p))) with (zlen (pre ++ frame t p))
      by (autorewrite with scry_len; lia).
    rewrite IH by (simpl in Hfuel; lia).
    destruct (parse_all fs) as [ms| |]; cbn [mbind outcome_bind]; try done.
    autorewrite with scry_len. by rewrite <-Z.add_assoc.
Qed.

Lemma length_frames_le fs : (length fs ≤ length (frames fs))%nat.
Proof.
  induction fs as [|[t p] fs IH]; [done|]. rewrite frames_cons, length_app. simpl. lia.
Qed.

(** One call: the whole messages of the buffer are reported, the incomplete
    tail is kept. *)
Lemma extract_messages_frames x fb data fs tl :
  frontend_buffer x = Some fb → fb ++ data = frames fs ++ tl →
  Forall valid_frame fs → incomplete tl →
  extract_messages x data
  = (ms ← parse_all fs; Ret (ms, {| buffer := buffer x; frontend_buffer := Some tl |})).
Proof.
  intros Hfb Heq Hfs Htl. unfold extract_messages. rewrite Hfb, Heq.
  pose proof (length_frames_le fs) as Hl.
  rewrite (messages_loop_frames fs [] tl) by (done || (rewrite length_app; lia)).
  destruct (parse_all fs); cbn [mbind outcome_bind]; try done.
  cbn [zlen length]. rewrite Z.add_0_l. unfold zlen. by rewrite Nat2Z.id, drop_app_length.
Qed.

(** Prefixes of well-framed streams are well framed. *)
Lemma incomplete_prefix a b : incomplete (a ++ b) → incomplete a.
Proof.
  unfold incomplete. rewrite zlen_app. pose proof (zlen_nonneg b).
  intros [?|(n & Hn & Hr & Hl)]; [left; lia|].
  destruct (decide (zlen a < 5)); [by left|right].
  exists n. rewrite i32_at_app_l in Hn by lia. split_and!; [done|lia..].
Qed.

Lemma frame_prefix_incomplete t p a b :
  valid_frame (t, p) → b ≠ [] → a ++ b = frame t p → incomplete a.
Proof.
  intros Hf Hb Heq. unfold valid_frame, MAX_FRONTEND_MESSAGE_SIZE in Hf. simpl in Hf.
  assert (Hlen : zlen a + zlen b = 5 + zlen p) by (by rewrite <-zlen_app, Heq, zlen_frame).
  assert (0 < zlen b) by (destruct b as [|c b]; [done|]; rewrite zlen_cons; pose proof (zlen_nonneg b); lia).
  destruct (decide (zlen a < 5)); [by left|right]. exists (4 + zlen p).
  pose proof (zlen_nonneg p). unfold MAX_FRONTEND_MESSAGE_SIZE. split_and!; [|lia..].
  rewrite <-(i32_at_app_l a b) by lia. rewrite Heq.
  rewrite <-(app_nil_r (frame t p)). by apply (frame_length_at []); [|lia].
Qed.

Lemma frame_not_incomplete t p rest : valid_frame (t, p) → ¬ incomplete (frame t p ++ rest).
Proof.
  unfold valid_frame, MAX_FRONTEND_MESSAGE_SIZE. cbn [snd]. intros Hf.
  pose proof (zlen_nonneg p). pose proof (zlen_nonneg rest).
  pose proof (frame_length_at [] t p rest 1 eq_refl ltac:(lia)) as Hl. rewrite app_nil_l in Hl.
  intros [Hlt|(n & Hn & _ & Hlt)]; rewrite zlen_app, zlen_frame in Hlt; [lia|].
  rewrite Hl in Hn. injection Hn as <-. lia.
Qed.

Lemma frames_prefix fs tl a b :
  Forall valid_frame fs → incomplete tl → a ++ b = frames fs ++ tl →
  ∃ fs1 fs2 tl1, fs = fs1 ++ fs2 ∧ a = frames fs1 ++ tl1 ∧ incomplete tl1 ∧
                 tl1 ++ b = frames fs2 ++ tl.
Proof.
  intros Hfs Htl. revert a; induction Hfs as [|[t p] fs Hf Hfs IH]; intros a Heq.
  - exists [], [], a. split_and!; [done..| |done]. apply (incomplete_prefix a b). by rewrite Heq.
  - rewrite frames_cons, <-app_assoc in Heq.
    apply app_eq_inv in Heq as [(k & -> & Hk)|(k & Hk & ->)].
    + destruct (IH k) as (fs1 & fs2 & tl1 & -> & -> & Htl1 & Hb); [done|].
      exists ((t, p) :: fs1), fs2, tl1. split_and!; [done| |done..].
      by rewrite frames_cons, <-app_assoc.
    + destruct k as [|c k].
      * rewrite app_nil_r in Hk. subst a. exists [(t, p)], fs, [].
        split_and!; [done| | |done].
        -- rewrite frames_cons. unfold frames. by rewrite !app_nil_r.
        -- left. rewrite zlen_nil. lia.
      * exists [], ((t, p) :: fs), a. split_and!; [done..| |].
        -- by apply (frame_prefix_incomplete t p a (c :: k)).
        -- by rewrite frames_cons, Hk, <-!app_assoc.
Qed.
End streams.

(** ** Serialised messages (tests/framing_fuzz.rs) *)
Definition type_of (m : Message) : byte :=
  match m with
  | Query _ => MSG_QUERY | Parse _ _ _ => MSG_PARSE | Bind _ _ _ _ => MSG_BIND
  | Execute _ => MSG_EXECUTE | Close _ _ => MSG_CLOSE | Sync => MSG_SYNC
  | Terminate => MSG_TERMINATE
  end.

Definition put_param (p : option bytes) : bytes :=
  match p with Some v => be32 (zlen v) ++ v | None => be32 (-1) end.

Definition payload_of (m : Message) : bytes :=
  match m with
  | Query q => q ++ [x00]
  | Parse n q oids => n ++ x00 :: q ++ x00 :: be16 (zlen oids) ++ concat (be32 <$> oids)
  | Bind p s codes params =>
      p ++ x00 :: s ++ x00 :: be16 (zlen codes) ++ concat (be16 <$> codes)
        ++ be16 (zlen params) ++ concat (put_param <$> params) ++ be16 0
  | Execute p => p ++ x00 :: be32 0
  | Close k n => k :: n ++ [x00]
  | Sync | Terminate => []
  end.

Definition serialize_message (m : Message) : bytes := frame (type_of m) (payload_of m).

(** What a client can put in a message: UTF-8 text without NUL, counts and
    lengths that fit their fields. *)
Definition text (s : bytes) : bool := Str.utf8_valid s && bool_decide (x00 ∉ s).
Definition fits (w : Z) (z : Z) : bool := (- 2 ^ (w - 1) <=? z) && (z <? 2 ^ (w - 1)).
Definition wf_message (m : Message) : bool :=
  match m with
  | Query q => text q
  | Parse n q oids =>
      text n && text q && (zlen oids <? 2 ^ 15) && forallb (λ o, (0 <=? o) && (o <? 2 ^ 32)) oids
  | Bind p s codes params =>
      text p && text s && (zlen codes <? 2 ^ 15) && forallb (fits 16) codes
      && (zlen params <? 2 ^ 15)
      && forallb (λ o, match o with Some v => zlen v <? 2 ^ 31 | None => true end) params
  | Execute p => text p
  | Close _ n => text n
  | Sync | Terminate => true
  end.

Section roundtrip.
Context `{Build}.

Lemma read_cstring_app pre s post i :
  text s = true → i = zlen pre → read_cstring (pre ++ s ++ x00 :: post) i = Some s.
Proof.
  unfold text. intros [Hv Hn%bool_decide_eq_true]%andb_true_iff ->.
  unfold read_cstring, zlen. rewrite Nat2Z.id, drop_app_length, nul_pos_app by done.
  rewrite take_app_length. unfold Str.from_utf8. by rewrite Hv.
Qed.

Lemma read_cstring_app0 s post : text s = true → read_cstring (s ++ x00 :: post) 0 = Some s.
Proof. intros Hs. by apply (read_cstring_app []). Qed.
Lemma read_cstring_app1 k s post :
  text s = true → read_cstring (k :: s ++ x00 :: post) 1 = Some s.
Proof. intros Hs. by apply (read_cstring_app [k]). Qed.

Lemma read_oids_app oids pre i :
  i = zlen pre → Forall (λ o, 0 ≤ o < 2 ^ 32) oids →
  read_oids (length oids) (pre ++ concat (be32 <$> oids)) i = Ret (Some oids).
Proof.
  intros Hi Ho. revert pre i Hi; induction Ho as [|o oids Ho _ IH]; intros pre i ->; [done|].
  cbn [length read_oids fmap list_fmap concat].
  pose proof (zlen_nonneg (concat (be32 <$> oids))) as Hc.
  autorewrite with scry_len. Zbool.
  rewrite u32_at_be32 by done. cbn [mbind outcome_bind].
  rewrite app_assoc, IH by (autorewrite with scry_len; lia).
  cbn. by rewrite Z.mod_small.
Qed.

Lemma read_codes_app codes pre post i :
  i = zlen pre → Forall (λ c, - 2 ^ 15 ≤ c < 2 ^ 15) codes →
  read_codes (length codes) (pre ++ concat (be16 <$> codes) ++ post) i
  = Ret (Some (codes, i + 2 * zlen codes)).
Proof.
  intros Hi Hc. revert pre i Hi; induction Hc as [|c codes Hc _ IH]; intros pre i ->.
  - cbn. by rewrite Z.add_0_r.
  - cbn [length read_codes fmap list_fmap concat].
    pose proof (zlen_nonneg (concat (be16 <$> codes))). pose proof (zlen_nonneg post).
    rewrite <-app_assoc. autorewrite with scry_len. Zbool.
    rewrite i16_at_be16 by done. cbn [mbind outcome_bind].
    rewrite app_assoc, IH by (autorewrite with scry_len; lia).
    unfold try_ret. cbn [mbind outcome_bind try_]. do 3 f_equal. autorewrite with scry_len. lia.
Qed.

Lemma read_params_app params pre post i :
  i = zlen pre → Forall (λ o : option bytes, ∀ v, o = Some v → zlen v < 2 ^ 31) params →
  zlen (pre ++ concat (put_param <$> params) ++ post) < two64 →
  read_params (length params) (pre ++ concat (put_param <$> params) ++ post) i
  = Ret (Some params).
Proof.
  intros Hi Hp. revert pre i Hi; induction Hp as [|o params Ho _ IH]; intros pre i -> Hlen; [done|].
  cbn [length read_params fmap list_fmap concat] in *. rewrite <-app_assoc in *.
  pose proof (zlen_nonneg pre). pose proof (zlen_nonneg post).
  pose proof (zlen_nonneg (concat (put_param <$> params))) as Hc.
  destruct o as [v|]; cbn [put_param] in *.
  - specialize (Ho v eq_refl). pose proof (zlen_nonneg v). rewrite <-app_assoc in *.
    autorewrite with scry_len in *. Zbool.
    rewrite i32_at_be32 by (done || lia). cbn [mbind outcome_bind]. Zbool.
    unfold as_usize. rewrite Z.mod_small, u64_add_fits by (unfold two64 in *; lia).
    cbn [mbind outcome_bind]. Zbool.
    rewrite (app_assoc pre (be32 _)), sub_app by (autorewrite with scry_len; lia).
    cbn [mbind outcome_bind]. rewrite (app_assoc _ v).
    rewrite IH by (autorewrite with scry_len; lia). done.
  - autorewrite with scry_len in *. Zbool.
    rewrite i32_at_be32 by (done || lia). cbn [mbind outcome_bind]. Zbool.
    rewrite (app_assoc pre (be32 _)), IH by (autorewrite with scry_len; lia). done.
Qed.

Lemma forallb_Forall {A} (f : A → bool) (P : A → Prop) l :
  (∀ x, f x = true → P x) → forallb f l = true → Forall P l.
Proof. intros Hf Hl. apply Forall_forall. rewrite forallb_forall in Hl. intros x Hx.
  apply Hf, Hl. by apply list_elem_of_In.
Qed.

Lemma with_capacity_small sz n : sz ≤ 24 → 0 ≤ n < 2 ^ 15 → with_capacity sz n = Ret tt.
Proof. intros Hs Hn. unfold with_capacity. rewrite (proj2 (Z.leb_le _ _)); [done|]. nia. Qed.

Lemma as_usize_small n : 0 ≤ n < two64 → as_usize n = n.
Proof. apply Z.mod_small. Qed.

Lemma parse_parse_roundtrip n q oids :
  wf_message (Parse n q oids) = true →
  parse_parse_message (payload_of (Parse n q oids)) = Ret (Some (Parse n q oids)).
Proof.
  cbn [wf_message payload_of]. intros Hm. rewrite !andb_true_iff in Hm. destruct_and!. bool_to_Z.
  pose proof (zlen_nonneg oids). pose proof (zlen_nonneg (concat (be32 <$> oids))).
  unfold parse_parse_message. rewrite read_cstring_app0 by done. cbn [try_].
  rewrite (app_cons_assoc n).
  rewrite read_cstring_app by (done || autorewrite with scry_len; lia). cbn [try_].
  rewrite (app_cons_assoc q), app_assoc.
  autorewrite with scry_len. Zbool.
  rewrite i16_at_be16 by (autorewrite with scry_len; lia). cbn [fmap outcome_fmap mbind outcome_bind].
  rewrite as_usize_small by (unfold two64; lia). rewrite with_capacity_small by lia.
  cbn [mbind outcome_bind]. unfold zlen at 1. rewrite Nat2Z.id, app_assoc.
  rewrite read_oids_app; [done|autorewrite with scry_len; lia|].
  eapply forallb_Forall; [|done]. intros o Ho. simpl in Ho. bool_to_Z. lia.
Qed.

Lemma parse_bind_roundtrip p s codes params :
  wf_message (Bind p s codes params) = true →
  zlen (payload_of (Bind p s codes params)) < two64 →
  parse_bind_message (payload_of (Bind p s codes params)) = Ret (Some (Bind p s codes params)).
Proof.
  cbn [wf_message payload_of]. intros Hm Hlen. rewrite !andb_true_iff in Hm. destruct_and!. bool_to_Z.
  pose proof (zlen_nonneg codes). pose proof (zlen_nonneg params).
  assert (Hcl : zlen (concat (be16 <$> codes)) = 2 * zlen codes).
  { clear. induction codes; [done|]. rewrite fmap_cons. cbn [concat].
    autorewrite with scry_len. lia. }
  pose proof (zlen_nonneg (concat (put_param <$> params))).
  unfold parse_bind_message. rewrite read_cstring_app0 by done. cbn [try_].
  rewrite (app_cons_assoc p) in *.
  rewrite read_cstring_app by (done || autorewrite with scry_len; lia). cbn [try_].
  rewrite (app_cons_assoc s), app_assoc in *.
  autorewrite with scry_len in *. Zbool.
  rewrite i16_at_be16 by (autorewrite with scry_len; lia). cbn [fmap outcome_fmap mbind outcome_bind].
  rewrite as_usize_small by (unfold two64; lia). rewrite with_capacity_small by lia.
  cbn [mbind outcome_bind]. unfold zlen at 1. rewrite Nat2Z.id, (app_assoc _ (be16 (zlen codes))).
  unfold try_ret at 1. rewrite read_codes_app; [|autorewrite with scry_len; lia|].
  2:{ eapply forallb_Forall; [|done]. intros c Hc. unfold fits in Hc. bool_to_Z. lia. }
  cbn [mbind outcome_bind try_]. rewrite (app_assoc _ (concat (be16 <$> codes))).
  autorewrite with scry_len. rewrite Hcl. Zbool.
  rewrite i16_at_be16 by (autorewrite with scry_len; lia). cbn [fmap outcome_fmap mbind outcome_bind].
  rewrite as_usize_small by (unfold two64; lia). rewrite with_capacity_small by lia.
  cbn [mbind outcome_bind]. unfold zlen at 1. rewrite Nat2Z.id, (app_assoc _ (be16 (zlen params))).
  rewrite read_params_app; [done|autorewrite with scry_len; lia| |autorewrite with scry_len; lia].
  eapply forallb_Forall; [|done]. intros [v|] Hv; [|done]. intros ? [= <-]. bool_to_Z. lia.
Qed.

Lemma parse_message_roundtrip m :
  wf_message m = true → zlen (payload_of m) < two64 →
  parse_message (type_of m) (payload_of m) = Ret (Some m).
Proof.
  intros Hm Hl. destruct m; cbn [type_of];
    [|by apply parse_parse_roundtrip|by apply parse_bind_roundtrip|..|done|done].
  - change (parse_message _ _) with (parse_query_message (query ++ [x00])).
    unfold parse_query_message. by rewrite read_cstring_app0.
  - change (parse_message _ _) with (parse_execute_message (portal ++ x00 :: be32 0)).
    unfold parse_execute_message. by rewrite read_cstring_app0.
  - change (parse_message _ _) with (parse_close_message (kind :: name ++ [x00])).
    unfold parse_close_message. by rewrite read_cstring_app1.
Qed.
End roundtrip.

(** ** The stream as the reader sees it *)
Section reading.
Context `{Build}.

(** Feed the chunks of a connection's reads to one extractor. *)
Fixpoint extract_stream (x : MessageExtractor) (chunks : list bytes)
    : outcome (list Message * MessageExtractor) :=
  match chunks with
  | [] => Ret ([], x)
  | c :: cs =>
      extract_messages x c ≫= λ r : list Message * MessageExtractor,
      extract_stream r.2 cs ≫= λ r' : list Message * MessageExtractor,
      Ret (r.1 ++ r'.1, r'.2)
  end.

Lemma extract_stream_frames chunks x fb fs tl :
  frontend_buffer x = Some fb → incomplete fb → Forall valid_frame fs → incomplete tl →
  fb ++ concat chunks = frames fs ++ tl →
  extract_stream x chunks
  = (ms ← parse_all fs; Ret (ms, {| buffer := buffer x; frontend_buffer := Some tl |})).
Proof.
  revert x fb fs; induction chunks as [|c cs IH]; intros x fb fs Hx Hfb Hfs Htl Heq.
  - cbn [concat] in Heq. rewrite app_nil_r in Heq. destruct fs as [|[t p] fs].
    + cbn in *. subst fb. destruct x. simpl in *. by subst.
    + rewrite frames_cons, <-app_assoc in Heq. inversion Hfs; subst.
      by apply frame_not_incomplete in Hfb.
  - cbn [concat] in Heq. rewrite app_assoc in Heq.
    destruct (frames_prefix fs tl (fb ++ c) (concat cs) Hfs Htl Heq)
      as (fs1 & fs2 & tl1 & -> & Ha & Hi & Hb).
    apply Forall_app in Hfs as [Hfs1 Hfs2]. cbn [extract_stream].
    rewrite (extract_messages_frames x fb c fs1 tl1) by done. rewrite parse_all_app.
    destruct (parse_all fs1) as [ms| |]; cbn [mbind outcome_bind fst snd]; try done.
    rewrite (IH _ tl1 fs2) by done.
    by destruct (parse_all fs2).
Qed.
End reading.

(** ** Termination and the bound on the retained bytes *)
Section bounds.
Context `{Build}.

Lemma ends_try {A B} (o : option A) (k : A → outcome (option B)) :
  (∀ a, ends (k a)) → ends (try_ o k).
Proof. intros Hk. by destruct o; simpl. Qed.
Lemma ends_try_ret {A B} (m : outcome (option A)) (k : A → outcome (option B)) :
  ends m → (∀ a, ends (k a)) → ends (try_ret m k).
Proof. intros Hm Hk. apply ends_bind; [done|]. intros o _. by apply ends_try. Qed.
Hint Resolve ends_try ends_try_ret : scry.

Lemma ends_read_oids n payload o : ends (read_oids n payload o).
Proof. revert o; induction n; intros o; simpl; [done|]. case_match; auto with scry. Qed.
Lemma ends_read_codes n payload o : ends (read_codes n payload o).
Proof.
  revert o; induction n; intros o; simpl; [done|]. case_match; [done|].
  apply ends_bind; [auto with scry|]. intros c _. apply ends_try_ret; [done|]. by intros [].
Qed.
Lemma ends_read_params n payload o : ends (read_params n payload o).
Proof.
  revert o; induction n; intros o; simpl; [done|]. case_match; [done|].
  apply ends_bind; [auto with scry|]. intros len _. case_match; [auto with scry|].
  apply ends_bind; [auto with scry|]. intros stop _. case_match; auto with scry.
Qed.
Hint Resolve ends_read_oids ends_read_codes ends_read_params : scry.

Lemma ends_parse_message t p : ends (parse_message t p).
Proof.
  unfold parse_message. repeat case_match; auto with scry.
  - unfold parse_query_message. auto with scry.
  - unfold parse_parse_message. apply ends_try. intros name. apply ends_try. intros query.
    case_match; auto 6 with scry.
  - unfold parse_bind_message. apply ends_try. intros portal. apply ends_try. intros stmt.
    case_match; [done|]. apply ends_bind; [auto with scry|]. intros n _.
    apply ends_bind; [auto with scry|]. intros [] _. apply ends_try_ret; [auto with scry|].
    intros [codes off]. case_match; auto 6 with scry.
  - unfold parse_execute_message. auto with scry.
  - unfold parse_close_message. destruct p; auto with scry.
Qed.

(** A round that goes on consumes at least five bytes. *)
Lemma ends_messages_loop fuel buf offset :
  0 ≤ offset → zlen buf - offset < Z.of_nat fuel → ends (messages_loop fuel buf offset).
Proof.
  revert offset; induction fuel as [|fuel IH]; intros offset Ho Hf; cbn [messages_loop];
    (destruct (Z.ltb_spec (zlen buf) (offset + 5)); [done|]); [lia|].
  apply ends_bind; [auto with scry|]. intros t _.
  apply ends_bind; [auto with scry|]. intros n _.
  destruct (Z.ltb_spec n 4); [done|]. cbn [orb]. case_match; [done|]. case_match; [done|].
  apply ends_bind; [auto with scry|]. intros p _.
  apply ends_bind; [apply ends_parse_message|]. intros msg _.
  apply ends_bind; [apply IH; lia|]. by intros [[??]?] _.
Qed.

(** A loop that stops without a framing error leaves less than one message. *)
Lemma messages_loop_left fuel buf offset ms o :
  0 ≤ offset ≤ zlen buf → messages_loop fuel buf offset = Ret (ms, o, false) →
  offset ≤ o ≤ zlen buf ∧ zlen buf - o ≤ MAX_FRONTEND_MESSAGE_SIZE.
Proof.
  revert offset ms; induction fuel as [|fuel IH]; intros offset ms Ho; cbn [messages_loop];
    (destruct (Z.ltb_spec (zlen buf) (offset + 5));
     [intros [= <- <-]; unfold MAX_FRONTEND_MESSAGE_SIZE; lia|]); [done|].
  intros (t & _ & Hr)%outcome_bind_Ret. apply outcome_bind_Ret in Hr as (n & _ & Hr).
  destruct (Z.ltb_spec n 4); [done|]. cbn [orb] in Hr.
  destruct (Z.ltb_spec MAX_FRONTEND_MESSAGE_SIZE n); [done|].
  destruct (Z.ltb_spec (zlen buf) (offset + 1 + n)); [injection Hr as <- <-; lia|].
  apply outcome_bind_Ret in Hr as (p & _ & Hr). apply outcome_bind_Ret in Hr as (msg & _ & Hr).
  apply outcome_bind_Ret in Hr as ([[ms' o'] e'] & Hl & [= _ <- ->]).
  apply IH in Hl; lia.
Qed.
End bounds.

(** C12. Reassembly is independent of how the stream was cut.  Whatever frames
    the client sends, and wherever the reads cut them (inside headers and
    payloads too), the messages reported are those of the frames in order, and
    the bytes kept back are exactly the incomplete tail. *)
Theorem extract_stream_chunking `{Build} chunks fs tl :
  Forall valid_frame fs → incomplete tl → concat chunks = frames fs ++ tl →
  extract_stream new chunks
  = (ms ← parse_all fs; Ret (ms, {| buffer := Some []; frontend_buffer := Some tl |})).
Proof.
  intros Hfs Htl Heq. apply (extract_stream_frames chunks new [] fs tl); [done| |done..].
  left. rewrite zlen_nil. lia.
Qed.

(** C13. Parsing inverts serialisation, through any fragmentation: well-formed
    messages that are serialised, concatenated and cut anywhere are extracted
    as the same messages in the same order, with nothing left over. *)
Theorem extract_stream_roundtrip `{Build} ms chunks :
  Forall (λ m, wf_message m = true ∧ 4 + zlen (payload_of m) ≤ MAX_FRONTEND_MESSAGE_SIZE) ms →
  concat chunks = concat (serialize_message <$> ms) →
  extract_stream new chunks = Ret (ms, new).
Proof.
  intros Hms Heq.
  rewrite (extract_stream_frames chunks new [] ((λ m, (type_of m, payload_of m)) <$> ms) []).
  - assert (Hp : parse_all ((λ m, (type_of m, payload_of m)) <$> ms) = Ret ms); [|by rewrite Hp].
    clear Heq. induction Hms as [|m ms [Hm Hl] _ IH]; [done|]. rewrite fmap_cons. cbn [parse_all].
    rewrite parse_message_roundtrip; [|done|].
    + cbn [mbind outcome_bind]. by rewrite IH.
    + unfold MAX_FRONTEND_MESSAGE_SIZE in Hl. unfold two64. lia.
  - done.
  - left. rewrite zlen_nil. lia.
  - apply Forall_fmap. eapply Forall_impl; [exact Hms|]. by intros m [_ ?].
  - left. rewrite zlen_nil. lia.
  - rewrite app_nil_l, app_nil_r, Heq. unfold frames. by rewrite <-list_fmap_compose.
Qed.

(** Every call comes to an end, whatever bytes arrive. *)
Lemma extract_messages_ends `{Build} x data : ends (extract_messages x data).
Proof.
  unfold extract_messages. destruct (frontend_buffer x) as [fb|]; [|done].
  apply ends_bind; [apply ends_messages_loop; unfold zlen; lia|]. by intros [[??]?] _.
Qed.

(** The bytes kept for the next call are bounded: never more than the
    largest message accepted, whatever the client sends. *)
Lemma frontend_buffer_bounded `{Build} x data ms x' b :
  extract_messages x data = Ret (ms, x') → frontend_buffer x' = Some b →
  zlen b ≤ MAX_FRONTEND_MESSAGE_SIZE.
Proof.
  unfold extract_messages. destruct (frontend_buffer x) as [fb|] eqn:Hfb.
  2:{ intros [= <- <-]. by rewrite Hfb. }
  intros ([[ms' o] e] & Hl & [= <- <-])%outcome_bind_Ret. cbn [frontend_buffer]. intros [= <-].
  destruct e; [unfold MAX_FRONTEND_MESSAGE_SIZE; rewrite zlen_nil; lia|].
  apply messages_loop_left in Hl; [|unfold zlen; lia].
  unfold zlen in *. rewrite length_drop. lia.
Qed.

(** ** The backend direction *)

(** What a backend sends: lengths that are lengths, and ReadyForQuery messages
    of one status byte; then possibly the first bytes of one more message. *)
Definition backend_frame (f : byte * bytes) : Prop :=
  4 + zlen f.2 < 2 ^ 31 ∧ (f.1 = MSG_READY_FOR_QUERY → zlen f.2 = 1).
Definition backend_tail (tl : bytes) : Prop :=
  zlen tl < 5 ∨
  ∃ n, i32_at tl 1 = Ret n ∧ 4 ≤ n < 2 ^ 31 ∧ zlen tl < 1 + n ∧
       (head tl = Some MSG_READY_FOR_QUERY → n = 5).

(** The status of the last ReadyForQuery of a list of frames. *)
Definition last_ready (st : option byte) (fs : list (byte * bytes)) : option byte :=
  foldl (λ st f, if beqb f.1 MSG_READY_FOR_QUERY then head f.2 else st) st fs.

Definition completes (t : byte) : bool :=
  beqb t MSG_COMMAND_COMPLETE || beqb t MSG_READY_FOR_QUERY.

Section backend.
Context `{Build}.

Lemma at_head tl : 5 ≤ zlen tl → ∃ t, head tl = Some t ∧ at_ tl 0 = Ret t.
Proof. destruct tl as [|t tl]; [rewrite zlen_nil; lia|]. by exists t. Qed.

Lemma ready_loop_tail fuel pre tl st :
  backend_tail tl → zlen (pre ++ tl) < 2 ^ 63 →
  ready_loop (S fuel) (pre ++ tl) (zlen pre) st = Ret st.
Proof.
  intros Htl Hlen. cbn [ready_loop]. pose proof (zlen_nonneg pre). rewrite zlen_app in *.
  destruct (Z.ltb_spec (zlen pre + zlen tl) (zlen pre + 5)); [done|].
  destruct Htl as [?|(n & Hn & Hr & Hl & Hz)]; [lia|].
  destruct (at_head tl) as (t & Ht & Hat); [lia|].
  rewrite at_app_r0, Hat. cbn [mbind outcome_bind].
  assert (Hst : (if beqb t MSG_READY_FOR_QUERY && (zlen pre + 6 <=? zlen pre + zlen tl)
           then Some <$> at_ (pre ++ tl) (zlen pre + 5) else Ret st) = Ret st).
  { unfold beqb. case_bool_decide as He; [|done]. rewrite He in Ht. specialize (Hz Ht). by Zbool. }
  rewrite Hst. cbn [mbind outcome_bind]. rewrite i32_at_app_r, Hn by lia.
  cbn [fmap outcome_fmap mbind outcome_bind]. rewrite as_usize_small by (unfold two64; lia).
  Zbool. rewrite (u64_add_fits (zlen pre + 1)) by (unfold two64; lia). cbn [mbind outcome_bind]. by Zbool.
Qed.

Lemma ready_loop_frames fs pre tl st fuel :
  Forall backend_frame fs → backend_tail tl → zlen (pre ++ frames fs ++ tl) < 2 ^ 63 →
  (length fs < fuel)%nat →
  ready_loop fuel (pre ++ frames fs ++ tl) (zlen pre) st = Ret (last_ready st fs).
Proof.
  intros Hfs Htl. revert pre st fuel;
    induction Hfs as [|[t p] fs [Hf Hz] _ IH]; intros pre st fuel Hlen Hfuel;
    (destruct fuel as [|fuel]; [simpl in Hfuel; lia|]).
  - rewrite app_nil_l in *. by apply ready_loop_tail.
  - rewrite frames_cons, <-app_assoc in *. cbn [ready_loop fst snd] in *.
    pose proof (zlen_nonneg p). pose proof (zlen_nonneg pre). pose proof (zlen_nonneg (frames fs ++ tl)).
    assert (Hl : zlen (pre ++ frame t p ++ frames fs ++ tl)
                 = zlen pre + (5 + zlen p) + zlen (frames fs ++ tl)).
    { rewrite !(zlen_app pre), (zlen_app (frame t p)), zlen_frame. lia. }
    rewrite Hl in *. Zbool. rewrite (frame_type_at pre t p _ (zlen pre)) by done. cbn [mbind outcome_bind].
    assert (Hst : (if beqb t MSG_READY_FOR_QUERY && (zlen pre + 6 <=? zlen pre + (5 + zlen p) + zlen (frames fs ++ tl))
             then Some <$> at_ (pre ++ frame t p ++ frames fs ++ tl) (zlen pre + 5) else Ret st)
           = Ret (if beqb t MSG_READY_FOR_QUERY then head p else st)).
    { unfold beqb. case_bool_decide as He; [|done]. specialize (Hz He). Zbool.
      destruct p as [|b [|? ?]]; [done| |rewrite !zlen_cons in Hz; pose proof (zlen_nonneg l); lia].
      rewrite at_app_r by lia. done. }
    rewrite Hst. cbn [mbind outcome_bind]. rewrite frame_length_at by lia.
    cbn [fmap outcome_fmap mbind outcome_bind]. rewrite as_usize_small by (unfold two64; lia).
    Zbool. rewrite (u64_add_fits (zlen pre + 1)) by (unfold two64; lia). cbn [mbind outcome_bind]. Zbool.
    rewrite (u64_add_fits 1) by (unfold two64; lia). cbn [mbind outcome_bind].
    rewrite (u64_add_fits (zlen pre)) by (unfold two64; lia). cbn [mbind outcome_bind].
    replace (zlen pre + (1 + (4 + zlen p))) with (zlen (pre ++ frame t p))
      by (rewrite zlen_app, zlen_frame; lia).
    rewrite app_assoc. rewrite IH; [done| |simpl in Hfuel; lia].
    rewrite <-app_assoc, Hl. lia.
Qed.

Lemma complete_loop_tail fuel pre tl :
  backend_tail tl → zlen (pre ++ tl) < 2 ^ 63 →
  complete_loop (S fuel) (pre ++ tl) (zlen pre)
  = Ret ((5 <=? zlen tl) && match head tl with Some t => completes t | None => false end).
Proof.
  intros Htl Hlen. cbn [complete_loop]. pose proof (zlen_nonneg pre). rewrite zlen_app in *.
  destruct (Z.ltb_spec (zlen pre + zlen tl) (zlen pre + 5)); [by Zbool|].
  destruct Htl as [?|(n & Hn & Hr & Hl & Hz)]; [lia|].
  destruct (at_head tl) as (t & Ht & Hat); [lia|].
  rewrite at_app_r0, Hat, Ht. cbn [mbind outcome_bind]. Zbool. fold (completes t).
  destruct (completes t); [done|]. rewrite i32_at_app_r, Hn by lia.
  cbn [fmap outcome_fmap mbind outcome_bind]. rewrite as_usize_small by (unfold two64; lia).
  Zbool. rewrite (u64_add_fits (zlen pre + 1)) by (unfold two64; lia). cbn [mbind outcome_bind]. by Zbool.
Qed.

Lemma complete_loop_frames fs pre tl fuel :
  Forall (λ f, 4 + zlen f.2 < 2 ^ 31) fs → backend_tail tl →
  zlen (pre ++ frames fs ++ tl) < 2 ^ 63 → (length fs < fuel)%nat →
  complete_loop fuel (pre ++ frames fs ++ tl) (zlen pre)
  = Ret (existsb (λ f, completes f.1) fs
         || (5 <=? zlen tl) && match head tl with Some t => completes t | None => false end).
Proof.
  intros Hfs Htl. revert pre fuel;
    induction Hfs as [|[t p] fs Hf _ IH]; intros pre fuel Hlen Hfuel;
    (destruct fuel as [|fuel]; [simpl in Hfuel; lia|]).
  - rewrite app_nil_l in *. by apply complete_loop_tail.
  - rewrite frames_cons, <-app_assoc in *. cbn [complete_loop fst snd existsb] in *.
    pose proof (zlen_nonneg p). pose proof (zlen_nonneg pre). pose proof (zlen_nonneg (frames fs ++ tl)).
    assert (Hl : zlen (pre ++ frame t p ++ frames fs ++ tl)
                 = zlen pre + (5 + zlen p) + zlen (frames fs ++ tl)).
    { rewrite !(zlen_app pre), (zlen_app (frame t p)), zlen_frame. lia. }
    rewrite Hl in *. Zbool. rewrite (frame_type_at pre t p _ (zlen pre)) by done. cbn [mbind outcome_bind].
    fold (completes t). destruct (completes t); [done|]. cbn [orb].
    rewrite frame_length_at by lia.
    cbn [fmap outcome_fmap mbind outcome_bind]. rewrite as_usize_small by (unfold two64; lia).
    Zbool. rewrite (u64_add_fits (zlen pre + 1)) by (unfold two64; lia). cbn [mbind outcome_bind]. Zbool.
    rewrite (u64_add_fits 1) by (unfold two64; lia). cbn [mbind outcome_bind].
    rewrite (u64_add_fits (zlen pre)) by (unfold two64; lia). cbn [mbind outcome_bind].
    replace (zlen pre + (1 + (4 + zlen p))) with (zlen (pre ++ frame t p))
      by (rewrite zlen_app, zlen_frame; lia).
    rewrite app_assoc. rewrite IH; [done| |simpl in Hfuel; lia].
    rewrite <-app_assoc, Hl. lia.
Qed.
End backend.

(** ** Error responses *)
Definition put_field (f : byte * bytes) : bytes := f.1 :: f.2 ++ [x00].
Definition put_fields (fields : list (byte * bytes)) : bytes :=
  concat (put_field <$> fields) ++ [x00].
Definition wf_field (f : byte * bytes) : Prop := f.1 ≠ x00 ∧ text f.2 = true.
Definition no_fields : ErrorFields := {| severity := None; sqlstate := None; message := None |}.

Lemma put_fields_cons t v fields :
  put_fields ((t, v) :: fields) = t :: v ++ x00 :: put_fields fields.
Proof. unfold put_fields. rewrite fmap_cons. cbn. by rewrite <-!app_assoc. Qed.

Lemma error_fields_loop_put fields acc fuel :
  Forall wf_field fields → (length (put_fields fields) ≤ fuel)%nat →
  error_fields_loop fuel (put_fields fields) acc
  = foldl (λ acc f, set_field f.1 f.2 acc) acc fields.
Proof.
  intros Hf. revert acc fuel; induction Hf as [|[t v] fields [Ht Hv] _ IH]; intros acc fuel Hfuel.
  - by destruct fuel.
  - destruct fuel as [|fuel]; [simpl in Hfuel; lia|].
    rewrite put_fields_cons in *. cbn [error_fields_loop foldl fst snd length] in *.
    unfold beqb. rewrite bool_decide_false by done.
    unfold text in Hv. apply andb_true_iff in Hv as [Hu Hn%bool_decide_eq_true].
    rewrite nul_pos_app, take_app_length by done. unfold Str.from_utf8. rewrite Hu.
    rewrite (app_cons_assoc v), length_app in *. cbn [length] in *.
    rewrite drop_app_ge, length_app by (rewrite length_app; simpl; lia).
    cbn [length]. rewrite Nat.sub_diag, drop_0. apply IH. lia.
Qed.

Lemma parse_error_fields_put fields :
  Forall wf_field fields →
  parse_error_fields (put_fields fields)
  = foldl (λ acc f, set_field f.1 f.2 acc) no_fields fields.
Proof. intros Hf. by apply error_fields_loop_put. Qed.

(** The severity and the SQLSTATE do not depend on the message text. *)
Lemma scrubbed_fold fields a b :
  severity a = severity b → sqlstate a = sqlstate b →
  let f l acc := foldl (λ acc f, set_field f.1 f.2 acc) acc l in
  severity (f fields a) = severity (f (filter (λ f, f.1 ≠ x4d) fields) b) ∧
  sqlstate (f fields a) = sqlstate (f (filter (λ f, f.1 ≠ x4d) fields) b).
Proof.
  revert a b; induction fields as [|[t v] fields IH]; intros a b Ha Hb; [done|].
  destruct (decide (t = x4d)) as [->|Ht].
  - rewrite filter_cons_False by (intros Hn; by apply Hn). by apply IH.
  - rewrite filter_cons_True by done. apply IH; cbn; unfold set_field;
      by destruct (beqb t x53), (beqb t x43), (beqb t x4d).
Qed.

Section errors.
Context `{Build}.

Definition skippable (f : byte * bytes) : Prop :=
  f.1 ≠ MSG_ERROR_RESPONSE ∧ f.2 ≠ [] ∧ 4 + zlen f.2 < 2 ^ 31.

Lemma i32_at_frame t p rest :
  4 + zlen p < 2 ^ 31 → i32_at (frame t p ++ rest) 1 = Ret (4 + zlen p).
Proof. intros. by apply (frame_length_at [] t p rest 1). Qed.

Lemma drop_header t p rest : drop 5 (frame t p ++ rest) = p ++ rest.
Proof. done. Qed.

Lemma error_loop_skip fs rest fuel :
  Forall skippable fs → (length fs ≤ fuel)%nat →
  error_loop fuel (frames fs ++ rest) = error_loop (fuel - length fs) rest.
Proof.
  intros Hfs. revert fuel; induction Hfs as [|[t p] fs (Ht & Hp & Hl) _ IH]; intros fuel Hfuel.
  - by rewrite Nat.sub_0_r.
  - destruct fuel as [|fuel]; [simpl in Hfuel; lia|]. rewrite frames_cons, <-app_assoc.
    cbn [error_loop fst snd length] in *. pose proof (zlen_nonneg (frames fs ++ rest)).
    assert (0 < zlen p) by (destruct p as [|b p]; [done|]; rewrite zlen_cons; pose proof (zlen_nonneg p); lia).
    rewrite zlen_app, zlen_frame. Zbool. change (at_ (frame t p ++ _) 0) with (Ret t).
    cbn [mbind outcome_bind]. rewrite i32_at_frame by done.
    cbn [fmap outcome_fmap mbind outcome_bind]. rewrite drop_header.
    unfold beqb. rewrite bool_decide_false by done.
    rewrite as_usize_small by (unfold two64; lia). Zbool.
    rewrite u64_sub_fits by (unfold two64; lia). cbn [mbind outcome_bind].
    rewrite zlen_app. Zbool. replace (4 + zlen p - 4) with (zlen p) by lia.
    unfold zlen at 1. rewrite Nat2Z.id, drop_app_length. rewrite IH by lia. done.
Qed.

Lemma error_loop_hit p rest fuel :
  4 + zlen p < 2 ^ 31 →
  error_loop (S fuel) (frame MSG_ERROR_RESPONSE p ++ rest) = Ret (Some (parse_error_fields p)).
Proof.
  intros Hl. cbn [error_loop]. pose proof (zlen_nonneg p). pose proof (zlen_nonneg rest).
  rewrite zlen_app, zlen_frame. Zbool.
  change (at_ (frame MSG_ERROR_RESPONSE p ++ _) 0) with (Ret MSG_ERROR_RESPONSE).
  cbn [mbind outcome_bind]. rewrite i32_at_frame by done.
  cbn [fmap outcome_fmap mbind outcome_bind]. rewrite drop_header.
  change (beqb MSG_ERROR_RESPONSE MSG_ERROR_RESPONSE) with true. cbn iota.
  rewrite as_usize_small by (unfold two64; lia).
  rewrite u64_sub_fits by (unfold two64; lia). cbn [mbind outcome_bind].
  rewrite zlen_app. Zbool. replace (4 + zlen p - 4) with (zlen p) by lia.
  assert (Hs : sub (p ++ rest) 0 (zlen p) = Ret p) by (by apply (sub_app [] p rest)).
  by rewrite Hs.
Qed.

Lemma find_error_fields_frames fs p rest :
  Forall skippable fs → 4 + zlen p < 2 ^ 31 →
  find_error_fields (frames fs ++ frame MSG_ERROR_RESPONSE p ++ rest)
  = Ret (Some (parse_error_fields p)).
Proof.
  intros Hfs Hp. unfold find_error_fields. pose proof (length_frames_le fs).
  destruct (frames fs ++ frame MSG_ERROR_RESPONSE p ++ rest) as [|b l] eqn:Heq.
  { apply app_eq_nil in Heq as [_ Heq]. done. }
  rewrite <-Heq. rewrite error_loop_skip by (done || rewrite length_app; lia).
  rewrite !length_app, Nat.sub_succ_l by lia. by apply error_loop_hit.
Qed.
End errors.

(** On a read that starts at a message boundary,
    [extract_ready_for_query] reports the status byte of the last
    ReadyForQuery in it, and is not misled by payload bytes. *)
Lemma ready_for_query_is_last `{Build} fs tl :
  Forall backend_frame fs → backend_tail tl → zlen (frames fs ++ tl) < 2 ^ 63 →
  extract_ready_for_query (frames fs ++ tl) = Ret (last_ready None fs).
Proof.
  intros Hfs Htl Hlen. apply (ready_loop_frames fs []); [done..|].
  pose proof (length_frames_le fs). rewrite length_app. lia.
Qed.

(** On such a read [is_query_complete] answers whether some message of it,
    or the header of its last partial message, is a CommandComplete or a
    ReadyForQuery. *)
Lemma query_complete_exact `{Build} fs tl :
  Forall (λ f, 4 + zlen f.2 < 2 ^ 31) fs → backend_tail tl → zlen (frames fs ++ tl) < 2 ^ 63 →
  is_query_complete (frames fs ++ tl)
  = Ret (existsb (λ f, completes f.1) fs
         || (5 <=? zlen tl) && match head tl with Some t => completes t | None => false end).
Proof.
  intros Hfs Htl Hlen. unfold is_query_complete. pose proof (length_frames_le fs) as Hle.
  destruct (frames fs ++ tl) as [|b l] eqn:Heq.
  - apply app_eq_nil in Heq as [Hf ->]. rewrite Hf in Hle. by destruct fs; [|simpl in Hle; lia].
  - rewrite <-Heq in *. apply (complete_loop_frames fs []); [done..|]. rewrite length_app. lia.
Qed.

(** The first error response of a read is found behind any messages that
    carry a payload, and its fields are read back. *)
Lemma error_found `{Build} fs fields rest :
  Forall skippable fs → Forall wf_field fields → 4 + zlen (put_fields fields) < 2 ^ 31 →
  find_error_fields (frames fs ++ frame MSG_ERROR_RESPONSE (put_fields fields) ++ rest)
  = Ret (Some (foldl (λ acc f, set_field f.1 f.2 acc) no_fields fields)).
Proof.
  intros Hfs Hf Hl. rewrite find_error_fields_frames by done. by rewrite parse_error_fields_put.
Qed.

(** The scrubbed error carries no message text: two error responses that
    differ only in their message fields are reported alike. *)
Lemma scrubbed_error_hides_message `{Build} fs fields fields' rest rest' :
  Forall skippable fs → Forall wf_field fields → Forall wf_field fields' →
  4 + zlen (put_fields fields) < 2 ^ 31 → 4 + zlen (put_fields fields') < 2 ^ 31 →
  filter (λ f, f.1 ≠ x4d) fields = filter (λ f, f.1 ≠ x4d) fields' →
  extract_error_scrubbed (frames fs ++ frame MSG_ERROR_RESPONSE (put_fields fields) ++ rest)
  = extract_error_scrubbed (frames fs ++ frame MSG_ERROR_RESPONSE (put_fields fields') ++ rest').
Proof.
  intros Hfs Hf Hf' Hl Hl' Heq. unfold extract_error_scrubbed.
  rewrite !find_error_fields_frames by done. rewrite !parse_error_fields_put by done.
  cbn [try_ret try_ mbind outcome_bind].
  destruct (scrubbed_fold fields no_fields no_fields eq_refl eq_refl) as [-> ->].
  destruct (scrubbed_fold fields' no_fields no_fields eq_refl eq_refl) as [-> ->].
  by rewrite Heq.
Qed.

(** A backend message whose length field is -1 is not survived: with
    wrapping arithmetic the scan for query completion never moves on (no amount
    of fuel is enough), with checked arithmetic it panics. *)
Lemma length_minus_one_not_survived t rest :
  completes t = false →
  (∀ fuel, complete_loop (H := release_build) fuel (t :: be32 (-1) ++ rest) 0 = Diverge) ∧
  complete_loop (H := debug_build) 1 (t :: be32 (-1) ++ rest) 0 = Panic.
Proof.
  intros Ht. pose proof (zlen_nonneg rest) as Hr.
  assert (Hl : zlen (t :: be32 (-1) ++ rest) = 5 + zlen rest).
  { autorewrite with scry_len. lia. }
  assert (Hi : i32_at (t :: be32 (-1) ++ rest) (0 + 1) = Ret (-1)).
  { apply (i32_at_be32 [t]); [done|lia]. }
  split; [intros fuel; induction fuel as [|fuel IH]|]; cbn [complete_loop]; rewrite Hl; Zbool;
    try done; change (at_ (t :: be32 (-1) ++ rest) 0) with (Ret t); cbn [mbind outcome_bind];
    fold (completes t); rewrite Ht, Hi; cbn [fmap outcome_fmap mbind outcome_bind];
    change (as_usize (-1)) with (2 ^ 64 - 1); Zbool.
  - assert (Hw : u64_add (H := release_build) (0 + 1) (2 ^ 64 - 1) = Ret 0) by done.
    rewrite Hw. cbn [mbind outcome_bind]. Zbool.
    assert (Hw' : u64_add (H := release_build) 1 (2 ^ 64 - 1) = Ret 0) by done.
    rewrite Hw'. cbn [mbind outcome_bind]. apply IH.
  - done.
Qed.

(** ** Concrete runs *)
Definition demo_messages : list Message :=
  [Parse (lit "s") (lit "SELECT $1") [23]; Bind [] (lit "s") [0] [Some (lit "42"); None];
   Execute []; Close x53 (lit "s"); Sync].
Definition demo_stream : bytes := concat (serialize_message <$> demo_messages).

Lemma extract_stream_roundtrip_witness :
  extract_stream (H := release_build) new [take 3 demo_stream; take 40 (drop 3 demo_stream);
    drop 43 demo_stream] = Ret (demo_messages, new).
Proof.
  apply (@extract_stream_roundtrip release_build); [|vm_compute; reflexivity].
  repeat (constructor; [by vm_compute|]). constructor.
Defined.

Lemma extract_stream_chunking_witness :
  extract_stream (H := release_build) new [[x44; x00; x00]; [x00; x05; x41; x53]]
  = (ms ← parse_all (H := release_build) [(x44, [x41])];
     Ret (ms, {| buffer := Some []; frontend_buffer := Some [x53] |})).
Proof.
  apply (@extract_stream_chunking release_build); [|left; done|reflexivity].
  by repeat constructor.
Defined.

(** A negative parameter count in a Parse message asks for an impossible
    capacity. *)
Example parse_negative_count_panics :
  extract_messages (H := release_build) new (frame MSG_PARSE ([x00; x00] ++ be16 (-1))) = Panic.
Proof. vm_compute. reflexivity. Qed.

(** A parameter length below -1 in a Bind message slices backwards. *)
Example bind_negative_length_panics :
  extract_messages (H := release_build) new
    (frame MSG_BIND ([x00; x00] ++ be16 0 ++ be16 1 ++ be32 (-2))) = Panic.
Proof. vm_compute. reflexivity. Qed.

(** A Query that is not UTF-8 is reported as no message at all. *)
Example non_utf8_query_unseen :
  extract_messages (H := release_build) new (frame MSG_QUERY (lit "SET a = '" ++ [xe9; x27; x00]))
  = Ret ([], new).
Proof. vm_compute. reflexivity. Qed.

(** A ReadyForQuery cut by a read boundary is seen in neither read. *)
Example split_ready_for_query_missed :
  extract_ready_for_query (H := release_build) (take 4 (frame x5a [x49])) = Ret None ∧
  extract_ready_for_query (H := release_build) (drop 4 (frame x5a [x49])) = Ret None.
Proof. vm_compute. done. Qed.

(** An error response behind a message without payload (ParseComplete) is not
    found. *)
Example error_behind_parse_complete_missed :
  find_error_fields (H := release_build)
    (frame x31 [] ++ frame MSG_ERROR_RESPONSE (put_fields [(x53, lit "ERROR")])) = Ret None.
Proof. vm_compute. reflexivity. Qed.

(** A length field below four makes the single-message entry point panic. *)
Example extract_message_short_length_panics :
  extract_message (H := release_build) (x51 :: be32 2) = Panic.
Proof. vm_compute. reflexivity. Qed.
End Ext.
