(* ===== verification/AuthMessages.v ===== *)
(** * Start-up and authentication messages
      (protocol/auth_messages.rs, protocol/startup.rs)

    Parsers and builders of the messages exchanged before the first query.  The
    MD5 digest comes from a crate and is a parameter ([Md5]).  The builders
    reserve capacity for the message they are about to build; that call has no
    effect on the result and is not modelled. *)

From S2P Require Import Prelude RustStr Wire Extractor.

Module Startup.

Definition MAX_STARTUP_MESSAGE_SIZE : Z := 65536.
Definition MIN_STARTUP_MESSAGE_SIZE : Z := 8.
Definition SSL_REQUEST_CODE : Z := 80877103.

Inductive startup_error : Type :=
| LengthUnreadable
| LengthTooSmall (n : Z)
| LengthTooLarge (n : Z)
| BodyUnreadable.

(** [read_exact]: the first [n] bytes of what the peer sends before it closes. *)
Definition read_exact (n : Z) (stream : bytes) : option (bytes * bytes) :=
  if n <=? zlen stream
  then Some (take (Z.to_nat n) stream, drop (Z.to_nat n) stream) else None.

(** The message read and the bytes left in the stream. *)
Definition read_startup_message (stream : bytes) : startup_error + bytes * bytes :=
  match read_exact 4 stream with
  | None => inl LengthUnreadable
  | Some (length_buf, stream) =>
      match i32_at length_buf 0 with
      | Ret n =>
          let length := as_usize n in
          if length <? MIN_STARTUP_MESSAGE_SIZE then inl (LengthTooSmall length)
          else if MAX_STARTUP_MESSAGE_SIZE <? length then inl (LengthTooLarge length)
          else match read_exact (length - 4) stream with
               | None => inl BodyUnreadable
               | Some (body, stream) => inr (length_buf ++ body, stream)
               end
      | _ => inl LengthUnreadable
      end
  end.

Definition is_ssl_request (data : bytes) : outcome bool :=
  if zlen data <? 8 then Ret false
  else
    length ← i32_at data 0;
    if negb (length =? 8) then Ret false
    else code ← i32_at data 4; Ret (code =? SSL_REQUEST_CODE).
End Startup.

Module Auth.

Record StartupMessage : Type := {
  protocol_version : Z; parameters : gmap bytes bytes
}.
Definition PROTOCOL_VERSION_3 : Z := 196608.

(** [while offset < length && data[offset] != 0 { offset += 1 }] *)
Definition scan (data : bytes) (length_ offset : Z) : Z :=
  let w := take (Z.to_nat (length_ - offset)) (drop (Z.to_nat offset) data) in
  offset + Z.of_nat (default (length w) (nul_pos w)).

Fixpoint params_loop (fuel : nat) (data : bytes) (length_ offset : Z)
    (parameters : gmap bytes bytes) : outcome (gmap bytes bytes) :=
  if length_ <=? offset then Ret parameters
  else
    match fuel with
    | O => Diverge
    | S fuel =>
        let key_end := scan data length_ offset in
        if length_ <=? key_end then Ret parameters
        else
          key ← Str.from_utf8_lossy <$> sub data offset key_end;
          let value_start := key_end + 1 in
          if decide (key = []) then Ret parameters
          else
            let value_end := scan data length_ value_start in
            value ← Str.from_utf8_lossy <$> sub data value_start value_end;
            params_loop fuel data length_ (value_end + 1) (<[key := value]> parameters)
    end.

Definition StartupMessage_parse (data : bytes) : outcome (option StartupMessage) :=
  if zlen data <? 8 then Ret None
  else
    length_ ← as_usize <$> i32_at data 0;
    if zlen data <? length_ then Ret None
    else
      version ← i32_at data 4;
      if version =? 80877103 then Ret None
      else
        params ← params_loop (S (length data)) data length_ 8 ∅;
        Ret (Some {| protocol_version := version; parameters := params |}).

Definition user (m : StartupMessage) : option bytes := parameters m !! lit "user".
Definition database (m : StartupMessage) : option bytes := parameters m !! lit "database".

Definition put_param (kv : bytes * bytes) : bytes := kv.1 ++ x00 :: kv.2 ++ [x00].
Definition StartupMessage_build (user database : bytes) (extra : list (bytes * bytes)) : bytes :=
  let params :=
    concat (put_param <$> (lit "user", user) :: (lit "database", database) :: extra) ++ [x00] in
  be32 (4 + 4 + zlen params) ++ be32 PROTOCOL_VERSION_3 ++ params.

Inductive AuthRequest : Type :=
| AuthOk
| CleartextPassword
| Md5Password (salt : bytes)
| Sasl (mechanisms : list bytes)
| SaslContinue (data : bytes)
| SaslFinal (data : bytes).

Section with_build.
Context `{Build}.

(** The loop over the mechanism names; [stop] is [1 + length]. *)
Fixpoint mechanisms_loop (fuel : nat) (data : bytes) (stop offset : Z)
    : outcome (list bytes) :=
  if stop <=? offset then Ret []
  else
    match fuel with
    | O => Diverge
    | S fuel =>
        let end_ := scan data stop offset in
        mech ← (if offset <? end_ then Str.from_utf8 <$> sub data offset end_ else Ret None);
        let push l := match mech with Some m => m :: l | None => l end in
        let offset := end_ + 1 in
        (if offset <? stop then (λ b, beqb b x00) <$> at_ data offset else Ret false) ≫= λ last : bool,
        if last then Ret (push []) else push <$> mechanisms_loop fuel data stop offset
    end.

Definition AuthRequest_parse (data : bytes) : outcome (option AuthRequest) :=
  if zlen data <? 9 then Ret None
  else
    t ← at_ data 0;
    if negb (beqb t MSG_AUTHENTICATION) then Ret None
    else
      length_ ← as_usize <$> i32_at data 1;
      stop ← u64_add 1 length_;
      if zlen data <? stop then Ret None
      else
        auth_code ← i32_at data 5;
        if auth_code =? AUTH_OK then Ret (Some AuthOk)
        else if auth_code =? AUTH_CLEARTEXT_PASSWORD then Ret (Some CleartextPassword)
        else if auth_code =? AUTH_MD5_PASSWORD then
          if zlen data <? 13 then Ret None
          else salt ← sub data 9 13; Ret (Some (Md5Password salt))
        else if auth_code =? AUTH_SASL then
          ms ← mechanisms_loop (S (length data)) data stop 9; Ret (Some (Sasl ms))
        else if auth_code =? AUTH_SASL_CONTINUE then
          payload ← sub data 9 stop; Ret (Some (SaslContinue payload))
        else if auth_code =? AUTH_SASL_FINAL then
          payload ← sub data 9 stop; Ret (Some (SaslFinal payload))
        else Ret None.

Definition parse_password_message (data : bytes) : outcome (option bytes) :=
  if zlen data <? 5 then Ret None
  else
    t ← at_ data 0;
    if negb (beqb t MSG_PASSWORD) then Ret None
    else
      length_ ← as_usize <$> i32_at data 1;
      stop ← u64_add 1 length_;
      if zlen data <? stop then Ret None
      else
        last ← u64_sub stop 1;
        password_data ← sub data 5 last;
        Ret (Str.from_utf8 password_data).
End with_build.

(** ** Builders *)
Definition build_auth_ok : bytes := MSG_AUTHENTICATION :: be32 8 ++ be32 0.
Definition build_auth_cleartext_password : bytes := MSG_AUTHENTICATION :: be32 8 ++ be32 3.
Definition build_auth_md5_password (salt : bytes) : bytes :=
  MSG_AUTHENTICATION :: be32 12 ++ be32 5 ++ salt.
Definition build_password_message (password : bytes) : bytes :=
  MSG_PASSWORD :: be32 (4 + zlen password + 1) ++ password ++ [x00].
Definition build_sasl_initial_response (mechanism client_first : bytes) : bytes :=
  MSG_PASSWORD :: be32 (4 + (zlen mechanism + 1 + 4 + zlen client_first))
    ++ mechanism ++ x00 :: be32 (zlen client_first) ++ client_first.
Definition build_sasl_response (data : bytes) : bytes :=
  MSG_PASSWORD :: be32 (4 + zlen data) ++ data.
Definition build_error_response (severity code message : bytes) : bytes :=
  let fields :=
    (x53 :: severity ++ [x00]) ++ (x43 :: code ++ [x00]) ++ (x4d :: message ++ [x00]) ++ [x00] in
  MSG_ERROR_RESPONSE :: be32 (4 + zlen fields) ++ fields.

(** The lower-case hexadecimal MD5 digest. *)
Class Md5 : Type := { md5_hex : bytes → bytes }.

Definition compute_md5_response `{Md5} (password username salt : bytes) : bytes :=
  let inner_hash := md5_hex (password ++ username) in
  lit "md5" ++ md5_hex (inner_hash ++ salt).
Definition verify_md5_response `{Md5} (client_response password username salt : bytes) : bool :=
  bool_decide (client_response = compute_md5_response password username salt).

(** ** Reading from the stream *)
Lemma read_exact_app a b n : n = zlen a → Startup.read_exact n (a ++ b) = Some (a, b).
Proof.
  intros ->. unfold Startup.read_exact. rewrite zlen_app.
  pose proof (zlen_nonneg b). rewrite (proj2 (Z.leb_le _ _)) by lia.
  unfold zlen. by rewrite Nat2Z.id, take_app_length, drop_app_length.
Qed.

Lemma read_exact_Some n stream a b :
  0 ≤ n → Startup.read_exact n stream = Some (a, b) → stream = a ++ b ∧ zlen a = n.
Proof.
  unfold Startup.read_exact. intros Hn. case_match; [|done]. intros [= <- <-]. bool_to_Z.
  split; [by rewrite take_drop|]. unfold zlen in *. rewrite length_take. lia.
Qed.

(** ** Parameters *)
Lemma scan_app pre s post stop i :
  i = zlen pre → x00 ∉ s → zlen pre + zlen s < stop →
  scan (pre ++ s ++ x00 :: post) stop i = zlen pre + zlen s.
Proof.
  intros -> Hs Hstop. unfold scan, zlen. rewrite Nat2Z.id, drop_app_length.
  unfold zlen in Hstop.
  rewrite (app_cons_assoc s), take_app_ge by (rewrite length_app; simpl; lia).
  rewrite <-app_assoc. cbn [app]. by rewrite nul_pos_app.
Qed.

Lemma scan_bounds data stop i : 0 ≤ i ≤ stop → i ≤ scan data stop i ≤ stop.
Proof.
  intros Hi. unfold scan. set (w := take _ _).
  assert (length w ≤ Z.to_nat (stop - i))%nat by (unfold w; rewrite length_take; lia).
  destruct (nul_pos w) as [n|] eqn:Hn; simpl; [|lia].
  apply nul_pos_Some in Hn as (a & b & Hw & <- & _). rewrite Hw, length_app in *. simpl in *. lia.
Qed.

Lemma sub_Ret data a b : a ≤ b ≤ zlen data → ∃ r, sub data a b = Ret r.
Proof.
  intros Hab. unfold sub. change (Z.of_nat (length data)) with (zlen data).
  rewrite !(proj2 (Z.leb_le _ _)) by lia. simpl. eauto.
Qed.

(** The parameter loop ends and stays inside the message. *)
Lemma params_loop_total fuel data stop offset m :
  0 ≤ offset → stop ≤ zlen data → stop - offset < Z.of_nat fuel →
  ∃ m', params_loop fuel data stop offset m = Ret m'.
Proof.
  intros Ho Hs. revert offset m Ho; induction fuel as [|fuel IH]; intros offset m Ho Hf;
    cbn [params_loop]; (destruct (Z.leb_spec stop offset); [eauto|]); [lia|].
  cbv zeta. pose proof (scan_bounds data stop offset ltac:(lia)) as Hk.
  destruct (Z.leb_spec stop (scan data stop offset)); [eauto|].
  destruct (sub_Ret data offset (scan data stop offset)) as [k ->]; [lia|].
  cbn [fmap outcome_fmap mbind outcome_bind]. case_decide; [eauto|].
  pose proof (scan_bounds data stop (scan data stop offset + 1) ltac:(lia)) as Hv.
  destruct (sub_Ret data (scan data stop offset + 1) (scan data stop (scan data stop offset + 1)))
    as [v ->]; [lia|].
  cbn [fmap outcome_fmap mbind outcome_bind]. apply IH; lia.
Qed.

(** Validated text is left alone by the lossy conversion. *)
Lemma lossy_valid fuel s : Str.utf8_valid_fuel fuel s = true → Str.lossy_fuel fuel s = s.
Proof.
  revert s; induction fuel as [|fuel IH]; intros [|b s] Hs; try done.
  cbn [Str.utf8_valid_fuel] in Hs. cbn [Str.lossy_fuel].
  destruct (Str.utf8_step (b :: s)) as [ok n]. apply andb_true_iff in Hs as [-> Hs].
  by rewrite IH, take_drop.
Qed.

Lemma from_utf8_lossy_text s : Ext.text s = true → Str.from_utf8_lossy s = s.
Proof. intros [Hv _]%andb_true_iff. by apply lossy_valid. Qed.

Definition wf_param (kv : bytes * bytes) : Prop :=
  Ext.text kv.1 = true ∧ Ext.text kv.2 = true ∧ kv.1 ≠ [].
Definition param_map (kvs : list (bytes * bytes)) (m : gmap bytes bytes) : gmap bytes bytes :=
  foldl (λ m kv, <[kv.1 := kv.2]> m) m kvs.

Lemma text_nul s : Ext.text s = true → x00 ∉ s.
Proof. by intros [_ Hn%bool_decide_eq_true]%andb_true_iff. Qed.

(** The empty key that ends the parameters. *)
Lemma params_loop_end pre fuel m data :
  data = pre ++ [x00] → params_loop (S fuel) data (zlen data) (zlen pre) m = Ret m.
Proof.
  intros Hd. assert (Hl : zlen data = zlen pre + 1) by (subst; autorewrite with scry_len; lia).
  cbn [params_loop]. rewrite (proj2 (Z.leb_gt _ _)) by lia. cbv zeta.
  assert (Hs : scan data (zlen data) (zlen pre) = zlen pre).
  { rewrite Hl, Hd. rewrite (scan_app pre [] []) by (done || set_solver || rewrite zlen_nil; lia).
    rewrite zlen_nil. lia. }
  rewrite Hs, (proj2 (Z.leb_gt _ _)) by lia.
  assert (Hsub : sub data (zlen pre) (zlen pre) = Ret []).
  { rewrite Hd. apply (sub_app pre [] [x00]); rewrite ?zlen_nil; lia. }
  by rewrite Hsub.
Qed.

(** One parameter. *)
Lemma params_loop_param pre k v rest fuel m data :
  wf_param (k, v) → data = pre ++ put_param (k, v) ++ rest →
  params_loop (S fuel) data (zlen data) (zlen pre) m
  = params_loop fuel data (zlen data) (zlen (pre ++ put_param (k, v))) (<[k := v]> m).
Proof.
  intros (Hk & Hv & Hne) Hd. unfold put_param in *. cbn [fst snd] in *.
  rewrite <-app_assoc, <-app_comm_cons, <-app_assoc in Hd. cbn [app] in Hd.
  pose proof (zlen_nonneg pre). pose proof (zlen_nonneg k). pose proof (zlen_nonneg v).
  pose proof (zlen_nonneg rest).
  assert (Hl : zlen data = zlen pre + zlen k + 1 + zlen v + 1 + zlen rest)
    by (rewrite Hd; autorewrite with scry_len; lia).
  assert (Hpk : zlen pre + zlen k + 1 = zlen (pre ++ k ++ [x00])) by (autorewrite with scry_len; lia).
  assert (Hd' : data = (pre ++ k ++ [x00]) ++ v ++ x00 :: rest) by (by rewrite Hd, <-!app_assoc).
  assert (Hsk : scan data (zlen data) (zlen pre) = zlen pre + zlen k).
  { rewrite Hl, Hd. apply scan_app; [done|by apply text_nul|lia]. }
  assert (Hsv : scan data (zlen data) (zlen pre + zlen k + 1) = zlen pre + zlen k + 1 + zlen v).
  { rewrite Hl, Hpk, Hd'. apply scan_app; [done|by apply text_nul|]. rewrite <-Hpk. lia. }
  assert (Hsub : sub data (zlen pre) (zlen pre + zlen k) = Ret k) by (rewrite Hd; by apply sub_app).
  assert (Hsubv : sub data (zlen pre + zlen k + 1) (zlen pre + zlen k + 1 + zlen v) = Ret v).
  { rewrite Hpk, Hd'. by apply sub_app. }
  cbn [params_loop]. rewrite (proj2 (Z.leb_gt _ _)) by lia. cbv zeta.
  rewrite Hsk, (proj2 (Z.leb_gt _ _)), Hsub by lia. cbn [fmap outcome_fmap mbind outcome_bind].
  rewrite from_utf8_lossy_text, decide_False, Hsv, Hsubv by done.
  cbn [fmap outcome_fmap mbind outcome_bind]. rewrite from_utf8_lossy_text by done.
  f_equal. autorewrite with scry_len. lia.
Qed.

Lemma params_loop_params kvs pre fuel m data :
  Forall wf_param kvs → data = pre ++ concat (put_param <$> kvs) ++ [x00] →
  (length kvs < fuel)%nat →
  params_loop fuel data (zlen data) (zlen pre) m = Ret (param_map kvs m).
Proof.
  intros Hkv. revert pre fuel m; induction Hkv as [|[k v] kvs Hp _ IH];
    intros pre fuel m Hd Hfuel; (destruct fuel as [|fuel]; [simpl in Hfuel; lia|]).
  - by apply params_loop_end.
  - rewrite fmap_cons in Hd. cbn [concat] in Hd. rewrite <-app_assoc in Hd.
    rewrite (params_loop_param pre k v (concat (put_param <$> kvs) ++ [x00])) by done.
    apply IH; [by rewrite <-app_assoc|simpl in Hfuel; lia].
Qed.

(** ** Properties *)

(** A start-up message is read whole and alone: what is returned is a
    prefix of the stream, between 8 and 65536 bytes long, of exactly the length
    its own length field says, and the rest of the stream is left unread. *)
Lemma read_startup_message_sound stream msg rest :
  Startup.read_startup_message stream = inr (msg, rest) →
  stream = msg ++ rest ∧ 8 ≤ zlen msg ≤ 65536 ∧ i32_at msg 0 = Ret (zlen msg).
Proof.
  unfold Startup.read_startup_message.
  destruct (Startup.read_exact 4 stream) as [[lb s1]|] eqn:H4; [|done].
  apply read_exact_Some in H4 as [-> Hlb]; [|lia].
  destruct (i32_at_Ret lb 0) as (n & Hn & Hr); [lia..|]. rewrite Hn.
  unfold Startup.MIN_STARTUP_MESSAGE_SIZE, Startup.MAX_STARTUP_MESSAGE_SIZE.
  destruct (Z.ltb_spec (as_usize n) 8); [done|].
  destruct (Z.ltb_spec 65536 (as_usize n)); [done|].
  destruct (Startup.read_exact _ s1) as [[body s2]|] eqn:Hb; [|done]. intros [= <- <-].
  apply read_exact_Some in Hb as [-> Hbody]; [|lia].
  assert (as_usize n = n) as Hu.
  { unfold as_usize, two64 in *. destruct (Z.le_gt_cases 0 n); [apply Z.mod_small; lia|].
    rewrite <-(Z.mod_unique n (2 ^ 64) (-1) (n + 2 ^ 64)) in * by lia. lia. }
  rewrite zlen_app, Hlb, Hbody, Hu in *. split_and!; [by rewrite <-app_assoc|lia..|].
  rewrite i32_at_app_l, Hn by lia. f_equal. lia.
Qed.

(** [StartupMessage::parse] returns on every input: no byte string makes
    it panic or loop. *)
Lemma startup_parse_total data : ∃ r, StartupMessage_parse data = Ret r.
Proof.
  unfold StartupMessage_parse. destruct (Z.ltb_spec (zlen data) 8); [eauto|].
  destruct (i32_at_Ret data 0) as (n & -> & _); [lia..|]. cbn [fmap outcome_fmap mbind outcome_bind].
  destruct (Z.ltb_spec (zlen data) (as_usize n)); [eauto|].
  destruct (i32_at_Ret data 4) as (v & -> & _); [lia..|]. cbn [mbind outcome_bind].
  case_match; [eauto|].
  destruct (params_loop_total (S (length data)) data (as_usize n) 8 ∅) as [m ->];
    [lia|lia|unfold zlen in *; lia|]. cbn. eauto.
Qed.

Lemma StartupMessage_build_length user db extra :
  ∃ params, StartupMessage_build user db extra = be32 (zlen (StartupMessage_build user db extra))
              ++ be32 PROTOCOL_VERSION_3 ++ params
    ∧ params = concat (put_param <$> (lit "user", user) :: (lit "database", db) :: extra) ++ [x00].
Proof.
  eexists. split; [|reflexivity]. unfold StartupMessage_build. cbv zeta. f_equal. f_equal.
  autorewrite with scry_len. lia.
Qed.

Lemma params_count kvs : zlen kvs ≤ zlen (concat (put_param <$> kvs)).
Proof.
  induction kvs as [|[k v] kvs IH]; [done|]. rewrite fmap_cons. cbn [concat].
  rewrite zlen_cons, zlen_app. unfold put_param at 1. cbn [fst snd].
  autorewrite with scry_len. pose proof (zlen_nonneg k). pose proof (zlen_nonneg v). lia.
Qed.

Lemma startup_build_read usr db extra rest :
  Forall wf_param ((lit "user", usr) :: (lit "database", db) :: extra) →
  zlen (StartupMessage_build usr db extra) ≤ 65536 →
  let msg := StartupMessage_build usr db extra in
  Startup.read_startup_message (msg ++ rest) = inr (msg, rest) ∧
  StartupMessage_parse msg = Ret (Some {|
    protocol_version := PROTOCOL_VERSION_3;
    parameters := param_map ((lit "user", usr) :: (lit "database", db) :: extra) ∅ |}).
Proof.
  intros Hkv Hlen. cbv zeta.
  destruct (StartupMessage_build_length usr db extra) as (params & Hb & Hp).
  set (msg := StartupMessage_build usr db extra) in *. set (n := zlen msg) in *.
  pose proof (zlen_nonneg params).
  assert (Hn : n = 8 + zlen params).
  { unfold n. rewrite Hb. autorewrite with scry_len. lia. }
  assert (Hu : as_usize n = n) by (apply Z.mod_small; unfold two64; lia). split.
  - unfold Startup.read_startup_message.
    replace (msg ++ rest) with (be32 n ++ (be32 PROTOCOL_VERSION_3 ++ params) ++ rest)
      by (rewrite Hb; by rewrite <-!app_assoc).
    rewrite read_exact_app by done.
    rewrite <-(app_nil_r (be32 n)) at 1. rewrite (i32_at_be32 [] n []) by (done || lia). rewrite Hu.
    unfold Startup.MIN_STARTUP_MESSAGE_SIZE, Startup.MAX_STARTUP_MESSAGE_SIZE.
    rewrite !(proj2 (Z.ltb_ge _ _)) by lia.
    rewrite read_exact_app by (autorewrite with scry_len; lia). by rewrite Hb.
  - unfold StartupMessage_parse. rewrite (proj2 (Z.ltb_ge _ _)) by (fold n; lia).
    assert (H0 : i32_at msg 0 = Ret n) by (rewrite Hb; apply (i32_at_be32 []); [done|lia]).
    assert (H4 : i32_at msg 4 = Ret PROTOCOL_VERSION_3) by (rewrite Hb; by apply (i32_at_be32 (be32 n))).
    rewrite H0, H4. cbn [fmap outcome_fmap mbind outcome_bind]. rewrite Hu. fold n.
    rewrite Z.ltb_irrefl. change (PROTOCOL_VERSION_3 =? 80877103) with false. cbn iota.
    assert (Hloop : params_loop (S (length msg)) msg n 8 ∅
      = Ret (param_map ((lit "user", usr) :: (lit "database", db) :: extra) ∅)); [|by rewrite Hloop].
    apply (params_loop_params _ (be32 n ++ be32 PROTOCOL_VERSION_3)); [done| |].
    + rewrite Hb at 1. by rewrite Hp, <-app_assoc.
    + pose proof (params_count ((lit "user", usr) :: (lit "database", db) :: extra)) as Hc.
      assert (Z.of_nat (length msg) = n) by done.
      rewrite Hp, zlen_app in Hn. unfold zlen in Hc, Hn. lia.
Qed.

(** Building a start-up message and reading and parsing it back gives the
    protocol version and the parameters, with later settings of the same key
    winning. *)
Lemma startup_roundtrip usr db extra rest :
  Forall wf_param ((lit "user", usr) :: (lit "database", db) :: extra) →
  zlen (StartupMessage_build usr db extra) ≤ 65536 →
  let msg := StartupMessage_build usr db extra in
  Startup.read_startup_message (msg ++ rest) = inr (msg, rest) ∧
  StartupMessage_parse msg = Ret (Some {|
    protocol_version := PROTOCOL_VERSION_3;
    parameters := param_map ((lit "user", usr) :: (lit "database", db) :: extra) ∅ |}).
Proof. apply startup_build_read. Qed.

Section auth_properties.
Context `{Build}.

(** Past the checks of the type byte and of the header. *)
Lemma parse_password_header n rest :
  0 ≤ n < 2 ^ 31 → n ≤ 4 + zlen rest →
  parse_password_message (MSG_PASSWORD :: be32 n ++ rest)
  = (last ← u64_sub (1 + n) 1; d ← sub (MSG_PASSWORD :: be32 n ++ rest) 5 last;
     Ret (Str.from_utf8 d)).
Proof.
  intros Hn Hr. pose proof (zlen_nonneg rest).
  assert (Hz : zlen (MSG_PASSWORD :: be32 n ++ rest) = 5 + zlen rest)
    by (autorewrite with scry_len; lia).
  assert (Hi : i32_at (MSG_PASSWORD :: be32 n ++ rest) 1 = Ret n)
    by (apply (i32_at_be32 [MSG_PASSWORD]); [done|lia]).
  unfold parse_password_message. rewrite Hz, (proj2 (Z.ltb_ge _ _)) by lia.
  change (at_ (MSG_PASSWORD :: be32 n ++ rest) 0) with (Ret MSG_PASSWORD).
  cbn [mbind outcome_bind]. change (negb (beqb MSG_PASSWORD MSG_PASSWORD)) with false. cbn iota.
  rewrite Hi. cbn [fmap outcome_fmap mbind outcome_bind].
  rewrite Ext.as_usize_small, u64_add_fits by (unfold two64; lia). cbn [mbind outcome_bind].
  by rewrite (proj2 (Z.ltb_ge _ _)) by lia.
Qed.

(** A password message that was built is parsed back to the password; a
    message whose length field is too small to hold even the terminator (0 to
    4) makes the parser panic instead of rejecting it. *)
Lemma password_message_roundtrip :
  (∀ pw, Str.utf8_valid pw = true → zlen pw < 2 ^ 30 →
     parse_password_message (build_password_message pw) = Ret (Some pw)) ∧
  (∀ n rest, 0 ≤ n ≤ 4 → parse_password_message (MSG_PASSWORD :: be32 n ++ rest) = Panic).
Proof.
  split.
  - intros pw Hv Hl. pose proof (zlen_nonneg pw). unfold build_password_message.
    rewrite parse_password_header by (autorewrite with scry_len; lia).
    rewrite u64_sub_fits by (unfold two64; lia). cbn [mbind outcome_bind].
    assert (Hs : sub (MSG_PASSWORD :: be32 (4 + zlen pw + 1) ++ pw ++ [x00]) 5
                   (1 + (4 + zlen pw + 1) - 1) = Ret pw).
    { apply (sub_app (MSG_PASSWORD :: be32 (4 + zlen pw + 1)) pw [x00]);
        autorewrite with scry_len; lia. }
    rewrite Hs. cbn. unfold Str.from_utf8. by rewrite Hv.
  - intros n rest Hn. pose proof (zlen_nonneg rest). rewrite parse_password_header by lia.
    rewrite u64_sub_fits by (unfold two64; lia). cbn [mbind outcome_bind].
    unfold sub. by rewrite (proj2 (Z.leb_gt _ _)) by lia.
Qed.

(** The authentication requests the proxy builds are parsed as what they
    are. *)
Lemma auth_request_roundtrip salt :
  length salt = 4%nat →
  AuthRequest_parse build_auth_ok = Ret (Some AuthOk) ∧
  AuthRequest_parse build_auth_cleartext_password = Ret (Some CleartextPassword) ∧
  AuthRequest_parse (build_auth_md5_password salt) = Ret (Some (Md5Password salt)).
Proof.
  intros Hs. destruct salt as [|a [|b [|c [|d [|? ?]]]]]; try discriminate Hs.
  destruct H as [[]]; split_and!; vm_compute; reflexivity.
Qed.

Lemma build_error_response_frame sev code msg :
  build_error_response sev code msg
  = frame MSG_ERROR_RESPONSE (Ext.put_fields [(x53, sev); (x43, code); (x4d, msg)]).
Proof.
  unfold build_error_response, frame. rewrite !Ext.put_fields_cons.
  unfold Ext.put_fields. cbn [fmap list_fmap concat app].
  by rewrite <-!(app_assoc _ [x00]).
Qed.

(** An error response that the proxy builds reads back, through the
    extractor, as its severity and message, and scrubbed as its severity and
    SQLSTATE. *)
Lemma error_response_roundtrip sev code msg :
  Ext.text sev = true → Ext.text code = true → Ext.text msg = true →
  zlen (build_error_response sev code msg) < 2 ^ 31 →
  Ext.extract_error (build_error_response sev code msg) = Ret (Some (sev ++ lit ": " ++ msg)) ∧
  Ext.extract_error_scrubbed (build_error_response sev code msg)
    = Ret (Some (sev ++ lit ": " ++ code)).
Proof.
  intros Hs Hc Hm Hl. rewrite build_error_response_frame in *.
  set (fields := [(x53, sev); (x43, code); (x4d, msg)]) in *. rewrite zlen_frame in Hl.
  assert (Hf : Ext.find_error_fields (frame MSG_ERROR_RESPONSE (Ext.put_fields fields))
    = Ret (Some {| Ext.severity := Some sev; Ext.sqlstate := Some code; Ext.message := Some msg |})).
  { rewrite <-(app_nil_r (frame _ _)).
    rewrite (Ext.find_error_fields_frames [] (Ext.put_fields fields) []) by (constructor || lia).
    rewrite Ext.parse_error_fields_put; [done|]. repeat constructor; done. }
  unfold Ext.extract_error, Ext.extract_error_scrubbed. by rewrite Hf.
Qed.

(** The messages of an authentication exchange survive the wire: a password
    message parses back to the password, the authentication requests to what
    they are, and an error response reads, through the extractor, as its
    severity and message and, scrubbed, as its severity and SQLSTATE. *)
Lemma auth_messages_roundtrip :
  (∀ pw, Str.utf8_valid pw = true → zlen pw < 2 ^ 30 →
     parse_password_message (build_password_message pw) = Ret (Some pw)) ∧
  (∀ salt, length salt = 4%nat →
     AuthRequest_parse build_auth_ok = Ret (Some AuthOk) ∧
     AuthRequest_parse build_auth_cleartext_password = Ret (Some CleartextPassword) ∧
     AuthRequest_parse (build_auth_md5_password salt) = Ret (Some (Md5Password salt))) ∧
  (∀ sev code msg,
     Ext.text sev = true → Ext.text code = true → Ext.text msg = true →
     zlen (build_error_response sev code msg) < 2 ^ 31 →
     Ext.extract_error (build_error_response sev code msg) = Ret (Some (sev ++ lit ": " ++ msg)) ∧
     Ext.extract_error_scrubbed (build_error_response sev code msg)
       = Ret (Some (sev ++ lit ": " ++ code))).
Proof.
  split_and!; [apply password_message_roundtrip|apply auth_request_roundtrip|].
  apply error_response_roundtrip.
Qed.
End auth_properties.

(** ** Concrete runs *)
(** A SASL continuation whose length field is shorter than its header slices
    backwards. *)
Example sasl_continue_short_panics :
  AuthRequest_parse (H := release_build) (MSG_AUTHENTICATION :: be32 4 ++ be32 11) = Panic.
Proof. vm_compute. reflexivity. Qed.
End Auth.
