(* ===== verification/UserList.v ===== *)
(** * The user file (auth/file_auth.rs, auth/types.rs)

    [FileAuthenticator] reads PgBouncer's userlist.txt: one user per line, two
    quoted strings.  Lines are taken apart on bytes, which is what the code does
    on characters: the quote and the line feed are ASCII and no byte of another
    character equals them. *)

From S2P Require Import Prelude RustStr Wire Extractor AuthMessages.

(** [str::lines]: a line ends at a line feed, with a carriage return before it
    taken off; what follows the last line feed is a line unless it is empty. *)
Definition strip_cr (l : bytes) : bytes :=
  match reverse l with x0d :: l' => reverse l' | _ => l end.
Fixpoint lines_of (parts : list bytes) : list bytes :=
  match parts with
  | [] => []
  | [l] => match l with [] => [] | _ => [l] end
  | l :: parts => strip_cr l :: lines_of parts
  end.
Definition lines (s : bytes) : list bytes := lines_of (Str.split_byte x0a s).

Module FileAuth.

Inductive PasswordEntry : Type :=
| Plain (p : bytes)
| Md5 (hash : bytes)
| ScramSha256 (verifier : bytes).
#[export] Instance PasswordEntry_eq_dec : EqDecision PasswordEntry.
Proof. solve_decision. Defined.

Record FileAuthenticator : Type := file_auth { users : gmap bytes PasswordEntry }.
Record UserCredentials : Type := { username : bytes; password : PasswordEntry }.

Inductive AuthError : Type :=
| AuthFileNotFound (path : bytes)
| AuthFileReadError
| InvalidFormat (line_number : nat) (line : bytes).

Definition new : FileAuthenticator := file_auth ∅.

(** The loop of [parse_line]: whether inside quotes, the parts so far, and the
    part being read. *)
Fixpoint parse_loop (in_quotes : bool) (parts : list bytes) (current : bytes) (line : bytes)
    : list bytes :=
  match line with
  | [] => parts
  | ch :: line =>
      if beqb ch x22 then
        if in_quotes then parse_loop false (parts ++ [current]) [] line
        else parse_loop true parts current line
      else if in_quotes then parse_loop in_quotes parts (current ++ [ch]) line
      else parse_loop in_quotes parts current line
  end.
Definition parse_line (line : bytes) : option (bytes * bytes) :=
  match parse_loop false [] [] line with
  | user :: pass :: _ => Some (user, pass)
  | _ => None
  end.

Definition entry_of (pass : bytes) : PasswordEntry :=
  if Str.starts_with pass (lit "md5") && (zlen pass =? 35) then Md5 (drop 3 pass)
  else if Str.starts_with pass (lit "SCRAM-SHA-256$") then ScramSha256 pass
  else Plain pass.

Definition skipped (line : bytes) : bool :=
  match line with [] => true | b :: _ => beqb b x3b || beqb b x23 end.

Fixpoint from_lines (n : nat) (ls : list bytes) (m : gmap bytes PasswordEntry)
    : gmap bytes PasswordEntry + AuthError :=
  match ls with
  | [] => inl m
  | l :: ls =>
      let line := Str.trim l in
      if skipped line then from_lines (S n) ls m
      else match parse_line line with
           | Some (user, pass) => from_lines (S n) ls (<[user := entry_of pass]> m)
           | None => inr (InvalidFormat (S n) line)
           end
  end.
Definition from_string (content : bytes) : FileAuthenticator + AuthError :=
  match from_lines 0 (lines content) ∅ with inl m => inl (file_auth m) | inr e => inr e end.

(** What reading the file gives. *)
Inductive file_read : Type := NotFound | Unreadable | Contents (text : bytes).
Definition from_file (path : bytes) (f : file_read) : FileAuthenticator + AuthError :=
  match f with
  | NotFound => inr (AuthFileNotFound path)
  | Unreadable => inr AuthFileReadError
  | Contents text => from_string text
  end.

Definition has_user (a : FileAuthenticator) (u : bytes) : bool := bool_decide (is_Some (users a !! u)).
Definition get_user (a : FileAuthenticator) (u : bytes) : option UserCredentials :=
  (λ e, {| username := u; password := e |}) <$> users a !! u.

Section md5.
Context `{Auth.Md5}.
Definition compute_md5_password (password username : bytes) : bytes :=
  Auth.md5_hex (password ++ username).
Definition check_password (a : FileAuthenticator) (u p : bytes) : bool :=
  match users a !! u with
  | Some (Plain stored) => bool_decide (stored = p)
  | Some (Md5 stored_hash) => bool_decide (compute_md5_password p u = stored_hash)
  | Some (ScramSha256 _) => false
  | None => false
  end.
End md5.

Definition get_password (a : FileAuthenticator) (u : bytes) : option bytes :=
  match users a !! u with Some (Plain p) => Some p | _ => None end.
Definition len (a : FileAuthenticator) : nat := size (users a).

(** ** Round trip *)
Definition quoted (s : bytes) : bytes := x22 :: s ++ [x22].
Definition user_line (up : bytes * bytes) : bytes := quoted up.1 ++ x20 :: quoted up.2.
Definition print_users (l : list (bytes * bytes)) : bytes :=
  concat ((λ up, user_line up ++ [x0a]) <$> l).
Definition plain_field (s : bytes) : bool := forallb (λ b, negb (beqb b x22) && negb (beqb b x0a)) s.

Lemma beqb_false a b : a ≠ b → beqb a b = false.
Proof. intros Hab. unfold beqb. by apply bool_decide_eq_false. Qed.

Lemma plain_field_cons b s :
  plain_field (b :: s) = true → b ≠ x22 ∧ b ≠ x0a ∧ plain_field s = true.
Proof.
  unfold plain_field, beqb. cbn [forallb]. rewrite !andb_true_iff, !negb_true_iff, !bool_decide_eq_false.
  tauto.
Qed.

Lemma parse_loop_field s parts cur rest :
  plain_field s = true →
  parse_loop true parts cur (s ++ x22 :: rest) = parse_loop false (parts ++ [cur ++ s]) [] rest.
Proof.
  revert cur. induction s as [|b s IH]; intros cur Hs; simpl; [by rewrite app_nil_r|].
  apply plain_field_cons in Hs as (Hq & _ & Hs). rewrite beqb_false by done.
  by rewrite IH, <-app_assoc.
Qed.

Lemma parse_user_line up :
  plain_field up.1 = true → plain_field up.2 = true → parse_line (user_line up) = Some up.
Proof.
  intros H1 H2. unfold parse_line, user_line, quoted. destruct up as [u p]. cbn [fst snd] in *.
  replace ((x22 :: u ++ [x22]) ++ x20 :: x22 :: p ++ [x22])
    with (x22 :: u ++ x22 :: x20 :: x22 :: p ++ [x22]) by (simpl; by rewrite <-app_assoc).
  cbn [parse_loop]. change (beqb x22 x22) with true. cbn iota.
  rewrite parse_loop_field by done. cbn [parse_loop]. change (beqb x20 x22) with false.
  change (beqb x22 x22) with true. cbn iota. by rewrite parse_loop_field.
Qed.

(** A text between quotes is not changed by [trim]. *)
Lemma chars_head b s : ∃ c cs, Str.chars (b :: s) = (b :: c) :: cs.
Proof. simpl. destruct (Str.chars s) as [|[|h c] cs]; [eauto..|]. destruct (Str.is_cont h); eauto. Qed.

Lemma chars_snoc s b : Str.is_cont b = false → Str.chars (s ++ [b]) = Str.chars s ++ [[b]].
Proof.
  intros Hb. induction s as [|a s IH]; [done|]. cbn [app Str.chars]. rewrite IH.
  destruct (Str.chars s) as [|[|h c] cs]; simpl; [by rewrite Hb|done|]. by destruct (Str.is_cont h).
Qed.

Lemma quote_not_blank c : Str.is_whitespace (x22 :: c) = false.
Proof. destruct c as [|b [|d [|]]]; [reflexivity..]. Qed.

Lemma trim_quoted s : Str.trim (x22 :: s ++ [x22]) = x22 :: s ++ [x22].
Proof.
  assert (Hs : Str.trim_start (x22 :: s ++ [x22]) = x22 :: s ++ [x22]).
  { unfold Str.trim_start. destruct (chars_head x22 (s ++ [x22])) as (c & cs & Hc).
    pose proof (Str.chars_concat (x22 :: s ++ [x22])) as Hcat.
    rewrite Hc in *. cbn [Str.skip_while]. by rewrite quote_not_blank. }
  unfold Str.trim. rewrite Hs. unfold Str.trim_end.
  rewrite app_comm_cons, chars_snoc, reverse_app by done. cbn [reverse app].
  change (reverse [[x22]]) with [[x22]]. cbn [app Str.skip_while].
  rewrite quote_not_blank. change ([x22] :: reverse (Str.chars (x22 :: s)))
    with (reverse [[x22]] ++ reverse (Str.chars (x22 :: s))).
  by rewrite <-reverse_app, reverse_involutive, concat_app, Str.chars_concat.
Qed.

Lemma user_line_quoted up : ∃ s, user_line up = x22 :: s ++ [x22].
Proof.
  exists (up.1 ++ [x22; x20; x22] ++ up.2). unfold user_line, quoted. simpl.
  by rewrite <-!app_assoc.
Qed.

Lemma lines_cons l rest : x0a ∉ l → lines (l ++ x0a :: rest) = strip_cr l :: lines rest.
Proof.
  intros Hl. unfold lines. rewrite Str.split_byte_word by done.
  destruct (Str.split_byte x0a rest) eqn:Hs; [by destruct (Str.split_byte_nonempty x0a rest)|done].
Qed.

Lemma plain_field_lf s : plain_field s = true → x0a ∉ s.
Proof.
  induction s as [|b s IH]; intros Hs; [by apply not_elem_of_nil|].
  apply plain_field_cons in Hs as (_ & Hn & Hs). apply not_elem_of_cons. split; auto.
Qed.

Lemma user_line_lf up :
  plain_field up.1 = true → plain_field up.2 = true → x0a ∉ user_line up.
Proof.
  intros H1%plain_field_lf H2%plain_field_lf. unfold user_line, quoted. set_solver.
Qed.


End FileAuth.
