(* ===== verification/CircuitBreaker.v ===== *)
(** * The circuit breaker (resilience/circuit_breaker.rs)

    The breaker's atomics are the fields of a record and each method is a
    function on it: the theorems are about calls that do not overlap (those that
    do are the subject of [Races]).  The wall clock is an argument, one reading per
    place where the code reads it.  Elapsed times are differences of [u64] seconds, which a clock that is set
    back makes underflow: a panic in a checked build, a huge elapsed time in a
    release build.

    Logging has no effect on the state and is left out; the health monitor is
    represented by the status it reports at the time of the call. *)

From S2P Require Import Prelude.

Module CB.

Inductive CircuitState : Type := Closed | Open | HalfOpen.
#[export] Instance CircuitState_eq_dec : EqDecision CircuitState.
Proof. solve_decision. Defined.

Definition state_code (s : CircuitState) : Z :=
  match s with Closed => 0 | Open => 1 | HalfOpen => 2 end.
(** [From<u8>]. *)
Definition from_u8 (value : Z) : CircuitState :=
  if value =? 0 then Closed else if value =? 1 then Open
  else if value =? 2 then HalfOpen else Closed.

Inductive HealthStatus : Type := Healthy | Degraded | Unhealthy.
#[export] Instance HealthStatus_eq_dec : EqDecision HealthStatus.
Proof. solve_decision. Defined.

Record CircuitBreakerConfig : Type := {
  enabled : bool;
  failure_threshold : Z;
  success_threshold : Z;
  window_secs : Z;
  open_timeout_secs : Z;
  use_health_monitor : bool
}.

Record CircuitBreaker : Type := mk {
  state : Z;
  consecutive_failures : Z;
  consecutive_successes : Z;
  failure_count_in_window : Z;
  requests_allowed : Z;
  requests_rejected : Z;
  window_start : Z;
  open_timestamp : Z;
  last_state_change : Z
}.

Definition new (now : Z) : CircuitBreaker := mk (state_code Closed) 0 0 0 0 0 now 0 now.

(** ** Stores *)
Definition store_state v b := mk v (consecutive_failures b) (consecutive_successes b)
  (failure_count_in_window b) (requests_allowed b) (requests_rejected b) (window_start b)
  (open_timestamp b) (last_state_change b).
Definition store_failures v b := mk (state b) v (consecutive_successes b)
  (failure_count_in_window b) (requests_allowed b) (requests_rejected b) (window_start b)
  (open_timestamp b) (last_state_change b).
Definition store_successes v b := mk (state b) (consecutive_failures b) v
  (failure_count_in_window b) (requests_allowed b) (requests_rejected b) (window_start b)
  (open_timestamp b) (last_state_change b).
Definition store_window_count v b := mk (state b) (consecutive_failures b)
  (consecutive_successes b) v (requests_allowed b) (requests_rejected b) (window_start b)
  (open_timestamp b) (last_state_change b).
Definition store_allowed v b := mk (state b) (consecutive_failures b) (consecutive_successes b)
  (failure_count_in_window b) v (requests_rejected b) (window_start b)
  (open_timestamp b) (last_state_change b).
Definition store_rejected v b := mk (state b) (consecutive_failures b) (consecutive_successes b)
  (failure_count_in_window b) (requests_allowed b) v (window_start b)
  (open_timestamp b) (last_state_change b).
Definition store_window_start v b := mk (state b) (consecutive_failures b)
  (consecutive_successes b) (failure_count_in_window b) (requests_allowed b)
  (requests_rejected b) v (open_timestamp b) (last_state_change b).
Definition store_open v b := mk (state b) (consecutive_failures b) (consecutive_successes b)
  (failure_count_in_window b) (requests_allowed b) (requests_rejected b) (window_start b)
  v (last_state_change b).
Definition store_change v b := mk (state b) (consecutive_failures b) (consecutive_successes b)
  (failure_count_in_window b) (requests_allowed b) (requests_rejected b) (window_start b)
  (open_timestamp b) v.

Definition add_allowed b := store_allowed (atomic_add two64 (requests_allowed b) 1) b.
Definition add_rejected b := store_rejected (atomic_add two64 (requests_rejected b) 1) b.
Definition add_window_count b :=
  store_window_count (atomic_add two32 (failure_count_in_window b) 1) b.

Definition get_state (b : CircuitBreaker) : CircuitState := from_u8 (state b).

(** ** Transitions *)
Definition transition_to_open (now : Z) (b : CircuitBreaker) : CircuitBreaker :=
  let b := store_state (state_code Open) b in
  let b := store_open now b in
  let b := store_change now b in
  store_successes 0 b.

Definition transition_to_closed (now : Z) (b : CircuitBreaker) : CircuitBreaker :=
  let b := store_state (state_code Closed) b in
  let b := store_change now b in
  let b := store_failures 0 b in
  store_successes 0 b.

Definition try_transition_to_half_open (now : Z) (b : CircuitBreaker) : bool * CircuitBreaker :=
  if state b =? state_code Open then
    let b := store_state (state_code HalfOpen) b in
    let b := store_change now b in
    (true, store_successes 0 b)
  else (false, b).

Section with_build.
Context `{Build} (config : CircuitBreakerConfig).

Definition reset_window_if_needed (now : Z) (b : CircuitBreaker) : outcome CircuitBreaker :=
  elapsed ← u64_sub now (window_start b);
  if window_secs config <=? elapsed
  then Ret (store_window_count 0 (store_window_start now b)) else Ret b.

(** ** Requests: [true] is [Ok(())], [false] is [CircuitOpen]. *)
Definition allow_request (now now' : Z) (b : CircuitBreaker) : outcome (bool * CircuitBreaker) :=
  if negb (enabled config) then Ret (true, b)
  else
    match get_state b with
    | Closed => Ret (true, add_allowed b)
    | Open =>
        elapsed ← u64_sub now (open_timestamp b);
        if open_timeout_secs config <=? elapsed then
          let '(won, b) := try_transition_to_half_open now' b in
          if won then Ret (true, add_allowed b) else Ret (false, add_rejected b)
        else Ret (false, add_rejected b)
    | HalfOpen =>
        if consecutive_successes b <? success_threshold config then Ret (true, add_allowed b)
        else Ret (true, add_allowed (transition_to_closed now' b))
    end.

Definition record_success (now : Z) (b : CircuitBreaker) : outcome CircuitBreaker :=
  if negb (enabled config) then Ret b
  else
    match get_state b with
    | Closed => Ret (store_failures 0 b)
    | HalfOpen =>
        successes ← u32_add (consecutive_successes b) 1;
        let b := store_successes (atomic_add two32 (consecutive_successes b) 1) b in
        if success_threshold config <=? successes then Ret (transition_to_closed now b) else Ret b
    | Open => Ret (transition_to_closed now b)
    end.

(** [monitor]: what the health monitor, if there is one, reports. *)
Definition record_failure (now now' : Z) (monitor : option HealthStatus) (b : CircuitBreaker)
    : outcome CircuitBreaker :=
  if negb (enabled config) then Ret b
  else
    b ← reset_window_if_needed now b;
    match get_state b with
    | Closed =>
        failures ← u32_add (consecutive_failures b) 1;
        let b := store_failures (atomic_add two32 (consecutive_failures b) 1) b in
        let b := add_window_count b in
        if failure_threshold config <=? failures then Ret (transition_to_open now' b)
        else if use_health_monitor config then
          if bool_decide (monitor = Some Unhealthy) then Ret (transition_to_open now' b) else Ret b
        else Ret b
    | HalfOpen => Ret (transition_to_open now' b)
    | Open => Ret (add_window_count b)
    end.
End with_build.

Definition report_health (healthy : bool) (now : Z) (b : CircuitBreaker) : CircuitBreaker :=
  match healthy, get_state b with
  | false, Open => b
  | false, _ => transition_to_open now b
  | true, Open => (try_transition_to_half_open now b).2
  | true, _ => b
  end.

(** [get_metrics], the state by name. *)
Record CircuitBreakerMetrics : Type := {
  m_state : bytes; m_consecutive_failures : Z; m_consecutive_successes : Z;
  m_failure_count_in_window : Z; m_requests_allowed : Z; m_requests_rejected : Z;
  m_last_state_change_secs : Z
}.
Definition as_str (s : CircuitState) : bytes :=
  match s with Closed => lit "closed" | Open => lit "open" | HalfOpen => lit "half_open" end.
Definition get_metrics (b : CircuitBreaker) : CircuitBreakerMetrics := {|
  m_state := as_str (get_state b); m_consecutive_failures := consecutive_failures b;
  m_consecutive_successes := consecutive_successes b;
  m_failure_count_in_window := failure_count_in_window b;
  m_requests_allowed := requests_allowed b; m_requests_rejected := requests_rejected b;
  m_last_state_change_secs := last_state_change b |}.

(** ** Calls as steps *)
Inductive op : Type :=
| Allow (now now' : Z)
| Success (now : Z)
| Failure (now now' : Z) (monitor : option HealthStatus)
| Health (healthy : bool) (now : Z).

Section steps.
Context `{Build} (config : CircuitBreakerConfig).

Definition call (b : CircuitBreaker) (o : op) : outcome CircuitBreaker :=
  match o with
  | Allow now now' => snd <$> allow_request config now now' b
  | Success now => record_success config now b
  | Failure now now' monitor => record_failure config now now' monitor b
  | Health healthy now => Ret (report_health healthy now b)
  end.

Inductive reachable (start : Z) : CircuitBreaker → Prop :=
| reachable_new : reachable start (new start)
| reachable_call b o b' : reachable start b → call b o = Ret b' → reachable start b'.

(** What holds between calls. *)
Record inv (b : CircuitBreaker) : Prop := {
  inv_code : state b = state_code (get_state b);
  inv_closed : get_state b = Closed → 0 ≤ consecutive_failures b < failure_threshold config;
  inv_half_open : get_state b = HalfOpen → 0 ≤ consecutive_successes b < success_threshold config;
  inv_open : get_state b ≠ HalfOpen → consecutive_successes b = 0;
  inv_failures : 0 ≤ consecutive_failures b < two32
}.
End steps.

(** ** Lemmas *)
Lemma from_state_code s : from_u8 (state_code s) = s.
Proof. by destruct s. Qed.

Section lemmas.
Context `{Build} (config : CircuitBreakerConfig).
Context (Hft : 1 ≤ failure_threshold config < two32).
Context (Hst : 1 ≤ success_threshold config < two32).
Implicit Types (b : CircuitBreaker).

Lemma to_open_inv now b :
  0 ≤ consecutive_failures b < two32 → inv config (transition_to_open now b).
Proof. intros. split; simpl; done. Qed.
Lemma closed_inv b :
  state b = state_code Closed → consecutive_successes b = 0 →
  0 ≤ consecutive_failures b < failure_threshold config → inv config b.
Proof.
  intros Hs Hc Hf. assert (Hg : get_state b = Closed) by (unfold get_state; by rewrite Hs).
  split; rewrite ?Hg; try done. lia.
Qed.
Lemma to_closed_inv now b : inv config (transition_to_closed now b).
Proof. unfold two32 in *. split; simpl; try done; lia. Qed.
Lemma to_half_open_inv now b : inv config b → inv config (try_transition_to_half_open now b).2.
Proof.
  intros Hi. unfold try_transition_to_half_open. case_match; [|done].
  destruct Hi. split; simpl; try done. intros _. lia.
Qed.

(** Counters that the invariant does not mention. *)
Lemma inv_counters b b' :
  state b' = state b → consecutive_failures b' = consecutive_failures b →
  consecutive_successes b' = consecutive_successes b → inv config b → inv config b'.
Proof.
  intros Hs Hf Hc []. assert (get_state b' = get_state b) as Hg by (unfold get_state; by rewrite Hs).
  split; rewrite ?Hg, ?Hs, ?Hf, ?Hc; done.
Qed.

Lemma reset_window_same now b b' :
  reset_window_if_needed config now b = Ret b' →
  state b' = state b ∧ consecutive_failures b' = consecutive_failures b ∧
  consecutive_successes b' = consecutive_successes b ∧ open_timestamp b' = open_timestamp b ∧
  requests_allowed b' = requests_allowed b ∧ requests_rejected b' = requests_rejected b.
Proof.
  unfold reset_window_if_needed. intros (e & _ & Hr)%outcome_bind_Ret.
  case_match; injection Hr as <-; done.
Qed.

Lemma allow_request_inv now now' b r b' :
  inv config b → allow_request config now now' b = Ret (r, b') → inv config b'.
Proof.
  intros Hi. unfold allow_request. case_match; [by intros [= <- <-]|].
  destruct (get_state b) eqn:Hg.
  - intros [= <- <-]. by apply (inv_counters b).
  - intros (e & _ & Hr)%outcome_bind_Ret. case_match.
    + pose proof (to_half_open_inv now' b Hi) as Hh.
      destruct (try_transition_to_half_open now' b) as [[] b1]; injection Hr as <- <-;
        by apply (inv_counters b1).
    + injection Hr as <- <-. by apply (inv_counters b).
  - case_match; intros [= <- <-].
    + by apply (inv_counters b).
    + by apply (inv_counters (transition_to_closed now' b)); [..|apply to_closed_inv].
Qed.

Lemma record_success_inv now b b' :
  inv config b → record_success config now b = Ret b' → inv config b'.
Proof.
  intros Hi. unfold record_success. case_match; [by intros [= <-]|].
  destruct (get_state b) eqn:Hg.
  - intros [= <-]. destruct Hi. unfold two32 in *. split; try done; simpl; lia.
  - intros [= <-]. apply to_closed_inv.
  - intros (n & Hn & Hr)%outcome_bind_Ret.
    pose proof (inv_half_open _ _ Hi Hg) as Hc.
    rewrite u32_add_fits in Hn by (unfold two32 in *; lia). injection Hn as <-.
    case_match; injection Hr as <-; [apply to_closed_inv|]. bool_to_Z.
    destruct Hi. unfold atomic_add. rewrite Z.mod_small by (unfold two32 in *; lia).
    split; try done; simpl; lia.
Qed.

Lemma record_failure_inv now now' m b b' :
  inv config b → record_failure config now now' m b = Ret b' → inv config b'.
Proof.
  intros Hi. unfold record_failure. case_match; [by intros [= <-]|].
  intros (b1 & Hw & Hr)%outcome_bind_Ret.
  apply reset_window_same in Hw as (Hs & Hf & Hc & _).
  assert (Hi1 : inv config b1) by (by apply (inv_counters b)). clear Hi.
  destruct (get_state b1) eqn:Hg.
  - apply outcome_bind_Ret in Hr as (n & Hn & Hr).
    pose proof (inv_closed _ _ Hi1 Hg) as Hcf.
    rewrite u32_add_fits in Hn by (unfold two32 in *; lia). injection Hn as <-.
    assert (Ha : atomic_add two32 (consecutive_failures b1) 1 = consecutive_failures b1 + 1)
      by (unfold atomic_add; apply Z.mod_small; unfold two32 in *; lia).
    rewrite Ha in Hr.
    assert (Hi2 : consecutive_failures b1 + 1 ≤ failure_threshold config) by lia.
    destruct Hi1 as [Hcode _ _ Hop _]. rewrite Hg in Hcode.
    repeat case_match; injection Hr as <-; bool_to_Z;
      first [apply to_open_inv; simpl; lia
            | apply closed_inv; [done|apply Hop; congruence|simpl; lia]].
  - injection Hr as <-. by apply (inv_counters b1).
  - injection Hr as <-. apply to_open_inv, Hi1.
Qed.

Lemma report_health_inv h now b : inv config b → inv config (report_health h now b).
Proof.
  intros Hi. unfold report_health. destruct h, (get_state b);
    auto using to_half_open_inv; apply to_open_inv, Hi.
Qed.

Lemma call_inv b o b' : inv config b → call config b o = Ret b' → inv config b'.
Proof.
  intros Hi. destruct o; simpl.
  - destruct (allow_request config now now' b) as [[r b1]| |] eqn:Ha; simpl; [|done..].
    intros [= <-]. by eapply allow_request_inv.
  - by apply record_success_inv.
  - by apply record_failure_inv.
  - intros [= <-]. by apply report_health_inv.
Qed.
End lemmas.

(** ** Histories *)
Section histories.
Context `{Build} (config : CircuitBreakerConfig).

Definition run : CircuitBreaker → list op → outcome CircuitBreaker := ofoldl (call config).

(** How many failures the history ends with, successes resetting the count. *)
Definition trailing (ops : list op) : Z :=
  foldl (λ n o, match o with Failure _ _ _ => n + 1 | Success _ => 0 | _ => n end) 0 ops.

(** A history of requests and results whose clock does not go back from [t],
    without a monitor that reports the backend unhealthy. *)
Inductive calm : Z → list op → Prop :=
| calm_nil t : calm t []
| calm_allow t now now' ops : calm t ops → calm t (Allow now now' :: ops)
| calm_success t now ops : calm t ops → calm t (Success now :: ops)
| calm_failure t now now' m ops :
    t ≤ now < two64 → m ≠ Some Unhealthy → calm now ops → calm t (Failure now now' m :: ops).

Definition requests (ops : list op) : Z :=
  foldl (λ n o, match o with Allow _ _ => n + 1 | _ => n end) 0 ops.

Lemma trailing_snoc ops o :
  trailing (ops ++ [o])
  = match o with Failure _ _ _ => trailing ops + 1 | Success _ => 0 | _ => trailing ops end.
Proof. unfold trailing. by rewrite foldl_snoc. Qed.
Lemma requests_snoc ops o :
  requests (ops ++ [o]) = match o with Allow _ _ => requests ops + 1 | _ => requests ops end.
Proof. unfold requests. by rewrite foldl_snoc. Qed.

Lemma breaker_run_snoc b ops o : run b (ops ++ [o]) = (b' ← run b ops; call config b' o).
Proof.
  unfold run. rewrite ofoldl_app. destruct (ofoldl _ b ops) as [b'| |]; simpl; try done.
  by destruct (call config b' o).
Qed.

(** Where the window starts when the history is over. *)
Definition last_time (t : Z) (ops : list op) : Z :=
  foldl (λ t o, match o with Failure now _ _ => now | _ => t end) t ops.

Lemma calm_snoc_inv t ops o :
  calm t (ops ++ [o]) →
  calm t ops ∧ match o with
               | Failure now _ m => last_time t ops ≤ now < two64 ∧ m ≠ Some Unhealthy
               | Health _ _ => False
               | _ => True
               end.
Proof.
  revert t; induction ops as [|o' ops IH]; intros t Hc; simpl in Hc.
  - split; [constructor|]. inversion Hc; subst; done.
  - inversion Hc as [| | |? ? ? ? ? ? ? Hc']; subst;
      match goal with Hx : calm _ (ops ++ [o]) |- _ => apply IH in Hx as [? ?] end;
      (split; [by constructor|done]).
Qed.

Lemma last_time_ge t ops : calm t ops → t ≤ last_time t ops.
Proof.
  induction 1; simpl; try done. unfold last_time in *. simpl. lia.
Qed.

(** The start of a failure: the window is renewed or kept. *)
Lemma reset_window_ok now b :
  0 ≤ window_start b ≤ now → now < two64 →
  ∃ b1, reset_window_if_needed config now b = Ret b1 ∧ get_state b1 = get_state b ∧
        consecutive_failures b1 = consecutive_failures b ∧ 0 ≤ window_start b1 ≤ now.
Proof.
  intros Hw Hn. unfold reset_window_if_needed.
  rewrite u64_sub_fits by (unfold two64 in *; lia). cbn [mbind outcome_bind].
  case_match; eexists; (split; [done|]); simpl; split_and!; done || lia.
Qed.

Lemma record_failure_counts now now' m b :
  enabled config = true → failure_threshold config < two32 →
  get_state b = Closed → 0 ≤ window_start b ≤ now → now < two64 →
  0 ≤ consecutive_failures b → consecutive_failures b + 1 < failure_threshold config →
  m ≠ Some Unhealthy →
  ∃ b', record_failure config now now' m b = Ret b' ∧ get_state b' = Closed ∧
        consecutive_failures b' = consecutive_failures b + 1 ∧ 0 ≤ window_start b' ≤ now.
Proof.
  intros Hen Hft Hg Hw Hn Hf0 Hf Hm.
  destruct (reset_window_ok now b Hw Hn) as (b1 & Hr & Hg1 & Hf1 & Hw1).
  unfold record_failure. rewrite Hen, Hr. cbn [negb mbind outcome_bind]. rewrite Hg1, Hg, Hf1.
  rewrite u32_add_fits by (unfold two32 in *; lia). cbn [mbind outcome_bind].
  rewrite (proj2 (Z.leb_gt _ _)) by lia. rewrite bool_decide_false by done.
  unfold atomic_add at 1 2. rewrite Z.mod_small by (unfold two32 in *; lia).
  destruct (use_health_monitor config); eexists; (split; [done|]); simpl;
    (split; [unfold get_state in *; simpl; congruence|done]).
Qed.

Lemma record_failure_trips now now' m b :
  enabled config = true → failure_threshold config < two32 →
  get_state b = Closed → 0 ≤ window_start b ≤ now → now < two64 →
  0 ≤ consecutive_failures b → failure_threshold config = consecutive_failures b + 1 →
  ∃ b', record_failure config now now' m b = Ret b' ∧ get_state b' = Open ∧
        open_timestamp b' = now' ∧ consecutive_successes b' = 0.
Proof.
  intros Hen Hft Hg Hw Hn Hf0 Hf.
  destruct (reset_window_ok now b Hw Hn) as (b1 & Hr & Hg1 & Hf1 & Hw1).
  unfold record_failure. rewrite Hen, Hr. cbn [negb mbind outcome_bind]. rewrite Hg1, Hg, Hf1.
  rewrite u32_add_fits by (unfold two32 in *; lia). cbn [mbind outcome_bind].
  rewrite (proj2 (Z.leb_le _ _)) by lia. by eexists.
Qed.

(** While the breaker stays closed it counts the trailing failures. *)
Lemma closed_history start ops :
  enabled config = true → 1 ≤ failure_threshold config < two32 →
  0 ≤ start → calm start ops →
  (∀ pre suf, ops = pre ++ suf → trailing pre < failure_threshold config) →
  ∃ b, run (new start) ops = Ret b ∧ get_state b = Closed ∧
       consecutive_failures b = trailing ops ∧ 0 ≤ trailing ops ∧
       0 ≤ window_start b ≤ last_time start ops.
Proof.
  intros Hen Hft Hs. induction ops as [|o ops IH] using rev_ind; intros Hc Hpre.
  - exists (new start). simpl. unfold trailing, last_time. simpl. split_and!; done || lia.
  - apply calm_snoc_inv in Hc as [Hc Ho].
    destruct (IH Hc) as (b & Hrun & Hg & Hf & Htr & Hw).
    { intros pre suf ->. apply (Hpre pre (suf ++ [o])). by rewrite app_assoc. }
    rewrite breaker_run_snoc, Hrun, trailing_snoc. cbn [mbind outcome_bind].
    specialize (Hpre (ops ++ [o]) [] (eq_sym (app_nil_r _))). rewrite trailing_snoc in Hpre.
    unfold last_time in *. rewrite foldl_snoc. destruct o as [now now'|now|now now' m|]; [| | |done].
    + simpl. unfold allow_request. rewrite Hen, Hg. simpl. eauto 10.
    + simpl. unfold record_success. rewrite Hen, Hg. simpl. exists (store_failures 0 b).
      split_and!; first [done | exact Hg | simpl; lia].
    + destruct Ho as [Ht Hm].
      destruct (record_failure_counts now now' m b) as (b' & Hr & Hg' & Hf' & Hw');
        [done|lia|done|lia..|done|].
      exists b'. simpl. rewrite Hr, Hf'. split_and!; done || lia.
Qed.
End histories.

(** ** Properties *)

(** In every state reachable by whole calls the breaker is in one of its
    three states, closed with fewer consecutive failures than the threshold,
    half open with fewer successes than the threshold, and without successes
    otherwise. *)
Lemma breaker_invariant `{Build} config start b :
  1 ≤ failure_threshold config < two32 → 1 ≤ success_threshold config < two32 →
  reachable config start b → inv config b.
Proof.
  intros Hft Hst. induction 1 as [|b o b' _ IH Hc]; [|by eapply call_inv].
  apply closed_inv; [done..|simpl; lia].
Qed.

(** The breaker opens exactly when the consecutive failures reach the
    threshold: through any history of requests, successes and failures it stays
    closed as long as no prefix ends in that many failures, and the failure
    that completes them opens it, stamped with the time. *)
Lemma breaker_trips_at_threshold `{Build} config start ops now now' m :
  enabled config = true → 1 ≤ failure_threshold config < two32 → 0 ≤ start →
  calm start (ops ++ [Failure now now' m]) →
  (∀ pre suf, ops = pre ++ suf → trailing pre < failure_threshold config) →
  ∃ b b', run config (new start) ops = Ret b ∧ get_state b = Closed ∧
    run config (new start) (ops ++ [Failure now now' m]) = Ret b' ∧
    (trailing (ops ++ [Failure now now' m]) < failure_threshold config → get_state b' = Closed) ∧
    (trailing (ops ++ [Failure now now' m]) = failure_threshold config →
       get_state b' = Open ∧ open_timestamp b' = now').
Proof.
  intros Hen Hft Hs Hc Hpre. apply calm_snoc_inv in Hc as [Hc [Ht Hm]].
  destruct (closed_history config start ops) as (b & Hrun & Hg & Hf & Htr & Hw); [done..|].
  exists b. rewrite breaker_run_snoc, trailing_snoc, Hrun. cbn [mbind outcome_bind call].
  assert (trailing ops < failure_threshold config) as Hlt by (apply (Hpre ops []); by rewrite app_nil_r).
  destruct (decide (trailing ops + 1 = failure_threshold config)) as [He|He].
  - destruct (record_failure_trips config now now' m b) as (b' & -> & Hg' & Ho & _);
      [done|lia|done|lia..|]. exists b'. split_and!; try done; lia.
  - destruct (record_failure_counts config now now' m b) as (b' & -> & Hg' & _);
      [done|lia|done|lia..|done|]. exists b'. split_and!; try done; lia.
Qed.

(** An open breaker fails fast: before its timeout has passed every
    request is rejected and nothing but the count of rejections changes; after
    it, the next request is admitted and the breaker is half open. *)
Lemma open_breaker_fails_fast `{Build} config b now now' :
  enabled config = true → state b = state_code Open →
  0 ≤ open_timestamp b ≤ now → now < two64 →
  allow_request config now now' b =
    if now - open_timestamp b <? open_timeout_secs config then Ret (false, add_rejected b)
    else Ret (true, add_allowed (try_transition_to_half_open now' b).2).
Proof.
  intros Hen Hs Ht Hn. unfold allow_request, get_state. rewrite Hen, Hs. cbn [negb].
  change (from_u8 (state_code Open)) with Open. cbn iota.
  rewrite u64_sub_fits by (unfold two64 in *; lia). cbn [mbind outcome_bind].
  rewrite Z.leb_antisym. destruct (Z.ltb_spec (now - open_timestamp b) (open_timeout_secs config));
    cbn [negb]; [done|].
  unfold try_transition_to_half_open. by rewrite Hs.
Qed.

Lemma half_open_successes `{Build} config (n : nat) (nows : list Z) b :
  enabled config = true → 1 ≤ success_threshold config < two32 → get_state b = HalfOpen →
  0 ≤ consecutive_successes b → length nows = n → 1 ≤ Z.of_nat n →
  consecutive_successes b + Z.of_nat n = success_threshold config →
  ∃ b', run config b (Success <$> nows) = Ret b' ∧ get_state b' = Closed ∧
        consecutive_failures b' = 0 ∧ consecutive_successes b' = 0.
Proof.
  intros Hen Hst. revert b nows; induction n as [|n IH]; intros b nows Hg Hc Hl Hn1 Hn; [lia|].
  destruct nows as [|now nows]; [done|]. rewrite fmap_cons. unfold run. cbn [ofoldl call].
  unfold record_success at 1. rewrite Hen, Hg. cbn [negb].
  rewrite u32_add_fits by (unfold two32 in *; lia). cbn [mbind outcome_bind].
  unfold atomic_add. rewrite Z.mod_small by (unfold two32 in *; lia).
  destruct n as [|n].
  - destruct nows; [|done]. rewrite (proj2 (Z.leb_le _ _)) by lia. cbn. by eexists.
  - rewrite (proj2 (Z.leb_gt _ _)) by lia. cbn [mbind outcome_bind]. apply IH; simpl; try done; try lia.
    simpl in Hl. lia.
Qed.

(** Recovery: once the timeout has passed, one admitted request and
    [success_threshold] successes close the breaker with its counters reset;
    but any failure while it is half open opens it again. *)
Lemma breaker_recovers `{Build} config b now now' nows :
  enabled config = true → 1 ≤ success_threshold config < two32 →
  state b = state_code Open → 0 ≤ open_timestamp b ≤ now → now < two64 →
  open_timeout_secs config ≤ now - open_timestamp b →
  Z.of_nat (length nows) = success_threshold config →
  (∃ b', run config b (Allow now now' :: (Success <$> nows)) = Ret b' ∧ get_state b' = Closed ∧
         consecutive_failures b' = 0 ∧ consecutive_successes b' = 0) ∧
  (∀ b1 t t' m, get_state b1 = HalfOpen → 0 ≤ window_start b1 ≤ t → t < two64 →
     ∃ b2, record_failure config t t' m b1 = Ret b2 ∧ get_state b2 = Open).
Proof.
  intros Hen Hst Hs Ht Hn Hto Hl. split.
  - unfold run. cbn [ofoldl call]. unfold allow_request, get_state. rewrite Hen, Hs. cbn [negb].
    change (from_u8 (state_code Open)) with Open. cbn iota.
    rewrite u64_sub_fits by (unfold two64 in *; lia). cbn [mbind outcome_bind].
    rewrite (proj2 (Z.leb_le _ _)) by lia.
    unfold try_transition_to_half_open. rewrite Hs. cbn [fmap outcome_fmap mbind outcome_bind snd].
    change (state_code Open =? state_code Open) with true. cbn iota.
    apply (half_open_successes config (length nows)); simpl; try done; lia.
  - intros b1 t t' m Hg Hw Htt.
    destruct (reset_window_ok config t b1 Hw Htt) as (b2 & Hr & Hg2 & _).
    unfold record_failure. rewrite Hen, Hr. cbn [negb mbind outcome_bind]. rewrite Hg2, Hg.
    by eexists.
Qed.

Lemma call_counts `{Build} config b o b' :
  enabled config = true → call config b o = Ret b' →
  (requests_allowed b' + requests_rejected b') mod two64
  = (requests_allowed b + requests_rejected b + match o with Allow _ _ => 1 | _ => 0 end) mod two64.
Proof.
  intros Hen. destruct o as [now now'|now|now now' m|h now]; simpl.
  - assert (Ha : ∀ a r, (atomic_add two64 a 1 + r) mod two64 = (a + r + 1) mod two64).
    { intros a r. unfold atomic_add. rewrite Z.add_mod_idemp_l by done. f_equal. lia. }
    assert (Hr : ∀ a r, (a + atomic_add two64 r 1) mod two64 = (a + r + 1) mod two64).
    { intros a r. unfold atomic_add. rewrite Z.add_mod_idemp_r by done. f_equal. lia. }
    unfold allow_request. rewrite Hen. cbn [negb]. destruct (get_state b).
    + intros [= <-]. apply Ha.
    + destruct (u64_sub _ _); simpl; [|done..]. unfold try_transition_to_half_open.
      repeat case_match; simplify_eq/=; intros [= <-]; (apply Ha || apply Hr).
    + case_match; intros [= <-]; apply Ha.
  - rewrite Z.add_0_r. unfold record_success. rewrite Hen. cbn [negb].
    destruct (get_state b); [by intros [= <-]..|]. destruct (u32_add _ _); simpl; [|done..].
    case_match; by intros [= <-].
  - rewrite Z.add_0_r. unfold record_failure. rewrite Hen. cbn [negb].
    intros (b1 & Hw & Hr)%outcome_bind_Ret.
    apply reset_window_same in Hw as (_ & _ & _ & _ & <- & <-).
    destruct (get_state b1); [|by injection Hr as <-..].
    destruct (u32_add _ _); simpl in Hr; [|done..]. repeat case_match; by injection Hr as <-.
  - rewrite Z.add_0_r. intros [= <-]. unfold report_health, try_transition_to_half_open.
    by destruct h, (get_state b); repeat case_match.
Qed.

(** Every request is counted once, as allowed or as rejected (the two
    counters wrap at 2^64). *)
Lemma requests_accounted `{Build} config start ops b :
  enabled config = true → run config (new start) ops = Ret b →
  (requests_allowed b + requests_rejected b) mod two64 = requests ops mod two64.
Proof.
  intros Hen. revert b; induction ops as [|o ops IH] using rev_ind; intros b; [by intros [= <-]|].
  rewrite breaker_run_snoc. intros (b1 & Hb1 & Hc)%outcome_bind_Ret.
  rewrite (call_counts config b1 o b Hen Hc), <-Z.add_mod_idemp_l, (IH b1 Hb1), requests_snoc by done.
  rewrite Z.add_mod_idemp_l by done. destruct o; f_equal; lia.
Qed.

(** A half-open breaker never rejects: it admits every request, however
    many are in flight. *)
Lemma half_open_admits_all `{Build} config b now now' :
  get_state b = HalfOpen → ∃ b', allow_request config now now' b = Ret (true, b').
Proof.
  intros Hg. unfold allow_request. rewrite Hg. destruct (negb _); [eauto|]. case_match; eauto.
Qed.

(** ** Concrete runs *)
Definition demo_config : CircuitBreakerConfig := {|
  enabled := true; failure_threshold := 3; success_threshold := 2; window_secs := 60;
  open_timeout_secs := 30; use_health_monitor := false |}.
Definition demo_open : CircuitBreaker := transition_to_open 100 (new 10).

(** A clock that is set back by a second: the elapsed time underflows.  The
    release build sees a huge elapsed time and admits the request at once. *)
Example clock_set_back :
  allow_request (H := debug_build) demo_config 99 99 demo_open = Panic ∧
  fst <$> allow_request (H := release_build) demo_config 99 99 demo_open = Ret true.
Proof. vm_compute. done. Qed.

(** A disabled breaker is still opened by an unhealthy probe. *)
Example disabled_breaker_opened_by_probe :
  get_state (report_health false 20 (new 10)) = Open.
Proof. reflexivity. Qed.
End CB.
