(* ===== verification/Races.v ===== *)
(** * The circuit breaker under concurrency (resilience/circuit_breaker.rs)

    [CircuitBreaker] takes a method for one step.  Here every access to an atomic
    is a step of its own: a method is a program over loads, stores, additions and
    compare-exchanges, and calls of any number of threads interleave between any
    two accesses.  Run alone, a program is the function of [CircuitBreaker].

    The accesses are interleaved in one order that all threads see; the orderings
    of the code are relaxed, which also allows a thread to see stores to different
    atomics out of order.  What is found wrong here is therefore wrong there. *)

From S2P Require Import Prelude CircuitBreaker.

Module Races.
Import CB.

(** ** Programs *)
Inductive field : Type :=
| FState | FFailures | FSuccesses | FWindowCount | FAllowed | FRejected | FWindowStart | FOpened | FChanged.
#[export] Instance field_eq_dec : EqDecision field.
Proof. solve_decision. Defined.

Definition get_field (f : field) (b : CircuitBreaker) : Z :=
  match f with
  | FState => state b | FFailures => consecutive_failures b | FSuccesses => consecutive_successes b
  | FWindowCount => failure_count_in_window b | FAllowed => requests_allowed b
  | FRejected => requests_rejected b | FWindowStart => window_start b | FOpened => open_timestamp b
  | FChanged => last_state_change b
  end.
Definition set_field (f : field) (v : Z) (b : CircuitBreaker) : CircuitBreaker :=
  match f with
  | FState => store_state v b | FFailures => store_failures v b | FSuccesses => store_successes v b
  | FWindowCount => store_window_count v b | FAllowed => store_allowed v b
  | FRejected => store_rejected v b | FWindowStart => store_window_start v b | FOpened => store_open v b
  | FChanged => store_change v b
  end.
(** The range of an atomic. *)
Definition modulus (f : field) : Z :=
  match f with FState => 256 | FFailures | FSuccesses | FWindowCount => two32 | _ => two64 end.

(** A method in progress: [Clock] reads the wall clock, [Monitor] asks the health
    monitor, [FetchAdd] adds one and gives the old value, [Crash] is a panic. *)
Inductive prog : Type :=
| Done (r : bool)
| Crash
| Clock (k : Z → prog)
| Monitor (k : option HealthStatus → prog)
| Load (f : field) (k : Z → prog)
| Store (f : field) (v : Z) (k : prog)
| FetchAdd (f : field) (k : Z → prog)
| CompareExchange (f : field) (old new : Z) (k : bool → prog).

(** *** The methods, as they access the atomics *)
Definition get_state_then (k : CircuitState → prog) : prog := Load FState (λ v, k (from_u8 v)).

Definition transition_to_open (k : prog) : prog :=
  Store FState (state_code Open) (Clock (λ now,
  Store FOpened now (Store FChanged now (Store FSuccesses 0 k)))).

Definition transition_to_closed (k : prog) : prog :=
  Store FState (state_code Closed) (Clock (λ now,
  Store FChanged now (Store FFailures 0 (Store FSuccesses 0 k)))).

Definition try_transition_to_half_open (k : bool → prog) : prog :=
  CompareExchange FState (state_code Open) (state_code HalfOpen) (λ won,
  if won then Clock (λ now, Store FChanged now (Store FSuccesses 0 (k true))) else k false).

(** An [outcome] of arithmetic in the course of a method. *)
Definition checked (o : outcome Z) (k : Z → prog) : prog :=
  match o with Ret z => k z | _ => Crash end.

Section methods.
Context `{Build} (config : CircuitBreakerConfig).

Definition reset_window_if_needed (k : prog) : prog :=
  Clock (λ now, Load FWindowStart (λ start,
  checked (u64_sub now start) (λ elapsed,
  if window_secs config <=? elapsed then Store FWindowStart now (Store FWindowCount 0 k) else k))).

Definition allow : prog := FetchAdd FAllowed (λ _, Done true).
Definition reject : prog := FetchAdd FRejected (λ _, Done false).

Definition allow_request : prog :=
  if negb (enabled config) then Done true
  else get_state_then (λ s,
    match s with
    | Closed => allow
    | Open =>
        Clock (λ now, Load FOpened (λ open_ts,
        checked (u64_sub now open_ts) (λ elapsed,
        if open_timeout_secs config <=? elapsed
        then try_transition_to_half_open (λ won, if won then allow else reject)
        else reject)))
    | HalfOpen =>
        Load FSuccesses (λ successes,
        if successes <? success_threshold config then allow else transition_to_closed allow)
    end).

Definition record_success : prog :=
  if negb (enabled config) then Done true
  else get_state_then (λ s,
    match s with
    | Closed => Store FFailures 0 (Done true)
    | HalfOpen =>
        FetchAdd FSuccesses (λ old, checked (u32_add old 1) (λ successes,
        if success_threshold config <=? successes then transition_to_closed (Done true) else Done true))
    | Open => transition_to_closed (Done true)
    end).

Definition count_failure : prog :=
  get_state_then (λ s,
    match s with
    | Closed =>
        FetchAdd FFailures (λ old, checked (u32_add old 1) (λ failures,
        FetchAdd FWindowCount (λ _,
        if failure_threshold config <=? failures then transition_to_open (Done true)
        else if use_health_monitor config then
          Monitor (λ m, if bool_decide (m = Some Unhealthy) then transition_to_open (Done true) else Done true)
        else Done true)))
    | HalfOpen => transition_to_open (Done true)
    | Open => FetchAdd FWindowCount (λ _, Done true)
    end).
Definition record_failure : prog :=
  if negb (enabled config) then Done true else reset_window_if_needed count_failure.

Definition report_health (healthy : bool) : prog :=
  get_state_then (λ s,
    match healthy, s with
    | false, Open => Done true
    | false, _ => transition_to_open (Done true)
    | true, Open => try_transition_to_half_open (λ _, Done true)
    | true, _ => Done true
    end).

(** *** Calls *)
Inductive method : Type := MAllow | MSuccess | MFailure | MHealth (healthy : bool).
Definition body (m : method) : prog :=
  match m with
  | MAllow => allow_request
  | MSuccess => record_success
  | MFailure => record_failure
  | MHealth healthy => report_health healthy
  end.
End methods.

(** ** A call that runs alone

    [clock] are the readings of the clock, in order. *)
Fixpoint exec (p : prog) (clock : list Z) (m : option HealthStatus) (b : CircuitBreaker)
    : outcome (bool * CircuitBreaker) :=
  match p with
  | Done r => Ret (r, b)
  | Crash => Panic
  | Clock k => match clock with now :: clock => exec (k now) clock m b | [] => Diverge end
  | Monitor k => exec (k m) clock m b
  | Load f k => exec (k (get_field f b)) clock m b
  | Store f v k => exec k clock m (set_field f v b)
  | FetchAdd f k =>
      exec (k (get_field f b)) clock m (set_field f (atomic_add (modulus f) (get_field f b) 1) b)
  | CompareExchange f old new k =>
      if get_field f b =? old then exec (k true) clock m (set_field f new b) else exec (k false) clock m b
  end.

(** What [call] answers, and the readings of the clock it uses. *)
Definition call_alone `{Build} (config : CircuitBreakerConfig) (o : op) (b : CircuitBreaker)
    : outcome (bool * CircuitBreaker) :=
  match o with
  | Allow now now' => CB.allow_request config now now' b
  | _ => b ← call config b o; Ret (true, b)
  end.
Definition readings (o : op) (b : CircuitBreaker) : list Z :=
  match o with
  | Allow now now' => match get_state b with HalfOpen => [now'] | _ => [now; now'] end
  | Success now | Health _ now => [now]
  | Failure now now' _ => [now; now']
  end.
Definition method_of (o : op) : method :=
  match o with
  | Allow _ _ => MAllow | Success _ => MSuccess | Failure _ _ _ => MFailure | Health h _ => MHealth h
  end.
Definition monitor_of (o : op) : option HealthStatus :=
  match o with Failure _ _ m => m | _ => None end.

(** Arithmetic gives a number or panics. *)
Lemma u64_sub_cases `{Build} a b : (∃ z, u64_sub a b = Ret z) ∨ u64_sub a b = Panic.
Proof. unfold u64_sub, wrap_or_panic. repeat case_match; eauto. Qed.
Lemma u32_add_cases `{Build} a b : (∃ z, u32_add a b = Ret z) ∨ u32_add a b = Panic.
Proof. unfold u32_add, wrap_or_panic. repeat case_match; eauto. Qed.

(** The rest of [record_failure], on the breaker the window has been reset in. *)
Lemma failure_alone `{Build} config now' m b :
  exec (count_failure config) [now'] m b
  = (b ← match get_state b with
         | Closed =>
             failures ← u32_add (consecutive_failures b) 1;
             let b := store_failures (atomic_add two32 (consecutive_failures b) 1) b in
             let b := add_window_count b in
             if failure_threshold config <=? failures then Ret (CB.transition_to_open now' b)
             else if use_health_monitor config then
               if bool_decide (m = Some Unhealthy) then Ret (CB.transition_to_open now' b) else Ret b
             else Ret b
         | HalfOpen => Ret (CB.transition_to_open now' b)
         | Open => Ret (add_window_count b)
         end; Ret (true, b)).
Proof.
  unfold count_failure, get_state_then. cbn [exec get_field]. fold (get_state b). destruct (get_state b); [|done..].
  cbn [exec get_field]. destruct (u32_add_cases (consecutive_failures b) 1) as [[n ->]| ->]; [|done].
  cbn [checked mbind outcome_bind exec]. destruct (failure_threshold config <=? n); [done|].
  destruct (use_health_monitor config); [|done]. cbn [exec]. by destruct (bool_decide (m = Some Unhealthy)).
Qed.

(** A method that is not interrupted is the function of [CircuitBreaker]. *)
Lemma alone_as_called `{Build} config o b :
  exec (body config (method_of o)) (readings o b) (monitor_of o) b = call_alone config o b.
Proof.
  destruct o as [now now'|now|now now' m|h now]; cbn [method_of body readings monitor_of call_alone call].
  - unfold allow_request, CB.allow_request. destruct (negb (enabled config)); [done|].
    unfold get_state_then. cbn [exec get_field]. fold (get_state b). destruct (get_state b) eqn:Hs; [done|..].
    + cbn [exec get_field]. destruct (u64_sub_cases now (open_timestamp b)) as [[e ->]| ->]; [|done]. cbn [checked mbind outcome_bind].
      destruct (open_timeout_secs config <=? e); [|done].
      unfold try_transition_to_half_open, CB.try_transition_to_half_open. cbn [exec get_field].
      destruct (state b =? state_code Open); done.
    + cbn [exec get_field]. destruct (consecutive_successes b <? success_threshold config); done.
  - unfold record_success, CB.record_success. destruct (negb (enabled config)); [done|].
    unfold get_state_then. cbn [exec get_field]. fold (get_state b). destruct (get_state b); [done..|].
    cbn [exec get_field]. destruct (u32_add_cases (consecutive_successes b) 1) as [[n ->]| ->]; [|done].
    cbn [checked mbind outcome_bind]. destruct (success_threshold config <=? n); done.
  - unfold record_failure, CB.record_failure. destruct (negb (enabled config)); [done|].
    unfold reset_window_if_needed, CB.reset_window_if_needed. cbn [exec get_field].
    destruct (u64_sub_cases now (window_start b)) as [[e ->]| ->]; [|done]. cbn [checked mbind outcome_bind].
    destruct (window_secs config <=? e); cbn [exec set_field]; apply failure_alone.
  - unfold report_health, CB.report_health, get_state_then. cbn [exec get_field]. fold (get_state b).
    destruct h, (get_state b); try done.
    unfold try_transition_to_half_open, CB.try_transition_to_half_open. cbn [exec get_field].
    destruct (state b =? state_code Open); done.
Qed.

(** ** Calls that overlap

    A call in progress also remembers, for the theorems, the counter of requests it
    has incremented and the number of its steps. *)
Record thread : Type := {
  t_method : method; t_prog : prog; t_counted : option bool; t_steps : nat
}.
Record system : Type := { shared : CircuitBreaker; threads : gmap Z thread }.

Inductive access : Type :=
| ALocal
| ALoad (f : field)
| AStore (f : field) (v : Z)
| AAdd (f : field)
| ACompareExchange (f : field) (v : Z) (won : bool).

(** One access. *)
Definition act (now : Z) (m : option HealthStatus) (p : prog) (b : CircuitBreaker)
    : option (access * prog * CircuitBreaker) :=
  match p with
  | Done _ | Crash => None
  | Clock k => Some (ALocal, k now, b)
  | Monitor k => Some (ALocal, k m, b)
  | Load f k => Some (ALoad f, k (get_field f b), b)
  | Store f v k => Some (AStore f v, k, set_field f v b)
  | FetchAdd f k =>
      Some (AAdd f, k (get_field f b), set_field f (atomic_add (modulus f) (get_field f b) 1) b)
  | CompareExchange f old new k =>
      if get_field f b =? old then Some (ACompareExchange f new true, k true, set_field f new b)
      else Some (ACompareExchange f new false, k false, b)
  end.
Definition counted_after (a : access) (c : option bool) : option bool :=
  match a with AAdd FAllowed => Some true | AAdd FRejected => Some false | _ => c end.

(** What the scheduler does next: a new call, an access of a call (with the time
    and the monitor's answer should it ask), or the end of one. *)
Inductive move : Type :=
| Begin (i : Z) (m : method)
| Go (i : Z) (now : Z) (monitor : option HealthStatus)
| End_ (i : Z).
Inductive event : Type :=
| Began (i : Z) (m : method)
| Acted (i : Z) (a : access)
| Returned (i : Z) (m : method) (r : bool)
| Died (i : Z).

Section system.
Context `{Build} (config : CircuitBreakerConfig).

Definition make_move (s : system) (mv : move) : option (event * system) :=
  match mv with
  | Begin i m =>
      match threads s !! i with
      | None =>
          Some (Began i m,
                {| shared := shared s;
                   threads := <[i := {| t_method := m; t_prog := body config m;
                                        t_counted := None; t_steps := 0 |}]> (threads s) |})
      | Some _ => None
      end
  | Go i now monitor =>
      t ← threads s !! i;
      '(a, p, b) ← act now monitor (t_prog t) (shared s);
      Some (Acted i a,
            {| shared := b;
               threads := <[i := {| t_method := t_method t; t_prog := p;
                                    t_counted := counted_after a (t_counted t);
                                    t_steps := S (t_steps t) |}]> (threads s) |})
  | End_ i =>
      t ← threads s !! i;
      match t_prog t with
      | Done r => Some (Returned i (t_method t) r, {| shared := shared s; threads := delete i (threads s) |})
      | Crash => Some (Died i, {| shared := shared s; threads := delete i (threads s) |})
      | _ => None
      end
  end.

Fixpoint play (s : system) (ms : list move) : option (list event * system) :=
  match ms with
  | [] => Some ([], s)
  | mv :: ms =>
      '(e, s) ← make_move s mv;
      '(es, s) ← play s ms;
      Some (e :: es, s)
  end.
End system.

Definition start (now : Z) : system := {| shared := new now; threads := ∅ |}.

(** *** What a trace tells *)
Definition is_allow (m : method) : bool := match m with MAllow => true | _ => false end.
Definition count_events (P : event → bool) (es : list event) : Z :=
  foldr (λ e n, bool_to_Z (P e) + n) 0 es.
Definition answers (r : bool) : list event → Z :=
  count_events (λ e, match e with Returned _ m r' => is_allow m && Bool.eqb r r' | _ => false end).
(** The state an access writes, by whichever instruction. *)
Definition state_write (e : event) : option Z :=
  match e with
  | Acted _ (AStore FState v) | Acted _ (ACompareExchange FState v true) => Some v
  | _ => None
  end.
(** The writes of [HalfOpen], and the writes of [Open] that change the state. *)
Definition half_openings : list event → Z :=
  count_events (λ e, bool_decide (state_write e = Some (state_code HalfOpen))).
Definition note_opening (g : Z * Z) (e : event) : Z * Z :=
  match state_write e with
  | Some v => (v, g.2 + bool_to_Z ((v =? state_code Open) && negb (g.1 =? state_code Open)))
  | None => g
  end.
Definition state_history (es : list event) : Z * Z := foldl note_opening (state_code Closed, 0) es.
Definition openings (es : list event) : Z := (state_history es).2.

(** An access that writes no state changes neither account. *)
Lemma no_write es e :
  state_write e = None →
  count_events (λ e, bool_decide (state_write e = Some (state_code HalfOpen))) es
    + bool_to_Z (bool_decide (state_write e = Some (state_code HalfOpen)))
  = count_events (λ e, bool_decide (state_write e = Some (state_code HalfOpen))) es.
Proof. intros ->. rewrite bool_decide_false by done. cbn [bool_to_Z]. lia. Qed.
Lemma note_none g e : state_write e = None → note_opening g e = g.
Proof. unfold note_opening. by intros ->. Qed.
Lemma state_history_snoc es e : state_history (es ++ [e]) = note_opening (state_history es) e.
Proof. apply foldl_snoc. Qed.

Lemma count_events_snoc P es e : count_events P (es ++ [e]) = count_events P es + bool_to_Z (P e).
Proof. induction es as [|e' es IH]; simpl; lia. Qed.

(** *** What a program may still do

    [sane al c p]: [p], a call of [allow_request] when [al], which has incremented
    the counter [c], increments one counter of requests before it returns, and
    returns accordingly; it stores only [Closed] and [Open] as states and exchanges
    only [Open] for [HalfOpen]. *)
Fixpoint sane (al : bool) (c : option bool) (p : prog) : Prop :=
  match p with
  | Done r => al = true → c = Some r
  | Crash => c = None
  | Clock k => ∀ v, sane al c (k v)
  | Monitor k => ∀ v, sane al c (k v)
  | Load _ k => ∀ v, sane al c (k v)
  | Store f v k =>
      f ≠ FAllowed ∧ f ≠ FRejected ∧ (f = FState → v = state_code Closed ∨ v = state_code Open) ∧ sane al c k
  | FetchAdd f k =>
      f ≠ FState ∧ ((f = FAllowed ∨ f = FRejected) → al = true ∧ c = None) ∧
      ∀ v, sane al (counted_after (AAdd f) c) (k v)
  | CompareExchange f old new k =>
      f = FState ∧ old = state_code Open ∧ new = state_code HalfOpen ∧ ∀ v, sane al c (k v)
  end.

(** At most [n] steps are left. *)
Inductive within : nat → prog → Prop :=
| within_done n r : within n (Done r)
| within_crash n : within n Crash
| within_clock n k : (∀ v, within n (k v)) → within (S n) (Clock k)
| within_monitor n k : (∀ v, within n (k v)) → within (S n) (Monitor k)
| within_load n f k : (∀ v, within n (k v)) → within (S n) (Load f k)
| within_store n f v k : within n k → within (S n) (Store f v k)
| within_add n f k : (∀ v, within n (k v)) → within (S n) (FetchAdd f k)
| within_exchange n f old new k : (∀ v, within n (k v)) → within (S n) (CompareExchange f old new k).

(** The longest call is a failure after which the monitor makes it open the breaker. *)
Definition call_steps : nat := 13.

(** *** The parts of the methods *)
Section parts.
Context (al : bool) (c : option bool) (n : nat).
Lemma sane_store f v k :
  f ≠ FAllowed → f ≠ FRejected → (f = FState → v = state_code Closed ∨ v = state_code Open) →
  sane al c k → sane al c (Store f v k).
Proof. done. Qed.
Lemma sane_to_open k : sane al c k → sane al c (transition_to_open k).
Proof. intros Hk. repeat (first [apply sane_store|intros ?]); auto; done. Qed.
Lemma sane_to_closed k : sane al c k → sane al c (transition_to_closed k).
Proof. intros Hk. repeat (first [apply sane_store|intros ?]); auto; done. Qed.
Lemma sane_half_open k : (∀ r, sane al c (k r)) → sane al c (try_transition_to_half_open k).
Proof.
  intros Hk. split_and!; try done. intros []; [|apply Hk].
  intros now. repeat (first [apply sane_store]); auto; done.
Qed.
Lemma sane_checked o k : c = None → (∀ z, sane al c (k z)) → sane al c (checked o k).
Proof. intros Hc Hk. by destruct o; cbn [checked]; [apply Hk|..]. Qed.
Lemma sane_get_state k : (∀ st, sane al c (k st)) → sane al c (get_state_then k).
Proof. intros Hk v. apply Hk. Qed.
Lemma sane_add f k :
  f ≠ FState → f ≠ FAllowed → f ≠ FRejected → (∀ v, sane al c (k v)) → sane al c (FetchAdd f k).
Proof.
  intros H1 H2 H3 Hk. split; [done|]. split; [by intros []|]. intros v. specialize (Hk v). by destruct f.
Qed.
Lemma sane_window `{Build} config k : c = None → sane al c k → sane al c (reset_window_if_needed config k).
Proof.
  intros Hc Hk now start. apply sane_checked; [done|]. intros z. case_match; [|done]. by repeat apply sane_store.
Qed.

Lemma within_checked o k : (∀ z, within n (k z)) → within n (checked o k).
Proof. intros Hk. destruct o; cbn [checked]; [apply Hk|constructor..]. Qed.
End parts.

(** Count the steps of a program, on every branch. *)
Ltac count_steps :=
  repeat match goal with
  | |- within _ (checked _ _) => apply within_checked
  | |- within _ (match ?x with _ => _ end) => destruct x
  | |- within _ _ => constructor
  | |- ∀ _, _ => intros ?
  end.

Section calls.
Context `{Build} (config : CircuitBreakerConfig).

Lemma body_sane m : enabled config = true → sane (is_allow m) None (body config m).
Proof.
  intros Hen.
  assert (Ha : sane true None allow) by (split_and!; cbn; intros; done).
  assert (Hr : sane true None reject) by (split_and!; cbn; intros; done).
  assert (Hd : sane false None (Done true)) by done.
  destruct m; cbn [body is_allow].
  - unfold allow_request. rewrite Hen. apply sane_get_state. intros []; [done|..].
    + intros now ts. apply sane_checked; [done|]. intros e. case_match; [|done].
      apply sane_half_open. by intros [].
    + intros n. case_match; [done|]. by apply sane_to_closed.
  - unfold record_success. rewrite Hen. apply sane_get_state. intros [].
    + by apply sane_store.
    + by apply sane_to_closed.
    + apply sane_add; [done..|]. intros v. apply sane_checked; [done|]. intros z.
      case_match; [|done]. by apply sane_to_closed.
  - unfold record_failure. rewrite Hen. apply sane_window; [done|]. apply sane_get_state. intros [].
    + apply sane_add; [done..|]. intros v. apply sane_checked; [done|]. intros z. apply sane_add; [done..|].
      intros w. repeat case_match; try done; try by apply sane_to_open.
      intros st. case_match; [|done]. by apply sane_to_open.
    + by apply sane_add.
    + by apply sane_to_open.
  - unfold report_health. apply sane_get_state. intros []; destruct healthy; try done; try by apply sane_to_open.
    by apply sane_half_open.
Qed.

Lemma body_within m : within call_steps (body config m).
Proof.
  unfold call_steps. destruct m; cbn [body]; unfold allow_request, record_success, record_failure, report_health,
    reset_window_if_needed, count_failure, get_state_then, allow, reject, transition_to_open,
    transition_to_closed, try_transition_to_half_open; count_steps.
Qed.
End calls.

(** *** The invariant *)
Definition thread_ok (t : thread) : Prop :=
  sane (is_allow (t_method t)) (t_counted t) (t_prog t) ∧
  (is_allow (t_method t) = false → t_counted t = None) ∧
  ∃ n, within n (t_prog t) ∧ (t_steps t + n = call_steps)%nat.
Definition counts (r : bool) (t : thread) : bool := bool_decide (t_counted t = Some r).

Record inv (es : list event) (s : system) : Prop := {
  inv_threads : map_Forall (λ _, thread_ok) (threads s);
  inv_state : state (shared s) = state_code Closed ∨ state (shared s) = state_code Open ∨
              state (shared s) = state_code HalfOpen;
  inv_allowed : requests_allowed (shared s) = (answers true es + map_count (counts true) (threads s)) mod two64;
  inv_rejected : requests_rejected (shared s) = (answers false es + map_count (counts false) (threads s)) mod two64;
  inv_history : (state_history es).1 = state (shared s);
  inv_gate : half_openings es + (if state (shared s) =? state_code Open then 1 else 0) ≤ openings es
}.

Lemma races_start_inv now : inv [] (start now).
Proof. split; [apply map_Forall_empty|by left|done..]. Qed.

(** One access of a sound call, on the call and on the breaker. *)
Lemma act_sane now m p b a p' b' al c :
  sane al c p → act now m p b = Some (a, p', b') →
  sane al (counted_after a c) p' ∧
  match a with AAdd FAllowed | AAdd FRejected => al = true ∧ c = None | _ => True end.
Proof.
  intros Hs Ha. destruct p as [r| |k|k|f k|f v k|f k|f old new k]; cbn in Ha; try discriminate Ha.
  1-3: injection Ha as <- <- <-; split; [apply Hs|done].
  - injection Ha as <- <- <-. destruct Hs as (_ & _ & _ & Hs). done.
  - injection Ha as <- <- <-. destruct Hs as (Hf & Hc & Hk). split; [apply Hk|]. cbn. destruct f; try done; auto.
  - destruct Hs as (_ & _ & _ & Hk). destruct (get_field f b =? old); injection Ha as <- <- <-; done.
Qed.
Lemma act_within now m p b a p' b' n :
  within n p → act now m p b = Some (a, p', b') → ∃ n', within n' p' ∧ n = S n'.
Proof.
  intros Hw Ha. inversion Hw; subst; cbn in Ha; try discriminate Ha.
  1-5: injection Ha as <- <- <-; eauto.
  destruct (get_field f b =? old); injection Ha as <- <- <-; eauto.
Qed.

Lemma act_counters now m p b a p' b' al c :
  sane al c p → act now m p b = Some (a, p', b') →
  requests_allowed b' = (match a with AAdd FAllowed => atomic_add two64 (requests_allowed b) 1 | _ => requests_allowed b end) ∧
  requests_rejected b' = (match a with AAdd FRejected => atomic_add two64 (requests_rejected b) 1 | _ => requests_rejected b end).
Proof.
  intros Hs Ha. destruct p as [r| |k|k|f k|f v k|f k|f old new k]; cbn in Ha; try discriminate Ha.
  1-3: by injection Ha as <- <- <-.
  - injection Ha as <- <- <-. destruct Hs as (H1 & H2 & _). by destruct f.
  - injection Ha as <- <- <-. by destruct f.
  - destruct Hs as (-> & _). destruct (get_field FState b =? old); by injection Ha as <- <- <-.
Qed.

Lemma act_state now m p b a p' b' al c :
  sane al c p → act now m p b = Some (a, p', b') →
  match a with
  | AStore FState v => state b' = v ∧ (v = state_code Closed ∨ v = state_code Open)
  | ACompareExchange f v true => f = FState ∧ v = state_code HalfOpen ∧ state b = state_code Open ∧ state b' = v
  | _ => state b' = state b
  end.
Proof.
  intros Hs Ha. destruct p as [r| |k|k|f k|f v k|f k|f old new k]; cbn in Ha; try discriminate Ha.
  1-3: by injection Ha as <- <- <-.
  - injection Ha as <- <- <-. destruct Hs as (_ & _ & H3 & _). destruct f; try done. auto.
  - injection Ha as <- <- <-. destruct Hs as (Hf & _). by destruct f.
  - destruct Hs as (-> & -> & -> & _). destruct (Z.eqb_spec (get_field FState b) (state_code Open)) as [He|];
      by injection Ha as <- <- <-.
Qed.

Lemma counts_none r t : t_counted t = None → counts r t = false.
Proof. unfold counts. by intros ->. Qed.
Lemma counts_some r r' t : t_counted t = Some r' → counts r t = Bool.eqb r r'.
Proof. unfold counts. intros ->. by destruct r, r'. Qed.

Lemma counts_same r t m p n :
  counts r {| t_method := m; t_prog := p; t_counted := t_counted t; t_steps := n |} = counts r t.
Proof. done. Qed.

(** The calls that end, with what they have counted. *)
Lemma end_counts r i t e n :
  thread_ok t →
  (t_prog t = Crash ∧ e = Died i ∨ ∃ r, t_prog t = Done r ∧ e = Returned i (t_method t) r) →
  bool_to_Z (match e with Returned _ m r' => is_allow m && Bool.eqb r r' | _ => false end)
    + (n - bool_to_Z (counts r t)) = n.
Proof.
  intros (Hs & Hn & _) [[Hp ->]|(r' & Hp & ->)]; rewrite Hp in Hs; cbn in Hs.
  - rewrite counts_none by done. cbn. lia.
  - destruct (is_allow (t_method t)).
    + rewrite (counts_some _ r') by auto. cbn [andb]. lia.
    + rewrite counts_none by auto. cbn. lia.
Qed.

(** What an access adds to a counter it adds to the calls that are counted. *)
Ltac count_move Hc :=
  match goal with a : access |- _ => destruct a as [| | |[]|] end; cbn [counted_after bool_to_Z];
  try (rewrite counts_same; f_equal; lia);
  destruct Hc as [_ Hc]; rewrite (counts_none _ _ Hc);
  match goal with |- context [counts ?r (Build_thread ?m ?p (Some ?r') ?n)] =>
    rewrite (counts_some r r' (Build_thread m p (Some r') n) eq_refl) end;
  cbn [Bool.eqb bool_to_Z]; unfold atomic_add; rewrite ?Z.add_mod_idemp_l by done; f_equal; lia.

Section invariant.
Context `{Build} (config : CircuitBreakerConfig) (Hen : enabled config = true).

Lemma begin_inv es s i m :
  inv es s → threads s !! i = None →
  inv (es ++ [Began i m])
    {| shared := shared s;
       threads := <[i := {| t_method := m; t_prog := body config m; t_counted := None; t_steps := 0 |}]> (threads s) |}.
Proof.
  intros [Ht Hst Ha Hr Hh Hg] Hi. split; cbn [shared threads]; unfold answers, openings, half_openings in *;
    rewrite ?count_events_snoc, ?state_history_snoc, ?map_count_insert by done; cbn; rewrite ?Z.add_0_r; try done.
  apply map_Forall_insert_2; [|done]. split; [by apply body_sane|]. split; [done|].
  exists call_steps. split; [apply body_within|done].
Qed.

Lemma end_inv es s i t e :
  inv es s → threads s !! i = Some t →
  (t_prog t = Crash ∧ e = Died i ∨ ∃ r, t_prog t = Done r ∧ e = Returned i (t_method t) r) →
  inv (es ++ [e]) {| shared := shared s; threads := delete i (threads s) |}.
Proof.
  intros [Ht Hst Ha Hr Hh Hg] Hi Hp. pose proof (Ht i t Hi) as Hok.
  split; cbn [shared threads]; unfold answers, openings, half_openings in *;
    rewrite ?count_events_snoc, ?state_history_snoc, ?(map_count_delete _ _ _ _ Hi).
  - by apply map_Forall_delete.
  - done.
  - rewrite Ha, <-Z.add_assoc. by rewrite (end_counts _ i).
  - rewrite Hr, <-Z.add_assoc. by rewrite (end_counts _ i).
  - by destruct Hp as [[_ ->]|(r & _ & ->)].
  - by rewrite no_write, note_none by (by destruct Hp as [[_ ->]|(r & _ & ->)]).
Qed.

Lemma act_inv es s i t now m a p b :
  inv es s → threads s !! i = Some t → act now m (t_prog t) (shared s) = Some (a, p, b) →
  inv (es ++ [Acted i a])
    {| shared := b;
       threads := <[i := {| t_method := t_method t; t_prog := p; t_counted := counted_after a (t_counted t);
                            t_steps := S (t_steps t) |}]> (threads s) |}.
Proof.
  intros [Ht Hst Ha Hr Hh Hg] Hi Hact. destruct (Ht i t Hi) as (Hs & Hn & n & Hw & Hsteps).
  destruct (act_sane _ _ _ _ _ _ _ _ _ Hs Hact) as [Hs' Hc'].
  destruct (act_within _ _ _ _ _ _ _ _ Hw Hact) as (n' & Hw' & ->).
  destruct (act_counters _ _ _ _ _ _ _ _ _ Hs Hact) as [Hra Hrr].
  pose proof (act_state _ _ _ _ _ _ _ _ _ Hs Hact) as Hstate.
  split; cbn [shared threads]; unfold answers, openings, half_openings in *;
    rewrite ?count_events_snoc, ?state_history_snoc, ?(map_count_update _ _ _ _ _ Hi).
  - apply map_Forall_insert_2; [|done]. split; [done|]. split.
    + intros Hal. cbn in Hal |- *. specialize (Hn Hal). destruct a as [| | |[]|]; try done; destruct Hc'; congruence.
    + exists n'. split; [done|]. cbn. lia.
  - destruct a as [|f|f v|f|f v []]; try (by rewrite Hstate).
    + destruct f; try (by rewrite Hstate). naive_solver.
    + destruct Hstate as (_ & -> & _ & ->). auto.
  - rewrite Hra, Ha. count_move Hc'.
  - rewrite Hrr, Hr. count_move Hc'.
  - destruct a as [|f|f v|f|f v []]; try (rewrite note_none by (done || by destruct f); by rewrite Hstate).
    + destruct f; try (by rewrite note_none, Hstate). cbn. by destruct Hstate.
    + destruct Hstate as (-> & _ & _ & ->). done.
  - destruct a as [|f|f v|f|f v []];
      try (rewrite no_write, note_none by (done || by destruct f); by rewrite Hstate).
    + destruct f; try (by rewrite no_write, note_none, Hstate). destruct Hstate as [-> Hv].
      unfold note_opening. cbn [state_write]. rewrite Hh. cbn [fst snd].
      destruct Hv as [-> | ->]; rewrite bool_decide_false by done; cbn [bool_to_Z]; repeat case_match; cbn in *; lia.
    + destruct Hstate as (-> & -> & Ho & ->). unfold note_opening. cbn [state_write]. rewrite Ho in Hg.
      rewrite bool_decide_true by done. cbn in *. lia.
Qed.

Lemma move_inv es s mv e s' : inv es s → make_move config s mv = Some (e, s') → inv (es ++ [e]) s'.
Proof.
  intros Hi. destruct mv as [i m|i now mon|i]; cbn [make_move].
  - destruct (threads s !! i) eqn:Ht; [done|]. intros [= <- <-]. by apply begin_inv.
  - intros (t & Ht & ([[a p] b] & Ha & [= <- <-])%bind_Some)%bind_Some. by eapply act_inv.
  - intros (t & Ht & Hp)%bind_Some. destruct (t_prog t) eqn:Hpr; try done; injection Hp as <- <-;
      eapply end_inv; eauto.
Qed.

Lemma play_inv ms : ∀ es s tr s', inv es s → play config s ms = Some (tr, s') → inv (es ++ tr) s'.
Proof.
  induction ms as [|mv ms IH]; intros es s tr s' Hi.
  - intros [= <- <-]. by rewrite app_nil_r.
  - intros ([e s1] & Hm & ([es1 s2] & Hp & [= <- <-])%bind_Some)%bind_Some.
    rewrite cons_middle, app_assoc. eapply IH; [|done]. by eapply move_inv.
Qed.
End invariant.

(** C25. Whatever calls of whatever threads interleave, access by access: the state
    is always one of the three; the counters of allowed and rejected requests are
    (modulo their 64 bits) the requests answered so, and those about to be; there
    are never more writes of the half-open state, by whatever instruction, than
    times the breaker has become open, so that of the requests that race for one
    opening at most one is let through as the trial; and
    no call takes more than [call_steps] steps, whatever the others do. *)
Theorem breaker_races `{Build} config now ms es s :
  enabled config = true → play config (start now) ms = Some (es, s) →
  state (shared s) = state_code (get_state (shared s)) ∧
  requests_allowed (shared s) = (answers true es + map_count (counts true) (threads s)) mod two64 ∧
  requests_rejected (shared s) = (answers false es + map_count (counts false) (threads s)) mod two64 ∧
  half_openings es ≤ openings es ∧
  (get_state (shared s) = Open → half_openings es < openings es) ∧
  (∀ i t, threads s !! i = Some t → (t_steps t ≤ call_steps)%nat).
Proof.
  intros Hen Hp. pose proof (play_inv config Hen ms [] (start now) es s (races_start_inv now) Hp) as Hi.
  rewrite app_nil_l in Hi. destruct Hi as [Ht Hst Ha Hr _ Hg].
  split_and!; [|done|done|case_match; lia| |].
  - unfold get_state. by destruct Hst as [-> |[-> | ->]].
  - intros Ho. assert (Hs : state (shared s) = state_code Open).
    { unfold get_state in Ho. destruct Hst as [Hs|[Hs|Hs]]; rewrite Hs in Ho; done. }
    rewrite Hs, Z.eqb_refl in Hg. lia.
  - intros i t Hi. destruct (Ht i t Hi) as (_ & _ & n & _ & Hn). lia.
Qed.

(** ** Concrete interleavings *)
Definition one_failure : CircuitBreakerConfig := {|
  enabled := true; failure_threshold := 1; success_threshold := 1; window_secs := 60;
  open_timeout_secs := 30; use_health_monitor := false
|}.
Definition go (i : Z) (n : nat) (now : Z) : list move := replicate n (Go i now None).

#[local] Existing Instance release_build.

(** Two requests race for the trial after the breaker has been open for its
    time-out: one is let through, the other rejected. *)
Definition trial_race : list move :=
  [Begin 1 MFailure] ++ go 1 10 1000 ++ [End_ 1; Begin 2 MAllow; Begin 3 MAllow]
  ++ go 2 3 1030 ++ go 3 3 1030 ++ go 2 1 1030 ++ go 3 2 1030 ++ go 2 4 1030 ++ [End_ 2; End_ 3].
Lemma breaker_races_witness :
  ∃ es s, play one_failure (start 1000) trial_race = Some (es, s) ∧
    half_openings es ≤ openings es ∧ requests_allowed (shared s) = 1 ∧ requests_rejected (shared s) = 1.
Proof.
  eassert (Hp : play one_failure (start 1000) trial_race = Some _) by (vm_compute; reflexivity).
  eexists _, _. split; [exact Hp|].
  destruct (breaker_races one_failure 1000 trial_race _ _ eq_refl Hp) as (_ & _ & _ & Hg & _).
  split; [exact Hg|]. split; reflexivity.
Defined.

(** Opening stores the state before the time: a request that comes in between sees
    an open breaker with the time of an earlier opening (at first, zero) and takes
    the time-out for over.  The breaker that was opened for 30 seconds is half-open,
    and lets requests through, in the same second. *)
Example opening_is_undone :
  (λ r : list event * system, (get_state (shared r.2), r.1 !! 16%nat))
  <$> play one_failure (start 1000)
        ([Begin 1 MFailure] ++ go 1 6 1000 ++ [Begin 2 MAllow] ++ go 2 8 1000 ++ [End_ 2] ++ go 1 4 1000)
  = Some (HalfOpen, Some (Returned 2 MAllow true)).
Proof. vm_compute. reflexivity. Qed.

(** A success that has read the state while it was half-open closes the breaker
    although a failure has opened it again since. *)
Example late_success_closes :
  (λ r : list event * system, get_state (shared r.2))
  <$> play one_failure (start 1000)
        ([Begin 1 MFailure] ++ go 1 10 1000 ++ [End_ 1; Begin 2 (MHealth true)] ++ go 2 5 1001 ++
         [End_ 2; Begin 3 MSuccess] ++ go 3 1 1002 ++ [Begin 4 MFailure] ++ go 4 8 1002 ++ [End_ 4] ++
         go 3 6 1002 ++ [End_ 3])
  = Some Closed.
Proof. vm_compute. reflexivity. Qed.
End Races.
