(* ===== verification/Acquire.v ===== *)
(** * Getting a backend connection: retries, breaker, recycling, probes
      (resilience/retry.rs, resilience/healthcheck.rs, and [get],
      [pool_error_is_retryable] and [recycle] of proxy/tcp_pool.rs)

    The deadpool crate and the network are parameters: what the [n]-th call of
    [pool.get()] answers is the argument [op], what the random generator draws
    is [pick], and a probe is whether it passed.  Floating-point numbers are
    those of the standard library's [SpecFloat], with Rust's saturating cast to
    [u64] written out. *)

From Stdlib Require Import Floats.SpecFloat.
From S2P Require Import Prelude CircuitBreaker.

Module Acquire.

(** ** f64 *)
Definition f64_of_u64 (z : Z) : spec_float := binary_normalize 53 1024 z 0 false.
Definition f64_mul : spec_float → spec_float → spec_float := SFmul 53 1024.
Definition u64_of_f64 (x : spec_float) : Z :=
  match x with
  | S754_finite false m e => Z.min (two64 - 1) (Z.shiftl (Zpos m) e)
  | S754_infinity false => two64 - 1
  | _ => 0
  end.

Record ConnectionRetryConfig : Type := {
  enabled : bool;
  max_attempts : Z;
  initial_backoff_ms : Z;
  max_backoff_ms : Z;
  backoff_multiplier : spec_float;
  jitter_factor : spec_float
}.

(** ** Retries *)
Section retry.
Context `{Build} {T E : Type} (config : ConnectionRetryConfig).
Context (op : nat → T + E) (is_retryable : E → bool) (pick : nat → Z → Z).

Definition jitter_range (base_ms : Z) : Z :=
  u64_of_f64 (f64_mul (f64_of_u64 base_ms) (jitter_factor config)).
Definition calculate_jitter (n : nat) (base_ms : Z) : Z :=
  let r := jitter_range base_ms in if 0 <? r then pick n r else 0.

Definition next_backoff (backoff_ms : Z) : Z :=
  Z.min (u64_of_f64 (f64_mul (f64_of_u64 backoff_ms) (backoff_multiplier config)))
        (max_backoff_ms config).

(** The number of calls, the delays slept between them, and the result. *)
Fixpoint retry_loop (fuel : nat) (attempt backoff_ms : Z) : outcome (nat * list Z * (T + E)) :=
  match fuel with
  | O => Diverge
  | S fuel =>
      attempt' ← u32_add attempt 1;
      match op (Z.to_nat attempt) with
      | inl result => Ret (Z.to_nat attempt', [], inl result)
      | inr e =>
          if negb (is_retryable e) then Ret (Z.to_nat attempt', [], inr e)
          else if max_attempts config <=? attempt' then Ret (Z.to_nat attempt', [], inr e)
          else
            delay_ms ← u64_add backoff_ms (calculate_jitter (Z.to_nat attempt) backoff_ms);
            r ← retry_loop fuel attempt' (next_backoff backoff_ms);
            Ret (r.1.1, delay_ms :: r.1.2, r.2)
      end
  end.

(** An attempt that fails is the last one at [max_attempts], and there is
    always one: [max 1 max_attempts] rounds are enough. *)
Definition execute_with_classifier : outcome (nat * list Z * (T + E)) :=
  if negb (enabled config) then Ret (1%nat, [], op 0)
  else retry_loop (Z.to_nat (Z.max 1 (max_attempts config))) 0 (initial_backoff_ms config).
End retry.

Definition execute `{Build} {T E} (config : ConnectionRetryConfig) (op : nat → T + E)
    (pick : nat → Z → Z) : outcome (nat * list Z * (T + E)) :=
  execute_with_classifier config op (λ _, true) pick.

(** ** The connection pool *)

(** deadpool's [PoolError]. *)
Inductive PoolError : Type := Timeout | Backend | Closed | NoRuntimeSpecified | PostCreateHook.
Definition pool_error_is_retryable (e : PoolError) : bool :=
  match e with Backend | Timeout => true | _ => false end.

Inductive get_error : Type := CircuitBreakerOpen | FailedToGet (e : PoolError).

(** [n_calls], the result and the breaker after the call.  The breaker reads
    the clock once or twice per operation. *)
Definition get `{Build} {C : Type} (circuit_breaker : option (CB.CircuitBreakerConfig * CB.CircuitBreaker))
    (retry_config : option ConnectionRetryConfig) (op : nat → C + PoolError) (pick : nat → Z → Z)
    (t1 t2 t3 t4 : Z) (monitor : option CB.HealthStatus)
    : outcome (nat * (C + get_error) * option CB.CircuitBreaker) :=
  let fetch : outcome (nat * (C + PoolError)) :=
    match retry_config with
    | Some rc =>
        if enabled rc
        then r ← execute_with_classifier rc op pool_error_is_retryable pick; Ret (r.1.1, r.2)
        else Ret (1%nat, op 0%nat)
    | None => Ret (1%nat, op 0%nat)
    end in
  let answer (r : C + PoolError) : C + get_error :=
    match r with inl c => inl c | inr e => inr (FailedToGet e) end in
  match circuit_breaker with
  | None => r ← fetch; Ret (r.1, answer r.2, None)
  | Some (cfg, b) =>
      a ← CB.allow_request cfg t1 t2 b;
      if (a : bool * _).1 then
        r ← fetch;
        b' ← match r.2 with
             | inl _ => CB.record_success cfg t3 a.2
             | inr _ => CB.record_failure cfg t3 t4 monitor a.2
             end;
        Ret (r.1, answer r.2, Some b')
      else Ret (0%nat, inr CircuitBreakerOpen, Some a.2)
  end.

(** ** Recycling: [Some b] is [Ok(b)], [None] an error; [true] keeps the
    connection.  The reset is only asked for when the health check passed. *)
Definition recycle (health_check reset_connection : option bool) : bool * nat :=
  match health_check with
  | Some true =>
      (match reset_connection with Some true => true | Some false => false | None => false end, 2%nat)
  | Some false | None => (false, 1%nat)
  end.

(** ** Active health checks *)
Record HealthcheckConfig : Type := { active_enabled : bool; hc_failure_threshold : Z }.
Record ActiveHealthcheck : Type := Hc { hc_failures : Z; is_healthy : bool }.
Definition hc_new : ActiveHealthcheck := Hc 0 true.

Definition check `{Build} (config : HealthcheckConfig) (passed : bool) (h : ActiveHealthcheck)
    : outcome (bool * ActiveHealthcheck) :=
  if negb (active_enabled config) then Ret (true, h)
  else if passed then Ret (true, Hc 0 true)
  else
    failures ← u32_add (hc_failures h) 1;
    let healthy := if hc_failure_threshold config <=? failures then false else is_healthy h in
    Ret (healthy, Hc (atomic_add two32 (hc_failures h) 1) healthy).

(** ** Lemmas *)
Lemma u64_of_f64_nonneg x : 0 ≤ u64_of_f64 x.
Proof.
  destruct x as [s|s| |s m e]; simpl; try lia; destruct s; simpl; try lia; try (unfold two64; lia).
  apply Z.min_glb; [unfold two64; lia|]. apply Z.shiftl_nonneg. lia.
Qed.

Lemma release_u64_add a b : u64_add (H := release_build) a b = Ret ((a + b) mod two64).
Proof.
  unfold u64_add, wrap_or_panic. simpl.
  destruct ((0 <=? a + b) && (a + b <? two64)) eqn:Hr; [|done].
  apply andb_true_iff in Hr as [H1%Z.leb_le H2%Z.ltb_lt]. by rewrite Z.mod_small.
Qed.

(** A delay is a backoff within bounds and a jitter within its range. *)
Definition delay_ok (config : ConnectionRetryConfig) (d : Z) : Prop :=
  ∃ b j, d = (b + j) mod two64 ∧
    0 ≤ b ≤ Z.max (initial_backoff_ms config) (max_backoff_ms config) ∧
    0 ≤ j ≤ jitter_range config b.

Section retries.
#[local] Existing Instance release_build.
Context {T E : Type} (config : ConnectionRetryConfig).
Context (op : nat → T + E) (is_retryable : E → bool) (pick : nat → Z → Z).
Hypothesis Hattempts : 0 ≤ max_attempts config < two32.
Hypothesis Hmax : 0 ≤ max_backoff_ms config.
Hypothesis Hpick : ∀ n r, 0 < r → 0 ≤ pick n r ≤ r.

Lemma jitter_ok n b : 0 ≤ calculate_jitter config pick n b ≤ jitter_range config b.
Proof.
  unfold calculate_jitter. cbv zeta. pose proof (u64_of_f64_nonneg
    (f64_mul (f64_of_u64 b) (jitter_factor config))). fold (jitter_range config b) in *.
  destruct (Z.ltb_spec 0 (jitter_range config b)); [by apply Hpick|lia].
Qed.

Lemma next_backoff_ok b : 0 ≤ next_backoff config b ≤ max_backoff_ms config.
Proof.
  unfold next_backoff.
  pose proof (u64_of_f64_nonneg (f64_mul (f64_of_u64 b) (backoff_multiplier config))). lia.
Qed.

(** The loop from its round [attempt]. *)
Definition round_ok (attempt : Z) (r : nat * list Z * (T + E)) : Prop :=
  attempt < Z.of_nat r.1.1 ≤ Z.max 1 (max_attempts config) ∧
  r.2 = op (r.1.1 - 1)%nat ∧
  Z.of_nat (length r.1.2) = Z.of_nat r.1.1 - 1 - attempt ∧
  (∀ i, attempt ≤ Z.of_nat i < Z.of_nat r.1.1 - 1 → ∃ e, op i = inr e ∧ is_retryable e = true) ∧
  (∀ e, r.2 = inr e →
     is_retryable e = false ∨ Z.of_nat r.1.1 = Z.max 1 (max_attempts config)) ∧
  Forall (delay_ok config) r.1.2.

Lemma retry_loop_ok fuel attempt backoff :
  0 ≤ attempt → Z.of_nat fuel = Z.max 1 (max_attempts config) - attempt → (0 < fuel)%nat →
  0 ≤ backoff ≤ Z.max (initial_backoff_ms config) (max_backoff_ms config) →
  ∃ r, retry_loop config op is_retryable pick fuel attempt backoff = Ret r ∧ round_ok attempt r.
Proof.
  revert attempt backoff. induction fuel as [|fuel IH]; intros attempt backoff Ha Hf Hpos Hb; [lia|].
  cbn [retry_loop]. rewrite u32_add_fits by (unfold two32 in *; lia). cbn [mbind outcome_bind].
  assert (Hlast : ∀ x, op (Z.to_nat attempt) = x →
    (∀ e, x = inr e → is_retryable e = false ∨ max_attempts config ≤ attempt + 1) →
    round_ok attempt (Z.to_nat (attempt + 1), [], x)).
  { intros x Hx He. unfold round_ok. simpl. split_and!; [lia|lia| |lia|intros; lia| |constructor].
    - rewrite <-Hx. f_equal. lia.
    - intros e Hxe. destruct (He e Hxe); [by left|right; lia]. }
  destruct (op (Z.to_nat attempt)) as [t|e] eqn:Hop; [eexists; split; [done|by apply Hlast]|].
  destruct (is_retryable e) eqn:Hre; cbn [negb].
  2: { eexists. split; [done|]. apply Hlast; [done|]. intros e' [= <-]. by left. }
  destruct (Z.leb_spec (max_attempts config) (attempt + 1)) as [Hle|Hlt].
  { eexists. split; [done|]. apply Hlast; [done|]. intros e' _. by right. }
  rewrite release_u64_add. cbn [mbind outcome_bind].
  pose proof (next_backoff_ok backoff).
  destruct (IH (attempt + 1) (next_backoff config backoff)) as ([[n ds] x] & Hr & Hn & Hx & Hl & Hi & He & Hd);
    [lia..|]. rewrite Hr. cbn [mbind outcome_bind]. eexists. split; [done|]. simpl in *.
  unfold round_ok. simpl. split_and!; [lia|lia|done|lia| |done|].
  - intros i Hlo. destruct (decide (Z.of_nat i = attempt)) as [<-|]; [|apply Hi; lia].
    rewrite Nat2Z.id in Hop. eauto.
  - constructor; [|done]. eexists _, _. split; [done|]. split; [done|]. apply jitter_ok.
Qed.
End retries.

(** ** Histories of probes *)
Definition run_checks `{Build} (config : HealthcheckConfig) (h : ActiveHealthcheck) (ps : list bool)
    : outcome ActiveHealthcheck :=
  ofoldl (λ h p, check config p h ≫= λ r : bool * ActiveHealthcheck, Ret r.2) h ps.

(** The failures since the last probe that passed. *)
Definition trailing_failures (ps : list bool) : Z :=
  foldl (λ n p, if p : bool then 0 else n + 1) 0 ps.

Lemma trailing_failures_snoc ps p :
  trailing_failures (ps ++ [p]) = if p then 0 else trailing_failures ps + 1.
Proof. unfold trailing_failures. by rewrite foldl_app. Qed.

Lemma trailing_failures_bound ps : 0 ≤ trailing_failures ps ≤ Z.of_nat (length ps).
Proof.
  induction ps as [|p ps IH] using rev_ind; [done|].
  rewrite trailing_failures_snoc, length_app. simpl. destruct p; lia.
Qed.

(** ** Theorems *)

(** Retrying ends, with at least one and at most [max 1 max_attempts]
    calls; it stops at the first success or permanent error, reports the result
    of its last call, has slept once between any two calls, and each delay is a
    backoff (at most the maximal one, or the initial one) plus a jitter within
    its range. *)
Lemma retry_bounded {T E : Type} (config : ConnectionRetryConfig) (op : nat → T + E)
    (is_retryable : E → bool) (pick : nat → Z → Z) :
  enabled config = true → 0 ≤ max_attempts config < two32 →
  0 ≤ initial_backoff_ms config → 0 ≤ max_backoff_ms config →
  (∀ n r, 0 < r → 0 ≤ pick n r ≤ r) →
  ∃ n ds r,
    execute_with_classifier (H := release_build) config op is_retryable pick = Ret (n, ds, r) ∧
    1 ≤ Z.of_nat n ≤ Z.max 1 (max_attempts config) ∧
    r = op (n - 1)%nat ∧ S (length ds) = n ∧
    (∀ i, (i < n - 1)%nat → ∃ e, op i = inr e ∧ is_retryable e = true) ∧
    (∀ e, r = inr e → is_retryable e = false ∨ Z.of_nat n = Z.max 1 (max_attempts config)) ∧
    Forall (delay_ok config) ds.
Proof.
  intros Hen Hat Hi Hm Hp. unfold execute_with_classifier. rewrite Hen. cbn [negb].
  destruct (retry_loop_ok config op is_retryable pick Hat Hm Hp
    (Z.to_nat (Z.max 1 (max_attempts config))) 0 (initial_backoff_ms config))
    as ([[n ds] r] & Hr & Hn & Hx & Hl & Hall & He & Hd); [lia..|]. simpl in *.
  exists n, ds, r. rewrite Hr. split_and!; try done; try lia. intros j Hj. apply Hall. lia.
Qed.

Lemma record_total cfg b t3 t4 monitor :
  (∃ b', CB.record_success (H := release_build) cfg t3 b = Ret b') ∧
  (∃ b', CB.record_failure (H := release_build) cfg t3 t4 monitor b = Ret b').
Proof.
  assert (Hw : ∀ m z, ∃ r, wrap_or_panic (H := release_build) m z = Ret r)
    by (intros m z; unfold wrap_or_panic; simpl; case_match; eauto).
  split.
  - unfold CB.record_success, u32_add. destruct (Hw two32 (CB.consecutive_successes b + 1)) as [r ->].
    simpl. repeat case_match; eauto.
  - unfold CB.record_failure, CB.reset_window_if_needed, u64_sub, u32_add.
    destruct (Hw two64 (t3 - CB.window_start b)) as [r ->]. simpl.
    destruct (negb (CB.enabled cfg)); [eauto|].
    assert (Hr : ∃ b1, (if CB.window_secs cfg <=? r
      then Ret (CB.store_window_count 0 (CB.store_window_start t3 b)) else Ret b) = Ret b1)
      by (case_match; eauto).
    destruct Hr as [b1 ->]. simpl. destruct (Hw two32 (CB.consecutive_failures b1 + 1)) as [r1 ->].
    simpl. repeat case_match; eauto.
Qed.

Lemma allow_total cfg b t1 t2 :
  ∃ a b1, CB.allow_request (H := release_build) cfg t1 t2 b = Ret (a, b1).
Proof.
  unfold CB.allow_request, u64_sub, wrap_or_panic. simpl.
  repeat case_match; simplify_eq/=; try (by eauto); repeat case_match; by eauto.
Qed.

(** C34. Acquisition under the breaker: a rejected request makes no call at all
    and leaves the breaker as the rejection left it; an admitted one makes at
    most [max 1 max_attempts] calls, answers with the result of the last, and
    tells the breaker exactly once, success or failure. *)
Theorem get_guarded {C : Type} cfg b rc (op : nat → C + PoolError) pick t1 t2 t3 t4 monitor :
  enabled rc = true → 0 ≤ max_attempts rc < two32 →
  0 ≤ initial_backoff_ms rc → 0 ≤ max_backoff_ms rc → (∀ n r, 0 < r → 0 ≤ pick n r ≤ r) →
  ∃ n r b' a b1,
    get (H := release_build) (Some (cfg, b)) (Some rc) op pick t1 t2 t3 t4 monitor
      = Ret (n, r, Some b') ∧
    CB.allow_request (H := release_build) cfg t1 t2 b = Ret (a, b1) ∧
    if a : bool then
      1 ≤ Z.of_nat n ≤ Z.max 1 (max_attempts rc) ∧
      match op (n - 1)%nat with
      | inl c => r = inl c ∧ CB.record_success (H := release_build) cfg t3 b1 = Ret b'
      | inr e => r = inr (FailedToGet e) ∧
                 CB.record_failure (H := release_build) cfg t3 t4 monitor b1 = Ret b'
      end
    else n = 0%nat ∧ r = inr CircuitBreakerOpen ∧ b' = b1.
Proof.
  intros Hen Hat Hi Hm Hp. destruct (allow_total cfg b t1 t2) as (a & b1 & Ha).
  unfold get. rewrite Ha, Hen. unfold execute_with_classifier. rewrite Hen. cbn [mbind outcome_bind fst snd negb].
  destruct a; [|by eexists _, _, _, false, b1].
  destruct (retry_loop_ok rc op pool_error_is_retryable pick Hat Hm Hp
    (Z.to_nat (Z.max 1 (max_attempts rc))) 0 (initial_backoff_ms rc))
    as ([[n ds] r] & -> & Hn & Hx & _); [lia..|]. cbn [mbind outcome_bind fst snd] in *.
  destruct (record_total cfg b1 t3 t4 monitor) as [[bs Hbs] [bf Hbf]].
  destruct r as [c|e].
  - rewrite Hbs. eexists n, _, bs, true, b1. rewrite <-Hx. split_and!; done || lia.
  - rewrite Hbf. eexists n, _, bf, true, b1. rewrite <-Hx. split_and!; done || lia.
Qed.

(** The backend counts as healthy exactly while fewer than
    [failure_threshold] probes in a row have failed, and one probe that passes
    makes it healthy again. *)
Lemma health_follows_failures `{Build} config ps :
  active_enabled config = true → 1 ≤ hc_failure_threshold config →
  Z.of_nat (length ps) < two32 →
  run_checks config hc_new ps
  = Ret (Hc (trailing_failures ps)
            (negb (hc_failure_threshold config <=? trailing_failures ps))).
Proof.
  intros Hen Ht. induction ps as [|p ps IH] using rev_ind; intros Hl.
  - unfold run_checks, trailing_failures, hc_new. simpl.
    destruct (Z.leb_spec (hc_failure_threshold config) 0); [lia|done].
  - rewrite length_app in Hl. simpl in Hl. unfold run_checks in *. rewrite ofoldl_app, IH by lia.
    pose proof (trailing_failures_bound ps). rewrite trailing_failures_snoc. simpl.
    unfold check. rewrite Hen. cbn [negb]. destruct p.
    + simpl. destruct (Z.leb_spec (hc_failure_threshold config) 0); [lia|done].
    + simpl. rewrite u32_add_fits by (unfold two32 in *; lia). cbn [mbind outcome_bind].
      unfold atomic_add. rewrite Z.mod_small by (unfold two32 in *; lia). simpl. do 2 f_equal.
      destruct (Z.leb_spec (hc_failure_threshold config) (trailing_failures ps + 1)); simpl; [done|].
      destruct (Z.leb_spec (hc_failure_threshold config) (trailing_failures ps)); simpl; [lia|done].
Qed.

(** ** Concrete runs *)
Definition demo_retry : ConnectionRetryConfig := {|
  enabled := true; max_attempts := 3; initial_backoff_ms := 100; max_backoff_ms := 150;
  backoff_multiplier := f64_of_u64 2; jitter_factor := f64_of_u64 0
|}.
(** Two transient failures, then a connection. *)
Definition demo_op (n : nat) : nat + PoolError :=
  match n with 0%nat | 1%nat => inr Backend | _ => inl 7%nat end.

Example demo_retry_run :
  execute_with_classifier (H := release_build) demo_retry demo_op pool_error_is_retryable (λ _ r, r)
  = Ret (3%nat, [100; 150], inl 7%nat).
Proof. vm_compute. reflexivity. Qed.

Definition demo_breaker : CB.CircuitBreakerConfig := CB.demo_config.

Lemma get_guarded_witness :
  ∃ n r b' a b1,
    get (H := release_build) (Some (demo_breaker, CB.new 10)) (Some demo_retry) demo_op (λ _ r, r)
        11 11 12 12 None = Ret (n, r, Some b') ∧
    CB.allow_request (H := release_build) demo_breaker 11 11 (CB.new 10) = Ret (a, b1) ∧
    if a : bool then
      1 ≤ Z.of_nat n ≤ Z.max 1 (max_attempts demo_retry) ∧
      match demo_op (n - 1)%nat with
      | inl c => r = inl c ∧ CB.record_success (H := release_build) demo_breaker 12 b1 = Ret b'
      | inr e => r = inr (FailedToGet e) ∧
                 CB.record_failure (H := release_build) demo_breaker 12 12 None b1 = Ret b'
      end
    else n = 0%nat ∧ r = inr CircuitBreakerOpen ∧ b' = b1.
Proof.
  apply (get_guarded demo_breaker (CB.new 10) demo_retry demo_op (λ _ r, r)); simpl;
    unfold two32; (reflexivity || lia).
Defined.

(** The first delay is the initial backoff, whatever the maximum. *)
Example first_delay_uncapped :
  (λ r, r.1.2) <$> execute_with_classifier (H := release_build)
    {| enabled := true; max_attempts := 2; initial_backoff_ms := 900; max_backoff_ms := 150;
       backoff_multiplier := f64_of_u64 2; jitter_factor := f64_of_u64 0 |}
    demo_op pool_error_is_retryable (λ _ r, r) = Ret [900].
Proof. vm_compute. reflexivity. Qed.
End Acquire.
