(* ===== verification/Rounding.v ===== *)
(** * Rounding of [f64]

    [SpecFloat] gives the operations of IEEE 754 as functions.  Here: rounding to
    binary64 is monotone, so multiplying a [u64] by a fraction the way the code
    does ([(count as f64 * factor) as u64]) keeps the order of counts, never
    makes a count below 2^53 larger, and stays in [u64].  Values are compared as
    integers in units of [2^E] for an [E] below every exponent that occurs. *)

From Stdlib Require Import Floats.SpecFloat.
From S2P Require Import Prelude CircuitBreaker Acquire.

Module Rounding.
Import Acquire.

(** ** Rounding an integer to a multiple of a power of two *)

(** [x / 2^n] to the nearest, ties to even. *)
Definition nearest (x n : Z) : Z :=
  let q := x / 2 ^ n in
  match 2 * (x mod 2 ^ n) ?= 2 ^ n with
  | Lt => q
  | Eq => if Z.even q then q else q + 1
  | Gt => q + 1
  end.

Lemma nearest_range x n : x / 2 ^ n ≤ nearest x n ≤ x / 2 ^ n + 1.
Proof. unfold nearest. destruct (_ ?= _); [destruct (Z.even _)|..]; lia. Qed.

Lemma nearest_mono x y n : 0 ≤ n → x ≤ y → nearest x n ≤ nearest y n.
Proof.
  intros Hn Hxy. pose proof (nearest_range x n). pose proof (nearest_range y n).
  assert (0 < 2 ^ n) by lia.
  pose proof (Z.div_le_mono x y (2 ^ n)).
  destruct (decide (x / 2 ^ n < y / 2 ^ n)); [lia|].
  assert (Hq : x / 2 ^ n = y / 2 ^ n) by lia. unfold nearest. rewrite <-Hq.
  pose proof (Z.div_mod x (2 ^ n)). pose proof (Z.div_mod y (2 ^ n)). rewrite <-Hq in *.
  destruct (Z.compare_spec (2 * (x mod 2 ^ n)) (2 ^ n)),
    (Z.compare_spec (2 * (y mod 2 ^ n)) (2 ^ n)); destruct (Z.even (x / 2 ^ n)); lia.
Qed.

Lemma nearest_exact x n : 0 ≤ n → nearest (x * 2 ^ n) n = x.
Proof.
  intros Hn. assert (0 < 2 ^ n) by lia. unfold nearest. rewrite Z.mod_mul, Z.div_mul by lia.
  by rewrite (proj2 (Z.compare_lt_iff (2 * 0) (2 ^ n))) by lia.
Qed.

Lemma nearest_scale x n a : 0 ≤ n → 0 ≤ a → nearest (x * 2 ^ a) (n + a) = nearest x n.
Proof.
  intros Hn Ha. assert (0 < 2 ^ n) by lia. assert (0 < 2 ^ a) by lia. unfold nearest.
  rewrite Z.pow_add_r by done. rewrite Z.div_mul_cancel_r, Zmult_mod_distr_r by lia.
  rewrite Z.mul_assoc. by rewrite <-Zmult_compare_compat_r by lia.
Qed.

(** Rounding to 53 significant bits, no finer than [2^c]: [grain] is the
    exponent kept. *)
Definition grain (c x : Z) : Z := Z.max (Z.log2 x - 52) c.
Definition rounded (c x : Z) : Z := nearest x (grain c x) * 2 ^ grain c x.

Lemma rounded_pow_le c x a : 0 ≤ c → grain c x ≤ a → x ≤ 2 ^ a → rounded c x ≤ 2 ^ a.
Proof.
  intros Hc Ha Hx. unfold rounded. set (g := grain c x) in *. assert (0 ≤ g) by (unfold g, grain; lia).
  replace (2 ^ a) with (2 ^ (a - g) * 2 ^ g) in * by (rewrite <-Z.pow_add_r by lia; f_equal; lia).
  apply Z.mul_le_mono_nonneg_r; [lia|]. rewrite <-(nearest_exact (2 ^ (a - g)) g) by done.
  by apply nearest_mono.
Qed.
Lemma rounded_pow_ge c x a : 0 ≤ c → grain c x ≤ a → 2 ^ a ≤ x → 2 ^ a ≤ rounded c x.
Proof.
  intros Hc Ha Hx. unfold rounded. set (g := grain c x) in *. assert (0 ≤ g) by (unfold g, grain; lia).
  replace (2 ^ a) with (2 ^ (a - g) * 2 ^ g) in * by (rewrite <-Z.pow_add_r by lia; f_equal; lia).
  apply Z.mul_le_mono_nonneg_r; [lia|]. rewrite <-(nearest_exact (2 ^ (a - g)) g) at 1 by done.
  by apply nearest_mono.
Qed.

(** Rounding is monotone: within a binade by [nearest_mono], across binades
    through the power of two between them. *)
Lemma rounded_mono c x y : 0 ≤ c → 0 < x → x ≤ y → rounded c x ≤ rounded c y.
Proof.
  intros Hc Hx Hxy. pose proof (Z.log2_le_mono x y Hxy).
  destruct (decide (grain c x = grain c y)) as [Hg|Hg].
  - unfold rounded. rewrite Hg. apply Z.mul_le_mono_nonneg_r; [lia|].
    apply nearest_mono; [unfold grain; lia|done].
  - assert (Z.log2 x < Z.log2 y ∧ grain c x ≤ Z.log2 y ∧ grain c y ≤ Z.log2 y) as (Hl & Hgx & Hgy)
      by (unfold grain in *; lia).
    pose proof (Z.log2_spec x Hx). pose proof (Z.log2_spec y).
    assert (2 ^ Z.succ (Z.log2 x) ≤ 2 ^ Z.log2 y) by (apply Z.pow_le_mono_r; lia).
    trans (2 ^ Z.log2 y); [apply rounded_pow_le|apply rounded_pow_ge]; lia.
Qed.

Lemma rounded_exact c x : 0 ≤ c → (2 ^ grain c x | x) → rounded c x = x.
Proof.
  intros Hc Hd. assert (0 ≤ grain c x) as Hg by (unfold grain; lia). unfold rounded.
  revert Hg Hd. generalize (grain c x). intros g Hg [q ->]. by rewrite nearest_exact.
Qed.

(** ** What [SpecFloat] computes *)
Lemma digits2_log2 m : Zdigits2 (Zpos m) = Z.log2 (Zpos m) + 1.
Proof.
  assert (∀ p, digits2_pos p = Pos.size p) as Hd by (intros p; induction p; simpl; congruence).
  simpl. rewrite Hd. destruct m; simpl; lia.
Qed.

Lemma iter_pos_nat {A} (f : A → A) p x : SpecFloat.iter_pos f p x = Nat.iter (Pos.to_nat p) f x.
Proof.
  revert x. induction p as [p IH|p IH|]; intros x; cbn [SpecFloat.iter_pos].
  - rewrite !IH, Pos2Nat.inj_xI. rewrite <-Nat.iter_add. rewrite <-Nat.iter_succ_r. f_equal. lia.
  - rewrite !IH, Pos2Nat.inj_xO. rewrite <-Nat.iter_add. f_equal. lia.
  - done.
Qed.

(** After [n + 1] shifts: the quotient, the last bit shifted out, and whether
    any of the bits before it was set. *)
Lemma shr_iter m n :
  0 ≤ m →
  Nat.iter (S n) shr_1 {| shr_m := m; shr_r := false; shr_s := false |}
  = {| shr_m := m / 2 ^ Z.of_nat (S n);
       shr_r := Z.odd (m / 2 ^ Z.of_nat n);
       shr_s := negb (m mod 2 ^ Z.of_nat n =? 0) |}.
Proof.
  intros Hm.
  assert (Hstep : ∀ q r s, 0 ≤ q →
    shr_1 {| shr_m := q; shr_r := r; shr_s := s |}
    = {| shr_m := q / 2; shr_r := Z.odd q; shr_s := r || s |}).
  { intros q r s Hq. rewrite <-Z.div2_div. by destruct q as [|[p|p|]|]. }
  induction n as [|n IH].
  - change (Nat.iter 1 shr_1 ?x) with (shr_1 x). rewrite Hstep by done.
    by rewrite Z.pow_0_r, Z.div_1_r, Z.mod_1_r.
  - rewrite Nat.iter_succ, IH, Hstep by (apply Z.div_pos; lia).
    rewrite Z.div_div by lia. f_equal.
    + f_equal. rewrite (Nat2Z.inj_succ (S n)), Z.pow_succ_r by lia. lia.
    + rewrite (Nat2Z.inj_succ n), Z.pow_succ_r by lia. rewrite (Z.mul_comm 2).
      rewrite Z.rem_mul_r by lia. rewrite <-Z.bit0_mod, Z.bit0_odd.
      pose proof (Z.mod_pos_bound m (2 ^ Z.of_nat n)).
      destruct (Z.odd (m / 2 ^ Z.of_nat n)); simpl.
      * symmetry. apply negb_true_iff, Z.eqb_neq. lia.
      * by rewrite Z.mul_0_r, Z.add_0_r.
Qed.

Lemma shr_nearest m p :
  0 ≤ m →
  let mrs := SpecFloat.iter_pos shr_1 p {| shr_m := m; shr_r := false; shr_s := false |} in
  round_nearest_even (shr_m mrs) (loc_of_shr_record mrs) = nearest m (Zpos p).
Proof.
  intros Hm. rewrite iter_pos_nat. destruct (Pos2Nat.is_succ p) as [n Hn]. rewrite Hn.
  rewrite shr_iter by done.
  assert (Zpos p = Z.of_nat (S n)) as -> by lia. unfold nearest.
  assert (Hpow : 2 ^ Z.of_nat (S n) = 2 ^ Z.of_nat n * 2)
    by (rewrite Nat2Z.inj_succ, Z.pow_succ_r by lia; lia).
  assert (Hmod : m mod 2 ^ Z.of_nat (S n)
    = m mod 2 ^ Z.of_nat n + 2 ^ Z.of_nat n * Z.b2z (Z.odd (m / 2 ^ Z.of_nat n)))
    by (rewrite Hpow, Z.rem_mul_r, <-Z.bit0_mod, Z.bit0_odd by lia; done).
  pose proof (Z.mod_pos_bound m (2 ^ Z.of_nat n)). rewrite Hmod. cbn [shr_m loc_of_shr_record].
  set (h := 2 ^ Z.of_nat n) in *. set (r := m mod h) in *.
  destruct (Z.odd (m / h)); destruct (Z.eqb_spec r 0) as [Hr|Hr]; cbn [negb Z.b2z];
    match goal with |- context [?a ?= ?b] => destruct (Z.compare_spec a b) end; try lia; done.
Qed.

(** [x] is a float that is not negative, of value [v] in units of [2^E]. *)
Definition denotes (E : Z) (x : spec_float) (v : Z) : Prop :=
  match x with
  | S754_zero false => v = 0
  | S754_finite false m e => E ≤ e ∧ v = Zpos m * 2 ^ (e - E)
  | _ => False
  end.

Lemma fexp_grain m e E :
  E ≤ e → fexp 53 1024 (Zdigits2 (Zpos m) + e) - E = grain (-1074 - E) (Zpos m * 2 ^ (e - E)).
Proof.
  intros He. rewrite digits2_log2. unfold fexp, grain.
  change (emin 53 1024) with (-1074). rewrite Z.log2_mul_pow2 by lia. lia.
Qed.

(** A mantissa of at most 53 bits, or exactly [2^53], comes through the second
    shift with its value. *)
Lemma shr_fits q f E :
  0 ≤ q ≤ 2 ^ 53 → -1074 ≤ f → f < 971 → E ≤ f →
  denotes E (let '(mrs, e) := shr_fexp 53 1024 q f loc_Exact in
             match shr_m mrs with
             | Z0 => S754_zero false
             | Zpos m => if e <=? 1024 - 53 then S754_finite false m e else S754_infinity false
             | _ => S754_nan
             end) (q * 2 ^ (f - E)).
Proof.
  intros Hq Hf Hf' HE. destruct q as [|q|]; [|..|lia].
  - unfold shr_fexp, fexp. cbn [Zdigits2 shr_record_of_loc]. change (emin 53 1024) with (-1074).
    destruct (Z.max (0 + f - 53) (-1074) - f) eqn:Hn; try done; lia.
  - unfold shr_fexp. rewrite digits2_log2. unfold fexp. change (emin 53 1024) with (-1074).
    destruct (decide (Zpos q = 2 ^ 53)) as [Hq53|Hq53].
    + rewrite Hq53. rewrite Z.log2_pow2 by lia.
      replace (Z.max (53 + 1 + f - 53) (-1074) - f) with 1 by lia.
      cbn [shr SpecFloat.iter_pos shr_record_of_loc]. cbn -[Z.mul Z.pow Z.leb].
      rewrite (proj2 (Z.leb_le (f + 1) _)) by lia. cbn -[Z.mul Z.pow]. split; [lia|].
      replace (f + 1 - E) with (1 + (f - E)) by lia. rewrite Z.pow_add_r by lia. lia.
    + assert (Z.log2 (Zpos q) < 53) by (apply Z.log2_lt_pow2; lia).
      destruct (Z.max (Z.log2 (Zpos q) + 1 + f - 53) (-1074) - f) eqn:Hn; [..|lia|];
        cbn -[Z.mul Z.pow Z.leb]; rewrite (proj2 (Z.leb_le f _)) by lia; done.
Qed.

Lemma round_aux_denotes m e E :
  E ≤ e → E ≤ -1074 → Z.log2 (Zpos m) + e ≤ 900 →
  denotes E (binary_round_aux 53 1024 false (Zpos m) e loc_Exact)
    (rounded (-1074 - E) (Zpos m * 2 ^ (e - E))).
Proof.
  intros He HE Hm. pose proof (fexp_grain m e E He) as Hg.
  unfold binary_round_aux, shr_fexp at 1. cbn [shr_record_of_loc].
  set (f := fexp 53 1024 (Zdigits2 (Zpos m) + e)) in *.
  assert (Hf : f = Z.max (Z.log2 (Zpos m) + 1 + e - 53) (-1074)) by (unfold f; by rewrite digits2_log2).
  pose proof (Z.log2_nonneg (Zpos m)).
  destruct (f - e) as [|p|p] eqn:Hn; cbn [shr].
  1, 3: cbn [loc_of_shr_record round_nearest_even shr_m];
    rewrite rounded_exact by
      (try lia; rewrite <-Hg; apply Z.divide_mul_r; exists (2 ^ (e - f));
       rewrite <-Z.pow_add_r by lia; f_equal; lia);
    apply shr_fits; [|lia..]; split; [lia|];
    pose proof (Z.log2_spec (Zpos m)); pose proof (Z.pow_le_mono_r 2 (Z.succ (Z.log2 (Zpos m))) 53); lia.
  rewrite (shr_nearest (Zpos m) p) by lia.
  replace (e + Zpos p) with f by lia. unfold rounded. rewrite <-Hg.
  replace (f - E) with (Zpos p + (e - E)) at 1 by lia. rewrite nearest_scale by lia.
  apply shr_fits; [|lia..].
  pose proof (nearest_range (Zpos m) (Zpos p)).
  assert (0 ≤ Zpos m / 2 ^ Zpos p) by (apply Z.div_pos; lia).
  assert (Zpos m / 2 ^ Zpos p < 2 ^ 53); [|lia].
  apply Z.div_lt_upper_bound; [lia|]. rewrite <-Z.pow_add_r by lia.
  pose proof (Z.log2_spec (Zpos m)).
  pose proof (Z.pow_le_mono_r 2 (Z.succ (Z.log2 (Zpos m))) (Zpos p + 53)). lia.
Qed.

(** [count as f64]. *)
Lemma f64_of_u64_denotes z E :
  0 ≤ z < two64 → E ≤ -1074 → denotes E (f64_of_u64 z) (rounded (-1074 - E) (z * 2 ^ (- E))).
Proof.
  intros Hz HE. unfold f64_of_u64. destruct z as [|m|]; [| |lia].
  - rewrite Z.mul_0_l. cbn. rewrite rounded_exact; [done|lia|]. apply Z.divide_0_r.
  - cbn [binary_normalize]. unfold binary_round, shl_align.
    change (Zpos (digits2_pos m)) with (Zdigits2 (Zpos m)). rewrite digits2_log2.
    pose proof (Z.log2_nonneg (Zpos m)).
    assert (Z.log2 (Zpos m) < 64) by (apply Z.log2_lt_pow2; [lia|exact (proj2 Hz)]).
    assert (Hf : fexp 53 1024 (Z.log2 (Zpos m) + 1 + 0) = Z.log2 (Zpos m) - 52).
    { unfold fexp. change (emin 53 1024) with (-1074). lia. }
    rewrite Hf. destruct (Z.log2 (Zpos m) - 52 - 0) as [|d|d] eqn:Hd.
    1, 2: replace (- E) with (0 - E) by lia; apply round_aux_denotes; lia.
    replace (Z.log2 (Zpos m) - 52) with (Zneg d) by lia.
    assert (Hshift : Zpos (Pos.iter xO m d) = Zpos m * 2 ^ Zpos d).
    { rewrite <-Z.shiftl_mul_pow2 by lia. unfold Z.shiftl. simpl.
      by rewrite (Pos.iter_swap_gen _ _ Zpos xO (Z.mul 2)). }
    replace (Zpos m * 2 ^ (- E)) with (Zpos (Pos.iter xO m d) * 2 ^ (Zneg d - E)).
    + apply round_aux_denotes; [lia..|]. rewrite Hshift, Z.log2_mul_pow2 by lia. lia.
    + rewrite Hshift, <-Z.mul_assoc, <-Z.pow_add_r by lia. do 2 f_equal. lia.
Qed.

(** [x as u64], for a float that is not negative: the integer part, cut at
    [u64::MAX]. *)
Lemma u64_of_f64_denotes x v E :
  E ≤ 0 → denotes E x v → u64_of_f64 x = Z.min (two64 - 1) (v / 2 ^ (- E)).
Proof.
  intros HE. destruct x as [[]|[]| |[] m e]; simpl; try done.
  - intros ->. by rewrite Z.div_0_l by lia.
  - intros [He ->]. f_equal. destruct (decide (0 ≤ e)) as [Hp|Hn].
    + rewrite Z.shiftl_mul_pow2 by done.
      replace (e - E) with (e + - E) by lia. rewrite Z.pow_add_r, Z.mul_assoc, Z.div_mul by lia. done.
    + replace e with (- (- e)) at 1 by lia. rewrite Z.shiftl_opp_r, Z.shiftr_div_pow2 by lia.
      replace (- E) with (- e + (e - E)) by lia. rewrite Z.pow_add_r by lia.
      by rewrite Z.div_mul_cancel_r by lia.
Qed.

(** A factor between 0 and 1. *)
Definition fraction (d : spec_float) : Prop :=
  match d with
  | S754_zero false => True
  | S754_finite false m e => -2000 ≤ e ≤ 0 ∧ Zpos m ≤ 2 ^ (- e)
  | _ => False
  end.
#[export] Instance fraction_dec d : Decision (fraction d).
Proof. destruct d as [[]|[]| |[] m e]; simpl; apply _. Defined.

(** The factor in units of [2^-2000]. *)
Definition weight (d : spec_float) : Z :=
  match d with S754_finite false m e => Zpos m * 2 ^ (e + 2000) | _ => 0 end.

Lemma weight_range d : fraction d → 0 ≤ weight d ≤ 2 ^ 2000.
Proof.
  destruct d as [[]|[]| |[] m e]; cbn -[Z.pow Z.mul]; try lia. intros [He Hm].
  split; [lia|]. replace (2 ^ 2000) with (2 ^ (- e) * 2 ^ (e + 2000));
    [apply Z.mul_le_mono_nonneg_r; lia|].
  rewrite <-Z.pow_add_r by lia. f_equal. lia.
Qed.

Lemma rounded_0 c : 0 ≤ c → rounded c 0 = 0.
Proof. intros Hc. apply rounded_exact; [done|]. apply Z.divide_0_r. Qed.
Lemma rounded_le c x y : 0 ≤ c → 0 ≤ x → x ≤ y → rounded c x ≤ rounded c y.
Proof.
  intros Hc Hx Hxy. destruct (decide (x = 0)) as [->|]; [|by apply rounded_mono; lia].
  rewrite rounded_0 by done. unfold rounded, grain.
  apply Z.mul_nonneg_nonneg; [|lia]. pose proof (nearest_range y (Z.max (Z.log2 y - 52) c)).
  assert (0 ≤ y / 2 ^ Z.max (Z.log2 y - 52) c) by (apply Z.div_pos; lia). lia.
Qed.
Lemma rounded_nonneg c x : 0 ≤ c → 0 ≤ x → 0 ≤ rounded c x.
Proof. intros Hc Hx. rewrite <-(rounded_0 c) by done. by apply rounded_le. Qed.

Lemma rounded_u64 z E :
  0 ≤ z < two64 → E ≤ -1074 → rounded (-1074 - E) (z * 2 ^ (- E)) ≤ 2 ^ (64 - E).
Proof.
  intros Hz HE.
  assert (z * 2 ^ (- E) ≤ 2 ^ (64 - E)) as Hle.
  { replace (64 - E) with (64 + - E) by lia. rewrite Z.pow_add_r by lia.
    apply Z.mul_le_mono_nonneg_r; [lia|]. unfold two64 in Hz. lia. }
  apply rounded_pow_le; [lia| |done]. unfold grain.
  apply Z.log2_le_mono in Hle. rewrite Z.log2_pow2 in Hle by lia. lia.
Qed.

(** [count as f64 * factor] rounds the product of the rounded count. *)
Lemma product_denotes z d E :
  0 ≤ z < two64 → fraction d → E ≤ -1074 →
  denotes (E - 2000) (f64_mul (f64_of_u64 z) d)
    (rounded (-1074 - (E - 2000)) (rounded (-1074 - E) (z * 2 ^ (- E)) * weight d)).
Proof.
  intros Hz Hd HE. pose proof (f64_of_u64_denotes z E Hz HE) as Hx.
  pose proof (rounded_u64 z E Hz HE) as Hv. revert Hx Hv.
  generalize (rounded (-1074 - E) (z * 2 ^ (- E))). intros v Hx Hv.
  destruct (f64_of_u64 z) as [[]|[]| |[] m e]; try done; simpl in Hx;
    destruct d as [[]|[]| |[] md ed]; try done; simpl in Hd;
    cbn [f64_mul SFmul weight xorb denotes];
    try (rewrite ?Hx, ?Z.mul_0_r, ?Z.mul_0_l, rounded_0 by lia; done).
  destruct Hx as [He ->], Hd as [Hed Hmd].
  replace (Zpos m * 2 ^ (e - E) * (Zpos md * 2 ^ (ed + 2000)))
    with (Zpos (m * md) * 2 ^ (e + ed - (E - 2000))).
  - apply Z.log2_le_mono in Hv, Hmd. rewrite Z.log2_mul_pow2, Z.log2_pow2 in Hv by lia.
    rewrite Z.log2_pow2 in Hmd by lia.
    pose proof (Z.log2_mul_above (Zpos m) (Zpos md)).
    apply round_aux_denotes; rewrite ?Pos2Z.inj_mul; lia.
  - rewrite Pos2Z.inj_mul. replace (e + ed - (E - 2000)) with ((e - E) + (ed + 2000)) by lia.
    rewrite Z.pow_add_r by lia. lia.
Qed.

(** [(count as f64 * factor) as u64]. *)
Definition scaled (d : spec_float) (z : Z) : Z := u64_of_f64 (f64_mul (f64_of_u64 z) d).

Lemma scaled_value d z E :
  0 ≤ z < two64 → fraction d → E ≤ -1074 →
  scaled d z = Z.min (two64 - 1)
    (rounded (-1074 - (E - 2000)) (rounded (-1074 - E) (z * 2 ^ (- E)) * weight d) / 2 ^ (- (E - 2000))).
Proof. intros Hz Hd HE. apply u64_of_f64_denotes; [lia|]. by apply product_denotes. Qed.

Lemma scaled_mono d x y : fraction d → 0 ≤ x → x ≤ y → y < two64 → scaled d x ≤ scaled d y.
Proof.
  intros Hd Hx Hxy Hy. rewrite !(scaled_value d _ (-1074)) by (done || lia).
  pose proof (weight_range d Hd). apply Z.min_le_compat_l, Z.div_le_mono; [lia|].
  apply rounded_le; [lia| |].
  - apply Z.mul_nonneg_nonneg; [|lia]. apply rounded_nonneg; lia.
  - apply Z.mul_le_mono_nonneg_r; [lia|]. apply rounded_le; lia.
Qed.

Lemma rounded_fits z E : 0 ≤ z < 2 ^ 53 → E ≤ -1074 → rounded (-1074 - E) (z * 2 ^ (- E)) = z * 2 ^ (- E).
Proof.
  intros Hz HE. destruct (decide (z = 0)) as [->|]; [by rewrite rounded_0 by lia|].
  apply rounded_exact; [lia|]. assert (Z.log2 z < 53) by (apply Z.log2_lt_pow2; lia).
  unfold grain. rewrite Z.log2_mul_pow2 by lia. set (g := Z.max _ _).
  exists (z * 2 ^ (- E - g)). rewrite <-Z.mul_assoc, <-Z.pow_add_r by lia. do 2 f_equal. lia.
Qed.

Lemma scaled_le d z : fraction d → 0 ≤ z < 2 ^ 53 → 0 ≤ scaled d z ≤ z.
Proof.
  intros Hd Hz. split; [apply u64_of_f64_nonneg|].
  rewrite (scaled_value d z (-1074)) by (done || (unfold two64; lia)).
  rewrite rounded_fits by lia. pose proof (weight_range d Hd).
  etrans; [apply Z.le_min_r|]. apply Z.div_le_upper_bound; [lia|].
  rewrite (Z.mul_comm _ z), <-(rounded_fits z (-1074 - 2000)) by lia.
  apply rounded_le; [lia|lia|].
  replace (- (-1074 - 2000)) with (- -1074 + 2000) by lia.
  rewrite Z.pow_add_r, Z.mul_assoc by lia. apply Z.mul_le_mono_nonneg_l; lia.
Qed.
End Rounding.
