(* ===== verification/HotData.v ===== *)
(** * Hot data detection (observability/hot_data.rs)

    [CountMinSketch] counts accesses per fingerprint with a table of hash
    buckets, [TopKHeap] keeps the [k] fingerprints with the largest counts, and
    [HotDataTracker] feeds the one into the other.  The hash functions (crate
    ahash) are parameters, as are the two things the standard library leaves open:
    which of several smallest entries a [BinaryHeap] has at its root ([tie]) and in
    which order a [HashMap] is iterated ([hash_order]).  A run is any sequence of
    recorded accesses and of decays, as the background task of main.rs applies
    them; each call is one step. *)

From stdpp Require Import sorting.
From Stdlib Require Import Floats.SpecFloat.
From S2P Require Import Prelude CircuitBreaker Acquire Rounding.

Module Hot.
Import Acquire Rounding.

Record HotDataEntry : Type := Entry { fingerprint : bytes; access_count : Z }.
#[export] Instance HotDataEntry_eq_dec : EqDecision HotDataEntry.
Proof. solve_decision. Defined.

(** [*count as f64 * decay_factor] as [u64]. *)
Definition decayed (decay_factor : spec_float) (current : Z) : Z :=
  u64_of_f64 (f64_mul (f64_of_u64 current) decay_factor).

(** ** Count-min sketch *)
Record CountMinSketch : Type := sketch {
  width : nat;
  depth : nat;
  table : list (list Z);
  hash_builders : list (bytes → Z)
}.

Definition sketch_new (width_ depth_ : nat) (builders : list (bytes → Z)) : CountMinSketch :=
  sketch width_ depth_ (replicate depth_ (replicate width_ 0)) builders.

Section sketch.
Context `{Build}.

(** [self.hash_builders[i]] and [self.table[i][bucket]] panic out of range. *)
Definition hash (s : CountMinSketch) (fp : bytes) (i : nat) : outcome Z :=
  match hash_builders s !! i with Some h => Ret (h fp) | None => Panic end.

Definition bucket_of (s : CountMinSketch) (fp : bytes) (i : nat) : outcome nat :=
  h ← hash s fp i;
  if decide (width s = 0%nat) then Panic else Ret (Z.to_nat (h mod Z.of_nat (width s))).

Definition bump (s : CountMinSketch) (fp : bytes) (i : nat) : outcome (CountMinSketch * Z) :=
  bucket ← bucket_of s fp i;
  match table s !! i with
  | None => Panic
  | Some row =>
      match row !! bucket with
      | None => Panic
      | Some old =>
          new_count ← u64_add old 1;
          Ret (sketch (width s) (depth s)
                 (<[i := <[bucket := atomic_add two64 old 1]> row]> (table s)) (hash_builders s),
               new_count)
      end
  end.

Definition increment (s : CountMinSketch) (fp : bytes) : outcome (CountMinSketch * Z) :=
  ofoldl (λ acc i, r ← bump acc.1 fp i; Ret (r.1, Z.min acc.2 r.2))
         (s, two64 - 1) (seq 0 (depth s)).

Definition sketch_decay (decay_factor : spec_float) (s : CountMinSketch) : CountMinSketch :=
  sketch (width s) (depth s) ((λ row : list Z, decayed decay_factor <$> row) <$> table s) (hash_builders s).
End sketch.

(** ** Top-k heap *)
Record TopKHeap : Type := topk {
  k : nat;
  heap : list HotDataEntry;
  fingerprint_to_count : gmap bytes Z
}.

Definition topk_new (k_ : nat) : TopKHeap := topk k_ [] ∅.

Definition entry (p : bytes * Z) : HotDataEntry := Entry p.1 p.2.
Definition smallest (h : list HotDataEntry) (e : HotDataEntry) : Prop :=
  Forall (λ e', access_count e ≤ access_count e') h.
#[export] Instance smallest_dec h e : Decision (smallest h e).
Proof. unfold smallest. apply _. Defined.

(** [sort_by(|a, b| b.access_count.cmp(&a.access_count))]. *)
Definition by_count (a b : HotDataEntry) : Prop := access_count b ≤ access_count a.
#[export] Instance by_count_dec a b : Decision (by_count a b).
Proof. unfold by_count. apply _. Defined.

#[export] Instance by_count_trans : Transitive by_count.
Proof. intros a b c. unfold by_count. lia. Qed.
#[export] Instance by_count_total : Total by_count.
Proof. intros a b. unfold by_count. lia. Qed.

Section topk.
Context (tie : list HotDataEntry → nat) (hash_order : list (bytes * Z) → list (bytes * Z)).

(** The root of the min-heap is some entry with the smallest count. *)
Definition peek (h : list HotDataEntry) : option HotDataEntry :=
  let candidates := filter (smallest h) h in
  candidates !! (tie h `mod` length candidates)%nat.

(** [pop] takes the root away: one occurrence of it. *)
Fixpoint remove_first (e : HotDataEntry) (h : list HotDataEntry) : list HotDataEntry :=
  match h with
  | [] => []
  | x :: h => if decide (x = e) then h else x :: remove_first e h
  end.
Definition pop (h : list HotDataEntry) : option (HotDataEntry * list HotDataEntry) :=
  (λ e, (e, remove_first e h)) <$> peek h.

Definition iter (m : gmap bytes Z) : list (bytes * Z) := hash_order (map_to_list m).

Definition rebuild_heap (t : TopKHeap) : TopKHeap :=
  topk (k t) (entry <$> iter (fingerprint_to_count t)) (fingerprint_to_count t).

Definition update (t : TopKHeap) (fp : bytes) (count : Z) : TopKHeap :=
  match fingerprint_to_count t !! fp with
  | Some _ => rebuild_heap (topk (k t) (heap t) (<[fp := count]> (fingerprint_to_count t)))
  | None =>
      if decide (size (fingerprint_to_count t) < k t)%nat then
        topk (k t) (Entry fp count :: heap t) (<[fp := count]> (fingerprint_to_count t))
      else
        match peek (heap t) with
        | None => t
        | Some min_entry =>
            if access_count min_entry <? count then
              let t1 := match pop (heap t) with
                        | Some (removed, h) =>
                            topk (k t) h (delete (fingerprint removed) (fingerprint_to_count t))
                        | None => t
                        end in
              topk (k t) (Entry fp count :: heap t1) (<[fp := count]> (fingerprint_to_count t1))
            else t
        end
  end.

Definition get_top_k (t : TopKHeap) : list HotDataEntry :=
  merge_sort by_count (entry <$> iter (fingerprint_to_count t)).

Definition topk_decay (decay_factor : spec_float) (t : TopKHeap) : TopKHeap :=
  rebuild_heap (topk (k t) (heap t) (decayed decay_factor <$> fingerprint_to_count t)).

Definition unique_count (t : TopKHeap) : nat := size (fingerprint_to_count t).

(** ** The tracker *)
Record HotDataTracker : Type := tracker {
  the_sketch : CountMinSketch;
  top_k : TopKHeap;
  decay_factor : spec_float
}.

Definition tracker_new (k_ : nat) (decay : spec_float) (builders : list (bytes → Z)) : HotDataTracker :=
  tracker (sketch_new 2048 4 builders) (topk_new k_) decay.

Definition record_access `{Build} (t : HotDataTracker) (fp : bytes) : outcome HotDataTracker :=
  r ← increment (the_sketch t) fp;
  Ret (tracker r.1 (update (top_k t) fp r.2) (decay_factor t)).

Definition apply_decay (t : HotDataTracker) : HotDataTracker :=
  tracker (sketch_decay (decay_factor t) (the_sketch t)) (topk_decay (decay_factor t) (top_k t))
          (decay_factor t).

(** [ProxyMetrics::record_hot_data] (observability/metrics.rs). *)
Definition record_hot_data `{Build} (t : HotDataTracker) (fps : list bytes) : outcome HotDataTracker :=
  ofoldl record_access t fps.
End topk.

(** ** Runs: accesses and decays *)
Inductive op : Type := Access (fp : bytes) | Decay.

(** What happens to the tracker: a query's fingerprints are recorded, or the
    background task ticks. *)
Inductive event : Type := Recorded (fps : list bytes) | Ticked.
Definition on_event `{Build} tie hash_order (t : HotDataTracker) (e : event) : outcome HotDataTracker :=
  match e with
  | Recorded fps => record_hot_data tie hash_order t fps
  | Ticked => Ret (apply_decay hash_order t)
  end.
Definition ops_of (es : list event) : list op :=
  es ≫= λ e, match e with Recorded fps => Access <$> fps | Ticked => [Decay] end.

(** ** The sketch counts bucket hits *)
Definition slot (s : CountMinSketch) (i : nat) (fp : bytes) : nat :=
  match hash_builders s !! i with
  | Some h => Z.to_nat (h fp mod Z.of_nat (width s))
  | None => 0
  end.

(** The accesses that satisfy [Q], each decay scaling what was counted before it. *)
Section tally.
Context (d : spec_float).
Definition tally_step (Q : bytes → Prop) `{!∀ g, Decision (Q g)} (n : Z) (o : op) : Z :=
  match o with
  | Access g => if decide (Q g) then n + 1 else n
  | Decay => decayed d n
  end.
Definition tally (Q : bytes → Prop) `{!∀ g, Decision (Q g)} (hist : list op) : Z :=
  foldl (tally_step Q) 0 hist.
Definition hits (s : CountMinSketch) (hist : list op) (i j : nat) : Z :=
  tally (λ g, slot s i g = j) hist.
Definition occurrences (hist : list op) (fp : bytes) : Z := tally (λ g, g = fp) hist.
Definition total (hist : list op) : Z := tally (λ _, True) hist.
Definition accesses (hist : list op) : nat :=
  length (omap (λ o, match o with Access g => Some g | Decay => None end) hist).

(** Row [i] of the table has counted the accesses [hist i]. *)
Record counts (s : CountMinSketch) (hist : nat → list op) : Prop := {
  counts_width : width s ≠ 0%nat;
  counts_builders : length (hash_builders s) = depth s;
  counts_hash : Forall (λ h, ∀ fp, 0 ≤ h fp < two64) (hash_builders s);
  counts_row : ∀ i, (i < depth s)%nat → ∃ row, table s !! i = Some row ∧ length row = width s ∧
    ∀ j, (j < width s)%nat → row !! j = Some (hits s (hist i) i j)
}.

(** The smallest of the counters of [fp]. *)
Definition estimate (s : CountMinSketch) (hist : list op) (fp : bytes) : Z :=
  foldl (λ m i, Z.min m (hits s hist i (slot s i fp))) (two64 - 1) (seq 0 (depth s)).

Definition same_hashes (s s' : CountMinSketch) : Prop :=
  width s' = width s ∧ depth s' = depth s ∧ hash_builders s' = hash_builders s.

Lemma slot_same s s' i fp : same_hashes s s' → slot s' i fp = slot s i fp.
Proof. intros (Hw & _ & Hh). unfold slot. by rewrite Hw, Hh. Qed.
Lemma tally_snoc (Q : bytes → Prop) `{!∀ g, Decision (Q g)} hist o :
  tally Q (hist ++ [o]) = tally_step Q (tally Q hist) o.
Proof. unfold tally. by rewrite foldl_app. Qed.
Lemma tally_ext (Q Q' : bytes → Prop) `{!∀ g, Decision (Q g), !∀ g, Decision (Q' g)} hist :
  (∀ g, Q g ↔ Q' g) → tally Q hist = tally Q' hist.
Proof.
  intros HQ. induction hist as [|[g|] hist IH] using rev_ind; [done|..];
    rewrite !tally_snoc; simpl; rewrite IH; [|done]. by rewrite (decide_ext _ (Q' g)).
Qed.

Lemma hits_same s s' hist i j : same_hashes s s' → hits s' hist i j = hits s hist i j.
Proof. intros Hs. apply tally_ext. intros g. by rewrite (slot_same s s'). Qed.
Lemma estimate_same s s' hist fp : same_hashes s s' → estimate s' hist fp = estimate s hist fp.
Proof.
  intros Hs. unfold estimate. rewrite (proj1 (proj2 Hs)). generalize (two64 - 1) (seq 0 (depth s)).
  intros z l. revert z. induction l as [|i l IH]; intros z; [done|]. simpl.
  by rewrite IH, (slot_same s s'), (hits_same s s').
Qed.

Lemma slot_lt s i fp : width s ≠ 0%nat → (slot s i fp < width s)%nat.
Proof.
  intros Hw. unfold slot. destruct (hash_builders s !! i); [|lia].
  pose proof (Z.mod_pos_bound (z fp) (Z.of_nat (width s))). lia.
Qed.

Lemma hits_snoc s hist fp i j :
  hits s (hist ++ [Access fp]) i j = hits s hist i j + (if decide (slot s i fp = j) then 1 else 0).
Proof. unfold hits. rewrite tally_snoc. simpl. case_decide; lia. Qed.

Lemma accesses_snoc hist o :
  accesses (hist ++ [o]) = (accesses hist + match o with Access _ => 1 | Decay => 0 end)%nat.
Proof. unfold accesses. rewrite omap_app, length_app. by destruct o. Qed.

(** Below 2^53 counts are exact in [f64], so scaling by a fraction keeps their
    order and makes none larger. *)
Definition few (hist : list op) : Prop := Z.of_nat (accesses hist) < 2 ^ 53.
Hypothesis d_fraction : fraction d.

Lemma few_snoc hist o : few (hist ++ [o]) → few hist.
Proof. unfold few. rewrite accesses_snoc. destruct o; lia. Qed.

Lemma tally_range (Q : bytes → Prop) `{!∀ g, Decision (Q g)} hist :
  few hist → 0 ≤ tally Q hist ≤ Z.of_nat (accesses hist).
Proof.
  induction hist as [|o hist IH] using rev_ind; intros Hf; [done|].
  pose proof (few_snoc _ _ Hf) as Hf'. specialize (IH Hf'). unfold few in *.
  rewrite tally_snoc, accesses_snoc. destruct o as [g|]; simpl.
  - case_decide; lia.
  - pose proof (scaled_le d (tally Q hist) d_fraction). unfold scaled in *. unfold decayed. lia.
Qed.

Lemma decayed_mono x y : 0 ≤ x → x ≤ y → y < 2 ^ 53 → decayed d x ≤ decayed d y.
Proof. intros. apply (scaled_mono d x y); try done. unfold two64. lia. Qed.

Lemma tally_mono (Q Q' : bytes → Prop) `{!∀ g, Decision (Q g), !∀ g, Decision (Q' g)} hist :
  (∀ g, Q g → Q' g) → few hist → tally Q hist ≤ tally Q' hist.
Proof.
  intros HQ. induction hist as [|o hist IH] using rev_ind; intros Hf; [done|].
  pose proof (few_snoc _ _ Hf) as Hf'. specialize (IH Hf').
  pose proof (tally_range Q hist Hf'). pose proof (tally_range Q' hist Hf'). unfold few in *.
  rewrite !tally_snoc. destruct o as [g|]; simpl.
  - repeat case_decide; try lia. naive_solver.
  - apply decayed_mono; lia.
Qed.

Lemma hits_bound s hist i j : few hist → 0 ≤ hits s hist i j ≤ total hist.
Proof. intros Hf. split; [by apply tally_range|]. by apply tally_mono. Qed.
Lemma occurrences_hits s hist i fp : few hist → occurrences hist fp ≤ hits s hist i (slot s i fp).
Proof. intros Hf. apply tally_mono; [|done]. by intros g ->. Qed.

(** The update of one row. *)
Lemma bump_spec `{Build} s hist fp i :
  counts s hist → (i < depth s)%nat → few (hist i) →
  ∃ s', bump s fp i = Ret (s', hits s (hist i ++ [Access fp]) i (slot s i fp)) ∧ same_hashes s s' ∧
    counts s' (λ r, if decide (r = i) then hist i ++ [Access fp] else hist r).
Proof.
  intros [Hw Hb Hh Hrow] Hi Hlen. destruct (Hrow i Hi) as (row & Ht & Hr & Hcells).
  assert (slot s i fp < width s)%nat as Hsl by by apply slot_lt.
  assert (0 ≤ hits s (hist i) i (slot s i fp) < two64 - 1) as Hbnd.
  { pose proof (tally_range (λ g, slot s i g = slot s i fp) (hist i) Hlen). unfold few, two64, hits in *. lia. }
  assert (Hbk : bucket_of s fp i = Ret (slot s i fp)).
  { unfold bucket_of, hash, slot. destruct (hash_builders s !! i) as [h|] eqn:Hhi.
    - simpl. by rewrite decide_False.
    - apply lookup_ge_None in Hhi. lia. }
  unfold bump. rewrite Hbk. simpl. rewrite Ht, (Hcells _ Hsl).
  rewrite u64_add_fits by (unfold two64 in *; lia). simpl.
  rewrite hits_snoc, decide_True by done.
  eexists. split; [reflexivity|]. split; [by split_and!|].
  unfold atomic_add. rewrite Z.mod_small by (unfold two64 in *; lia).
  set (s' := sketch _ _ _ _). assert (Hss : same_hashes s s') by by split_and!.
  split; try done. intros r Hr'. cbn in Hr'. case_decide as Hri.
  - subst r. exists (<[slot s i fp := hits s (hist i) i (slot s i fp) + 1]> row).
    cbn [table s']. rewrite list_lookup_insert_eq by (by apply lookup_lt_Some in Ht).
    split; [done|]. rewrite length_insert. split; [done|]. intros j Hj.
    rewrite (hits_same s s'), hits_snoc by done. case_decide as Hsj.
    + subst j. apply list_lookup_insert_eq. lia.
    + rewrite list_lookup_insert_ne, Z.add_0_r by done. by apply Hcells.
  - destruct (Hrow r Hr') as (row' & Ht' & Hl' & Hc'). exists row'. cbn [table s'].
    rewrite list_lookup_insert_ne by done. done.
Qed.

Lemma increment_rows `{Build} s hist fp n m c :
  counts s (λ r, if decide (r < n)%nat then hist ++ [Access fp] else hist) →
  (n + m = depth s)%nat → few hist →
  ∃ s', ofoldl (λ acc i, r ← bump acc.1 fp i; Ret (r.1, Z.min acc.2 r.2)) (s, c) (seq n m)
        = Ret (s', foldl (λ z i, Z.min z (hits s (hist ++ [Access fp]) i (slot s i fp))) c (seq n m)) ∧
    same_hashes s s' ∧ counts s' (λ r, if decide (r < n + m)%nat then hist ++ [Access fp] else hist).
Proof.
  revert s n c. induction m as [|m IH]; intros s n c Hc Hnm Hlen.
  { exists s. rewrite Nat.add_0_r. by split_and!. }
  destruct (bump_spec s _ fp n Hc) as (s1 & Hb & Hs1 & Hc1); [lia| |].
  { case_decide; [lia|done]. }
  rewrite decide_False in Hb by lia. simpl. rewrite Hb. simpl.
  destruct (IH s1 (S n) (Z.min c (hits s (hist ++ [Access fp]) n (slot s n fp)))) as (s2 & H2 & Hs2 & Hc2).
  - destruct Hc1 as [? ? ? Hrow]. split; try done. intros r Hr.
    destruct (Hrow r Hr) as (row & ? & ? & Hcell). exists row. split_and!; try done.
    intros j Hj. rewrite (Hcell j Hj). do 2 f_equal. repeat case_decide; try lia; done.
  - destruct Hs1 as (_ & -> & _). lia.
  - done.
  - exists s2. simpl in H2. rewrite H2. split_and!.
    + do 2 f_equal. generalize (Z.min c (hits s (hist ++ [Access fp]) n (slot s n fp))) (seq (S n) m).
      intros z l. revert z. induction l as [|i l IHl]; intros z; [done|]. simpl.
      by rewrite IHl, (slot_same s s1), (hits_same s s1).
    + destruct Hs1 as (?&?&?), Hs2 as (?&?&?). unfold same_hashes. split_and!; congruence.
    + by rewrite Nat.add_succ_r.
Qed.

Lemma increment_spec `{Build} s hist fp :
  counts s (λ _, hist) → few hist →
  ∃ s', increment s fp = Ret (s', estimate s (hist ++ [Access fp]) fp) ∧ same_hashes s s' ∧
    counts s' (λ _, hist ++ [Access fp]).
Proof.
  intros Hc Hl. destruct (increment_rows s hist fp 0 (depth s) (two64 - 1)) as (s' & H1 & H2 & H3);
    [|done|done|].
  { destruct Hc as [? ? ? Hrow]. split; try done. }
  exists s'. split_and!; [exact H1|done|].
  destruct H3 as [? ? ? Hrow]. split; try done. intros i Hi. destruct (Hrow i Hi) as (row & ? & ? & Hcell).
  exists row. split_and!; try done. intros j Hj. rewrite (Hcell j Hj), decide_True; [done|].
  by rewrite <-(proj1 (proj2 H2)).
Qed.

Lemma foldl_min_glb (f : nat → Z) (l : list nat) (c z : Z) :
  z ≤ foldl (λ m i, Z.min m (f i)) c l ↔ z ≤ c ∧ ∀ i, i ∈ l → z ≤ f i.
Proof.
  revert c. induction l as [|i l IH]; intros c; simpl; [set_solver|].
  rewrite IH. split.
  - intros [H1 H2]. split; [lia|]. intros j [->|Hj]%elem_of_cons; [lia|auto].
  - intros [H1 H2]. split; [|set_solver]. pose proof (H2 i). set_solver by lia.
Qed.

Lemma estimate_glb s hist fp z :
  z ≤ estimate s hist fp ↔
  z < two64 ∧ ∀ i, (i < depth s)%nat → z ≤ hits s hist i (slot s i fp).
Proof.
  unfold estimate. rewrite foldl_min_glb.
  split; intros [H1 H2]; (split; [lia|]); intros i Hi; apply H2;
    [apply elem_of_seq; lia|apply elem_of_seq in Hi; lia].
Qed.

Lemma estimate_mono s hist fp g : estimate s hist fp ≤ estimate s (hist ++ [Access g]) fp.
Proof.
  apply estimate_glb. destruct (proj1 (estimate_glb s hist fp _) (Z.le_refl _)) as [H1 H2].
  split; [done|]. intros i Hi. specialize (H2 i Hi). rewrite hits_snoc. case_decide; lia.
Qed.

(** A count below the estimate stays below it when both are decayed. *)
Lemma estimate_decay s hist fp c :
  0 ≤ c → few hist → (0 < depth s)%nat → c ≤ estimate s hist fp →
  decayed d c ≤ estimate s (hist ++ [Decay]) fp.
Proof.
  intros Hc Hf Hd Hle. destruct (proj1 (estimate_glb s hist fp _) Hle) as [H1 H2].
  assert (Hb : ∀ i, (i < depth s)%nat → hits s hist i (slot s i fp) < 2 ^ 53).
  { intros i Hi. pose proof (tally_range (λ g, slot s i g = slot s i fp) hist Hf).
    unfold hits, few in *. lia. }
  assert (c < 2 ^ 53) as Hc53 by (specialize (H2 0%nat Hd); specialize (Hb 0%nat Hd); lia).
  apply estimate_glb. split.
  - pose proof (scaled_le d c d_fraction). unfold scaled, two64 in *. unfold decayed. lia.
  - intros i Hi. unfold hits. rewrite tally_snoc. simpl. fold (hits s hist i (slot s i fp)).
    apply decayed_mono; auto.
Qed.

(** The estimate is at least the decayed number of accesses, and at most the
    decayed number of all accesses. *)
Lemma estimate_bounds s hist fp :
  (0 < depth s)%nat → few hist → occurrences hist fp ≤ estimate s hist fp ≤ total hist.
Proof.
  intros Hd Hf. split.
  - apply estimate_glb. split.
    + pose proof (tally_range (λ g, g = fp) hist Hf). unfold occurrences, few, two64 in *. lia.
    + intros i _. by apply occurrences_hits.
  - destruct (proj1 (estimate_glb s hist fp _) (Z.le_refl _)) as [_ H2].
    specialize (H2 0%nat Hd). pose proof (hits_bound s hist 0 (slot s 0 fp) Hf). lia.
Qed.

(** Decaying the table decays what each row has counted. *)
Lemma decay_counts s hist :
  counts s (λ _, hist) → counts (sketch_decay d s) (λ _, hist ++ [Decay]).
Proof.
  intros [Hw Hb Hh Hrow]. split; try done. intros i Hi.
  destruct (Hrow i Hi) as (row & Ht & Hl & Hcell). exists (decayed d <$> row). cbn.
  rewrite list_lookup_fmap, Ht, length_fmap. split_and!; [done..|]. intros j Hj.
  rewrite list_lookup_fmap, (Hcell j Hj). simpl. unfold hits. by rewrite tally_snoc.
Qed.
End tally.

(** ** The heap and the map agree, and hold the largest counts *)
Section topk_proofs.
Context (tie : list HotDataEntry → nat) (hash_order : list (bytes * Z) → list (bytes * Z)).
Hypothesis hash_order_perm : ∀ l, hash_order l ≡ₚ l.

(** [R] is the last count reported for each fingerprint. *)
Record holds_top (t : TopKHeap) (R : gmap bytes Z) : Prop := {
  ht_heap : heap t ≡ₚ entry <$> map_to_list (fingerprint_to_count t);
  ht_sub : fingerprint_to_count t ⊆ R;
  ht_size : (size (fingerprint_to_count t) ≤ k t)%nat;
  ht_all : (size (fingerprint_to_count t) < k t)%nat → fingerprint_to_count t = R;
  ht_top : ∀ fp c fp' c', fingerprint_to_count t !! fp = Some c → R !! fp' = Some c' →
    fingerprint_to_count t !! fp' = None → c' ≤ c
}.

Lemma iter_perm m : iter hash_order m ≡ₚ map_to_list m.
Proof. apply hash_order_perm. Qed.

Lemma remove_first_perm e h : e ∈ h → h ≡ₚ e :: remove_first e h.
Proof.
  induction h as [|x h IH]; [by intros ?%elem_of_nil|]. simpl. case_decide as Hx; [by subst|].
  intros [->|He]%elem_of_cons; [done|]. rewrite (Permutation_swap x e). by rewrite <-IH.
Qed.

Lemma smallest_exists h : h ≠ [] → ∃ e, e ∈ h ∧ smallest h e.
Proof.
  induction h as [|x h IH]; [done|]. intros _. destruct h as [|y h].
  { exists x. split; [set_solver|]. by repeat constructor. }
  destruct IH as (e & He & Hs); [done|].
  destruct (Z.le_gt_cases (access_count x) (access_count e)).
  - exists x. split; [set_solver|]. constructor; [lia|].
    eapply Forall_impl; [exact Hs|]. simpl. intros; lia.
  - exists e. split; [set_solver|]. constructor; [lia|done].
Qed.

(** The root is a smallest entry, and there is one unless the heap is empty. *)
Lemma peek_spec h :
  match peek tie h with Some e => e ∈ h ∧ smallest h e | None => h = [] end.
Proof.
  unfold peek. destruct (filter (smallest h) h !! _) as [e|] eqn:He.
  - apply list_elem_of_lookup_2, list_elem_of_filter in He. naive_solver.
  - destruct (decide (h = [])) as [|Hne]; [done|]. exfalso.
    destruct (smallest_exists h Hne) as (e & Hin & Hs).
    assert (e ∈ filter (smallest h) h) as Hf by by apply list_elem_of_filter.
    apply lookup_ge_None in He. destruct (filter (smallest h) h) as [|x l]; [by apply elem_of_nil in Hf|].
    pose proof (Nat.mod_upper_bound (tie h) (length (x :: l))). simpl in *. lia.
Qed.

Lemma heap_entry t R e :
  holds_top t R → e ∈ heap t ↔ fingerprint_to_count t !! fingerprint e = Some (access_count e).
Proof.
  intros [Hh _ _ _ _]. rewrite Hh, list_elem_of_fmap. split.
  - intros ([fp c] & -> & Hin). by apply elem_of_map_to_list in Hin.
  - intros Hm. exists (fingerprint e, access_count e). split; [by destruct e|].
    by apply elem_of_map_to_list.
Qed.

Lemma rebuild_heap_perm t :
  heap (rebuild_heap hash_order t)
  ≡ₚ entry <$> map_to_list (fingerprint_to_count (rebuild_heap hash_order t)).
Proof. cbn. by rewrite iter_perm. Qed.

Lemma update_tracked t R fp count old :
  holds_top t R → fingerprint_to_count t !! fp = Some old → old ≤ count →
  holds_top (update tie hash_order t fp count) (<[fp := count]> R).
Proof.
  intros [Hh Hsub Hsz Hall Htop] Hfp Hle. unfold update. rewrite Hfp. split.
  - apply rebuild_heap_perm.
  - cbn. by apply insert_mono.
  - cbn. rewrite map_size_insert_Some by done. done.
  - cbn. rewrite map_size_insert_Some by done. intros Hlt. by rewrite Hall.
  - cbn. intros f c f' c' Hf Hf' Hn. apply lookup_insert_None in Hn as [Hn Hne].
    rewrite lookup_insert_ne in Hf' by done.
    apply lookup_insert_Some in Hf as [[<- <-]|[? Hf]]; [|by eapply Htop].
    pose proof (Htop fp old f' c' Hfp Hf' Hn). lia.
Qed.

Lemma update_room t R fp count :
  holds_top t R → fingerprint_to_count t !! fp = None →
  (size (fingerprint_to_count t) < k t)%nat →
  holds_top (update tie hash_order t fp count) (<[fp := count]> R).
Proof.
  intros [Hh Hsub Hsz Hall Htop] Hfp Hlt. unfold update. rewrite Hfp, decide_True by done.
  specialize (Hall Hlt). split; cbn.
  - rewrite map_to_list_insert by done. simpl. by rewrite Hh.
  - by rewrite Hall.
  - rewrite map_size_insert_None by done. lia.
  - intros _. by rewrite Hall.
  - intros f c f' c' _ Hf' Hn. rewrite Hall, Hf' in Hn. done.
Qed.

Lemma update_full t R fp count :
  holds_top t R → fingerprint_to_count t !! fp = None →
  ¬ (size (fingerprint_to_count t) < k t)%nat →
  holds_top (update tie hash_order t fp count) (<[fp := count]> R).
Proof.
  intros Ht Hfp Hge. pose proof Ht as [Hh Hsub Hsz Hall Htop].
  unfold update, pop. rewrite Hfp, decide_False by done.
  pose proof (peek_spec (heap t)) as Hp. destruct (peek tie (heap t)) as [e|]; cbn.
  - destruct Hp as [He Hmin]. pose proof (proj1 (heap_entry t R e Ht) He) as Hem.
    assert (Hleast : ∀ f c, fingerprint_to_count t !! f = Some c → access_count e ≤ c).
    { intros f c Hf. apply (heap_entry t R (Entry f c) Ht) in Hf.
      unfold smallest in Hmin. rewrite Forall_forall in Hmin. by apply (Hmin _ Hf). }
    assert (Hne : fingerprint e ≠ fp) by congruence.
    destruct (access_count e <? count) eqn:Hc; bool_to_Z.
    + assert (Hd : delete (fingerprint e) (fingerprint_to_count t) !! fp = None)
        by (by rewrite lookup_delete_ne).
      split; cbn.
      * rewrite map_to_list_insert by done. simpl. constructor.
        apply (Permutation_cons_inv (a := e)).
        rewrite <-(remove_first_perm e), Hh by done.
        rewrite <-(map_to_list_delete _ _ _ Hem). by destruct e.
      * apply insert_mono. etrans; [apply delete_subseteq|done].
      * rewrite map_size_insert_None, map_size_delete_Some by eauto.
        assert (size (fingerprint_to_count t) ≠ 0%nat); [|lia].
        rewrite map_size_ne_0_lookup. eauto.
      * rewrite map_size_insert_None, map_size_delete_Some by eauto.
        assert (size (fingerprint_to_count t) ≠ 0%nat); [|lia].
        rewrite map_size_ne_0_lookup. eauto.
      * intros f c f' c' Hf Hf' Hn. apply lookup_insert_None in Hn as [Hn Hn'].
        rewrite lookup_insert_ne in Hf' by done.
        assert (c' ≤ access_count e) as Hc'.
        { apply lookup_delete_None in Hn as [<-|Hn]; [|by eapply (Htop _ _ f')].
          rewrite (lookup_weaken _ _ _ _ Hem Hsub) in Hf'. by simplify_eq. }
        apply lookup_insert_Some in Hf as [[<- <-]|[? [? Hf]%lookup_delete_Some]]; [lia|].
        specialize (Hleast _ _ Hf). lia.
    + split; try done.
      * apply (insert_subseteq_r _ _ _ _ Hfp Hsub).
      * intros f c f' c' Hf Hf' Hn. apply lookup_insert_Some in Hf' as [[<- <-]|[? Hf']].
        -- specialize (Hleast _ _ Hf). lia.
        -- by eapply Htop.
  - assert (Hemp : fingerprint_to_count t = ∅).
    { rewrite Hp in Hh. symmetry in Hh. apply Permutation_nil_r, fmap_nil_inv in Hh.
      by apply map_to_list_empty_iff. }
    split; try done.
    + rewrite Hemp. apply map_empty_subseteq.
    + intros f c f' c' Hf. by rewrite Hemp, lookup_empty in Hf.
Qed.

Lemma update_holds t R fp count :
  holds_top t R → (∀ c, R !! fp = Some c → c ≤ count) →
  holds_top (update tie hash_order t fp count) (<[fp := count]> R).
Proof.
  intros Ht Hle. destruct (fingerprint_to_count t !! fp) as [old|] eqn:Hfp.
  - eapply update_tracked; eauto. apply Hle. by eapply lookup_weaken; [|apply Ht].
  - destruct (decide (size (fingerprint_to_count t) < k t)%nat).
    + by apply update_room.
    + by apply update_full.
Qed.

(** Heap and map agree and stay within [k], also across decay. *)
Definition consistent (t : TopKHeap) : Prop :=
  heap t ≡ₚ entry <$> map_to_list (fingerprint_to_count t) ∧
  (size (fingerprint_to_count t) ≤ k t)%nat.

Lemma update_consistent t fp count : consistent t → consistent (update tie hash_order t fp count).
Proof.
  intros [Hh Hs].
  assert (Ht : holds_top t (fingerprint_to_count t)) by (split; try done; congruence).
  destruct (fingerprint_to_count t !! fp) as [old|] eqn:Hfp.
  - unfold update. rewrite Hfp. split; [apply rebuild_heap_perm|].
    cbn. by rewrite map_size_insert_Some.
  - destruct (decide (size (fingerprint_to_count t) < k t)%nat) as [Hlt|Hge].
    + destruct (update_room _ _ fp count Ht Hfp Hlt). by split.
    + destruct (update_full _ _ fp count Ht Hfp Hge). by split.
Qed.

Lemma decay_consistent f t : consistent t → consistent (topk_decay hash_order f t).
Proof. intros [_ Hs]. split; [apply rebuild_heap_perm|]. cbn. by rewrite map_size_fmap. Qed.

(** Decay keeps the order of the counts, and with it the top. *)
Lemma decay_holds d t R :
  fraction d → holds_top t R → (∀ fp c, R !! fp = Some c → 0 ≤ c < 2 ^ 53) →
  holds_top (topk_decay hash_order d t) (decayed d <$> R).
Proof.
  intros Hd [Hh Hsub Hsz Hall Htop] HR. split; [apply rebuild_heap_perm|cbn..].
  - by apply map_fmap_mono.
  - by rewrite map_size_fmap.
  - rewrite map_size_fmap. intros Hlt. by rewrite Hall.
  - intros fp c fp' c'. rewrite !lookup_fmap.
    intros (c0 & Hc0 & ->)%fmap_Some (c1 & Hc1 & ->)%fmap_Some Hn%fmap_None.
    pose proof (lookup_weaken _ _ _ _ Hc0 Hsub) as Hc0'.
    pose proof (HR _ _ Hc0'). pose proof (HR _ _ Hc1).
    apply decayed_mono; [done|lia| |lia]. by eapply Htop.
Qed.

(** What the sketch reports over a run: the last estimate of each
    fingerprint, scaled by the decays since. *)
Definition report (d : spec_float) (s : CountMinSketch) (acc : list op * gmap bytes Z) (o : op)
    : list op * gmap bytes Z :=
  (acc.1 ++ [o],
   match o with
   | Access fp => <[fp := estimate d s (acc.1 ++ [o]) fp]> acc.2
   | Decay => decayed d <$> acc.2
   end).
Definition reported (d : spec_float) (s : CountMinSketch) (ops : list op) : gmap bytes Z :=
  (foldl (report d s) ([], ∅) ops).2.

Record tracks (d : spec_float) (s : CountMinSketch) (hist : list op) (R : gmap bytes Z)
    (t : HotDataTracker) : Prop := {
  tr_factor : decay_factor t = d;
  tr_counts : counts d (the_sketch t) (λ _, hist);
  tr_same : same_hashes s (the_sketch t);
  tr_top : holds_top (top_k t) R;
  tr_dom : ∀ fp, Access fp ∈ hist ↔ is_Some (R !! fp);
  tr_est : ∀ fp c, R !! fp = Some c →
    occurrences d hist fp ≤ c ≤ total d hist ∧ c ≤ estimate d s hist fp
}.

Lemma k_update t fp c : k (update tie hash_order t fp c) = k t.
Proof.
  unfold update. destruct (_ !! fp); [done|]. case_decide; [done|].
  destruct (peek tie (heap t)); [|done]. by destruct (_ <? c).
Qed.

Section decaying.
Context (d : spec_float).
Hypothesis Hfrac : fraction d.

Lemma record_access_tracks `{Build} s hist R t fp :
  tracks d s hist R t → (0 < depth s)%nat → few (hist ++ [Access fp]) →
  ∃ t', record_access tie hash_order t fp = Ret t' ∧ k (top_k t') = k (top_k t) ∧
    tracks d s (hist ++ [Access fp]) (<[fp := estimate d s (hist ++ [Access fp]) fp]> R) t'.
Proof.
  intros [Hfac Hc Hs Ht Hdom Hest] Hd Hl. pose proof (few_snoc _ _ Hl) as Hl'.
  destruct (increment_spec d Hfrac (the_sketch t) hist fp Hc Hl') as (s' & Hi & Hs' & Hc').
  rewrite (estimate_same d s) in Hi by done.
  unfold record_access. rewrite Hi. eexists. split; [reflexivity|]. split; [apply k_update|].
  set (c := estimate d s (hist ++ [Access fp]) fp). split; cbn.
  - done.
  - done.
  - destruct Hs as (?&?&?), Hs' as (?&?&?). unfold same_hashes. split_and!; congruence.
  - apply update_holds; [done|]. intros c' Hc0. destruct (Hest _ _ Hc0) as [_ He].
    etrans; [exact He|]. by apply estimate_mono.
  - intros g. rewrite lookup_insert_is_Some, <-Hdom, elem_of_app, list_elem_of_singleton.
    destruct (decide (g = fp)); naive_solver.
  - intros g cg [[<- <-]|[Hne HR]]%lookup_insert_Some.
    + pose proof (estimate_bounds d Hfrac s (hist ++ [Access fp]) fp Hd Hl). unfold c. lia.
    + destruct (Hest _ _ HR) as [[H1 H2] H3]. pose proof (estimate_mono d Hfrac s hist g fp).
      unfold occurrences, total in *. rewrite !tally_snoc. simpl.
      rewrite decide_False by congruence. lia.
Qed.

Lemma apply_decay_tracks s hist R t :
  tracks d s hist R t → (0 < depth s)%nat → few hist →
  k (top_k (apply_decay hash_order t)) = k (top_k t) ∧
  tracks d s (hist ++ [Decay]) (decayed d <$> R) (apply_decay hash_order t).
Proof.
  intros [Hfac Hc Hs Ht Hdom Hest] Hd Hf.
  assert (HR : ∀ fp c, R !! fp = Some c → 0 ≤ c < 2 ^ 53).
  { intros fp c Hfc. destruct (Hest _ _ Hfc) as [[H1 H2] _].
    pose proof (tally_range d Hfrac (λ g, g = fp) hist Hf).
    pose proof (tally_range d Hfrac (λ _, True) hist Hf).
    unfold few, occurrences, total in *. lia. }
  split; [done|]. unfold apply_decay. rewrite Hfac. split; cbn.
  - done.
  - by apply decay_counts.
  - done.
  - by apply decay_holds.
  - intros fp. rewrite lookup_fmap, fmap_is_Some, <-Hdom. set_solver.
  - intros fp c. rewrite lookup_fmap. intros (c0 & Hc0 & ->)%fmap_Some.
    destruct (Hest _ _ Hc0) as [[H1 H2] H3]. pose proof (HR _ _ Hc0).
    pose proof (tally_range d Hfrac (λ g, g = fp) hist Hf).
    pose proof (tally_range d Hfrac (λ _, True) hist Hf).
    unfold occurrences, total in *. rewrite !tally_snoc. simpl. unfold few in *.
    split; [split; apply decayed_mono; (done || lia)|]. apply estimate_decay; (done || lia).
Qed.

Lemma accesses_app h h' : accesses (h ++ h') = (accesses h + accesses h')%nat.
Proof. unfold accesses. by rewrite omap_app, length_app. Qed.
Lemma few_app h h' : few (h ++ h') → few h.
Proof. unfold few. rewrite accesses_app. lia. Qed.

Lemma record_hot_data_tracks `{Build} s fps hist R t :
  tracks d s hist R t → (0 < depth s)%nat → few (hist ++ (Access <$> fps)) →
  ∃ t', record_hot_data tie hash_order t fps = Ret t' ∧ k (top_k t') = k (top_k t) ∧
    tracks d s (hist ++ (Access <$> fps)) (foldl (report d s) (hist, R) (Access <$> fps)).2 t'.
Proof.
  revert hist R t. induction fps as [|fp fps IH]; intros hist R t Ht Hd Hl.
  - exists t. by rewrite app_nil_r.
  - rewrite fmap_cons, cons_middle, app_assoc in Hl |- *.
    destruct (record_access_tracks s hist R t fp Ht Hd (few_app _ _ Hl)) as (t1 & H1 & Hk1 & Ht1).
    destruct (IH _ _ _ Ht1 Hd Hl) as (t2 & H2 & Hk2 & Ht2).
    exists t2. unfold record_hot_data in *. simpl. rewrite H1. simpl. split; [done|].
    split; [congruence|done].
Qed.

Lemma foldl_report_fst s acc ops : (foldl (report d s) acc ops).1 = acc.1 ++ ops.
Proof.
  revert acc. induction ops as [|o ops IH]; intros acc; simpl; [by rewrite app_nil_r|].
  rewrite IH. simpl. by rewrite <-app_assoc.
Qed.

(** Any run of accesses and decays. *)
Lemma events_tracks `{Build} s es hist R t :
  tracks d s hist R t → (0 < depth s)%nat → few (hist ++ ops_of es) →
  ∃ t', ofoldl (on_event tie hash_order) t es = Ret t' ∧ k (top_k t') = k (top_k t) ∧
    tracks d s (hist ++ ops_of es) (foldl (report d s) (hist, R) (ops_of es)).2 t'.
Proof.
  revert hist R t. induction es as [|e es IH]; intros hist R t Ht Hd Hl.
  - exists t. by rewrite app_nil_r.
  - cbn [ops_of mbind list_bind] in Hl |- *. fold (ops_of es) in Hl |- *.
    rewrite app_assoc in Hl |- *. pose proof (few_app _ _ Hl) as Hl1. rewrite foldl_app.
    set (o := match e with Recorded _ => _ | Ticked => _ end) in *.
    assert (∃ t1, on_event tie hash_order t e = Ret t1 ∧ k (top_k t1) = k (top_k t) ∧
              tracks d s (hist ++ o) (foldl (report d s) (hist, R) o).2 t1) as (t1 & H1 & Hk1 & Ht1).
    { destruct e as [fps|]; [by apply record_hot_data_tracks|].
      destruct (apply_decay_tracks s hist R t Ht Hd (few_app _ _ Hl1)) as [Hk Htr].
      by exists (apply_decay hash_order t). }
    destruct (IH _ _ _ Ht1 Hd Hl) as (t2 & H2 & Hk2 & Ht2).
    exists t2. simpl. rewrite H1. simpl. split; [done|]. split; [congruence|].
    rewrite <-(foldl_report_fst s (hist, R) o) in Ht2 at 2.
    by destruct (foldl (report d s) (hist, R) o).
Qed.

Lemma sketch_new_counts w n builders :
  w ≠ 0%nat → length builders = n → Forall (λ h : bytes → Z, ∀ fp, 0 ≤ h fp < two64) builders →
  counts d (sketch_new w n builders) (λ _, []).
Proof.
  intros Hw Hl Hb. split; try done. intros i Hi. exists (replicate w 0). cbn.
  split; [by apply lookup_replicate_2|]. split; [by rewrite length_replicate|].
  intros j Hj. by rewrite lookup_replicate_2.
Qed.

Lemma tracker_new_tracks k_ builders :
  length builders = 4%nat → Forall (λ h : bytes → Z, ∀ fp, 0 ≤ h fp < two64) builders →
  tracks d (sketch_new 2048 4 builders) [] ∅ (tracker_new k_ d builders).
Proof.
  intros Hl Hb. split.
  - done.
  - by apply sketch_new_counts.
  - by split_and!.
  - split; cbn [top_k tracker_new topk_new heap fingerprint_to_count k]; try done.
    rewrite map_size_empty. lia.
  - intros fp. rewrite lookup_empty. split; [set_solver|by intros [? ?]].
  - intros fp c. by rewrite lookup_empty.
Qed.
End decaying.

(** C33. Hot data detection finds the fingerprints with the largest counts, also
    with the decay the background task applies between the accesses: for every
    sequence of recorded queries and of decays, with a decay factor between 0 and
    1 and fewer than 2^53 accesses, the tracker returns, and its list is sorted,
    has one entry per fingerprint and as many as fit in [k], each entry is the
    last estimate reported for its fingerprint, scaled by the decays since, and no
    fingerprint that was left out has a larger one than any entry.  A fingerprint
    has an estimate exactly when it was accessed, and the estimate lies between
    the number of its accesses and that of all accesses, both scaled by the decays
    that followed each access.  This holds for every choice the heap makes among
    equal counts and every iteration order of the hash map. *)
Theorem hot_data_top_k `{Build} k_ decay builders es :
  fraction decay →
  length builders = 4%nat → Forall (λ h : bytes → Z, ∀ fp, 0 ≤ h fp < two64) builders →
  Z.of_nat (accesses (ops_of es)) < 2 ^ 53 →
  ∃ t, ofoldl (on_event tie hash_order) (tracker_new k_ decay builders) es = Ret t ∧
    let R := reported decay (sketch_new 2048 4 builders) (ops_of es) in
    let entries := get_top_k hash_order (top_k t) in
    (∀ fp, Access fp ∈ ops_of es ↔ is_Some (R !! fp)) ∧
    (∀ fp c, R !! fp = Some c → occurrences decay (ops_of es) fp ≤ c ≤ total decay (ops_of es)) ∧
    StronglySorted by_count entries ∧ NoDup (fingerprint <$> entries) ∧
    length entries = Nat.min k_ (size R) ∧
    (∀ e, e ∈ entries → R !! fingerprint e = Some (access_count e)) ∧
    (∀ e fp c, e ∈ entries → R !! fp = Some c → fp ∉ fingerprint <$> entries → c ≤ access_count e).
Proof.
  intros Hfrac Hl Hb Hlen.
  destruct (events_tracks decay Hfrac (sketch_new 2048 4 builders) es [] ∅
              (tracker_new k_ decay builders)) as (t & Hr & Hk & Ht);
    [by apply tracker_new_tracks|cbn; lia|done|].
  exists t. split; [done|]. intros R entries.
  fold (reported decay (sketch_new 2048 4 builders) (ops_of es)) in Ht.
  fold R in Ht. simpl in Ht, Hk.
  assert (Hperm : entries ≡ₚ entry <$> map_to_list (fingerprint_to_count (top_k t))).
  { unfold entries, get_top_k. rewrite merge_sort_Permutation. by rewrite iter_perm. }
  assert (Hin : ∀ e, e ∈ entries ↔
            fingerprint_to_count (top_k t) !! fingerprint e = Some (access_count e)).
  { intros e. rewrite Hperm, <-(ht_heap _ _ (tr_top _ _ _ _ _ Ht)). by eapply heap_entry, Ht. }
  assert (Hfst : fingerprint <$> entries ≡ₚ (map_to_list (fingerprint_to_count (top_k t))).*1).
  { rewrite Hperm, <-list_fmap_compose. done. }
  pose proof Ht as [_ _ _ [Hh Hsub Hsz Hall Htop] Hdom Hest].
  split_and!.
  - exact Hdom.
  - intros fp c Hc. by apply (Hest fp c).
  - apply (StronglySorted_merge_sort by_count).
  - rewrite Hfst. apply NoDup_fst_map_to_list.
  - rewrite Hperm, length_fmap, length_map_to_list. rewrite Hk in *.
    destruct (decide (size (fingerprint_to_count (top_k t)) < k_)%nat) as [Hlt|Hge].
    + rewrite Hall in * by done. lia.
    + apply map_subseteq_size in Hsub. lia.
  - intros e He%Hin. by eapply lookup_weaken.
  - intros e fp c He%Hin Hc Hn. eapply Htop; [exact He|exact Hc|].
    apply eq_None_not_Some. intros [c' Hc']. apply Hn. rewrite Hfst.
    apply list_elem_of_fmap. exists (fp, c'). split; [done|]. by apply elem_of_map_to_list.
Qed.
End topk_proofs.

Definition demo_hash (seed : Z) (fp : bytes) : Z :=
  (seed * foldr (λ b z, byte_Z b + 31 * z) 7 fp) mod two64.
Definition demo_builders : list (bytes → Z) := demo_hash <$> [1; 3; 5; 7].
(** The production factor: 0.99. *)
Definition demo_factor : spec_float := S754_finite false 8917127262193582 (-53).
Definition demo_events : list event :=
  [Recorded [lit "a"; lit "b"; lit "b"]; Ticked; Recorded [lit "c"; lit "b"]; Ticked; Recorded [lit "c"]].

Lemma hot_data_top_k_witness :
  ∃ t, ofoldl (on_event (H := release_build) (λ _, 0%nat) id)
         (tracker_new 2 demo_factor demo_builders) demo_events = Ret t ∧
    length (get_top_k id (top_k t)) = 2%nat ∧ StronglySorted by_count (get_top_k id (top_k t)).
Proof.
  destruct (hot_data_top_k (λ _, 0%nat) id (λ l, reflexivity l) (H := release_build) 2 demo_factor
              demo_builders demo_events) as (t & Hr & _ & _ & Hs & _ & Hl & _).
  - vm_compute. intuition discriminate.
  - reflexivity.
  - repeat constructor; apply Z.mod_pos_bound; done.
  - done.
  - exists t. split; [exact Hr|]. split; [|exact Hs]. rewrite Hl. vm_compute. reflexivity.
Defined.
End Hot.
