(* ===== verification/StmtCache.v ===== *)
(** * The per-connection statement cache (proxy/cache.rs)

    Statements by name with least-recently-used eviction, and the executions in
    flight by portal.  A [PendingExecution] holds values of a crate
    ([ParamValue]), a time stamp and a tracing span, none of which the cache
    looks at: the pending executions are of a type [P]. *)

From S2P Require Import Prelude.

Module Cache.

Record PreparedStatement : Type := { ps_query : bytes; ps_param_oids : list Z }.

Record PreparedStatementCache {P : Type} : Type := mk {
  statements : gmap bytes PreparedStatement;
  lru_order : list bytes;
  max_size : nat;
  pending : gmap bytes P
}.
Arguments PreparedStatementCache P : clear implicits.
Arguments mk {P}.

Section cache.
Context {P : Type}.
Implicit Types (c : PreparedStatementCache P) (name portal : bytes).

Definition new (max : nat) : PreparedStatementCache P := mk ∅ [] max ∅.

(** [while statements.len() >= max_size { pop_front ... }] *)
Fixpoint evict (max : nat) (m : gmap bytes PreparedStatement) (lru : list bytes)
    : gmap bytes PreparedStatement * list bytes :=
  if decide (max ≤ size m)%nat then
    match lru with
    | oldest :: lru' => evict max (delete oldest m) lru'
    | [] => (m, [])
    end
  else (m, lru).

Definition insert_statement (name : bytes) (stmt : PreparedStatement) c
    : PreparedStatementCache P :=
  let lru := match statements c !! name with
             | Some _ => retain_ne name (lru_order c)
             | None => lru_order c
             end in
  let p := evict (max_size c) (statements c) lru in
  mk (<[name := stmt]> p.1) (p.2 ++ [name]) (max_size c) (pending c).

Definition get_statement (name : bytes) c
    : option PreparedStatement * PreparedStatementCache P :=
  match statements c !! name with
  | Some s =>
      (Some s, mk (statements c) (retain_ne name (lru_order c) ++ [name]) (max_size c) (pending c))
  | None => (None, c)
  end.

Definition remove_statement (name : bytes) c : PreparedStatementCache P :=
  mk (delete name (statements c)) (retain_ne name (lru_order c)) (max_size c) (pending c).

Definition set_pending (portal : bytes) (p : P) c : PreparedStatementCache P :=
  mk (statements c) (lru_order c) (max_size c) (<[portal := p]> (pending c)).
Definition take_pending (portal : bytes) c : option P * PreparedStatementCache P :=
  (pending c !! portal,
   mk (statements c) (lru_order c) (max_size c) (delete portal (pending c))).
Definition has_pending (portal : bytes) c : bool := bool_decide (is_Some (pending c !! portal)).
Definition clear_pending (portal : bytes) c : PreparedStatementCache P :=
  mk (statements c) (lru_order c) (max_size c) (delete portal (pending c)).
Definition clear c : PreparedStatementCache P := mk ∅ [] (max_size c) ∅.
Definition len c : nat := size (statements c).
Definition is_empty c : bool := bool_decide (statements c = ∅).

(** ** Consistency *)
Record wf c : Prop := {
  wf_nodup : NoDup (lru_order c);
  wf_dom : list_to_set (lru_order c) = dom (statements c);
  wf_size : (size (statements c) ≤ Nat.max (max_size c) 1)%nat
}.

Lemma wf_length c : wf c → length (lru_order c) = size (statements c).
Proof. intros [Hd Hs _]. by rewrite <-size_dom, <-Hs, size_list_to_set. Qed.

(** The eviction loop keeps the order and the map in step (the name about to
    be inserted apart) and stops when there is room or nothing is left to drop. *)
Lemma cache_evict_spec max name l m m' l' :
  NoDup l → (∀ n, n ∈ l ↔ n ∈ dom m ∧ n ≠ name) → evict max m l = (m', l') →
  NoDup l' ∧ (∀ n, n ∈ l' ↔ n ∈ dom m' ∧ n ≠ name) ∧ m' ⊆ m ∧ (size m' < max ∨ l' = [])%nat.
Proof.
  revert m; induction l as [|x l IH]; intros m Hd Hl; simpl; case_decide as Hs;
    try (intros [= <- <-]; split_and!; [done..|by left; lia]).
  - intros [= <- <-]. split_and!; [done..|by right].
  - apply NoDup_cons in Hd as [Hx Hd]. intros He. apply IH in He as (? & ? & Hsub & ?); [|done|].
    + split_and!; try done. etrans; [exact Hsub|]. apply delete_subseteq.
    + intros n. rewrite dom_delete_L, elem_of_difference, elem_of_singleton.
      specialize (Hl n). rewrite elem_of_cons in Hl. destruct (decide (n = x)); [|tauto].
      subst. tauto.
Qed.

Lemma cache_new_wf max : wf (new max).
Proof. split; simpl; [constructor|set_solver|rewrite map_size_empty; lia]. Qed.

Lemma lru_elem c n : wf c → n ∈ lru_order c ↔ n ∈ dom (statements c).
Proof. intros [_ Hs _]. by rewrite <-Hs, elem_of_list_to_set. Qed.

(** What an insertion does to the rest of the cache. *)
Lemma insert_evicts name c :
  wf c →
  let lru := match statements c !! name with
             | Some _ => retain_ne name (lru_order c)
             | None => lru_order c
             end in
  NoDup lru ∧ ∀ n, n ∈ lru ↔ n ∈ dom (statements c) ∧ n ≠ name.
Proof.
  intros Hwf. destruct (statements c !! name) eqn:Hn; simpl.
  - split; [apply NoDup_retain_ne, Hwf|]. intros n. rewrite elem_of_retain_ne, lru_elem by done. tauto.
  - split; [apply Hwf|]. intros n. rewrite lru_elem by done. apply not_elem_of_dom in Hn.
    set_solver.
Qed.

Lemma insert_wf name stmt c : wf c → wf (insert_statement name stmt c).
Proof.
  intros Hwf. destruct (insert_evicts name c Hwf) as [Hd Hl]. unfold insert_statement. cbv zeta.
  destruct (evict _ _ _) as [m' l'] eqn:He.
  destruct (cache_evict_spec _ name _ _ _ _ Hd Hl He) as (Hd' & Hl' & Hsub & Hsz).
  split; cbn [fst snd lru_order statements max_size].
  - apply NoDup_snoc; [done|]. rewrite Hl'. tauto.
  - apply set_eq. intros n. rewrite elem_of_list_to_set, dom_insert_L, elem_of_app, Hl'.
    destruct (decide (n = name)); set_solver.
  - destruct Hsz as [Hsz| ->].
    + rewrite map_size_insert. destruct (m' !! name); simpl; lia.
    + assert (Hdom : dom (<[name := stmt]> m') ⊆ {[name]}).
      { intros n. rewrite dom_insert_L. specialize (Hl' n). destruct (decide (n = name)); set_solver. }
      rewrite <-size_dom. apply subseteq_size in Hdom. rewrite size_singleton in Hdom. lia.
Qed.

Lemma get_wf name c : wf c → wf (get_statement name c).2.
Proof.
  intros Hwf. unfold get_statement. destruct (statements c !! name) eqn:Hn; [|done].
  destruct Hwf as [Hd Hs Hz]. split; simpl; [|  |done].
  - apply NoDup_snoc; auto with scry. rewrite elem_of_retain_ne. tauto.
  - rewrite <-Hs. apply set_eq. intros n. rewrite !elem_of_list_to_set, elem_of_app, elem_of_retain_ne.
    assert (name ∈ lru_order c).
    { rewrite <-(elem_of_list_to_set (C := gset bytes)), Hs. by eapply elem_of_dom_2. }
    destruct (decide (n = name)); set_solver.
Qed.

Lemma remove_wf name c : wf c → wf (remove_statement name c).
Proof.
  intros [Hd Hs Hz]. split; simpl; auto with scry.
  - rewrite dom_delete_L, <-Hs. apply set_eq. intros n.
    rewrite elem_of_list_to_set, elem_of_retain_ne. set_solver.
  - rewrite map_size_delete. destruct (_ !! name); simpl; lia.
Qed.

Lemma same_wf c c' :
  statements c' = statements c → lru_order c' = lru_order c → max_size c' = max_size c →
  wf c → wf c'.
Proof. intros Hs Hl Hm []. split; rewrite ?Hs, ?Hl, ?Hm; done. Qed.

(** ** Operations as steps *)
Inductive op : Type :=
| Insert (name : bytes) (stmt : PreparedStatement)
| Get (name : bytes)
| Remove (name : bytes)
| SetPending (portal : bytes) (p : P)
| TakePending (portal : bytes)
| ClearPending (portal : bytes)
| Clear.

Definition step c (o : op) : PreparedStatementCache P :=
  match o with
  | Insert n s => insert_statement n s c
  | Get n => (get_statement n c).2
  | Remove n => remove_statement n c
  | SetPending p x => set_pending p x c
  | TakePending p => (take_pending p c).2
  | ClearPending p => clear_pending p c
  | Clear => clear c
  end.

Lemma cache_step_wf c o : wf c → wf (step c o).
Proof.
  intros Hwf. destruct o; simpl; auto using insert_wf, get_wf, remove_wf;
    try (by apply (same_wf c)).
  split; simpl; [constructor|set_solver|rewrite map_size_empty; lia].
Qed.

(** The specification of the cache: a partial map that may forget.  After any
    history, what it answers for a name is what was last inserted under it. *)
Definition last_inserted (ops : list op) : gmap bytes PreparedStatement :=
  foldl (λ m o, match o with
                | Insert n s => <[n := s]> m
                | Remove n => delete n m
                | Clear => ∅
                | _ => m
                end) ∅ ops.
Definition last_pending (ops : list op) : gmap bytes P :=
  foldl (λ m o, match o with
                | SetPending n s => <[n := s]> m
                | TakePending n | ClearPending n => delete n m
                | Clear => ∅
                | _ => m
                end) ∅ ops.

Lemma insert_sub name stmt c m :
  wf c → statements c ⊆ m → statements (insert_statement name stmt c) ⊆ <[name := stmt]> m.
Proof.
  intros Hwf Hm. destruct (insert_evicts name c Hwf) as [Hd Hl]. unfold insert_statement. cbv zeta.
  destruct (evict _ _ _) as [m' l'] eqn:He.
  destruct (cache_evict_spec _ name _ _ _ _ Hd Hl He) as (_ & _ & Hsub & _). simpl.
  apply insert_mono. by etrans.
Qed.

(** C37. The cache is consistent after any sequence of operations: the order
    list holds each cached name once, and at most [max(max_size, 1)] statements
    are cached.  It may forget a statement but never answers with a stale or
    wrong one, and the executions in flight are never forgotten. *)
Theorem cache_refines_map max ops :
  let c := foldl step (new max) ops in
  NoDup (lru_order c) ∧ list_to_set (lru_order c) = dom (statements c) ∧
  (len c ≤ Nat.max max 1)%nat ∧
  statements c ⊆ last_inserted ops ∧ pending c = last_pending ops.
Proof.
  cbv zeta. assert (Hall : wf (foldl step (new max) ops) ∧ max_size (foldl step (new max) ops) = max ∧
    statements (foldl step (new max) ops) ⊆ last_inserted ops ∧
    pending (foldl step (new max) ops) = last_pending ops).
  { unfold last_inserted, last_pending. induction ops as [|o ops (Hwf & Hm & Hs & Hp)] using rev_ind.
    - split_and!; [apply cache_new_wf|done..].
    - rewrite !foldl_snoc. set (c := foldl step (new max) ops) in *.
      split_and!; [by apply cache_step_wf|..].
      + destruct o; simpl; try done. unfold get_statement. by case_match.
      + destruct o; simpl; try done.
        * by apply insert_sub.
        * unfold get_statement. by case_match.
        * by apply delete_mono.
      + destruct o; simpl; rewrite ?Hp; try done. unfold get_statement. by case_match. }
  destruct Hall as ([Hd Hdom Hsz] & Hm & Hs & Hp). rewrite Hm in Hsz. split_and!; done.
Qed.

(** Least recently used: a statement that was just looked up survives the
    insertion of a new one, whenever the cache may hold at least two. *)
Lemma just_used_survives name other stmt c s :
  wf c → (2 ≤ max_size c)%nat → statements c !! name = Some s → statements c !! other = None →
  let c' := insert_statement other stmt (get_statement name c).2 in
  statements c' !! name = Some s ∧ statements c' !! other = Some stmt.
Proof.
  intros Hwf Hmax Hn Ho. pose proof (get_wf name c Hwf) as Hg.
  unfold get_statement in *. rewrite Hn in *. cbn [snd] in *. pose proof (wf_length _ Hg) as Hlen.
  pose proof (wf_size _ Hg) as Hsz. cbv zeta. unfold insert_statement. cbn [statements lru_order max_size] in *.
  rewrite Ho. cbv zeta. split; [|by rewrite lookup_insert_eq].
  rewrite lookup_insert_ne by congruence.
  rewrite length_app in Hlen. cbn [length] in Hlen.
  destruct (retain_ne name (lru_order c)) as [|x l] eqn:Hl; cbn [app] in *; simpl in Hlen.
  - simpl. rewrite decide_False by lia. done.
  - cbn [evict]. case_decide; [|done].
    assert (Hx : is_Some (statements c !! x)).
    { apply elem_of_dom. rewrite <-(wf_dom _ Hwf). apply elem_of_list_to_set.
      assert (x ∈ retain_ne name (lru_order c)) as Hin by (rewrite Hl; left).
      by apply elem_of_retain_ne in Hin as [_ ?]. }
    destruct Hx as [v Hv].
    assert (Hsd : (size (delete x (statements c)) < max_size c)%nat).
    { rewrite map_size_delete, Hv. destruct (size (statements c)); simpl; lia. }
    assert (Hev : evict (max_size c) (delete x (statements c)) (l ++ [name])
                  = (delete x (statements c), l ++ [name])).
    { destruct (l ++ [name]); simpl; rewrite decide_False by lia; done. }
    rewrite Hev. simpl. rewrite lookup_delete_ne; [done|].
    intros ->. assert (name ∈ retain_ne name (lru_order c)) as Hin by (rewrite Hl; left).
    apply elem_of_retain_ne in Hin. tauto.
Qed.
End cache.

(** ** Concrete runs *)
Definition demo_stmt : PreparedStatement := {| ps_query := lit "SELECT 1"; ps_param_oids := [] |}.
Definition demo_cache : PreparedStatementCache unit :=
  foldl step (new 2) [Insert (lit "a") demo_stmt; Insert (lit "b") demo_stmt].

(** Inserting a name again while the cache is full throws out another
    statement although no room is needed. *)
Example reinsert_evicts_other :
  statements (insert_statement (lit "a") demo_stmt demo_cache) !! lit "b" = None.
Proof. vm_compute. reflexivity. Qed.

(** A cache of size zero holds one statement. *)
Example size_zero_holds_one :
  len (insert_statement (P := unit) (lit "a") demo_stmt (new 0)) = 1%nat.
Proof. vm_compute. reflexivity. Qed.
End Cache.
