(* ===== verification/Bind.v ===== *)
(** * Decoding of bound parameters (protocol/bind.rs)

    [ParamValue] is declared by the scry-protocol crate; its constructors are
    the ones that [redact_param] of proxy/connection.rs, which matches them all,
    names, with the value of a float kept as its bits.  The
    decimal parser of the standard library's floats is the parameter
    [FloatParser]: no theorem depends on what it answers. *)

From S2P Require Import Prelude RustStr Wire.

Module BindParams.

Inductive ParamValue : Type :=
| Null
| Bool (b : bool)
| Int16 (z : Z)
| Int32 (z : Z)
| Int64 (z : Z)
| Float32 (bits : Z)
| Float64 (bits : Z)
| Numeric (s : bytes)
| Text (s : bytes)
| Bytes (b : bytes)
| Json (s : bytes)
| Date (z : Z)
| Time (z : Z)
| Timestamp (z : Z)
| TimestampTz (z : Z)
| Interval (months days microseconds : Z)
| Uuid (b : bytes)
| Array (elements : list ParamValue) (dimensions : list Z)
| Range (lower upper : option ParamValue) (lower_inc upper_inc : bool)
| Composite (fields : list ParamValue)
| UnknownParam (oid : Z) (data : bytes).

Definition BOOL : Z := 16.
Definition BYTEA : Z := 17.
Definition INT8 : Z := 20.
Definition INT2 : Z := 21.
Definition INT4 : Z := 23.
Definition TEXT : Z := 25.
Definition OID : Z := 26.
Definition FLOAT4 : Z := 700.
Definition FLOAT8 : Z := 701.
Definition VARCHAR : Z := 1043.
Definition DATE : Z := 1082.
Definition TIME : Z := 1083.
Definition TIMESTAMP : Z := 1114.
Definition TIMESTAMPTZ : Z := 1184.
Definition INTERVAL : Z := 1186.
Definition NUMERIC : Z := 1700.
Definition UUID : Z := 2950.
Definition JSON : Z := 114.
Definition JSONB : Z := 3802.

(** [str::parse::<f32>] and [str::parse::<f64>], as the bits of the result. *)
Class FloatParser : Type := { parse_f32 : bytes → option Z; parse_f64 : bytes → option Z }.

Definition hex_digit (b : byte) : option Z :=
  if Str.in_range 48 57 b then Some (byte_Z b - 48)
  else if Str.in_range 65 70 b then Some (byte_Z b - 55)
  else if Str.in_range 97 102 b then Some (byte_Z b - 87)
  else None.

(** [u8::from_str_radix(s, 16)] for a slice of two bytes: a leading plus sign is
    accepted. *)
Definition from_hex2 (s : bytes) : option byte :=
  match s with
  | [a; b] =>
      if beqb a x2b then Z_byte <$> hex_digit b
      else hi ← hex_digit a; lo ← hex_digit b; Some (Z_byte (16 * hi + lo))
  | _ => None
  end.

(** [(0..hex.len()).step_by(2).map(|i| from_str_radix(&hex[i..i + 2], 16)).collect()]:
    the iterator stops at the first error, and a slice past the end panics. *)
Fixpoint hex_pairs (fuel : nat) (hex : bytes) (i : nat) : outcome (option bytes) :=
  match fuel with
  | O => Ret (Some [])
  | S fuel =>
      if decide (length hex ≤ i)%nat then Ret (Some [])
      else
        pair ← Str.slice hex i (i + 2);
        match from_hex2 pair with
        | None => Ret None
        | Some b =>
            rest ← hex_pairs fuel hex (i + 2);
            Ret (match rest with Some l => Some (b :: l) | None => None end)
        end
  end.

(** The sixteen bytes of thirty-two hexadecimal digits. *)
Fixpoint uuid_bytes (hex : bytes) : bytes :=
  match hex with
  | a :: b :: hex' => default x00 (from_hex2 [a; b]) :: uuid_bytes hex'
  | _ => []
  end.

Section text.
Context `{FloatParser}.

Definition or_text (text : bytes) (o : option ParamValue) : ParamValue :=
  match o with Some v => v | None => Text text end.

Definition decode_text_param (data : bytes) (oid : Z) : outcome ParamValue :=
  match Str.from_utf8 data with
  | None => Ret (Bytes data)
  | Some text =>
      if oid =? BOOL then
        if bool_decide (text ∈ lit <$> ["t"; "true"; "TRUE"; "1"]%string) then Ret (Bool true)
        else if bool_decide (text ∈ lit <$> ["f"; "false"; "FALSE"; "0"]%string)
        then Ret (Bool false) else Ret (Text text)
      else if oid =? INT2 then Ret (or_text text (Int16 <$> Str.parse_i16 text))
      else if (oid =? INT4) || (oid =? OID) then Ret (or_text text (Int32 <$> Str.parse_i32 text))
      else if oid =? INT8 then Ret (or_text text (Int64 <$> Str.parse_i64 text))
      else if oid =? FLOAT4 then Ret (or_text text (Float32 <$> parse_f32 text))
      else if oid =? FLOAT8 then Ret (or_text text (Float64 <$> parse_f64 text))
      else if oid =? NUMERIC then Ret (Numeric text)
      else if (oid =? TEXT) || (oid =? VARCHAR) then Ret (Text text)
      else if (oid =? JSON) || (oid =? JSONB) then Ret (Json text)
      else if oid =? UUID then
        let hex := filter (λ b, is_Some (hex_digit b)) text in
        if decide (length hex = 32%nat) then Ret (Uuid (uuid_bytes hex)) else Ret (Text text)
      else if oid =? BYTEA then
        match Str.strip_prefix text [x5c; x78] with
        | Some hex =>
            (λ r, or_text text (Bytes <$> r)) <$> hex_pairs (S (length hex)) hex 0
        | None => Ret (Text text)
        end
      else Ret (Text text)
  end.

Definition i64_of_be (l : bytes) : Z :=
  signed 64 (foldl (λ acc b, 256 * acc + byte_Z b) 0 l).

Definition decode_binary_param (data : bytes) (oid : Z) : ParamValue :=
  let unknown := UnknownParam oid data in
  if oid =? BOOL then
    match data with [b] => Bool (negb (beqb b x00)) | _ => unknown end
  else if oid =? INT2 then
    match data with [a; b] => Int16 (i16_of_be a b) | _ => unknown end
  else if (oid =? INT4) || (oid =? OID) then
    match data with [a; b; c; d] => Int32 (i32_of_be a b c d) | _ => unknown end
  else if oid =? INT8 then
    if decide (length data = 8%nat) then Int64 (i64_of_be data) else unknown
  else if oid =? FLOAT4 then
    match data with [a; b; c; d] => Float32 (u32_of_be a b c d) | _ => unknown end
  else if oid =? FLOAT8 then
    if decide (length data = 8%nat)
    then Float64 (foldl (λ acc b, 256 * acc + byte_Z b) 0 data) else unknown
  else if oid =? UUID then
    if decide (length data = 16%nat) then Uuid data else unknown
  else if (oid =? TEXT) || (oid =? VARCHAR) then
    match Str.from_utf8 data with Some s => Text s | None => Bytes data end
  else if oid =? BYTEA then Bytes data
  else if (oid =? JSON) || (oid =? JSONB) then
    let json_data := if (oid =? JSONB) && negb (bool_decide (data = [])) then drop 1 data else data in
    match Str.from_utf8 json_data with Some s => Json s | None => unknown end
  else unknown.

Definition decode_param (data : bytes) (oid format : Z) : outcome ParamValue :=
  if format =? 0 then decode_text_param data oid else Ret (decode_binary_param data oid).

Definition get_format_code (format_codes : list Z) (index : nat) : Z :=
  match format_codes with
  | [] => 0
  | [c] => c
  | _ => default 0 (format_codes !! index)
  end.

Fixpoint decode_from (i : nat) (params_raw : list (option bytes)) (format_codes param_oids : list Z)
    : outcome (list ParamValue) :=
  match params_raw with
  | [] => Ret []
  | raw :: params_raw =>
      v ← match raw with
          | None => Ret Null
          | Some data =>
              decode_param data (default 0 (param_oids !! i)) (get_format_code format_codes i)
          end;
      vs ← decode_from (S i) params_raw format_codes param_oids;
      Ret (v :: vs)
  end.
Definition decode_params (params_raw : list (option bytes)) (format_codes param_oids : list Z)
    : outcome (list ParamValue) := decode_from 0 params_raw format_codes param_oids.
End text.

(** ** Lemmas *)
Section lemmas.
Context `{FloatParser}.

Lemma decode_text_total data oid : oid ≠ BYTEA → ∃ v, decode_text_param data oid = Ret v.
Proof.
  intros Ho. unfold decode_text_param. destruct (Str.from_utf8 data); [|eauto]. cbv zeta.
  rewrite (proj2 (Z.eqb_neq oid BYTEA)) by done. repeat case_match; eauto.
Qed.

Lemma decode_param_total data oid format :
  oid ≠ BYTEA ∨ format ≠ 0 → ∃ v, decode_param data oid format = Ret v.
Proof.
  unfold decode_param. intros Hor. destruct (Z.eqb_spec format 0); [|eauto].
  apply decode_text_total. by destruct Hor.
Qed.

Lemma or_text_not_null {A} text (f : A → ParamValue) o :
  (∀ x, f x ≠ Null) → or_text text (f <$> o) ≠ Null.
Proof. destruct o; simpl; done. Qed.

(** A value is decoded to some value, never to NULL. *)
Lemma decode_param_not_null data oid format : decode_param data oid format ≠ Ret Null.
Proof.
  unfold decode_param, decode_text_param, decode_binary_param. cbv zeta.
  repeat case_match; try done;
    try (intros [= He]; revert He; by apply or_text_not_null).
  destruct (hex_pairs _ _ _) as [r| |]; simpl; try done.
  intros [= He]. revert He. by apply or_text_not_null.
Qed.

Lemma decode_from_total i params codes oids :
  (∀ j, default 0 (oids !! (i + j)%nat) ≠ BYTEA ∨ get_format_code codes (i + j) ≠ 0) →
  ∃ vs, decode_from i params codes oids = Ret vs ∧ length vs = length params ∧
        ∀ j, vs !! j = Some Null ↔ params !! j = Some None.
Proof.
  revert i; induction params as [|raw params IH]; intros i Hi; simpl; [by exists []|].
  destruct (IH (S i)) as (vs & Hvs & Hl & Hnull).
  { intros j. specialize (Hi (S j)). by rewrite Nat.add_succ_r in Hi. }
  specialize (Hi O). rewrite Nat.add_0_r in Hi. rewrite Hvs. destruct raw as [d|].
  - destruct (decode_param_total d _ _ Hi) as [v Hv].
    pose proof (decode_param_not_null d (default 0 (oids !! i)) (get_format_code codes i)) as Hn.
    rewrite Hv in *. cbn [mbind outcome_bind]. exists (v :: vs). split_and!; [done|simpl; lia|].
    intros [|j]; simpl; [|apply Hnull]. split; congruence.
  - cbn [mbind outcome_bind]. exists (Null :: vs). split_and!; [done|simpl; lia|].
    intros [|j]; simpl; [done|apply Hnull].
Qed.
End lemmas.

(** [i64::to_be_bytes]. *)
Definition be64 (z : Z) : bytes := be32 (z / 2 ^ 32) ++ be32 z.

Lemma fold_be64 z : foldl (λ acc b, 256 * acc + byte_Z b) 0 (be64 z) = z mod 2 ^ 64.
Proof.
  unfold be64, be32. cbn [app foldl]. rewrite !byte_Z_byte.
  change (2 ^ 64) with 18446744073709551616. change (2 ^ 32) with 4294967296.
  Z.to_euclidean_division_equations. lia.
Qed.

(** Decoding is total unless a bytea parameter comes in text format: one
    value per parameter, NULL exactly where the message has NULL. *)
Lemma decode_params_total `{FloatParser} params codes oids :
  (∀ i, default 0 (oids !! i) ≠ BYTEA ∨ get_format_code codes i ≠ 0) →
  ∃ vs, decode_params params codes oids = Ret vs ∧ length vs = length params ∧
        ∀ j, vs !! j = Some Null ↔ params !! j = Some None.
Proof. intros Hi. by apply decode_from_total. Qed.

(** Binary integers are read back at every width, sign included. *)
Lemma binary_int_roundtrip z :
  (- 2 ^ 15 ≤ z < 2 ^ 15 → decode_binary_param (be16 z) INT2 = Int16 z) ∧
  (- 2 ^ 31 ≤ z < 2 ^ 31 → decode_binary_param (be32 z) INT4 = Int32 z) ∧
  (- 2 ^ 63 ≤ z < 2 ^ 63 → decode_binary_param (be64 z) INT8 = Int64 z).
Proof.
  split_and!; intros Hz.
  - transitivity (Int16 (signed 16 (z mod 2 ^ 16))); [|f_equal; by apply (signed_mod 16)].
    rewrite <-(u16_be16 z : _ = _). done.
  - transitivity (Int32 (signed 32 (z mod 2 ^ 32))); [|f_equal; by apply (signed_mod 32)].
    rewrite <-(u32_be32 z : _ = _). done.
  - transitivity (Int64 (signed 64 (z mod 2 ^ 64))); [|f_equal; by apply (signed_mod 64)].
    rewrite <-fold_be64. done.
Qed.

(** ** Concrete runs *)
Definition no_floats : FloatParser := {| parse_f32 := λ _, None; parse_f64 := λ _, None |}.

(** A bytea in text format with an odd number of digits makes the slice of the
    last pair run past the end. *)
Example odd_bytea_panics :
  decode_params (H := no_floats) [Some ([x5c; x78] ++ lit "abc")] [] [BYTEA] = Panic.
Proof. vm_compute. reflexivity. Qed.
End BindParams.
