(* ===== verification/Anonymize.v ===== *)
(** * Anonymisation of published events
      (protocol/anonymize.rs, and [AnonymizationSettings], [redact_param] and
      the span helpers of proxy/connection.rs)

    The SQL parser (sqlparser) and the hash (blake3) are parameters.  Of the
    parser the code uses [Parser::parse_sql], the printing of a statement, and
    the two visitors over the expressions that are literal values; [values] are
    the literals of a statement in the order they are visited.  [SqlLaws] is
    what the code relies on: the reading visitor sees exactly the values, until
    it is told to stop, and the rewriting visitor rewrites them in place. *)

From S2P Require Import Prelude RustStr Extractor Bind.

Module Anon.
Import BindParams.

(** ** The parser *)

(** The kinds of value the code names; the others are opaque to it. *)
Inductive Value {O : Type} : Type :=
| VNumber (n : bytes) (long : bool)
| VSingleQuotedString (s : bytes)
| VDoubleQuotedString (s : bytes)
| VBoolean (b : bool)
| VNull
| VPlaceholder (s : bytes)
| VOther (o : O).
Arguments Value : clear implicits.

Class SqlParser : Type := {
  Statement : Type;
  Other : Type;
  values : Statement → list (Value Other);
  parse_sql : bytes → option (list Statement);
  (** the flag of the visitor's answer is [ControlFlow::Break] *)
  visit : ∀ {S : Type}, (S → Value Other → S * bool) → Statement → S → S;
  visit_mut : (Value Other → Value Other) → Statement → Statement;
  stmt_to_string : Statement → bytes
}.

Class Blake3 : Type := { blake3_hex : bytes → bytes }.

Fixpoint fold_break {S V} (f : S → V → S * bool) (s : S) (l : list V) : S :=
  match l with
  | [] => s
  | v :: l => let '(s, stop) := f s v in if stop : bool then s else fold_break f s l
  end.

Class SqlLaws `{SqlParser} : Prop := {
  visit_values {S} (f : S → Value Other → S * bool) st s :
    visit f st s = fold_break f s (values st);
  visit_mut_values f st : values (visit_mut f st) = f <$> values st;
  visit_mut_compose f g st : visit_mut g (visit_mut f st) = visit_mut (λ v, g (f v)) st;
  visit_mut_ext f g st : (∀ v, v ∈ values st → f v = g v) → visit_mut f st = visit_mut g st
}.

(** ** Anonymising a query *)
Section anonymize.
Context `{SqlParser} `{Blake3}.

Record AnonymizedQuery : Type := { normalized_query : bytes; value_fingerprints : list bytes }.

Definition default_salt : bytes := lit "scry-default-salt".

Definition hash_value (salt value : bytes) : bytes := blake3_hex (salt ++ value).

Definition bool_to_string (b : bool) : bytes := lit (if b then "true" else "false").

(** [ValueCollector]. *)
Definition literal_text (v : Value Other) : option bytes :=
  match v with
  | VNumber n _ => Some n
  | VSingleQuotedString s => Some s
  | VDoubleQuotedString s => Some s
  | VBoolean b => Some (bool_to_string b)
  | VNull => Some (lit "NULL")
  | _ => None
  end.
Definition collect (salt : bytes) (fingerprints : list bytes) (v : Value Other)
    : list bytes * bool :=
  match literal_text v with
  | Some value_str => (fingerprints ++ [hash_value salt value_str], false)
  | None => (fingerprints, false)
  end.

Definition is_sensitive_literal (v : Value Other) : bool :=
  match v with
  | VNumber _ _ | VSingleQuotedString _ | VDoubleQuotedString _ | VBoolean _ | VNull => true
  | _ => false
  end.

(** [ValueReplacer]. *)
Definition replace (v : Value Other) : Value Other :=
  if is_sensitive_literal v then VPlaceholder (lit "?") else v.

(** [ResidualLiteralDetector]. *)
Definition detect_residual (found_literal : bool) (v : Value Other) : bool * bool :=
  if is_sensitive_literal v then (true, true) else (found_literal, false).

Definition normalize_statement (stmt : Statement) : option bytes :=
  let normalized_stmt := visit_mut replace stmt in
  if visit detect_residual normalized_stmt false then None
  else Some (stmt_to_string normalized_stmt).

Fixpoint normalize_from (i : nat) (statements : list Statement) (normalized : bytes)
    : option bytes :=
  match statements with
  | [] => Some normalized
  | stmt :: statements =>
      let normalized := if decide (i = O) then normalized else normalized ++ lit "; " in
      match normalize_statement stmt with
      | Some s => normalize_from (S i) statements (normalized ++ s)
      | None => None
      end
  end.
Definition normalize_statements (statements : list Statement) : option bytes :=
  normalize_from 0 statements [].

Definition anonymize (salt query : bytes) : option AnonymizedQuery :=
  match parse_sql query with
  | None => None
  | Some [] => None
  | Some statements =>
      let fingerprints := foldl (λ fs st, visit (collect salt) st fs) [] statements in
      match normalize_statements statements with
      | Some normalized =>
          Some {| normalized_query := normalized; value_fingerprints := fingerprints |}
      | None => None
      end
  end.
End anonymize.

(** ** Parameters *)
Fixpoint redact_param (p : ParamValue) : ParamValue :=
  match p with
  | Null => Null
  | Bool _ => Bool false
  | Int16 _ => Int16 0
  | Int32 _ => Int32 0
  | Int64 _ => Int64 0
  | Float32 _ => Float32 0
  | Float64 _ => Float64 0
  | Numeric _ => Numeric []
  | Text _ => Text []
  | Bytes _ => Bytes []
  | Date _ => Date 0
  | Time _ => Time 0
  | Timestamp _ => Timestamp 0
  | TimestampTz _ => TimestampTz 0
  | Interval _ _ _ => Interval 0 0 0
  | Uuid _ => Uuid (replicate 16 x00)
  | Json _ => Json []
  | Array elements dimensions => Array (redact_param <$> elements) dimensions
  | Range lower upper lower_inc upper_inc =>
      Range (redact_param <$> lower) (redact_param <$> upper) lower_inc upper_inc
  | Composite fields => Composite (redact_param <$> fields)
  | UnknownParam oid _ => UnknownParam oid []
  end.

(** ** Events *)
Inductive ParseFailureMode : Type := Redact | Drop.

(** What [QueryEventBuilder] is told; a setter that is not called leaves
    [None]. *)
Record QueryEvent : Type := {
  ev_query : bytes;
  ev_connection_id : bytes;
  ev_database : bytes;
  ev_params : list ParamValue;
  ev_params_incomplete : bool;
  ev_duration : Z;
  ev_success : bool;
  ev_normalized_query : option bytes;
  ev_value_fingerprints : option (list bytes);
  ev_error : option bytes
}.

Definition REDACTED_QUERY : bytes := lit "<redacted: unparseable>".

Record AnonymizationSettings : Type := {
  enabled : bool; anonymizer_salt : bytes; parse_failure : ParseFailureMode
}.

Definition from_config (anonymize_ : bool) (anonymize_salt : option bytes) (m : ParseFailureMode)
    : AnonymizationSettings :=
  {| enabled := anonymize_;
     anonymizer_salt := match anonymize_salt with Some salt => salt | None => default_salt end;
     parse_failure := m |}.

Section events.
Context `{Build} `{SqlParser} `{Blake3} (settings : AnonymizationSettings).

Definition error_field (data full_error : bytes) : outcome (option bytes) :=
  if enabled settings then Ext.extract_error_scrubbed data else Ret (Some full_error).

Definition redact_params (params : list ParamValue) : list ParamValue :=
  if negb (enabled settings) then params else redact_param <$> params.

Definition build_event (query : bytes) (params : list ParamValue) (params_incomplete : bool)
    (duration : Z) (success : bool) (error : option bytes) (connection_id database : bytes)
    : option (QueryEvent * list bytes) :=
  let texts :=
    if negb (enabled settings) then Some (query, None, [])
    else
      match anonymize (anonymizer_salt settings) query with
      | Some anon =>
          Some (normalized_query anon, Some (normalized_query anon), value_fingerprints anon)
      | None =>
          match parse_failure settings with
          | Drop => None
          | Redact => Some (REDACTED_QUERY, Some REDACTED_QUERY, [])
          end
      end in
  match texts with
  | None => None
  | Some (query_text, normalized, fingerprints) =>
      Some ({| ev_query := query_text;
               ev_connection_id := connection_id;
               ev_database := database;
               ev_params := redact_params params;
               ev_params_incomplete := params_incomplete;
               ev_duration := duration;
               ev_success := success;
               ev_normalized_query := normalized;
               ev_value_fingerprints := if bool_decide (fingerprints = []) then None
                                        else Some fingerprints;
               ev_error := error |}, fingerprints)
  end.
End events.

(** ** Span fields and logs *)
Definition KEYWORDS : list bytes :=
  lit <$> ["SELECT"; "INSERT"; "UPDATE"; "DELETE"; "WITH"; "VALUES"; "TABLE"; "BEGIN"; "START";
           "COMMIT"; "ROLLBACK"; "SAVEPOINT"; "RELEASE"; "SET"; "SHOW"; "EXPLAIN"; "CREATE"; "DROP";
           "ALTER"; "DECLARE"; "CLOSE"; "DEALLOCATE"; "LISTEN"; "UNLISTEN"; "NOTIFY"]%string.

Definition ends_keyword (rest : bytes) : bool :=
  match Str.chars rest with
  | [] => true
  | c :: _ => Str.is_whitespace c || bool_decide (c = [x28]) || bool_decide (c = [x3b])
  end.

Fixpoint find_keyword (upper : bytes) (keywords : list bytes) : bytes :=
  match keywords with
  | [] => lit "OTHER"
  | kw :: keywords =>
      match Str.strip_prefix upper kw with
      | Some rest => if ends_keyword rest then kw else find_keyword upper keywords
      | None => find_keyword upper keywords
      end
  end.
Definition command_tag `{Unicode} (sql : bytes) : bytes :=
  find_keyword (Str.to_uppercase (Str.trim_start sql)) KEYWORDS.

Definition query_fingerprint `{Blake3} (sql : bytes) : outcome bytes :=
  Str.slice (blake3_hex sql) 0 16.

Definition loggable (unsafe_debug_logging : bool) (text : bytes) : bytes :=
  if unsafe_debug_logging then text else lit "<redacted>".

(** ** What redaction keeps: the type of a parameter *)
Inductive Shape : Type :=
| Scalar (variant : nat)
| SArray (elements : list Shape) (dimensions : list Z)
| SRange (lower upper : option Shape) (lower_inc upper_inc : bool)
| SComposite (fields : list Shape)
| SUnknown (oid : Z).

Fixpoint param_type (p : ParamValue) : Shape :=
  match p with
  | Null => Scalar 0 | Bool _ => Scalar 1 | Int16 _ => Scalar 2 | Int32 _ => Scalar 3
  | Int64 _ => Scalar 4 | Float32 _ => Scalar 5 | Float64 _ => Scalar 6 | Numeric _ => Scalar 7
  | Text _ => Scalar 8 | Bytes _ => Scalar 9 | Date _ => Scalar 10 | Time _ => Scalar 11
  | Timestamp _ => Scalar 12 | TimestampTz _ => Scalar 13 | Interval _ _ _ => Scalar 14
  | Uuid _ => Scalar 15 | Json _ => Scalar 16
  | Array elements dimensions => SArray (param_type <$> elements) dimensions
  | Range lower upper li ui => SRange (param_type <$> lower) (param_type <$> upper) li ui
  | Composite fields => SComposite (param_type <$> fields)
  | UnknownParam oid _ => SUnknown oid
  end.

(** Induction that reaches the values nested in lists and options. *)
Section nested.
Context (P : ParamValue → Prop).
Context (HScalar : ∀ p, (∀ es d, p ≠ Array es d) → (∀ l u a b, p ≠ Range l u a b) →
                        (∀ fs, p ≠ Composite fs) → P p).
Context (HArray : ∀ es d, Forall P es → P (Array es d)).
Context (HRange : ∀ l u a b, (∀ x, l = Some x → P x) → (∀ x, u = Some x → P x) → P (Range l u a b)).
Context (HComposite : ∀ fs, Forall P fs → P (Composite fs)).

Lemma ParamValue_nested_ind p : P p.
Proof.
  revert p. fix IH 1. intros p. destruct p as
    [| | | | | | | | | | | | | | | | |elements dims|lower upper li ui|fields|];
    try (apply HScalar; discriminate).
  - apply HArray. induction elements as [|x l IHl]; constructor; [apply IH|apply IHl].
  - apply HRange; [destruct lower as [y|]|destruct upper as [y|]]; intros x Hx;
      [injection Hx as <-; apply IH|discriminate|injection Hx as <-; apply IH|discriminate].
  - apply HComposite. induction fields as [|x l IHl]; constructor; [apply IH|apply IHl].
Qed.
End nested.

Lemma fmap_type_redact {A B} (f : ParamValue → A) (g : ParamValue → B) (l k : list ParamValue) :
  Forall (λ p, ∀ q, f p = f q ↔ g p = g q) l → f <$> l = f <$> k ↔ g <$> l = g <$> k.
Proof.
  intros Hl. revert k. induction Hl as [|p l Hp _ IH]; intros [|q k]; simpl; try done.
  split; intros [= H1 H2]; f_equal; (by apply Hp) || by apply IH.
Qed.
Lemma option_fmap_type_redact {A B} (f : ParamValue → A) (g : ParamValue → B) (o o' : option ParamValue) :
  (∀ p, o = Some p → ∀ q, f p = f q ↔ g p = g q) → f <$> o = f <$> o' ↔ g <$> o = g <$> o'.
Proof.
  intros Ho. destruct o as [p|], o' as [q|]; simpl; try done.
  specialize (Ho p eq_refl q). split; intros [= H1]; f_equal; by apply Ho.
Qed.

Lemma redact_type p q : redact_param p = redact_param q ↔ param_type p = param_type q.
Proof.
  revert q. induction p as [p Ha Hr Hc|es d IH|l u a b IHl IHu|fs IH] using ParamValue_nested_ind;
    intros q.
  - destruct p, q; simpl; try done; try (split; congruence);
      solve [exfalso; eapply Ha; reflexivity|exfalso; eapply Hr; reflexivity
            |exfalso; eapply Hc; reflexivity].
  - destruct q; simpl; try done. pose proof (fmap_type_redact _ _ _ elements IH) as He.
    split; intros [= H1 H2]; f_equal; try done; by apply He.
  - destruct q as [| | | | | | | | | | | | | | | | | |l' u' a' b'| |]; simpl; try done.
    pose proof (option_fmap_type_redact _ _ l l' IHl) as Hl.
    pose proof (option_fmap_type_redact _ _ u u' IHu) as Hu.
    split; intros [= H1 H2 H3 H4]; f_equal; try done; (by apply Hl) || by apply Hu.
  - destruct q; simpl; try done. pose proof (fmap_type_redact _ _ _ fields IH) as He.
    split; intros [= H1]; f_equal; by apply He.
Qed.

(** ** Lemmas on the anonymiser *)
Definition join (sep : bytes) (l : list bytes) : bytes :=
  match l with [] => [] | x :: l => x ++ concat ((λ y, sep ++ y) <$> l) end.

Section lemmas.
Context `{SqlLaws} `{Blake3}.

Lemma fold_collect salt fs vs :
  fold_break (collect salt) fs vs = fs ++ (hash_value salt <$> omap literal_text vs).
Proof.
  revert fs. induction vs as [|v vs IH]; intros fs; simpl; [by rewrite app_nil_r|].
  unfold collect at 1. destruct (literal_text v); simpl; rewrite IH; [|done].
  by rewrite <-app_assoc.
Qed.

Lemma fold_residual vs :
  Forall (λ v, is_sensitive_literal v = false) vs → fold_break detect_residual false vs = false.
Proof.
  induction 1 as [|v vs Hv _ IH]; simpl; [done|]. unfold detect_residual at 1. by rewrite Hv.
Qed.

Lemma replaced_not_sensitive st :
  Forall (λ v, is_sensitive_literal v = false) (values (visit_mut replace st)).
Proof.
  rewrite visit_mut_values. apply Forall_fmap, Forall_true. intros v. simpl. unfold replace.
  by destruct (is_sensitive_literal v) eqn:?.
Qed.

(** The check for surviving literals never finds one. *)
Lemma normalize_statement_total st :
  normalize_statement st = Some (stmt_to_string (visit_mut replace st)).
Proof.
  unfold normalize_statement. cbv zeta.
  by rewrite visit_values, fold_residual by apply replaced_not_sensitive.
Qed.

Lemma normalize_from_S i sts acc :
  normalize_from (S i) sts acc
  = Some (acc ++ concat ((λ st, lit "; " ++ stmt_to_string (visit_mut replace st)) <$> sts)).
Proof.
  revert i acc. induction sts as [|st sts IH]; intros i acc; simpl; [by rewrite app_nil_r|].
  rewrite normalize_statement_total, IH. by rewrite <-!app_assoc.
Qed.

Lemma normalize_statements_total sts :
  normalize_statements sts
  = Some (join (lit "; ") ((λ st, stmt_to_string (visit_mut replace st)) <$> sts)).
Proof.
  unfold normalize_statements. destruct sts as [|st sts]; [done|]. cbn [normalize_from].
  rewrite decide_True, normalize_statement_total by done. cbn [app].
  rewrite normalize_from_S. simpl. by rewrite <-list_fmap_compose.
Qed.

Lemma fingerprints_total salt sts fs :
  foldl (λ fs st, visit (collect salt) st fs) fs sts
  = fs ++ (hash_value salt <$> omap literal_text (concat (values <$> sts))).
Proof.
  revert fs. induction sts as [|st sts IH]; intros fs; simpl; [by rewrite app_nil_r|].
  by rewrite IH, visit_values, fold_collect, omap_app, fmap_app, app_assoc.
Qed.

Lemma anonymize_parsed salt q st sts :
  parse_sql q = Some (st :: sts) →
  anonymize salt q = Some {|
    normalized_query :=
      join (lit "; ") ((λ st, stmt_to_string (visit_mut replace st)) <$> st :: sts);
    value_fingerprints := hash_value salt <$> omap literal_text (concat (values <$> st :: sts)) |}.
Proof.
  intros Hp. unfold anonymize. rewrite Hp, normalize_statements_total, fingerprints_total. done.
Qed.

Lemma anonymize_unparsed salt q :
  parse_sql q = None ∨ parse_sql q = Some [] → anonymize salt q = None.
Proof. unfold anonymize. by intros [-> | ->]. Qed.

(** The values of a statement are of the kinds the code names: numbers, single-
    and double-quoted strings, booleans, NULL, and placeholders.  The parser has
    others: dollar-quoted, escaped, national, hexadecimal and byte strings. *)
Definition named_kind (v : Value Other) : bool := match v with VOther _ => false | _ => true end.
Definition named_kinds (st : Statement) : Prop := Forall named_kind (values st).

(** A change of the literals among such values that keeps everything else. *)
Definition changes_literals (f : Value Other → Value Other) : Prop :=
  ∀ v, named_kind v = true → if is_sensitive_literal v then is_sensitive_literal (f v) = true else f v = v.

Lemma replace_changed f st :
  changes_literals f → named_kinds st → visit_mut replace (visit_mut f st) = visit_mut replace st.
Proof.
  intros Hf Hst. rewrite visit_mut_compose. apply visit_mut_ext. intros v Hv.
  unfold named_kinds in Hst. rewrite Forall_forall in Hst. specialize (Hf v (Is_true_true_1 _ (Hst v Hv))).
  unfold replace. destruct (is_sensitive_literal v) eqn:Hs; [by rewrite Hf|by rewrite Hf, Hs].
Qed.

Lemma omap_changed f vs :
  changes_literals f → Forall named_kind vs →
  length (omap literal_text (f <$> vs)) = length (omap literal_text vs).
Proof.
  intros Hf. assert (Hl : ∀ v, is_sensitive_literal v = bool_decide (is_Some (literal_text v)))
    by (intros []; reflexivity).
  induction 1 as [|v vs Hv _ IH]; simpl; [done|]. specialize (Hf v (Is_true_true_1 _ Hv)). rewrite !Hl in Hf.
  destruct (literal_text v) as [x|] eqn:Ht; simpl in Hf.
  - apply bool_decide_eq_true in Hf as [y ->]. simpl. f_equal. exact IH.
  - rewrite Hf, Ht. exact IH.
Qed.

Lemma normalized_changed f (g : Statement → bytes) (sts : list Statement) :
  changes_literals f → Forall named_kinds sts →
  (λ st, g (visit_mut replace st)) <$> (visit_mut f <$> sts) = (λ st, g (visit_mut replace st)) <$> sts.
Proof.
  intros Hf. induction 1 as [|st sts Hst _ IH]; [done|]. rewrite !fmap_cons, IH. by rewrite replace_changed.
Qed.

Lemma literals_changed f (sts : list Statement) :
  changes_literals f → Forall named_kinds sts →
  length (omap literal_text (concat (values <$> sts)))
  = length (omap literal_text (concat (values <$> (visit_mut f <$> sts)))).
Proof.
  intros Hf. induction 1 as [|s sts Hs _ IH]; [done|].
  rewrite !fmap_cons. cbn [concat].
  by rewrite !omap_app, !length_app, visit_mut_values, omap_changed, IH.
Qed.
End lemmas.

(** ** Theorems *)

(** Redaction of a parameter keeps its type and nothing else: two
    parameters are published alike exactly when they have the same variant
    (the same element types, dimensions and bounds for composite values, the
    same type number for unknown ones). *)
Lemma redaction_keeps_type_only p q :
  redact_param p = redact_param q ↔ param_type p = param_type q.
Proof. apply redact_type. Qed.

(** A query that parses is always anonymised (the check for surviving
    literals never rejects one): the normalised text is that of statements
    without a sensitive literal, and there is one fingerprint per sensitive
    literal, in order, equal for equal literals. *)
Lemma anonymize_complete `{SqlLaws} `{Blake3} salt q st sts :
  parse_sql q = Some (st :: sts) →
  ∃ a, anonymize salt q = Some a ∧
    value_fingerprints a = hash_value salt <$> omap literal_text (concat (values <$> st :: sts)) ∧
    normalized_query a = join (lit "; ") (stmt_to_string <$> (visit_mut replace <$> st :: sts)) ∧
    Forall (λ s, Forall (λ v, is_sensitive_literal v = false) (values s))
           (visit_mut replace <$> st :: sts).
Proof.
  intros Hp. eexists. split; [by apply anonymize_parsed|]. split_and!; [done| |].
  - cbn [normalized_query]. by rewrite <-list_fmap_compose.
  - apply Forall_fmap, Forall_true. intros s. apply replaced_not_sensitive.
Qed.

(** An event without its fingerprints. *)
Definition without_fingerprints (e : QueryEvent * list bytes) : QueryEvent :=
  {| ev_query := ev_query e.1; ev_connection_id := ev_connection_id e.1;
     ev_database := ev_database e.1; ev_params := ev_params e.1;
     ev_params_incomplete := ev_params_incomplete e.1; ev_duration := ev_duration e.1;
     ev_success := ev_success e.1; ev_normalized_query := ev_normalized_query e.1;
     ev_value_fingerprints := None; ev_error := ev_error e.1 |}.


(** A query that does not parse is never published: its event is dropped,
    or carries a fixed text and no fingerprint, whatever the query was. *)
Lemma unparsed_query_fails_closed `{SqlParser} `{Blake3} settings q ps incomplete duration success
    error cid db :
  enabled settings = true → (parse_sql q = None ∨ parse_sql q = Some []) →
  match build_event settings q ps incomplete duration success error cid db with
  | None => parse_failure settings = Drop
  | Some (e, fingerprints) =>
      parse_failure settings = Redact ∧ ev_query e = REDACTED_QUERY ∧
      ev_normalized_query e = Some REDACTED_QUERY ∧ fingerprints = [] ∧
      ev_value_fingerprints e = None ∧ ev_params e = redact_param <$> ps
  end.
Proof.
  intros Hen Hq. unfold build_event, redact_params. rewrite Hen. simpl.
  unfold anonymize. destruct Hq as [-> | ->]; destruct (parse_failure settings); done.
Qed.

(** ** Concrete runs

    A parser for the runs: a text is one statement with one literal, a number,
    a dollar-quoted string (of a kind the code does not name) or a quoted
    string. *)
Definition toy_parse (q : bytes) : option (list (list (Value bytes))) :=
  match q with
  | [] => None
  | b :: _ =>
      Some [[if beqb b x24 then VOther q
             else if bool_decide (is_Some (Str.digit b)) then VNumber q false
             else VSingleQuotedString q]]
  end.
Definition toy_print (v : Value bytes) : bytes :=
  match v with
  | VNumber s _ | VSingleQuotedString s | VDoubleQuotedString s | VPlaceholder s | VOther s => s
  | VBoolean b => bool_to_string b
  | VNull => lit "NULL"
  end.
Definition toy_parser : SqlParser := {|
  Statement := list (Value bytes);
  Other := bytes;
  values := λ st, st;
  parse_sql := toy_parse;
  visit := λ S f st s, fold_break f s st;
  visit_mut := λ f st, f <$> st;
  stmt_to_string := λ st, concat (toy_print <$> st)
|}.
#[local] Existing Instance toy_parser.
Lemma toy_laws : SqlLaws.
Proof.
  split; simpl; try done.
  - intros f g st. by rewrite <-list_fmap_compose.
  - intros f g st Hfg. apply list_fmap_ext. intros i v Hv. apply Hfg. by eapply list_elem_of_lookup_2.
Qed.
#[local] Existing Instance toy_laws.
Definition toy_hash : Blake3 := {| blake3_hex := λ s, s |}.
#[local] Existing Instance toy_hash.

Definition demo_settings (m : ParseFailureMode) : AnonymizationSettings :=
  from_config true (Some (lit "salt")) m.
Definition to_bob (v : Value (@Other toy_parser)) : Value (@Other toy_parser) :=
  match v with VSingleQuotedString _ => VSingleQuotedString (lit "bob") | v => v end.

Definition demo_statement : @Statement toy_parser := [VSingleQuotedString (lit "alice")].


(** A literal of a kind the code does not name is neither replaced nor
    fingerprinted nor found by the check for survivors: it is published. *)
Example unnamed_literal_is_published :
  anonymize (lit "salt") (lit "$$secret$$")
  = Some {| normalized_query := lit "$$secret$$"; value_fingerprints := [] |}.
Proof. vm_compute. reflexivity. Qed.

Lemma find_keyword_known upper kws : find_keyword upper kws ∈ lit "OTHER" :: kws.
Proof.
  induction kws as [|kw kws IH]; simpl; [set_solver|].
  destruct (Str.strip_prefix upper kw) as [rest|]; [destruct (ends_keyword rest)|]; set_solver.
Qed.

(** The tag of a span is one of the fixed words. *)
Lemma command_tag_known `{Unicode} sql : command_tag sql ∈ lit "OTHER" :: KEYWORDS.
Proof. apply find_keyword_known. Qed.
End Anon.
