(* ===== verification/Modes.v ===== *)
(** * Pooling modes and transaction tracking
      (proxy/mode_enforcer.rs, proxy/transaction.rs, and the decisions of
      proxy/connection.rs that depend on them) *)

From S2P Require Import Prelude RustStr CommandDetector ConnState Wire Extractor.

Module Modes.
Import Detector.

(** ** Transaction state *)
Inductive TransactionState : Type := Idle | InTransaction | InError.
#[export] Instance TransactionState_eq_dec : EqDecision TransactionState.
Proof. solve_decision. Defined.

Record TransactionTracker : Type := { state : TransactionState }.
Definition tracker_new : TransactionTracker := {| state := Idle |}.

Definition update_from_ready_for_query (status : byte) (t : TransactionTracker)
    : TransactionTracker :=
  {| state := if beqb status x49 then Idle
              else if beqb status x54 then InTransaction
              else if beqb status x45 then InError
              else state t |}.
Definition is_in_transaction (t : TransactionTracker) : bool :=
  match state t with InTransaction | InError => true | Idle => false end.
Definition is_idle (t : TransactionTracker) : bool := bool_decide (state t = Idle).

(** connection.rs [build_ready_for_query]. *)
Definition status_byte (s : TransactionState) : byte :=
  match s with Idle => x49 | InTransaction => x54 | InError => x45 end.
Definition build_ready_for_query (s : TransactionState) : bytes :=
  [x5a; x00; x00; x00; x05; status_byte s].

(** ** Modes *)
Inductive PoolingMode : Type := Session | Transaction | Hybrid.
#[export] Instance PoolingMode_eq_dec : EqDecision PoolingMode.
Proof. solve_decision. Defined.

Inductive PoolingStrategy : Type :=
| StrategyDisabled | StrategySession | StrategyTransaction | StrategyHybrid.

Definition pooling_mode (s : PoolingStrategy) : PoolingMode :=
  match s with
  | StrategyDisabled | StrategySession => Session
  | StrategyTransaction => Transaction
  | StrategyHybrid => Hybrid
  end.

Definition should_release_connection (s : PoolingStrategy) (c : CS.ConnectionState) : bool :=
  match s with
  | StrategyDisabled | StrategySession => false
  | StrategyTransaction | StrategyHybrid => negb (CS.is_pinned c)
  end.

Definition should_intercept_terminate (message_index : nat) : bool :=
  bool_decide (message_index = O).

Section enforce.
Context `{Unicode}.

(** [None] is [Ok(())], [Some m] is [Err(m)]. *)
Definition validate (mode : PoolingMode) (sql : bytes) (in_transaction : bool)
    : outcome (option bytes) :=
  if negb (bool_decide (mode = Transaction)) then Ret None
  else
    detected ← detect sql;
    Ret (match detected with
         | Some (Set_ _ _) =>
             if in_transaction then None
             else Some (lit "session variables not supported in transaction pooling mode")
         | Some (CreateTempTable _) =>
             Some (lit "temporary tables not supported in transaction pooling mode")
         | Some (DeclareCursor _ true) =>
             Some (lit "cursors WITH HOLD not supported in transaction pooling mode")
         | Some (AdvisoryLock _) =>
             Some (lit "advisory locks not supported in transaction pooling mode")
         | _ => None
         end).
End enforce.

Definition build_error_response (message : bytes) : bytes :=
  let fields :=
    (x53 :: lit "ERROR" ++ [x00]) ++ (x43 :: lit "0A000" ++ [x00])
      ++ (x4d :: message ++ [x00]) ++ [x00] in
  MSG_ERROR_RESPONSE :: be32 (zlen fields + 4) ++ fields.

(** ** Lemmas *)
Lemma build_ready_for_query_frame s :
  build_ready_for_query s = frame MSG_READY_FOR_QUERY [status_byte s].
Proof. done. Qed.

(** The status byte the proxy makes up is the one the tracker reads. *)
Lemma status_roundtrip s t : state (update_from_ready_for_query (status_byte s) t) = s.
Proof. by destruct s. Qed.

Lemma mode_error_frame m :
  build_error_response m
  = frame MSG_ERROR_RESPONSE (Ext.put_fields [(x53, lit "ERROR"); (x43, lit "0A000"); (x4d, m)]).
Proof.
  unfold build_error_response, frame. rewrite !Ext.put_fields_cons.
  unfold Ext.put_fields. cbv zeta.
  rewrite (Z.add_comm _ 4). cbn [fmap list_fmap concat].
  rewrite <-!app_comm_cons, <-!app_assoc. done.
Qed.

Lemma unpinned_is_new c : CS.wf c → CS.is_pinned c = false → c = CS.new (CS.max_prepared_statements c).
Proof.
  intros Hwf. unfold CS.is_pinned. rewrite !orb_false_iff, !negb_false_iff, !bool_decide_eq_true.
  intros ((((((Hu & Hp) & Hv) & Ht) & Hc) & Ha) & Hl).
  pose proof (CS.wf_length_lru c Hwf) as Hlen. pose proof (CS.wf_max c Hwf).
  destruct c; simpl in *. subst. rewrite map_size_empty in Hlen.
  apply nil_length_inv in Hlen. subst. unfold CS.new. f_equal. lia.
Qed.
End Modes.
