(* ===== verification/Handler.v ===== *)
(** * The pooled connection handler
      (proxy/connection.rs, [handle_with_managed_connection])

    The handler's select loop as a function of one event at a time: a read from
    the client, a read from the backend, the end of either stream, or the expiry
    of the query deadline.  A step answers with what the handler does, in order
    (writes to either side, releases and acquisitions of the backend connection,
    events handed to the batcher), and with the state it goes on with, or none
    when it leaves the loop.

    Start-up, authentication, logging, tracing spans and latency measurements
    are outside of this model; so is the anonymisation of the published events,
    which are recorded here with the arguments they are built from.  [step] is the
    handler when every write and acquisition succeeds; one that fails ends the
    handler where it stands, by the early return of [?], and what it holds is
    dropped ([attempt]). *)

From S2P Require Import Prelude RustStr CommandDetector ConnState Wire Extractor AuthMessages StmtCache Bind Modes.

Module Handler.
Import BindParams.

Record PendingExecution : Type := {
  pe_query : bytes; pe_params : list ParamValue; pe_incomplete : bool
}.
Abbreviation StmtCache := (Cache.PreparedStatementCache PendingExecution).

Inductive action : Type :=
| ToClient (data : bytes)
| ToBackend (data : bytes)
| Publish (query : bytes) (params : list ParamValue) (incomplete success : bool)
    (error : option bytes)
| RecordQuery (success : bool)
| Release
| Acquire (needs_sticky : bool)
| InitBackendIfFresh.

Record HandlerState : Type := mk {
  extractor : Ext.MessageExtractor;
  stmt_cache : StmtCache;
  txn_tracker : Modes.TransactionTracker;
  conn_state : CS.ConnectionState;
  query_deadline : option Z
}.

Record Config : Type := {
  strategy : Modes.PoolingStrategy;
  max_prepared_statements : nat;
  query_timeout_secs : Z
}.

Definition start (cfg : Config) : HandlerState :=
  mk Ext.new (Cache.new (max_prepared_statements cfg)) Modes.tracker_new
     (CS.new (max_prepared_statements cfg)) None.

Definition with_cache (c : StmtCache) (s : HandlerState) : HandlerState :=
  mk (extractor s) c (txn_tracker s) (conn_state s) (query_deadline s).
Definition with_conn (c : CS.ConnectionState) (s : HandlerState) : HandlerState :=
  mk (extractor s) (stmt_cache s) (txn_tracker s) c (query_deadline s).

(** How the loop over the messages of one read ended. *)
Inductive verdict : Type := Forward | Rejected | Terminated.

Section handler.
Context `{Build} `{Unicode} `{FloatParser} (cfg : Config).

Definition mode : Modes.PoolingMode := Modes.pooling_mode (strategy cfg).
Definition query_timeout_enabled : bool := 0 <? query_timeout_secs cfg.

(** ** One message of the client *)
Definition reject (s : HandlerState) (err_msg : bytes) : list action :=
  [ToClient (Modes.build_error_response err_msg);
   ToClient (Modes.build_ready_for_query (Modes.state (txn_tracker s)))].

Definition on_parse (s : HandlerState) (name query : bytes) (oids : list Z)
    : outcome (HandlerState * list action * verdict) :=
  v ← Modes.validate mode query (Modes.is_in_transaction (txn_tracker s));
  match v with
  | Some err => Ret (s, reject s err, Rejected)
  | None =>
      let c := Cache.insert_statement name
                 {| Cache.ps_query := query; Cache.ps_param_oids := oids |} (stmt_cache s) in
      let c := Cache.set_pending []
                 {| pe_query := query; pe_params := []; pe_incomplete := true |} c in
      cs ← CS.apply_parse_state (conn_state s) name query oids;
      Ret (with_conn cs (with_cache c s), [], Forward)
  end.

Definition on_bind (s : HandlerState) (portal statement : bytes) (codes : list Z)
    (params_raw : list (option bytes)) : outcome (HandlerState * list action * verdict) :=
  let '(o, c) := Cache.get_statement statement (stmt_cache s) in
  p ← match o with
      | Some stmt =>
          params ← decode_params params_raw codes (Cache.ps_param_oids stmt);
          Ret {| pe_query := Cache.ps_query stmt; pe_params := params; pe_incomplete := false |}
      | None =>
          Ret {| pe_query := lit "[unknown: " ++ statement ++ lit "]";
                 pe_params := (λ p, match p with
                                    | Some data => UnknownParam 0 data
                                    | None => Null
                                    end) <$> params_raw;
                 pe_incomplete := true |}
      end;
  Ret (with_cache (Cache.set_pending portal p c) s, [], Forward).

Definition on_query (s : HandlerState) (query : bytes)
    : outcome (HandlerState * list action * verdict) :=
  v ← Modes.validate mode query (Modes.is_in_transaction (txn_tracker s));
  match v with
  | Some err => Ret (s, reject s err, Rejected)
  | None =>
      let c := Cache.set_pending []
                 {| pe_query := query; pe_params := []; pe_incomplete := false |} (stmt_cache s) in
      cs ← CS.apply_query (conn_state s) query;
      Ret (with_conn cs (with_cache c s), [], Forward)
  end.

Definition on_close (s : HandlerState) (kind : byte) (name : bytes) : HandlerState :=
  if beqb kind x53 then
    with_conn (CS.remove_prepared_statement name (conn_state s))
              (with_cache (Cache.remove_statement name (stmt_cache s)) s)
  else if beqb kind x50 then with_cache (Cache.clear_pending name (stmt_cache s)) s
  else s.

Definition on_message (index : nat) (s : HandlerState) (m : Message)
    : outcome (HandlerState * list action * verdict) :=
  match m with
  | Parse name query oids => on_parse s name query oids
  | Bind portal statement codes params => on_bind s portal statement codes params
  | Query query => on_query s query
  | Close kind name => Ret (on_close s kind name, [], Forward)
  | Terminate =>
      Ret (s, [], if Modes.should_intercept_terminate index then Terminated else Forward)
  | Execute _ | Sync => Ret (s, [], Forward)
  end.

(** The [for] loop over the messages: it goes on while messages are accepted
    and breaks at the first one that is rejected or intercepted. *)
Fixpoint process_messages (index : nat) (s : HandlerState) (ms : list Message)
    : outcome (HandlerState * list action * verdict) :=
  match ms with
  | [] => Ret (s, [], Forward)
  | m :: ms =>
      on_message index s m ≫= λ r : HandlerState * list action * verdict,
      match r.2 with
      | Forward =>
          process_messages (S index) r.1.1 ms ≫= λ r' : HandlerState * list action * verdict,
          Ret (r'.1.1, r.1.2 ++ r'.1.2, r'.2)
      | _ => Ret r
      end
  end.

(** ** A read from the client, at the time [now] *)
Definition on_client_data (now : Z) (s : HandlerState) (data : bytes)
    : outcome (list action * option HandlerState) :=
  Ext.extract_messages (extractor s) data ≫= λ e : list Message * Ext.MessageExtractor,
  let s := mk e.2 (stmt_cache s) (txn_tracker s) (conn_state s) (query_deadline s) in
  process_messages 0 s e.1 ≫= λ r : HandlerState * list action * verdict,
  let s := r.1.1 in
  let acts := r.1.2 ++ match r.2 with Forward => [ToBackend data] | _ => [] end in
  match r.2 with
  | Terminated => Ret (acts ++ [Release], None)
  | _ =>
      let deadline :=
        if query_timeout_enabled && bool_decide (query_deadline s = None)
             && Cache.has_pending [] (stmt_cache s)
        then Some (now + query_timeout_secs cfg) else query_deadline s in
      Ret (acts, Some (mk (extractor s) (stmt_cache s) (txn_tracker s) (conn_state s) deadline))
  end.

(** ** A read from the backend *)

(** The events of a finished query, and what is left in flight. *)
Definition on_completion (s : HandlerState) (data : bytes)
    : outcome (list action * HandlerState) :=
  error ← Ext.extract_error data;
  match error with
  | Some error_msg =>
      match Cache.take_pending [] (stmt_cache s) with
      | (Some p, c) =>
          Ret ([Publish (pe_query p) (pe_params p) (pe_incomplete p) false (Some error_msg);
                RecordQuery false], with_cache c s)
      | (None, c) => Ret ([], with_cache c s)
      end
  | None =>
      Ext.is_query_complete data ≫= λ complete : bool,
      if complete then
        match Cache.take_pending [] (stmt_cache s) with
        | (Some p, c) =>
            Ret (((λ stmt, Publish stmt (pe_params p) (pe_incomplete p) true None)
                    <$> Detector.split_statements (pe_query p)) ++ [RecordQuery true],
                 with_cache c s)
        | (None, c) => Ret ([], with_cache c s)
        end
      else Ret ([], s)
  end.

Definition on_backend_data (s : HandlerState) (data : bytes)
    : outcome (list action * option HandlerState) :=
  on_completion s data ≫= λ r : list action * HandlerState,
  let acts := r.1 in
  let s := r.2 in
  let deadline :=
    if query_timeout_enabled && negb (Cache.has_pending [] (stmt_cache s))
    then None else query_deadline s in
  let s := mk (extractor s) (stmt_cache s) (txn_tracker s) (conn_state s) deadline in
  ready ← Ext.extract_ready_for_query data;
  match ready with
  | Some status =>
      let was_in_transaction := Modes.is_in_transaction (txn_tracker s) in
      let t := Modes.update_from_ready_for_query status (txn_tracker s) in
      let s := mk (extractor s) (stmt_cache s) t (conn_state s) (query_deadline s) in
      let just_finished_transaction := was_in_transaction && Modes.is_idle t in
      let should_release := Modes.should_release_connection (strategy cfg) (conn_state s) in
      if just_finished_transaction && should_release then
        Ret (acts ++ [ToClient data; Release; Acquire (CS.is_pinned (conn_state s));
                      InitBackendIfFresh], Some s)
      else Ret (acts ++ [ToClient data], Some s)
  | None => Ret (acts ++ [ToClient data], Some s)
  end.

(** ** The query deadline *)
Definition on_deadline (s : HandlerState) : list action * option HandlerState :=
  ([RecordQuery false;
    ToClient (Auth.build_error_response (lit "ERROR") (lit "57014")
                (lit "canceling statement due to query timeout"));
    ToClient (Modes.build_ready_for_query (Modes.state (txn_tracker s)));
    Release], None).

(** ** The loop *)
Inductive event : Type :=
| ClientData (now : Z) (data : bytes)
| ClientClosed
| BackendData (data : bytes)
| BackendClosed
| Deadline (now : Z).

(** The timer arm is ready once the deadline has passed. *)
Definition expired (now : Z) (s : HandlerState) : bool :=
  match query_deadline s with Some d => d <=? now | None => false end.

(** A read of zero bytes and a read error both leave the loop. *)
Definition step (s : HandlerState) (e : event) : outcome (list action * option HandlerState) :=
  match e with
  | ClientData now data => on_client_data now s data
  | BackendData data => on_backend_data s data
  | ClientClosed | BackendClosed => Ret ([Release], None)
  | Deadline now =>
      if query_timeout_enabled && expired now s
      then Ret (on_deadline s) else Ret ([], Some s)
  end.

Fixpoint run (s : HandlerState) (es : list event) : outcome (list action * option HandlerState) :=
  match es with
  | [] => Ret ([], Some s)
  | e :: es =>
      step s e ≫= λ r : list action * option HandlerState,
      match r.2 with
      | Some s' =>
          run s' es ≫= λ r' : list action * option HandlerState, Ret (r.1 ++ r'.1, r'.2)
      | None => Ret r
      end
  end.

(** ** Failing writes and acquisitions

    The writes of the client and of the backend, the acquisition of a connection
    and its start-up are under a [?]; the two writes of the timer arm are not
    ([let _ =]).  [managed_conn] is moved into [release] and assigned by the
    acquisition, so at an early return it is dropped just when it was not moved
    out last. *)
Inductive deed : Type := Did (a : action) | Dropped.

Definition fallible (e : event) (a : action) : bool :=
  match e, a with
  | Deadline _, _ => false
  | _, (ToClient _ | ToBackend _ | Acquire _ | InitBackendIfFresh) => true
  | _, _ => false
  end.
Definition owns : list action → bool :=
  foldl (λ held a, match a with Release => false | Acquire _ => true | _ => held end) true.

(** One event, of whose actions the one numbered [fails] fails if it can. *)
Definition attempt (s : HandlerState) (e : event) (fails : option nat)
    : outcome (list deed * option HandlerState) :=
  step s e ≫= λ r : list action * option HandlerState,
  match fails ≫= λ k, (k,.) <$> r.1 !! k with
  | Some (k, a) =>
      if fallible e a
      then Ret ((Did <$> take k r.1) ++ (if owns (take k r.1) then [Dropped] else []), None)
      else Ret (Did <$> r.1, r.2)
  | None => Ret (Did <$> r.1, r.2)
  end.

Fixpoint attempts (s : HandlerState) (es : list (event * option nat))
    : outcome (list deed * option HandlerState) :=
  match es with
  | [] => Ret ([], Some s)
  | (e, fails) :: es =>
      attempt s e fails ≫= λ r : list deed * option HandlerState,
      match r.2 with
      | Some s' =>
          attempts s' es ≫= λ r' : list deed * option HandlerState, Ret (r.1 ++ r'.1, r'.2)
      | None => Ret r
      end
  end.
End handler.

(** ** What the actions amount to *)
Definition to_backend : list action → list bytes :=
  omap (λ a, match a with ToBackend d => Some d | _ => None end).
Definition to_client : list action → list bytes :=
  omap (λ a, match a with ToClient d => Some d | _ => None end).

(** Who holds the backend connection: writing to it and giving it back need
    it, acquiring needs not to have it.  [None] is a violation. *)
Definition custody1 (held : bool) (a : action) : option bool :=
  match a with
  | ToBackend _ | InitBackendIfFresh => if held then Some true else None
  | Release => if held then Some false else None
  | Acquire _ => if held then None else Some true
  | _ => Some held
  end.
Fixpoint custody (held : bool) (acts : list action) : option bool :=
  match acts with
  | [] => Some held
  | a :: acts => custody1 held a ≫= λ h, custody h acts
  end.

Lemma custody_app h a b : custody h (a ++ b) = (custody h a ≫= λ h', custody h' b).
Proof.
  revert h; induction a as [|x a IH]; intros h; [done|]. simpl.
  destruct (custody1 h x); simpl; [apply IH|done].
Qed.

(** The same with failures: a dropped connection was held and is not any more. *)
Definition holds1 (held : bool) (d : deed) : option bool :=
  match d with
  | Did a => custody1 held a
  | Dropped => if held then Some false else None
  end.
Fixpoint holds (held : bool) (ds : list deed) : option bool :=
  match ds with
  | [] => Some held
  | d :: ds => holds1 held d ≫= λ h, holds h ds
  end.

Lemma holds_app h a b : holds h (a ++ b) = (holds h a ≫= λ h', holds h' b).
Proof.
  revert h; induction a as [|x a IH]; intros h; [done|]. simpl.
  destruct (holds1 h x); simpl; [apply IH|done].
Qed.
Lemma holds_did h acts : holds h (Did <$> acts) = custody h acts.
Proof.
  revert h; induction acts as [|a acts IH]; intros h; [done|]. simpl.
  destruct (custody1 h a); simpl; [apply IH|done].
Qed.

(** In an orderly sequence the last move says whether the connection is held. *)
Lemma custody_owns acts h h' :
  custody h acts = Some h' →
  foldl (λ held a, match a with Release => false | Acquire _ => true | _ => held end) h acts = h'.
Proof.
  revert h; induction acts as [|a acts IH]; intros h; [by intros [=]|].
  cbn [custody foldl]. intros (h1 & Ha & Hr)%bind_Some. apply IH in Hr. rewrite <-Hr. f_equal.
  destruct a, h; simpl in Ha; by simplify_eq.
Qed.
Lemma custody_take k acts h h' : custody h acts = Some h' → is_Some (custody h (take k acts)).
Proof.
  rewrite <-(take_drop k acts) at 1. rewrite custody_app. by intros (h1 & -> & _)%bind_Some.
Qed.

(** Actions that only talk to the client or to the observers. *)
Definition quiet (a : action) : bool :=
  match a with ToClient _ | Publish _ _ _ _ _ | RecordQuery _ => true | _ => false end.

Lemma custody_quiet h acts : Forall quiet acts → custody h acts = Some h.
Proof. induction 1 as [|a acts Ha _ IH]; simpl; [done|]. by destruct a. Qed.
Lemma to_backend_quiet acts : Forall quiet acts → to_backend acts = [].
Proof. induction 1 as [|a acts Ha _ IH]; simpl; [done|]. by destruct a. Qed.
Lemma Release_quiet acts : Forall quiet acts → Release ∉ acts.
Proof. intros Ha Hin. rewrite Forall_forall in Ha. by apply (Ha Release). Qed.

Definition observer (a : action) : bool :=
  match a with Publish _ _ _ _ _ | RecordQuery _ => true | _ => false end.
Lemma observer_quiet acts : Forall observer acts → Forall quiet acts.
Proof. intros Ha. eapply Forall_impl; [exact Ha|]. by intros []. Qed.
Lemma to_client_observer acts : Forall observer acts → to_client acts = [].
Proof. induction 1 as [|a acts Ha _ IH]; simpl; [done|]. by destruct a. Qed.

(** What a message adds to the tracked session. *)
Definition tracked_action (m : Message) : list CS.action :=
  match m with
  | Parse n q o => [CS.AParse n q o]
  | Query q => [CS.AQuery q]
  | Close k n => if beqb k x53 then [CS.ACloseStatement n] else []
  | _ => []
  end.

Section lemmas.
Context `{Build} `{Unicode} `{FloatParser} (cfg : Config).

Lemma session_one s a : CS.session s [a] = CS.act s a.
Proof. unfold CS.session. simpl. by destruct (CS.act s a). Qed.

(** The pooling mode refuses the text of the message with [err]. *)
Definition refused (s : HandlerState) (m : Message) (err : bytes) : Prop :=
  ∃ q, (m = Query q ∨ ∃ n o, m = Parse n q o) ∧
       Modes.validate (mode cfg) q (Modes.is_in_transaction (txn_tracker s)) = Ret (Some err).

(** One message: what it can do. *)
Lemma on_message_spec i s m s' acts v :
  on_message cfg i s m = Ret (s', acts, v) →
  txn_tracker s' = txn_tracker s ∧
  match v with
  | Forward => acts = [] ∧ CS.session (conn_state s) (tracked_action m) = Ret (conn_state s')
  | Rejected => (∃ err, acts = reject s err ∧ refused s m err) ∧ conn_state s' = conn_state s
  | Terminated => acts = [] ∧ conn_state s' = conn_state s ∧ i = O ∧ m = Terminate
  end.
Proof.
  destruct m as [q|n q o|p st codes ps|p|k n| |]; simpl.
  - unfold on_query. intros (r & Hv & Hr)%outcome_bind_Ret. destruct r.
    + injection Hr as <- <- <-. unfold refused. eauto 10.
    + apply outcome_bind_Ret in Hr as (cs & Hcs & [= <- <- <-]).
      by rewrite session_one.
  - unfold on_parse. intros (r & Hv & Hr)%outcome_bind_Ret. destruct r.
    + injection Hr as <- <- <-. unfold refused. eauto 10.
    + apply outcome_bind_Ret in Hr as (cs & Hcs & [= <- <- <-]).
      by rewrite session_one.
  - unfold on_bind. destruct (Cache.get_statement st (stmt_cache s)) as [o c].
    intros (r & _ & [= <- <- <-])%outcome_bind_Ret. done.
  - intros [= <- <- <-]. done.
  - intros [= <- <- <-]. unfold on_close.
    destruct (beqb k x53); [by rewrite session_one|]. by destruct (beqb k x50).
  - intros [= <- <- <-]. done.
  - unfold Modes.should_intercept_terminate. case_bool_decide; by intros [= <- <- <-].
Qed.

(** The part of a read's messages that was tracked before the loop ended. *)
Fixpoint tracked (i : nat) (s : HandlerState) (ms : list Message) : list CS.action :=
  match ms with
  | [] => []
  | m :: ms =>
      match on_message cfg i s m with
      | Ret (s', _, Forward) => tracked_action m ++ tracked (S i) s' ms
      | _ => []
      end
  end.

Lemma session_app s l l' : CS.session s (l ++ l') = (CS.session s l ≫= λ s', CS.session s' l').
Proof. apply ofoldl_app. Qed.

(** Only a Terminate at the head of the read is intercepted. *)
Lemma process_messages_terminated ms i s s' acts :
  process_messages cfg i s ms = Ret (s', acts, Terminated) → i = O.
Proof.
  revert i s s' acts; induction ms as [|m ms IH]; intros i s s' acts; cbn [process_messages]; [done|].
  intros ([[s1 a1] v1] & Hm & Hr)%outcome_bind_Ret. cbn [fst snd] in Hr.
  pose proof (on_message_spec i s m s1 a1 v1 Hm) as (_ & Hv). destruct v1.
  - apply outcome_bind_Ret in Hr as ([[s2 a2] v2] & Hp & [= <- <- ->]). by apply IH in Hp.
  - done.
  - by destruct Hv as (_ & _ & -> & _).
Qed.

Lemma process_messages_spec ms i s s' acts v :
  process_messages cfg i s ms = Ret (s', acts, v) →
  txn_tracker s' = txn_tracker s ∧
  CS.session (conn_state s) (tracked i s ms) = Ret (conn_state s') ∧
  match v with
  | Forward => acts = []
  | Rejected =>
      ∃ s1 m err, acts = reject s1 err ∧ txn_tracker s1 = txn_tracker s ∧ m ∈ ms ∧ refused s1 m err
  | Terminated => acts = [] ∧ (i = O → head ms = Some Terminate)
  end.
Proof.
  revert i s s' acts v; induction ms as [|m ms IH]; intros i s s' acts v; cbn [process_messages tracked].
  - intros [= <- <- <-]. done.
  - intros ([[s1 a1] v1] & Hm & Hr)%outcome_bind_Ret. rewrite Hm. cbn [fst snd] in Hr.
    pose proof (on_message_spec i s m s1 a1 v1 Hm) as (Ht & Hv).
    destruct v1.
    + apply outcome_bind_Ret in Hr as ([[s2 a2] v2] & Hp & [= <- <- <-]). cbn [fst snd].
      destruct Hv as [-> Hs]. pose proof Hp as (Ht2 & Hs2 & Hv2)%IH.
      split_and!; [congruence|by rewrite session_app, Hs|].
      destruct v2; [done| |].
      * destruct Hv2 as (s3 & m' & err & -> & Ht3 & Hm' & Href). exists s3, m', err.
        split_and!; [done|congruence|by right|done].
      * destruct Hv2 as [-> Hv2]. split; [done|]. intros ->. exfalso.
        apply process_messages_terminated in Hp. lia.
    + injection Hr as <- <- <-. destruct Hv as ((err & -> & Href) & Hc).
      split_and!; [done|simpl; by rewrite Hc|].
      exists s, m, err. split_and!; [done|done|left|done].
    + injection Hr as <- <- <-. destruct Hv as (-> & Hc & _ & ->).
      split_and!; [done|simpl; by rewrite Hc|done|done].
Qed.

Lemma on_completion_spec s data acts s' :
  on_completion s data = Ret (acts, s') →
  Forall observer acts ∧ txn_tracker s' = txn_tracker s ∧ conn_state s' = conn_state s.
Proof.
  unfold on_completion, Cache.take_pending.
  intros (e & _ & Hr)%outcome_bind_Ret. destruct e as [e|].
  - destruct (Cache.pending (stmt_cache s) !! []); injection Hr as <- <-; by repeat constructor.
  - apply outcome_bind_Ret in Hr as (c & _ & Hr). destruct c; [|injection Hr as <- <-; by repeat constructor].
    destruct (Cache.pending (stmt_cache s) !! []); injection Hr as <- <-; [|by repeat constructor].
    split; [|done]. apply Forall_app. split; [|by repeat constructor].
    apply Forall_fmap. by apply Forall_true.
Qed.

(** A read from the backend. *)
Lemma on_backend_data_spec s data acts o :
  on_backend_data cfg s data = Ret (acts, o) →
  ∃ obs s', Forall observer obs ∧ o = Some s' ∧ conn_state s' = conn_state s ∧
    (acts = obs ++ [ToClient data]
     ∨ (acts = obs ++ [ToClient data; Release; Acquire (CS.is_pinned (conn_state s)); InitBackendIfFresh]
        ∧ Modes.is_in_transaction (txn_tracker s) = true ∧ Modes.is_idle (txn_tracker s') = true
        ∧ Modes.should_release_connection (strategy cfg) (conn_state s) = true)).
Proof.
  unfold on_backend_data. intros ([obs s1] & Hc & Hr)%outcome_bind_Ret.
  apply on_completion_spec in Hc as (Hobs & Ht & Hcs). cbn [fst snd] in Hr. cbv zeta in Hr.
  apply outcome_bind_Ret in Hr as (ready & _ & Hr). cbn [txn_tracker conn_state] in Hr.
  destruct ready as [st|]; [destruct (_ && _ && _) eqn:Hb|]; injection Hr as <- <-;
    exists obs; eexists; (split_and!; [done|done|done|]).
  - right. rewrite <-Hcs, <-Ht. rewrite !andb_true_iff in Hb. naive_solver.
  - by left.
  - by left.
Qed.

Lemma on_client_data_spec now s data acts o :
  on_client_data cfg now s data = Ret (acts, o) →
  ∃ ms x s1, Ext.extract_messages (extractor s) data = Ret (ms, x) ∧
    s1 = mk x (stmt_cache s) (txn_tracker s) (conn_state s) (query_deadline s) ∧
    ((∃ s', o = Some s' ∧ CS.session (conn_state s) (tracked 0 s1 ms) = Ret (conn_state s') ∧
        txn_tracker s' = txn_tracker s ∧
        (acts = [ToBackend data]
         ∨ ∃ s2 m err, acts = reject s2 err ∧ txn_tracker s2 = txn_tracker s ∧ m ∈ ms ∧
             refused s2 m err))
     ∨ (o = None ∧ acts = [Release] ∧ head ms = Some Terminate)).
Proof.
  unfold on_client_data. intros ([ms x] & Hx & Hr)%outcome_bind_Ret. cbn [fst snd] in Hr. cbv zeta in Hr.
  apply outcome_bind_Ret in Hr as ([[s' a] v] & Hp & Hr). cbn [fst snd] in Hr.
  apply process_messages_spec in Hp as (Ht & Hs & Hv). cbn [txn_tracker conn_state] in *.
  exists ms, x. eexists. split_and!; [done|reflexivity|].
  destruct v.
  - left. subst a. injection Hr as <- <-. eexists. split_and!; [done|exact Hs|done|by left].
  - left. destruct Hv as (s2 & m & err & -> & Ht2 & Hm & Href). injection Hr as <- <-.
    eexists. split_and!; [done|exact Hs|done|]. right. by exists s2, m, err.
  - right. destruct Hv as [-> Hv]. injection Hr as <- <-. auto.
Qed.
End lemmas.

(** ** Reachable states, with the log of what the client's accepted messages
    did to the session *)
Section reachable.
Context `{Build} `{Unicode} `{FloatParser} (cfg : Config).

(** What one event adds to the log. *)
Definition logged (s : HandlerState) (e : event) : list CS.action :=
  match e with
  | ClientData now data =>
      match Ext.extract_messages (extractor s) data with
      | Ret (ms, x) =>
          tracked cfg 0 (mk x (stmt_cache s) (txn_tracker s) (conn_state s) (query_deadline s)) ms
      | _ => []
      end
  | _ => []
  end.

Inductive reachable : HandlerState → list CS.action → Prop :=
| reachable_start : reachable (start cfg) []
| reachable_step s log e acts s' :
    reachable s log → step cfg s e = Ret (acts, Some s') → reachable s' (log ++ logged s e).

(** The tracked state is what the logged messages make of a fresh one. *)
Lemma reachable_session s log :
  reachable s log → CS.session (CS.new (max_prepared_statements cfg)) log = Ret (conn_state s).
Proof.
  induction 1 as [|s log e acts s' _ IH Hs]; [done|].
  rewrite session_app, IH. cbn [mbind outcome_bind]. destruct e as [now data| |data| |]; simpl in *.
  - apply on_client_data_spec in Hs as (ms & x & s1 & Hx & -> & Hs). rewrite Hx.
    destruct Hs as [(s2 & [= <-] & Hs & _)|(? & _)]; done.
  - done.
  - apply on_backend_data_spec in Hs as (obs & s2 & _ & [= <-] & -> & _). done.
  - done.
  - case_match; [done|]. by injection Hs as _ <-.
Qed.
End reachable.

(** What a step that releases in mid-session looks like. *)
Lemma release_step `{Build} `{Unicode} `{FloatParser} cfg s log e acts s' :
  reachable cfg s log → step cfg s e = Ret (acts, Some s') → Release ∈ acts →
  (strategy cfg = Modes.StrategyTransaction ∨ strategy cfg = Modes.StrategyHybrid) ∧
  (∃ data obs, e = BackendData data ∧ Forall observer obs ∧
     acts = obs ++ [ToClient data; Release; Acquire false; InitBackendIfFresh]) ∧
  Modes.is_in_transaction (txn_tracker s) = true ∧ Modes.is_idle (txn_tracker s') = true ∧
  CS.is_pinned (conn_state s) = false ∧
  conn_state s' = CS.new (max_prepared_statements cfg).
Proof.
  intros Hreach Hs Hin. pose proof (reachable_session cfg s log Hreach) as Hsess.
  destruct e as [now data| |data| |]; simpl in Hs; try done.
  - exfalso. apply on_client_data_spec in Hs as (ms & x & s1 & _ & _ & [(s2 & _ & _ & _ & Ha)|(? & _)]);
      [|done]. destruct Ha as [->|(s3 & m & err & -> & _)]; unfold reject in Hin; set_solver.
  - apply on_backend_data_spec in Hs as (obs & s2 & Hobs & [= <-] & Hcs & Ha).
    destruct Ha as [->|(-> & Hwas & Hidle & Hrel)].
    { apply elem_of_app in Hin as [Hin|Hin]; [|set_solver].
      by apply Release_quiet in Hin; [|apply observer_quiet]. }
    assert (CS.is_pinned (conn_state s) = false ∧
      (strategy cfg = Modes.StrategyTransaction ∨ strategy cfg = Modes.StrategyHybrid)) as [Hp Hstr].
    { unfold Modes.should_release_connection in Hrel.
      destruct (strategy cfg); try done; apply negb_true_iff in Hrel; auto. }
    rewrite CS.session_trace in Hsess. apply outcome_bind_Ret in Hsess as (tr & _ & [= Hrun]).
    split_and!; [done| |done|done|done|].
    + exists data, obs. by rewrite Hp.
    + rewrite Hcs, (Modes.unpinned_is_new (conn_state s)); [| |done].
      * rewrite <-Hrun, CS.run_max. unfold CS.new. simpl. f_equal. lia.
      * rewrite <-Hrun. apply CS.run_wf, CS.new_wf.
  - case_match; [done|]. injection Hs as <- _. set_solver.
Qed.


Lemma step_custody `{Build} `{Unicode} `{FloatParser} cfg s e acts o :
  step cfg s e = Ret (acts, o) → custody true acts = Some (bool_decide (is_Some o)).
Proof.
  intros Hs. destruct e as [now data| |data| |]; simpl in Hs.
  - apply on_client_data_spec in Hs as (ms & x & s1 & _ & _ & Ha).
    destruct Ha as [(s2 & -> & _ & _ & [->|(s3 & m & err & -> & _)])|(-> & -> & _)]; done.
  - by injection Hs as <- <-.
  - apply on_backend_data_spec in Hs as (obs & s2 & Hobs & -> & _ & Ha).
    apply observer_quiet in Hobs.
    destruct Ha as [->|[-> _]]; by rewrite custody_app, custody_quiet.
  - by injection Hs as <- <-.
  - case_match; [|by injection Hs as <- <-]. unfold on_deadline in Hs. by injection Hs as <- <-.
Qed.

(** A run extended by one event. *)
Lemma run_extend `{Build} `{Unicode} `{FloatParser} cfg s es acts s1 e a o :
  run cfg s es = Ret (acts, Some s1) → step cfg s1 e = Ret (a, o) →
  run cfg s (es ++ [e]) = Ret (acts ++ a, o).
Proof.
  revert s acts. induction es as [|e' es IH]; intros s acts; cbn [run app].
  - intros [= <- <-] Hs. rewrite Hs. cbn. destruct o; [|done]. cbn. by rewrite app_nil_r.
  - intros ([a1 o1] & Hs1 & Hr)%outcome_bind_Ret Hs. rewrite Hs1. cbn [mbind outcome_bind fst snd] in *.
    destruct o1 as [s'|]; [|done].
    apply outcome_bind_Ret in Hr as ([a2 o2] & Hs2 & [= <- ->]). cbn in *.
    rewrite (IH _ _ Hs2 Hs). cbn. by rewrite app_assoc.
Qed.

Lemma run_reachable `{Build} `{Unicode} `{FloatParser} cfg es acts s :
  run cfg (start cfg) es = Ret (acts, Some s) → ∃ log, reachable cfg s log.
Proof.
  assert (∀ s0 log, reachable cfg s0 log → run cfg s0 es = Ret (acts, Some s) →
            ∃ log, reachable cfg s log) as Hgen.
  { revert acts. induction es as [|e es IH]; intros acts s0 log Hr; cbn [run].
    - intros [= _ <-]. eauto.
    - intros ([a1 o1] & Hs1 & Hrun)%outcome_bind_Ret. cbn [fst snd] in Hrun. destruct o1 as [s1|]; [|done].
      apply outcome_bind_Ret in Hrun as ([a2 o2] & Hs2 & [= _ ->]). eapply IH; [|done].
      by eapply reachable_step. }
  apply (Hgen _ []), reachable_start.
Qed.

Lemma attempt_holds `{Build} `{Unicode} `{FloatParser} cfg s e fails ds o :
  attempt cfg s e fails = Ret (ds, o) → holds true ds = Some (bool_decide (is_Some o)).
Proof.
  unfold attempt. intros ([acts o1] & Hs & Hr)%outcome_bind_Ret. cbn [fst snd] in Hr.
  apply step_custody in Hs as Hc.
  assert (holds true (Did <$> acts) = Some (bool_decide (is_Some o1))) as Hd by (by rewrite holds_did).
  destruct (fails ≫= _) as [[k a]|]; [|by injection Hr as <- <-].
  destruct (fallible e a); [|by injection Hr as <- <-]. injection Hr as <- <-.
  destruct (custody_take k acts _ _ Hc) as [h Hh]. pose proof (custody_owns _ _ _ Hh) as Ho.
  unfold owns. rewrite Ho, holds_app, holds_did, Hh. by destruct h.
Qed.

(** C3. The handler keeps custody of its backend connection.  Through any
    sequence of events, with any write or acquisition failing, and as long as no
    query runs out of time: it writes to a backend and starts one up only while it
    holds one, never gives one up twice and never acquires a second one; while it
    is in the loop it holds one, and when it has left, by the end of the loop or by
    the early return of a failure, it has given up what it held, once: released it
    at the end of the loop, or dropped it. *)
Theorem backend_custody `{Build} `{Unicode} `{FloatParser} cfg es s ds o :
  Forall (λ ef : event * option nat, ∀ now, ef.1 ≠ Deadline now) es →
  attempts cfg s es = Ret (ds, o) → holds true ds = Some (bool_decide (is_Some o)).
Proof.
  intros Hno. revert s ds o; induction Hno as [|[e fails] es _ _ IH]; intros s ds o; cbn [attempts].
  - by intros [= <- <-].
  - intros ([d1 o1] & Hs1 & Hr)%outcome_bind_Ret. cbn [fst snd] in Hr.
    pose proof (attempt_holds _ _ _ _ _ _ Hs1) as Hc. destruct o1 as [s1|]; [|by injection Hr as <- <-].
    apply outcome_bind_Ret in Hr as ([d2 o2] & Hs2 & [= <- <-]). cbn [fst snd].
    rewrite holds_app, Hc. simpl. by apply (IH s1).
Qed.

(** C4. What the backend sends reaches the client unchanged, once, and nothing
    goes back to the backend on its account. *)
Theorem backend_data_forwarded `{Build} `{Unicode} `{FloatParser} cfg s data acts o :
  step cfg s (BackendData data) = Ret (acts, o) →
  to_client acts = [data] ∧ to_backend acts = [] ∧ is_Some o.
Proof.
  simpl. intros Hs. apply on_backend_data_spec in Hs as (obs & s2 & Hobs & -> & _ & Ha).
  pose proof (to_client_observer obs Hobs) as Hc.
  pose proof (to_backend_quiet obs (observer_quiet obs Hobs)) as Hb.
  unfold to_client, to_backend in *.
  destruct Ha as [->|[-> _]]; rewrite !omap_app, Hc, Hb; done.
Qed.

(** A message read as a Terminate is one; and when no frame of a read is skipped,
    its first message is its first frame. *)
Lemma parse_message_Terminate `{Build} t p : Ext.parse_message t p = Ret (Some Terminate) → t = MSG_TERMINATE.
Proof.
  unfold Ext.parse_message, Ext.parse_query_message, Ext.parse_parse_message, Ext.parse_bind_message,
    Ext.parse_execute_message, Ext.parse_close_message.
  intros Hp.
  repeat first [done | progress unfold Ext.try_, Ext.try_ret in Hp
               | apply outcome_bind_Ret in Hp as (? & _ & Hp) | case_match].
  match goal with Ht : beqb t MSG_TERMINATE = true |- _ => by apply bool_decide_eq_true in Ht end.
Qed.

Lemma terminate_leads `{Build} x fb data fs tl ms x' :
  Ext.extract_messages x data = Ret (ms, x') → head ms = Some Terminate →
  Ext.frontend_buffer x = Some fb → fb ++ data = frames fs ++ tl →
  Forall Ext.valid_frame fs → Ext.incomplete tl →
  Forall (λ f, Ext.parse_message f.1 f.2 ≠ Ret None) fs → fs.*1 !! 0%nat = Some MSG_TERMINATE.
Proof.
  intros Hx Hm Hfb Heq Hv Ht Hk. rewrite (Ext.extract_messages_frames x fb data fs tl) in Hx by done.
  apply outcome_bind_Ret in Hx as (ms' & Hp & [= -> _]). destruct fs as [|[t p] fs]; [by injection Hp as <-|].
  apply Forall_cons in Hk as [Hk _]. cbn [Ext.parse_all fst snd] in *.
  apply outcome_bind_Ret in Hp as (m & Hm1 & (ms2 & _ & [= <-])%outcome_bind_Ret).
  destruct m as [m|]; [|done]. injection Hm as ->. simpl. f_equal. by eapply parse_message_Terminate.
Qed.


(** ** Concrete runs *)
Definition demo_config (st : Modes.PoolingStrategy) : Config :=
  {| strategy := st; max_prepared_statements := 4; query_timeout_secs := 30 |}.
Definition query (q : string) : bytes := Ext.serialize_message (Query (lit q)).
Definition ready (st : byte) : bytes := frame MSG_READY_FOR_QUERY [st].

#[local] Existing Instance release_build.
#[local] Existing Instance ascii_tables.
#[local] Existing Instance no_floats.

Definition after (st : Modes.PoolingStrategy) (es : list event) : HandlerState :=
  match run (demo_config st) (start (demo_config st)) es with
  | Ret (_, Some s) => s
  | _ => start (demo_config st)
  end.

Definition demo_events : list event :=
  [ClientData 0 (query "BEGIN; LISTEN jobs"); BackendData (ready x54);
   ClientData 1 (query "UNLISTEN jobs; COMMIT")].
Definition demo_states (n : nat) : HandlerState := after Modes.StrategyHybrid (take n demo_events).
Definition demo_log : list CS.action :=
  [CS.AQuery (lit "BEGIN; LISTEN jobs"); CS.AQuery (lit "UNLISTEN jobs; COMMIT")].
Definition demo_listen : CS.event := CS.EClass (Detector.Stateful (Detector.Listen (lit "jobs"))).
Definition demo_unlisten : CS.event := CS.EClass (Detector.Stateful (Detector.Unlisten (Some (lit "jobs")))).

Definition demo_trace : list CS.event :=
  [CS.EClass Detector.Clean; demo_listen; demo_unlisten; CS.EClass Detector.Clean].
Lemma demo_trace_plain : CS.plain_locks demo_trace.
Proof. apply CS.plain_locks_none. by repeat constructor. Qed.

Lemma demo_reachable : reachable (demo_config Modes.StrategyHybrid) (demo_states 3) demo_log.
Proof.
  refine (reachable_step _ (demo_states 2) [CS.AQuery (lit "BEGIN; LISTEN jobs")]
           (ClientData 1 (query "UNLISTEN jobs; COMMIT")) [ToBackend (query "UNLISTEN jobs; COMMIT")] _ _ _);
    [|vm_compute; reflexivity].
  refine (reachable_step _ (demo_states 1) [CS.AQuery (lit "BEGIN; LISTEN jobs")]
           (BackendData (ready x54)) _ _ _ _); [|vm_compute; reflexivity].
  refine (reachable_step _ (demo_states 0) [] (ClientData 0 (query "BEGIN; LISTEN jobs"))
           [ToBackend (query "BEGIN; LISTEN jobs")] _ _ _); [|vm_compute; reflexivity].
  constructor.
Qed.


(** The client sends a query, the transaction ends, and the start-up of the next
    connection fails: it is dropped. *)
Lemma backend_custody_witness :
  let es := [(ClientData 0 (query "BEGIN"), None); (BackendData (ready x54), Some 7%nat);
             (ClientData 1 (query "COMMIT"), None); (BackendData (ready x49), Some 5%nat)] in
  ∃ ds, attempts (demo_config Modes.StrategyHybrid) (start (demo_config Modes.StrategyHybrid)) es
        = Ret (ds, None) ∧ last ds = Some Dropped ∧ holds true ds = Some false.
Proof.
  intros es.
  destruct (attempts (demo_config Modes.StrategyHybrid) (start (demo_config Modes.StrategyHybrid)) es)
    as [[ds o]| |] eqn:Hr; [|vm_compute in Hr; discriminate Hr..].
  pose proof (backend_custody (demo_config Modes.StrategyHybrid) es
    (start (demo_config Modes.StrategyHybrid)) ds o
    ltac:(repeat constructor; intros; discriminate) Hr) as Hc.
  vm_compute in Hr. injection Hr as <- <-. eexists. split; [reflexivity|]. split; [reflexivity|].
  exact Hc.
Defined.

Lemma backend_data_forwarded_witness :
  to_client [ToClient (ready x54)] = [ready x54] ∧ to_backend [ToClient (ready x54)] = [] ∧
  is_Some (Some (after Modes.StrategyHybrid [BackendData (ready x54)])).
Proof.
  apply (backend_data_forwarded (demo_config Modes.StrategyHybrid)
    (start (demo_config Modes.StrategyHybrid))).
  vm_compute. reflexivity.
Defined.


(** A Terminate behind a message the proxy does not recognise counts as the first
    of the read, which is dropped with the Describe in it. *)
Example describe_before_terminate_dropped :
  fst <$> step (demo_config Modes.StrategyHybrid) (start (demo_config Modes.StrategyHybrid))
            (ClientData 0 (frame x44 (x53 :: lit "s1" ++ [x00]) ++ Ext.serialize_message Terminate))
  = Ret [Release].
Proof. vm_compute. reflexivity. Qed.

(** A refused message takes the messages before it in the same read with it:
    the SELECT is neither forwarded nor answered. *)
Example rejection_drops_pipelined_query :
  fst <$> step (demo_config Modes.StrategyTransaction)
            (start (demo_config Modes.StrategyTransaction))
            (ClientData 0 (query "SELECT 1" ++ query "SET a = 1"))
  = Ret (reject (start (demo_config Modes.StrategyTransaction))
           (lit "session variables not supported in transaction pooling mode")).
Proof. vm_compute. reflexivity. Qed.

(** A message cut by a read boundary is refused only after its first bytes have
    been forwarded, and the backend is left inside an unfinished message. *)
Example rejection_leaves_partial_message :
  fst <$> run (demo_config Modes.StrategyTransaction)
            (start (demo_config Modes.StrategyTransaction))
            [ClientData 0 (take 8 (query "SET a = 1")); ClientData 0 (drop 8 (query "SET a = 1"))]
  = Ret (ToBackend (take 8 (query "SET a = 1"))
         :: reject (start (demo_config Modes.StrategyTransaction))
              (lit "session variables not supported in transaction pooling mode")).
Proof. vm_compute. reflexivity. Qed.

(** An expired query deadline releases the backend connection with the query
    still running on it. *)
Example deadline_releases_connection :
  ∃ acts, run (demo_config Modes.StrategyHybrid) (start (demo_config Modes.StrategyHybrid))
            [ClientData 0 (query "SELECT pg_sleep(99)"); Deadline 30] = Ret (acts, None)
          ∧ last acts = Some Release.
Proof. eexists. split; vm_compute; reflexivity. Qed.

(** In transaction mode a SET hidden behind another statement of the same query
    text is not refused. *)
Example batch_evades_mode :
  Modes.validate Modes.Transaction (lit "SELECT 1; SET a = 1") false = Ret None.
Proof. vm_compute. reflexivity. Qed.
End Handler.
