(* ===== verification/Reports.v ===== *)
(** * What a session reports (proxy/connection.rs, proxy/cache.rs)

    The pooled handler keeps the execution in flight under the unnamed portal and
    reports it when the backend has answered.  Here the reports of a session are
    compared with what its client sent: every report is of an execution the client
    announced, in order and at most once, and where reports are missing. *)

From S2P Require Import Prelude RustStr CommandDetector ConnState Wire Extractor StmtCache Bind Modes Handler.

Module Reports.
Import BindParams Handler.

(** ** Announced executions

    What a message announces, from the messages of the client alone. *)

(** The statements a client has prepared, and the names it has used for them. *)
Definition prepared (hist : list Message) : gmap bytes (bytes * list Z) :=
  foldl (λ k m, match m with
                | Parse n q o => <[n := (q, o)]> k
                | Close kind n => if beqb kind x53 then delete n k else k
                | _ => k
                end) ∅ hist.
Definition names (hist : list Message) : gset bytes :=
  list_to_set (omap (λ m, match m with Parse n _ _ => Some n | _ => None end) hist).

Definition raw_value (p : option bytes) : ParamValue :=
  match p with Some data => UnknownParam 0 data | None => Null end.

(** [announces max hist m p]: after the messages [hist], the message [m] announces
    the execution [p].  The parameters of a Bind are decoded with the types of the
    statement it names; when there is no such statement, or so many were prepared
    that it may have been forgotten, the execution is of an unknown text and its
    parameters are raw. *)
Definition announces `{Build} `{FloatParser} (max : nat) (hist : list Message) (m : Message)
    (p : PendingExecution) : Prop :=
  match m with
  | Query q => p = {| pe_query := q; pe_params := []; pe_incomplete := false |}
  | Parse _ q _ => p = {| pe_query := q; pe_params := []; pe_incomplete := true |}
  | Bind [] st codes raw =>
      (∃ q oids vs, prepared hist !! st = Some (q, oids) ∧ decode_params raw codes oids = Ret vs ∧
         p = {| pe_query := q; pe_params := vs; pe_incomplete := false |})
      ∨ ((prepared hist !! st = None ∨ (max ≤ size (names hist))%nat) ∧
         p = {| pe_query := lit "[unknown: " ++ st ++ lit "]"; pe_params := raw_value <$> raw;
                pe_incomplete := true |})
  | _ => False
  end.

(** ** What the handler keeps

    The execution in flight. *)
Definition current (s : HandlerState) : list PendingExecution :=
  option_list (Cache.pending (stmt_cache s) !! []).

(** What a message that was accepted put there. *)
Definition put (m : Message) (s' : HandlerState) : list PendingExecution :=
  match m with
  | Parse _ _ _ | Query _ | Bind [] _ _ _ => current s'
  | _ => []
  end.

Section reports.
Context `{Build} `{Unicode} `{FloatParser} (cfg : Config).

Fixpoint keep (i : nat) (s : HandlerState) (ms : list Message) : list PendingExecution :=
  match ms with
  | [] => []
  | m :: ms =>
      match on_message cfg i s m with
      | Ret (s', _, Forward) => put m s' ++ keep (S i) s' ms
      | _ => []
      end
  end.
Definition keeps (s : HandlerState) (e : event) : list PendingExecution :=
  match e with
  | ClientData _ data =>
      match Ext.extract_messages (extractor s) data with
      | Ret (ms, x) =>
          keep 0 (mk x (stmt_cache s) (txn_tracker s) (conn_state s) (query_deadline s)) ms
      | _ => []
      end
  | _ => []
  end.
Fixpoint kept (s : HandlerState) (es : list event) : list PendingExecution :=
  match es with
  | [] => []
  | e :: es =>
      keeps s e ++
      match step cfg s e with Ret (_, Some s') => kept s' es | _ => [] end
  end.

(** The messages the handler takes in: those of a read up to the first one that
    is refused or that ends the session. *)
Fixpoint taken (i : nat) (s : HandlerState) (ms : list Message) : list Message :=
  match ms with
  | [] => []
  | m :: ms =>
      match on_message cfg i s m with Ret (s', _, Forward) => m :: taken (S i) s' ms | _ => [] end
  end.
Definition takes (s : HandlerState) (e : event) : list Message :=
  match e with
  | ClientData _ data =>
      match Ext.extract_messages (extractor s) data with
      | Ret (ms, x) =>
          taken 0 (mk x (stmt_cache s) (txn_tracker s) (conn_state s) (query_deadline s)) ms
      | _ => []
      end
  | _ => []
  end.
Fixpoint heard (s : HandlerState) (es : list event) : list Message :=
  match es with
  | [] => []
  | e :: es =>
      takes s e ++ match step cfg s e with Ret (_, Some s') => heard s' es | _ => [] end
  end.

(** ** Reports *)
Inductive result : Type := Succeeded | Broke (error : bytes).

(** A failed execution is one event; a successful one is an event for each
    statement of its text.  Either is one query of the metrics. *)
Definition report (r : PendingExecution * result) : list action :=
  match r with
  | (p, Broke error) =>
      [Publish (pe_query p) (pe_params p) (pe_incomplete p) false (Some error); RecordQuery false]
  | (p, Succeeded) =>
      ((λ stmt, Publish stmt (pe_params p) (pe_incomplete p) true None)
         <$> Detector.split_statements (pe_query p)) ++ [RecordQuery true]
  end.
Definition reports (rs : list (PendingExecution * result)) : list action := concat (report <$> rs).

Definition observed (acts : list action) : list action := filter (λ a, observer a = true) acts.

Lemma observed_app a b : observed (a ++ b) = observed a ++ observed b.
Proof. apply filter_app. Qed.
Lemma reports_app a b : reports (a ++ b) = reports a ++ reports b.
Proof. unfold reports. by rewrite fmap_app, concat_app. Qed.

Lemma report_observer r : observed (report r) = report r.
Proof.
  destruct r as [p [|error]]; [|done]. cbn. rewrite observed_app. f_equal.
  induction (Detector.split_statements (pe_query p)) as [|q qs IH]; [done|]. rewrite fmap_cons.
  unfold observed in *. rewrite filter_cons_True by done. by f_equal.
Qed.

(** ** Messages *)
Lemma message_current i s m s' acts v :
  on_message cfg i s m = Ret (s', acts, v) →
  observed acts = [] ∧
  current s' `sublist_of` current s ++ match v with Forward => put m s' | _ => [] end.
Proof.
  assert (Hrej : ∀ err, observed (reject s err) = []) by done.
  assert (Hkeep : ∀ l, current s `sublist_of` current s ++ l) by (intros l; apply sublist_inserts_r, reflexivity).
  assert (Hput : current s' `sublist_of` current s ++ current s') by apply sublist_inserts_l, reflexivity.
  destruct m as [query|name query oids|portal statement codes params|portal|kind name| |];
    cbn [on_message]; intros Hm.
  - unfold on_query in Hm. apply outcome_bind_Ret in Hm as ([err|] & _ & Hm); [by simplify_eq|].
    outcome_inv. simplify_eq. split; [done|]. apply Hput.
  - unfold on_parse in Hm. apply outcome_bind_Ret in Hm as ([err|] & _ & Hm); [by simplify_eq|].
    outcome_inv. simplify_eq. split; [done|]. apply Hput.
  - unfold on_bind in Hm. destruct (Cache.get_statement statement (stmt_cache s)) as [o c] eqn:Hg.
    assert (Hc : Cache.pending c = Cache.pending (stmt_cache s)).
    { unfold Cache.get_statement in Hg.
      destruct (Cache.statements (stmt_cache s) !! statement); by injection Hg as _ <-. }
    outcome_inv. simplify_eq. split; [done|]. cbn [put]. destruct portal; [apply Hput|].
    unfold current at 1. cbn. rewrite lookup_insert_ne by done. rewrite Hc. apply Hkeep.
  - simplify_eq. split; [done|]. apply Hkeep.
  - simplify_eq. split; [done|]. unfold on_close. case_match; [apply Hkeep|].
    case_match; [|apply Hkeep]. unfold current at 1. cbn.
    destruct (decide (name = [])) as [->|Hne].
    + rewrite lookup_delete_eq. apply sublist_nil_l.
    + rewrite lookup_delete_ne by done. apply Hkeep.
  - simplify_eq. split; [done|]. apply Hkeep.
  - simplify_eq. split; [done|]. case_match; apply Hkeep.
Qed.

Lemma messages_current ms i s s' acts v :
  process_messages cfg i s ms = Ret (s', acts, v) →
  observed acts = [] ∧ current s' `sublist_of` current s ++ keep i s ms.
Proof.
  revert i s s' acts v. induction ms as [|m ms IH]; intros i s s' acts v; cbn [process_messages keep].
  - intros [= <- <- <-]. by rewrite app_nil_r.
  - intros ([[s1 a1] v1] & Hm & Hr)%outcome_bind_Ret. rewrite Hm. cbn [fst snd] in Hr.
    apply message_current in Hm as [Ho Hc].
    destruct v1; [|by simplify_eq..].
    apply outcome_bind_Ret in Hr as ([[s2 a2] v2] & Hr & [= <- <- <-]). cbn [fst snd].
    apply IH in Hr as [Ho2 Hc2]. rewrite observed_app, Ho, Ho2. split; [done|].
    etrans; [exact Hc2|]. rewrite app_assoc. by apply sublist_app.
Qed.

(** ** Answers of the backend *)
Lemma completion_reports s data acts s' :
  on_completion s data = Ret (acts, s') →
  ∃ rs, acts = reports rs ∧ rs.*1 ++ current s' = current s.
Proof.
  unfold on_completion. intros (error & _ & Hc)%outcome_bind_Ret.
  assert (Hnone : ∀ c, Cache.pending (stmt_cache s) !! [] = None → Cache.pending c !! [] = None →
    ∃ rs, [] = reports rs ∧ rs.*1 ++ current (with_cache c s) = current s).
  { intros c Hp Hc'. exists []. unfold current. cbn. by rewrite Hp, Hc'. }
  assert (Hsome : ∀ p r c, Cache.pending (stmt_cache s) !! [] = Some p → Cache.pending c !! [] = None →
    ∃ rs, report (p, r) = reports rs ∧ rs.*1 ++ current (with_cache c s) = current s).
  { intros p r c Hp Hc'. exists [(p, r)]. unfold current, reports. cbn. by rewrite app_nil_r, Hp, Hc'. }
  destruct error as [error|].
  - unfold Cache.take_pending in Hc. destruct (Cache.pending (stmt_cache s) !! []) as [p|] eqn:Hp;
      injection Hc as <- <-; [apply (Hsome p (Broke error))|apply Hnone]; try done; apply lookup_delete_eq.
  - apply outcome_bind_Ret in Hc as ([] & _ & Hc); [|injection Hc as <- <-; by exists []].
    unfold Cache.take_pending in Hc. destruct (Cache.pending (stmt_cache s) !! []) as [p|] eqn:Hp;
      injection Hc as <- <-; [apply (Hsome p Succeeded)|apply Hnone]; try done; apply lookup_delete_eq.
Qed.

(** ** Steps *)
Lemma step_reports s e acts o :
  step cfg s e = Ret (acts, o) →
  match o with
  | Some s' => ∃ rs, observed acts = reports rs ∧
                     rs.*1 ++ current s' `sublist_of` current s ++ keeps s e
  | None => observed acts = [] ∨ ((∃ now, e = Deadline now) ∧ observed acts = [RecordQuery false])
  end.
Proof.
  intros Hs. destruct e as [now data| |data| |]; cbn [step] in Hs.
  - unfold on_client_data in Hs. apply outcome_bind_Ret in Hs as ([ms x] & Hx & Hs). cbn [fst snd] in Hs.
    cbv zeta in Hs. apply outcome_bind_Ret in Hs as ([[s1 a1] v] & Hm & Hs). cbn [fst snd] in Hs.
    apply messages_current in Hm as [Ho Hc]. cbn [keeps]. rewrite Hx.
    destruct v; injection Hs as <- <-.
    + exists []. rewrite observed_app, Ho. by split.
    + exists []. rewrite observed_app, Ho. by split.
    + left. by rewrite !observed_app, Ho.
  - injection Hs as <- <-. by left.
  - unfold on_backend_data in Hs. apply outcome_bind_Ret in Hs as ([a1 s1] & Hc & Hs).
    cbn [fst snd] in Hs. cbv zeta in Hs. apply outcome_bind_Ret in Hs as (ready & _ & Hs).
    apply completion_reports in Hc as (rs & -> & Hc).
    assert (Hobs : observed (reports rs) = reports rs).
    { clear. unfold reports. induction rs as [|r rs IH]; [done|]. cbn. by rewrite observed_app, report_observer, IH. }
    assert (Hs' : ∃ rest s2, acts = reports rs ++ rest ∧ o = Some s2 ∧ observed rest = [] ∧
                             stmt_cache s2 = stmt_cache s1).
    { destruct ready as [status|]; [|by injection Hs as <- <-; eexists _, _].
      match type of Hs with context [if ?b then _ else _] => destruct b end;
        injection Hs as <- <-; by eexists _, _. }
    destruct Hs' as (rest & s2 & -> & -> & Hrest & Hst). exists rs. split.
    + by rewrite observed_app, Hobs, Hrest, app_nil_r.
    + unfold current at 1. rewrite Hst. fold (current s1). rewrite Hc. cbn. by rewrite app_nil_r.
  - injection Hs as <- <-. by left.
  - case_match; injection Hs as <- <-; [right; eauto|]. exists []. cbn. by rewrite app_nil_r.
Qed.

Lemma run_reports es s acts o :
  run cfg s es = Ret (acts, o) →
  ∃ rs late, observed acts = reports rs ++ late ∧
    rs.*1 `sublist_of` current s ++ kept s es ∧
    (late = [] ∨ (late = [RecordQuery false] ∧ o = None)).
Proof.
  revert s acts. induction es as [|e es IH]; intros s acts; cbn [run kept].
  - intros [= <- <-]. exists [], []. split_and!; [done|apply sublist_nil_l|by left].
  - intros ([a1 o1] & Hs & Hr)%outcome_bind_Ret. cbn [fst snd] in Hr. rewrite Hs.
    apply step_reports in Hs. destruct o1 as [s1|].
    + apply outcome_bind_Ret in Hr as ([a2 o2] & Hr & [= <- <-]). cbn [fst snd].
      destruct Hs as (rs1 & Ho1 & Hc1). destruct (IH _ _ Hr) as (rs2 & late & Ho2 & Hc2 & Hl).
      exists (rs1 ++ rs2), late. split_and!; [|  |done].
      * rewrite observed_app, Ho1, Ho2, reports_app, app_assoc. done.
      * rewrite fmap_app. etrans; [apply sublist_app; [reflexivity|exact Hc2]|].
        rewrite !app_assoc. by apply sublist_app.
    + injection Hr as <- <-. destruct Hs as [->|[_ ->]].
      * exists [], []. split_and!; [done|apply sublist_nil_l|by left].
      * exists [], [RecordQuery false]. split_and!; [done|apply sublist_nil_l|by right].
Qed.

(** ** What is kept is what was announced *)

(** The cache holds what was prepared; it may have forgotten some, but only when
    it was filled. *)
Definition entry (st : Cache.PreparedStatement) : bytes * list Z :=
  (Cache.ps_query st, Cache.ps_param_oids st).
Record remembers (hist : list Message) (c : StmtCache) : Prop := {
  r_wf : Cache.wf c;
  r_max : Cache.max_size c = max_prepared_statements cfg;
  r_sub : entry <$> Cache.statements c ⊆ prepared hist;
  r_all : (size (names hist) < max_prepared_statements cfg)%nat →
          entry <$> Cache.statements c = prepared hist
}.

Lemma prepared_snoc hist m :
  prepared (hist ++ [m]) = match m with
                           | Parse n q o => <[n := (q, o)]> (prepared hist)
                           | Close kind n => if beqb kind x53 then delete n (prepared hist) else prepared hist
                           | _ => prepared hist
                           end.
Proof. unfold prepared. rewrite foldl_snoc. by destruct m. Qed.
Lemma names_snoc hist m :
  names (hist ++ [m]) = names hist ∪ match m with Parse n _ _ => {[n]} | _ => ∅ end.
Proof. unfold names. rewrite omap_app, list_to_set_app_L. destruct m; simpl; set_solver. Qed.
Lemma names_mono hist m : (size (names hist) ≤ size (names (hist ++ [m])))%nat.
Proof. apply subseteq_size. rewrite names_snoc. set_solver. Qed.

Lemma prepared_names hist : dom (prepared hist) ⊆ names hist.
Proof.
  induction hist as [|m hist IH] using rev_ind; [done|]. rewrite prepared_snoc, names_snoc.
  destruct m; try case_match; rewrite ?dom_insert_L, ?dom_delete_L; set_solver.
Qed.

Lemma evict_none (max : nat) (m : gmap bytes Cache.PreparedStatement) lru :
  (size m < max)%nat → Cache.evict max m lru = (m, lru).
Proof. intros Hm. destruct lru; simpl; by rewrite decide_False by lia. Qed.

(** A cache with the same statements remembers the same. *)
Lemma remembers_same hist hist' c c' :
  remembers hist c → Cache.wf c' → Cache.max_size c' = Cache.max_size c →
  Cache.statements c' = Cache.statements c → prepared hist' = prepared hist →
  (size (names hist) ≤ size (names hist'))%nat → remembers hist' c'.
Proof.
  intros [Hw Hm Hs Ha] Hw' Hm' Hs' Hp Hn. split; rewrite ?Hs', ?Hp; [done|congruence|done|].
  intros Hlt. apply Ha. lia.
Qed.

Lemma remembers_insert hist n q o c :
  remembers hist c →
  remembers (hist ++ [Parse n q o])
    (Cache.insert_statement n {| Cache.ps_query := q; Cache.ps_param_oids := o |} c).
Proof.
  intros [Hw Hm Hs Ha]. split.
  - by apply Cache.insert_wf.
  - done.
  - rewrite prepared_snoc. etrans; [|apply insert_mono, Hs].
    rewrite <-(fmap_insert entry (Cache.statements c) n
      {| Cache.ps_query := q; Cache.ps_param_oids := o |}).
    apply map_fmap_mono. by apply Cache.insert_sub.
  - intros Hlt. rewrite prepared_snoc. pose proof (names_mono hist (Parse n q o)) as Hle.
    rewrite <-Ha by lia. unfold Cache.insert_statement. rewrite evict_none; [exact (fmap_insert entry _ _ _)|].
    assert (size (Cache.statements c) ≤ size (names hist))%nat; [|rewrite Hm; lia].
    rewrite <-size_dom. apply subseteq_size. rewrite <-(dom_fmap_L entry).
    rewrite Ha by lia. apply prepared_names.
Qed.

Lemma remembers_remove hist k n c :
  remembers hist c → beqb k x53 = true → remembers (hist ++ [Close k n]) (Cache.remove_statement n c).
Proof.
  intros [Hw Hm Hs Ha] Hk. split.
  - by apply Cache.remove_wf.
  - done.
  - rewrite prepared_snoc, Hk. cbn. rewrite fmap_delete. by apply delete_mono.
  - intros Hlt. rewrite prepared_snoc, Hk. cbn. rewrite fmap_delete, Ha; [done|].
    pose proof (names_mono hist (Close k n)). lia.
Qed.

Lemma bound_announced hist c statement codes params p :
  remembers hist c →
  match Cache.statements c !! statement with
  | Some stmt =>
      params ← decode_params params codes (Cache.ps_param_oids stmt);
      Ret {| pe_query := Cache.ps_query stmt; pe_params := params; pe_incomplete := false |}
  | None =>
      Ret {| pe_query := lit "[unknown: " ++ statement ++ lit "]";
             pe_params := raw_value <$> params; pe_incomplete := true |}
  end = Ret p →
  announces (max_prepared_statements cfg) hist (Bind [] statement codes params) p.
Proof.
  intros [_ _ Hs Ha] Hp. destruct (Cache.statements c !! statement) as [stmt|] eqn:Hst.
  - left. apply outcome_bind_Ret in Hp as (vs & Hvs & [= <-]). eexists _, _, vs. split; [|by split].
    eapply lookup_weaken; [|exact Hs]. by rewrite lookup_fmap, Hst.
  - right. split; [|by injection Hp as <-].
    destruct (decide (size (names hist) < max_prepared_statements cfg)%nat) as [Hlt|]; [left|right; lia].
    by rewrite <-Ha, lookup_fmap, Hst.
Qed.

(** A message that is not forwarded leaves the cache alone. *)
Lemma refused_keeps_cache i s m s' acts v :
  on_message cfg i s m = Ret (s', acts, v) → v ≠ Forward → stmt_cache s' = stmt_cache s.
Proof.
  destruct m as [query|name query oids|portal statement codes params|portal|kind name| |];
    cbn [on_message]; intros Hm Hv; [| | |by simplify_eq..].
  - unfold on_query in Hm. apply outcome_bind_Ret in Hm as ([err|] & _ & Hm); [by simplify_eq|].
    outcome_inv. by simplify_eq.
  - unfold on_parse in Hm. apply outcome_bind_Ret in Hm as ([err|] & _ & Hm); [by simplify_eq|].
    outcome_inv. by simplify_eq.
  - unfold on_bind in Hm. destruct (Cache.get_statement statement (stmt_cache s)). outcome_inv. by simplify_eq.
Qed.

(** An answer of the backend leaves the statements alone. *)
Lemma backend_keeps_statements s data acts s' :
  on_backend_data cfg s data = Ret (acts, Some s') →
  (Cache.wf (stmt_cache s) → Cache.wf (stmt_cache s')) ∧
  Cache.max_size (stmt_cache s') = Cache.max_size (stmt_cache s) ∧
  Cache.statements (stmt_cache s') = Cache.statements (stmt_cache s).
Proof.
  unfold on_backend_data. intros ([a1 s1] & Hc & Hs)%outcome_bind_Ret. cbn [fst snd] in Hs. cbv zeta in Hs.
  assert (Hst : stmt_cache s' = stmt_cache s1).
  { apply outcome_bind_Ret in Hs as ([status|] & _ & Hs); [|by injection Hs as _ <-].
    match type of Hs with context [if ?b then _ else _] => destruct b end; by injection Hs as _ <-. }
  rewrite Hst. clear Hs Hst.
  assert (stmt_cache s1 = stmt_cache s ∨ stmt_cache s1 = (Cache.take_pending [] (stmt_cache s)).2) as [->| ->];
    [|done|split; [by apply (Cache.same_wf (stmt_cache s))|done]].
  unfold on_completion in Hc. apply outcome_bind_Ret in Hc as ([error|] & _ & Hc).
  - unfold Cache.take_pending in *. case_match; injection Hc as _ <-; by right.
  - apply outcome_bind_Ret in Hc as ([] & _ & Hc); [|injection Hc as _ <-; by left].
    unfold Cache.take_pending in *. case_match; injection Hc as _ <-; by right.
Qed.

Lemma message_announced i hist s m s' acts :
  remembers hist (stmt_cache s) → on_message cfg i s m = Ret (s', acts, Forward) →
  remembers (hist ++ [m]) (stmt_cache s') ∧
  Forall (announces (max_prepared_statements cfg) hist m) (put m s').
Proof.
  intros Hr. pose proof Hr as [Hw Hm Hs Ha].
  assert (Hsame : ∀ c, Cache.wf c → Cache.max_size c = Cache.max_size (stmt_cache s) →
    Cache.statements c = Cache.statements (stmt_cache s) → prepared (hist ++ [m]) = prepared hist →
    remembers (hist ++ [m]) c).
  { intros. eapply remembers_same; [exact Hr|done..|apply names_mono]. }
  destruct m as [query|name query oids|portal statement codes params|portal|kind name| |];
    cbn [on_message put]; intros Hmsg.
  - unfold on_query in Hmsg. apply outcome_bind_Ret in Hmsg as ([err|] & _ & Hmsg); [done|].
    outcome_inv. simplify_eq. split; [|unfold current; cbn; rewrite lookup_insert_eq; by repeat constructor].
    apply Hsame; [by apply (Cache.same_wf (stmt_cache s))|done|done|apply prepared_snoc].
  - unfold on_parse in Hmsg. apply outcome_bind_Ret in Hmsg as ([err|] & _ & Hmsg); [done|].
    outcome_inv. simplify_eq. split; [|unfold current; cbn; rewrite lookup_insert_eq; by repeat constructor].
    eapply remembers_same; [by apply remembers_insert|..]; try done.
    by apply (Cache.same_wf (Cache.insert_statement name
                {| Cache.ps_query := query; Cache.ps_param_oids := oids |} (stmt_cache s))), Cache.insert_wf.
  - unfold on_bind in Hmsg. pose proof (Cache.get_wf statement _ Hw) as Hg.
    destruct (Cache.get_statement statement (stmt_cache s)) as [o c] eqn:Hget.
    assert (Hc : Cache.statements c = Cache.statements (stmt_cache s) ∧
                 Cache.max_size c = Cache.max_size (stmt_cache s) ∧
                 o = Cache.statements (stmt_cache s) !! statement).
    { unfold Cache.get_statement in Hget.
      destruct (Cache.statements (stmt_cache s) !! statement) eqn:Hst; by injection Hget as <- <-. }
    destruct Hc as (Hc1 & Hc2 & ->). apply outcome_bind_Ret in Hmsg as (p & Hp & [= <- <-]). split.
    + apply Hsame; [by apply (Cache.same_wf c)|done|done|apply prepared_snoc].
    + destruct portal; [|constructor]. unfold current. cbn. rewrite lookup_insert_eq. constructor; [|constructor].
      by eapply bound_announced.
  - simplify_eq. split; [|constructor]. apply Hsame; [done|done|done|apply prepared_snoc].
  - simplify_eq. split; [|constructor]. unfold on_close. destruct (beqb kind x53) eqn:Hk; [by apply remembers_remove|].
    apply Hsame; try (by case_match); [|by rewrite prepared_snoc, Hk].
    case_match; [|done]. by apply (Cache.same_wf (stmt_cache s)).
  - simplify_eq. split; [|constructor]. apply Hsame; [done|done|done|apply prepared_snoc].
  - injection Hmsg as <- _ _. split; [|constructor]. apply Hsame; [done|done|done|apply prepared_snoc].
Qed.

(** Positions of a history at which executions are announced. *)
Definition at_positions (hist : list Message) : list nat → list PendingExecution → Prop :=
  Forall2 (λ j p, ∃ m, hist !! j = Some m ∧ announces (max_prepared_statements cfg) (take j hist) m p).

Lemma at_positions_extend hist more js ps : at_positions hist js ps → at_positions (hist ++ more) js ps.
Proof.
  intros Hp. eapply Forall2_impl; [exact Hp|]. intros j p (m & Hj & Ha). exists m.
  pose proof (lookup_lt_Some _ _ _ Hj). rewrite lookup_app_l, take_app_le by lia. done.
Qed.
Lemma at_positions_one hist m ps :
  Forall (announces (max_prepared_statements cfg) hist m) ps → (length ps ≤ 1)%nat →
  ∃ js, js `sublist_of` [length hist] ∧ at_positions (hist ++ [m]) js ps.
Proof.
  intros Ha Hl. destruct ps as [|p [|]]; simpl in Hl; [|  |lia].
  - exists []. split; [apply sublist_nil_l|constructor].
  - apply Forall_cons in Ha as [Ha _]. exists [length hist]. split; [done|].
    constructor; [|constructor]. exists m. rewrite lookup_app_r, Nat.sub_diag, take_app_length by lia. done.
Qed.
(** A part of the executions is announced at a part of the positions. *)
Lemma at_positions_sublist hist js ps rs :
  at_positions hist js ps → rs `sublist_of` ps →
  ∃ ks, ks `sublist_of` js ∧ at_positions hist ks rs.
Proof.
  intros Hp Hs. revert js Hp. induction Hs as [|p rs ps _ IH|p rs ps _ IH]; intros js Hp.
  - exists []. split; [apply sublist_nil_l|constructor].
  - apply Forall2_cons_inv_r in Hp as (j & js' & Hj & Hp & ->). destruct (IH _ Hp) as (ks & Hk & Hr).
    exists (j :: ks). split; [by constructor|by constructor].
  - apply Forall2_cons_inv_r in Hp as (j & js' & Hj & Hp & ->). destruct (IH _ Hp) as (ks & Hk & Hr).
    exists ks. split; [by constructor|done].
Qed.

Lemma put_at_most_one m s : (length (put m s) ≤ 1)%nat.
Proof.
  assert (length (current s) ≤ 1)%nat by (unfold current; destruct (_ !! _); simpl; lia).
  destruct m as [| |[] | | | |]; simpl; lia.
Qed.

Lemma keep_announced ms i hist s s' acts v :
  remembers hist (stmt_cache s) → process_messages cfg i s ms = Ret (s', acts, v) →
  remembers (hist ++ taken i s ms) (stmt_cache s') ∧
  ∃ js, js `sublist_of` seq (length hist) (length (taken i s ms)) ∧
        at_positions (hist ++ taken i s ms) js (keep i s ms).
Proof.
  revert i hist s s' acts v. induction ms as [|m ms IH]; intros i hist s s' acts v Hr;
    cbn [process_messages keep taken].
  - intros [= <- _ _]. rewrite app_nil_r. split; [done|]. exists []. split; [done|constructor].
  - intros ([[s1 a1] v1] & Hm & Hp)%outcome_bind_Ret. rewrite Hm. cbn [fst snd] in Hp. destruct v1.
    + apply outcome_bind_Ret in Hp as ([[s2 a2] v2] & Hp & [= <- _ _]). cbn [fst snd].
      destruct (message_announced _ _ _ _ _ _ Hr Hm) as [Hr1 Hput].
      destruct (at_positions_one hist m _ Hput (put_at_most_one m s1)) as (j1 & Hj1 & Hp1).
      destruct (IH _ _ _ _ _ _ Hr1 Hp) as [Hr2 (j2 & Hj2 & Hp2)]. rewrite length_app in Hj2.
      rewrite <-app_assoc in *. cbn [app] in *. split; [done|]. exists (j1 ++ j2). split.
      * cbn [length seq]. rewrite Nat.add_1_r in Hj2. by apply (sublist_app _ [length hist] _ _ Hj1).
      * apply Forall2_app; [|done]. rewrite (cons_middle m hist), app_assoc. by apply at_positions_extend.
    + injection Hp as <- _ _. rewrite app_nil_r. pose proof (refused_keeps_cache _ _ _ _ _ _ Hm) as ->; [|done].
      split; [done|]. exists []. split; [done|constructor].
    + injection Hp as <- _ _. rewrite app_nil_r. pose proof (refused_keeps_cache _ _ _ _ _ _ Hm) as ->; [|done].
      split; [done|]. exists []. split; [done|constructor].
Qed.

Lemma step_announced hist s e acts o :
  remembers hist (stmt_cache s) → step cfg s e = Ret (acts, o) →
  (∀ s', o = Some s' → remembers (hist ++ takes s e) (stmt_cache s')) ∧
  ∃ js, js `sublist_of` seq (length hist) (length (takes s e)) ∧
        at_positions (hist ++ takes s e) js (keeps s e).
Proof.
  intros Hr Hs.
  assert (Hquiet : takes s e = [] → keeps s e = [] →
    ∃ js, js `sublist_of` seq (length hist) (length (takes s e)) ∧ at_positions (hist ++ takes s e) js (keeps s e)).
  { intros -> ->. exists []. split; [done|constructor]. }
  destruct e as [now data| |data| |]; cbn [step] in Hs.
  - unfold on_client_data in Hs. apply outcome_bind_Ret in Hs as ([ms x] & Hx & Hs). cbn [fst snd] in Hs.
    cbv zeta in Hs. apply outcome_bind_Ret in Hs as ([[s1 a1] v] & Hm & Hs). cbn [fst snd] in Hs.
    cbn [takes keeps]. rewrite Hx. apply (keep_announced _ _ hist) in Hm as [Hr1 Hj]; [|done].
    split; [|done]. intros s' Ho. destruct v; injection Hs as _ <-; by simplify_eq.
  - split; [by injection Hs as _ <-|by apply Hquiet].
  - split; [|by apply Hquiet]. intros s' ->. cbn [takes]. rewrite app_nil_r.
    apply backend_keeps_statements in Hs as (Hw & Hm & Hst).
    destruct Hr as [Hw0 Hm0 Hs0 Ha0]. split; rewrite ?Hst; [by apply Hw|congruence|done|done].
  - split; [by injection Hs as _ <-|by apply Hquiet].
  - split; [|by apply Hquiet]. intros s' Ho. cbn [takes]. rewrite app_nil_r.
    case_match; injection Hs as _ <-; by simplify_eq.
Qed.

Lemma kept_announced es hist s acts o :
  remembers hist (stmt_cache s) → run cfg s es = Ret (acts, o) →
  ∃ js, js `sublist_of` seq (length hist) (length (heard s es)) ∧
        at_positions (hist ++ heard s es) js (kept s es).
Proof.
  revert hist s acts. induction es as [|e es IH]; intros hist s acts Hr; cbn [run heard kept].
  - intros _. exists []. split; [done|constructor].
  - intros ([a1 o1] & Hs & Hrun)%outcome_bind_Ret. rewrite Hs. cbn [fst snd] in Hrun.
    destruct (step_announced _ _ _ _ _ Hr Hs) as [Hr1 (j1 & Hj1 & Hp1)].
    destruct o1 as [s1|]; [|exists j1; by rewrite !app_nil_r].
    apply outcome_bind_Ret in Hrun as ([a2 o2] & Hrun & [= _ ->]).
    destruct (IH _ _ _ (Hr1 s1 eq_refl) Hrun) as (j2 & Hj2 & Hp2).
    exists (j1 ++ j2). rewrite length_app, seq_app. split.
    + apply sublist_app; [done|]. by rewrite length_app in Hj2.
    + rewrite app_assoc. apply Forall2_app; [by apply at_positions_extend|done].
Qed.

Lemma start_remembers : remembers [] (stmt_cache (start cfg)).
Proof.
  assert (entry <$> Cache.statements (stmt_cache (start cfg)) = prepared []) as He by apply fmap_empty.
  split; [apply Cache.cache_new_wf|done|by rewrite He|done].
Qed.
End reports.


(** ** Concrete runs *)
#[local] Existing Instance release_build.
#[local] Existing Instance ascii_tables.
#[local] Existing Instance no_floats.

Definition demo : Config := demo_config Modes.StrategyHybrid.
Definition complete (tag : string) : bytes := frame x43 (lit tag ++ [x00]) ++ ready x49.

Definition run_end (es : list event) : HandlerState :=
  match run demo (start demo) es with Ret (_, Some s) => s | _ => start demo end.


(** Of two queries sent at once only the second is reported. *)
Example pipelined_query_unreported :
  (match run demo (start demo)
     [ClientData 0 (query "SELECT 1" ++ query "SELECT 2");
      BackendData (complete "SELECT 1" ++ complete "SELECT 1")] with
   | Ret (acts, _) => observed acts | _ => [] end)
  = [Publish (lit "SELECT 2") [] false true None; RecordQuery true].
Proof. vm_compute. reflexivity. Qed.

(** An execution on a named portal is not reported, and the query time-out is not
    armed for it. *)
Example named_portal_unseen :
  let data := concat (Ext.serialize_message <$>
                [Bind (lit "p") (lit "s") [] []; Execute (lit "p"); Sync]) in
  match run demo (start demo) [ClientData 0 data; BackendData (complete "SELECT 1")] with
  | Ret (acts, Some s) => observed acts = [] ∧ query_deadline s = None
  | _ => False
  end ∧
  match run demo (start demo) [ClientData 0 data] with
  | Ret (acts, Some s) => to_backend acts = [data] ∧ query_deadline s = None
  | _ => False
  end.
Proof. vm_compute. repeat split; reflexivity. Qed.

(** And what was kept for it stays: the executions kept under names are bounded by
    nothing but the client. *)
Lemma named_portals_accumulate (ps : list (bytes * PendingExecution)) max :
  NoDup ps.*1 →
  size (Cache.pending (foldl (λ c p, Cache.set_pending p.1 p.2 c) (Cache.new max) ps)) = length ps.
Proof.
  assert (Hgen : ∀ c : StmtCache, NoDup ps.*1 → (∀ n, n ∈ ps.*1 → Cache.pending c !! n = None) →
    size (Cache.pending (foldl (λ c p, Cache.set_pending p.1 p.2 c) c ps)) = (size (Cache.pending c) + length ps)%nat).
  { induction ps as [|[n p] ps IH]; intros c Hnd Hfresh; cbn; [lia|].
    apply NoDup_cons in Hnd as [Hn Hnd]. rewrite IH; [|done|].
    - cbn. rewrite map_size_insert_None by (apply Hfresh; by left). lia.
    - intros n' Hn'. cbn. rewrite lookup_insert_ne by (intros ->; by apply Hn). apply Hfresh. by right. }
  intros Hnd. rewrite Hgen; [done|done|]. intros. apply lookup_empty.
Qed.
End Reports.
