(* ===== verification/Metrics.v ===== *)
(** * Metrics and the health monitor (observability/timeline.rs, health.rs,
      metrics.rs and the routes of metrics_server.rs)

    [Timeline] computes the phases of a query, [Metrics] is [ProxyMetrics] with its
    counters, gauges and histograms, [Health] compares a snapshot of them with a
    moving average and gives the status the circuit breaker asks for.  Instants
    are nanoseconds.  The hdrhistogram crate is the class [Hdr]; the atomics of
    [PoolMetrics] are functions from their names. *)

From Stdlib Require Import Floats.SpecFloat.
From S2P Require Import Prelude CommandDetector ConnState CircuitBreaker Acquire HotData Modes Handler.

(** ** f64 beyond [Acquire] *)
Abbreviation f64_of := Acquire.f64_of_u64.
Abbreviation f64_mul := Acquire.f64_mul.
Definition f64_div : spec_float → spec_float → spec_float := SFdiv 53 1024.
Definition f64_add : spec_float → spec_float → spec_float := SFadd 53 1024.
Definition f64_sub : spec_float → spec_float → spec_float := SFsub 53 1024.
Definition f64_zero : spec_float := S754_zero false.
(** [a > b] and [a >= b] on floats. *)
Definition f64_gt (a b : spec_float) : bool := SFltb b a.
Definition f64_ge (a b : spec_float) : bool := SFleb b a.
(** A decimal literal: both sides are exact and division rounds to nearest. *)
Definition f64_lit (n d : Z) : spec_float := f64_div (f64_of n) (f64_of d).
(** [f64::min] on numbers. *)
Definition f64_min (a b : spec_float) : spec_float := if SFltb b a then b else a.

Module Timeline.

Record QueryTimeline : Type := timeline {
  received_at : Z;
  pool_acquire_start : option Z;
  pool_acquire_end : option Z;
  backend_start : option Z;
  backend_end : option Z
}.

Record TimelinePhases : Type := phases {
  queue_time_micros : option Z;
  pool_acquire_micros : option Z;
  backend_micros : option Z;
  total_micros : Z;
  proxy_overhead_micros_ : Z
}.

(** [now] is what [Instant::now()] reads. *)
Definition new (now : Z) : QueryTimeline := timeline now None None None None.
Definition for_completed (received now : Z) : QueryTimeline :=
  timeline received None None (Some received) (Some now).
Definition set_pool_acquire (t : QueryTimeline) (start end_ : Z) : QueryTimeline :=
  timeline (received_at t) (Some start) (Some end_) (backend_start t) (backend_end t).
Definition mark_pool_acquire_start (t : QueryTimeline) (now : Z) : QueryTimeline :=
  timeline (received_at t) (Some now) (pool_acquire_end t) (backend_start t) (backend_end t).
Definition mark_pool_acquire_end (t : QueryTimeline) (now : Z) : QueryTimeline :=
  timeline (received_at t) (pool_acquire_start t) (Some now) (backend_start t) (backend_end t).
Definition mark_backend_start (t : QueryTimeline) (now : Z) : QueryTimeline :=
  timeline (received_at t) (pool_acquire_start t) (pool_acquire_end t) (Some now) (backend_end t).
Definition mark_backend_end (t : QueryTimeline) (now : Z) : QueryTimeline :=
  timeline (received_at t) (pool_acquire_start t) (pool_acquire_end t) (backend_start t) (Some now).

(** [Instant::duration_since] saturates at zero. *)
Definition duration_since (later earlier : Z) : Z := Z.max 0 (later - earlier).
Definition as_micros (d : Z) : Z := (d / 1000) mod two64.

Definition queue_time (t : QueryTimeline) : option Z :=
  (λ start, duration_since start (received_at t)) <$> pool_acquire_start t.
Definition pool_acquire_time (t : QueryTimeline) : option Z :=
  match pool_acquire_start t, pool_acquire_end t with
  | Some start, Some end_ => Some (duration_since end_ start)
  | _, _ => None
  end.
Definition backend_time (t : QueryTimeline) : option Z :=
  match backend_start t, backend_end t with
  | Some start, Some end_ => Some (duration_since end_ start)
  | _, _ => None
  end.
Definition total_time (t : QueryTimeline) (now : Z) : Z :=
  duration_since (default now (backend_end t)) (received_at t).

Definition saturating_sub (a b : Z) : Z := Z.max 0 (a - b).
Definition proxy_overhead_micros (total : Z) (backend pool queue : option Z) : Z :=
  saturating_sub (saturating_sub (saturating_sub total (default 0 backend)) (default 0 pool))
                 (default 0 queue).

Definition phase_durations_micros (t : QueryTimeline) (now : Z) : TimelinePhases :=
  let queue := as_micros <$> queue_time t in
  let pool := as_micros <$> pool_acquire_time t in
  let backend := as_micros <$> backend_time t in
  let total := as_micros (total_time t now) in
  phases queue pool backend total (proxy_overhead_micros total backend pool queue).

(** A timeline whose marks are in order and span less than 2^64 microseconds. *)
Definition ordered (t : QueryTimeline) : Prop :=
  ∃ s e b d, pool_acquire_start t = Some s ∧ pool_acquire_end t = Some e ∧
    backend_start t = Some b ∧ backend_end t = Some d ∧
    received_at t ≤ s ≤ e ∧ e ≤ b ≤ d ∧ d - received_at t < 1000 * two64.

Lemma micros_small d : 0 ≤ d < 1000 * two64 → as_micros d = d / 1000.
Proof. intros Hd. unfold as_micros. apply Z.mod_small. unfold two64 in *. Z.div_mod_to_equations; lia. Qed.

(** The phases of a fully marked query do not exceed its total, and the
    overhead is the time between the pool and the backend, within the rounding of
    three phases to microseconds. *)
Lemma phases_partition t now :
  ordered t →
  ∃ q p b, let ph := phase_durations_micros t now in
    queue_time_micros ph = Some q ∧ pool_acquire_micros ph = Some p ∧ backend_micros ph = Some b ∧
    q + p + b + proxy_overhead_micros_ ph = total_micros ph ∧
    ∃ e s, pool_acquire_end t = Some e ∧ backend_start t = Some s ∧
      (s - e) / 1000 ≤ proxy_overhead_micros_ ph ≤ (s - e) / 1000 + 3.
Proof.
  intros (s & e & b & d & Hs & He & Hb & Hd & H1 & H2 & H3).
  unfold phase_durations_micros, queue_time, pool_acquire_time, backend_time, total_time, duration_since.
  rewrite Hs, He, Hb, Hd. simpl.
  rewrite !Z.max_r by lia. rewrite !micros_small by (unfold two64 in *; lia).
  eexists _, _, _. split_and!; [reflexivity..| |].
  - unfold proxy_overhead_micros, saturating_sub. simpl. Z.div_mod_to_equations. lia.
  - exists e, b. split_and!; try done;
      unfold proxy_overhead_micros, saturating_sub; simpl; Z.div_mod_to_equations; lia.
Qed.

(** The timeline the handlers record has no overhead: its backend phase is the
    whole of it. *)
Lemma completed_has_no_overhead received now now' :
  proxy_overhead_micros_ (phase_durations_micros (for_completed received now) now') = 0.
Proof.
  unfold phase_durations_micros, for_completed, total_time, backend_time, proxy_overhead_micros,
    saturating_sub. simpl. lia.
Qed.
End Timeline.

Module Health.

Record HealthConfig : Type := {
  error_rate_spike_factor : spec_float;
  latency_spike_factor : spec_float;
  pool_saturation_threshold : spec_float;
  ema_alpha : spec_float
}.
Definition default_config : HealthConfig := {|
  error_rate_spike_factor := f64_of 3;
  latency_spike_factor := f64_of 2;
  pool_saturation_threshold := f64_lit 95 100;
  ema_alpha := f64_lit 1 10
|}.

Record HealthSnapshot : Type := snapshot {
  error_rate : spec_float;
  latency_p99_ms : spec_float;
  pool_utilization : spec_float;
  pool_size : Z;
  pool_available : Z;
  active_connections : Z
}.

Record Baseline : Type := baseline_ {
  avg_error_rate : spec_float;
  avg_latency_p99 : spec_float;
  avg_pool_utilization : spec_float;
  alpha : spec_float;
  sample_count : Z
}.

Inductive HealthWarning : Type :=
| ErrorRateSpike (current baseline factor : spec_float)
| LatencySpike (current_p99_ms baseline_p99_ms factor : spec_float)
| PoolSaturation (utilization threshold : spec_float)
| PoolStarvation (available wait_queue : Z).

Record HealthMonitor : Type := monitor {
  config : HealthConfig;
  warnings : list HealthWarning;
  baseline : Baseline;
  last_check : Z
}.

Definition baseline_new (alpha_ : spec_float) : Baseline :=
  baseline_ f64_zero f64_zero f64_zero alpha_ 0.
Definition new (c : HealthConfig) : HealthMonitor := monitor c [] (baseline_new (ema_alpha c)) 0.

(** [alpha * sample + (1.0 - alpha) * avg]. *)
Definition ema (a sample avg : spec_float) : spec_float :=
  f64_add (f64_mul a sample) (f64_mul (f64_sub (f64_of 1) a) avg).

Section monitor.
Context `{Build}.

Definition update (b : Baseline) (s : HealthSnapshot) : outcome Baseline :=
  n ← u64_add (sample_count b) 1;
  Ret (if sample_count b =? 0
       then baseline_ (error_rate s) (latency_p99_ms s) (pool_utilization s) (alpha b) n
       else baseline_ (ema (alpha b) (error_rate s) (avg_error_rate b))
                      (ema (alpha b) (latency_p99_ms s) (avg_latency_p99 b))
                      (ema (alpha b) (pool_utilization s) (avg_pool_utilization b)) (alpha b) n).

Definition error_spike (c : HealthConfig) (b : Baseline) (s : HealthSnapshot) : list HealthWarning :=
  if f64_gt (error_rate s) f64_zero && f64_gt (avg_error_rate b) f64_zero then
    let spike_factor := f64_div (error_rate s) (avg_error_rate b) in
    if f64_ge spike_factor (error_rate_spike_factor c)
    then [ErrorRateSpike (error_rate s) (avg_error_rate b) spike_factor] else []
  else [].
Definition latency_spike (c : HealthConfig) (b : Baseline) (s : HealthSnapshot) : list HealthWarning :=
  if f64_gt (latency_p99_ms s) f64_zero && f64_gt (avg_latency_p99 b) f64_zero then
    let spike_factor := f64_div (latency_p99_ms s) (avg_latency_p99 b) in
    if f64_ge spike_factor (latency_spike_factor c)
    then [LatencySpike (latency_p99_ms s) (avg_latency_p99 b) spike_factor] else []
  else [].
Definition saturation (c : HealthConfig) (s : HealthSnapshot) : list HealthWarning :=
  if f64_ge (pool_utilization s) (pool_saturation_threshold c)
  then [PoolSaturation (pool_utilization s) (pool_saturation_threshold c)] else [].
Definition starvation (s : HealthSnapshot) : list HealthWarning :=
  if (pool_available s =? 0) && (pool_size s <? active_connections s)
  then [PoolStarvation (pool_available s) (active_connections s - pool_size s)] else [].

(** [now] is the wall clock in seconds. *)
Definition check_and_update (m : HealthMonitor) (current : HealthSnapshot) (now : Z)
    : outcome HealthMonitor :=
  let ws := error_spike (config m) (baseline m) current ++ latency_spike (config m) (baseline m) current
            ++ saturation (config m) current ++ starvation current in
  b ← update (baseline m) current;
  Ret (monitor (config m) ws b now).

Definition get_warnings (m : HealthMonitor) : list HealthWarning := warnings m.

Definition is_critical (w : HealthWarning) : bool :=
  match w with
  | PoolStarvation _ _ => true
  | PoolSaturation u _ => f64_ge u (f64_lit 99 100)
  | ErrorRateSpike _ _ f => f64_ge f (f64_of 5)
  | LatencySpike _ _ _ => false
  end.
Definition get_status (m : HealthMonitor) : CB.HealthStatus :=
  match warnings m with
  | [] => CB.Healthy
  | ws => if existsb is_critical ws then CB.Unhealthy else CB.Degraded
  end.

(** ** What the status says of the last snapshot *)
Definition starved (s : HealthSnapshot) : bool :=
  (pool_available s =? 0) && (pool_size s <? active_connections s).
Definition spikes (rate avg factor : spec_float) : bool :=
  f64_gt rate f64_zero && f64_gt avg f64_zero && f64_ge (f64_div rate avg) factor.

(** The status as a function of the snapshot and the baseline before it. *)
Definition status_of (c : HealthConfig) (b : Baseline) (s : HealthSnapshot) : CB.HealthStatus :=
  let err f := spikes (error_rate s) (avg_error_rate b) f in
  let sat := f64_ge (pool_utilization s) (pool_saturation_threshold c) in
  if starved s || (sat && f64_ge (pool_utilization s) (f64_lit 99 100))
     || (err (error_rate_spike_factor c) && err (f64_of 5)) then CB.Unhealthy
  else if err (error_rate_spike_factor c)
     || spikes (latency_p99_ms s) (avg_latency_p99 b) (latency_spike_factor c) || sat then CB.Degraded
  else CB.Healthy.

Lemma check_status m s now m' :
  check_and_update m s now = Ret m' → get_status m' = status_of (config m) (baseline m) s.
Proof.
  unfold check_and_update. intros (b & _ & [= <-])%outcome_bind_Ret.
  unfold get_status, status_of, error_spike, latency_spike, saturation, starvation, starved, spikes.
  cbn [warnings].
  destruct (f64_gt (error_rate s) f64_zero && f64_gt (avg_error_rate (baseline m)) f64_zero);
    [destruct (f64_ge (f64_div (error_rate s) _) (error_rate_spike_factor _));
     [destruct (f64_ge (f64_div (error_rate s) _) (f64_of 5)) eqn:H5|]|];
  (destruct (f64_gt (latency_p99_ms s) f64_zero && f64_gt (avg_latency_p99 (baseline m)) f64_zero);
    [destruct (f64_ge (f64_div (latency_p99_ms s) _) _)|]);
  (destruct (f64_ge (pool_utilization s) (pool_saturation_threshold _));
    [destruct (f64_ge (pool_utilization s) (f64_lit 99 100)) eqn:H99|]);
  destruct ((pool_available s =? 0) && (pool_size s <? active_connections s));
  cbn [app existsb is_critical andb orb]; rewrite ?H5, ?H99; reflexivity.
Qed.

Lemma check_samples m s now m' :
  0 ≤ sample_count (baseline m) < two64 - 1 → check_and_update m s now = Ret m' →
  sample_count (baseline m') = sample_count (baseline m) + 1.
Proof.
  intros Hn. unfold check_and_update, update. rewrite u64_add_fits by lia. simpl.
  intros [= <-]. simpl. by case_match.
Qed.
End monitor.
End Health.

(** The hdrhistogram crate: recording a value that is out of range is an error
    the code ignores, which leaves the histogram as it was. *)
Class Hdr : Type := {
  Hist : Type;
  hist_new : Z → Z → Z → Hist;
  hist_record : Hist → Z → Hist;
  value_at_quantile : Hist → spec_float → Z;
  hist_max : Hist → Z;
  hist_mean : Hist → spec_float;
  hist_len : Hist → Z
}.

Module Metrics.
Import Timeline.

#[local] Existing Instance CS.PinReason_eq_dec.
(** The atomics of [PoolMetrics], by name. *)
Inductive pool_gauge : Type := Size | Available | MaxSize | Pinned | QueueDepth | MaxQueueDepth.
#[export] Instance pool_gauge_eq_dec : EqDecision pool_gauge.
Proof. solve_decision. Defined.
Inductive pool_counter : Type :=
| QueueRejected | PoolWaitTimeout | BackendConnectTimeout | RequestsShed | PinCount (r : CS.PinReason).
#[export] Instance pool_counter_eq_dec : EqDecision pool_counter.
Proof. solve_decision. Defined.

Section metrics.
Context `{Build} `{Hdr}.
Context (tie : list Hot.HotDataEntry → nat) (hash_order : list (bytes * Z) → list (bytes * Z)).

Record QueryMetrics : Type := query_metrics {
  latency_histogram : Hist;
  queue_time_histogram : Hist;
  pool_acquire_histogram : Hist;
  backend_time_histogram : Hist;
  proxy_overhead_histogram : Hist;
  total_queries : Z;
  total_errors : Z;
  total_query_timeouts : Z
}.
Definition micros_histogram : Hist := hist_new 1 3600000000 3.
Definition QueryMetrics_new : QueryMetrics :=
  query_metrics micros_histogram micros_histogram micros_histogram micros_histogram
    micros_histogram 0 0 0.

Definition record_some (h : Hist) (v : option Z) : Hist :=
  match v with Some z => hist_record h z | None => h end.

Definition record_latency (q : QueryMetrics) (ph : TimelinePhases) : QueryMetrics :=
  query_metrics (hist_record (latency_histogram q) (total_micros ph))
    (record_some (queue_time_histogram q) (queue_time_micros ph))
    (record_some (pool_acquire_histogram q) (pool_acquire_micros ph))
    (record_some (backend_time_histogram q) (backend_micros ph))
    (if 0 <? proxy_overhead_micros_ ph
     then hist_record (proxy_overhead_histogram q) (proxy_overhead_micros_ ph)
     else proxy_overhead_histogram q)
    (total_queries q) (total_errors q) (total_query_timeouts q).

Definition record_query_timeout (q : QueryMetrics) : QueryMetrics :=
  query_metrics (latency_histogram q) (queue_time_histogram q) (pool_acquire_histogram q)
    (backend_time_histogram q) (proxy_overhead_histogram q) (total_queries q) (total_errors q)
    (atomic_add two64 (total_query_timeouts q) 1).

Definition count_query (q : QueryMetrics) (success : bool) : QueryMetrics :=
  query_metrics (latency_histogram q) (queue_time_histogram q) (pool_acquire_histogram q)
    (backend_time_histogram q) (proxy_overhead_histogram q)
    (atomic_add two64 (total_queries q) 1)
    (if success then total_errors q else atomic_add two64 (total_errors q) 1)
    (total_query_timeouts q).

Record LatencyPercentiles : Type := percentiles {
  p50_micros : Z; p90_micros : Z; p95_micros : Z; p99_micros : Z; p999_micros : Z;
  max_micros : Z; mean_micros : spec_float
}.
(** What each of the [..._percentiles] methods reads from its histogram. *)
Definition percentiles_of (h : Hist) : LatencyPercentiles :=
  percentiles (value_at_quantile h (f64_lit 50 100)) (value_at_quantile h (f64_lit 90 100))
    (value_at_quantile h (f64_lit 95 100)) (value_at_quantile h (f64_lit 99 100))
    (value_at_quantile h (f64_lit 999 1000)) (hist_max h) (hist_mean h).

Definition proxy_overhead_percentiles (q : QueryMetrics) : LatencyPercentiles :=
  percentiles_of (proxy_overhead_histogram q).
Definition get_latency_percentiles (q : QueryMetrics) : LatencyPercentiles :=
  percentiles_of (latency_histogram q).
Definition get_queue_percentiles (q : QueryMetrics) : LatencyPercentiles :=
  percentiles_of (queue_time_histogram q).
Definition get_pool_acquire_percentiles (q : QueryMetrics) : LatencyPercentiles :=
  percentiles_of (pool_acquire_histogram q).
Definition get_backend_percentiles (q : QueryMetrics) : LatencyPercentiles :=
  percentiles_of (backend_time_histogram q).

Record LatencyPercentilesMs : Type := percentiles_ms {
  p50 : spec_float; p90 : spec_float; p95 : spec_float; p99 : spec_float; p999 : spec_float;
  max_ms : spec_float; mean_ms : spec_float
}.
Definition to_millis (p : LatencyPercentiles) : LatencyPercentilesMs :=
  let ms z := f64_div (f64_of z) (f64_of 1000) in
  percentiles_ms (ms (p50_micros p)) (ms (p90_micros p)) (ms (p95_micros p)) (ms (p99_micros p))
    (ms (p999_micros p)) (ms (max_micros p)) (f64_div (mean_micros p) (f64_of 1000)).

Definition latency_p99_ms (q : QueryMetrics) : spec_float :=
  f64_div (f64_of (value_at_quantile (latency_histogram q) (f64_lit 99 100))) (f64_of 1000).

(** *** Pool metrics *)
Record PoolMetrics : Type := pool_metrics {
  gauge : pool_gauge → Z; counter : pool_counter → Z; wait_histogram : Hist
}.
Definition PoolMetrics_new : PoolMetrics := pool_metrics (λ _, 0) (λ _, 0) micros_histogram.

Definition store (g : pool_gauge) (z : Z) (p : PoolMetrics) : PoolMetrics :=
  pool_metrics (λ g', if decide (g' = g) then z else gauge p g') (counter p) (wait_histogram p).
Definition count (c : pool_counter) (p : PoolMetrics) : PoolMetrics :=
  pool_metrics (gauge p)
    (λ c', if decide (c' = c) then atomic_add two64 (counter p c') 1 else counter p c')
    (wait_histogram p).

Definition update_pool (size available max_size : Z) (p : PoolMetrics) : PoolMetrics :=
  store MaxSize max_size (store Available available (store Size size p)).
Definition record_pin (r : CS.PinReason) (p : PoolMetrics) : PoolMetrics := count (PinCount r) p.
Definition record_queue_wait (duration : Z) (p : PoolMetrics) : PoolMetrics :=
  pool_metrics (gauge p) (counter p)
    (hist_record (wait_histogram p) (Z.max (Z.min (as_micros duration) 3600000000) 1)).
Definition get_queue_saturation (p : PoolMetrics) : spec_float :=
  if gauge p MaxQueueDepth =? 0 then f64_zero
  else f64_min (f64_div (f64_of (gauge p QueueDepth)) (f64_of (gauge p MaxQueueDepth))) (f64_of 1).

Record PinReasonCounts : Type := pin_reason_counts {
  prepared_statement : Z; session_variable : Z; temp_table : Z; cursor : Z; advisory_lock : Z;
  listen : Z; unknown_command : Z
}.
Definition get_pin_reason_counts (p : PoolMetrics) : PinReasonCounts :=
  pin_reason_counts (counter p (PinCount CS.PreparedStatement)) (counter p (PinCount CS.SessionVariable))
    (counter p (PinCount CS.TempTable)) (counter p (PinCount CS.Cursor))
    (counter p (PinCount CS.AdvisoryLockHeld)) (counter p (PinCount CS.ListenChannel))
    (counter p (PinCount CS.UnknownCommand)).
Definition get_wait_percentiles (p : PoolMetrics) : LatencyPercentiles := percentiles_of (wait_histogram p).

(** [PoolStatus::utilization]; the subtraction is on [usize]. *)
Definition utilization (p : PoolMetrics) : outcome spec_float :=
  if gauge p MaxSize =? 0 then Ret f64_zero
  else used ← u64_sub (gauge p Size) (gauge p Available);
       Ret (f64_div (f64_of used) (f64_of (gauge p MaxSize))).

(** *** The whole *)
Record ProxyMetrics : Type := proxy_metrics {
  query : QueryMetrics;
  pool : PoolMetrics;
  hot_data : Hot.HotDataTracker;
  health : Health.HealthMonitor;
  active_connections : Z;
  max_connections : Z;
  connections_rejected : Z
}.
Definition ProxyMetrics_new (hot_data_top_k : nat) (health_config : Health.HealthConfig)
    (builders : list (bytes → Z)) : ProxyMetrics :=
  proxy_metrics QueryMetrics_new PoolMetrics_new
    (Hot.tracker_new hot_data_top_k (f64_lit 99 100) builders) (Health.new health_config) 0 0 0.

Definition with_query (q : QueryMetrics) (m : ProxyMetrics) : ProxyMetrics :=
  proxy_metrics q (pool m) (hot_data m) (health m) (active_connections m) (max_connections m)
    (connections_rejected m).
Definition with_pool (p : PoolMetrics) (m : ProxyMetrics) : ProxyMetrics :=
  proxy_metrics (query m) p (hot_data m) (health m) (active_connections m) (max_connections m)
    (connections_rejected m).
Definition with_hot (h : Hot.HotDataTracker) (m : ProxyMetrics) : ProxyMetrics :=
  proxy_metrics (query m) (pool m) h (health m) (active_connections m) (max_connections m)
    (connections_rejected m).
Definition with_active (n : Z) (m : ProxyMetrics) : ProxyMetrics :=
  proxy_metrics (query m) (pool m) (hot_data m) (health m) n (max_connections m)
    (connections_rejected m).
Definition with_health (h : Health.HealthMonitor) (m : ProxyMetrics) : ProxyMetrics :=
  proxy_metrics (query m) (pool m) (hot_data m) h (active_connections m) (max_connections m)
    (connections_rejected m).

Definition record_query (m : ProxyMetrics) (t : QueryTimeline) (now : Z) (success : bool) : ProxyMetrics :=
  with_query (count_query (record_latency (query m) (phase_durations_micros t now)) success) m.
Definition increment_active_connections (m : ProxyMetrics) : ProxyMetrics :=
  with_active (atomic_add two64 (active_connections m) 1) m.
Definition decrement_active_connections (m : ProxyMetrics) : ProxyMetrics :=
  with_active ((active_connections m - 1) mod two64) m.
Definition set_max_connections (m : ProxyMetrics) (max : Z) : ProxyMetrics :=
  proxy_metrics (query m) (pool m) (hot_data m) (health m) (active_connections m) max
    (connections_rejected m).
Definition record_connection_rejected (m : ProxyMetrics) : ProxyMetrics :=
  proxy_metrics (query m) (pool m) (hot_data m) (health m) (active_connections m) (max_connections m)
    (atomic_add two64 (connections_rejected m) 1).

Definition create_health_snapshot (m : ProxyMetrics) : outcome Health.HealthSnapshot :=
  let total := f64_of (total_queries (query m)) in
  let errors := f64_of (total_errors (query m)) in
  u ← utilization (pool m);
  Ret (Health.snapshot (if f64_gt total f64_zero then f64_div errors total else f64_zero)
         (latency_p99_ms (query m)) u (gauge (pool m) Size) (gauge (pool m) Available)
         (active_connections m)).

Definition run_health_check (m : ProxyMetrics) (now : Z) : outcome ProxyMetrics :=
  s ← create_health_snapshot m;
  h ← Health.check_and_update (health m) s now;
  Ret (with_health h m).

(** What the rest of the proxy calls on the metrics. *)
Inductive call : Type :=
| RecordQuery (t : QueryTimeline) (now : Z) (success : bool)
| RecordQueryTimeout
| RecordHotData (fps : list bytes)
| PoolCount (c : pool_counter)
| PoolStore (g : pool_gauge) (z : Z)
| UpdatePoolMetrics (size available max_size : Z)
| RecordQueueWait (d : Z)
| IncrementActive
| DecrementActive
| SetMaxConnections (n : Z)
| ConnectionRejected
| RunHealthCheck (now : Z)
| ApplyDecay.

Definition perform (m : ProxyMetrics) (c : call) : outcome ProxyMetrics :=
  match c with
  | RecordQuery t now s => Ret (record_query m t now s)
  | RecordQueryTimeout => Ret (with_query (record_query_timeout (query m)) m)
  | RecordHotData fps =>
      h ← Hot.record_hot_data tie hash_order (hot_data m) fps; Ret (with_hot h m)
  | PoolCount c => Ret (with_pool (count c (pool m)) m)
  | PoolStore g z => Ret (with_pool (store g z (pool m)) m)
  | UpdatePoolMetrics s a x => Ret (with_pool (update_pool s a x (pool m)) m)
  | RecordQueueWait d => Ret (with_pool (record_queue_wait d (pool m)) m)
  | IncrementActive => Ret (increment_active_connections m)
  | DecrementActive => Ret (decrement_active_connections m)
  | SetMaxConnections n => Ret (set_max_connections m n)
  | ConnectionRejected => Ret (record_connection_rejected m)
  | RunHealthCheck now => run_health_check m now
  | ApplyDecay => Ret (with_hot (Hot.apply_decay hash_order (hot_data m)) m)
  end.

(** The calls the proxy makes: nothing calls [update_pool_metrics], and the
    gauges it stores are those of the queue. *)
Definition made_by_proxy (c : call) : bool :=
  match c with
  | UpdatePoolMetrics _ _ _ | RecordQueueWait _ => false
  | PoolStore g _ => bool_decide (g = QueueDepth) || bool_decide (g = MaxQueueDepth)
  | PoolCount (PinCount _) => false
  | _ => true
  end.

(** ** Counters *)
Definition queries (cs : list call) : list bool :=
  omap (λ c, match c with RecordQuery _ _ s => Some s | _ => None end) cs.
Definition latencies (cs : list call) : list Z :=
  omap (λ c, match c with
             | RecordQuery t now _ => Some (total_micros (phase_durations_micros t now))
             | _ => None end) cs.
Definition timeouts (cs : list call) : nat :=
  length (omap (λ c, match c with RecordQueryTimeout => Some tt | _ => None end) cs).
Definition connected (cs : list call) : Z :=
  foldr (λ c z, match c with IncrementActive => z + 1 | DecrementActive => z - 1 | _ => z end) 0 cs.
Definition checks (cs : list call) : nat :=
  length (omap (λ c, match c with RunHealthCheck _ => Some tt | _ => None end) cs).

Definition errors_of (l : list bool) : list bool := filter (λ s, s = false) l.

(** One call moves each total by what the call is. *)
Lemma perform_totals m c m' :
  perform m c = Ret m' →
  let q := query m in let q' := query m' in
  0 ≤ total_queries q < two64 → 0 ≤ total_errors q < two64 →
  0 ≤ total_query_timeouts q < two64 → 0 ≤ active_connections m < two64 →
  total_queries q' = (total_queries q + Z.of_nat (length (queries [c]))) mod two64 ∧
  total_errors q' = (total_errors q + Z.of_nat (length (errors_of (queries [c])))) mod two64 ∧
  total_query_timeouts q' = (total_query_timeouts q + Z.of_nat (timeouts [c])) mod two64 ∧
  active_connections m' = (active_connections m + connected [c]) mod two64 ∧
  latency_histogram q' = foldl hist_record (latency_histogram q) (latencies [c]).
Proof.
  intros Hp q q' Hq He Ht Ha. subst q q'.
  assert (Hsame : ∀ z, 0 ≤ z < two64 → z = (z + 0) mod two64)
    by (intros z Hz; by rewrite Z.add_0_r, Z.mod_small).
  destruct c; simpl in Hp; unfold run_health_check in Hp; outcome_inv; subst m';
    cbn [query active_connections with_query with_pool with_hot with_active with_health
         record_query increment_active_connections decrement_active_connections
         set_max_connections record_connection_rejected count_query record_latency
         record_query_timeout total_queries total_errors total_query_timeouts latency_histogram];
    try destruct success; cbn; unfold atomic_add; split_and!; auto;
    by rewrite ?Z.add_opp_r.
Qed.

Lemma omap_cons1 {A B} (f : A → option B) (x : A) (l : list A) :
  omap f (x :: l) = omap f [x] ++ omap f l.
Proof. by apply (omap_app f [x] l). Qed.

Lemma queries_cons c cs : queries (c :: cs) = queries [c] ++ queries cs.
Proof. apply omap_cons1. Qed.
Lemma latencies_cons c cs : latencies (c :: cs) = latencies [c] ++ latencies cs.
Proof. apply omap_cons1. Qed.

Lemma connected_cons c cs : connected (c :: cs) = connected [c] + connected cs.
Proof. destruct c; simpl; lia. Qed.

(** The totals count the calls: after any sequence of calls the query,
    error and time-out totals are the numbers of recorded queries, of failed
    ones and of time-outs (modulo 2^64), the active connections are those that
    arrived less those that left, and the latency histogram has been given
    exactly the recorded latencies in order. *)
Lemma metrics_account k_ hc builders cs m :
  ofoldl perform (ProxyMetrics_new k_ hc builders) cs = Ret m →
  total_queries (query m) = Z.of_nat (length (queries cs)) mod two64 ∧
  total_errors (query m) = Z.of_nat (length (errors_of (queries cs))) mod two64 ∧
  total_query_timeouts (query m) = Z.of_nat (timeouts cs) mod two64 ∧
  active_connections m = connected cs mod two64 ∧
  latency_histogram (query m) = foldl hist_record micros_histogram (latencies cs).
Proof.
  set (m0 := ProxyMetrics_new k_ hc builders). intros Hrun.
  assert (Hgen : ∀ cs m0 m,
    0 ≤ total_queries (query m0) < two64 → 0 ≤ total_errors (query m0) < two64 →
    0 ≤ total_query_timeouts (query m0) < two64 → 0 ≤ active_connections m0 < two64 →
    ofoldl perform m0 cs = Ret m →
    total_queries (query m) = (total_queries (query m0) + Z.of_nat (length (queries cs))) mod two64 ∧
    total_errors (query m)
      = (total_errors (query m0) + Z.of_nat (length (errors_of (queries cs)))) mod two64 ∧
    total_query_timeouts (query m)
      = (total_query_timeouts (query m0) + Z.of_nat (timeouts cs)) mod two64 ∧
    active_connections m = (active_connections m0 + connected cs) mod two64 ∧
    latency_histogram (query m)
      = foldl hist_record (latency_histogram (query m0)) (latencies cs)); last first.
  { apply (Hgen cs m0 m); try done; cbn; unfold two64; lia. }
  clear. intros cs. induction cs as [|c cs IH]; intros m0 m Hq He Ht Ha; cbn [ofoldl].
  - intros [= <-]. cbn. by rewrite !Z.add_0_r, !Z.mod_small.
  - intros (m1 & H1 & H2)%outcome_bind_Ret.
    pose proof (Z.mod_pos_bound) as Hmod. assert (Hpos : 0 < two64) by done.
    apply perform_totals in H1 as (Eq & Ee & Et & Ea & El); [|done..].
    apply IH in H2 as (Fq & Fe & Ft & Fa & Fl);
      [|by rewrite ?Eq, ?Ee, ?Et, ?Ea; apply Hmod..].
    rewrite Fq, Fe, Ft, Fa, Fl, Eq, Ee, Et, Ea, El, !Zplus_mod_idemp_l.
    unfold timeouts, errors_of.
    rewrite (queries_cons c cs), (latencies_cons c cs), (connected_cons c cs), (omap_cons1 _ c cs).
    by rewrite filter_app, !length_app, !Nat2Z.inj_add, foldl_app, !Z.add_assoc.
Qed.

(** ** The health check of a running proxy *)
Definition pool_unset (m : ProxyMetrics) : Prop :=
  gauge (pool m) Size = 0 ∧ gauge (pool m) Available = 0 ∧ gauge (pool m) MaxSize = 0.

Lemma perform_pool_unset m c m' :
  made_by_proxy c = true → pool_unset m → perform m c = Ret m' → pool_unset m'.
Proof.
  intros Hc Hm Hp. destruct c; simpl in Hp; unfold run_health_check in Hp; outcome_inv; subst m';
    try done.
  unfold pool_unset. destruct g; simpl in *; try discriminate Hc; done.
Qed.

Lemma perform_samples m c m' :
  perform m c = Ret m' → Health.sample_count (Health.baseline (health m)) + 1 < two64 →
  0 ≤ Health.sample_count (Health.baseline (health m)) →
  Health.sample_count (Health.baseline (health m'))
  = Health.sample_count (Health.baseline (health m)) + Z.of_nat (checks [c]).
Proof.
  intros Hp Hs Hpos. destruct c; simpl in Hp; unfold run_health_check in Hp; outcome_inv; subst m';
    try (cbn; lia).
  cbn [health with_health]. match goal with
  | Hc : Health.check_and_update _ _ _ = Ret _ |- _ => apply Health.check_samples in Hc as ->
  end; cbn; lia.
Qed.

Lemma run_health_unset m now :
  pool_unset m → 0 ≤ Health.sample_count (Health.baseline (health m)) < two64 - 1 →
  0 < active_connections m →
  ∃ m', run_health_check m now = Ret m' ∧ Health.get_status (health m') = CB.Unhealthy.
Proof.
  intros (Hs & Hav & Hmax) Hn Hact.
  unfold run_health_check, create_health_snapshot, utilization. rewrite Hmax, Hs, Hav. cbn [Z.eqb mbind outcome_bind].
  set (s := Health.snapshot _ _ _ _ _ _).
  destruct (Health.check_and_update (health m) s now) as [h| |] eqn:Hc.
  - simpl. eexists. split; [reflexivity|]. cbn. rewrite (Health.check_status _ _ _ _ Hc).
    unfold Health.status_of, Health.starved, s. cbn.
    by replace (0 <? active_connections m) with true by (symmetry; apply Z.ltb_lt; lia).
  - unfold Health.check_and_update, Health.update in Hc. by rewrite u64_add_fits in Hc by lia.
  - unfold Health.check_and_update, Health.update in Hc. by rewrite u64_add_fits in Hc by lia.
Qed.

Lemma run_unset cs m m' :
  Forall (λ c, made_by_proxy c = true) cs → pool_unset m →
  ofoldl perform m cs = Ret m' → pool_unset m'.
Proof.
  intros Hcs Hm. apply ofoldl_inv; [|done]. rewrite Forall_forall in Hcs.
  intros m1 c m2 Hc. apply perform_pool_unset. by apply Hcs.
Qed.

Lemma checks_cons c cs : checks (c :: cs) = (checks [c] + checks cs)%nat.
Proof. unfold checks. by rewrite omap_cons1, length_app. Qed.

Lemma run_samples cs m m' :
  0 ≤ Health.sample_count (Health.baseline (health m)) →
  Health.sample_count (Health.baseline (health m)) + Z.of_nat (checks cs) < two64 - 1 →
  ofoldl perform m cs = Ret m' →
  Health.sample_count (Health.baseline (health m'))
  = Health.sample_count (Health.baseline (health m)) + Z.of_nat (checks cs).
Proof.
  revert m. induction cs as [|c cs IH]; intros m Hpos Hb; simpl.
  - intros [= <-]. cbn. lia.
  - intros (m1 & H1 & H2)%outcome_bind_Ret. rewrite checks_cons in *.
    apply perform_samples in H1; [|lia|done].
    apply IH in H2; [|lia|rewrite H1; lia]. rewrite H2, H1. lia.
Qed.

(** The calls the proxy makes never set the size of the pool, so its health
    check takes every connected client for one that waits in front of an empty
    pool: whatever happened before, a check made while a client is connected
    reports [Unhealthy]. *)
Lemma connected_client_is_unhealthy k_ hc builders cs m now :
  Forall (λ c, made_by_proxy c = true) cs → Z.of_nat (checks cs) < two64 - 1 →
  ofoldl perform (ProxyMetrics_new k_ hc builders) cs = Ret m → 0 < active_connections m →
  ∃ m', run_health_check m now = Ret m' ∧ Health.get_status (health m') = CB.Unhealthy.
Proof.
  intros Hcs Hn Hrun Hact. apply run_health_unset; [| |done].
  - eapply run_unset; [exact Hcs| |exact Hrun]. by split_and!.
  - apply run_samples in Hrun as ->; cbn; lia.
Qed.

(** The breaker asks for that status: with the monitor in use and a closed
    breaker, one failure opens it. *)
Lemma unhealthy_opens_breaker cfg (b : CB.CircuitBreaker) now now' b1 :
  CB.enabled cfg = true → CB.use_health_monitor cfg = true →
  CB.reset_window_if_needed cfg now b = Ret b1 → CB.get_state b1 = CB.Closed →
  0 ≤ CB.consecutive_failures b1 < two32 - 1 →
  ∃ b', CB.record_failure cfg now now' (Some CB.Unhealthy) b = Ret b' ∧ CB.get_state b' = CB.Open.
Proof.
  intros Hen Hm Hr Hc Hf. unfold CB.record_failure. rewrite Hen, Hr. simpl. rewrite Hc.
  rewrite u32_add_fits by (unfold two32 in *; lia). simpl.
  case_match; [by eexists; split|]. rewrite Hm. by eexists; split.
Qed.

(** The histogram of the proxy's own overhead stays empty: the handlers record
    timelines made by [for_completed], or by [new] at the moment of recording. *)
Definition recorded_by_handlers (c : call) : Prop :=
  match c with
  | RecordQuery t now _ => ∃ r d, t = for_completed r d ∨ (t = new r ∧ now = r)
  | _ => True
  end.

Lemma overhead_never_recorded cs m m' :
  Forall recorded_by_handlers cs → ofoldl perform m cs = Ret m' →
  proxy_overhead_histogram (query m') = proxy_overhead_histogram (query m).
Proof.
  intros Hcs Hrun. rewrite Forall_forall in Hcs.
  apply (ofoldl_inv (λ x, proxy_overhead_histogram (query x) = proxy_overhead_histogram (query m)))
    in Hrun; [done| |done].
  clear m' Hrun. intros m1 c m2 Hc%Hcs <- Hp.
  destruct c; simpl in Hp; unfold run_health_check in Hp; outcome_inv; subst m2; try done.
  unfold record_query, with_query, count_query, record_latency. cbn [query proxy_overhead_histogram].
  replace (proxy_overhead_micros_ (phase_durations_micros t now)) with 0; [done|].
  symmetry. destruct Hc as (r & d & [->|[-> ->]]); [apply completed_has_no_overhead|].
  unfold phase_durations_micros, new, total_time, proxy_overhead_micros, saturating_sub, duration_since,
    as_micros. cbn. by rewrite Z.sub_diag.
Qed.

(** *** The metrics server's routes: [/debug/*] only on a loopback address. *)
Inductive route : Type := RMetrics | RHealth | RDebugPool | RDebugTimeline | RDebugHotdata.
Definition serve_routes (enable_debug_endpoints bound_to_loopback : bool) : list route :=
  let mount_debug := enable_debug_endpoints && bound_to_loopback in
  [RMetrics; RHealth] ++ (if mount_debug then [RDebugPool; RDebugTimeline; RDebugHotdata] else []).
End metrics.

(** A histogram that keeps every value, for concrete runs. *)
Definition list_hdr : Hdr := {|
  Hist := list Z; hist_new _ _ _ := []; hist_record h z := h ++ [z];
  value_at_quantile h _ := foldr Z.max 0 h; hist_max h := foldr Z.max 0 h;
  hist_mean _ := f64_zero; hist_len h := Z.of_nat (length h)
|}.

Section demo.
#[local] Existing Instances release_build list_hdr.
Definition demo_metrics : ProxyMetrics := ProxyMetrics_new 10 Health.default_config Hot.demo_builders.
Definition demo_calls : list call :=
  [IncrementActive; RecordQuery (for_completed 0 5000) 5000 true;
   RecordQuery (for_completed 0 7000) 7000 false].

End demo.

(** A backend whose every query fails is not reported when none failed before:
    a baseline of zero is never compared against. *)
Example error_spike_from_zero_unseen :
  let h := Health.monitor Health.default_config []
             (Health.baseline_ f64_zero (f64_of 1) f64_zero (f64_lit 1 10) 5) 0 in
  Health.get_status <$> Health.check_and_update (H := release_build) h
    (Health.snapshot (f64_of 1) (f64_of 1) f64_zero 10 5 5) 1 = Ret CB.Healthy.
Proof. vm_compute. reflexivity. Qed.
End Metrics.
