(* ===== verification/Progress.v ===== *)
(** * The pooled handler always answers
      (proxy/connection.rs, [handle_with_managed_connection])

    The theorems of [Handler] say what a step does when it returns.  Here it is
    shown that steps do return, through whole sessions, for the traffic the
    handler is made for: clients that send well-formed messages, cut into reads
    in any way, with ASCII statements whose parentheses do not close before they
    open and without textual bytea parameters; and backends whose reads are
    whole messages. *)

From S2P Require Import Prelude RustStr CommandDetector ConnState Wire Extractor AuthMessages StmtCache Bind Modes Handler.

Module Progress.
Import BindParams Handler Detector.

(** ** The traffic *)
Section traffic.
Context `{Unicode}.

Definition tame_statement (q : bytes) : bool :=
  forallb Str.is_ascii q && parens_ordered (Str.to_uppercase (Str.trim q)).
Definition tame_sql (q : bytes) : bool := forallb tame_statement (q :: split_statements q).

Definition tame_message (m : Message) : bool :=
  match m with
  | Query q => tame_sql q
  | Parse _ q oids => tame_sql q && bool_decide (BYTEA ∉ oids)
  | _ => true
  end.

(** A frame a client sends: one of the seven messages the proxy reads, or a message
    of another kind (Describe, Flush, the messages of COPY), with any payload. *)
Definition other_kind (t : byte) : bool :=
  negb (existsb (beqb t) [MSG_QUERY; MSG_PARSE; MSG_BIND; MSG_EXECUTE; MSG_CLOSE; MSG_SYNC; MSG_TERMINATE]).
Definition sendable (f : byte * bytes) : Prop :=
  Ext.valid_frame f ∧
  (other_kind f.1 = true
   ∨ ∃ m, f = (Ext.type_of m, Ext.payload_of m) ∧ Ext.wf_message m = true ∧ tame_message m = true).

(** [talks fb es]: a session whose client has [fb] of a message under way. *)
Inductive talks : bytes → list event → Prop :=
| talks_nil fb : talks fb []
| talks_client fb now data fs tl es :
    fb ++ data = frames fs ++ tl → Ext.incomplete tl → Forall sendable fs →
    talks tl es → talks fb (ClientData now data :: es)
| talks_backend fb fs es :
    Forall Ext.backend_frame fs → zlen (frames fs) < 2 ^ 63 → talks fb es →
    talks fb (BackendData (frames fs) :: es)
| talks_other fb e es :
    e = ClientClosed ∨ e = BackendClosed ∨ (∃ now, e = Deadline now) → talks fb es → talks fb (e :: es).
End traffic.

Abbreviation total m := (∃ r, m = Ret r).

Lemma total_bind {A B} (m : outcome A) (f : A → outcome B) :
  total m → (∀ a, m = Ret a → total (f a)) → total (m ≫= f).
Proof. intros [a ->] Hf. simpl. by apply Hf. Qed.

(** ** Statements *)
Section statements.
Context `{Unicode}.

Lemma tame_detect q : tame_statement q = true → total (detect q).
Proof.
  unfold tame_statement. intros [Ha Hp]%andb_true_iff. apply detect_total; [|done].
  apply forallb_True. by rewrite Ha.
Qed.

Lemma tame_classify q : tame_statement q = true → total (classify q).
Proof.
  intros Hq. unfold classify. apply total_bind; [by apply tame_detect|]. intros [d|] _; eauto.
Qed.

Lemma tame_apply_query s q : tame_sql q = true → total (CS.apply_query s q).
Proof.
  unfold tame_sql. cbn [forallb]. intros [Hq Hs]%andb_true_iff. unfold CS.apply_query.
  assert (Hone : ∀ s p, tame_statement p = true → total (CS.apply_single_statement s p)).
  { intros s' p Hp. unfold CS.apply_single_statement. destruct (tame_classify p Hp) as [c ->].
    simpl. eauto. }
  assert (Hall : ∀ l s, forallb tame_statement l = true → total (ofoldl CS.apply_single_statement s l)).
  { intros l. induction l as [|p l IH]; intros s' Hl; simpl; [eauto|].
    apply andb_true_iff in Hl as [Hp Hl]. apply total_bind; [by apply Hone|]. intros; by apply IH. }
  destruct (split_statements q); [by apply Hone|by apply Hall].
Qed.

Lemma tame_validate mode q b : tame_sql q = true → total (Modes.validate mode q b).
Proof.
  unfold tame_sql. cbn [forallb]. intros [Hq _]%andb_true_iff. unfold Modes.validate.
  case_match; [eauto|]. apply total_bind; [by apply tame_detect|]. eauto.
Qed.
End statements.

(** ** The cache never holds a statement with a bytea parameter *)
Definition tame_cache (c : StmtCache) : Prop :=
  map_Forall (λ _ st, BYTEA ∉ Cache.ps_param_oids st) (Cache.statements c).

Lemma evict_subset (max : nat) (m : gmap bytes Cache.PreparedStatement) lru : (Cache.evict max m lru).1 ⊆ m.
Proof.
  revert m. induction lru as [|x lru IH]; intros m; simpl; [by case_match|].
  case_match; [|done]. etrans; [apply IH|]. apply delete_subseteq.
Qed.

Lemma tame_insert name stmt c :
  BYTEA ∉ Cache.ps_param_oids stmt → tame_cache c →
  tame_cache (Cache.insert_statement name stmt c).
Proof.
  intros Hs Hc. unfold tame_cache, Cache.insert_statement. simpl.
  apply map_Forall_insert_2; [done|]. intros k st Hk. apply (Hc k).
  eapply lookup_weaken; [exact Hk|apply evict_subset].
Qed.

Lemma no_bytea_default (oids : list Z) (i : nat) : BYTEA ∉ oids → default 0 (oids !! i) ≠ BYTEA.
Proof.
  intros Hn. destruct (oids !! i) as [o|] eqn:Ho; simpl; [|done].
  intros ->. apply Hn. by eapply list_elem_of_lookup_2.
Qed.

(** ** Messages *)
Section handler.
Context `{Build} `{Unicode} `{FloatParser} (cfg : Config).

Lemma on_message_total i s m :
  tame_message m = true → tame_cache (stmt_cache s) →
  ∃ s' acts v, on_message cfg i s m = Ret (s', acts, v) ∧ tame_cache (stmt_cache s') ∧
               extractor s' = extractor s.
Proof.
  intros Hm Hc. destruct m as [q|n q o|portal st codes ps|p|k n| |]; cbn [on_message tame_message] in *.
  - unfold on_query. destruct (tame_validate (mode cfg) q
      (Modes.is_in_transaction (txn_tracker s)) Hm) as [[err|] ->]; cbn [mbind outcome_bind]; [by eauto 6|].
    destruct (tame_apply_query (conn_state s) q Hm) as [cs ->]. cbn. by eauto 6.
  - apply andb_true_iff in Hm as [Hm Ho%bool_decide_eq_true]. unfold on_parse.
    destruct (tame_validate (mode cfg) q (Modes.is_in_transaction (txn_tracker s)) Hm) as [[err|] ->];
      cbn [mbind outcome_bind]; [by eauto 6|]. unfold CS.apply_parse_state.
    destruct (tame_apply_query (conn_state s) q Hm) as [cs ->]. cbn [mbind outcome_bind].
    eexists _, _, _. split_and!; [done| |done]. by apply (tame_insert n).
  - unfold on_bind. unfold Cache.get_statement.
    destruct (Cache.statements (stmt_cache s) !! st) as [stmt|] eqn:Hst.
    + destruct (decode_from_total 0 ps codes (Cache.ps_param_oids stmt)) as (vs & Hvs & _).
      { intros j. left. apply no_bytea_default. by apply (Hc st). }
      unfold decode_params. rewrite Hvs. cbn. by eauto 6.
    + cbn. by eauto 6.
  - by eauto 6.
  - unfold on_close. eexists _, _, _. split; [done|]. destruct (beqb k x53); simpl.
    + split; [|done]. unfold tame_cache. simpl. by apply map_Forall_delete.
    + by destruct (beqb k x50).
  - by eauto 6.
  - by eauto 6.
Qed.

Lemma process_messages_total i s ms :
  Forall (λ m, tame_message m = true) ms → tame_cache (stmt_cache s) →
  ∃ s' acts v, process_messages cfg i s ms = Ret (s', acts, v) ∧ tame_cache (stmt_cache s') ∧
               extractor s' = extractor s.
Proof.
  intros Hms. revert i s. induction Hms as [|m ms Hm _ IH]; intros i s Hc; simpl; [by eauto 6|].
  destruct (on_message_total i s m Hm Hc) as (s1 & a1 & v1 & -> & Hc1 & He1).
  cbn [mbind outcome_bind fst snd]. destruct v1; [|by eauto 6|by eauto 6].
  destruct (IH (S i) s1 Hc1) as (s2 & a2 & v2 & -> & Hc2 & He2). cbn.
  eexists _, _, _. split_and!; [done|done|]. by rewrite He2.
Qed.

(** ** Reads *)
Lemma parse_other_kind t p : other_kind t = true → Ext.parse_message t p = Ret None.
Proof.
  unfold other_kind. cbn [existsb]. rewrite negb_true_iff, !orb_false_iff. intros Ht. unfold Ext.parse_message.
  destruct Ht as (-> & -> & -> & -> & -> & -> & -> & _). done.
Qed.

Lemma parse_all_sendable fs :
  Forall sendable fs → ∃ ms, Ext.parse_all fs = Ret ms ∧ Forall (λ m, tame_message m = true) ms.
Proof.
  induction 1 as [|[t p] fs [Hl Hf] _ (ms & IH & Hms)]; [by exists []|]. cbn [Ext.parse_all].
  destruct Hf as [Ho|(m & [= -> ->] & Hw & Hm)].
  - exists ms. cbn [fst] in Ho. by rewrite parse_other_kind, IH.
  - exists (m :: ms). rewrite Ext.parse_message_roundtrip; [|done|].
    + cbn [mbind outcome_bind]. rewrite IH. split; [done|by constructor].
    + unfold Ext.valid_frame, Ext.MAX_FRONTEND_MESSAGE_SIZE in Hl. simpl in Hl. unfold two64. lia.
Qed.

Lemma on_client_data_total now s fb data fs tl :
  Ext.frontend_buffer (extractor s) = Some fb → tame_cache (stmt_cache s) →
  fb ++ data = frames fs ++ tl → Ext.incomplete tl → Forall sendable fs →
  ∃ acts o, on_client_data cfg now s data = Ret (acts, o) ∧
    ∀ s', o = Some s' → tame_cache (stmt_cache s') ∧ Ext.frontend_buffer (extractor s') = Some tl.
Proof.
  intros Hfb Hc Heq Htl Hfs. unfold on_client_data.
  rewrite (Ext.extract_messages_frames _ fb data fs tl Hfb Heq);
    [|eapply Forall_impl; [exact Hfs|by intros f []]|done].
  destruct (parse_all_sendable fs Hfs) as (ms & -> & Hms). cbn [mbind outcome_bind fst snd].
  destruct (process_messages_total 0 (mk {| Ext.buffer := Ext.buffer (extractor s);
      Ext.frontend_buffer := Some tl |} (stmt_cache s) (txn_tracker s) (conn_state s) (query_deadline s)) ms Hms)
    as (s1 & a1 & v1 & -> & Hc1 & He1); [done|].
  cbn [mbind outcome_bind fst snd]. destruct v1; (eexists _, _; split; [done|]);
    intros s' [= <-]; simpl; by rewrite He1.
Qed.

Lemma error_loop_total fs fuel :
  Forall (λ f, 4 + zlen f.2 < 2 ^ 31) fs → (length fs < fuel)%nat →
  total (Ext.error_loop fuel (frames fs)).
Proof.
  intros Hfs. revert fuel. induction Hfs as [|[t p] fs Hl _ IH]; intros [|fuel] Hf;
    simpl in Hf; try lia; [simpl; eauto|].
  rewrite frames_cons. cbn [Ext.error_loop]. pose proof (zlen_nonneg p). pose proof (zlen_nonneg (frames fs)).
  rewrite zlen_app, zlen_frame. rewrite (proj2 (Z.ltb_ge _ _)) by lia.
  change (at_ (frame t p ++ _) 0) with (Ret t). cbn [mbind outcome_bind].
  rewrite Ext.i32_at_frame by done. cbn [fmap outcome_fmap mbind outcome_bind].
  simpl in Hl. rewrite Ext.as_usize_small by (unfold two64; lia). rewrite Ext.drop_header.
  rewrite u64_sub_fits by (unfold two64; lia). cbn [mbind outcome_bind].
  rewrite zlen_app, (proj2 (Z.leb_le _ _)) by lia.
  assert (Hs : sub (p ++ frames fs) 0 (4 + zlen p - 4) = Ret p).
  { apply (sub_app [] p (frames fs)); autorewrite with scry_len; simpl; lia. }
  rewrite Hs. cbn [mbind outcome_bind]. case_match; [eauto|]. case_match; [|eauto].
  replace (Z.to_nat (4 + zlen p - 4)) with (length p) by (unfold zlen; lia).
  rewrite drop_app_length. apply IH. lia.
Qed.

Lemma find_error_total fs :
  Forall Ext.backend_frame fs → total (Ext.extract_error (frames fs)).
Proof.
  intros Hfs. assert (Hf : total (Ext.find_error_fields (frames fs))).
  { unfold Ext.find_error_fields. pose proof (Ext.length_frames_le fs).
    destruct (frames fs) eqn:Heq; [eauto|]. rewrite <-Heq in *. apply error_loop_total; [|lia].
    eapply Forall_impl; [exact Hfs|]. by intros f []. }
  destruct Hf as [[f|] Hf]; unfold Ext.extract_error; rewrite Hf; simpl; eauto.
Qed.

Lemma on_backend_data_total s fs :
  Forall Ext.backend_frame fs → zlen (frames fs) < 2 ^ 63 → tame_cache (stmt_cache s) →
  ∃ acts o, on_backend_data cfg s (frames fs) = Ret (acts, o) ∧
    ∀ s', o = Some s' → tame_cache (stmt_cache s') ∧
                        Ext.frontend_buffer (extractor s') = Ext.frontend_buffer (extractor s).
Proof.
  intros Hfs Hl Hc.
  assert (Hcomp : ∃ acts s1, on_completion s (frames fs) = Ret (acts, s1) ∧
    tame_cache (stmt_cache s1) ∧ extractor s1 = extractor s).
  { unfold on_completion. destruct (find_error_total fs Hfs) as [[msg|] ->]; cbn [mbind outcome_bind].
    - unfold Cache.take_pending. case_match; (eexists _, _; split_and!; [done|exact Hc|done]).
    - pose proof (Ext.query_complete_exact fs [] ) as Hq. rewrite app_nil_r in Hq. rewrite Hq; [| |by left|done].
      + cbn [mbind outcome_bind]. destruct (_ || _); [|by eauto 6].
        unfold Cache.take_pending. case_match; (eexists _, _; split_and!; [done|exact Hc|done]).
      + eapply Forall_impl; [exact Hfs|]. by intros f []. }
  destruct Hcomp as (acts & s1 & Hcomp & Hc1 & He1). unfold on_backend_data. rewrite Hcomp.
  cbn [mbind outcome_bind fst snd].
  pose proof (Ext.ready_loop_frames fs [] [] None (S (length (frames fs)))) as Hr.
  rewrite app_nil_r, app_nil_l in Hr. change (zlen []) with 0 in Hr.
  unfold Ext.extract_ready_for_query.
  rewrite Hr; [|done|by left|done|pose proof (Ext.length_frames_le fs); lia].
  cbn [mbind outcome_bind]. destruct (Ext.last_ready None fs) as [st|]; simpl.
  - case_match; (eexists _, _; split; [done|]); intros s' [= <-]; simpl; by rewrite He1.
  - eexists _, _. split; [done|]. intros s' [= <-]. simpl. by rewrite He1.
Qed.

Lemma run_total fb es s :
  talks fb es → Ext.frontend_buffer (extractor s) = Some fb → tame_cache (stmt_cache s) →
  ∃ acts o, run cfg s es = Ret (acts, o).
Proof.
  intros Ht. revert s. induction Ht as [fb|fb now data fs tl es Heq Htl Hfs _ IH|fb fs es Hfs Hl _ IH
    |fb e es He _ IH]; intros s Hfb Hc.
  - simpl. eauto.
  - cbn [run step]. destruct (on_client_data_total now s fb data fs tl Hfb Hc Heq Htl Hfs)
      as (acts & [s'|] & -> & Hn); cbn [mbind outcome_bind fst snd]; [|eauto].
    destruct (Hn s' eq_refl) as [Hc' Hfb']. destruct (IH s' Hfb' Hc') as (a' & o' & ->). simpl. eauto.
  - cbn [run step]. destruct (on_backend_data_total s fs Hfs Hl Hc)
      as (acts & [s'|] & -> & Hn); cbn [mbind outcome_bind fst snd]; [|eauto].
    destruct (Hn s' eq_refl) as [Hc' Hfb']. rewrite Hfb in Hfb'.
    destruct (IH s' Hfb' Hc') as (a' & o' & ->). simpl. eauto.
  - destruct (IH s Hfb Hc) as (a' & o' & Hr).
    destruct He as [-> | [-> | [now ->]]]; cbn [run step]; [simpl; eauto|simpl; eauto|].
    case_match; simpl; [eauto|]. rewrite Hr. simpl. eauto.
Qed.
End handler.


(** ** A concrete session *)
#[local] Existing Instance release_build.
#[local] Existing Instance no_floats.
#[local] Existing Instance ascii_tables.

(** A query in two reads, the second with a Flush behind it, and its answer. *)
Definition flush : bytes := frame x48 [].
Definition session : list event :=
  [ClientData 1 (take 7 (query "BEGIN")); ClientData 2 (drop 7 (query "BEGIN") ++ flush);
   BackendData (ready x54); ClientClosed].

End Progress.
