(* ===== verification/WaitQueue.v ===== *)
(** * The bounded wait queue (proxy/wait_queue.rs)

    Each waiter has a one-shot channel: its sender is in the queue, its receiver
    in the [Waiter] that the client holds.  A waiter is named by the number of
    its enqueueing.  [live] are the waiters not yet dropped, [notified] the ones
    whose channel has been sent to while they were live; [wait] returns when its
    waiter is notified, and a sender is only dropped after it has been used. *)

From S2P Require Import Prelude.

Module WQ.

Record WaitQueue : Type := mk {
  max_depth : nat;
  depth : Z;
  waiters : list nat;
  live : gset nat;
  notified : gset nat;
  next : nat
}.

Definition new (max : nat) : WaitQueue := mk max 0 [] ∅ ∅ 0.

(** [None] is [QueueFullError]. *)
Definition enqueue (q : WaitQueue) : option nat * WaitQueue :=
  if decide (max_depth q ≤ length (waiters q))%nat then (None, q)
  else (Some (next q),
        mk (max_depth q) (atomic_add two64 (depth q) 1) (waiters q ++ [next q])
           ({[next q]} ∪ live q) (notified q) (S (next q))).

(** Sending to a waiter that is gone has no effect. *)
Definition notify_one (q : WaitQueue) : WaitQueue :=
  match waiters q with
  | [] => q
  | w :: ws =>
      mk (max_depth q) (depth q) ws (live q)
         (if decide (w ∈ live q) then {[w]} ∪ notified q else notified q) (next q)
  end.

(** [Drop for Waiter]: after the wait, or when the wait timed out. *)
Definition drop_waiter (w : nat) (q : WaitQueue) : WaitQueue :=
  mk (max_depth q) (atomic_add two64 (depth q) (-1)) (waiters q) (live q ∖ {[w]}) (notified q)
     (next q).

(** ** Histories *)
Inductive op : Type := Enqueue | Notify | Drop (w : nat).

(** A waiter is dropped once. *)
Definition step (q : WaitQueue) (o : op) : option WaitQueue :=
  match o with
  | Enqueue => Some (enqueue q).2
  | Notify => Some (notify_one q)
  | Drop w => if decide (w ∈ live q) then Some (drop_waiter w q) else None
  end.

Inductive reachable (max : nat) : WaitQueue → list nat → Prop :=
| reachable_new : reachable max (new max) []
| reachable_step q popped o q' :
    reachable max q popped → step q o = Some q' →
    reachable max q' (popped ++ match o with Notify => take 1 (waiters q) | _ => [] end).

Record inv (max : nat) (q : WaitQueue) (popped : list nat) : Prop := {
  inv_max : max_depth q = max;
  inv_bound : (length (waiters q) ≤ max)%nat;
  inv_depth : depth q = Z.of_nat (size (live q));
  inv_order : popped ++ waiters q = seq 0 (next q);
  inv_live : ∀ w, w ∈ live q → (w < next q)%nat;
  inv_next : Z.of_nat (next q) < two64
}.

Lemma size_below (X : gset nat) (n : nat) : (∀ w, w ∈ X → (w < n)%nat) → (size X ≤ n)%nat.
Proof.
  intros HX. rewrite <-(length_seq n 0), <-(size_list_to_set (C := gset nat)) by apply NoDup_seq.
  apply subseteq_size. intros w Hw%HX. apply elem_of_list_to_set, elem_of_seq. lia.
Qed.

Lemma reachable_inv max q popped :
  reachable max q popped → Z.of_nat (next q) < two64 → inv max q popped.
Proof.
  induction 1 as [|q popped o q' _ IH Hs]; intros Hn.
  - split; simpl; try done; lia.
  - assert (Hle : (next q ≤ next q')%nat).
    { destruct o; simpl in Hs; [|unfold notify_one in Hs; case_match|case_decide]; simplify_eq/=; try done.
      unfold enqueue. case_decide; simpl; lia. }
    destruct IH as [Hm Hb Hd Ho Hl _]; [lia|].
    destruct o as [| |w]; simpl in Hs.
    + injection Hs as <-. rewrite app_nil_r. unfold enqueue in *. case_decide; simpl in *; [by split|].
      assert (next q ∉ live q) by (intros Hin%Hl; lia).
      pose proof (size_below (live q) (next q) Hl).
      split; simpl; [done| | | | |done].
      * rewrite length_app. simpl. lia.
      * rewrite Hd, size_union, size_singleton by set_solver. unfold atomic_add, two64 in *.
        rewrite Z.mod_small; lia.
      * rewrite app_assoc, Ho. symmetry. apply (seq_S (next q) 0).
      * intros w [->%elem_of_singleton|Hw%Hl]%elem_of_union; lia.
    + injection Hs as <-. unfold notify_one in *. destruct (waiters q) as [|w ws] eqn:Hw; simpl in *.
      * rewrite app_nil_r. by split; rewrite ?Hw.
      * split; simpl; try done; [lia|]. rewrite <-app_assoc. done.
    + case_decide as Hw; [|done]. injection Hs as <-. rewrite app_nil_r. simpl in *.
      assert (Hsz : (0 < size (live q))%nat).
      { destruct (size (live q)) eqn:He; [|lia]. apply size_empty_inv in He. set_solver. }
      pose proof (size_below (live q) (next q) Hl).
      split; simpl; try done.
      * rewrite Hd. unfold atomic_add, two64 in *.
        rewrite size_difference by set_solver. rewrite size_singleton, Z.mod_small; lia.
      * intros v Hv. apply Hl. set_solver.
Qed.

(** The queue never holds more than [max_depth] waiters, the depth it
    reports is the number of waiters that exist, and it is strictly first in
    first out: the waiters taken out of it so far and the ones still in it are
    all waiters ever admitted, in the order they came. *)
Lemma wait_queue_fifo max q popped :
  reachable max q popped → Z.of_nat (next q) < two64 →
  (length (waiters q) ≤ max)%nat ∧ depth q = Z.of_nat (size (live q)) ∧
  popped ++ waiters q = seq 0 (next q).
Proof. intros Hr Hn. destruct (reachable_inv max q popped Hr Hn). done. Qed.

(** A notification wakes the waiter that has been in the queue longest,
    provided that one is still waiting; if it has given up, the notification is
    used up and wakes nobody. *)
Lemma notify_wakes_oldest q w ws :
  waiters q = w :: ws →
  waiters (notify_one q) = ws ∧
  (w ∈ live q → notified (notify_one q) = {[w]} ∪ notified q) ∧
  (w ∉ live q → notified (notify_one q) = notified q).
Proof.
  intros Hw. unfold notify_one. rewrite Hw. simpl. split_and!; [done| |]; intros Hl.
  - by rewrite decide_True.
  - by rewrite decide_False.
Qed.

(** ** Concrete runs *)
(** The first waiter times out, the second one waits on; the next notification
    goes to the first and is lost. *)
Example lost_wakeup :
  let q := drop_waiter 0 (enqueue (enqueue (new 2)).2).2 in
  notified (notify_one q) = ∅ ∧ waiters (notify_one q) = [1%nat] ∧ live q = {[1%nat]}.
Proof. vm_compute. done. Qed.

(** Waiters that gave up keep their places: the queue is full while nobody
    waits. *)
Example full_with_nobody_waiting :
  let q := drop_waiter 0 (enqueue (new 1)).2 in depth q = 0 ∧ (enqueue q).1 = None.
Proof. vm_compute. done. Qed.
End WQ.
