(* ===== verification/PoolManager.v ===== *)
(** * The pool manager (proxy/pool_manager.rs)

    Backend connections are named by numbers.  The underlying pool
    (proxy/tcp_pool.rs on top of the deadpool crate) is a parameter of the
    model: what the code relies on is that [get] hands out an idle connection or
    a new one (or fails), and that dropping a connection object puts the
    connection back among the idle ones.  Which connection [get] answers with is
    an argument of the operations, and the rules of [step] say which answers the
    pool may give; the pool may also discard an idle connection, as it does when
    recycling one fails.

    An acquisition that has to wait is split where the code awaits: [acquire]
    answers [Waiting], and [resume_notified] or [resume_timeout] ends it.  Time
    is in nanoseconds. *)

From S2P Require Import Prelude RustStr CommandDetector ConnState WaitQueue.

Module Pool.

#[local] Existing Instance CS.PinReason_eq_dec.

Record StickyConnectionInfo : Type := {
  pin_reasons : list CS.PinReason; last_used : Z; binding_id : Z
}.
Definition touch (now : Z) (i : StickyConnectionInfo) : StickyConnectionInfo :=
  {| pin_reasons := pin_reasons i; last_used := now; binding_id := binding_id i |}.

Record ManagedConnection : Type := {
  connection : option nat;
  client_id : Z;
  is_pinned : bool;
  mc_binding_id : option Z
}.

Record PoolManagerConfig : Type := { idle_unpin_secs : Z; wait_timeout_ms : Z }.

Record PoolManager : Type := mk {
  idle : gset nat;              (** connections the underlying pool holds *)
  sticky_map : gmap Z (nat * StickyConnectionInfo);
  wait_queue : WQ.WaitQueue;
  next_binding_id : Z;
  accepting : bool
}.

Definition new (max_depth : nat) : PoolManager := mk ∅ ∅ (WQ.new max_depth) 1 true.

Inductive AcquireError : Type := PoolError | QueueFull | WaitTimeout | Paused.
Inductive acquired : Type :=
| Got (c : ManagedConnection)
| Failed (e : AcquireError)
| Waiting (w : nat).

Definition with_idle (i : gset nat) (p : PoolManager) : PoolManager :=
  mk i (sticky_map p) (wait_queue p) (next_binding_id p) (accepting p).
Definition with_sticky (m : gmap Z (nat * StickyConnectionInfo)) (p : PoolManager) : PoolManager :=
  mk (idle p) m (wait_queue p) (next_binding_id p) (accepting p).
Definition with_queue (q : WQ.WaitQueue) (p : PoolManager) : PoolManager :=
  mk (idle p) (sticky_map p) q (next_binding_id p) (accepting p).
Definition with_next (n : Z) (p : PoolManager) : PoolManager :=
  mk (idle p) (sticky_map p) (wait_queue p) n (accepting p).
Definition with_accepting (b : bool) (p : PoolManager) : PoolManager :=
  mk (idle p) (sticky_map p) (wait_queue p) (next_binding_id p) b.

Definition notify (p : PoolManager) : PoolManager :=
  with_queue (WQ.notify_one (wait_queue p)) p.
(** The drop of a pooled connection. *)
Definition give_back (c : nat) (p : PoolManager) : PoolManager := with_idle ({[c]} ∪ idle p) p.
(** The pool's answer [c] to a [get]. *)
Definition check_out (c : nat) (p : PoolManager) : PoolManager := with_idle (idle p ∖ {[c]}) p.

(** ** Administration *)
Definition pause (p : PoolManager) : PoolManager := with_accepting false p.
Definition resume (p : PoolManager) : PoolManager := notify (with_accepting true p).
Definition is_accepting (p : PoolManager) : bool := accepting p.

(** ** Acquisition *)
Definition get_sticky_connection (client : Z) (p : PoolManager)
    : option ManagedConnection * PoolManager :=
  match sticky_map p !! client with
  | Some (c, info) =>
      (Some {| connection := Some c; client_id := client; is_pinned := true;
               mc_binding_id := Some (binding_id info) |},
       with_sticky (delete client (sticky_map p)) p)
  | None => (None, p)
  end.

Definition fresh_managed (client : Z) (c : nat) : ManagedConnection :=
  {| connection := Some c; client_id := client; is_pinned := false; mc_binding_id := None |}.

Definition wait_for_connection (p : PoolManager) : acquired * PoolManager :=
  match WQ.enqueue (wait_queue p) with
  | (None, q) => (Failed QueueFull, with_queue q p)
  | (Some w, q) => (Waiting w, with_queue q p)
  end.

(** [got]: what the pool answers. *)
Definition acquire (client : Z) (needs_sticky : bool) (got : option nat) (p : PoolManager)
    : acquired * PoolManager :=
  if negb (accepting p) then (Failed Paused, p)
  else
    let sticky := if needs_sticky then get_sticky_connection client p else (None, p) in
    match sticky with
    | (Some c, p) => (Got c, p)
    | (None, p) =>
        match got with
        | Some c => (Got (fresh_managed client c), check_out c p)
        | None => wait_for_connection p
        end
    end.

(** The waiter was notified, the pool is asked again, and the waiter is
    dropped on the way out. *)
Definition resume_notified (client : Z) (w : nat) (got : option nat) (p : PoolManager)
    : acquired * PoolManager :=
  match got with
  | Some c => (Got (fresh_managed client c),
               with_queue (WQ.drop_waiter w (wait_queue p)) (check_out c p))
  | None => (Failed PoolError, with_queue (WQ.drop_waiter w (wait_queue p)) p)
  end.
Definition resume_timeout (w : nat) (p : PoolManager) : acquired * PoolManager :=
  (Failed WaitTimeout, with_queue (WQ.drop_waiter w (wait_queue p)) p).

(** ** Giving connections back *)

(** One step: the code notifies a waiter just before [conn] is dropped at the end
    of the call, and a waiter that runs in between finds no connection yet; the step
    has the effects of the whole call. *)
Definition release (now : Z) (conn : ManagedConnection) (p : PoolManager) : PoolManager :=
  let client := client_id conn in
  notify
    (if is_pinned conn then
       match connection conn with
       | Some pooled =>
           match sticky_map p !! client with
           | Some (c, info) =>
               give_back pooled (with_sticky (<[client := (c, touch now info)]> (sticky_map p)) p)
           | None =>
               with_next (atomic_add two64 (next_binding_id p) 1)
                 (with_sticky (<[client := (pooled, {| pin_reasons := []; last_used := now;
                                                      binding_id := next_binding_id p |})]>
                                 (sticky_map p)) p)
           end
       | None => p
       end
     else match connection conn with Some pooled => give_back pooled p | None => p end).

(** A held connection dropped without [release], as every early return of the
    handler and an aborted task do: it goes back to the underlying pool, pinned or
    not, and nobody is notified. *)
Definition drop_connection (conn : ManagedConnection) (p : PoolManager) : PoolManager :=
  match connection conn with Some pooled => give_back pooled p | None => p end.
(** The drop of an acquisition that waits. *)
Definition abandon (w : nat) (p : PoolManager) : PoolManager :=
  with_queue (WQ.drop_waiter w (wait_queue p)) p.

Definition pin (now : Z) (client : Z) (reason : CS.PinReason) (conn : ManagedConnection)
    (p : PoolManager) : PoolManager :=
  match connection conn with
  | None => p
  | Some pooled =>
      match sticky_map p !! client with
      | Some (c, info) =>
          let reasons := if decide (reason ∈ pin_reasons info) then pin_reasons info
                         else pin_reasons info ++ [reason] in
          give_back pooled
            (with_sticky (<[client := (c, {| pin_reasons := reasons; last_used := now;
                                            binding_id := binding_id info |})]> (sticky_map p)) p)
      | None =>
          with_next (atomic_add two64 (next_binding_id p) 1)
            (with_sticky (<[client := (pooled, {| pin_reasons := [reason]; last_used := now;
                                                 binding_id := next_binding_id p |})]>
                            (sticky_map p)) p)
      end
  end.

Definition unpin (client : Z) (p : PoolManager) : PoolManager :=
  match sticky_map p !! client with
  | Some (c, _) => notify (give_back c (with_sticky (delete client (sticky_map p)) p))
  | None => p
  end.

Definition has_sticky (client : Z) (p : PoolManager) : bool :=
  bool_decide (is_Some (sticky_map p !! client)).
Definition get_sticky_info (client : Z) (p : PoolManager) : option StickyConnectionInfo :=
  snd <$> sticky_map p !! client.
Definition sticky_count (p : PoolManager) : nat := size (sticky_map p).

(** [Instant::duration_since] saturates at zero. *)
Definition expired (cfg : PoolManagerConfig) (now : Z) (i : StickyConnectionInfo) : bool :=
  idle_unpin_secs cfg * 1000000000 <? Z.max 0 (now - last_used i).

Fixpoint cleanup_clients (cfg : PoolManagerConfig) (now : Z) (clients : list Z) (cleaned : nat)
    (p : PoolManager) : nat * PoolManager :=
  match clients with
  | [] => (cleaned, p)
  | c :: clients =>
      match sticky_map p !! c with
      | Some (conn, info) =>
          if expired cfg now info
          then cleanup_clients cfg now clients (S cleaned)
                 (give_back conn (with_sticky (delete c (sticky_map p)) p))
          else cleanup_clients cfg now clients cleaned p
      | None => cleanup_clients cfg now clients cleaned p
      end
  end.

Fixpoint notify_n (n : nat) (p : PoolManager) : PoolManager :=
  match n with O => p | S n => notify_n n (notify p) end.

(** The candidates are collected under the read lock and checked again under
    the write lock; the order of a hash map's iteration is of no consequence. *)
Definition cleanup_idle (cfg : PoolManagerConfig) (now : Z) (p : PoolManager) : nat * PoolManager :=
  if idle_unpin_secs cfg =? 0 then (O, p)
  else
    let to_remove :=
      fst <$> filter (λ e, expired cfg now e.2.2 = true) (map_to_list (sticky_map p)) in
    let '(cleaned, p) := cleanup_clients cfg now to_remove O p in
    (cleaned, notify_n cleaned p).

(** ** The manager and its clients

    [held] are the connections that clients have, [waiting] the clients whose
    acquisition awaits a notification. *)
Record system : Type := Sys { pm : PoolManager; held : list ManagedConnection; waiting : list (Z * nat) }.

Inductive event : Type := Kept | Opened (c : nat) | Discarded (c : nat) | Resumed.

Definition sticky_conns (m : gmap Z (nat * StickyConnectionInfo)) : list nat :=
  (λ e : Z * (nat * StickyConnectionInfo), e.2.1) <$> map_to_list m.
Definition held_conns (l : list ManagedConnection) : list nat := omap connection l.
Definition conns (s : system) : list nat :=
  elements (idle (pm s)) ++ sticky_conns (sticky_map (pm s)) ++ held_conns (held s).

(** What happens to the caller of an acquisition. *)
Definition settle (client : Z) (r : acquired) (l : list ManagedConnection) (ws : list (Z * nat))
    : list ManagedConnection * list (Z * nat) :=
  match r with
  | Got c => (c :: l, ws)
  | Failed _ => (l, ws)
  | Waiting w => (l, (client, w) :: ws)
  end.

(** The pool answers a [get] with nothing, with an idle connection or with a
    connection that it opens. *)
Inductive answer (s : system) : option nat → event → Prop :=
| answer_none : answer s None Kept
| answer_idle c : c ∈ idle (pm s) → answer s (Some c) Kept
| answer_new c : c ∉ conns s → answer s (Some c) (Opened c).

Inductive step (cfg : PoolManagerConfig) : system → event → system → Prop :=
| step_acquire p l ws client needs got e r p' :
    answer (Sys p l ws) got e →
    (got = None ∨ accepting p = true ∧ (needs = true → sticky_map p !! client = None)) →
    acquire client needs got p = (r, p') →
    step cfg (Sys p l ws) e (Sys p' (settle client r l ws).1 (settle client r l ws).2)
| step_notified p l ws1 ws2 client w got e r p' :
    answer (Sys p l (ws1 ++ (client, w) :: ws2)) got e →
    w ∈ WQ.notified (wait_queue p) →
    resume_notified client w got p = (r, p') →
    step cfg (Sys p l (ws1 ++ (client, w) :: ws2)) e
      (Sys p' (settle client r l (ws1 ++ ws2)).1 (settle client r l (ws1 ++ ws2)).2)
| step_timeout p l ws1 ws2 client w :
    0 < wait_timeout_ms cfg →
    step cfg (Sys p l (ws1 ++ (client, w) :: ws2)) Kept
      (Sys (resume_timeout w p).2 l (ws1 ++ ws2))
| step_release p l1 l2 ws c now :
    step cfg (Sys p (l1 ++ c :: l2) ws) Kept (Sys (release now c p) (l1 ++ l2) ws)
| step_drop p l1 l2 ws c :
    step cfg (Sys p (l1 ++ c :: l2) ws) Kept (Sys (drop_connection c p) (l1 ++ l2) ws)
| step_abandon p l ws1 ws2 client w :
    step cfg (Sys p l (ws1 ++ (client, w) :: ws2)) Kept (Sys (abandon w p) l (ws1 ++ ws2))
| step_pin p l1 l2 ws c client reason now :
    step cfg (Sys p (l1 ++ c :: l2) ws) Kept (Sys (pin now client reason c p) (l1 ++ l2) ws)
| step_unpin p l ws client : step cfg (Sys p l ws) Kept (Sys (unpin client p) l ws)
| step_cleanup p l ws now : step cfg (Sys p l ws) Kept (Sys (cleanup_idle cfg now p).2 l ws)
| step_pause p l ws : step cfg (Sys p l ws) Kept (Sys (pause p) l ws)
| step_resume p l ws : step cfg (Sys p l ws) Resumed (Sys (resume p) l ws)
| step_discard p l ws c :
    c ∈ idle p → step cfg (Sys p l ws) (Discarded c) (Sys (with_idle (idle p ∖ {[c]}) p) l ws).

Inductive run (cfg : PoolManagerConfig) : system → list event → system → Prop :=
| run_nil s : run cfg s [] s
| run_snoc s es s1 e s2 : run cfg s es s1 → step cfg s1 e s2 → run cfg s (es ++ [e]) s2.

Definition opened (es : list event) : list nat :=
  omap (λ e, match e with Opened c => Some c | _ => None end) es.
Definition discarded (es : list event) : list nat :=
  omap (λ e, match e with Discarded c => Some c | _ => None end) es.

Definition start (max_depth : nat) : system := Sys (new max_depth) [] [].

(** ** Where connections are *)
Lemma sticky_conns_delete m k c i :
  m !! k = Some (c, i) → sticky_conns m ≡ₚ c :: sticky_conns (delete k m).
Proof.
  intros Hk. unfold sticky_conns. rewrite <-(insert_delete_id m k (c, i)) at 1 by done.
  by rewrite map_to_list_insert by apply lookup_delete_eq.
Qed.

Lemma sticky_conns_insert m k c i :
  m !! k = None → sticky_conns (<[k := (c, i)]> m) ≡ₚ c :: sticky_conns m.
Proof. intros Hk. unfold sticky_conns. by rewrite map_to_list_insert. Qed.

Lemma sticky_conns_update m k c i i' :
  m !! k = Some (c, i) → sticky_conns (<[k := (c, i')]> m) ≡ₚ sticky_conns m.
Proof.
  intros Hk. rewrite (sticky_conns_delete m k c i Hk), <-insert_delete_eq.
  apply sticky_conns_insert, lookup_delete_eq.
Qed.

Definition pool_conns (p : PoolManager) : list nat :=
  elements (idle p) ++ sticky_conns (sticky_map p).
Definition option_conn (c : ManagedConnection) : list nat := option_list (connection c).

Lemma conns_split p l ws : conns (Sys p l ws) = pool_conns p ++ held_conns l.
Proof. unfold conns, pool_conns. by rewrite <-app_assoc. Qed.

Lemma held_conns_cons c l : held_conns (c :: l) = option_conn c ++ held_conns l.
Proof. unfold held_conns, option_conn. simpl. by destruct (connection c). Qed.

Lemma held_conns_remove l1 c l2 :
  held_conns (l1 ++ c :: l2) ≡ₚ option_conn c ++ held_conns (l1 ++ l2).
Proof.
  assert (Happ : ∀ a b, held_conns (a ++ b) = held_conns a ++ held_conns b)
    by (intros; apply omap_app).
  rewrite !Happ, held_conns_cons, !app_assoc. apply Permutation_app_tail, Permutation_app_comm.
Qed.

Lemma pool_conns_idle p c : c ∈ idle p → c ∈ pool_conns p.
Proof. intros Hc. apply elem_of_app. left. by apply elem_of_elements. Qed.

Lemma give_back_conns c p : c ∉ idle p → pool_conns (give_back c p) ≡ₚ c :: pool_conns p.
Proof. intros Hc. unfold pool_conns. simpl. by rewrite elements_union_singleton. Qed.

Lemma check_out_conns c p : c ∈ idle p → c :: pool_conns (check_out c p) ≡ₚ pool_conns p.
Proof.
  intros Hc. unfold pool_conns. simpl.
  rewrite app_comm_cons, <-elements_union_singleton by set_solver.
  by rewrite <-union_difference_singleton_L.
Qed.

Lemma check_out_new c p : c ∉ idle p → check_out c p = p.
Proof.
  intros Hc. unfold check_out, with_idle. rewrite difference_disjoint_L by set_solver. by destruct p.
Qed.

(** A connection taken from the sticky map. *)
Lemma unstick_conns k c i p :
  sticky_map p !! k = Some (c, i) →
  c :: pool_conns (with_sticky (delete k (sticky_map p)) p) ≡ₚ pool_conns p.
Proof.
  intros Hk. unfold pool_conns. simpl. rewrite (sticky_conns_delete _ _ _ _ Hk).
  apply Permutation_middle.
Qed.

Lemma unstick_give_back k c i p :
  NoDup (pool_conns p) → sticky_map p !! k = Some (c, i) →
  pool_conns (give_back c (with_sticky (delete k (sticky_map p)) p)) ≡ₚ pool_conns p.
Proof.
  intros Hnd Hk. pose proof (unstick_conns k c i p Hk) as Hc. rewrite <-Hc in Hnd.
  rewrite give_back_conns; [done|]. apply NoDup_cons in Hnd as [Hn _].
  contradict Hn. by apply pool_conns_idle.
Qed.

(** A connection put into the sticky map, or back if the client has another. *)
Lemma stick_conns k c i n p :
  sticky_map p !! k = None →
  pool_conns (with_next n (with_sticky (<[k := (c, i)]> (sticky_map p)) p)) ≡ₚ c :: pool_conns p.
Proof.
  intros Hk. unfold pool_conns. simpl. rewrite (sticky_conns_insert _ _ _ _ Hk).
  symmetry. apply Permutation_middle.
Qed.

Lemma restick_give_back k c c' i i' p :
  c ∉ pool_conns p → sticky_map p !! k = Some (c', i) →
  pool_conns (give_back c (with_sticky (<[k := (c', i')]> (sticky_map p)) p)) ≡ₚ c :: pool_conns p.
Proof.
  intros Hc Hk. rewrite give_back_conns by (contradict Hc; by apply pool_conns_idle).
  unfold pool_conns. simpl. by rewrite (sticky_conns_update _ _ _ _ _ Hk).
Qed.

Lemma notify_conns p : pool_conns (notify p) = pool_conns p.
Proof. done. Qed.

Lemma release_conns now c p :
  NoDup (option_conn c ++ pool_conns p) →
  pool_conns (release now c p) ≡ₚ option_conn c ++ pool_conns p.
Proof.
  unfold release, option_conn. rewrite notify_conns.
  destruct (connection c) as [x|]; simpl; [intros [Hx _]%NoDup_cons|intros _; by case_match].
  destruct (is_pinned c).
  - destruct (sticky_map p !! client_id c) as [[c' i]|] eqn:Hk;
      [by apply restick_give_back with i|by apply stick_conns].
  - apply give_back_conns. contradict Hx. by apply pool_conns_idle.
Qed.

Lemma drop_conns c p :
  NoDup (option_conn c ++ pool_conns p) →
  pool_conns (drop_connection c p) ≡ₚ option_conn c ++ pool_conns p.
Proof.
  unfold drop_connection, option_conn. destruct (connection c) as [x|]; simpl; [|done].
  intros [Hx _]%NoDup_cons. apply give_back_conns. contradict Hx. by apply pool_conns_idle.
Qed.

Lemma pin_conns now client reason c p :
  NoDup (option_conn c ++ pool_conns p) →
  pool_conns (pin now client reason c p) ≡ₚ option_conn c ++ pool_conns p.
Proof.
  unfold pin, option_conn. destruct (connection c) as [x|]; simpl; [|done].
  intros [Hx _]%NoDup_cons. destruct (sticky_map p !! client) as [[c' i]|] eqn:Hk;
    [by apply restick_give_back with i|by apply stick_conns].
Qed.

Lemma unpin_conns client p : NoDup (pool_conns p) → pool_conns (unpin client p) ≡ₚ pool_conns p.
Proof.
  intros Hnd. unfold unpin. destruct (sticky_map p !! client) as [[c i]|] eqn:Hk; [|done].
  rewrite notify_conns. by apply unstick_give_back with i.
Qed.

Lemma cleanup_clients_conns cfg now clients n p :
  NoDup (pool_conns p) → pool_conns (cleanup_clients cfg now clients n p).2 ≡ₚ pool_conns p.
Proof.
  revert n p. induction clients as [|k clients IH]; intros n p Hnd; simpl; [done|].
  destruct (sticky_map p !! k) as [[c i]|] eqn:Hk; [|by apply IH].
  destruct (expired cfg now i); [|by apply IH].
  pose proof (unstick_give_back k c i p Hnd Hk) as Hp.
  rewrite IH; [done|]. by rewrite Hp.
Qed.

Lemma notify_n_conns n p : pool_conns (notify_n n p) = pool_conns p.
Proof. revert p. induction n as [|n IH]; intros p; simpl; [done|]. by rewrite IH. Qed.

Lemma cleanup_idle_conns cfg now p :
  NoDup (pool_conns p) → pool_conns (cleanup_idle cfg now p).2 ≡ₚ pool_conns p.
Proof.
  intros Hnd. unfold cleanup_idle. destruct (_ =? 0); [done|].
  pose proof (cleanup_clients_conns cfg now
    (fst <$> filter (λ e, expired cfg now e.2.2 = true) (map_to_list (sticky_map p))) 0 p Hnd) as Hc.
  destruct (cleanup_clients _ _ _ _ _) as [n q]. simpl in *. by rewrite notify_n_conns.
Qed.

(** The pool's answer to a [get]. *)
Lemma get_conns p l ws c e :
  answer (Sys p l ws) (Some c) e →
  c :: pool_conns (check_out c p) ≡ₚ opened [e] ++ pool_conns p ∧ discarded [e] = [].
Proof.
  inversion 1 as [|? Hc|? Hc]; subst; simpl; [by rewrite check_out_conns|].
  rewrite conns_split in Hc. rewrite check_out_new; [done|].
  contradict Hc. apply elem_of_app. left. by apply pool_conns_idle.
Qed.

Lemma acquire_conns p l ws client needs got e r p' :
  answer (Sys p l ws) got e →
  (got = None ∨ accepting p = true ∧ (needs = true → sticky_map p !! client = None)) →
  acquire client needs got p = (r, p') →
  pool_conns p' ++ held_conns (settle client r l ws).1 ++ discarded [e]
    ≡ₚ opened [e] ++ pool_conns p ++ held_conns l.
Proof.
  intros Han Hg Ha. destruct got as [c|].
  - destruct Hg as [[=]|[Hacc Hn]]. apply get_conns in Han as [Hp ->].
    assert (r = Got (fresh_managed client c) ∧ p' = check_out c p) as [-> ->].
    { unfold acquire in Ha. rewrite Hacc in Ha. simpl in Ha.
      destruct needs; [unfold get_sticky_connection in Ha; rewrite Hn in Ha by done|]; by simplify_eq. }
    simpl. rewrite app_nil_r, <-Permutation_middle, app_assoc, <-Hp. done.
  - inversion Han; subst. simpl. rewrite app_nil_r. unfold acquire, wait_for_connection in Ha.
    destruct (accepting p); simpl in Ha; [|by simplify_eq/=].
    assert (Hq : (let '(r, q) := match WQ.enqueue (wait_queue p) with
      | (None, q) => (Failed QueueFull, with_queue q p)
      | (Some w, q) => (Waiting w, with_queue q p) end in
      pool_conns q ++ held_conns (settle client r l ws).1) = pool_conns p ++ held_conns l)
      by (destruct (WQ.enqueue (wait_queue p)) as [[w|] q]; done).
    destruct needs; [|by rewrite Ha in Hq; rewrite Hq].
    unfold get_sticky_connection in Ha.
    destruct (sticky_map p !! client) as [[c i]|] eqn:Hk; [|by rewrite Ha in Hq; rewrite Hq].
    simplify_eq/=. rewrite <-(unstick_conns client c i p Hk). simpl. symmetry. apply Permutation_middle.
Qed.

Lemma resume_notified_conns p l ws ws' client w got e r p' :
  answer (Sys p l ws) got e → resume_notified client w got p = (r, p') →
  pool_conns p' ++ held_conns (settle client r l ws').1 ++ discarded [e]
    ≡ₚ opened [e] ++ pool_conns p ++ held_conns l.
Proof.
  intros Han Ha. destruct got as [c|].
  - apply get_conns in Han as [Hp ->]. injection Ha as <- <-. simpl.
    rewrite app_nil_r, <-Permutation_middle, app_assoc, <-Hp. done.
  - inversion Han; subst. injection Ha as <- <-. simpl. by rewrite app_nil_r.
Qed.

Lemma NoDup_part {A} (l k : list A) : NoDup (l ++ k) → NoDup k.
Proof. intros (_ & _ & Hk)%NoDup_app. done. Qed.

(** Giving up a held connection. *)
Lemma give_up_conns p p' l1 c l2 :
  NoDup (pool_conns p ++ held_conns (l1 ++ c :: l2)) →
  (NoDup (option_conn c ++ pool_conns p) → pool_conns p' ≡ₚ option_conn c ++ pool_conns p) →
  pool_conns p' ++ held_conns (l1 ++ l2) ≡ₚ pool_conns p ++ held_conns (l1 ++ c :: l2).
Proof.
  intros Hnd Hp. rewrite held_conns_remove in Hnd |- *.
  rewrite app_assoc in Hnd |- *. rewrite Hp by (rewrite Permutation_app_comm; by apply NoDup_app in Hnd as [? _]).
  apply Permutation_app_tail, Permutation_app_comm.
Qed.

Lemma step_conserves cfg s e s' :
  NoDup (conns s) → step cfg s e s' → conns s' ++ discarded [e] ≡ₚ opened [e] ++ conns s.
Proof.
  intros Hnd Hs. destruct Hs; rewrite !conns_split in *; rewrite <-?app_assoc.
  - by eapply acquire_conns.
  - by eapply resume_notified_conns.
  - simpl. by rewrite app_nil_r.
  - simpl. rewrite app_nil_r. apply give_up_conns; [done|apply release_conns].
  - simpl. rewrite app_nil_r. apply give_up_conns; [done|apply drop_conns].
  - simpl. by rewrite app_nil_r.
  - simpl. rewrite app_nil_r. apply give_up_conns; [done|apply pin_conns].
  - simpl. rewrite app_nil_r. apply NoDup_app in Hnd as (Hp & _). by rewrite unpin_conns.
  - simpl. rewrite app_nil_r. apply NoDup_app in Hnd as (Hp & _). by rewrite cleanup_idle_conns.
  - simpl. by rewrite app_nil_r.
  - simpl. by rewrite app_nil_r.
  - simpl. pose proof (check_out_conns c p H) as Hp. unfold check_out in Hp.
    rewrite <-Hp. simpl. rewrite Permutation_app_comm, <-app_assoc. simpl.
    rewrite (Permutation_app_comm (held_conns l)). done.
Qed.

Lemma opened_app es1 es2 : opened (es1 ++ es2) = opened es1 ++ opened es2.
Proof. apply omap_app. Qed.
Lemma discarded_app es1 es2 : discarded (es1 ++ es2) = discarded es1 ++ discarded es2.
Proof. apply omap_app. Qed.

Lemma step_opens_new cfg s c s' : step cfg s (Opened c) s' → c ∉ conns s.
Proof.
  inversion 1; subst;
    match goal with H : answer _ _ (Opened _) |- _ => by inversion H; subst end.
Qed.

Lemma step_NoDup cfg s e s' : NoDup (conns s) → step cfg s e s' → NoDup (conns s').
Proof.
  intros Hnd Hs. pose proof (step_conserves cfg s e s' Hnd Hs) as Hc.
  assert (Ho : NoDup (opened [e] ++ conns s)).
  { destruct e; simpl; try done. apply NoDup_cons. by split; [eapply step_opens_new|]. }
  rewrite <-Hc in Ho. by apply NoDup_app in Ho as [? _].
Qed.

(** C8. Custody of backend connections: after any sequence of acquisitions,
    waits, releases, drops, pins, unpins, clean-ups, pauses and resumptions, by
    any number of clients, the connections the pool has opened are exactly those it
    discarded and those that are idle, bound to a client or held by one; nothing
    is lost, and no connection is in two places or with two clients. *)
Theorem pool_custody cfg depth es s :
  run cfg (start depth) es s →
  conns s ++ discarded es ≡ₚ opened es ∧ NoDup (conns s).
Proof.
  remember (start depth) as s0 eqn:Hs0. induction 1 as [|s0 es s1 e s2 _ IH Hs]; subst.
  - split; [done|constructor].
  - destruct IH as [Hc Hnd]; [done|]. split; [|by eapply step_NoDup].
    pose proof (step_conserves cfg s1 e s2 Hnd Hs) as Hk.
    rewrite opened_app, discarded_app, (Permutation_app_comm (discarded es)), app_assoc, Hk.
    rewrite <-app_assoc, Hc. apply Permutation_app_comm.
Qed.

(** ** Pausing *)
Lemma cleanup_clients_accepting cfg now clients n p :
  accepting (cleanup_clients cfg now clients n p).2 = accepting p.
Proof.
  revert n p. induction clients as [|k clients IH]; intros n p; simpl; [done|].
  destruct (sticky_map p !! k) as [[c i]|]; [|apply IH].
  destruct (expired cfg now i); [|apply IH]. by rewrite IH.
Qed.

Lemma notify_n_accepting n p : accepting (notify_n n p) = accepting p.
Proof. revert p. induction n as [|n IH]; intros p; simpl; [done|]. by rewrite IH. Qed.

Lemma step_paused cfg s e s' :
  accepting (pm s) = false → e ≠ Resumed → step cfg s e s' →
  accepting (pm s') = false ∧
  (length (held s') + length (waiting s') ≤ length (held s) + length (waiting s))%nat.
Proof.
  intros Hacc He Hs. destruct Hs; simpl in *; rewrite ?length_app; simpl; try (split; [done|lia]).
  - unfold acquire in *. rewrite Hacc in *. simplify_eq/=. split; [done|lia].
  - unfold resume_notified in *. case_match; simplify_eq/=; rewrite !length_app; split; try done; lia.
  - split; [|lia]. unfold release. simpl. repeat case_match; done.
  - split; [|lia]. unfold drop_connection. by case_match.
  - split; [|lia]. unfold pin. repeat case_match; done.
  - split; [|lia]. unfold unpin. repeat case_match; done.
  - split; [|lia]. unfold cleanup_idle. destruct (_ =? 0); [done|].
    pose proof (cleanup_clients_accepting cfg now
      (fst <$> filter (λ e, expired cfg now e.2.2 = true) (map_to_list (sticky_map p))) 0 p) as Hc.
    destruct (cleanup_clients _ _ _ _ _) as [n q]. simpl in *. by rewrite notify_n_accepting, Hc.
Qed.

(** A paused pool drains: until it is resumed, whatever clients do, the
    connections they hold and the acquisitions that wait never grow in number
    (an acquisition that was waiting may still be served), and every new
    acquisition fails with [Paused] and changes nothing. *)
Lemma paused_pool_drains cfg s es s' client needs got :
  accepting (pm s) = false → Resumed ∉ es → run cfg s es s' →
  (length (held s') + length (waiting s') ≤ length (held s) + length (waiting s))%nat ∧
  acquire client needs got (pm s') = (Failed Paused, pm s').
Proof.
  intros Hacc Hes Hr.
  assert (accepting (pm s') = false ∧
    (length (held s') + length (waiting s') ≤ length (held s) + length (waiting s))%nat) as [Hp Hl].
  { induction Hr as [|s es s1 e s2 _ IH Hs]; [done|].
    destruct IH as [Hp Hl]; [done|set_solver|].
    apply step_paused in Hs as [Hp' Hl']; [|done|set_solver]. split; [done|lia]. }
  split; [done|]. unfold acquire. by rewrite Hp.
Qed.

(** ** Sticky connections *)

(** A pinned connection is kept for its client: whatever the pool would
    answer, the client's next sticky acquisition gets exactly the connection it
    pinned, marked as pinned, and leaves the bindings and the idle connections
    as they were before the pin. *)
Lemma pinned_connection_comes_back now client reason conn c got p :
  accepting p = true → connection conn = Some c → sticky_map p !! client = None →
  let r := acquire client true got (pin now client reason conn p) in
  r.1 = Got {| connection := Some c; client_id := client; is_pinned := true;
               mc_binding_id := Some (next_binding_id p) |} ∧
  sticky_map r.2 = sticky_map p ∧ idle r.2 = idle p.
Proof.
  intros Hacc Hc Hk. unfold pin. rewrite Hc, Hk. unfold acquire, get_sticky_connection. simpl.
  rewrite Hacc. simpl. rewrite lookup_insert_eq. simpl.
  by rewrite delete_insert_id.
Qed.

(** ** Clean-up of idle bindings *)
(** The bindings of [clients] that have expired. *)
Lemma cleanup_clients_spec cfg now clients n p :
  NoDup clients →
  (∀ k, k ∈ clients → ∃ c i, sticky_map p !! k = Some (c, i) ∧ expired cfg now i = true) →
  let r := cleanup_clients cfg now clients n p in
  r.1 = (n + length clients)%nat ∧
  sticky_map r.2 = filter (λ e, e.1 ∉ clients) (sticky_map p) ∧
  idle r.2 = idle p ∪ list_to_set (omap (λ k, fst <$> sticky_map p !! k) clients) ∧
  wait_queue r.2 = wait_queue p.
Proof.
  revert n p. induction clients as [|k clients IH]; intros n p Hnd Hex; simpl.
  - split_and!; [lia| |set_solver|done]. symmetry. apply map_filter_id. set_solver.
  - apply NoDup_cons in Hnd as [Hk Hnd].
    destruct (Hex k) as (c & i & Hl & He); [set_solver|]. rewrite Hl, He. simpl.
    destruct (IH (S n) (give_back c (with_sticky (delete k (sticky_map p)) p))) as (Hn & Hm & Hi & Hw).
    + done.
    + intros k' Hk'. simpl. rewrite lookup_delete_ne by set_solver. apply Hex. set_solver.
    + split_and!; [lia| | |done].
      * rewrite Hm. simpl. apply map_eq. intros k'. apply option_eq. intros e.
        rewrite !map_lookup_filter_Some, lookup_delete_Some. simpl. set_solver.
      * rewrite Hi. simpl.
        rewrite (list_omap_ext _ (λ k, fst <$> sticky_map p !! k) clients clients); [set_solver|].
        apply Forall_Forall2_diag, Forall_forall. intros k' Hk'.
        rewrite lookup_delete_ne by set_solver. done.
Qed.

Lemma notify_n_fields n p :
  sticky_map (notify_n n p) = sticky_map p ∧ idle (notify_n n p) = idle p ∧
  wait_queue (notify_n n p) = Nat.iter n WQ.notify_one (wait_queue p).
Proof.
  revert p. induction n as [|n IH]; intros p; simpl; [done|].
  destruct (IH (notify p)) as (-> & -> & ->). split_and!; [done..|].
  symmetry. apply (Nat.iter_succ_r n WQ.notify_one).
Qed.

Definition expired_clients (cfg : PoolManagerConfig) (now : Z)
    (m : gmap Z (nat * StickyConnectionInfo)) : list Z :=
  fst <$> filter (λ e, expired cfg now e.2.2 = true) (map_to_list m).

Lemma elem_of_expired_clients cfg now m k :
  k ∈ expired_clients cfg now m ↔ ∃ c i, m !! k = Some (c, i) ∧ expired cfg now i = true.
Proof.
  unfold expired_clients. rewrite list_elem_of_fmap. split.
  - intros ([k' [c i]] & -> & [He Hin]%list_elem_of_filter). exists c, i.
    by apply elem_of_map_to_list in Hin.
  - intros (c & i & Hl & He). exists (k, (c, i)). split; [done|].
    apply list_elem_of_filter. split; [done|]. by apply elem_of_map_to_list.
Qed.

Lemma NoDup_expired_clients cfg now m : NoDup (expired_clients cfg now m).
Proof.
  unfold expired_clients. apply NoDup_fmap_fst; [|apply NoDup_filter, NoDup_map_to_list].
  intros k e1 e2 [_ H1%elem_of_map_to_list]%list_elem_of_filter
    [_ H2%elem_of_map_to_list]%list_elem_of_filter. congruence.
Qed.

(** The bindings split into the expired and the others. *)
Lemma expired_clients_count cfg now m :
  size m = (length (expired_clients cfg now m) +
            size (filter (λ e, e.1 ∉ expired_clients cfg now m) m))%nat.
Proof.
  set (X := list_to_set (expired_clients cfg now m) : gset Z).
  rewrite <-!size_dom, <-(size_list_to_set (C := gset Z)) by apply NoDup_expired_clients. fold X.
  rewrite <-size_union.
  - f_equal. apply set_eq. intros k. rewrite elem_of_union, !elem_of_dom. unfold X.
    rewrite elem_of_list_to_set. split.
    + intros [e He]. destruct (decide (k ∈ expired_clients cfg now m)); [by left|right].
      exists e. by apply map_lookup_filter_Some.
    + intros [(c & i & Hl & _)%elem_of_expired_clients|[e [He _]%map_lookup_filter_Some]]; by eexists.
  - intros k Hk [e [_ He]%map_lookup_filter_Some]%elem_of_dom. apply He. simpl.
    by apply elem_of_list_to_set in Hk.
Qed.

(** The clean-up removes exactly the bindings idle for longer than the
    limit (none when the limit is zero), returns their connections to the pool,
    counts them, and notifies one waiter for each. *)
Lemma cleanup_idle_exact cfg now p :
  let r := cleanup_idle cfg now p in
  (idle_unpin_secs cfg = 0 → r = (0%nat, p)) ∧
  (0 < idle_unpin_secs cfg →
   (∀ k e, sticky_map r.2 !! k = Some e ↔
      sticky_map p !! k = Some e ∧ now - last_used e.2 ≤ idle_unpin_secs cfg * 1000000000) ∧
   (∀ c, c ∈ idle r.2 ↔ c ∈ idle p ∨
      ∃ k i, sticky_map p !! k = Some (c, i) ∧ idle_unpin_secs cfg * 1000000000 < now - last_used i) ∧
   size (sticky_map p) = (r.1 + size (sticky_map r.2))%nat ∧
   wait_queue r.2 = Nat.iter r.1 WQ.notify_one (wait_queue p)).
Proof.
  intros r. split; [intros H0; unfold r, cleanup_idle; by rewrite H0|]. intros Hlim.
  assert (Hexp : ∀ i, expired cfg now i = true ↔ idle_unpin_secs cfg * 1000000000 < now - last_used i)
    by (intros i; unfold expired; rewrite Z.ltb_lt; lia).
  unfold r, cleanup_idle. clear r. destruct (Z.eqb_spec (idle_unpin_secs cfg) 0) as [|_]; [lia|].
  fold (expired_clients cfg now (sticky_map p)).
  pose proof (cleanup_clients_spec cfg now (expired_clients cfg now (sticky_map p)) 0 p
    (NoDup_expired_clients _ _ _) (λ k, proj1 (elem_of_expired_clients cfg now _ k))) as Hc.
  destruct (cleanup_clients _ _ _ _ _) as [n q]. simpl in Hc |- *. destruct Hc as (-> & Hm & Hi & Hw).
  destruct (notify_n_fields (length (expired_clients cfg now (sticky_map p))) q) as (-> & -> & ->).
  rewrite Hm, Hi, Hw. split_and!; [| |apply expired_clients_count|done].
  - intros k e. rewrite map_lookup_filter_Some, elem_of_expired_clients. simpl. split.
    + intros [Hl Hn]. split; [done|]. destruct (Z.lt_ge_cases (idle_unpin_secs cfg * 1000000000)
        (now - last_used e.2)) as [Hlt|]; [|done].
      destruct Hn. exists e.1, e.2. rewrite Hexp. by destruct e.
    + intros [Hl Hle]. split; [done|]. intros (c & i & Hl' & Hx%Hexp). simplify_eq/=. lia.
  - intros c. rewrite elem_of_union, elem_of_list_to_set, list_elem_of_omap. f_equiv. split.
    + intros (k & (c' & i & Hl & Hx%Hexp)%elem_of_expired_clients & Hf). rewrite Hl in Hf.
      simplify_eq/=. by exists k, i.
    + intros (k & i & Hl & Hx%Hexp). exists k. rewrite Hl. split; [|done].
      apply elem_of_expired_clients. by exists c, i.
Qed.

(** ** Concrete runs *)
Definition cfg1 : PoolManagerConfig := {| idle_unpin_secs := 300; wait_timeout_ms := 30000 |}.
Definition client7 (c : nat) : ManagedConnection := fresh_managed 7 c.

(** Client 7 gets connection 0 and pins it for a temporary table. *)
Lemma pool_custody_witness :
  let s := Sys (pin 5 7 CS.TempTable (client7 0) (new 2)) [] [] in
  conns s ++ discarded [Opened 0%nat; Kept] ≡ₚ opened [Opened 0%nat; Kept] ∧ NoDup (conns s).
Proof.
  apply (pool_custody cfg1 2). apply (run_snoc cfg1 _ [Opened 0%nat] (Sys (new 2) [client7 0] [])).
  - apply (run_snoc cfg1 _ [] (start 2)); [constructor|].
    apply (step_acquire cfg1 (new 2) [] [] 7 false (Some 0%nat) _ (Got (client7 0)) (new 2)).
    + constructor. vm_compute. set_solver.
    + right. split; [reflexivity|intros [=]].
    + vm_compute. reflexivity.
  - apply (step_pin cfg1 (new 2) [] [] [] (client7 0) 7 CS.TempTable 5).
Defined.

(** Taking a sticky connection removes its entry, so that releasing it always
    goes through the branch meant for a logic error: the reasons for the pin
    are forgotten and the binding gets a new number. *)
Example sticky_release_forgets_reasons :
  let p := pin 5 7 CS.TempTable (client7 0) (new 2) in
  get_sticky_info 7 p = Some {| pin_reasons := [CS.TempTable]; last_used := 5; binding_id := 1 |} ∧
  match acquire 7 true None p with
  | (Got c, p) => get_sticky_info 7 (release 6 c p)
                    = Some {| pin_reasons := []; last_used := 6; binding_id := 2 |}
  | _ => False
  end.
Proof. vm_compute. split; reflexivity. Qed.

(** A client that holds a connection and has another one bound to it: pinning
    the held one adds the reason to the other's entry, and puts the connection
    that has the state among the idle ones. *)
Example second_pin_returns_connection :
  let p := pin 5 7 CS.TempTable (client7 0) (new 2) in
  let p := pin 6 7 CS.Cursor (client7 1) p in
  idle p = {[1%nat]} ∧
  get_sticky_info 7 p
    = Some {| pin_reasons := [CS.TempTable; CS.Cursor]; last_used := 6; binding_id := 1 |}.
Proof. vm_compute. split; reflexivity. Qed.

(** A waiter that is notified gets a connection although the pool was paused
    in the meantime. *)
Example waiter_served_while_paused :
  let p := (acquire 7 false None (new 2)).2 in
  accepting (pause p) = false ∧
  (resume_notified 7 0 (Some 3%nat) (notify (pause p))).1 = Got (client7 3).
Proof. vm_compute. split; reflexivity. Qed.

(** A session that ends with an error gives its connection back, but the client
    that waits is not told; after [release] it is. *)
Example dropped_connection_wakes_nobody :
  let p := (acquire 8 false None (new 2)).2 in
  idle (drop_connection (client7 0) p) = {[0%nat]} ∧
  WQ.notified (wait_queue (drop_connection (client7 0) p)) = ∅ ∧
  WQ.notified (wait_queue (release 5 (client7 0) p)) = {[0%nat]}.
Proof. vm_compute. split_and!; reflexivity. Qed.
End Pool.
