(* ===== verification/System.v ===== *)
(** * Sessions that share a pool (proxy/connection.rs, proxy/pool_manager.rs,
      proxy/server.rs)

    Any number of tasks, each the handler of [Handler] behind an acquisition from
    the manager of [PoolManager].  A step of the system is one await of one task:
    an acquisition, a wake-up, an event of the select loop, one action of it, the
    end of the task at any point (an error, an abort by KILL), or work of the pool
    itself.  The log names, for every read and write, the session and the backend
    connection it was made on.

    A read of zero or more bytes, a deadline or a closed connection is an event of
    the session; the bytes that a backend sends are those of the connection the
    session holds then.  The start-up exchange of [Lifetime] is one entry. *)

From S2P Require Import Prelude RustStr CommandDetector ConnState Bind Modes Handler WaitQueue PoolManager.

Module System.
Import BindParams Handler.
Abbreviation Sys := Pool.Sys.

(** ** Tasks *)

(** What a task does when its acquisition succeeds: nothing yet said, or an
    iteration of the loop to go on with. *)
Definition continuation : Type := option (option HandlerState * list action).

(** Waiting for a connection; holding one, before the start-up exchange; in the
    loop, with the actions of the last event still to do; in the loop, between the
    release of one connection and the acquisition of the next; ended. *)
Inductive phase : Type :=
| Opening (next : continuation)
| Starting
| Running (o : option HandlerState) (todo : list action)
| Between (o : option HandlerState) (needs_sticky : bool) (todo : list action)
| Gone.

Definition resume (next : continuation) : phase :=
  match next with None => Starting | Some (o, todo) => Running o todo end.
Definition after (next : continuation) (r : Pool.acquired) : phase :=
  match r with
  | Pool.Got _ => resume next
  | Pool.Failed _ => Gone
  | Pool.Waiting _ => Opening next
  end.
(** After a release: the loop goes on with an acquisition or the task is over. *)
Definition released (o : option HandlerState) (todo : list action) : phase :=
  match todo with Acquire needs :: todo => Between o needs todo | _ => Gone end.

Definition holding (ph : phase) : bool :=
  match ph with Starting | Running _ _ => true | _ => false end.
Definition opening (ph : phase) : bool :=
  match ph with Opening _ => true | _ => false end.

Record world : Type := World { sys : Pool.system; sessions : gmap Z phase }.

(** ** The log *)
Inductive entry : Type :=
| Opened (b : nat)
| Recycled (b : nat)
| Discarded (b : nat)
| Took (k : Z) (b : nat)
| StartedUp (k : Z) (b : nat)
| Happened (k : Z) (b : nat) (e : event)
| Did (k : Z) (b : nat) (a : action)
| Asked (k : Z) (needs_sticky : bool)
| Gave (k : Z) (b : nat) (left : option HandlerState).

(** An idle connection is recycled before it is handed out, a bound one is not.
    The entry [Recycled] stands for deadpool's documented behaviour, which calls
    [Manager::recycle] on every idle connection it hands out; what that call does
    is [Backend]'s subject. *)
Definition took (k : Z) (p : Pool.PoolManager) (r : Pool.acquired) : list entry :=
  match r with
  | Pool.Got mc =>
      match Pool.connection mc with
      | Some b =>
          (if Pool.is_pinned mc then []
           else [if decide (b ∈ Pool.idle p) then Recycled b else Opened b]) ++ [Took k b]
      | None => []
      end
  | _ => []
  end.

(** [k] holds connection [b]. *)
Definition holds (l : list Pool.ManagedConnection) (k : Z) (b : nat) : Prop :=
  ∃ mc, mc ∈ l ∧ Pool.client_id mc = k ∧ Pool.connection mc = Some b.

Definition plain (a : action) : bool :=
  match a with Release | Acquire _ => false | _ => true end.

Section system.
Context `{Build} `{Unicode} `{FloatParser} (cfg : Config) (pcfg : Pool.PoolManagerConfig).

(** ** Steps *)
Inductive step : world → list entry → world → Prop :=
| w_join p l ws ss k got e r p' :
    ss !! k = None →
    Pool.answer (Sys p l ws) got e →
    (got = None ∨ Pool.accepting p = true ∧
       (Pool.has_sticky k p = true → Pool.sticky_map p !! k = None)) →
    Pool.acquire k (Pool.has_sticky k p) got p = (r, p') →
    step (World (Sys p l ws) ss) (took k p r)
      (World (Sys p' (Pool.settle k r l ws).1 (Pool.settle k r l ws).2) (<[k := after None r]> ss))
| w_reacquire p l ws ss k o needs todo got e r p' :
    ss !! k = Some (Between o needs todo) →
    Pool.answer (Sys p l ws) got e →
    (got = None ∨ Pool.accepting p = true ∧ (needs = true → Pool.sticky_map p !! k = None)) →
    Pool.acquire k needs got p = (r, p') →
    step (World (Sys p l ws) ss) (Asked k needs :: took k p r)
      (World (Sys p' (Pool.settle k r l ws).1 (Pool.settle k r l ws).2)
         (<[k := after (Some (o, todo)) r]> ss))
| w_wake p l ws1 ws2 ss k w next got e r p' :
    ss !! k = Some (Opening next) →
    Pool.answer (Sys p l (ws1 ++ (k, w) :: ws2)) got e →
    w ∈ WQ.notified (Pool.wait_queue p) →
    Pool.resume_notified k w got p = (r, p') →
    step (World (Sys p l (ws1 ++ (k, w) :: ws2)) ss) (took k p r)
      (World (Sys p' (Pool.settle k r l (ws1 ++ ws2)).1 (Pool.settle k r l (ws1 ++ ws2)).2)
         (<[k := after next r]> ss))
| w_timeout p l ws1 ws2 ss k w next :
    ss !! k = Some (Opening next) → 0 < Pool.wait_timeout_ms pcfg →
    step (World (Sys p l (ws1 ++ (k, w) :: ws2)) ss) []
      (World (Sys (Pool.resume_timeout w p).2 l (ws1 ++ ws2)) (<[k := Gone]> ss))
| w_begin s ss k b :
    ss !! k = Some Starting → holds (Pool.held s) k b →
    step (World s ss) [StartedUp k b]
      (World s (<[k := Running (Some (Handler.start cfg)) []]> ss))
| w_event s ss k b hs e acts o :
    ss !! k = Some (Running (Some hs) []) → holds (Pool.held s) k b →
    Handler.step cfg hs e = Ret (acts, o) →
    step (World s ss) [Happened k b e] (World s (<[k := Running o acts]> ss))
| w_act s ss k b o a todo :
    ss !! k = Some (Running o (a :: todo)) → holds (Pool.held s) k b → plain a = true →
    step (World s ss) [Did k b a] (World s (<[k := Running o todo]> ss))
| w_release p l1 l2 ws ss mc b now o todo :
    let k := Pool.client_id mc in
    ss !! k = Some (Running o (Release :: todo)) → Pool.connection mc = Some b →
    step (World (Sys p (l1 ++ mc :: l2) ws) ss) [Did k b Release; Gave k b o]
      (World (Sys (Pool.release now mc p) (l1 ++ l2) ws) (<[k := released o todo]> ss))
| w_drop p l1 l2 ws ss mc b ph :
    let k := Pool.client_id mc in
    ss !! k = Some ph → holding ph = true → Pool.connection mc = Some b →
    step (World (Sys p (l1 ++ mc :: l2) ws) ss) [Gave k b None]
      (World (Sys (Pool.drop_connection mc p) (l1 ++ l2) ws) (<[k := Gone]> ss))
| w_abandon p l ws1 ws2 ss k w next :
    ss !! k = Some (Opening next) →
    step (World (Sys p l (ws1 ++ (k, w) :: ws2)) ss) []
      (World (Sys (Pool.abandon w p) l (ws1 ++ ws2)) (<[k := Gone]> ss))
| w_leave s ss k o needs todo :
    ss !! k = Some (Between o needs todo) → step (World s ss) [] (World s (<[k := Gone]> ss))
| w_cleanup p l ws ss now :
    step (World (Sys p l ws) ss) [] (World (Sys (Pool.cleanup_idle pcfg now p).2 l ws) ss)
| w_pause p l ws ss : step (World (Sys p l ws) ss) [] (World (Sys (Pool.pause p) l ws) ss)
| w_resume p l ws ss : step (World (Sys p l ws) ss) [] (World (Sys (Pool.resume p) l ws) ss)
| w_discard p l ws ss b :
    b ∈ Pool.idle p →
    step (World (Sys p l ws) ss) [Discarded b]
      (World (Sys (Pool.with_idle (Pool.idle p ∖ {[b]}) p) l ws) ss).

Inductive run : world → list entry → world → Prop :=
| run_nil w : run w [] w
| run_snoc w log w1 es w2 : run w log w1 → step w1 es w2 → run w (log ++ es) w2.

Definition start (depth : nat) : world := World (Pool.start depth) ∅.

(** ** What the log says *)

(** A backend connection through its life: not there, idle since its last tenant,
    ready to be handed out, with a session.  [None] is a violation: two tenants at
    once, traffic of one that is not the tenant, a hand-over without recycling. *)
Inductive tenure : Type := Absent | Used | Ready | Tenant (k : Z).

Definition tenant (k : Z) (t : tenure) : option tenure :=
  match t with Tenant k' => if decide (k = k') then Some t else None | _ => None end.

Definition tenure_step (b : nat) (t : tenure) (x : entry) : option tenure :=
  match x with
  | Opened b' => if decide (b' = b) then match t with Absent => Some Ready | _ => None end else Some t
  | Recycled b' => if decide (b' = b) then match t with Used => Some Ready | _ => None end else Some t
  | Discarded b' => if decide (b' = b) then match t with Used => Some Absent | _ => None end else Some t
  | Took k b' => if decide (b' = b) then match t with Ready => Some (Tenant k) | _ => None end else Some t
  | StartedUp k b' | Happened k b' _ | Did k b' _ => if decide (b' = b) then tenant k t else Some t
  | Asked _ _ => Some t
  | Gave k b' _ => if decide (b' = b) then tenant k t ≫= λ _, Some Used else Some t
  end.
Fixpoint tenure_from (b : nat) (t : tenure) (log : list entry) : option tenure :=
  match log with
  | [] => Some t
  | x :: log => tenure_step b t x ≫= λ t', tenure_from b t' log
  end.
Definition tenure_of (b : nat) (log : list entry) : option tenure := tenure_from b Absent log.

(** The part of the log that one session sees. *)
Definition events (k : Z) : list entry → list event :=
  omap (λ x, match x with Happened k' _ e => if decide (k = k') then Some e else None | _ => None end).
Definition performed (k : Z) : list entry → list action :=
  omap (λ x, match x with
             | Did k' _ a => if decide (k = k') then Some a else None
             | Asked k' n => if decide (k = k') then Some (Acquire n) else None
             | _ => None
             end).

(** ** Invariant *)

(** The log of session [k] is a run of the handler whose last actions are [todo]. *)
Definition history (k : Z) (log : list entry) (rest todo : list action) (o : option HandlerState) : Prop :=
  Handler.run cfg (Handler.start cfg) (events k log) = Ret (performed k log ++ rest, o) ∧
  custody true todo = Some (bool_decide (is_Some o)) ∧
  (∀ hs, o = Some hs → Release ∈ todo → conn_state hs = CS.new (max_prepared_statements cfg)).

Definition hist (k : Z) (ph : option phase) (log : list entry) : Prop :=
  match ph with
  | None | Some Starting | Some (Opening None) => events k log = [] ∧ performed k log = []
  | Some (Running o todo) | Some (Opening (Some (o, todo))) => history k log todo todo o
  | Some (Between o n todo) => history k log (Acquire n :: todo) todo o
  | Some Gone =>
      ∃ acts o, Handler.run cfg (Handler.start cfg) (events k log) = Ret (acts, o) ∧
                performed k log `prefix_of` acts
  end.

(** Connections and sessions fit together: nobody is bound to a connection, those
    that hold one or wait for one are the ones in the phase to do so. *)
Record placed (w : world) : Prop := {
  i_nodup : NoDup (Pool.conns (sys w));
  i_sticky : Pool.sticky_map (Pool.pm (sys w)) = ∅;
  i_held : ∀ mc, mc ∈ Pool.held (sys w) →
    Pool.is_pinned mc = false ∧ is_Some (Pool.connection mc) ∧
    ∃ ph, sessions w !! Pool.client_id mc = Some ph ∧ holding ph = true;
  i_clients : NoDup (Pool.client_id <$> Pool.held (sys w));
  i_waiting : ∀ k w', (k, w') ∈ Pool.waiting (sys w) → ∃ ph, sessions w !! k = Some ph ∧ opening ph = true;
  i_waiters : NoDup (fst <$> Pool.waiting (sys w))
}.

(** The log tells where every connection is. *)
Record told (s : Pool.system) (log : list entry) : Prop := {
  i_idle : ∀ b, b ∈ Pool.idle (Pool.pm s) → tenure_of b log = Some Used;
  i_tenant : ∀ k b, holds (Pool.held s) k b → tenure_of b log = Some (Tenant k);
  i_absent : ∀ b, b ∉ Pool.conns s → tenure_of b log = Some Absent
}.

Definition inv (w : world) (log : list entry) : Prop :=
  placed w ∧ told (sys w) log ∧ (∀ k, hist k (sessions w !! k) log) ∧
  (∀ k b hs, Gave k b (Some hs) ∈ log → conn_state hs = CS.new (max_prepared_statements cfg)).

(** *** The log *)
Lemma tenure_app b log es : tenure_of b (log ++ es) = tenure_of b log ≫= λ t, tenure_from b t es.
Proof.
  unfold tenure_of. generalize Absent. induction log as [|x log IH]; intros t; [done|]. cbn.
  destruct (tenure_step b t x); [apply IH|done].
Qed.

(** The connection and the session an entry is about. *)
Definition about (x : entry) : option nat :=
  match x with
  | Opened b | Recycled b | Discarded b | Took _ b | StartedUp _ b | Happened _ b _ | Did _ b _
  | Gave _ b _ => Some b
  | Asked _ _ => None
  end.
Definition of_session (k : Z) (x : entry) : bool :=
  match x with Happened k' _ _ | Did k' _ _ | Asked k' _ => bool_decide (k = k') | _ => false end.

Lemma tenure_other b es t : Forall (λ x, about x ≠ Some b) es → tenure_from b t es = Some t.
Proof.
  induction 1 as [|x es Hx _ IH]; [done|]. cbn [tenure_from].
  assert (tenure_step b t x = Some t) as ->; [|done].
  destruct x; cbn in *; try done; rewrite decide_False by congruence; done.
Qed.

Lemma session_other k log es :
  Forall (λ x, of_session k x = false) es →
  events k (log ++ es) = events k log ∧ performed k (log ++ es) = performed k log.
Proof.
  intros Hes. unfold events, performed. rewrite !omap_app.
  assert (∀ {A} (f : entry → option A), (∀ x, of_session k x = false → f x = None) → omap f es = []) as Hn.
  { intros A f Hf. induction Hes as [|x es Hx _ IH]; [done|]. cbn. by rewrite (Hf x Hx). }
  rewrite !Hn, !app_nil_r; [done| |]; intros []; cbn; try done;
    intros ?%bool_decide_eq_false; by rewrite decide_False.
Qed.

Lemma hist_other k ph log es :
  Forall (λ x, of_session k x = false) es → hist k ph log → hist k ph (log ++ es).
Proof.
  intros Hes. destruct (session_other k log es Hes) as [He Hp].
  unfold hist, history. by rewrite He, Hp.
Qed.

(** *** Connections *)
Lemma elem_of_conns p l ws b :
  Pool.sticky_map p = ∅ → b ∈ Pool.conns (Sys p l ws) ↔ b ∈ Pool.idle p ∨ ∃ k, holds l k b.
Proof.
  intros Hs. unfold Pool.conns. cbn. rewrite Hs, !elem_of_app, elem_of_elements.
  unfold Pool.sticky_conns. rewrite map_to_list_empty. cbn. unfold Pool.held_conns.
  rewrite list_elem_of_omap. unfold holds. split.
  - intros [Hb|[Hb|(mc & Hmc & Hb)]]; [by left|by apply elem_of_nil in Hb|right]. by exists (Pool.client_id mc), mc.
  - intros [Hb|(k & mc & Hmc & _ & Hb)]; [by left|right; right]. by exists mc.
Qed.

Lemma idle_not_held p l ws k b :
  NoDup (Pool.conns (Sys p l ws)) → b ∈ Pool.idle p → ¬ holds l k b.
Proof.
  unfold Pool.conns. cbn. intros (_ & Hd & _)%NoDup_app Hb (mc & Hmc & _ & Hc).
  apply (Hd b); [by apply elem_of_elements|]. apply elem_of_app. right.
  apply list_elem_of_omap. by exists mc.
Qed.

(** *** Acquisitions

    What an acquisition comes to when no connection is bound to anyone. *)
Definition granted (k : Z) (p : Pool.PoolManager) (got : option nat) (r : Pool.acquired)
    (p' : Pool.PoolManager) : Prop :=
  Pool.sticky_map p' = ∅ ∧
  match r with
  | Pool.Got mc => ∃ c, got = Some c ∧ mc = Pool.fresh_managed k c ∧ Pool.idle p' = Pool.idle p ∖ {[c]}
  | _ => Pool.idle p' = Pool.idle p
  end.

Lemma acquire_granted k needs got p r p' :
  Pool.sticky_map p = ∅ → Pool.acquire k needs got p = (r, p') → granted k p got r p'.
Proof.
  intros Hs. unfold Pool.acquire, granted. destruct (Pool.accepting p); cbn [negb]; [|by intros [= <- <-]].
  assert ((if needs then Pool.get_sticky_connection k p else (None, p)) = (None, p)) as ->.
  { destruct needs; [|done]. unfold Pool.get_sticky_connection. by rewrite Hs. }
  destruct got as [c|]; [intros [= <- <-]; eauto|].
  unfold Pool.wait_for_connection. destruct (WQ.enqueue (Pool.wait_queue p)) as [[w|] q]; intros [= <- <-]; done.
Qed.
Lemma notified_granted k w got p r p' :
  Pool.sticky_map p = ∅ → Pool.resume_notified k w got p = (r, p') → granted k p got r p'.
Proof.
  intros Hs. unfold Pool.resume_notified, granted. destruct got as [c|]; intros [= <- <-]; eauto.
Qed.

Lemma told_grant p l ws0 ws k got e r p' log :
  NoDup (Pool.conns (Sys p l ws0)) → Pool.sticky_map p = ∅ → told (Sys p l ws0) log →
  Pool.answer (Sys p l ws0) got e → granted k p got r p' →
  told (Sys p' (Pool.settle k r l ws).1 (Pool.settle k r l ws).2) (log ++ took k p r).
Proof.
  intros Hnd Hst [Hi Ht Ha] Han [Hst' Hr].
  destruct r as [mc|err|w]; cbn [Pool.settle took fst snd Pool.held Pool.pm] in *.
  2,3: rewrite app_nil_r; split; cbn in *; [by rewrite Hr|done|];
    intros b; rewrite elem_of_conns, Hr by done; rewrite <-(elem_of_conns p l ws0) by done; apply Ha.
  destruct Hr as (c & -> & -> & Hidle). cbn [Pool.connection Pool.is_pinned Pool.fresh_managed].
  assert (Hc : tenure_of c (log ++ [if decide (c ∈ Pool.idle p) then Recycled c else Opened c] ++ [Took k c])
               = Some (Tenant k)).
  { rewrite tenure_app. inversion Han as [|? Hc|? Hc]; subst.
    - rewrite (Hi c Hc), decide_True by done. cbn -[decide]. rewrite (decide_True (P := c = c)) by done.
      cbn -[decide]. by rewrite (decide_True (P := c = c)) by done.
    - rewrite (Ha c Hc). cbn in Hc. rewrite elem_of_conns in Hc by done.
      rewrite decide_False by naive_solver. cbn -[decide]. rewrite (decide_True (P := c = c)) by done.
      cbn -[decide]. by rewrite (decide_True (P := c = c)) by done. }
  assert (Ho : ∀ b, b ≠ c → tenure_of b (log ++ [if decide (c ∈ Pool.idle p) then Recycled c else Opened c]
                                          ++ [Took k c]) = tenure_of b log).
  { intros b Hb. rewrite tenure_app. destruct (tenure_of b log) as [t|]; [|done]. cbn [mbind option_bind].
    apply tenure_other. case_decide; repeat constructor; cbn; congruence. }
  assert (Hnh : ∀ k', ¬ holds l k' c).
  { intros k' Hh. inversion Han as [|? Hin|? Hin]; subst; [by eapply idle_not_held|].
    apply Hin. rewrite elem_of_conns by done. eauto. }
  split; cbn.
  - intros b. rewrite Hidle. intros [Hb Hbc]%elem_of_difference. rewrite Ho by set_solver. by apply Hi.
  - intros k' b (mc & [->|Hmc]%elem_of_cons & Hk & Hb); [cbn in *; by simplify_eq|].
    assert (holds l k' b) as Hh by by exists mc.
    rewrite Ho; [by apply Ht|]. intros ->. by apply (Hnh k').
  - intros b. rewrite elem_of_conns, Hidle by done. intros Hb.
    assert (b ≠ c). { intros ->. apply Hb. right. exists k, (Pool.fresh_managed k c). set_solver. }
    rewrite Ho by done. apply Ha. rewrite elem_of_conns by done.
    intros [Hin|(k' & mc & Hmc & Hk & Hc')]; apply Hb; [left; set_solver|right].
    exists k', mc. set_solver.
Qed.

(** A tenant gives its connection up. *)
Lemma told_give p p' l1 mc l2 ws ws' b es log :
  let k := Pool.client_id mc in
  NoDup (Pool.conns (Sys p (l1 ++ mc :: l2) ws)) → Pool.sticky_map p = ∅ → Pool.sticky_map p' = ∅ →
  told (Sys p (l1 ++ mc :: l2) ws) log → Pool.connection mc = Some b →
  Pool.idle p' = {[b]} ∪ Pool.idle p →
  Forall (λ x, about x = Some b) es → tenure_from b (Tenant k) es = Some Used →
  told (Sys p' (l1 ++ l2) ws') (log ++ es).
Proof.
  intros k Hnd Hst Hst' [Hi Ht Ha] Hb Hidle Hes Hfrom.
  assert (Hown : tenure_of b (log ++ es) = Some Used).
  { rewrite tenure_app, (Ht k); [done|]. exists mc. set_solver. }
  assert (Ho : ∀ b', b' ≠ b → tenure_of b' (log ++ es) = tenure_of b' log).
  { intros b' Hb'. rewrite tenure_app. destruct (tenure_of b' log) as [t|]; [|done]. cbn [mbind option_bind].
    apply tenure_other. eapply Forall_impl; [exact Hes|]. intros x ->. congruence. }
  split; cbn.
  - intros b'. rewrite Hidle. intros Hin. destruct (decide (b' = b)) as [->|Hne]; [done|].
    rewrite Ho by done. apply Hi. set_solver.
  - intros k' b' Hh. assert (holds (l1 ++ mc :: l2) k' b') as Hh'.
    { destruct Hh as (mc' & Hmc & ? & ?). exists mc'. set_solver. }
    assert (b' ≠ b); [|rewrite Ho by done; by apply Ht].
    intros ->. destruct Hh as (mc' & Hmc & _ & Hc). rewrite Pool.conns_split in Hnd.
    rewrite Pool.held_conns_remove in Hnd. unfold Pool.option_conn in Hnd. rewrite Hb in Hnd. cbn in Hnd.
    apply NoDup_app in Hnd as (_ & _ & [Hn _]%NoDup_cons). apply Hn, list_elem_of_omap. by exists mc'.
  - intros b'. rewrite elem_of_conns, Hidle by done. intros Hb'.
    rewrite Ho by set_solver. apply Ha. rewrite elem_of_conns by done.
    intros [Hin|(k' & mc' & Hmc & Hk & Hc)]; apply Hb'; [set_solver|].
    apply elem_of_app in Hmc as [Hmc|[->|Hmc]%elem_of_cons]; [right|left; set_solver|right];
      exists k', mc'; set_solver.
Qed.

(** A tenant goes on. *)
Lemma told_same s s' log es k b :
  told s log → Pool.idle (Pool.pm s') = Pool.idle (Pool.pm s) → Pool.held s' = Pool.held s →
  Pool.sticky_map (Pool.pm s) = ∅ → Pool.sticky_map (Pool.pm s') = ∅ →
  holds (Pool.held s) k b →
  Forall (λ x, about x = Some b ∧ ∀ t, tenure_step b t x = tenant k t) es →
  told s' (log ++ es).
Proof.
  destruct s as [p l ws], s' as [p' l' ws']. cbn. intros [Hi Ht Ha] Hidle -> Hst Hst' Hh Hes. cbn in *.
  assert (Hsame : ∀ b', tenure_of b' (log ++ es) = tenure_of b' log).
  { intros b'. rewrite tenure_app. destruct (decide (b' = b)) as [->|Hne].
    - rewrite (Ht k b Hh). cbn [mbind option_bind]. induction Hes as [|x es [_ Hx] _ IH]; [done|].
      cbn. rewrite Hx. cbn. rewrite decide_True by done. apply IH.
    - destruct (tenure_of b' log) as [t|]; [|done]. apply tenure_other.
      eapply Forall_impl; [exact Hes|]. intros x [-> _]. congruence. }
  split; cbn; intros; rewrite Hsame; [apply Hi; by rewrite <-Hidle|by apply Ht|].
  apply Ha. rewrite elem_of_conns in * by done. by rewrite <-Hidle.
Qed.

(** *** Sessions and connections *)
Lemma not_client (l : list Pool.ManagedConnection) k (ss : gmap Z phase) :
  (∀ mc, mc ∈ l → ∃ ph, ss !! Pool.client_id mc = Some ph ∧ holding ph = true) →
  (∀ ph, ss !! k = Some ph → holding ph = false) → k ∉ (Pool.client_id <$> l).
Proof. intros Hl Hk (mc & -> & (ph & Hs & Hh)%Hl)%list_elem_of_fmap. rewrite (Hk ph Hs) in Hh. done. Qed.

Lemma placed_grant p l ws0 ws ss k got r p' next :
  placed (World (Sys p l ws0) ss) → granted k p got r p' →
  NoDup (Pool.conns (Sys p' (Pool.settle k r l ws).1 (Pool.settle k r l ws).2)) →
  (∀ ph, ss !! k = Some ph → holding ph = false) →
  (∀ x, x ∈ ws → x ∈ ws0) → NoDup (fst <$> ws) → k ∉ (fst <$> ws) →
  placed (World (Sys p' (Pool.settle k r l ws).1 (Pool.settle k r l ws).2) (<[k := after next r]> ss)).
Proof.
  intros [_ Hst Hh Hcl Hw Hwn] [Hst' Hr] Hnd' Hk Hws Hwsn Hkw. cbn in *.
  assert (k ∉ (Pool.client_id <$> l)) as Hkl by (eapply not_client; [|done]; naive_solver).
  assert (Hh' : ∀ mc ph, mc ∈ l → Pool.is_pinned mc = false ∧ is_Some (Pool.connection mc) ∧
    ∃ ph', <[k := ph]> ss !! Pool.client_id mc = Some ph' ∧ holding ph' = true).
  { intros mc ph Hmc. rewrite lookup_insert_ne; [by apply Hh|]. intros ->. apply Hkl, list_elem_of_fmap. eauto. }
  assert (Hw' : ∀ k' w' ph, (k', w') ∈ ws → ∃ ph', <[k := ph]> ss !! k' = Some ph' ∧ opening ph' = true).
  { intros k' w' ph Hin. rewrite lookup_insert_ne; [by eapply Hw, Hws|]. intros ->.
    apply Hkw, list_elem_of_fmap. by exists (k', w'). }
  split; cbn; [done|done|..]; destruct r as [mc|err|w]; cbn in *; eauto.
  - destruct Hr as (c & -> & -> & _). intros mc [->|Hmc]%elem_of_cons; [|by apply Hh'].
    cbn. rewrite lookup_insert_eq. split_and!; [done|eauto|]. eexists. split; [done|].
    by destruct next as [[]|].
  - destruct Hr as (c & -> & -> & _). by constructor.
  - intros k' w' [[= -> ->]|Hin]%elem_of_cons; [rewrite lookup_insert_eq; eauto|by eapply Hw'].
  - by constructor.
Qed.

Lemma placed_give p p' l1 mc l2 ws ss b ph :
  let k := Pool.client_id mc in
  placed (World (Sys p (l1 ++ mc :: l2) ws) ss) → NoDup (Pool.conns (Sys p' (l1 ++ l2) ws)) →
  Pool.sticky_map p' = ∅ → Pool.connection mc = Some b → opening ph = false →
  placed (World (Sys p' (l1 ++ l2) ws) (<[k := ph]> ss)).
Proof.
  intros k [_ Hst Hh Hcl Hw Hwn] Hnd' Hst' Hb Hop. cbn in *.
  assert (Hk : (k ∉ (Pool.client_id <$> (l1 ++ l2))) ∧ NoDup (Pool.client_id <$> (l1 ++ l2))).
  { rewrite fmap_app in Hcl |- *. cbn in Hcl.
    rewrite <-Permutation_middle in Hcl. by apply NoDup_cons in Hcl. }
  destruct Hk as [Hk Hcl']. split; cbn; try done.
  - intros mc' Hmc'. rewrite lookup_insert_ne; [apply Hh; set_solver|].
    intros Heq. apply Hk, list_elem_of_fmap. eauto.
  - intros k' w' Hin. destruct (Hw k' w' Hin) as (ph' & Hs & Ho).
    rewrite lookup_insert_ne; [eauto|]. intros <-.
    destruct (Hh mc ltac:(set_solver)) as (_ & _ & ph2 & Hs2 & Hh2).
    fold k in Hs2. rewrite Hs in Hs2. injection Hs2 as <-. by destruct ph'.
Qed.

Lemma placed_same s ss k ph ph' :
  placed (World s ss) → ss !! k = Some ph → holding ph' = holding ph → opening ph' = opening ph →
  placed (World s (<[k := ph']> ss)).
Proof.
  intros [Hnd Hst Hh Hcl Hw Hwn] Hk Hho Hop. split; cbn in *; try done.
  - intros mc Hmc. destruct (Hh mc Hmc) as (? & ? & ph1 & Hs & Hp). split_and!; [done..|].
    destruct (decide (k = Pool.client_id mc)) as [->|Hne].
    + rewrite lookup_insert_eq. eexists. split; [done|]. congruence.
    + rewrite lookup_insert_ne by done. eauto.
  - intros k' w' Hin. destruct (Hw k' w' Hin) as (ph1 & Hs & Hp).
    destruct (decide (k = k')) as [->|Hne].
    + rewrite lookup_insert_eq. eexists. split; [done|]. congruence.
    + rewrite lookup_insert_ne by done. eauto.
Qed.

(** *** Histories *)
Definition cont_hist (k : Z) (next : continuation) (log : list entry) : Prop :=
  match next with
  | None => events k log = [] ∧ performed k log = []
  | Some (o, todo) => history k log todo todo o
  end.

Lemma hist_gone k ph log : hist k ph log → hist k (Some Gone) log.
Proof.
  assert (Hh : ∀ rest todo o, history k log rest todo o → hist k (Some Gone) log).
  { intros rest todo o (Hr & _). eexists _, _. split; [exact Hr|]. by eexists. }
  assert (Hn : events k log = [] ∧ performed k log = [] → hist k (Some Gone) log).
  { intros [He Hp]. cbn. rewrite He, Hp. eexists _, _. split; [done|]. apply prefix_nil. }
  destruct ph as [[[[]|]| | | |]|]; intros Hx; first [exact Hx|exact (Hh _ _ _ Hx)|exact (Hn Hx)].
Qed.
Lemma hist_after k next r log : cont_hist k next log → hist k (Some (after next r)) log.
Proof.
  intros Hc. assert (hist k (Some (Opening next)) log) as Ho by by destruct next as [[]|].
  destruct r; cbn [after]; [|by eapply hist_gone|done]. by destruct next as [[]|].
Qed.
Lemma took_others k p r k' : Forall (λ x, of_session k' x = false) (took k p r).
Proof.
  unfold took. destruct r as [mc| |]; [|constructor..]. destruct (Pool.connection mc); [|constructor].
  destruct (Pool.is_pinned mc); repeat constructor. by case_decide.
Qed.
Lemma hist_asked k o n todo log :
  hist k (Some (Between o n todo)) log → cont_hist k (Some (o, todo)) (log ++ [Asked k n]).
Proof.
  intros (Hr & Hc & Hs). split_and!; [|done|done].
  unfold events, performed in *. rewrite !omap_app. cbn -[decide].
  rewrite decide_True, app_nil_r by done. by rewrite Hr, <-app_assoc.
Qed.
Lemma hist_begin k b log :
  hist k (Some Starting) log →
  hist k (Some (Running (Some (Handler.start cfg)) [])) (log ++ [StartedUp k b]).
Proof.
  intros [He Hp]. destruct (session_other k log [StartedUp k b]) as [He' Hp']; [by repeat constructor|].
  cbn. unfold history. rewrite He', Hp', He, Hp. split_and!; [done|done|]. set_solver.
Qed.
Lemma hist_event k b hs e acts o log :
  hist k (Some (Running (Some hs) [])) log → Handler.step cfg hs e = Ret (acts, o) →
  hist k (Some (Running o acts)) (log ++ [Happened k b e]).
Proof.
  intros (Hr & _) Hs. rewrite app_nil_r in Hr. cbn. unfold history, events, performed in *.
  rewrite !omap_app. cbn -[decide]. rewrite decide_True, app_nil_r by done. split_and!.
  - by eapply Handler.run_extend.
  - by eapply step_custody.
  - intros hs' -> Hin. apply run_reachable in Hr as [log' Hreach].
    by destruct (release_step _ _ _ _ _ _ Hreach Hs Hin) as (_ & _ & _ & _ & _ & ?).
Qed.
Lemma hist_did k b o a rest log :
  history k log (a :: rest) (a :: rest) o →
  Handler.run cfg (Handler.start cfg) (events k (log ++ [Did k b a]))
    = Ret (performed k (log ++ [Did k b a]) ++ rest, o).
Proof.
  intros (Hr & _). unfold events, performed in *. rewrite !omap_app. cbn -[decide].
  rewrite decide_True, app_nil_r by done. by rewrite Hr, <-app_assoc.
Qed.
Lemma hist_act k b o a todo log :
  hist k (Some (Running o (a :: todo))) log → plain a = true →
  hist k (Some (Running o todo)) (log ++ [Did k b a]).
Proof.
  intros Hh Ha. split_and!; [by apply hist_did|..]; destruct Hh as (_ & Hc & Hs).
  - rewrite <-Hc. by destruct a.
  - intros hs Ho Hin. apply (Hs hs Ho). by right.
Qed.
Lemma hist_release k b o todo left log :
  hist k (Some (Running o (Release :: todo))) log →
  hist k (Some (released o todo)) (log ++ [Did k b Release; Gave k b left]).
Proof.
  intros Hh. rewrite (app_assoc log [_] [_] : log ++ [Did k b Release; Gave k b left] = _).
  apply hist_other; [by repeat constructor|].
  pose proof (hist_did k b o Release todo log Hh) as Hr. destruct Hh as (_ & Hc & Hs).
  destruct todo as [|[] todo]; cbn [released];
    try (eexists _, _; split; [exact Hr|by eexists]).
  split_and!; [done|by cbn in Hc|]. intros hs Ho Hin. apply (Hs hs Ho). by do 2 right.
Qed.

(** *** Every step *)
Lemma inv_update w w' k ph es log :
  inv w log → placed w' → told (sys w') (log ++ es) → sessions w' = <[k := ph]> (sessions w) →
  (∀ k', k' ≠ k → Forall (λ x, of_session k' x = false) es) → hist k (Some ph) (log ++ es) →
  (∀ k' b hs, Gave k' b (Some hs) ∈ es → conn_state hs = CS.new (max_prepared_statements cfg)) →
  inv w' (log ++ es).
Proof.
  intros (_ & _ & Hh & Hg) Hp Ht Hss Hes Hk Hg'. split_and!; [done|done| |].
  - intros k'. rewrite Hss. destruct (decide (k' = k)) as [->|Hne].
    + by rewrite lookup_insert_eq.
    + rewrite lookup_insert_ne by done. apply hist_other; [by apply Hes|apply Hh].
  - intros k' b hs [Hin|Hin]%elem_of_app; eauto.
Qed.

(** An acquisition, from whatever phase without a connection. *)
Lemma inv_grant p l ws0 ws ss k got e r p' pre next log :
  inv (World (Sys p l ws0) ss) log → Pool.answer (Sys p l ws0) got e → granted k p got r p' →
  NoDup (Pool.conns (Sys p' (Pool.settle k r l ws).1 (Pool.settle k r l ws).2)) →
  (∀ ph, ss !! k = Some ph → holding ph = false) →
  (∀ x, x ∈ ws → x ∈ ws0) → NoDup (fst <$> ws) → k ∉ (fst <$> ws) →
  (∀ b, Forall (λ x, about x ≠ Some b) pre) →
  (∀ k', k' ≠ k → Forall (λ x, of_session k' x = false) pre) →
  Forall (λ x, match x with Gave _ _ _ => False | _ => True end) pre →
  cont_hist k next (log ++ pre) →
  inv (World (Sys p' (Pool.settle k r l ws).1 (Pool.settle k r l ws).2) (<[k := after next r]> ss))
    (log ++ pre ++ took k p r).
Proof.
  intros Hinv Han Hgr Hnd' Hk Hws Hwsn Hkw Hpre Hpre' Hng Hcont.
  pose proof Hinv as (Hp & [Hi Ht Ha] & _).
  assert (Hpre0 : told (Sys p l ws0) (log ++ pre)).
  { assert (Hsame : ∀ b, tenure_of b (log ++ pre) = tenure_of b log).
    { intros b. rewrite tenure_app. destruct (tenure_of b log) as [t|]; [|done]. by apply tenure_other. }
    split; intros; rewrite Hsame; auto. }
  eapply inv_update; [exact Hinv|by eapply placed_grant| |done| | |].
  - rewrite app_assoc. cbn [sys]. eapply told_grant; [apply Hp|apply Hp|done|done|done].
  - intros k' Hk'. apply Forall_app. split; [by apply Hpre'|apply took_others].
  - rewrite app_assoc. apply hist_other; [apply took_others|by apply hist_after].
  - intros k' b hs [Hin|Hin]%elem_of_app.
    + rewrite Forall_forall in Hng. by destruct (Hng _ Hin).
    + exfalso. unfold took in Hin. destruct r as [mc| |]; [|set_solver..].
      destruct (Pool.connection mc); [|set_solver]. destruct (Pool.is_pinned mc); [set_solver|].
      case_decide; set_solver.
Qed.

(** The end of a tenure. *)
Lemma inv_give p p' l1 mc l2 ws ss b ph es log :
  let k := Pool.client_id mc in
  inv (World (Sys p (l1 ++ mc :: l2) ws) ss) log → NoDup (Pool.conns (Sys p' (l1 ++ l2) ws)) →
  Pool.sticky_map p' = ∅ → Pool.connection mc = Some b → Pool.idle p' = {[b]} ∪ Pool.idle p →
  opening ph = false → Forall (λ x, about x = Some b) es → tenure_from b (Tenant k) es = Some Used →
  (∀ k', k' ≠ k → Forall (λ x, of_session k' x = false) es) → hist k (Some ph) (log ++ es) →
  (∀ k' b hs, Gave k' b (Some hs) ∈ es → conn_state hs = CS.new (max_prepared_statements cfg)) →
  inv (World (Sys p' (l1 ++ l2) ws) (<[k := ph]> ss)) (log ++ es).
Proof.
  intros k Hinv Hnd' Hst' Hb Hidle Hop Hes Hfrom Hk Hh Hg. pose proof Hinv as (Hp & Ht & _).
  eapply inv_update; [exact Hinv|by eapply placed_give| |done|done|done|done].
  eapply told_give; [apply Hp|apply Hp|done|done|done|done|done|done].
Qed.

(** A step of a session that keeps what it holds. *)
Lemma inv_session s ss k b ph ph' x log :
  inv (World s ss) log → ss !! k = Some ph → holding ph' = holding ph → opening ph' = opening ph →
  holds (Pool.held s) k b → about x = Some b → (∀ t, tenure_step b t x = tenant k t) →
  (∀ k', k' ≠ k → of_session k' x = false) →
  (∀ k' b hs, x ≠ Gave k' b (Some hs)) → hist k (Some ph') (log ++ [x]) →
  inv (World s (<[k := ph']> ss)) (log ++ [x]).
Proof.
  intros Hinv Hk Hho Hop Hb Hx Htx Hk' Hng Hh. pose proof Hinv as (Hp & Ht & _).
  eapply inv_update; [exact Hinv|by eapply placed_same| |done| |done|].
  - cbn [sys]. eapply told_same; [done|done|done|apply Hp|apply Hp|done|by repeat constructor].
  - intros k1 Hne. repeat constructor. by apply Hk'.
  - intros k1 b1 hs Hin. apply list_elem_of_singleton in Hin. by destruct (Hng k1 b1 hs).
Qed.

(** The pool alone. *)
Lemma inv_pool p p' l ws ws' ss log :
  inv (World (Sys p l ws) ss) log → Pool.sticky_map p' = ∅ → Pool.idle p' = Pool.idle p →
  (∀ x, x ∈ ws' → x ∈ ws) → NoDup (fst <$> ws') → inv (World (Sys p' l ws') ss) log.
Proof.
  intros ([Hnd Hst Hh Hcl Hw Hwn] & [Hi Ht Ha] & Hhi & Hg) Hst' Hidle Hws Hwsn. cbn in *.
  assert (Hc : Pool.conns (Sys p' l ws') = Pool.conns (Sys p l ws)).
  { unfold Pool.conns. cbn. by rewrite Hidle, Hst, Hst'. }
  split_and!; [| |done|done]; split; cbn; rewrite ?Hc, ?Hidle; eauto.
Qed.

(** A session without a connection ends. *)
Lemma inv_gone s ss k ph log :
  inv (World s ss) log → ss !! k = Some ph → holding ph = false → k ∉ (fst <$> Pool.waiting s) →
  inv (World s (<[k := Gone]> ss)) log.
Proof.
  intros Hinv Hk Hho Hkw. pose proof Hinv as ([Hnd Hst Hh Hcl Hw Hwn] & Ht & Hhi & _). cbn in *.
  rewrite <-(app_nil_r log).
  eapply inv_update; [exact Hinv| |by rewrite app_nil_r|done|constructor| |set_solver].
  - split; cbn; try done.
    + intros mc Hmc. destruct (Hh mc Hmc) as (? & ? & ph1 & Hs & Hp). split_and!; [done..|].
      rewrite lookup_insert_ne; [eauto|]. intros ->. congruence.
    + intros k' w' Hin. rewrite lookup_insert_ne; [by eapply Hw|]. intros ->.
      apply Hkw, list_elem_of_fmap. by exists (k', w').
  - rewrite app_nil_r. specialize (Hhi k). rewrite Hk in Hhi. by eapply hist_gone.
Qed.

Lemma waiters_remove {A} (ws1 ws2 : list (Z * A)) k w :
  NoDup (fst <$> (ws1 ++ (k, w) :: ws2)) →
  NoDup (fst <$> (ws1 ++ ws2)) ∧ (k ∉ (fst <$> (ws1 ++ ws2))).
Proof. rewrite !fmap_app. cbn. rewrite <-Permutation_middle, NoDup_cons. tauto. Qed.

Lemma not_waiting w k :
  placed w → (∀ ph, sessions w !! k = Some ph → opening ph = false) →
  k ∉ (fst <$> Pool.waiting (sys w)).
Proof.
  intros Hp Hk ([k' w'] & -> & Hin)%list_elem_of_fmap. destruct (i_waiting _ Hp _ _ Hin) as (ph & Hs & Ho).
  cbn in *. rewrite (Hk ph Hs) in Ho. done.
Qed.

(** The waiter that ends, by time-out or abort. *)
Lemma inv_waiter p l ws1 ws2 ss k w next log :
  inv (World (Sys p l (ws1 ++ (k, w) :: ws2)) ss) log → ss !! k = Some (Opening next) →
  inv (World (Sys (Pool.abandon w p) l (ws1 ++ ws2)) (<[k := Gone]> ss)) log.
Proof.
  intros Hinv Hk. pose proof Hinv as ([_ Hst _ _ _ Hwn] & _). cbn in *.
  apply waiters_remove in Hwn as [Hwn Hkw].
  eapply inv_gone; [|done|done|done]. eapply inv_pool; [exact Hinv|done|done|set_solver|done].
Qed.

Lemma tenant_owner k b t (x : entry) :
  match x with
  | StartedUp k' b' | Happened k' b' _ | Did k' b' _ => k' = k ∧ b' = b
  | _ => False
  end → tenure_step b t x = tenant k t.
Proof. destruct x; cbn -[decide]; try done; intros [-> ->]; by rewrite decide_True. Qed.

(** The pool throws an idle connection away. *)
Lemma inv_discard p l ws ss b log :
  inv (World (Sys p l ws) ss) log → b ∈ Pool.idle p →
  NoDup (Pool.conns (Sys (Pool.with_idle (Pool.idle p ∖ {[b]}) p) l ws)) →
  inv (World (Sys (Pool.with_idle (Pool.idle p ∖ {[b]}) p) l ws) ss) (log ++ [Discarded b]).
Proof.
  intros ([Hnd Hst Hh Hcl Hw Hwn] & [Hi Ht Ha] & Hhi & Hg) Hb Hnd'. cbn in *.
  assert (Ho : ∀ b', b' ≠ b → tenure_of b' (log ++ [Discarded b]) = tenure_of b' log).
  { intros b' Hne. rewrite tenure_app. destruct (tenure_of b' log) as [t|]; [|done].
    apply tenure_other. repeat constructor. cbn. congruence. }
  split_and!; [by split| | |].
  - split; cbn.
    + intros b' Hb'. rewrite Ho by set_solver. apply Hi. set_solver.
    + intros k b' Hh'. rewrite Ho; [by apply Ht|]. intros ->. exact (idle_not_held p l ws k b Hnd Hb Hh').
    + intros b' Hb'. destruct (decide (b' = b)) as [->|Hne].
      * rewrite tenure_app, (Hi b Hb). cbn -[decide]. by rewrite (decide_True (P := b = b)).
      * rewrite Ho by done. apply Ha. rewrite elem_of_conns in * by done. cbn in Hb'.
        intros [?|?]; apply Hb'; [left; set_solver|by right].
  - intros k. apply hist_other; [by repeat constructor|apply Hhi].
  - intros k b' hs. rewrite elem_of_app. set_solver.
Qed.

(** The entries that end a tenure. *)
Lemma gave_ends b k left : tenure_from b (Tenant k) [Gave k b left] = Some Used.
Proof. cbn -[decide]. rewrite decide_True by done. cbn -[decide]. by rewrite decide_True. Qed.
Lemma did_keeps b k a es : tenure_from b (Tenant k) (Did k b a :: es) = tenure_from b (Tenant k) es.
Proof. cbn -[decide]. rewrite (decide_True (P := b = b)) by done. cbn -[decide]. by rewrite decide_True. Qed.

Lemma world_inv_step w es w' log : inv w log → step w es w' → inv w' (log ++ es).
Proof.
  intros Hinv Hs. pose proof Hinv as (Hp & _ & Hhi & _).
  destruct Hs as [p l ws ss k got e r p' Hk Han Hg Hacq|p l ws ss k o needs todo got e r p' Hk Han Hg Hacq
    |p l ws1 ws2 ss k w next got e r p' Hk Han Hn Hres|p l ws1 ws2 ss k w next Hk Hto|s ss k b Hk Hb
    |s ss k b hs e acts o Hk Hb Hev|s ss k b o a todo Hk Hb Ha|p l1 l2 ws ss mc b now o todo k Hk Hb
    |p l1 l2 ws ss mc b ph k Hk Hph Hb|p l ws1 ws2 ss k w next Hk|s ss k o needs todo Hk|p l ws ss now
    |p l ws ss|p l ws ss|p l ws ss b Hb];
    pose proof Hp as [Hnd Hst Hh Hcl Hw Hwn]; cbn in *;
    try (specialize (Hhi k); rewrite Hk in Hhi).
  - apply (inv_grant p l ws ws ss k got e r p' [] None); try done; [|..].
    + by eapply acquire_granted.
    + eapply Pool.step_NoDup; [exact Hnd|]. by eapply (Pool.step_acquire pcfg).
    + naive_solver.
    + apply (not_waiting _ k Hp). cbn. naive_solver.
    + by rewrite app_nil_r.
  - apply (inv_grant p l ws ws ss k got e r p' [Asked k needs] (Some (o, todo))); try done.
    + by eapply acquire_granted.
    + eapply Pool.step_NoDup; [exact Hnd|]. by eapply (Pool.step_acquire pcfg).
    + naive_solver.
    + apply (not_waiting _ k Hp). cbn. naive_solver.
    + intros b. by repeat constructor.
    + intros k' Hne. repeat constructor. cbn. by rewrite bool_decide_false.
    + by repeat constructor.
    + by apply hist_asked.
  - destruct (waiters_remove _ _ _ _ Hwn) as [Hwn' Hkw].
    apply (inv_grant p l (ws1 ++ (k, w) :: ws2) (ws1 ++ ws2) ss k got e r p' [] next); try done.
    + by eapply notified_granted.
    + eapply Pool.step_NoDup; [exact Hnd|]. by eapply (Pool.step_notified pcfg).
    + naive_solver.
    + set_solver.
    + rewrite app_nil_r. by destruct next as [[]|].
  - rewrite app_nil_r. by eapply inv_waiter.
  - eapply inv_session; try done; [intros t; by apply tenant_owner|]. by apply hist_begin.
  - eapply inv_session; try done; [intros t; by apply tenant_owner| |by eapply hist_event].
    intros k' Hne. cbn. by rewrite bool_decide_false.
  - eapply inv_session; try done; [intros t; by apply tenant_owner| |by apply hist_act].
    intros k' Hne. cbn. by rewrite bool_decide_false.
  - destruct (Hh mc ltac:(set_solver)) as (Hpin & _ & _).
    eapply inv_give; try done; unfold Pool.release; rewrite ?Hpin, ?Hb; try done.
    + eapply Pool.step_NoDup in Hnd; [|apply (Pool.step_release pcfg p l1 l2 ws mc now)].
      unfold Pool.release in Hnd. by rewrite Hpin, Hb in Hnd.
    + by destruct todo as [|[] ?].
    + by repeat constructor.
    + by rewrite did_keeps, gave_ends.
    + intros k' Hne. repeat constructor. cbn. by rewrite bool_decide_false.
    + by apply hist_release.
    + intros k' b' hs Hin. destruct Hhi as (_ & _ & Hcl').
      assert (o = Some hs) as -> by set_solver. apply (Hcl' hs); [done|]. by left.
  - eapply inv_give; try done; unfold Pool.drop_connection; rewrite ?Hb; try done.
    + eapply Pool.step_NoDup in Hnd; [|apply (Pool.step_drop pcfg p l1 l2 ws mc)].
      unfold Pool.drop_connection in Hnd. by rewrite Hb in Hnd.
    + by repeat constructor.
    + apply gave_ends.
    + intros k' Hne. by repeat constructor.
    + apply hist_other; [by repeat constructor|]. by eapply hist_gone.
    + intros k' b' hs Hin. set_solver.
  - rewrite app_nil_r. by eapply inv_waiter.
  - rewrite app_nil_r. eapply inv_gone; try done. apply (not_waiting _ k Hp). cbn. naive_solver.
  - rewrite app_nil_r. eapply inv_pool; try done; unfold Pool.cleanup_idle; case_match; try done;
      rewrite Hst, map_to_list_empty; done.
  - rewrite app_nil_r. by eapply inv_pool.
  - rewrite app_nil_r. by eapply inv_pool.
  - apply inv_discard; [done|done|]. eapply Pool.step_NoDup; [exact Hnd|]. by apply (Pool.step_discard pcfg).
Qed.

Lemma world_inv_start depth : inv (start depth) [].
Proof.
  split_and!; [split; cbn; try constructor; try done; set_solver|split; cbn; [set_solver| |done]|done|set_solver].
  intros k b (mc & Hmc & _). by apply elem_of_nil in Hmc.
Qed.

Lemma world_inv depth log w : run (start depth) log w → inv w log.
Proof.
  remember (start depth) as w0 eqn:Hw0. induction 1 as [|w0 log w1 es w2 _ IH Hs]; subst.
  - apply world_inv_start.
  - eapply world_inv_step; [by apply IH|done].
Qed.

(** Nothing is left undone behind a release: it ends the task or is followed by
    the acquisition ([released] knows no other case). *)
Lemma release_is_last hs e acts o pre post :
  Handler.step cfg hs e = Ret (acts, o) → acts = pre ++ Release :: post →
  (post = [] ∧ o = None) ∨ ∃ n, post = [Acquire n; InitBackendIfFresh].
Proof.
  assert (Hone : ∀ (x y : list action) l r, Forall (λ a, a ≠ Release) l → Forall (λ a, a ≠ Release) r →
            l ++ Release :: r = x ++ Release :: y → y = r).
  { intros x y l r Hl Hr. revert x. induction Hl as [|a l Ha _ IH]; intros [|b x]; cbn; intros Heq; simplify_eq.
    - done.
    - exfalso. rewrite Forall_app, Forall_cons in Hr. by destruct Hr as (_ & ? & _).
    - by apply IH with x. }
  assert (Hno : ∀ l, Forall quiet l → Forall (λ a, a ≠ Release) l).
  { intros l Hl. eapply Forall_impl; [exact Hl|]. by intros [] ? [=]. }
  intros Hs ->. destruct e as [now data| |data| |]; cbn in Hs.
  - apply on_client_data_spec in Hs as (ms & x & s1 & _ & _ & [(s2 & _ & _ & _ & Ha)|(-> & Ha & _)]).
    + exfalso. assert (Release ∈ pre ++ Release :: post) as Hin by set_solver.
      destruct Ha as [Ha|(s3 & m & err & Ha & _)]; rewrite Ha in Hin; unfold reject in Hin; set_solver.
    + left. split; [|done]. by apply (Hone pre post [] []).
  - injection Hs as Ha <-. left. split; [|done]. by apply (Hone pre post [] []).
  - apply on_backend_data_spec in Hs as (obs & s2 & Hobs & -> & _ & Ha).
    apply observer_quiet, Hno in Hobs. destruct Ha as [Ha|[Ha _]].
    + exfalso. assert (Release ∈ pre ++ Release :: post) as Hin by set_solver. rewrite Ha in Hin.
      apply elem_of_app in Hin as [Hin|Hin]; [|set_solver]. rewrite Forall_forall in Hobs. by apply (Hobs Release).
    + right. eexists. apply (Hone pre post (obs ++ [ToClient data])); [| |rewrite Ha, <-app_assoc; reflexivity].
      * apply Forall_app. split; [done|]. by repeat constructor.
      * by repeat constructor.
  - injection Hs as Ha <-. left. split; [|done]. by apply (Hone pre post [] []).
  - case_match; [|by destruct pre]. unfold on_deadline in Hs. injection Hs as Ha <-. left. split; [|done].
    eapply (Hone pre post [_; _; _] []); [| |exact Ha]; by repeat constructor.
Qed.
End system.

(** C1. Sessions that share a pool are isolated.  Whatever tasks do and in
    whatever order they are scheduled, failures and aborted tasks included: a
    backend connection has one tenant at a time, every byte read from it or written
    to it and every start-up on it is its tenant's, and it is recycled between two
    tenants; each session does what the handler alone would do on the events it
    saw, whatever the others do; a session that gives a connection up and goes on
    leaves nothing of itself on it; and no connection is ever kept for a client. *)
Theorem sessions_isolated `{Build} `{Unicode} `{FloatParser} cfg pcfg depth log w :
  run cfg pcfg (start depth) log w →
  (∀ b, is_Some (tenure_of b log)) ∧
  (∀ k, ∃ acts o, Handler.run cfg (Handler.start cfg) (events k log) = Ret (acts, o) ∧
                  performed k log `prefix_of` acts) ∧
  (∀ k b hs, Gave k b (Some hs) ∈ log → conn_state hs = CS.new (max_prepared_statements cfg)) ∧
  Pool.sticky_map (Pool.pm (sys w)) = ∅.
Proof.
  intros (Hp & Ht & Hh & Hg)%world_inv. split_and!; [| |exact Hg|apply Hp].
  - intros b. destruct (decide (b ∈ Pool.conns (sys w))) as [Hb|Hb]; [|by rewrite (i_absent _ _ Ht b Hb)].
    pose proof (i_sticky _ Hp) as Hst. destruct w as [[p l ws] ss]. cbn [sys] in *.
    rewrite elem_of_conns in Hb by done.
    destruct Hb as [Hb|[k Hb]]; [by rewrite (i_idle _ _ Ht b Hb)|by rewrite (i_tenant _ _ Ht k b Hb)].
  - intros k. eapply (hist_gone cfg k _ log), Hh.
Qed.

(** ** A concrete run

    Session 1 opens a connection, sends a query on it and leaves; session 2 gets
    the same connection. *)
#[local] Existing Instance release_build.
#[local] Existing Instance ascii_tables.
#[local] Existing Instance no_floats.

Definition demo : Config := demo_config Modes.StrategyHybrid.
Definition demo_pool : Pool.PoolManagerConfig := {| Pool.idle_unpin_secs := 60; Pool.wait_timeout_ms := 1000 |}.
Definition demo_log : list entry :=
  [Opened 0; Took 1 0] ++ [StartedUp 1 0] ++ [Happened 1 0 (ClientData 0 (query "SELECT 1"))]
  ++ [Did 1 0 (ToBackend (query "SELECT 1"))] ++ [Happened 1 0 ClientClosed]
  ++ [Did 1 0 Release; Gave 1 0 None] ++ [Recycled 0; Took 2 0].

Lemma demo_holds : holds [Pool.fresh_managed 1 0] 1 0.
Proof. exists (Pool.fresh_managed 1 0). split; [left|split; reflexivity]. Qed.

Lemma demo_run : ∃ w, run demo demo_pool (start 4) demo_log w.
Proof.
  unfold demo_log. rewrite !app_assoc.
  set (p1 := Pool.check_out 0 (Pool.new 4)).
  set (hs := Handler.after Modes.StrategyHybrid [ClientData 0 (query "SELECT 1")]).
  set (p2 := Pool.release 0 (Pool.fresh_managed 1 0) p1).
  eexists. eapply run_snoc; [eapply run_snoc; [eapply run_snoc; [eapply run_snoc; [eapply run_snoc;
    [eapply run_snoc; [eapply (run_snoc _ _ _ []); [apply run_nil|]|]|]|]|]|]|].
  - apply (w_join demo demo_pool (Pool.new 4) [] [] ∅ 1 (Some 0%nat) (Pool.Opened 0)
             (Pool.Got (Pool.fresh_managed 1 0)) p1); [done| | |done].
    + constructor. vm_compute. set_solver.
    + right. split; [reflexivity|by vm_compute].
  - apply w_begin; [reflexivity|apply demo_holds].
  - eapply (w_event demo demo_pool _ _ 1 0 _ _ _ (Some hs)); [reflexivity|apply demo_holds|].
    vm_compute. reflexivity.
  - eapply w_act; [reflexivity|apply demo_holds|reflexivity].
  - eapply w_event; [reflexivity|apply demo_holds|reflexivity].
  - apply (w_release demo demo_pool p1 [] [] [] _ (Pool.fresh_managed 1 0) 0 0 None []); reflexivity.
  - apply (w_join demo demo_pool p2 [] [] _ 2 (Some 0%nat) Pool.Kept (Pool.Got (Pool.fresh_managed 2 0))
             (Pool.check_out 0 p2)); [reflexivity| | |reflexivity].
    + constructor. vm_compute. set_solver.
    + right. split; [reflexivity|by vm_compute].
Qed.

Lemma sessions_isolated_witness :
  tenure_of 0 demo_log = Some (Tenant 2) ∧ (∀ b, is_Some (tenure_of b demo_log)) ∧
  performed 1 demo_log = [ToBackend (query "SELECT 1"); Release].
Proof.
  split; [vm_compute; reflexivity|]. split; [|vm_compute; reflexivity].
  destruct demo_run as [w Hr].
  destruct (sessions_isolated demo demo_pool 4 demo_log w Hr) as [Hb _]. exact Hb.
Defined.
End System.
