(* ===== verification/Direct.v ===== *)
(** * Entering a session, and sessions without a pool
      (proxy/connection.rs: [handle], [handle_acquire_error] and the error
      responses it sends, [handle_with_owned_backend])

    A session without a pool runs two loops that share the statement cache, one
    per direction.  They are interleaved wherever one of them awaits: the rules
    of [relay_step] are the stretches between two awaits, and the lock of the
    cache is held within one stretch only. *)

From Stdlib Require Import DecimalString DecimalFacts.
From S2P Require Import Prelude RustStr CommandDetector ConnState Wire Extractor StmtCache Bind Modes Handler WaitQueue PoolManager.

Module Direct.
Import BindParams Handler.

(** ** Error responses for a refused acquisition *)

(** [u64]'s decimal [Display]. *)
Definition u64_to_string (z : Z) : bytes := lit (NilZero.string_of_uint (N.to_uint (Z.to_N z))).

Definition error_with_hint (code msg hint : bytes) : bytes :=
  let fields :=
    (x53 :: lit "ERROR" ++ [x00]) ++ (x43 :: code ++ [x00]) ++ (x4d :: msg ++ [x00])
      ++ (x48 :: hint ++ [x00]) ++ [x00] in
  MSG_ERROR_RESPONSE :: be32 (zlen fields + 4) ++ fields.

Definition build_queue_full_error (retry_hint_ms : Z) : bytes :=
  error_with_hint (lit "53300") (lit "connection pool queue is full")
    (lit "Server is under load. Please retry in " ++ u64_to_string retry_hint_ms ++ lit "ms.").
Definition build_wait_timeout_error : bytes :=
  error_with_hint (lit "53300") (lit "timeout waiting for connection from pool")
    (lit "Server is under load. Please retry later.").
Definition build_pool_paused_error : bytes :=
  error_with_hint (lit "57P03") (lit "pool is paused")
    (lit "The proxy pool was paused by an administrator. Retry after RESUME.").

Inductive BackpressureMode : Type := RejectImmediate | RetryHint | LogAndReject.
#[export] Instance BackpressureMode_eq_dec : EqDecision BackpressureMode.
Proof. solve_decision. Defined.

Inductive effect : Type :=
| RecordQueueRejected | RecordPoolWaitTimeout | RecordRequestShed | RecordBackendConnectTimeout
| WriteClient (data : bytes).

Definition classify_pool_error_for_metrics (msg : bytes) : list effect :=
  if Str.contains msg (lit "Circuit breaker") then [RecordRequestShed]
  else if Str.contains msg (lit "Timed out after") then [RecordBackendConnectTimeout]
  else [].

(** [text] is the message of a pool error; the flag is whether the handler
    returns [Ok]. *)
Definition handle_acquire_error (backpressure_mode : BackpressureMode) (retry_hint_ms : Z)
    (error : Pool.AcquireError) (text : bytes) : list effect * bool :=
  match error with
  | Pool.QueueFull =>
      (RecordQueueRejected ::
       match backpressure_mode with
       | RetryHint => [WriteClient (build_queue_full_error retry_hint_ms)]
       | RejectImmediate | LogAndReject => []
       end, true)
  | Pool.WaitTimeout =>
      (RecordQueueRejected :: RecordPoolWaitTimeout ::
       match backpressure_mode with
       | RetryHint => [WriteClient build_wait_timeout_error]
       | RejectImmediate | LogAndReject => []
       end, true)
  | Pool.Paused => ([RecordQueueRejected; WriteClient build_pool_paused_error], true)
  | Pool.PoolError => (RecordQueueRejected :: classify_pool_error_for_metrics text, false)
  end.

(** The pooled branch of [handle], up to the answer of the pool manager. *)
Definition handle_acquire (connection_id : Z) (got : option nat) (p : Pool.PoolManager)
    : Pool.acquired * Pool.PoolManager :=
  Pool.acquire connection_id (Pool.has_sticky connection_id p) got p.

(** ** The loops *)
Section loops.
Context `{Build} `{Unicode} `{FloatParser}.

Definition cache_message (cache : StmtCache) (m : Message) : outcome StmtCache :=
  match m with
  | Parse name query param_oids =>
      let c := Cache.insert_statement name
                 {| Cache.ps_query := query; Cache.ps_param_oids := param_oids |} cache in
      Ret (Cache.set_pending []
             {| pe_query := query; pe_params := []; pe_incomplete := true |} c)
  | Bind portal statement format_codes params_raw =>
      let '(o, c) := Cache.get_statement statement cache in
      p ← match o with
          | Some stmt =>
              params ← decode_params params_raw format_codes (Cache.ps_param_oids stmt);
              Ret {| pe_query := Cache.ps_query stmt; pe_params := params; pe_incomplete := false |}
          | None =>
              Ret {| pe_query := lit "[unknown: " ++ statement ++ lit "]";
                     pe_params := (λ p, match p with
                                        | Some data => UnknownParam 0 data
                                        | None => Null
                                        end) <$> params_raw;
                     pe_incomplete := true |}
          end;
      Ret (Cache.set_pending portal p c)
  | Query query =>
      Ret (Cache.set_pending []
             {| pe_query := query; pe_params := []; pe_incomplete := false |} cache)
  | Close kind name =>
      Ret (if beqb kind x53 then Cache.remove_statement name cache
           else if beqb kind x50 then Cache.clear_pending name cache else cache)
  | Terminate | Execute _ | Sync => Ret cache
  end.

(** The events of a finished query. *)
Definition owned_completion (cache : StmtCache) (data : bytes) : outcome (list action * StmtCache) :=
  error ← Ext.extract_error data;
  match error with
  | Some error_msg =>
      match Cache.take_pending [] cache with
      | (Some p, c) =>
          Ret ([Publish (pe_query p) (pe_params p) (pe_incomplete p) false (Some error_msg);
                RecordQuery false], c)
      | (None, c) => Ret ([], c)
      end
  | None =>
      Ext.is_query_complete data ≫= λ complete : bool,
      if complete then
        match Cache.take_pending [] cache with
        | (Some p, c) =>
            Ret ([Publish (pe_query p) (pe_params p) (pe_incomplete p) true None;
                  RecordQuery true], c)
        | (None, c) => Ret ([], c)
        end
      else Ret ([], cache)
  end.

(** [for_backend] is the buffer that the client loop has read and is about to
    write, [for_client] that of the backend loop. *)
Record relay : Type := Relay {
  r_extractor : Ext.MessageExtractor;
  r_cache : StmtCache;
  for_backend : option bytes;
  for_client : option bytes
}.

Definition relay_start (max_stmts : nat) : relay :=
  Relay Ext.new (Cache.new max_stmts) None None.

Inductive label : Type := FromClient (data : bytes) | FromBackend (data : bytes) | Did (a : action).

Inductive relay_step : relay → list label → relay → Prop :=
| client_reads x c fc data ms x' c' :
    Ext.extract_messages x data = Ret (ms, x') → ofoldl cache_message c ms = Ret c' →
    relay_step (Relay x c None fc) [FromClient data] (Relay x' c' (Some data) fc)
| client_writes x c fc data :
    relay_step (Relay x c (Some data) fc) [Did (ToBackend data)] (Relay x c None fc)
| backend_reads x c fb data acts c' :
    owned_completion c data = Ret (acts, c') →
    relay_step (Relay x c fb None) (FromBackend data :: (Did <$> acts)) (Relay x c' fb (Some data))
| backend_writes x c fb data :
    relay_step (Relay x c fb (Some data)) [Did (ToClient data)] (Relay x c fb None).

Inductive relay_run : relay → list label → relay → Prop :=
| relay_nil s : relay_run s [] s
| relay_snoc s tr s1 ls s2 : relay_run s tr s1 → relay_step s1 ls s2 → relay_run s (tr ++ ls) s2.
End loops.

(** What was read from and written to either side. *)
Definition from_client : list label → list bytes :=
  omap (λ l, match l with FromClient d => Some d | _ => None end).
Definition from_backend : list label → list bytes :=
  omap (λ l, match l with FromBackend d => Some d | _ => None end).
Definition did : list label → list action :=
  omap (λ l, match l with Did a => Some a | _ => None end).

Definition written : list effect → list bytes :=
  omap (λ e, match e with WriteClient d => Some d | _ => None end).

(** ** Lemmas *)
Lemma did_app a b : did (a ++ b) = did a ++ did b.
Proof. apply omap_app. Qed.
Lemma from_client_app a b : from_client (a ++ b) = from_client a ++ from_client b.
Proof. apply omap_app. Qed.
Lemma from_backend_app a b : from_backend (a ++ b) = from_backend a ++ from_backend b.
Proof. apply omap_app. Qed.
Lemma to_backend_app a b : to_backend (a ++ b) = to_backend a ++ to_backend b.
Proof. apply omap_app. Qed.
Lemma to_client_app a b : to_client (a ++ b) = to_client a ++ to_client b.
Proof. apply omap_app. Qed.
Lemma did_Did acts : did (Did <$> acts) = acts.
Proof. induction acts as [|a acts IH]; [done|]. unfold did in *. simpl. by f_equal. Qed.
Lemma from_client_Did acts : from_client (Did <$> acts) = [].
Proof. induction acts as [|a acts IH]; [done|]. exact IH. Qed.
Lemma from_backend_Did acts : from_backend (Did <$> acts) = [].
Proof. induction acts as [|a acts IH]; [done|]. exact IH. Qed.

Lemma owned_completion_observes `{Build} c data acts c' :
  owned_completion c data = Ret (acts, c') → Forall observer acts.
Proof.
  unfold owned_completion. intros He. outcome_inv. destruct a as [msg|].
  - destruct (Cache.take_pending [] c) as [[p|] c1]; outcome_inv; simplify_eq; by repeat constructor.
  - outcome_inv. destruct a.
    + destruct (Cache.take_pending [] c) as [[p|] c1]; outcome_inv; simplify_eq; by repeat constructor.
    + simplify_eq. constructor.
Qed.

(** Characters that are ASCII and not NUL make a text. *)
Definition plain (b : byte) : bool := Str.in_range 1 127 b.

Lemma plain_ascii b : plain b = true → Str.is_ascii b = true.
Proof.
  unfold plain, Str.is_ascii, Str.in_range. rewrite !andb_true_iff, !Z.leb_le. lia.
Qed.

Lemma plain_utf8 s : Forall (λ b, plain b = true) s → Str.utf8_valid s = true.
Proof.
  unfold Str.utf8_valid. induction 1 as [|b s Hb _ IH]; [done|]. cbn [length Str.utf8_valid_fuel].
  unfold Str.utf8_step. simpl. rewrite plain_ascii by done. simpl. by rewrite drop_0.
Qed.

Lemma plain_text s : Forall (λ b, plain b = true) s → Ext.text s = true.
Proof.
  intros Hs. unfold Ext.text. rewrite plain_utf8 by done. apply bool_decide_eq_true.
  intros Hin. rewrite Forall_forall in Hs. specialize (Hs _ Hin). done.
Qed.

Lemma plain_uint d : Forall (λ b, plain b = true) (lit (NilEmpty.string_of_uint d)).
Proof. induction d; simpl; constructor; done. Qed.

Lemma plain_u64 z : Forall (λ b, plain b = true) (u64_to_string z).
Proof.
  unfold u64_to_string, NilZero.string_of_uint. destruct (N.to_uint _); try apply plain_uint.
  by repeat constructor.
Qed.

(** A [u64] has at most 64 decimal digits (it has at most 20). *)
Lemma double_digits d :
  (Decimal.nb_digits (Decimal.Little.double d) ≤ S (Decimal.nb_digits d))%nat ∧
  (Decimal.nb_digits (Decimal.Little.succ_double d) ≤ S (Decimal.nb_digits d))%nat.
Proof. induction d; simpl; lia. Qed.

Lemma pos_digits p : (Decimal.nb_digits (Pos.to_little_uint p) ≤ Pos.size_nat p)%nat.
Proof.
  induction p as [p IH|p IH|]; simpl; [| |lia];
    destruct (double_digits (Pos.to_little_uint p)); lia.
Qed.

Lemma pos_size n p : Zpos p < 2 ^ Z.of_nat n → (Pos.size_nat p ≤ n)%nat.
Proof.
  revert n. induction p as [p IH|p IH|]; intros [|n] Hp; simpl; try lia;
    rewrite Nat2Z.inj_succ, Z.pow_succ_r in Hp by lia; specialize (IH n); lia.
Qed.

Lemma string_digits d : length (lit (NilEmpty.string_of_uint d)) = Decimal.nb_digits d.
Proof. induction d; simpl; f_equal; done. Qed.

Lemma u64_digits z : 0 ≤ z < two64 → zlen (u64_to_string z) ≤ 64.
Proof.
  intros Hz. unfold u64_to_string, NilZero.string_of_uint, zlen.
  destruct z as [|p|p]; [vm_compute; congruence| |lia]. simpl.
  assert (Hd : (Decimal.nb_digits (Pos.to_uint p) ≤ 64)%nat).
  { unfold Pos.to_uint. rewrite nb_digits_rev. pose proof (pos_digits p).
    pose proof (pos_size 64 p) as Hs. unfold two64 in Hz. simpl in Hs. lia. }
  destruct (Pos.to_uint p) eqn:He; try (rewrite string_digits; simpl in *; lia). done.
Qed.

Lemma error_with_hint_frame code msg hint :
  error_with_hint code msg hint
  = frame MSG_ERROR_RESPONSE
      (Ext.put_fields [(x53, lit "ERROR"); (x43, code); (x4d, msg); (x48, hint)]).
Proof.
  unfold error_with_hint, frame. rewrite !Ext.put_fields_cons. unfold Ext.put_fields. cbv zeta.
  rewrite (Z.add_comm _ 4). cbn [fmap list_fmap concat]. by rewrite <-!app_comm_cons, <-!app_assoc.
Qed.

(** What a client reads from such an error response. *)
Lemma error_with_hint_read `{Build} code msg hint :
  Ext.text code = true → Ext.text msg = true → Ext.text hint = true →
  zlen (error_with_hint code msg hint) < 2 ^ 31 →
  Ext.extract_error (error_with_hint code msg hint) = Ret (Some (lit "ERROR: " ++ msg)) ∧
  Ext.extract_error_scrubbed (error_with_hint code msg hint) = Ret (Some (lit "ERROR: " ++ code)).
Proof.
  intros Hc Hm Hh Hl. rewrite error_with_hint_frame in *.
  set (fields := [(x53, lit "ERROR"); (x43, code); (x4d, msg); (x48, hint)]) in *.
  rewrite zlen_frame in Hl.
  assert (Hf : Ext.find_error_fields (frame MSG_ERROR_RESPONSE (Ext.put_fields fields))
    = Ret (Some {| Ext.severity := Some (lit "ERROR"); Ext.sqlstate := Some code;
                   Ext.message := Some msg |})).
  { rewrite <-(app_nil_r (frame _ _)).
    rewrite (Ext.find_error_fields_frames [] (Ext.put_fields fields) []) by (constructor || lia).
    rewrite Ext.parse_error_fields_put; [done|]. repeat constructor; done. }
  unfold Ext.extract_error, Ext.extract_error_scrubbed. by rewrite Hf.
Qed.

Lemma zlen_lit_le s n : (length (lit s) <=? n)%nat = true → zlen (lit s) ≤ Z.of_nat n.
Proof. intros Hn%Nat.leb_le. unfold zlen. lia. Qed.

Lemma queue_full_read `{Build} hint :
  0 ≤ hint < two64 →
  Ext.extract_error_scrubbed (build_queue_full_error hint)
  = Ret (Some (lit "ERROR: " ++ lit "53300")).
Proof.
  intros Hh. unfold build_queue_full_error. apply error_with_hint_read; [reflexivity|reflexivity| |].
  - apply plain_text. rewrite !Forall_app.
    split_and!; [by repeat constructor|apply plain_u64|by repeat constructor].
  - unfold error_with_hint. cbv zeta. pose proof (u64_digits hint Hh).
    repeat first [rewrite zlen_app|rewrite zlen_cons|rewrite zlen_be32]. unfold zlen in *. simpl. lia.
Qed.
Lemma wait_timeout_read `{Build} :
  Ext.extract_error_scrubbed build_wait_timeout_error = Ret (Some (lit "ERROR: " ++ lit "53300")).
Proof. apply error_with_hint_read; vm_compute; reflexivity. Qed.
Lemma pool_paused_read `{Build} :
  Ext.extract_error_scrubbed build_pool_paused_error = Ret (Some (lit "ERROR: " ++ lit "57P03")).
Proof. apply error_with_hint_read; vm_compute; reflexivity. Qed.

(** ** Theorems *)

(** What a refused client is told: with the retry-hint mode a full queue
    and a time-out are answered with SQLSTATE 53300 and otherwise with silence,
    a paused pool is always answered with 57P03, and a pool error with nothing,
    the handler failing; every refusal is counted. *)
Lemma acquire_error_reported `{Build} mode hint e text :
  0 ≤ hint < two64 →
  let r := handle_acquire_error mode hint e text in
  head r.1 = Some RecordQueueRejected ∧
  match e with
  | Pool.QueueFull | Pool.WaitTimeout =>
      r.2 = true ∧
      (mode ≠ RetryHint → written r.1 = []) ∧
      (mode = RetryHint → ∃ m, written r.1 = [m] ∧
         Ext.extract_error_scrubbed m = Ret (Some (lit "ERROR: 53300")))
  | Pool.Paused =>
      r.2 = true ∧ ∃ m, written r.1 = [m] ∧
        Ext.extract_error_scrubbed m = Ret (Some (lit "ERROR: 57P03"))
  | Pool.PoolError => r.2 = false ∧ written r.1 = []
  end.
Proof.
  intros Hh. destruct e; simpl.
  - split_and!; [done..|]. unfold classify_pool_error_for_metrics. by repeat case_match.
  - split_and!; [done..|by destruct mode|]. intros ->. eexists. split; [done|].
    exact (queue_full_read hint Hh).
  - split_and!; [done..|by destruct mode|]. intros ->. eexists. split; [done|].
    exact wait_timeout_read.
  - split_and!; [done..|]. eexists. split; [done|]. exact pool_paused_read.
Qed.

(** C10. Without a pool the proxy is transparent: whatever the interleaving of
    the two loops and whatever the messages, the backend has been sent exactly
    the buffers read from the client, in order, but for the one about to be
    written, and likewise in the other direction. *)
Theorem relay_transparent `{Build} `{FloatParser} max_stmts tr s :
  relay_run (relay_start max_stmts) tr s →
  from_client tr = to_backend (did tr) ++ option_list (for_backend s) ∧
  from_backend tr = to_client (did tr) ++ option_list (for_client s).
Proof.
  remember (relay_start max_stmts) as s0 eqn:Hs0. induction 1 as [|s0 tr s1 ls s2 _ IH Hs]; subst.
  - done.
  - destruct IH as [IHb IHc]; [done|].
    rewrite from_client_app, from_backend_app, did_app, to_backend_app, to_client_app, IHb, IHc.
    destruct Hs as [x c fc data ms x' c' _ _|x c fc data|x c fb data acts c' He|x c fb data]; simpl.
    + by rewrite !app_nil_r.
    + by rewrite !app_nil_r.
    + apply owned_completion_observes in He.
      change (from_client (FromBackend data :: (Did <$> acts))) with (from_client (Did <$> acts)).
      change (from_backend (FromBackend data :: (Did <$> acts)))
        with (data :: from_backend (Did <$> acts)).
      change (did (FromBackend data :: (Did <$> acts))) with (did (Did <$> acts)).
      rewrite from_client_Did, from_backend_Did, did_Did.
      rewrite (to_backend_quiet acts) by (by apply observer_quiet).
      rewrite (to_client_observer acts) by done.
      by rewrite !app_nil_r.
    + by rewrite !app_nil_r.
Qed.

(** Both kinds of session keep the statement cache alike: a message that
    the pooled handler accepts changes its cache as the loop without a pool
    changes its own. *)
Lemma pooled_and_direct_agree `{Build} `{Unicode} `{FloatParser} cfg i s m s' acts :
  on_message cfg i s m = Ret (s', acts, Forward) →
  cache_message (stmt_cache s) m = Ret (stmt_cache s').
Proof.
  destruct m as [q|n q o|portal st codes ps|p|k n| |]; cbn [cache_message on_message]; intros Hm.
  - unfold on_query in Hm. outcome_inv. destruct a; outcome_inv; by simplify_eq/=.
  - unfold on_parse in Hm. outcome_inv. destruct a; outcome_inv; by simplify_eq/=.
  - unfold on_bind in Hm. destruct (Cache.get_statement st (stmt_cache s)) as [o c].
    apply outcome_bind_Ret in Hm as (p & -> & Hm). by simplify_eq/=.
  - by simplify_eq/=.
  - simplify_eq/=. unfold on_close. destruct (beqb k x53); [done|]. by destruct (beqb k x50).
  - by simplify_eq/=.
  - by simplify_eq/=.
Qed.

(** A client whose connection is bound to it gets that connection back when it
    enters, whatever the pool would answer. *)
Lemma bound_client_gets_its_connection cid got c info p :
  Pool.accepting p = true → Pool.sticky_map p !! cid = Some (c, info) →
  (handle_acquire cid got p).1
  = Pool.Got {| Pool.connection := Some c; Pool.client_id := cid; Pool.is_pinned := true;
                Pool.mc_binding_id := Some (Pool.binding_id info) |}.
Proof.
  intros Ha Hs. unfold handle_acquire, Pool.has_sticky, Pool.acquire, Pool.get_sticky_connection.
  by rewrite Ha, Hs.
Qed.

(** ** Concrete runs *)
#[local] Existing Instance release_build.
#[local] Existing Instance no_floats.
#[local] Existing Instance ascii_tables.

Definition batch : bytes := Ext.serialize_message (Query (lit "SELECT 1; SELECT 2")).
Definition complete : bytes := frame x43 (lit "SELECT 1" ++ [x00]).
Definition after_read : relay :=
  Relay Ext.new
    (Cache.set_pending []
       {| pe_query := lit "SELECT 1; SELECT 2"; pe_params := []; pe_incomplete := false |}
       (Cache.new 4)) (Some batch) None.

Lemma relay_transparent_witness :
  from_client [FromClient batch] = to_backend (did [FromClient batch]) ++ option_list (Some batch) ∧
  from_backend [FromClient batch] = to_client (did [FromClient batch]) ++ option_list None.
Proof.
  apply (relay_transparent 4 [FromClient batch] after_read).
  apply (relay_snoc (relay_start 4) [] (relay_start 4)); [constructor|].
  apply (client_reads Ext.new (Cache.new 4) None batch [Query (lit "SELECT 1; SELECT 2")]);
    vm_compute; reflexivity.
Defined.

(** Without a pool a batch is published as one event, where the pooled handler
    publishes one for each statement. *)
Example batch_is_one_event :
  (λ r, length r.1) <$> owned_completion (r_cache after_read) complete = Ret 2%nat ∧
  (λ r, length r.1) <$> on_completion (with_cache (r_cache after_read)
                           (start (demo_config Modes.StrategyHybrid))) complete = Ret 3%nat.
Proof. vm_compute. split; reflexivity. Qed.
End Direct.
