(* ===== verification/Config.v ===== *)
(** * Configuration (config/mod.rs), the choice of a publisher
      (publisher/mod.rs) and routing (routing/mod.rs)

    The configuration structs, their defaults, the checks of [Config::validate],
    the resolution of the password file and the detection of unknown environment
    variables in [Config::load].  Reading and merging sources is done by the
    crates config and serde; environment and files are arguments.  How the
    standard library reads a socket address is the class [SocketAddrs]. *)

From Stdlib Require Import Floats.SpecFloat.
From S2P Require Import Prelude RustStr Events CommandDetector ConnState CircuitBreaker Acquire StmtCache Bind Anonymize Modes HotData Handler Metrics Direct.

(** [parse::<SocketAddr>()], and whether the address is a loopback one. *)
Class SocketAddrs : Type := { parse_socket_addr : bytes → option bool }.

Module Conf.

Inductive DatabaseProtocol : Type := Postgres.
Inductive AuthType : Type := Trust | Md5 | ScramSha256 | Cert.
#[export] Instance AuthType_eq_dec : EqDecision AuthType.
Proof. solve_decision. Defined.
Inductive TlsSslMode : Type := Disable | Allow | Require_ | VerifyCa | VerifyFull.
#[export] Instance TlsSslMode_eq_dec : EqDecision TlsSslMode.
Proof. solve_decision. Defined.
Definition requires_encryption (m : TlsSslMode) : bool :=
  match m with Require_ | VerifyCa | VerifyFull => true | _ => false end.

Record ProxyConfig : Type := {
  listen_address : bytes; unix_socket : option bytes; max_connections : Z;
  shutdown_timeout_secs : Z
}.
Record BackendConfig : Type := {
  protocol_ : DatabaseProtocol; be_host : bytes; be_port : Z; be_database : bytes; be_user : bytes;
  be_password : bytes; password_file : option bytes; be_pool_size : Z; connection_timeout_ms : Z
}.
Record DatabaseConfig : Type := {
  db_name : bytes; db_host : bytes; db_port : Z; db_database : bytes; db_user : bytes;
  db_password : bytes; db_pool_size : option Z
}.
#[export] Instance DatabaseConfig_eq_dec : EqDecision DatabaseConfig.
Proof. solve_decision. Defined.
Record ObservabilityConfig : Type := {
  enable_tracing : bool; otlp_endpoint : option bytes; service_name : bytes;
  metrics_server_address : bytes; enable_metrics_server : bool; unsafe_debug_logging : bool;
  enable_debug_endpoints : bool; metrics_allow_non_loopback : bool
}.
Record ProtocolConfig : Type := { max_prepared_statements : Z }.
Record PublisherConfig : Type := {
  pub_enabled : bool; batch_size : Z; flush_interval_ms : Z; pub_anonymize : bool;
  publisher_type : bytes; max_queue_size : Z; http_endpoint : option bytes; http_timeout_ms : Z;
  http_max_retries : Z; http_api_key : option bytes; http_compression : bool;
  cfg_shadow_id : option bytes; allow_insecure : bool; anonymize_salt : option bytes;
  parse_failure_mode : Anon.ParseFailureMode
}.
Record LatencyBudget : Type := {
  overhead_p50_micros : Z; overhead_p95_micros : Z; overhead_p99_micros : Z;
  reference_workload : bytes
}.
Record PerformanceConfig : Type := {
  latency_budget : LatencyBudget; query_timeout_secs : Z;
  connection_pooling : Modes.PoolingStrategy; pool_size : Z; pool_min_idle : Z;
  pool_timeout_secs : Z; pool_recycle_secs : Z; pool_aggressive_unpinning : bool; buffer_size : Z;
  pool_queue_depth : Z; pool_idle_unpin_secs : Z; pool_lifo : bool; pool_reset_timeout_ms : Z;
  pool_ratio_warning_threshold : Z; pool_backpressure_mode : Direct.BackpressureMode;
  pool_retry_hint_ms : Z; pool_queue_saturation_warn_threshold : spec_float
}.
Record HealthcheckConfig : Type := {
  active_enabled : bool; interval_secs : Z; timeout_ms : Z; hc_failure_threshold : Z
}.
Record ResilienceConfig : Type := {
  circuit_breaker : CB.CircuitBreakerConfig; connection_retry : Acquire.ConnectionRetryConfig;
  healthcheck : HealthcheckConfig
}.
Record TlsConfig : Type := {
  client_tls_sslmode : TlsSslMode; client_tls_cert_file : option bytes;
  client_tls_key_file : option bytes; client_tls_ca_file : option bytes;
  server_tls_sslmode : TlsSslMode; server_tls_ca_file : option bytes;
  server_tls_cert_file : option bytes; server_tls_key_file : option bytes
}.
Record AuthConfig : Type := {
  auth_type : AuthType; auth_file : option bytes; auth_query : option bytes; allow_trust : bool
}.
Record AdminConfig : Type := {
  admin_enabled : bool; admin_users : option bytes; admin_password : option bytes
}.
Record Config : Type := config {
  proxy : ProxyConfig;
  backend : BackendConfig;
  databases : list DatabaseConfig;
  observability : ObservabilityConfig;
  protocol : ProtocolConfig;
  publisher : PublisherConfig;
  performance : PerformanceConfig;
  resilience : ResilienceConfig;
  tls : TlsConfig;
  auth : AuthConfig;
  admin : AdminConfig
}.

Definition default_tls : TlsConfig := {|
  client_tls_sslmode := Disable; client_tls_cert_file := None; client_tls_key_file := None;
  client_tls_ca_file := None; server_tls_sslmode := Disable; server_tls_ca_file := None;
  server_tls_cert_file := None; server_tls_key_file := None
|}.
Definition default_auth : AuthConfig :=
  {| auth_type := Trust; auth_file := None; auth_query := None; allow_trust := false |}.
Definition default_admin : AdminConfig :=
  {| admin_enabled := false; admin_users := None; admin_password := None |}.
Definition default_latency_budget : LatencyBudget := {|
  overhead_p50_micros := 250; overhead_p95_micros := 750; overhead_p99_micros := 1000;
  reference_workload := lit "oltp-point-select"
|}.
Definition default_pool_queue_saturation_warn_threshold : spec_float := f64_lit 8 10.

Definition default_config : Config := {|
  proxy := {| listen_address := lit "127.0.0.1:5433"; unix_socket := None; max_connections := 100;
              shutdown_timeout_secs := 30 |};
  backend := {| protocol_ := Postgres; be_host := lit "localhost"; be_port := 5432;
                be_database := lit "postgres"; be_user := lit "postgres"; be_password := [];
                password_file := None; be_pool_size := 10; connection_timeout_ms := 5000 |};
  databases := [];
  observability := {| enable_tracing := true; otlp_endpoint := Some (lit "http://localhost:4317");
                      service_name := lit "scry-proxy";
                      metrics_server_address := lit "127.0.0.1:9090";
                      enable_metrics_server := true; unsafe_debug_logging := false;
                      enable_debug_endpoints := false; metrics_allow_non_loopback := false |};
  protocol := {| max_prepared_statements := 1000 |};
  publisher := {| pub_enabled := true; batch_size := 100; flush_interval_ms := 1000;
                  pub_anonymize := true; publisher_type := lit "debug"; max_queue_size := 10000;
                  http_endpoint := None; http_timeout_ms := 500; http_max_retries := 2;
                  http_api_key := None; http_compression := true; cfg_shadow_id := None;
                  allow_insecure := false; anonymize_salt := None;
                  parse_failure_mode := Anon.Redact |};
  performance := {| latency_budget := default_latency_budget; query_timeout_secs := 0;
                    connection_pooling := Modes.StrategyHybrid; pool_size := 50; pool_min_idle := 5;
                    pool_timeout_secs := 30; pool_recycle_secs := 3600;
                    pool_aggressive_unpinning := false; buffer_size := 8192;
                    pool_queue_depth := 500; pool_idle_unpin_secs := 60; pool_lifo := true;
                    pool_reset_timeout_ms := 5000; pool_ratio_warning_threshold := 20;
                    pool_backpressure_mode := Direct.RejectImmediate; pool_retry_hint_ms := 200;
                    pool_queue_saturation_warn_threshold :=
                      default_pool_queue_saturation_warn_threshold |};
  resilience := {|
    circuit_breaker := {| CB.enabled := true; CB.failure_threshold := 5; CB.success_threshold := 2;
                          CB.window_secs := 30; CB.open_timeout_secs := 60;
                          CB.use_health_monitor := true |};
    connection_retry := {| Acquire.enabled := true; Acquire.max_attempts := 3;
                           Acquire.initial_backoff_ms := 50; Acquire.max_backoff_ms := 5000;
                           Acquire.backoff_multiplier := f64_of 2;
                           Acquire.jitter_factor := f64_lit 1 10 |};
    healthcheck := {| active_enabled := true; interval_secs := 30; timeout_ms := 1000;
                      hc_failure_threshold := 3 |} |};
  tls := default_tls;
  auth := default_auth;
  admin := default_admin
|}.

(** ** Checks *)
Inductive config_error : Type :=
| ScramUnsupported
| CertNeedsVerification (m : TlsSslMode)
| Md5NeedsAuthFile
| TrustNotAcknowledged
| NoBackendPassword
| AnonymizeNeedsSalt
| HttpNeedsEndpoint
| EndpointNotHttps (endpoint : bytes)
| NoConnectionsAllowed
| EmptyPool
| BadMetricsAddress (address : bytes)
| MetricsNotLoopback (address : bytes).

Inductive config_warning : Type :=
| DebugNotMounted (address : bytes)
| RatioTooHigh (max_connections ratio pool_size : Z)
| QueueTooSmall (depth max_connections pool_size expected_waiters : Z)
| PoolLargerThanNeeded (pool_size max_connections : Z).

Definition is_none {A} (o : option A) : bool := match o with None => true | _ => false end.
Definition pooling_disabled (s : Modes.PoolingStrategy) : bool :=
  match s with Modes.StrategyDisabled => true | _ => false end.

(** A check that stops with an error, as [anyhow::bail!] does. *)
Definition ensure {A} (bad : bool) (e : config_error) (k : A + config_error) : A + config_error :=
  if bad then inr e else k.

Section validate.
Context `{SocketAddrs}.

Definition check_metrics_address (o : ObservabilityConfig) (k : list config_warning → list config_warning + config_error)
    : list config_warning + config_error :=
  if enable_metrics_server o then
    match parse_socket_addr (metrics_server_address o) with
    | None => inr (BadMetricsAddress (metrics_server_address o))
    | Some true => k []
    | Some false =>
        ensure (negb (metrics_allow_non_loopback o)) (MetricsNotLoopback (metrics_server_address o))
          (k (if enable_debug_endpoints o then [DebugNotMounted (metrics_server_address o)] else []))
    end
  else k [].

Definition ratio_warning (c : Config) : list config_warning :=
  let p := performance c in let m := max_connections (proxy c) in
  if (0 <? pool_ratio_warning_threshold p) && (0 <? pool_size p) then
    let ratio := f64_div (f64_of m) (f64_of (pool_size p)) in
    if f64_gt ratio (f64_of (pool_ratio_warning_threshold p))
    then [RatioTooHigh m (Acquire.u64_of_f64 ratio) (pool_size p)] else []
  else [].
Definition queue_warning (c : Config) : list config_warning :=
  let p := performance c in let m := max_connections (proxy c) in
  let expected_waiters := Timeline.saturating_sub m (pool_size p) in
  if (0 <? expected_waiters) && (pool_queue_depth p <? expected_waiters / 2)
  then [QueueTooSmall (pool_queue_depth p) m (pool_size p) expected_waiters] else [].
Definition size_warning (c : Config) : list config_warning :=
  let p := performance c in let m := max_connections (proxy c) in
  if m <? pool_size p then [PoolLargerThanNeeded (pool_size p) m] else [].

Definition check_endpoint (p : PublisherConfig) (k : list config_warning + config_error)
    : list config_warning + config_error :=
  if pub_enabled p && bool_decide (publisher_type p = lit "http") then
    match http_endpoint p with
    | None => inr HttpNeedsEndpoint
    | Some e => ensure (negb (Str.starts_with e (lit "https://")) && negb (allow_insecure p))
                       (EndpointNotHttps e) k
    end
  else k.

Definition validate (c : Config) : list config_warning + config_error :=
  ensure (bool_decide (auth_type (auth c) = ScramSha256)) ScramUnsupported (
  ensure (bool_decide (auth_type (auth c) = Cert)
          && negb (match client_tls_sslmode (tls c) with VerifyCa | VerifyFull => true | _ => false end))
         (CertNeedsVerification (client_tls_sslmode (tls c))) (
  ensure (bool_decide (auth_type (auth c) = Md5) && is_none (auth_file (auth c))) Md5NeedsAuthFile (
  ensure (bool_decide (auth_type (auth c) = Trust) && negb (allow_trust (auth c)))
         TrustNotAcknowledged (
  ensure (bool_decide (be_password (backend c) = [])) NoBackendPassword (
  ensure (pub_enabled (publisher c) && pub_anonymize (publisher c)
          && is_none (anonymize_salt (publisher c))) AnonymizeNeedsSalt (
  check_endpoint (publisher c) (
  ensure (max_connections (proxy c) =? 0) NoConnectionsAllowed (
  ensure (negb (pooling_disabled (connection_pooling (performance c)))
          && (pool_size (performance c) =? 0)) EmptyPool (
  check_metrics_address (observability c) (λ ws,
  inl (ws ++ ratio_warning c ++ queue_warning c ++ size_warning c))))))))))).
End validate.

(** ** Secrets from files ([Config::load]) *)
Inductive load_error : Type :=
| BothPasswordSources
| PasswordFileUnreadable (path : bytes)
| PasswordFileEmpty (path : bytes)
| UnknownKeys (keys : list bytes).

(** [read_file]: [fs::read_to_string], [None] when it fails. *)
Definition resolve_password (read_file : bytes → option bytes) (c : Config) : Config + load_error :=
  let b := backend c in
  match password_file b with
  | None => inl c
  | Some path =>
      if negb (bool_decide (be_password b = [])) then inr BothPasswordSources
      else match read_file path with
           | None => inr (PasswordFileUnreadable path)
           | Some contents =>
               let secret := Str.trim contents in
               if bool_decide (secret = []) then inr (PasswordFileEmpty path)
               else inl (config (proxy c)
                     {| protocol_ := protocol_ b; be_host := be_host b; be_port := be_port b;
                        be_database := be_database b; be_user := be_user b; be_password := secret;
                        password_file := password_file b; be_pool_size := be_pool_size b;
                        connection_timeout_ms := connection_timeout_ms b |}
                     (databases c) (observability c) (protocol c) (publisher c) (performance c)
                     (resilience c) (tls c) (auth c) (admin c))
           end
  end.

(** ** Unknown environment variables *)

(** The keys of a [serde_json::Value]; what is not an object has none. *)
Inductive json : Type := Leaf | Object (fields : list (bytes * json)).

Fixpoint collect_paths (value : json) (prefix : bytes) : list bytes :=
  match value with
  | Leaf => []
  | Object fields =>
      (fix go (l : list (bytes * json)) : list bytes :=
         match l with
         | [] => []
         | (k, v) :: l =>
             let path := match prefix with [] => k | _ => prefix ++ lit "." ++ k end in
             path :: collect_paths v path ++ go l
         end) fields
  end.

Definition leaves (names : list string) : list (bytes * json) := (λ n, (lit n, Leaf)) <$> names.

(** [serde_json::to_value(Config::default())]. *)
Definition config_value : json := Object [
  (lit "proxy", Object (leaves ["listen_address"; "unix_socket"; "max_connections";
     "shutdown_timeout_secs"]%string));
  (lit "backend", Object (leaves ["protocol"; "host"; "port"; "database"; "user"; "password";
     "password_file"; "pool_size"; "connection_timeout_ms"]%string));
  (lit "databases", Leaf);
  (lit "observability", Object (leaves ["enable_tracing"; "otlp_endpoint"; "service_name";
     "metrics_server_address"; "enable_metrics_server"; "unsafe_debug_logging";
     "enable_debug_endpoints"; "metrics_allow_non_loopback"]%string));
  (lit "protocol", Object (leaves ["max_prepared_statements"]%string));
  (lit "publisher", Object (leaves ["enabled"; "batch_size"; "flush_interval_ms"; "anonymize";
     "publisher_type"; "max_queue_size"; "http_endpoint"; "http_timeout_ms"; "http_max_retries";
     "http_api_key"; "http_compression"; "shadow_id"; "allow_insecure"; "anonymize_salt";
     "parse_failure_mode"]%string));
  (lit "performance", Object ((lit "latency_budget", Object (leaves ["overhead_p50_micros";
     "overhead_p95_micros"; "overhead_p99_micros"; "reference_workload"]%string))
     :: leaves ["query_timeout_secs"; "connection_pooling"; "pool_size"; "pool_min_idle";
     "pool_timeout_secs"; "pool_recycle_secs"; "pool_aggressive_unpinning"; "buffer_size";
     "pool_queue_depth"; "pool_idle_unpin_secs"; "pool_lifo"; "pool_reset_timeout_ms";
     "pool_ratio_warning_threshold"; "pool_backpressure_mode"; "pool_retry_hint_ms";
     "pool_queue_saturation_warn_threshold"]%string));
  (lit "resilience", Object [
     (lit "circuit_breaker", Object (leaves ["enabled"; "failure_threshold"; "success_threshold";
        "window_secs"; "open_timeout_secs"; "use_health_monitor"]%string));
     (lit "connection_retry", Object (leaves ["enabled"; "max_attempts"; "initial_backoff_ms";
        "max_backoff_ms"; "backoff_multiplier"; "jitter_factor"]%string));
     (lit "healthcheck", Object (leaves ["active_enabled"; "interval_secs"; "timeout_ms";
        "failure_threshold"]%string))]);
  (lit "tls", Object (leaves ["client_tls_sslmode"; "client_tls_cert_file"; "client_tls_key_file";
     "client_tls_ca_file"; "server_tls_sslmode"; "server_tls_ca_file"; "server_tls_cert_file";
     "server_tls_key_file"]%string));
  (lit "auth", Object (leaves ["auth_type"; "auth_file"; "auth_query"; "allow_trust"]%string));
  (lit "admin", Object (leaves ["enabled"; "admin_users"; "admin_password"]%string))].

Definition valid_config_paths : list bytes := collect_paths config_value [].

(** [replace] of two underscores by a dot, from the left. *)
Fixpoint dots (s : bytes) : bytes :=
  match s with
  | x5f :: x5f :: s => x2e :: dots s
  | b :: s => b :: dots s
  | [] => []
  end.

Section unknown.
Context `{Unicode}.

Definition unknown_key (valid : list bytes) (key : bytes) : bool :=
  match Str.strip_prefix key (lit "SCRY_") with
  | None => false
  | Some rest =>
      if bool_decide (rest = lit "CONFIG_FILE") || bool_decide (rest = lit "ALLOW_UNKNOWN_KEYS")
      then false
      else
        let path := dots (Str.to_lowercase rest) in
        if bool_decide (path = lit "databases") || Str.starts_with path (lit "databases.") then false
        else negb (bool_decide (path ∈ valid))
  end.
Definition unknown_scry_env_keys (env_keys valid : list bytes) : list bytes :=
  filter (λ k, unknown_key valid k = true) env_keys.

(** The part of [load] after the sources are merged into [loaded]. *)
Definition load (allow_unknown : option bytes) (env_keys : list bytes) (loaded : Config)
    (read_file : bytes → option bytes) : Config + load_error :=
  let allow := match allow_unknown with
               | Some v => Str.eq_ignore_ascii_case v (lit "true") || bool_decide (v = lit "1")
               | None => false
               end in
  let unknown := if allow then [] else unknown_scry_env_keys env_keys valid_config_paths in
  match unknown with
  | [] => resolve_password read_file loaded
  | _ => inr (UnknownKeys unknown)
  end.
End unknown.
End Conf.

(** ** Choosing the publisher (publisher/mod.rs) *)
Module Publisher.
Import Conf.
Inductive any_publisher : Type :=
| ADebug (p : Debug.DebugLoggerPublisher)
| AHttp (p : Http.HttpPublisher).
Inductive create_error : Type :=
| EndpointRequired
| HttpRefused
| UnknownType (other : bytes).

(** [shadow_file] is the text of the file SHADOW_ID_FILE names, if there is
    one that can be read. *)
Definition create_publisher (config : PublisherConfig) (shadow_file : option bytes) (uuid : bytes)
    (client : bool) : any_publisher + create_error :=
  if decide (publisher_type config = lit "debug") then inl (ADebug Debug.new)
  else if decide (publisher_type config = lit "http") then
    match http_endpoint config with
    | None => inr EndpointRequired
    | Some endpoint =>
        let shadow_id :=
          match cfg_shadow_id config with Some i => Some i | None => Str.trim <$> shadow_file end in
        match Http.new endpoint (http_max_retries config) (http_api_key config) shadow_id
                (allow_insecure config) uuid client with
        | Some p => inl (AHttp p)
        | None => inr HttpRefused
        end
    end
  else inr (UnknownType (publisher_type config)).
End Publisher.

(** ** What a validated configuration guarantees *)
Module ConfSafe.
Import Conf.
Section safe.
Context `{SocketAddrs}.

Definition auth_ok (c : Config) : Prop :=
  match auth_type (auth c) with
  | Trust => allow_trust (auth c) = true
  | Md5 => is_Some (auth_file (auth c))
  | ScramSha256 => False
  | Cert => client_tls_sslmode (tls c) = VerifyCa ∨ client_tls_sslmode (tls c) = VerifyFull
  end.
Definition publisher_ok (p : PublisherConfig) : Prop :=
  pub_enabled p = true →
  (pub_anonymize p = true → is_Some (anonymize_salt p)) ∧
  (publisher_type p = lit "http" →
   ∃ e, http_endpoint p = Some e ∧
     (Str.starts_with e (lit "https://") = true ∨ allow_insecure p = true)).
Definition metrics_ok (o : ObservabilityConfig) : Prop :=
  enable_metrics_server o = true →
  ∃ loopback, parse_socket_addr (metrics_server_address o) = Some loopback ∧
    (loopback = true ∨ metrics_allow_non_loopback o = true).
Definition accepted (c : Config) : Prop :=
  auth_ok c ∧ be_password (backend c) ≠ [] ∧ publisher_ok (publisher c) ∧
  max_connections (proxy c) ≠ 0 ∧
  (pooling_disabled (connection_pooling (performance c)) = false → pool_size (performance c) ≠ 0) ∧
  metrics_ok (observability c).

Lemma ensure_inl {A} bad e (k : A + config_error) (a : A) :
  ensure bad e k = inl a ↔ bad = false ∧ k = inl a.
Proof. unfold ensure. destruct bad; naive_solver. Qed.

Lemma check_endpoint_inl p k ws :
  check_endpoint p k = inl ws ↔
  k = inl ws ∧ (pub_enabled p = true → publisher_type p = lit "http" →
    ∃ e, http_endpoint p = Some e ∧
      (Str.starts_with e (lit "https://") = true ∨ allow_insecure p = true)).
Proof.
  unfold check_endpoint. destruct (pub_enabled p); simpl; [|naive_solver].
  case_bool_decide as Ht; [|naive_solver]. destruct (http_endpoint p) as [e|]; [|naive_solver].
  rewrite ensure_inl. split.
  - intros [Hb Hk]. split; [done|]. intros _ _. exists e. split; [done|].
    apply andb_false_iff in Hb as [Hb%negb_false_iff|Hb%negb_false_iff]; auto.
  - intros [Hk Hx]. destruct (Hx eq_refl Ht) as (e' & [= <-] & Hor). split; [|done].
    apply andb_false_iff. destruct Hor as [-> | ->]; auto.
Qed.

Lemma check_metrics_inl o (f : list config_warning → list config_warning) :
  (∃ ws, check_metrics_address o (λ l, inl (f l)) = inl ws) ↔ metrics_ok o.
Proof.
  unfold check_metrics_address, metrics_ok. destruct (enable_metrics_server o); [|naive_solver].
  destruct (parse_socket_addr (metrics_server_address o)) as [[]|]; [naive_solver| |naive_solver].
  setoid_rewrite ensure_inl. destruct (metrics_allow_non_loopback o); naive_solver.
Qed.

Definition auth_rejected (c : Config) : bool :=
  match auth_type (auth c) with
  | Trust => negb (allow_trust (auth c))
  | Md5 => is_none (auth_file (auth c))
  | ScramSha256 => true
  | Cert => negb (match client_tls_sslmode (tls c) with VerifyCa | VerifyFull => true | _ => false end)
  end.

Definition checks_pass (c : Config) : Prop :=
  auth_rejected c = false ∧ be_password (backend c) ≠ [] ∧
  pub_enabled (publisher c) && pub_anonymize (publisher c)
    && is_none (anonymize_salt (publisher c)) = false ∧
  (pub_enabled (publisher c) = true → publisher_type (publisher c) = lit "http" →
    ∃ e, http_endpoint (publisher c) = Some e ∧
      (Str.starts_with e (lit "https://") = true ∨ allow_insecure (publisher c) = true)) ∧
  max_connections (proxy c) ≠ 0 ∧
  negb (pooling_disabled (connection_pooling (performance c)))
    && (pool_size (performance c) =? 0) = false.

Lemma validate_inl c ws :
  validate c = inl ws ↔
  checks_pass c ∧ check_metrics_address (observability c)
    (λ l, inl (l ++ ratio_warning c ++ queue_warning c ++ size_warning c)) = inl ws.
Proof.
  unfold validate, checks_pass, auth_rejected. rewrite !ensure_inl, !check_endpoint_inl, !ensure_inl.
  rewrite (bool_decide_eq_false (be_password (backend c) = [])), Z.eqb_neq.
  match goal with |- context [pub_enabled (publisher c) = true → ?P] =>
    generalize (pub_enabled (publisher c) = true → P) end; intros Q.
  destruct (auth_type (auth c)); cbn; tauto.
Qed.

Lemma is_none_true {A} (o : option A) : is_none o = true ↔ o = None.
Proof. by destruct o. Qed.
Lemma is_none_false {A} (o : option A) : is_none o = false ↔ is_Some o.
Proof. destruct o; simpl; split; [eauto|done|done|by intros []]. Qed.

Lemma auth_rejected_false c : auth_rejected c = false ↔ auth_ok c.
Proof.
  unfold auth_rejected, auth_ok.
  destruct (auth_type (auth c)); rewrite ?is_none_false, ?negb_false_iff; [done|done|done|].
  destruct (client_tls_sslmode (tls c)); naive_solver.
Qed.

Lemma checks_accept c : checks_pass c ∧ metrics_ok (observability c) ↔ accepted c.
Proof.
  unfold checks_pass, accepted, publisher_ok. rewrite auth_rejected_false.
  generalize (auth_ok c) (metrics_ok (observability c)). intros A M.
  match goal with |- context [publisher_type (publisher c) = lit "http" → ?P] =>
    generalize (publisher_type (publisher c) = lit "http" → P) end; intros Q.
  rewrite !andb_false_iff, is_none_false, negb_false_iff, Z.eqb_neq.
  destruct (pub_enabled (publisher c)), (pub_anonymize (publisher c)),
    (pooling_disabled (connection_pooling (performance c))); naive_solver.
Qed.

(** What can be held against a configuration, and the number the source gives the
    check. *)
Definition objection (c : Config) (e : config_error) : Prop :=
  match e with
  | ScramUnsupported => auth_type (auth c) = ScramSha256
  | CertNeedsVerification m =>
      auth_type (auth c) = Cert ∧ m = client_tls_sslmode (tls c) ∧ m ≠ VerifyCa ∧ m ≠ VerifyFull
  | Md5NeedsAuthFile => auth_type (auth c) = Md5 ∧ auth_file (auth c) = None
  | TrustNotAcknowledged => auth_type (auth c) = Trust ∧ allow_trust (auth c) = false
  | NoBackendPassword => be_password (backend c) = []
  | AnonymizeNeedsSalt =>
      pub_enabled (publisher c) = true ∧ pub_anonymize (publisher c) = true ∧
      anonymize_salt (publisher c) = None
  | HttpNeedsEndpoint =>
      pub_enabled (publisher c) = true ∧ publisher_type (publisher c) = lit "http" ∧
      http_endpoint (publisher c) = None
  | EndpointNotHttps url =>
      pub_enabled (publisher c) = true ∧ publisher_type (publisher c) = lit "http" ∧
      http_endpoint (publisher c) = Some url ∧ Str.starts_with url (lit "https://") = false ∧
      allow_insecure (publisher c) = false
  | NoConnectionsAllowed => max_connections (proxy c) = 0
  | EmptyPool =>
      connection_pooling (performance c) ≠ Modes.StrategyDisabled ∧ pool_size (performance c) = 0
  | BadMetricsAddress a =>
      enable_metrics_server (observability c) = true ∧ a = metrics_server_address (observability c) ∧
      parse_socket_addr a = None
  | MetricsNotLoopback a =>
      enable_metrics_server (observability c) = true ∧ a = metrics_server_address (observability c) ∧
      parse_socket_addr a = Some false ∧ metrics_allow_non_loopback (observability c) = false
  end.
Definition check_number (e : config_error) : nat :=
  match e with
  | ScramUnsupported => 1 | CertNeedsVerification _ => 2 | Md5NeedsAuthFile => 3
  | TrustNotAcknowledged => 4 | NoBackendPassword => 5 | AnonymizeNeedsSalt => 6
  | HttpNeedsEndpoint | EndpointNotHttps _ => 7 | NoConnectionsAllowed => 8 | EmptyPool => 9
  | BadMetricsAddress _ | MetricsNotLoopback _ => 10
  end.

(** One check in front of others: it stops with its own objection, or there is
    none with its number and the others decide. *)
Definition decides (c : Config) (n : nat) (r : list config_warning + config_error) : Prop :=
  match r with
  | inl _ => ∀ e, objection c e → (check_number e < n)%nat
  | inr e => objection c e ∧ (n ≤ check_number e)%nat ∧
             ∀ e', objection c e' → (n ≤ check_number e')%nat → (check_number e ≤ check_number e')%nat
  end.

Lemma decides_next c n r :
  (∀ e, objection c e → check_number e ≠ n) → decides c (S n) r → decides c n r.
Proof.
  intros Hn. destruct r as [ws|e]; simpl.
  - intros Hr e He. specialize (Hr e He). specialize (Hn e He). lia.
  - intros (He & Hle & Hr). split_and!; [done|lia|]. intros e' He' Hle'. specialize (Hn e' He').
    apply Hr; [done|lia].
Qed.
Lemma decides_stop c n e : objection c e → check_number e = n → decides c n (inr e).
Proof. intros He Hn. split_and!; [done|lia|]. intros. lia. Qed.

Lemma decides_ensure c bad e k :
  (bad = true → objection c e) → (∀ e', check_number e' = check_number e → objection c e' → bad = true) →
  decides c (S (check_number e)) k → decides c (check_number e) (ensure bad e k).
Proof.
  intros Hb Hb' Hk. unfold ensure. destruct bad; [by apply decides_stop; [apply Hb|]|].
  apply decides_next; [|done]. intros e' He' Hn. by discriminate (Hb' e' Hn He').
Qed.

Lemma decides_endpoint c k : decides c 8 k → decides c 7 (check_endpoint (publisher c) k).
Proof.
  intros Hk. unfold check_endpoint. destruct (pub_enabled (publisher c) && _) eqn:Hp.
  - apply andb_true_iff in Hp as [Hp Ht%bool_decide_eq_true].
    destruct (http_endpoint (publisher c)) as [url|] eqn:He; [|by apply decides_stop].
    apply (decides_ensure c _ (EndpointNotHttps url)); [| |done].
    + intros [Hs%negb_true_iff Ha%negb_true_iff]%andb_true_iff. done.
    + intros [] Hn Ho; cbn [objection check_number] in Hn, Ho; try lia; destruct Ho as (_ & _ & Ho); [congruence|].
      destruct Ho as (Hu & Hs & Ha). rewrite He in Hu. injection Hu as <-. by rewrite Hs, Ha.
  - apply decides_next; [|done]. intros [] Ho Hn; cbn [objection check_number] in Hn, Ho; try lia;
      destruct Ho as (Hp' & Ht & _); by rewrite Hp', Ht, bool_decide_true in Hp.
Qed.

Lemma decides_metrics c f :
  decides c 10 (check_metrics_address (observability c) (λ ws, inl (f ws))).
Proof.
  assert (Hall : (∀ e, objection c e → check_number e ≠ 10%nat) → ∀ ws, decides c 10 (inl ws)).
  { intros Hn ws e He. specialize (Hn e He). destruct e; simpl in *; lia. }
  unfold check_metrics_address. destruct (enable_metrics_server (observability c)) eqn:He.
  - destruct (parse_socket_addr (metrics_server_address (observability c))) as [[]|] eqn:Hp.
    + apply Hall. intros [] Ho Hn; cbn [objection check_number] in Hn, Ho; try lia; destruct_and!; subst; congruence.
    + unfold ensure. destruct (metrics_allow_non_loopback (observability c)) eqn:Ha; cbn [negb];
        [|by apply decides_stop].
      apply Hall. intros [] Ho Hn; cbn [objection check_number] in Hn, Ho; try lia; destruct_and!; subst; congruence.
    + by apply decides_stop.
  - apply Hall. intros [] Ho Hn; cbn [objection check_number] in Hn, Ho; try lia; destruct_and!; subst; congruence.
Qed.

(** C26. [validate] makes its ten checks in the order of their numbers: a
    configuration is accepted exactly when none of the objections applies to it,
    and otherwise refused with one that does, of the smallest number. *)
Theorem validate_exact c :
  match validate c with
  | inl _ => ∀ e, ¬ objection c e
  | inr e => objection c e ∧ ∀ e', objection c e' → (check_number e ≤ check_number e')%nat
  end.
Proof.
  assert (Hv : decides c 1 (validate c)).
  { unfold validate.
    apply (decides_ensure c _ ScramUnsupported); [| |apply (decides_ensure c _ (CertNeedsVerification _));
      [| |apply (decides_ensure c _ Md5NeedsAuthFile); [| |apply (decides_ensure c _ TrustNotAcknowledged);
      [| |apply (decides_ensure c _ NoBackendPassword); [| |apply (decides_ensure c _ AnonymizeNeedsSalt);
      [| |apply decides_endpoint, (decides_ensure c _ NoConnectionsAllowed);
      [| |apply (decides_ensure c _ EmptyPool); [| |apply decides_metrics]]]]]]]].
    all: first [intros [] Hn Ho; cbn [objection check_number] in Hn, Ho; try lia; clear Hn|cbn [objection]; intros Ho].
    all: rewrite ?andb_true_iff, ?negb_true_iff, ?bool_decide_eq_true, ?is_none_true, ?Z.eqb_eq in *.
    all: try tauto.
    - destruct Ho as [? Hm]. split_and!; [done..| |]; by intros E; rewrite E in Hm.
    - destruct Ho as (? & -> & ? & ?). split; [done|]. by destruct (client_tls_sslmode (tls c)).
    - destruct Ho as [Hd ?]. split; [|done]. intros E. by rewrite E in Hd.
    - destruct Ho as [Hd ?]. split; [|done]. by destruct (connection_pooling (performance c)). }
  destruct (validate c) as [ws|e]; simpl in Hv.
  - intros e He. specialize (Hv e He). destruct e; simpl in Hv; lia.
  - destruct Hv as (He & _ & Hv). split; [done|]. intros e' He'. apply Hv; [done|]. destruct e'; simpl; lia.
Qed.

(** So it accepts the configurations with these settings. *)
Lemma validate_accepts c : (∃ ws, validate c = inl ws) ↔ accepted c.
Proof.
  rewrite <-checks_accept, <-(check_metrics_inl (observability c)
    (λ ws, ws ++ ratio_warning c ++ queue_warning c ++ size_warning c)).
  split.
  - intros (ws & [Hc Hm]%validate_inl). eauto.
  - intros [Hc [ws Hm]]. exists ws. by apply validate_inl.
Qed.
End safe.
End ConfSafe.

(** ** Routing (routing/mod.rs) and the pools of proxy/server.rs *)
Module Routing.
Import Conf.

Record DatabaseRouter : Type := router {
  routes : gmap bytes DatabaseConfig;
  default_ : DatabaseConfig
}.

Definition new (dbs : list DatabaseConfig) (b : BackendConfig) (default_pool_size : Z) : DatabaseRouter :=
  router (foldl (λ m db, <[db_name db := db]> m) ∅ dbs)
    {| db_name := lit "*"; db_host := be_host b; db_port := be_port b; db_database := be_database b;
       db_user := be_user b; db_password := be_password b; db_pool_size := Some default_pool_size |}.
Definition route (r : DatabaseRouter) (database_name : bytes) : DatabaseConfig :=
  default (default_ r) (routes r !! database_name).
Definition has_route (r : DatabaseRouter) (database_name : bytes) : bool :=
  bool_decide (is_Some (routes r !! database_name)).
Definition database_names (r : DatabaseRouter) : list bytes := (map_to_list (routes r)).*1.
Definition route_count (r : DatabaseRouter) : nat := size (routes r).
Definition default_config (r : DatabaseRouter) : DatabaseConfig := default_ r.

(** What [create_pool_manager] of [ProxyServer::new] makes of a database. *)
Record PoolSpec : Type := pool_spec {
  spec_db : DatabaseConfig;
  spec_pool_size : Z;
  spec_min_idle : Z;
  spec_breaker : bool;
  spec_queue_depth : Z;
  spec_idle_unpin_secs : Z;
  spec_wait_timeout_ms : Z
}.

Section pools.
Context `{Build}.

Definition create_pool_manager (c : Config) (db : DatabaseConfig) : outcome PoolSpec :=
  let p := performance c in
  let size := default (pool_size p) (db_pool_size db) in
  wait ← wrap_or_panic two64 (pool_timeout_secs p * 1000);
  Ret (pool_spec db size (Z.min (pool_min_idle p) size) (CB.enabled (circuit_breaker (resilience c)))
         (pool_queue_depth p) (pool_idle_unpin_secs p) wait).

(** The [pool_managers] of [ProxyServer::new]: the default under its key, then
    every configured database. *)
Definition pool_managers (c : Config) : outcome (gmap bytes PoolSpec) :=
  if pooling_disabled (connection_pooling (performance c)) then Ret ∅
  else
    let r := new (databases c) (backend c) (pool_size (performance c)) in
    d ← create_pool_manager c (default_config r);
    ofoldl (λ m db, s ← create_pool_manager c db; Ret (<[db_name db := s]> m))
           {[ lit "*" := d ]} (databases c).

(** [pool_manager_for], and the selection in [handle_client_connection]. *)
Definition select_pool {A} (pools : gmap bytes A) (database_name : option bytes) : option A :=
  match database_name ≫= λ db, pools !! db with
  | Some p => Some p
  | None => pools !! lit "*"
  end.

(** ** The last entry of a name is the one that counts *)
Lemma last_filter_snoc {A} (P : A → Prop) `{∀ x, Decision (P x)} (l : list A) (x : A) :
  last (filter P (l ++ [x])) = if decide (P x) then Some x else last (filter P l).
Proof.
  rewrite filter_app, filter_cons, filter_nil. case_decide; [by rewrite last_snoc|by rewrite app_nil_r].
Qed.

Lemma routes_lookup (dbs : list DatabaseConfig) (m : gmap bytes DatabaseConfig) (name : bytes) :
  foldl (λ (m : gmap bytes DatabaseConfig) db, <[db_name db := db]> m) m dbs !! name
  = match last (filter (λ db, db_name db = name) dbs) with Some db => Some db | None => m !! name end.
Proof.
  revert m. induction dbs as [|db dbs IH] using rev_ind; intros m; [done|].
  rewrite foldl_app, last_filter_snoc. simpl. case_decide as Hn.
  - by rewrite <-Hn, lookup_insert_eq.
  - by rewrite lookup_insert_ne, IH.
Qed.

Lemma create_fits (c : Config) (db : DatabaseConfig) :
  0 ≤ pool_timeout_secs (performance c) * 1000 < two64 →
  ∃ s, create_pool_manager c db = Ret s ∧ spec_db s = db ∧
    spec_pool_size s = default (pool_size (performance c)) (db_pool_size db).
Proof. intros Hfit. unfold create_pool_manager. rewrite wrap_or_panic_fits by done. by eexists. Qed.

Lemma pools_lookup (c : Config) (m : gmap bytes PoolSpec) (dbs : list DatabaseConfig) :
  0 ≤ pool_timeout_secs (performance c) * 1000 < two64 →
  ∃ m', ofoldl (λ (m : gmap bytes PoolSpec) db, s ← create_pool_manager c db; Ret (<[db_name db := s]> m)) m dbs = Ret m' ∧
    ∀ name, spec_db <$> m' !! name
      = match last (filter (λ db, db_name db = name) dbs) with
        | Some db => Some db | None => spec_db <$> m !! name end.
Proof.
  intros Hfit. revert m. induction dbs as [|db dbs IH] using rev_ind; intros m; [by exists m|].
  destruct (IH m) as (m1 & Hm1 & Hl). destruct (create_fits c db Hfit) as (s & Hs & Hdb & _).
  exists (<[db_name db := s]> m1). rewrite ofoldl_app, Hm1. simpl. rewrite Hs. split; [done|].
  intros name. rewrite last_filter_snoc. case_decide as Hn.
  - rewrite <-Hn, lookup_insert_eq. by rewrite <-Hdb.
  - rewrite lookup_insert_ne by done. apply Hl.
Qed.

(** Pools and routes agree: when pooling is on and no database is named
    like the default, the server starts with a pool for every name, and a client
    is given the pool of the very configuration its database name routes to: the
    last entry of that name, or the default backend. *)
Lemma routing_agrees (c : Config) (database : option bytes) :
  pooling_disabled (connection_pooling (performance c)) = false →
  0 ≤ pool_timeout_secs (performance c) * 1000 < two64 →
  Forall (λ db, db_name db ≠ lit "*") (databases c) →
  ∃ pools, pool_managers c = Ret pools ∧
    spec_db <$> select_pool pools database
    = Some (match database with
            | Some name => route (new (databases c) (backend c) (pool_size (performance c))) name
            | None => default_config (new (databases c) (backend c) (pool_size (performance c)))
            end).
Proof.
  intros Hp Hfit Hstar. unfold pool_managers. rewrite Hp.
  set (r := new (databases c) (backend c) (pool_size (performance c))).
  destruct (create_fits c (default_config r) Hfit) as (d & Hd & Hdd & _). rewrite Hd. simpl.
  destruct (pools_lookup c {[ lit "*" := d ]} (databases c) Hfit) as (pools & Hpools & Hl).
  exists pools. split; [exact Hpools|].
  assert (Hdef : spec_db <$> pools !! lit "*" = Some (default_config r)).
  { rewrite Hl. destruct (last _) as [db|] eqn:Hlast.
    - apply last_Some_elem_of, list_elem_of_filter in Hlast as [Hn Hin].
      rewrite Forall_forall in Hstar. by destruct (Hstar db Hin).
    - by rewrite lookup_singleton_eq, <-Hdd. }
  unfold select_pool. destruct database as [name|]; simpl; [|done].
  assert (Hr : routes r !! name = last (filter (λ db, db_name db = name) (databases c))).
  { unfold r, new. cbn [routes]. rewrite routes_lookup, lookup_empty. by destruct (last _). }
  unfold route. rewrite Hr. specialize (Hl name). destruct (pools !! name) as [s|] eqn:Hs; simpl in *.
  - destruct (last _) as [db|]; simpl; [congruence|].
    destruct (decide (name = lit "*")) as [->|Hne].
    + rewrite lookup_singleton_eq in Hl. rewrite Hl. by simpl; rewrite Hdd.
    + by rewrite lookup_singleton_ne in Hl.
  - destruct (last _) as [db|]; [done|]. simpl. exact Hdef.
Qed.
End pools.
End Routing.

(** ** Starting up (main.rs, [start_proxy] of proxy/mod.rs) *)
Module StartUp.
Import Conf.
Section start.
Context `{SocketAddrs}.

(** [main] validates, creates the publisher and hands it to [start_proxy],
    which makes the batcher. *)
Inductive start_error : Type :=
| Refused (e : config_error)
| NoPublisher (e : Publisher.create_error).

Definition batcher_config (p : PublisherConfig) : Batch.Config := {|
  Batch.batch_size := Z.to_nat (batch_size p); Batch.flush_interval_ms := flush_interval_ms p;
  Batch.max_queue_size := Z.to_nat (max_queue_size p) |}.

Definition start_proxy {E : Type} `{!EventPublisher E Publisher.any_publisher} (c : Config)
    (shadow_file : option bytes) (uuid : bytes) (client : bool)
    : outcome (list config_warning * Batch.EventBatcher E Publisher.any_publisher + start_error) :=
  match validate c with
  | inr e => Ret (inr (Refused e))
  | inl ws =>
      match Publisher.create_publisher (publisher c) shadow_file uuid client with
      | inr e => Ret (inr (NoPublisher e))
      | inl p => b ← Batch.new (batcher_config (publisher c)) p; Ret (inl (ws, b))
      end
  end.

(** A validated configuration with publishing enabled starts: the publisher
    of a known type is created, never refused for its endpoint, and with a queue
    and a flush interval the batcher's task runs. *)
Lemma validated_config_starts {E : Type} `{!EventPublisher E Publisher.any_publisher}
    c ws shadow_file uuid :
  validate c = inl ws → pub_enabled (publisher c) = true →
  publisher_type (publisher c) = lit "debug" ∨ publisher_type (publisher c) = lit "http" →
  0 < max_queue_size (publisher c) → 0 < flush_interval_ms (publisher c) →
  ∃ b : Batch.EventBatcher E Publisher.any_publisher,
    start_proxy c shadow_file uuid true = Ret (inl (ws, b)) ∧ Batch.the_task b = Batch.Running.
Proof.
  intros Hv Hen Ht Hq Hf. unfold start_proxy. rewrite Hv.
  apply ConfSafe.validate_inl in Hv as ((_ & _ & _ & Hend & _) & _).
  assert (∃ p, Publisher.create_publisher (publisher c) shadow_file uuid true = inl p) as [p Hp].
  { unfold Publisher.create_publisher. destruct Ht as [Ht|Ht]; rewrite Ht.
    - by rewrite decide_True; [eexists|].
    - rewrite decide_False, decide_True by done.
      destruct (Hend Hen Ht) as (e & He & Hor). rewrite He. unfold Http.new.
      destruct Hor as [Hs|Hs]; rewrite Hs; simpl; rewrite ?andb_false_r; by eexists. }
  rewrite Hp. unfold Batch.new. cbn [Batch.max_queue_size Batch.flush_interval_ms batcher_config].
  rewrite decide_False by lia. simpl. eexists. split; [reflexivity|]. simpl.
  by replace (flush_interval_ms (publisher c) =? 0) with false by (symmetry; apply Z.eqb_neq; lia).
Qed.
End start.

(** *** Concrete configurations *)
Definition loopback_only : SocketAddrs :=
  {| parse_socket_addr a := if decide (a = lit "127.0.0.1:9090") then Some true else None |}.
#[local] Existing Instances loopback_only Batch.task_eq_dec.

Definition demo_publisher (enabled : bool) (salt : option bytes) (kind : bytes)
    (endpoint : option bytes) (queue : Z) : PublisherConfig :=
  {| pub_enabled := enabled; batch_size := 100; flush_interval_ms := 1000; pub_anonymize := true;
     publisher_type := kind; max_queue_size := queue; http_endpoint := endpoint;
     http_timeout_ms := 500; http_max_retries := 2; http_api_key := None; http_compression := true;
     cfg_shadow_id := None; allow_insecure := true; anonymize_salt := salt;
     parse_failure_mode := Anon.Redact |}.
Definition demo_config (p : PublisherConfig) : Config :=
  let d := default_config in
  config (proxy d)
    {| protocol_ := Postgres; be_host := lit "localhost"; be_port := 5432; be_database := lit "app";
       be_user := lit "app"; be_password := lit "pw"; password_file := None; be_pool_size := 10;
       connection_timeout_ms := 5000 |}
    [] (observability d) (protocol d) p (performance d) (resilience d) (tls d)
    {| auth_type := Trust; auth_file := None; auth_query := None; allow_trust := true |} (admin d).

#[local] Instance any_publisher_trait : EventPublisher byte Publisher.any_publisher := {|
  publish_batch p es :=
    match p with
    | Publisher.ADebug d =>
        r ← Debug.debug_publish_batch (λ l : list byte, Some l) d es; Ret (Publisher.ADebug r.1, r.2)
    | Publisher.AHttp h =>
        r ← Http.http_publish_batch (H := release_build) (λ _, Http.Response 200 None)
              (λ l _ _, l) h es;
        Ret (Publisher.AHttp r.1, r.2)
    end;
  shutdown p := (p, true) |}.

(** Turning publishing off only turns off its checks: the configuration has
    no salt and would be refused, but with [enabled = false] it is accepted, and
    the publisher and the batcher are made all the same. *)
Example disabled_publisher_still_publishes :
  validate (demo_config (demo_publisher true None (lit "http") (Some (lit "http://h")) 10))
    = inr AnonymizeNeedsSalt ∧
  (match start_proxy (E := byte)
           (demo_config (demo_publisher false None (lit "http") (Some (lit "http://h")) 10))
           None (lit "u") true with
   | Ret (inl (_, b)) => bool_decide (Batch.the_task b = Batch.Running)
   | _ => false
   end) = true.
Proof. split; vm_compute; reflexivity. Qed.

(** A queue of size zero passes the checks and panics. *)
Example zero_queue_panics :
  start_proxy (E := byte)
    (demo_config (demo_publisher true (Some (lit "s")) (lit "debug") None 0)) None [] true = Panic.
Proof. vm_compute. reflexivity. Qed.

(** A database named like the default replaces the default pool, although the
    router still answers with the default backend. *)
Definition star_db : DatabaseConfig :=
  {| db_name := lit "*"; db_host := lit "other"; db_port := 1; db_database := lit "o";
     db_user := lit "o"; db_password := lit "o"; db_pool_size := None |}.
Definition star_config : Config :=
  let d := demo_config (demo_publisher true None (lit "debug") None 10) in
  config (proxy d) (backend d) [star_db] (observability d) (protocol d) (publisher d) (performance d)
    (resilience d) (tls d) (auth d) (admin d).
Example star_database_replaces_default :
  ((λ pools, Routing.spec_db <$> Routing.select_pool pools (Some (lit "app")))
     <$> Routing.pool_managers (H := release_build) star_config) = Ret (Some star_db) ∧
  db_host (Routing.route (Routing.new [star_db] (backend star_config) 50) (lit "app"))
    = lit "localhost".
Proof. split; vm_compute; reflexivity. Qed.

(** Every field of the configuration can be set from the environment: the name
    made of its path is not taken for unknown. *)
Definition env_name (path : bytes) : bytes :=
  lit "SCRY_" ++ concat ((λ b, if beqb b x2e then [x5f; x5f] else [Str.ascii_upper b]) <$> path).
Example every_field_can_be_set :
  forallb (λ p, negb (unknown_key (H := ascii_tables) valid_config_paths (env_name p)))
    valid_config_paths = true.
Proof. vm_compute. reflexivity. Qed.
End StartUp.
