(* ===== verification/Backend.v ===== *)
(** * The backend side of the pool (protocol/traits.rs, protocol/postgres.rs,
      tls/backend.rs, tls/config.rs, tls/transport.rs, proxy/tcp_pool.rs)

    How a backend connection is opened (TCP, then TLS as the mode asks), and how
    an idle one is checked and reset before it is lent again.

    A socket is what can still be read from it: the bytes as they arrive, a
    failing read, or the moment at which the deadline of the routine waiting for
    them expires.  Each routine also returns what it wrote.  The network, the
    PEM files, rustls and webpki are parameters. *)

From S2P Require Import Prelude RustStr Wire Extractor AuthMessages CircuitBreaker Acquire Events CommandDetector ConnState StmtCache Bind Anonymize Modes HotData Handler Metrics Direct Config.

(** ** Sockets *)
Module Net.

Inductive event : Type :=
| Bytes (b : bytes)
| IoFailure
| Elapsed.

Record stream : Type := mk_stream { writable : bool; incoming : list event }.

Inductive read_result : Type := RData (b : bytes) | RFailed | RElapsed.

(** One [read] into a buffer of [cap] bytes; no bytes means end of file, and
    nothing that ever arrives means the deadline. *)
Definition read (cap : nat) (s : list event) : read_result * list event :=
  match s with
  | [] => (RElapsed, [])
  | Elapsed :: s => (RElapsed, s)
  | IoFailure :: s => (RFailed, s)
  | Bytes b :: s =>
      if (length b <=? cap)%nat then (RData b, s)
      else (RData (take cap b), Bytes (drop cap b) :: s)
  end.
End Net.

(** ** Health check and reset (protocol/postgres.rs) *)
Module Pg.
Import Net.

Record PostgresProtocol : Type := { extractor : Ext.MessageExtractor; reset_timeout_ms : Z }.
Definition new : PostgresProtocol := {| extractor := Ext.new; reset_timeout_ms := 5000 |}.
Definition with_reset_timeout (timeout_ms : Z) (p : PostgresProtocol) : PostgresProtocol :=
  {| extractor := extractor p; reset_timeout_ms := timeout_ms |}.

Definition name : bytes := lit "postgres".
Definition default_port : Z := 5432.

Inductive ready_wait : Type := Answered (b : bool) | ReadError | TimedOut.

Section with_build.
Context `{Build}.

Fixpoint ready_wait_loop (fuel : nat) (buffer : bytes) (s : list event)
    : outcome (ready_wait * list event) :=
  match fuel with
  | O => Diverge
  | S fuel =>
      match read 1024 s with
      | (RElapsed, s) => Ret (TimedOut, s)
      | (RFailed, s) => Ret (ReadError, s)
      | (RData [], s) => Ret (Answered false, s)
      | (RData temp, s) =>
          let buffer := buffer ++ temp in
          status ← Ext.extract_ready_for_query buffer;
          match status with
          | Some status =>
              if beqb status x49 then Ret (Answered true, s)
              else if beqb status x45 then Ret (Answered false, s)
              else if beqb status x54 then Ret (Answered false, s)
              else Ret (Answered false, s)
          | None =>
              _ ← Ext.extract_error buffer;
              if 64 * 1024 <? zlen buffer then Ret (Answered false, s)
              else ready_wait_loop fuel buffer s
          end
      end
  end.

(** Every round adds a byte and the loop stops above 64 KiB. *)
Definition ready_fuel : nat := Z.to_nat (64 * 1024 + 2).
Definition read_until_ready_for_query (s : list event) : outcome (ready_wait * list event) :=
  ready_wait_loop ready_fuel [] s.

Definition query_message (query : bytes) : bytes :=
  [MSG_QUERY] ++ be32 (signed 32 ((4 + zlen query) mod two32)) ++ query.
Definition discard_all : bytes := query_message (lit "DISCARD ALL" ++ [x00]).
Definition empty_query : bytes := query_message (lit ";" ++ [x00]).

(** What was written, the result ([None] is an error) and the stream left. *)
Definition reset_connection (st : stream) : outcome (list bytes * option bool * stream) :=
  if negb (writable st) then Ret ([], None, st)
  else
    r ← read_until_ready_for_query (incoming st);
    let st' := mk_stream (writable st) (r.2 : list event) in
    Ret (match r.1 with
         | Answered true => ([discard_all], Some true, st')
         | Answered false => ([discard_all], Some false, st')
         | ReadError => ([discard_all], Some false, st')
         | TimedOut => ([discard_all], Some false, st')
         end).

Definition health_check (st : stream) : outcome (list bytes * option bool * stream) :=
  if negb (writable st) then Ret ([], Some false, st)
  else
    r ← read_until_ready_for_query (incoming st);
    let st' := mk_stream (writable st) (r.2 : list event) in
    Ret (match r.1 with
         | Answered true => ([empty_query], Some true, st')
         | Answered false => ([empty_query], Some false, st')
         | ReadError => ([empty_query], Some false, st')
         | TimedOut => ([empty_query], Some false, st')
         end).
End with_build.

(** ** Answers

    The answer of a backend to one query: messages without a ReadyForQuery,
    then one.  It must fit the 64 KiB the proxy is ready to read. *)
Record answer : Type := mk_answer { body : list (byte * bytes); status : byte }.
Definition put_answer (a : answer) : bytes :=
  frames (body a) ++ frame MSG_READY_FOR_QUERY [status a].
Definition wf_answer (a : answer) : Prop :=
  Forall Ext.backend_frame (body a) ∧ Forall (λ f, f.1 ≠ MSG_READY_FOR_QUERY) (body a) ∧
  zlen (put_answer a) ≤ 64 * 1024.

(** The backend refused the query. *)
Definition refused (a : answer) : bool := existsb (λ f, beqb f.1 MSG_ERROR_RESPONSE) (body a).
(** The query was carried out and the session is idle: what the documentation asks
    of an answer. *)
Definition carried_out (a : answer) : Prop := refused a = false ∧ status a = x49.

(** [bs] arriving in any pieces. *)
Definition arrives (bs : bytes) (chunks : list bytes) : Prop :=
  concat chunks = bs ∧ Forall (λ c, c ≠ []) chunks.

Lemma last_ready_none fs : Forall (λ f, f.1 ≠ MSG_READY_FOR_QUERY) fs → Ext.last_ready None fs = None.
Proof.
  induction 1 as [|f fs Hf _ IH]; [done|]. unfold Ext.last_ready in *. simpl.
  by rewrite (bool_decide_eq_false_2 _ Hf : beqb _ _ = false).
Qed.

Lemma backend_frame_prefix t p a b :
  Ext.backend_frame (t, p) → b ≠ [] → a ++ b = frame t p → Ext.backend_tail a.
Proof.
  intros [Hf Hz] Hb Heq. simpl in *.
  assert (Hlen : zlen a + zlen b = 5 + zlen p) by (by rewrite <-zlen_app, Heq, zlen_frame).
  assert (0 < zlen b) by (destruct b as [|c b]; [done|]; rewrite zlen_cons; pose proof (zlen_nonneg b); lia).
  destruct (decide (zlen a < 5)); [by left|right]. exists (4 + zlen p).
  pose proof (zlen_nonneg p). split_and!; [|lia..|].
  - rewrite <-(i32_at_app_l a b) by lia. rewrite Heq.
    rewrite <-(app_nil_r (frame t p)). by apply (frame_length_at []).
  - intros Hh. destruct a as [|c a]; [done|]. simpl in Hh. injection Hh as ->.
    injection Heq as Ht _. specialize (Hz (eq_sym Ht)). lia.
Qed.

(** A proper prefix of frames is frames and the first bytes of one more. *)
Lemma backend_frames_prefix fs a b :
  Forall Ext.backend_frame fs → b ≠ [] → a ++ b = frames fs →
  ∃ fs1 f fs2 tl, fs = fs1 ++ f :: fs2 ∧ a = frames fs1 ++ tl ∧ Ext.backend_tail tl.
Proof.
  intros Hfs Hb. revert a; induction Hfs as [|[t p] fs Hf Hfs IH]; intros a Heq.
  { apply app_eq_nil in Heq as [_ ->]. done. }
  rewrite frames_cons in Heq. apply app_eq_inv in Heq as [(k & -> & Hk)|(k & Hk & ->)].
  - destruct (IH k) as (fs1 & f & fs2 & tl & -> & -> & Htl); [done|].
    exists ((t, p) :: fs1), f, fs2, tl. split_and!; [done| |done]. by rewrite frames_cons, <-app_assoc.
  - destruct k as [|c k].
    + rewrite app_nil_r in Hk. subst a. destruct fs as [|g fs]; [done|].
      exists [(t, p)], g, fs, []. split_and!; [done| |by left].
      rewrite frames_cons. unfold frames. by rewrite !app_nil_r.
    + exists [], (t, p), fs, a. split_and!; [done..|]. by apply (backend_frame_prefix t p a (c :: k)).
Qed.

Lemma put_answer_frames a : put_answer a = frames (body a ++ [(MSG_READY_FOR_QUERY, [status a])]).
Proof. unfold put_answer. rewrite frames_app, (frames_cons _ _ []). by rewrite (app_nil_r (frame _ _)). Qed.

Lemma wf_answer_frames a :
  wf_answer a → Forall Ext.backend_frame (body a ++ [(MSG_READY_FOR_QUERY, [status a])]).
Proof. intros (Hf & _ & _). apply Forall_app. split; [done|]. by repeat constructor. Qed.

Section answers.
#[local] Existing Instance release_build.

Lemma release_u64_sub a b : u64_sub a b = Ret ((a - b) mod two64).
Proof.
  unfold u64_sub, wrap_or_panic. simpl.
  destruct ((0 <=? a - b) && (a - b <? two64)) eqn:Hr; [|done].
  apply andb_true_iff in Hr as [H1%Z.leb_le H2%Z.ltb_lt]. by rewrite Z.mod_small.
Qed.

(** The search for an error message returns on any bytes. *)
Lemma error_loop_returns fuel data :
  (length data < fuel)%nat → ∃ r, Ext.error_loop fuel data = Ret r.
Proof.
  revert data; induction fuel as [|fuel IH]; intros data Hf; [lia|]. cbn [Ext.error_loop].
  destruct (Z.ltb_spec (zlen data) 5) as [|Hd]; [eauto|].
  assert (Hr : (length (drop 5 data) < fuel)%nat) by (rewrite length_drop; unfold zlen in Hd; lia).
  destruct (at_Ret data 0) as [t ->]; [lia|]. cbn [mbind outcome_bind].
  destruct (i32_at_Ret data 1) as (n & -> & _); [lia..|]. cbn [fmap outcome_fmap mbind outcome_bind].
  rewrite release_u64_sub. cbn [mbind outcome_bind]. set (m := (as_usize n - 4) mod two64).
  assert (Hm : 0 ≤ m) by (apply Z.mod_pos_bound; unfold two64; lia). clearbody m.
  destruct (beqb t MSG_ERROR_RESPONSE).
  - destruct (Z.leb_spec m (zlen (drop 5 data))); [|by apply IH].
    destruct (Auth.sub_Ret (drop 5 data) 0 m) as [d ->]; [lia|]. cbn [mbind outcome_bind]. eauto.
  - repeat case_match; eauto. apply IH. rewrite (length_drop (drop 5 data)). lia.
Qed.

Lemma extract_error_total data : ∃ r, Ext.extract_error data = Ret r.
Proof.
  unfold Ext.extract_error, Ext.try_ret, Ext.find_error_fields. destruct data as [|b data]; [by eexists|].
  destruct (error_loop_returns (S (length (b :: data))) (b :: data)) as [r ->]; [lia|].
  cbn [mbind outcome_bind Ext.try_]. destruct r; eauto.
Qed.

(** What one round sees of an answer: nothing until its last byte is there. *)
Lemma answer_prefix a buf rest :
  wf_answer a → buf ++ rest = put_answer a →
  Ext.extract_ready_for_query buf = Ret (match rest with [] => Some (status a) | _ => None end).
Proof.
  intros Ha Heq. pose proof (wf_answer_frames a Ha) as Hfs. destruct Ha as (_ & Hnz & Hlen).
  rewrite <-Heq in Hlen. rewrite put_answer_frames in Heq. rewrite zlen_app in Hlen.
  pose proof (zlen_nonneg rest). destruct rest as [|c rest].
  - rewrite app_nil_r in Heq. subst buf. rewrite <-(app_nil_r (frames _)).
    rewrite Ext.ready_for_query_is_last; [|exact Hfs|left; rewrite zlen_nil; lia|rewrite app_nil_r; lia].
    unfold Ext.last_ready. by rewrite foldl_app.
  - destruct (backend_frames_prefix (body a ++ [(MSG_READY_FOR_QUERY, [status a])]) buf (c :: rest))
      as (fs1 & f & fs2 & tl & Hsp & -> & Htl); [done..|].
    assert (Hpre : fs1 `prefix_of` body a).
    { destruct (decide (fs2 = [])) as [->|Hne].
      - apply app_inj_tail in Hsp as [<- _]. exists []. by rewrite app_nil_r.
      - destruct (exists_last Hne) as (gs & g & ->). rewrite app_comm_cons, app_assoc in Hsp.
        apply app_inj_tail in Hsp as [-> _]. by exists (f :: gs). }
    destruct Hpre as [gs Hg]. rewrite Hsp in Hfs. apply Forall_app in Hfs as [Hfs _].
    rewrite Ext.ready_for_query_is_last by (done || lia).
    rewrite Hg in Hnz. apply Forall_app in Hnz as [Hnz _]. by rewrite last_ready_none.
Qed.

Lemma read_chunks chunks rest :
  chunks ≠ [] → Forall (λ c, c ≠ []) chunks →
  ∃ d chunks', read 1024 ((Bytes <$> chunks) ++ rest) = (RData d, (Bytes <$> chunks') ++ rest) ∧
    d ≠ [] ∧ concat chunks = d ++ concat chunks' ∧ Forall (λ c, c ≠ []) chunks'.
Proof.
  intros Hne Hch. destruct Hch as [|c chunks Hc Hch]; [done|]. simpl.
  destruct (Nat.leb_spec (length c) 1024) as [|Hl].
  - by exists c, chunks.
  - exists (take 1024 c), (drop 1024 c :: chunks). split_and!; [done| | |].
    + destruct c; [simpl in Hl; lia|done].
    + simpl. by rewrite app_assoc, take_drop.
    + constructor; [|done]. intros Hd%(f_equal length). rewrite length_drop in Hd. simpl in Hd. lia.
Qed.

Lemma ready_wait_loop_answer fuel a buf chunks rest :
  wf_answer a → buf ++ concat chunks = put_answer a → chunks ≠ [] → Forall (λ c, c ≠ []) chunks →
  (length (concat chunks) < fuel)%nat →
  ready_wait_loop fuel buf ((Bytes <$> chunks) ++ rest) = Ret (Answered (beqb (status a) x49), rest).
Proof.
  intros Ha. revert buf chunks; induction fuel as [|fuel IH]; intros buf chunks Heq Hne Hch Hf; [lia|].
  destruct (read_chunks chunks rest) as (d & chunks' & Hr & Hd & Hc & Hch'); [done..|].
  cbn [ready_wait_loop]. rewrite Hr. destruct d as [|b d]; [done|]. cbv zeta.
  rewrite Hc, app_assoc in Heq. pose proof (answer_prefix a _ _ Ha Heq) as Hs. rewrite Hs.
  cbn [mbind outcome_bind]. destruct (concat chunks') as [|c l] eqn:Hcc.
  - destruct Hch' as [|c' chunks' Hc' _]; [|by destruct c'].
    by repeat case_bool.
  - destruct (extract_error_total (buf ++ b :: d)) as [e ->]. cbn [mbind outcome_bind].
    assert (Hlen : zlen (buf ++ b :: d) ≤ 64 * 1024).
    { destruct Ha as (_ & _ & Hl). rewrite <-Heq, zlen_app in Hl. pose proof (zlen_nonneg (c :: l)). lia. }
    Ext.Zbool. rewrite <-Hcc in Heq. apply IH; [done| |done|].
    + by intros ->.
    + rewrite Hcc. rewrite Hc, length_app in Hf. simpl in Hf |- *. lia.
Qed.

Lemma read_answer a chunks rest :
  wf_answer a → arrives (put_answer a) chunks →
  read_until_ready_for_query ((Bytes <$> chunks) ++ rest)
  = Ret (Answered (beqb (status a) x49), rest).
Proof.
  intros Ha [Hc Hne]. apply (ready_wait_loop_answer _ a); [done..| |done|].
  - intros ->. simpl in Hc. unfold put_answer in Hc. symmetry in Hc.
    by apply app_eq_nil in Hc as [_ ?].
  - rewrite Hc. destruct Ha as (_ & _ & Hl). unfold zlen in Hl. unfold ready_fuel. lia.
Qed.
End answers.
End Pg.

(** ** The trait (protocol/traits.rs) *)
Module Proto.
Import Net.

(** What a written answer, a result ([None] is an error) and a stream say. *)
Abbreviation call := (stream → outcome (list bytes * option bool * stream)).

Class Protocol : Type := {
  name : bytes;
  default_port : Z;
  reset_connection : call;
  health_check : call;
  extract_query : Ext.MessageExtractor → bytes → outcome (option bytes * Ext.MessageExtractor);
  is_query_complete : bytes → outcome bool;
  extract_error : bytes → outcome (option bytes)
}.

Definition postgres `{Build} : Protocol := {|
  name := Pg.name;
  default_port := Pg.default_port;
  reset_connection := Pg.reset_connection;
  health_check := Pg.health_check;
  extract_query := Ext.extract_query;
  is_query_complete := Ext.is_query_complete;
  extract_error := Ext.extract_error
|}.

Record ProtocolConfig : Type := {
  host : bytes; port : Z; database : option bytes; user : option bytes; password : option bytes
}.
Definition backend_addr (c : ProtocolConfig) : bytes := host c ++ lit ":" ++ Direct.u64_to_string (port c).

(** [ProtocolRegistry::get]: the implementation and its reset deadline. *)
Definition get `{Build} (protocol : Conf.DatabaseProtocol) (reset_timeout_ms : Z)
    : Protocol * Pg.PostgresProtocol :=
  match protocol with
  | Conf.Postgres => (postgres, Pg.with_reset_timeout reset_timeout_ms Pg.new)
  end.
End Proto.

(** ** TLS settings, transports, negotiation (tls/) *)
Module TlsConf.

Inductive io_error : Type := OsError (e : bytes) | InvalidData (e : bytes).
Inductive PemError : Type := PemIo (e : io_error) | NoItemsFound | PemOther (e : bytes).
Inductive TlsError : Type :=
| CertificateNotConfigured
| KeyNotConfigured
| CertificateReadError (e : io_error)
| KeyReadError (e : io_error)
| NoCertificatesFound (path : bytes)
| NoPrivateKeyFound (path : bytes)
| ConfigBuildError (e : bytes)
| CaReadError (e : io_error).

(** rustls, webpki and the files: what a PEM file holds (a section that does not
    parse is [None]), whether a root certificate, a certificate with its key and
    a client verifier are accepted, the roots of the webpki-roots crate, whether a
    string is a server name, and whether a server's chain is valid for a name
    under some roots. *)
Class Pki : Type := {
  Cert : Type;
  Key : Type;
  pem_file_iter : bytes → PemError + list (option Cert);
  pem_error_text : PemError → bytes;
  key_file : bytes → PemError + Key;
  add_root : Cert → option bytes;
  single_cert : list Cert → Key → option bytes;
  client_verifier : list Cert → option bytes;
  server_roots : list Cert;
  is_server_name : bytes → bool;
  chain_valid : list Cert → list Cert → bytes → bool
}.

Section settings.
Context `{Pki}.

Definition pem_error_to_io (e : PemError) : io_error :=
  match e with PemIo io_err => io_err | other => InvalidData (pem_error_text other) end.

Definition load_certs (path : bytes) : TlsError + list Cert :=
  match pem_file_iter path with
  | inl e => inl (CertificateReadError (pem_error_to_io e))
  | inr iter =>
      match omap (λ cert, cert) iter with
      | [] => inl (NoCertificatesFound path)
      | certs => inr certs
      end
  end.

Definition load_private_key (path : bytes) : TlsError + Key :=
  match key_file path with
  | inl NoItemsFound => inl (NoPrivateKeyFound path)
  | inl other => inl (KeyReadError (pem_error_to_io other))
  | inr key => inr key
  end.

Fixpoint add_roots (root_store certs : list Cert) : TlsError + list Cert :=
  match certs with
  | [] => inr root_store
  | cert :: certs =>
      match add_root cert with
      | Some e => inl (ConfigBuildError e)
      | None => add_roots (root_store ++ [cert]) certs
      end
  end.

Definition load_ca_certs (path : bytes) : TlsError + list Cert :=
  match pem_file_iter path with
  | inl e => inl (CaReadError (pem_error_to_io e))
  | inr iter => add_roots [] (omap (λ cert, cert) iter)
  end.

(** What the proxy shows clients: its chain and key, and the roots a client
    certificate must come from. *)
Record ServerConfig : Type := {
  sc_certs : list Cert; sc_key : Key; sc_client_roots : option (list Cert)
}.
(** What the proxy asks of a backend. *)
Inductive verifier : Type := NoCertificateVerification | RootCertificates (roots : list Cert).
Record ClientConfig : Type := {
  cc_verifier : verifier; cc_client_auth : option (list Cert * Key)
}.

Definition ok_or {A} (o : option A) (e : TlsError) : TlsError + A :=
  match o with Some a => inr a | None => inl e end.
Definition build_result {A} (err : option bytes) (a : A) : TlsError + A :=
  match err with Some e => inl (ConfigBuildError e) | None => inr a end.
#[local] Instance sum_bind : MBind (sum TlsError) := λ A B f m,
  match m with inl e => inl e | inr a => f a end.

Definition load_client_tls_config (c : Conf.TlsConfig) : TlsError + option ServerConfig :=
  match Conf.client_tls_sslmode c with
  | Conf.Disable => inr None
  | Conf.Allow | Conf.Require_ =>
      cert_path ← ok_or (Conf.client_tls_cert_file c) CertificateNotConfigured;
      key_path ← ok_or (Conf.client_tls_key_file c) KeyNotConfigured;
      certs ← load_certs cert_path;
      key ← load_private_key key_path;
      build_result (single_cert certs key)
        (Some {| sc_certs := certs; sc_key := key; sc_client_roots := None |})
  | Conf.VerifyCa | Conf.VerifyFull =>
      cert_path ← ok_or (Conf.client_tls_cert_file c) CertificateNotConfigured;
      key_path ← ok_or (Conf.client_tls_key_file c) KeyNotConfigured;
      ca_path ← ok_or (Conf.client_tls_ca_file c) CertificateNotConfigured;
      certs ← load_certs cert_path;
      key ← load_private_key key_path;
      root_store ← load_ca_certs ca_path;
      roots ← build_result (client_verifier root_store) root_store;
      build_result (single_cert certs key)
        (Some {| sc_certs := certs; sc_key := key; sc_client_roots := Some roots |})
  end.

Definition load_server_tls_config (c : Conf.TlsConfig) : TlsError + option ClientConfig :=
  match Conf.server_tls_sslmode c with
  | Conf.Disable => inr None
  | Conf.Allow | Conf.Require_ =>
      inr (Some {| cc_verifier := NoCertificateVerification; cc_client_auth := None |})
  | Conf.VerifyCa | Conf.VerifyFull =>
      root_store ← match Conf.server_tls_ca_file c with
                   | Some ca_path => load_ca_certs ca_path
                   | None => inr server_roots
                   end;
      match Conf.server_tls_cert_file c, Conf.server_tls_key_file c with
      | Some cert_path, Some key_path =>
          certs ← load_certs cert_path;
          key ← load_private_key key_path;
          build_result (single_cert certs key)
            (Some {| cc_verifier := RootCertificates root_store; cc_client_auth := Some (certs, key) |})
      | _, _ => inr (Some {| cc_verifier := RootCertificates root_store; cc_client_auth := None |})
      end
  end.

(** The verifier of [mod danger] asserts all three checks. *)
Definition verify_server_cert (v : verifier) (chain : list Cert) (server_name : bytes) : bool :=
  match v with
  | NoCertificateVerification => true
  | RootCertificates roots => chain_valid roots chain server_name
  end.
Definition verify_tls_signature (v : verifier) (signed : bool) : bool :=
  match v with NoCertificateVerification => true | RootCertificates _ => signed end.
End settings.
End TlsConf.

(** ** Transports and the negotiation with a backend *)
Module BackendTls.
Import Net TlsConf.

Section transports.
Context `{Pki}.

Inductive ClientTransport : Type :=
| CPlain (peer_addr : bytes)
| CTls (peer_addr : bytes) (peer_certificates : option (list Cert))
| CUnix.
Definition client_is_encrypted (t : ClientTransport) : bool :=
  match t with CTls _ _ => true | _ => false end.
Definition is_unix (t : ClientTransport) : bool := match t with CUnix => true | _ => false end.
Definition client_peer_addr (t : ClientTransport) : option bytes :=
  match t with CPlain a | CTls a _ => Some a | CUnix => None end.
Definition has_verified_peer_cert (t : ClientTransport) : bool :=
  match t with
  | CTls _ (Some (_ :: _)) => true
  | CTls _ _ => false
  | CPlain _ => false
  | CUnix => false
  end.

Inductive BackendTransport : Type :=
| Plain (s : stream)
| Tls (s : stream) (config : ClientConfig) (chain : list Cert).
Definition is_encrypted (t : BackendTransport) : bool :=
  match t with Tls _ _ _ => true | Plain _ => false end.
Definition transport_stream (t : BackendTransport) : stream :=
  match t with Plain s | Tls s _ _ => s end.
Definition with_stream (s : stream) (t : BackendTransport) : BackendTransport :=
  match t with Plain _ => Plain s | Tls _ c ch => Tls s c ch end.

Definition SSL_REQUEST : bytes := [x00; x00; x00; x08; x04; xd2; x16; x2f].

Inductive connect_error : Type :=
| ConnectFailed | NodelayFailed | SslRequestNotSent | SslResponseNotRead
| UnexpectedSslResponse (b : byte) | TlsConfigMissing | InvalidHostname | HandshakeFailed
| SslRequired | ConnectTimedOut.

(** An attempt that ended with a value, with an error, or not before the
    deadline it runs under. *)
Inductive attempt (A : Type) : Type := Done (a : A) | Failed (e : connect_error) | Late.
#[global] Arguments Done {A} a.
#[global] Arguments Failed {A} e.
#[global] Arguments Late {A}.
#[local] Instance attempt_bind : MBind attempt := λ A B f m,
  match m with Done a => f a | Failed e => Failed e | Late => Late end.

(** The other end: whether it can be reached, what it sends in clear, the chain
    and the signature it offers in a TLS handshake, whether that handshake is
    otherwise completed, and what it sends inside. *)
Record peer : Type := {
  tcp_connect : attempt ();
  set_nodelay : bool;
  clear : stream;
  offered_chain : list Cert;
  signed_by_key : bool;
  completes_handshake : attempt ();
  inside : stream
}.

Inductive BackendSslResult : Type :=
| Upgraded (t : BackendTransport)
| Declined (s : stream)
| Required.

(** [connector.connect(server_name, stream)]. *)
Definition tls_connect (p : peer) (config : ClientConfig) (hostname : bytes) : attempt BackendTransport :=
  _ ← completes_handshake p;
  if verify_server_cert (cc_verifier config) (offered_chain p) hostname
     && verify_tls_signature (cc_verifier config) (signed_by_key p)
  then Done (Tls (inside p) config (offered_chain p)) else Failed HandshakeFailed.

(** What is written in clear, and the result. *)
Definition negotiate_backend_ssl (p : peer) (hostname : bytes) (sslmode : Conf.TlsSslMode)
    (tls_config : option ClientConfig) : list bytes * attempt BackendSslResult :=
  match sslmode with
  | Conf.Disable => ([], Done (Declined (clear p)))
  | _ =>
      if negb (writable (clear p)) then ([], Failed SslRequestNotSent)
      else
        ([SSL_REQUEST],
         match read 1 (incoming (clear p)) with
         | (RElapsed, _) => Late
         | (RFailed, _) | (RData [], _) => Failed SslResponseNotRead
         | (RData (response :: _), rest) =>
             if beqb response x53 then
               match tls_config with
               | None => Failed TlsConfigMissing
               | Some config =>
                   if negb (is_server_name hostname) then Failed InvalidHostname
                   else t ← tls_connect p config hostname; Done (Upgraded t)
               end
             else if beqb response x4e then
               match sslmode with
               | Conf.Allow => Done (Declined (mk_stream (writable (clear p)) rest))
               | _ => Done Required
               end
             else Failed (UnexpectedSslResponse response)
         end)
  end.

Definition upgrade_backend_to_tls (p : peer) (hostname : bytes) (sslmode : Conf.TlsSslMode)
    (tls_config : option ClientConfig) : list bytes * attempt BackendTransport :=
  let '(sent, r) := negotiate_backend_ssl p hostname sslmode tls_config in
  (sent, r ← r;
         match r with
         | Upgraded transport => Done transport
         | Declined stream => Done (Plain stream)
         | Required => Failed SslRequired
         end).
End transports.
End BackendTls.

(** ** The pool of one backend (proxy/tcp_pool.rs) *)
Module PoolStatus.
Record PoolStatus : Type := {
  st_size : Z; st_available : Z; st_max_size : Z; st_protocol : bytes; st_backend_addr : bytes
}.
End PoolStatus.

Module TcpPool.
Import PoolStatus Net TlsConf BackendTls.

Section pool.
Context `{Pki}.
#[local] Existing Instance BackendTls.attempt_bind.

Record PooledBackend : Type := { transport : BackendTransport; startup_response : option bytes }.

Record BackendTransportManager : Type := {
  m_backend_addr : bytes;
  m_backend_host : bytes;
  m_protocol : Proto.Protocol;
  m_tls_config : option ClientConfig;
  m_tls_sslmode : Conf.TlsSslMode;
  m_connect_timeout : Z
}.

Inductive QueueMode : Type := Lifo | Fifo.
Record Timeouts : Type := { t_wait : option Z; t_create : option Z; t_recycle : option Z }.
Record TcpConnectionPool : Type := {
  manager : BackendTransportManager;
  max_size : Z;
  queue_mode : QueueMode;
  timeouts : Timeouts;
  pool_protocol : Proto.Protocol;
  pool_config : Proto.ProtocolConfig;
  pool_breaker : option CB.CircuitBreakerConfig;
  retry_config : option Acquire.ConnectionRetryConfig
}.

Inductive new_error : Type := TlsNotLoaded (e : TlsError) | PoolNotBuilt.

(** [built]: whether deadpool accepts the settings. *)
Definition new (protocol : Proto.Protocol) (config : Proto.ProtocolConfig) (tls_config : Conf.TlsConfig)
    (max_size : Z) (breaker : option CB.CircuitBreakerConfig)
    (retry_config : option Acquire.ConnectionRetryConfig) (lifo : bool) (connect_timeout_ms : Z)
    (built : bool) : new_error + TcpConnectionPool :=
  match load_server_tls_config tls_config with
  | inl e => inl (TlsNotLoaded e)
  | inr server_tls_config =>
      if negb built then inl PoolNotBuilt
      else inr {|
        manager := {| m_backend_addr := Proto.backend_addr config; m_backend_host := Proto.host config;
                      m_protocol := protocol; m_tls_config := server_tls_config;
                      m_tls_sslmode := Conf.server_tls_sslmode tls_config;
                      m_connect_timeout := connect_timeout_ms |};
        max_size := max_size;
        queue_mode := if lifo then Lifo else Fifo;
        timeouts := {| t_wait := None; t_create := Some connect_timeout_ms;
                       t_recycle := Some connect_timeout_ms |};
        pool_protocol := protocol; pool_config := config; pool_breaker := breaker;
        retry_config := retry_config
      |}
  end.

(** [create]: what is written in clear, and the connection or the error. *)
Definition create (m : BackendTransportManager) (p : peer) : list bytes * (PooledBackend + connect_error) :=
  let late (r : attempt BackendTransport) : PooledBackend + connect_error :=
    match r with
    | Done t => inl {| transport := t; startup_response := None |}
    | Failed e => inr e
    | Late => inr ConnectTimedOut
    end in
  match tcp_connect p with
  | Failed _ => ([], inr ConnectFailed)
  | Late => ([], late Late)
  | Done _ =>
      if negb (set_nodelay p) then ([], inr NodelayFailed)
      else
        let '(sent, r) := upgrade_backend_to_tls p (m_backend_host m) (m_tls_sslmode m) (m_tls_config m) in
        (sent, late r)
  end.

Inductive recycle_error : Type :=
| HealthCheckFailed | HealthCheckError | ResetNotSupported | ResetError.

(** [recycle]: what is written, the verdict, and the connection it leaves.  The
    two arms of the code (plain, TLS) take the same steps on their stream. *)
Definition recycle (m : BackendTransportManager) (conn : PooledBackend)
    : outcome (list bytes * (unit + recycle_error) * PooledBackend) :=
  let put (s : stream) :=
    {| transport := with_stream s (transport conn); startup_response := startup_response conn |} in
  let proto := m_protocol m in
  h ← Proto.health_check (transport_stream (transport conn));
  let '(sent, healthy, s) := (h : list bytes * option bool * stream) in
  match healthy with
  | Some false => Ret (sent, inr HealthCheckFailed, put s)
  | None => Ret (sent, inr HealthCheckError, put s)
  | Some true =>
      r ← Proto.reset_connection s;
      let '(sent', reset, s) := (r : list bytes * option bool * stream) in
      Ret (sent ++ sent',
           match reset with
           | Some true => inl tt
           | Some false => inr ResetNotSupported
           | None => inr ResetError
           end, put s)
  end.

(** [warmup]: the [n]-th acquisition gives a connection or an error. *)
Definition warmup {C E : Type} (get : nat → C + E) (count : nat) : nat :=
  match count with
  | O => O
  | _ => length (filter (λ b, b = true)
           ((λ i, match get i with inl _ => true | inr _ => false end) <$> seq 0 count))
  end.

(** [size] and [available] are deadpool's. *)
Definition status (p : TcpConnectionPool) (size available : Z) : PoolStatus := {|
  st_size := size; st_available := available; st_max_size := max_size p;
  st_protocol := Proto.name (Protocol := pool_protocol p);
  st_backend_addr := Proto.backend_addr (pool_config p)
|}.
End pool.
End TcpPool.

(** ** Theorems *)
Module BackendRuns.
Import Net TlsConf BackendTls TcpPool.

Section runs.
Context `{Pki}.

(** Against the trait: a connection goes back to a client only when both calls
    answered [Ok(true)], the reset on the stream the check left. *)
Lemma recycle_kept m conn sent conn' :
  recycle m conn = Ret (sent, inl tt, conn') →
  ∃ w1 w2 s1 s2,
    Proto.health_check (Protocol := m_protocol m) (transport_stream (transport conn)) = Ret (w1, Some true, s1) ∧
    Proto.reset_connection (Protocol := m_protocol m) s1 = Ret (w2, Some true, s2) ∧
    sent = w1 ++ w2 ∧ transport_stream (transport conn') = s2 ∧
    startup_response conn' = startup_response conn.
Proof.
  unfold recycle. cbv zeta. intros ([[w1 [[]|]] s1] & Hh & Hr)%outcome_bind_Ret; try discriminate Hr.
  apply outcome_bind_Ret in Hr as ([[w2 [[]|]] s2] & Hreset & Hr); try discriminate Hr.
  injection Hr as <- <-. exists w1, w2, s1, s2. split_and!; try done. simpl. by destruct (transport conn).
Qed.

(** The verdict is the one of the decision the acquisition model uses. *)
Lemma recycle_refines_decision m conn sent r conn' :
  recycle m conn = Ret (sent, r, conn') →
  ∃ h rs, (Acquire.recycle h rs).1 = match r with inl _ => true | inr _ => false end ∧
    (∃ w s, Proto.health_check (Protocol := m_protocol m) (transport_stream (transport conn)) = Ret (w, h, s) ∧
            (h = Some true → ∃ w' s', Proto.reset_connection (Protocol := m_protocol m) s = Ret (w', rs, s'))).
Proof.
  unfold recycle. cbv zeta. intros ([[w1 h] s1] & Hh & Hr)%outcome_bind_Ret.
  destruct h as [[]|].
  - apply outcome_bind_Ret in Hr as ([[w2 rs] s2] & Hreset & Hr). injection Hr as <- <- <-.
    exists (Some true), rs. split; [by destruct rs as [[]|]|]. exists w1, s1. split; [done|]. eauto.
  - injection Hr as <- <- <-. exists (Some false), None. split; [done|]. exists w1, s1. by split.
  - injection Hr as <- <- <-. exists None, None. split; [done|]. exists w1, s1. by split.
Qed.

(** *** The PostgreSQL protocol on its answers *)
Section postgres.
#[local] Existing Instance release_build.
Context (m : BackendTransportManager) (Hpg : m_protocol m = Proto.postgres).

Definition put_stream (s : list event) (conn : PooledBackend) : PooledBackend :=
  {| transport := with_stream (mk_stream true s) (transport conn);
     startup_response := startup_response conn |}.

Lemma health_check_answer a chunks rest :
  Pg.wf_answer a → Pg.arrives (Pg.put_answer a) chunks →
  Pg.health_check (mk_stream true ((Bytes <$> chunks) ++ rest))
  = Ret ([Pg.empty_query], Some (beqb (Pg.status a) x49), mk_stream true rest).
Proof.
  intros Ha Hc. unfold Pg.health_check. cbn [writable incoming negb].
  rewrite (Pg.read_answer a) by done. cbn [mbind outcome_bind fst snd]. by destruct (beqb _ _).
Qed.

Lemma reset_answer a chunks rest :
  Pg.wf_answer a → Pg.arrives (Pg.put_answer a) chunks →
  Pg.reset_connection (mk_stream true ((Bytes <$> chunks) ++ rest))
  = Ret ([Pg.discard_all], Some (beqb (Pg.status a) x49), mk_stream true rest).
Proof.
  intros Ha Hc. unfold Pg.reset_connection. cbn [writable incoming negb].
  rewrite (Pg.read_answer a) by done. cbn [mbind outcome_bind fst snd]. by destruct (beqb _ _).
Qed.

Lemma recycle_answers conn a1 a2 c1 c2 rest :
  Pg.wf_answer a1 → Pg.wf_answer a2 →
  Pg.arrives (Pg.put_answer a1) c1 → Pg.arrives (Pg.put_answer a2) c2 →
  transport_stream (transport conn) = mk_stream true ((Bytes <$> c1) ++ (Bytes <$> c2) ++ rest) →
  recycle m conn
  = Ret (if beqb (Pg.status a1) x49
         then ([Pg.empty_query; Pg.discard_all],
               if beqb (Pg.status a2) x49 then inl tt else inr ResetNotSupported, put_stream rest conn)
         else ([Pg.empty_query], inr HealthCheckFailed, put_stream ((Bytes <$> c2) ++ rest) conn)).
Proof.
  intros Ha1 Ha2 Hc1 Hc2 Hs. unfold recycle. rewrite Hpg, Hs. cbv zeta. cbn [Proto.health_check Proto.reset_connection Proto.postgres].
  rewrite (health_check_answer a1) by done. cbn [mbind outcome_bind].
  destruct (beqb (Pg.status a1) x49); [|done].
  rewrite (reset_answer a2) by done. cbn [mbind outcome_bind]. by destruct (beqb (Pg.status a2) x49).
Qed.
End postgres.


(** An answer the connection still owed when it came back is taken for the
    answer to the empty query, the answer to that for the one to DISCARD ALL, and
    the connection is lent with the answer to DISCARD ALL still to be read. *)
Lemma stale_answer_shifts m conn a0 a1 a2 c0 c1 c2 :
  m_protocol m = Proto.postgres (H := release_build) →
  Forall (λ a, Pg.wf_answer a ∧ Pg.status a = x49) [a0; a1; a2] →
  Pg.arrives (Pg.put_answer a0) c0 → Pg.arrives (Pg.put_answer a1) c1 →
  transport_stream (transport conn)
  = mk_stream true ((Bytes <$> c0) ++ (Bytes <$> c1) ++ (Bytes <$> c2)) →
  ∃ conn', recycle m conn = Ret ([Pg.empty_query; Pg.discard_all], inl tt, conn') ∧
    incoming (transport_stream (transport conn')) = Bytes <$> c2.
Proof.
  intros Hpg Hall Hc0 Hc1 Hs. rewrite !Forall_cons in Hall. destruct Hall as ([? H0] & [? H1] & _).
  rewrite (recycle_answers m Hpg conn a0 a1 c0 c1 (Bytes <$> c2)) by done. rewrite H0, H1.
  eexists. split; [done|]. simpl. by destruct (transport conn).
Qed.

(** An ErrorResponse to DISCARD ALL does not stop the reuse. *)
Lemma failed_discard_accepted m conn a1 c1 fields c2 rest :
  m_protocol m = Proto.postgres (H := release_build) →
  let refused := Pg.mk_answer [(MSG_ERROR_RESPONSE, Ext.put_fields fields)] x49 in
  Pg.wf_answer a1 → Pg.status a1 = x49 → Pg.wf_answer refused →
  Pg.arrives (Pg.put_answer a1) c1 → Pg.arrives (Pg.put_answer refused) c2 →
  transport_stream (transport conn) = mk_stream true ((Bytes <$> c1) ++ (Bytes <$> c2) ++ rest) →
  ∃ sent conn', recycle m conn = Ret (sent, inl tt, conn').
Proof.
  intros Hpg refused Ha1 H1 Hr Hc1 Hc2 Hs. rewrite (recycle_answers m Hpg conn a1 refused c1 c2 rest) by done.
  rewrite H1. eauto.
Qed.

(** *** Opening a connection *)
#[local] Existing Instance TlsConf.sum_bind.
#[local] Existing Instance Conf.TlsSslMode_eq_dec.

(** What the mode asks for is what an open connection has. *)
Definition meets (mode : Conf.TlsSslMode) (roots : list Cert) (host : bytes) (t : BackendTransport) : Prop :=
  match mode with
  | Conf.Disable => is_encrypted t = false
  | Conf.Allow => True
  | Conf.Require_ => is_encrypted t = true
  | Conf.VerifyCa | Conf.VerifyFull =>
      match t with Tls _ _ chain => chain_valid roots chain host = true | Plain _ => False end
  end.

(** The roots a backend's certificate must come from. *)
Definition configured_roots (tc : Conf.TlsConfig) : list Cert :=
  match Conf.server_tls_ca_file tc with
  | Some path => match load_ca_certs path with inr roots => roots | inl _ => [] end
  | None => server_roots
  end.

Lemma load_server_verifier tc cfg :
  load_server_tls_config tc = inr (Some cfg) →
  Conf.server_tls_sslmode tc = Conf.VerifyCa ∨ Conf.server_tls_sslmode tc = Conf.VerifyFull →
  cc_verifier cfg = RootCertificates (configured_roots tc).
Proof.
  intros Hl Hm. unfold load_server_tls_config in Hl.
  assert (Hr : ∀ k : list Cert → TlsError + option ClientConfig,
    (match Conf.server_tls_ca_file tc with Some p => load_ca_certs p | None => inr server_roots end ≫= k)
    = inr (Some cfg) → k (configured_roots tc) = inr (Some cfg)).
  { intros k. unfold configured_roots. destruct (Conf.server_tls_ca_file tc) as [path|]; [|done].
    by destruct (load_ca_certs path). }
  destruct Hm as [Hm|Hm]; rewrite Hm in Hl; apply Hr in Hl;
    (destruct (Conf.server_tls_cert_file tc) as [cp|], (Conf.server_tls_key_file tc) as [kp|];
     [|by injection Hl as <-..]);
    (destruct (load_certs cp) as [|cs]; [discriminate Hl|]);
    (destruct (load_private_key kp) as [|key]; [discriminate Hl|]);
    unfold build_result in Hl; simpl in Hl; (destruct (single_cert cs key); [discriminate Hl|]);
    by injection Hl as <-.
Qed.

(** The certificate a TLS connection was opened with passed the verifier. *)
Lemma tls_connect_verified p cfg host t :
  tls_connect p cfg host = Done t →
  t = Tls (inside p) cfg (offered_chain p) ∧
  verify_server_cert (cc_verifier cfg) (offered_chain p) host = true.
Proof.
  unfold tls_connect. destruct (completes_handshake p); simpl; try done.
  destruct (verify_server_cert _ _ _); simpl; [|done]. case_match; [|done]. by intros [= <-].
Qed.

(** The three ways out of the negotiation. *)
Lemma upgrade_cases p host mode cfg sent t :
  upgrade_backend_to_tls p host mode cfg = (sent, Done t) →
  (mode = Conf.Disable ∧ sent = [] ∧ t = Plain (clear p)) ∨
  (mode = Conf.Allow ∧ sent = [SSL_REQUEST] ∧ is_encrypted t = false) ∨
  (mode ≠ Conf.Disable ∧ sent = [SSL_REQUEST] ∧ ∃ c, cfg = Some c ∧ tls_connect p c host = Done t).
Proof.
  unfold upgrade_backend_to_tls, negotiate_backend_ssl. destruct (decide (mode = Conf.Disable)) as [->|Hne].
  { simpl. intros [= <- <-]. by left. }
  assert (Hm : ∀ A (x y : A), match mode with Conf.Disable => x | _ => y end = y) by (by destruct mode).
  rewrite Hm. destruct (writable (clear p)); simpl; [|done].
  destruct (read 1 (incoming (clear p))) as [[[|b d]| |] rest]; simpl; try done.
  destruct (beqb b x53).
  - destruct cfg as [c|]; [|done]. destruct (is_server_name host); simpl; [|done].
    destruct (tls_connect p c host) as [t'| |] eqn:Ht; simpl; try done.
    intros [= <- <-]. right. right. eauto.
  - destruct (beqb b x4e); [|done]. destruct mode; simpl; try done. intros [= <- <-]. right. by left.
Qed.

(** What [create] yields on the pool of a configuration. *)
Lemma opened_as_configured protocol config tc size breaker retry lifo timeout built pool p sent b :
  new protocol config tc size breaker retry lifo timeout built = inr pool →
  create (manager pool) p = (sent, inl b) →
  meets (Conf.server_tls_sslmode tc) (configured_roots tc) (Proto.host config) (transport b) ∧
  startup_response b = None ∧ (sent = [] ∨ sent = [SSL_REQUEST]).
Proof.
  unfold new. destruct (load_server_tls_config tc) as [e|cfg] eqn:Hcfg; [done|].
  destruct built; [|done]. intros [= <-]. unfold create. cbn [manager m_backend_host m_tls_sslmode m_tls_config].
  destruct (tcp_connect p); try done. destruct (set_nodelay p); [|done]. cbn [negb].
  destruct (upgrade_backend_to_tls _ _ _ _) as [sent' [t| |]] eqn:Hu; try done.
  intros [= <- <-]. cbn [transport startup_response].
  apply upgrade_cases in Hu as [(Hm & -> & ->)|[(Hm & -> & Ht)|(Hm & -> & c & -> & Ht)]].
  - rewrite Hm. split; [done|auto].
  - rewrite Hm. split; [done|auto].
  - split; [|by auto]. apply tls_connect_verified in Ht as [-> Hv].
    pose proof (load_server_verifier tc c Hcfg) as Hver. unfold meets.
    destruct (Conf.server_tls_sslmode tc); try done;
      rewrite (Hver ltac:(auto)) in Hv; exact Hv.
Qed.

(** C20. A connection that the pool of a configuration opens is what the mode
    asks for: in clear when TLS is disabled, encrypted under [require], and
    under [verify-ca] and [verify-full] encrypted to a server whose certificate
    is valid for the configured host under the configured roots; it has not
    been through a PostgreSQL start-up, and nothing but the TLS request was sent
    in clear. *)
Theorem backend_tls_enforced protocol config tc size breaker retry lifo timeout built pool p sent b :
  new protocol config tc size breaker retry lifo timeout built = inr pool →
  create (manager pool) p = (sent, inl b) →
  meets (Conf.server_tls_sslmode tc) (configured_roots tc) (Proto.host config) (transport b) ∧
  startup_response b = None ∧ (sent = [] ∨ sent = [SSL_REQUEST]).
Proof. apply opened_as_configured. Qed.

(** The proxy's own certificates: a mode that verifies clients never runs
    without roots to verify them against, when rustls refuses to build a client
    verifier from no roots. *)
Lemma client_roots_when_verifying tc sc :
  (∃ e, client_verifier [] = Some e) →
  load_client_tls_config tc = inr (Some sc) →
  Conf.client_tls_sslmode tc = Conf.VerifyCa ∨ Conf.client_tls_sslmode tc = Conf.VerifyFull →
  ∃ root roots, sc_client_roots sc = Some (root :: roots).
Proof.
  intros [e He] Hl Hm. unfold load_client_tls_config in Hl.
  destruct (Conf.client_tls_cert_file tc) as [cp|]; [|by destruct Hm as [Hm|Hm]; rewrite Hm in Hl].
  destruct (Conf.client_tls_key_file tc) as [kp|]; [|by destruct Hm as [Hm|Hm]; rewrite Hm in Hl].
  destruct (Conf.client_tls_ca_file tc) as [ap|]; [|by destruct Hm as [Hm|Hm]; rewrite Hm in Hl].
  assert (Hl' : (certs ← load_certs cp; key ← load_private_key kp; root_store ← load_ca_certs ap;
      roots ← build_result (client_verifier root_store) root_store;
      build_result (single_cert certs key)
        (Some {| sc_certs := certs; sc_key := key; sc_client_roots := Some roots |})) = inr (Some sc))
    by (by destruct Hm as [Hm|Hm]; rewrite Hm in Hl).
  destruct (load_certs cp); [done|]. destruct (load_private_key kp); [done|].
  destruct (load_ca_certs ap) as [|roots]; [done|]. simpl in Hl'. unfold build_result in Hl'.
  destruct (client_verifier roots) eqn:Hv; [done|]. simpl in Hl'. case_match; [done|].
  injection Hl' as <-. destruct roots as [|r rs]; [congruence|]. by exists r, rs.
Qed.

(** Recycling does not look at the start-up answer: a connection that was only
    opened (by the warm-up, say) is sent a query first, which no start-up reader
    takes for a start-up message. *)
Lemma warmed_up_connection_misused m p sent b s :
  m_protocol m = Proto.postgres (H := release_build) →
  create m p = (sent, inl b) → transport_stream (transport b) = mk_stream true s →
  startup_response b = None ∧
  (∀ sent' r b', recycle m b = Ret (sent', r, b') →
     ∃ more, concat sent' = Pg.empty_query ++ more ∧
       Startup.read_startup_message (concat sent') = inl (Startup.LengthTooLarge 1358954496)).
Proof.
  intros Hpg Hc Hs. split.
  { unfold create in Hc. repeat case_match; try discriminate Hc; by injection Hc as <- <-. }
  intros sent' r b'. unfold recycle. rewrite Hpg, Hs. cbv zeta.
  cbn [Proto.health_check Proto.reset_connection Proto.postgres]. unfold Pg.health_check. cbn [writable incoming negb].
  intros ([[w h] s1] & (x & _ & Hw)%outcome_bind_Ret & Hr)%outcome_bind_Ret.
  assert (w = [Pg.empty_query]) as -> by (destruct x as [[[]| |] ?]; by injection Hw).
  assert (∃ l, sent' = Pg.empty_query :: l) as [l ->].
  { destruct h as [[]|]; [|injection Hr as <- <- <-; eauto..].
    apply outcome_bind_Ret in Hr as ([[w2 rs] s2] & _ & Hr). injection Hr as <- <- <-. eauto. }
  exists (concat l). split; [done|]. cbn [concat]. generalize (concat l) as more. intros more.
  unfold Startup.read_startup_message, Startup.read_exact.
  rewrite zlen_app. pose proof (zlen_nonneg more). change (zlen Pg.empty_query) with 7. Ext.Zbool.
  reflexivity.
Qed.

(** At most [count] connections are reported, and as many as were obtained. *)
Lemma warmup_counts {C E} (get : nat → C + E) count :
  (warmup get count ≤ count)%nat ∧
  (warmup get count = count ↔ ∀ i, (i < count)%nat → ∃ c, get i = inl c).
Proof.
  assert (Hw : warmup get count = length (filter (λ b, b = true)
    ((λ i, match get i with inl _ => true | inr _ => false end) <$> seq 0 count))) by (by destruct count).
  rewrite Hw. clear Hw. induction count as [|n [IHl IHe]]; [split; [done|]; split; [intros _ i Hi; lia|done]|].
  rewrite seq_S, fmap_app, filter_app, length_app. simpl.
  destruct (get n) as [c|e] eqn:Hg; simpl; (split; [lia|]).
  - split; [intros Hn i Hi; destruct (decide (i = n)) as [->|]; [eauto|apply IHe; lia]|].
    intros Hall. rewrite (proj2 IHe) by (intros i Hi; apply Hall; lia). lia.
  - split; [lia|]. intros Hall. destruct (Hall n); [lia|]. congruence.
Qed.
End runs.

(** The two start-up modules agree on the TLS request. *)
Lemma ssl_request_recognised : Startup.is_ssl_request SSL_REQUEST = Ret true.
Proof. reflexivity. Qed.

(** *** Witnesses *)

(** Certificates are names; a chain is valid when it is the root's own. *)
Definition demo_pki : Pki := {|
  Cert := bytes; Key := bytes;
  pem_file_iter path := if decide (path = lit "ca.pem") then inr [Some (lit "root"); None] else inl NoItemsFound;
  pem_error_text _ := []; key_file _ := inl NoItemsFound; add_root _ := None;
  single_cert _ _ := None; client_verifier roots := match roots with [] => Some [] | _ => None end;
  server_roots := []; is_server_name _ := true;
  chain_valid roots chain host := bool_decide (chain = roots) && bool_decide (host = lit "db")
|}.
Definition demo_tls : Conf.TlsConfig := {|
  Conf.client_tls_sslmode := Conf.Disable; Conf.client_tls_cert_file := None;
  Conf.client_tls_key_file := None; Conf.client_tls_ca_file := None;
  Conf.server_tls_sslmode := Conf.VerifyFull; Conf.server_tls_ca_file := Some (lit "ca.pem");
  Conf.server_tls_cert_file := None; Conf.server_tls_key_file := None
|}.
Definition demo_proto_config : Proto.ProtocolConfig := {|
  Proto.host := lit "db"; Proto.port := 5432; Proto.database := None; Proto.user := None; Proto.password := None
|}.
Definition demo_peer : @peer demo_pki := @Build_peer demo_pki (Done tt) true
  (mk_stream true [Bytes [x53]]) [lit "root"] true (Done tt) (mk_stream true []).
Definition demo_pool : new_error + @TcpConnectionPool demo_pki :=
  new (H := demo_pki) (Proto.postgres (H := release_build)) demo_proto_config demo_tls 4 None None true 500 true.
Definition demo_manager : @BackendTransportManager demo_pki :=
  {| m_backend_addr := lit "db:5432"; m_backend_host := lit "db";
     m_protocol := Proto.postgres (H := release_build);
     m_tls_config := None; m_tls_sslmode := Conf.Disable; m_connect_timeout := 500 |}.

Lemma backend_tls_enforced_witness :
  ∃ pool sent b, demo_pool = inr pool ∧ create (H := demo_pki) (manager pool) demo_peer = (sent, inl b) ∧
    meets (H := demo_pki) Conf.VerifyFull [lit "root"] (lit "db") (transport b).
Proof.
  eexists _, _, _. split; [reflexivity|]. split; [reflexivity|].
  exact (proj1 (backend_tls_enforced (H := demo_pki) (Proto.postgres (H := release_build)) demo_proto_config
    demo_tls 4 None None true 500 true _ demo_peer _ _ eq_refl eq_refl)).
Defined.

Definition idle : Pg.answer := Pg.mk_answer [] x49.
End BackendRuns.
