(* ===== verification/PgBouncer.v ===== *)
(** * Importing a PgBouncer configuration (config/pgbouncer.rs)

    The ini crate is outside: a file is its sections, each the list of its keys
    and values in order.  The environment is a function from names to values.
    An IndexMap is an association list in insertion order. *)

From Stdlib Require Import DecimalN DecimalString.
From S2P Require Import Prelude RustStr Wire Extractor AuthMessages CircuitBreaker Acquire Events CommandDetector ConnState StmtCache Bind Anonymize Modes HotData Handler Metrics Direct Config.

Module PgBouncer.

Definition parse_u16 : bytes → option Z := Str.parse_int 0 (2 ^ 16 - 1).
Definition parse_u64 : bytes → option Z := Str.parse_int 0 (two64 - 1).

Record DatabaseEntry : Type := entry {
  host : option bytes; port : option Z; dbname : option bytes; user : option bytes;
  password : option bytes
}.
Definition empty_entry : DatabaseEntry := entry None None None None None.

Record PgBouncerConfig : Type := pgbouncer {
  databases : list (bytes * DatabaseEntry);
  listen_addr : option bytes;
  listen_port : option Z;
  pool_mode : option bytes;
  default_pool_size : option Z;
  min_pool_size : option Z;
  max_client_conn : option Z;
  server_idle_timeout : option Z;
  query_timeout : option Z;
  server_connect_timeout : option Z
}.
Definition default_config : PgBouncerConfig :=
  pgbouncer [] None None None None None None None None None.

(** [IndexMap::insert]: a key that is there keeps its place. *)
Fixpoint index_insert {V} (k : bytes) (v : V) (m : list (bytes * V)) : list (bytes * V) :=
  match m with
  | [] => [(k, v)]
  | (k', v') :: m => if decide (k' = k) then (k, v) :: m else (k', v') :: index_insert k v m
  end.

(** Multiplication on [u64]. *)
Definition u64_mul `{Build} (a b : Z) : outcome Z := wrap_or_panic two64 (a * b).

Section import.
Context `{Unicode}.

Definition parse_part (e : DatabaseEntry) (part : bytes) : DatabaseEntry :=
  match Str.split_once x3d part with
  | Some (key, value) =>
      let key := Str.to_lowercase key in
      if decide (key = lit "host") then entry (Some value) (port e) (dbname e) (user e) (password e)
      else if decide (key = lit "port") then entry (host e) (parse_u16 value) (dbname e) (user e) (password e)
      else if decide (key = lit "dbname") then entry (host e) (port e) (Some value) (user e) (password e)
      else if decide (key = lit "user") then entry (host e) (port e) (dbname e) (Some value) (password e)
      else if decide (key = lit "password") then entry (host e) (port e) (dbname e) (user e) (Some value)
      else e
  | None => e
  end.
Definition parse (connection_string : bytes) : DatabaseEntry :=
  foldl parse_part empty_entry (Str.split_whitespace connection_string).

(** One key of the [pgbouncer] section. *)
Definition parse_setting (c : PgBouncerConfig) (kv : bytes * bytes) : PgBouncerConfig :=
  let '(pgbouncer dbs addr lport mode size minsize maxc idle qt ct) := c in
  let value := kv.2 in
  let key := Str.to_lowercase kv.1 in
  if decide (key = lit "listen_addr") then pgbouncer dbs (Some value) lport mode size minsize maxc idle qt ct
  else if decide (key = lit "listen_port") then pgbouncer dbs addr (parse_u16 value) mode size minsize maxc idle qt ct
  else if decide (key = lit "pool_mode") then pgbouncer dbs addr lport (Some (Str.to_lowercase value)) size minsize maxc idle qt ct
  else if decide (key = lit "default_pool_size") then pgbouncer dbs addr lport mode (parse_u64 value) minsize maxc idle qt ct
  else if decide (key = lit "min_pool_size") then pgbouncer dbs addr lport mode size (parse_u64 value) maxc idle qt ct
  else if decide (key = lit "max_client_conn") then pgbouncer dbs addr lport mode size minsize (parse_u64 value) idle qt ct
  else if decide (key = lit "server_idle_timeout") then pgbouncer dbs addr lport mode size minsize maxc (parse_u64 value) qt ct
  else if decide (key = lit "query_timeout") then pgbouncer dbs addr lport mode size minsize maxc idle (parse_u64 value) ct
  else if decide (key = lit "server_connect_timeout") then pgbouncer dbs addr lport mode size minsize maxc idle qt (parse_u64 value)
  else c.

(** The two sections the importer reads. *)
Record Ini : Type := { databases_section : option (list (bytes * bytes));
                       pgbouncer_section : option (list (bytes * bytes)) }.

Definition add_database (m : list (bytes * DatabaseEntry)) (kv : bytes * bytes)
    : list (bytes * DatabaseEntry) := index_insert kv.1 (parse kv.2) m.

(** [None]: the file cannot be read. *)
Definition from_file (file : option Ini) : option PgBouncerConfig :=
  match file with
  | None => None
  | Some ini =>
      let dbs := foldl add_database [] (default [] (databases_section ini)) in
      Some (foldl parse_setting (pgbouncer dbs None None None None None None None None None)
              (default [] (pgbouncer_section ini)))
  end.

Definition from_env (env : bytes → option bytes) : PgBouncerConfig :=
  pgbouncer []
    (env (lit "PGBOUNCER_LISTEN_ADDR"))
    (env (lit "PGBOUNCER_LISTEN_PORT") ≫= parse_u16)
    (Str.to_lowercase <$> env (lit "PGBOUNCER_POOL_MODE"))
    (env (lit "PGBOUNCER_DEFAULT_POOL_SIZE") ≫= parse_u64)
    (env (lit "PGBOUNCER_MIN_POOL_SIZE") ≫= parse_u64)
    (env (lit "PGBOUNCER_MAX_CLIENT_CONN") ≫= parse_u64)
    (env (lit "PGBOUNCER_SERVER_IDLE_TIMEOUT") ≫= parse_u64)
    (env (lit "PGBOUNCER_QUERY_TIMEOUT") ≫= parse_u64)
    (env (lit "PGBOUNCER_SERVER_CONNECT_TIMEOUT") ≫= parse_u64).

(** [if over.is_some() { base = over }]. *)
Definition override {A} (over base : option A) : option A :=
  match over with Some a => Some a | None => base end.

(** [path]: whether a path was given, whether it exists, and what is in it. *)
Definition load (path : option (bool * option Ini)) (env : bytes → option bytes) : option PgBouncerConfig :=
  config ← match path with
           | Some (true, file) => from_file file
           | Some (false, _) => Some default_config
           | None => Some default_config
           end;
  let env_config := from_env env in
  Some (pgbouncer (databases config)
    (override (listen_addr env_config) (listen_addr config))
    (override (listen_port env_config) (listen_port config))
    (override (pool_mode env_config) (pool_mode config))
    (override (default_pool_size env_config) (default_pool_size config))
    (override (min_pool_size env_config) (min_pool_size config))
    (override (max_client_conn env_config) (max_client_conn config))
    (override (server_idle_timeout env_config) (server_idle_timeout config))
    (override (query_timeout env_config) (query_timeout config))
    (override (server_connect_timeout env_config) (server_connect_timeout config))).

(** *** Applying the settings to a configuration *)
Definition set_proxy (p : Conf.ProxyConfig) (addr : bytes) (max : Z) : Conf.ProxyConfig := {|
  Conf.listen_address := addr; Conf.unix_socket := Conf.unix_socket p; Conf.max_connections := max;
  Conf.shutdown_timeout_secs := Conf.shutdown_timeout_secs p
|}.
Definition set_backend (b : Conf.BackendConfig) (h : bytes) (p : Z) (db u pw : bytes) (timeout : Z)
    : Conf.BackendConfig := {|
  Conf.protocol_ := Conf.protocol_ b; Conf.be_host := h; Conf.be_port := p; Conf.be_database := db;
  Conf.be_user := u; Conf.be_password := pw; Conf.password_file := Conf.password_file b;
  Conf.be_pool_size := Conf.be_pool_size b; Conf.connection_timeout_ms := timeout
|}.
Definition set_performance (p : Conf.PerformanceConfig) (strategy : Modes.PoolingStrategy)
    (size min_idle recycle : Z) : Conf.PerformanceConfig := {|
  Conf.latency_budget := Conf.latency_budget p; Conf.query_timeout_secs := Conf.query_timeout_secs p;
  Conf.connection_pooling := strategy; Conf.pool_size := size; Conf.pool_min_idle := min_idle;
  Conf.pool_timeout_secs := Conf.pool_timeout_secs p; Conf.pool_recycle_secs := recycle;
  Conf.pool_aggressive_unpinning := Conf.pool_aggressive_unpinning p;
  Conf.buffer_size := Conf.buffer_size p; Conf.pool_queue_depth := Conf.pool_queue_depth p;
  Conf.pool_idle_unpin_secs := Conf.pool_idle_unpin_secs p; Conf.pool_lifo := Conf.pool_lifo p;
  Conf.pool_reset_timeout_ms := Conf.pool_reset_timeout_ms p;
  Conf.pool_ratio_warning_threshold := Conf.pool_ratio_warning_threshold p;
  Conf.pool_backpressure_mode := Conf.pool_backpressure_mode p;
  Conf.pool_retry_hint_ms := Conf.pool_retry_hint_ms p;
  Conf.pool_queue_saturation_warn_threshold := Conf.pool_queue_saturation_warn_threshold p
|}.
Definition set_config (c : Conf.Config) (p : Conf.ProxyConfig) (b : Conf.BackendConfig)
    (perf : Conf.PerformanceConfig) : Conf.Config :=
  Conf.config p b (Conf.databases c) (Conf.observability c) (Conf.protocol c) (Conf.publisher c)
    perf (Conf.resilience c) (Conf.tls c) (Conf.auth c) (Conf.admin c).

Definition strategy_of (mode : bytes) : Modes.PoolingStrategy :=
  let mode := Str.to_lowercase mode in
  if decide (mode = lit "session") then Modes.StrategySession
  else if decide (mode = lit "transaction") then Modes.StrategyTransaction
  else if decide (mode = lit "statement") then Modes.StrategyTransaction
  else Modes.StrategyHybrid.

Definition to_scry_config `{Build} (pg : PgBouncerConfig) (c : Conf.Config) : outcome Conf.Config :=
  let listen_address :=
    default (lit "127.0.0.1") (listen_addr pg) ++ lit ":" ++ Direct.u64_to_string (default 6432 (listen_port pg)) in
  let strategy := match pool_mode pg with
                  | Some mode => strategy_of mode
                  | None => Conf.connection_pooling (Conf.performance c)
                  end in
  timeout ← match server_connect_timeout pg with
            | Some timeout => u64_mul timeout 1000
            | None => Ret (Conf.connection_timeout_ms (Conf.backend c))
            end;
  let b := Conf.backend c in
  let db := match databases pg with (_, db) :: _ => db | [] => empty_entry end in
  Ret (set_config c
    (set_proxy (Conf.proxy c) listen_address (default (Conf.max_connections (Conf.proxy c)) (max_client_conn pg)))
    (set_backend b (default (Conf.be_host b) (host db)) (default (Conf.be_port b) (port db))
       (default (Conf.be_database b) (dbname db)) (default (Conf.be_user b) (user db))
       (default (Conf.be_password b) (password db)) timeout)
    (set_performance (Conf.performance c) strategy
       (default (Conf.pool_size (Conf.performance c)) (default_pool_size pg))
       (default (Conf.pool_min_idle (Conf.performance c)) (min_pool_size pg))
       (default (Conf.pool_recycle_secs (Conf.performance c)) (server_idle_timeout pg)))).

(** ** What an import should give *)

(** The last value of a key in a section, whatever its case. *)
Definition last_value (name : bytes) (section : list (bytes * bytes)) : option bytes :=
  snd <$> last (filter (λ kv, Str.to_lowercase kv.1 = name) section).

(** The environment's value if it is one, else the file's. *)
Definition chosen {A} (conv : bytes → option A) (env file : option bytes) : option A :=
  match env ≫= conv with Some a => Some a | None => file ≫= conv end.

Lemma last_value_snoc name section kv :
  last_value name (section ++ [kv])
  = if decide (Str.to_lowercase kv.1 = name) then Some kv.2 else last_value name section.
Proof.
  unfold last_value. rewrite filter_app, filter_cons, filter_nil. case_decide.
  - by rewrite last_snoc.
  - by rewrite app_nil_r.
Qed.

(** A file's settings are the last values of their keys. *)
Lemma settings_of_section dbs section :
  let text (name : string) := last_value (lit name) section in
  foldl parse_setting (pgbouncer dbs None None None None None None None None None) section
  = pgbouncer dbs (text "listen_addr"%string) (text "listen_port"%string ≫= parse_u16)
      (Str.to_lowercase <$> text "pool_mode"%string)
      (text "default_pool_size"%string ≫= parse_u64) (text "min_pool_size"%string ≫= parse_u64)
      (text "max_client_conn"%string ≫= parse_u64) (text "server_idle_timeout"%string ≫= parse_u64)
      (text "query_timeout"%string ≫= parse_u64) (text "server_connect_timeout"%string ≫= parse_u64).
Proof.
  cbv zeta. induction section as [|kv section IH] using rev_ind; [done|].
  rewrite foldl_app, IH. cbn [foldl]. unfold parse_setting. rewrite !last_value_snoc.
  set (key := Str.to_lowercase kv.1).
  repeat (case_decide as Hk; [try rewrite Hk; reflexivity|clear Hk]). done.
Qed.

(** *** Printed integers and connection strings are read back *)
Lemma digits_acc d (acc : positive) :
  Str.digits (Zpos acc) (lit (DecimalString.NilEmpty.string_of_uint d)) = Some (Zpos (Pos.of_uint_acc d acc)).
Proof.
  revert acc. assert (Hstep : ∀ b k s acc acc', Str.digit b = Some k → 10 * acc + k = acc' →
    Str.digits acc (b :: s) = Str.digits acc' s)
    by (intros b k s acc acc' Hb <-; simpl; by rewrite Hb).
  induction d as [|d IH|d IH|d IH|d IH|d IH|d IH|d IH|d IH|d IH|d IH]; intros acc; [done|..];
    cbn [Pos.of_uint_acc]; rewrite <-IH;
    [apply (Hstep x30 0)|apply (Hstep x31 1)|apply (Hstep x32 2)|apply (Hstep x33 3)|apply (Hstep x34 4)
    |apply (Hstep x35 5)|apply (Hstep x36 6)|apply (Hstep x37 7)|apply (Hstep x38 8)|apply (Hstep x39 9)];
    reflexivity || lia.
Qed.

Lemma digits_uint d :
  Str.digits 0 (lit (DecimalString.NilEmpty.string_of_uint d)) = Some (Z.of_N (N.of_uint d)).
Proof.
  unfold N.of_uint. induction d as [|d IH|d _|d _|d _|d _|d _|d _|d _|d _|d _]; [done|exact IH|..];
    apply (digits_acc d).
Qed.

Lemma parse_printed hi z :
  0 ≤ z ≤ hi → Str.parse_int 0 hi (Direct.u64_to_string z) = Some z.
Proof.
  intros Hz.
  assert (Hd : Str.digits 0 (Direct.u64_to_string z) = Some z ∧ Direct.u64_to_string z ≠ []).
  { unfold Direct.u64_to_string. pose proof (digits_uint (N.to_uint (Z.to_N z))) as Hd.
    rewrite DecimalN.Unsigned.of_to, Z2N.id in Hd by lia.
    unfold NilZero.string_of_uint. destruct (N.to_uint (Z.to_N z)); [|by split..].
    injection Hd as <-. by split. }
  destruct Hd as [Hd Hne]. destruct (Direct.u64_to_string z) as [|b s]; [done|]. unfold Str.parse_int.
  replace (beqb b x2b) with false by (symmetry; apply bool_decide_eq_false; by intros ->).
  rewrite andb_false_r, Hd. cbn [mbind option_bind]. Ext.Zbool. done.
Qed.

(** A connection string as PgBouncer writes it, every word with a space behind. *)
Definition put_word (name : string) (v : option bytes) : list bytes :=
  match v with Some v => [lit name ++ x3d :: v] | None => [] end.
Definition put_entry (e : DatabaseEntry) : bytes :=
  concat ((λ w, w ++ [x20]) <$>
    put_word "host" (host e) ++ put_word "port" (Direct.u64_to_string <$> port e)
    ++ put_word "dbname" (dbname e) ++ put_word "user" (user e) ++ put_word "password" (password e)).

Definition word_byte (b : byte) : bool := Str.is_ascii b && negb (Str.ascii_ws b).
Definition wf_value (v : option bytes) : bool := match v with Some v => forallb word_byte v | None => true end.
Definition wf_entry (e : DatabaseEntry) : bool :=
  wf_value (host e) && wf_value (dbname e) && wf_value (user e) && wf_value (password e)
  && match port e with Some p => (0 <=? p) && (p <? 2 ^ 16) | None => true end.

Lemma printed_word z : forallb word_byte (Direct.u64_to_string z) = true.
Proof.
  assert (Hu : ∀ d, forallb word_byte (lit (NilEmpty.string_of_uint d)) = true) by (by induction d).
  unfold Direct.u64_to_string, NilZero.string_of_uint. destruct (N.to_uint _); [done|apply Hu..].
Qed.

Lemma split_word cur w cs :
  Forall (λ b, Str.ascii_ws b = false) w →
  Str.split_whitespace_chars cur (((λ b, [b]) <$> w) ++ cs) = Str.split_whitespace_chars (cur ++ w) cs.
Proof.
  revert cur; induction w as [|b w IH]; intros cur Hw; [by rewrite app_nil_r|].
  apply Forall_cons in Hw as [Hb Hw]. cbn [fmap list_fmap app Str.split_whitespace_chars].
  unfold Str.ascii_ws in Hb. rewrite Hb.
  rewrite IH by done. by rewrite <-app_assoc.
Qed.

Lemma word_bytes w : forallb word_byte w = true →
  Forall Str.is_ascii w ∧ Forall (λ b, Str.ascii_ws b = false) w.
Proof.
  induction w as [|b w IH]; [by split|]. simpl. unfold word_byte at 1.
  intros [[Ha Hw%negb_true_iff]%andb_true_iff Hs]%andb_true_iff. destruct (IH Hs).
  split; constructor; try done. by rewrite Ha.
Qed.

Lemma split_words ws :
  Forall (λ w, w ≠ [] ∧ forallb word_byte w = true) ws →
  Str.split_whitespace (concat ((λ w, w ++ [x20]) <$> ws)) = ws.
Proof.
  intros Hws. unfold Str.split_whitespace.
  assert (Ha : Forall Str.is_ascii (concat ((λ w, w ++ [x20]) <$> ws))).
  { induction Hws as [|w ws [_ Hw] _ IH]; simpl; [constructor|].
    rewrite !Forall_app. split; [split|done]; [by apply word_bytes|by repeat constructor]. }
  rewrite Str.chars_ascii by done. clear Ha. induction Hws as [|w ws [Hne Hw] _ IH]; [done|].
  cbn [fmap list_fmap concat]. rewrite <-app_assoc, fmap_app. rewrite split_word by (by apply word_bytes).
  simpl. rewrite decide_False by done. simpl. f_equal. exact IH.
Qed.

(** The names of the keys: lower-case ASCII without an equals sign. *)
Definition name_byte (b : byte) : bool :=
  Str.is_ascii b && bool_decide (Str.ascii_lower b = b) && negb (beqb x3d b).

Lemma key_name (n : bytes) :
  forallb name_byte n = true → Str.to_lowercase n = n ∧ x3d ∉ n.
Proof.
  intros Hn.
  assert (Ha : Forall Str.is_ascii n ∧ (Str.ascii_lower <$> n) = n ∧ x3d ∉ n).
  { induction n as [|b l IH]; [split_and!; [done..|apply not_elem_of_nil]|].
    cbn [forallb] in Hn. unfold name_byte in Hn at 1.
    apply andb_true_iff in Hn as [[[Hb He%bool_decide_eq_true]%andb_true_iff Hq]%andb_true_iff Hl].
    apply negb_true_iff, bool_decide_eq_false in Hq. destruct (IH Hl) as (Hf & Hm & Hx).
    split_and!; [constructor; [by rewrite Hb|done]|by rewrite fmap_cons, He, Hm|].
    by apply not_elem_of_cons. }
  rewrite Str.to_lowercase_ascii by apply Ha. split; apply Ha.
Qed.

Lemma parse_put_word n (v : option bytes) e :
  forallb name_byte (lit n) = true →
  foldl parse_part e (put_word n v)
  = match v with
    | None => e
    | Some value =>
        if decide (lit n = lit "host") then entry (Some value) (port e) (dbname e) (user e) (password e)
        else if decide (lit n = lit "port") then entry (host e) (parse_u16 value) (dbname e) (user e) (password e)
        else if decide (lit n = lit "dbname") then entry (host e) (port e) (Some value) (user e) (password e)
        else if decide (lit n = lit "user") then entry (host e) (port e) (dbname e) (Some value) (password e)
        else if decide (lit n = lit "password") then entry (host e) (port e) (dbname e) (user e) (Some value)
        else e
    end.
Proof.
  intros [Hl Hn]%key_name. destruct v as [v|]; [|done]. cbn [put_word foldl]. unfold parse_part.
  rewrite Str.split_once_app by done. by rewrite Hl.
Qed.

Definition if_set {A} (v old : option A) : option A := match v with Some a => Some a | None => old end.
Lemma parse_put_words h p d u w v :
  foldl parse_part (entry h p d u w) (put_word "host" v) = entry (if_set v h) p d u w ∧
  foldl parse_part (entry h p d u w) (put_word "port" v)
    = entry h (match v with Some v => parse_u16 v | None => p end) d u w ∧
  foldl parse_part (entry h p d u w) (put_word "dbname" v) = entry h p (if_set v d) u w ∧
  foldl parse_part (entry h p d u w) (put_word "user" v) = entry h p d (if_set v u) w ∧
  foldl parse_part (entry h p d u w) (put_word "password" v) = entry h p d u (if_set v w).
Proof. split_and!; rewrite parse_put_word by reflexivity; by destruct v. Qed.

(** A printed connection string is read back. *)
Lemma parse_put_entry e : wf_entry e = true → parse (put_entry e) = e.
Proof.
  destruct e as [h p d u w]. unfold wf_entry. cbn [host port dbname user password].
  intros [[[[Hh Hd]%andb_true_iff Hu]%andb_true_iff Hw]%andb_true_iff Hp]%andb_true_iff.
  unfold parse, put_entry. cbn [host port dbname user password].
  assert (Hword : ∀ n v, lit n ≠ [] → forallb word_byte (lit n) = true → wf_value v = true →
    Forall (λ w, w ≠ [] ∧ forallb word_byte w = true) (put_word n v)).
  { intros n [v|] Hne Hn Hv; repeat constructor; [by destruct (lit n)|].
    rewrite forallb_app, Hn. simpl. exact Hv. }
  rewrite split_words.
  2: { rewrite !Forall_app. split_and!; apply Hword; try done.
       destruct p as [p|]; [|done]. apply printed_word. }
  unfold empty_entry. rewrite !foldl_app.
  rewrite (proj1 (parse_put_words _ _ _ _ _ _)), (proj1 (proj2 (parse_put_words _ _ _ _ _ _))),
    (proj1 (proj2 (proj2 (parse_put_words _ _ _ _ _ _)))),
    (proj1 (proj2 (proj2 (proj2 (parse_put_words _ _ _ _ _ _))))),
    (proj2 (proj2 (proj2 (proj2 (parse_put_words _ _ _ _ _ _))))).
  unfold if_set. f_equal; [by destruct h| |by destruct d|by destruct u|by destruct w].
  destruct p as [p|]; [|done]. simpl. apply andb_true_iff in Hp as [?%Z.leb_le ?%Z.ltb_lt].
  apply parse_printed. lia.
Qed.

(** *** The database that is used: the first name, with its last definition *)
Definition used_database (section : list (bytes * bytes)) : option DatabaseEntry :=
  match section with
  | [] => None
  | (k, v) :: rest => Some (parse (default v (snd <$> last (filter (λ kv, kv.1 = k) rest))))
  end.

Lemma add_databases_head k v m section :
  head (foldl add_database ((k, parse v) :: m) section)
  = Some (k, parse (default v (snd <$> last (filter (λ kv, kv.1 = k) section)))).
Proof.
  revert v m; induction section as [|[k' v'] section IH]; intros v m; [done|].
  cbn [foldl]. unfold add_database at 2. cbn [fst snd index_insert]. rewrite filter_cons. cbn [fst].
  destruct (decide (k = k')) as [<-|Hne].
  - rewrite decide_True by done. rewrite IH. do 2 f_equal.
    rewrite last_cons. by destruct (last (filter _ section)).
  - rewrite decide_False by done. apply IH.
Qed.

Lemma first_database section :
  match foldl add_database [] section with (_, db) :: _ => db | [] => empty_entry end
  = default empty_entry (used_database section).
Proof.
  destruct section as [|[k v] section]; [done|]. cbn [foldl]. unfold add_database at 2. cbn [fst snd index_insert].
  pose proof (add_databases_head k v [] section) as Hh.
  destruct (foldl add_database [(k, parse v)] section) as [|[k' db] l]; [done|]. by injection Hh as _ ->.
Qed.

Lemma parse_nonneg (o : option bytes) t : (o ≫= parse_u64) = Some t → 0 ≤ t.
Proof.
  destruct o as [[|b v]|]; try done. simpl. unfold parse_u64, Str.parse_int.
  intros (z & _ & Hz)%bind_Some. case_match; simplify_eq. bool_to_Z. lia.
Qed.

(** C29. Importing a PgBouncer file under an environment.  Each of the settings
    max_client_conn, pool_mode, default_pool_size, min_pool_size,
    server_idle_timeout and server_connect_timeout is the environment's value when
    that is one, else the last of the file, else what the configuration had; the
    listening address is put together from listen_addr and listen_port, found in
    the same way, with 127.0.0.1 and 6432 for what neither names; the backend is the
    first database of the file; and nothing else of the configuration changes.  The
    connect time-out must fit its milliseconds. *)
Theorem pgbouncer_import_exact `{Build} ini env base :
  let section := default [] (pgbouncer_section ini) in
  let number env_name key := chosen parse_u64 (env (lit env_name)) (last_value (lit key) section) in
  let db := default empty_entry (used_database (default [] (databases_section ini))) in
  (∀ t, number "PGBOUNCER_SERVER_CONNECT_TIMEOUT"%string "server_connect_timeout"%string = Some t → t * 1000 < two64) →
  ∃ pg c, load (Some (true, Some ini)) env = Some pg ∧ to_scry_config pg base = Ret c ∧
    Conf.proxy c = set_proxy (Conf.proxy base)
      (default (lit "127.0.0.1") (chosen Some (env (lit "PGBOUNCER_LISTEN_ADDR")) (last_value (lit "listen_addr") section))
       ++ lit ":" ++ Direct.u64_to_string (default 6432
            (chosen parse_u16 (env (lit "PGBOUNCER_LISTEN_PORT")) (last_value (lit "listen_port") section))))
      (default (Conf.max_connections (Conf.proxy base)) (number "PGBOUNCER_MAX_CLIENT_CONN" "max_client_conn")%string) ∧
    Conf.performance c = set_performance (Conf.performance base)
      (from_option strategy_of (Conf.connection_pooling (Conf.performance base))
         (chosen (λ m, Some (Str.to_lowercase m)) (env (lit "PGBOUNCER_POOL_MODE")) (last_value (lit "pool_mode") section)))
      (default (Conf.pool_size (Conf.performance base)) (number "PGBOUNCER_DEFAULT_POOL_SIZE" "default_pool_size")%string)
      (default (Conf.pool_min_idle (Conf.performance base)) (number "PGBOUNCER_MIN_POOL_SIZE" "min_pool_size")%string)
      (default (Conf.pool_recycle_secs (Conf.performance base)) (number "PGBOUNCER_SERVER_IDLE_TIMEOUT" "server_idle_timeout")%string) ∧
    Conf.backend c = set_backend (Conf.backend base)
      (default (Conf.be_host (Conf.backend base)) (host db)) (default (Conf.be_port (Conf.backend base)) (port db))
      (default (Conf.be_database (Conf.backend base)) (dbname db)) (default (Conf.be_user (Conf.backend base)) (user db))
      (default (Conf.be_password (Conf.backend base)) (password db))
      (from_option (λ t, t * 1000) (Conf.connection_timeout_ms (Conf.backend base))
         (number "PGBOUNCER_SERVER_CONNECT_TIMEOUT" "server_connect_timeout")%string) ∧
    set_config c (Conf.proxy base) (Conf.backend base) (Conf.performance base) = base.
Proof.
  cbv zeta. intros Ht. unfold load, from_file. rewrite settings_of_section. cbv zeta. cbn [mbind option_bind].
  eexists _, _. split; [reflexivity|].
  unfold to_scry_config. cbn [listen_addr listen_port pool_mode default_pool_size min_pool_size max_client_conn
    server_idle_timeout query_timeout server_connect_timeout databases from_env].
  rewrite first_database. unfold chosen in *.
  assert (Hid : ∀ o : option bytes, (o ≫= Some) = o) by (by intros []).
  assert (Hlow : ∀ o : option bytes, (o ≫= λ m, Some (Str.to_lowercase m)) = Str.to_lowercase <$> o) by (by intros []).
  rewrite !Hid, !Hlow. clear Hid Hlow.
  set (timeout := override (env (lit "PGBOUNCER_SERVER_CONNECT_TIMEOUT") ≫= parse_u64) _) in *.
  assert (Htime : match timeout with
                  | Some t => u64_mul t 1000
                  | None => Ret (Conf.connection_timeout_ms (Conf.backend base))
                  end = Ret (from_option (λ t, t * 1000) (Conf.connection_timeout_ms (Conf.backend base)) timeout)).
  { destruct timeout as [t|] eqn:He; [|done]. simpl. apply wrap_or_panic_fits. specialize (Ht t He).
    assert (0 ≤ t); [|lia]. unfold timeout, override in He.
    repeat case_match; simplify_eq; eauto using parse_nonneg. }
  rewrite Htime. cbn [mbind outcome_bind]. split; [reflexivity|].
  split_and!; [reflexivity..|by destruct base].
Qed.

(** *** Where the import loses settings *)

(** The query time-out is read and never used, although the proxy has one. *)
Lemma query_timeout_dropped `{Build} pg q base :
  let '(pgbouncer dbs addr lport mode size minsize maxc idle _ ct) := pg in
  to_scry_config (pgbouncer dbs addr lport mode size minsize maxc idle q ct) base = to_scry_config pg base.
Proof. by destruct pg. Qed.

(** Importing nothing still moves the listening address. *)
Lemma listen_address_reset `{Build} base :
  ∃ c, to_scry_config default_config base = Ret c ∧
    Conf.listen_address (Conf.proxy c) = lit "127.0.0.1:6432".
Proof. by eexists. Qed.
End import.

(** A large connect time-out wraps to a short one, or panics in a checked build. *)
Lemma connect_timeout_overflow :
  u64_mul (H := release_build) 18446744073709552 1000 = Ret 384 ∧
  u64_mul (H := debug_build) 18446744073709552 1000 = Panic.
Proof. by split. Qed.

Definition demo_ini : Ini := {|
  databases_section := Some [(lit "shop", lit "host=db port=5433 dbname=shop"); (lit "old", lit "host=x")];
  pgbouncer_section := Some [(lit "listen_port", lit "7000"); (lit "Pool_Mode", lit "Statement");
                             (lit "server_connect_timeout", lit "15")]
|}.
Definition demo_env (name : bytes) : option bytes :=
  if decide (name = lit "PGBOUNCER_LISTEN_PORT") then Some (lit "6543")
  else if decide (name = lit "PGBOUNCER_MAX_CLIENT_CONN") then Some (lit "many") else None.

Definition demo_base : Conf.Config :=
  StartUp.demo_config (StartUp.demo_publisher false None (lit "debug") None 10).

Lemma pgbouncer_import_exact_witness :
  ∃ pg c, load (H := ascii_tables) (Some (true, Some demo_ini)) demo_env = Some pg ∧
    to_scry_config (H := ascii_tables) (H0 := release_build) pg demo_base = Ret c ∧
    Conf.listen_address (Conf.proxy c) = lit "127.0.0.1:6543" ∧
    Conf.max_connections (Conf.proxy c) = Conf.max_connections (Conf.proxy demo_base) ∧
    Conf.be_host (Conf.backend c) = lit "db" ∧ Conf.connection_timeout_ms (Conf.backend c) = 15000 ∧
    Conf.connection_pooling (Conf.performance c) = Modes.StrategyTransaction.
Proof.
  destruct (pgbouncer_import_exact (H := ascii_tables) (H0 := release_build) demo_ini demo_env demo_base)
    as (pg & c & Hl & Hc & Hp & Hf & Hb & _).
  - intros t Ht. vm_compute in Ht. injection Ht as <-. vm_compute. reflexivity.
  - exists pg, c. rewrite Hp, Hf, Hb. split; [exact Hl|]. split; [exact Hc|]. split_and!; vm_compute; reflexivity.
Defined.
End PgBouncer.
