(* ===== verification/Handshake.v ===== *)
(** * Start-up of a session: TLS negotiation, client authentication, backend
      authentication (tls/startup.rs, auth/authenticator.rs, auth/backend.rs,
      auth/scram.rs and the handshakes of proxy/connection.rs)

    Each routine is a function from what it reads (the client's bytes, what one
    [read] of the password returns, the reads from the backend) to what it writes
    to either side and its result.  Writes succeed; a failing write only ends the
    routine earlier.  TLS itself, the random salt and nonce, MD5 and the SCRAM
    primitives (crates base64, pbkdf2, hmac, sha2) are parameters. *)

From S2P Require Import Prelude RustStr Wire Extractor AuthMessages UserList CircuitBreaker Acquire Events CommandDetector ConnState StmtCache Bind Anonymize Modes HotData Handler Metrics Direct Config.

(** ** TLS negotiation *)
Module Tls.

Inductive SslStartupResult : Type :=
| Upgraded
| Declined (startup rest : bytes)
| NoSslRequest (startup rest : bytes)
| Rejected.
Inductive ssl_error : Type := StartupUnreadable (e : Startup.startup_error) | TlsFailed | TlsNotConfigured.

Definition SSL_RESPONSE_YES : byte := x53.
Definition SSL_RESPONSE_NO : byte := x4e.

(** [tls_config] says whether there is one, [accepted] whether the TLS handshake
    succeeds; the answer is what is written in clear and the result. *)
Definition handle_ssl_startup (sslmode : Conf.TlsSslMode) (tls_config accepted : bool) (stream : bytes)
    : outcome (list bytes * (SslStartupResult + ssl_error)) :=
  match Startup.read_startup_message stream with
  | inl e => Ret ([], inr (StartupUnreadable e))
  | inr (buf, rest) =>
      ssl ← Startup.is_ssl_request buf;
      if negb ssl then
        if Conf.requires_encryption sslmode then
          Ret ([Auth.build_error_response (lit "FATAL") (lit "28000")
                  (lit "SSL connection is required by this server")], inl Rejected)
        else Ret ([], inl (NoSslRequest buf rest))
      else
        let decline :=
          Ret ([[SSL_RESPONSE_NO]],
               match Startup.read_startup_message rest with
               | inl e => inr (StartupUnreadable e)
               | inr (startup, rest) => inl (Declined startup rest)
               end) in
        match sslmode, tls_config with
        | Conf.Disable, _ => decline
        | Conf.Allow, false => decline
        | _, true => Ret ([[SSL_RESPONSE_YES]], if accepted then inl Upgraded else inr TlsFailed)
        | _, false => Ret ([[SSL_RESPONSE_NO]], inr TlsNotConfigured)
        end
  end.

(** A client is served in clear only when the mode does not require encryption,
    and when it does, no byte of a plain session is sent to the client but the
    refusal. *)
Lemma no_plaintext_when_required sslmode cfg acc stream sent r :
  Conf.requires_encryption sslmode = true →
  handle_ssl_startup sslmode cfg acc stream = Ret (sent, inl r) →
  r = Upgraded ∨ r = Rejected.
Proof.
  intros Hreq. unfold handle_ssl_startup.
  destruct (Startup.read_startup_message stream) as [e|[buf rest]]; [by intros [=]|].
  intros ([] & _ & Hr)%outcome_bind_Ret; simpl in Hr.
  - destruct sslmode, cfg, acc; try discriminate Hreq; try discriminate Hr; injection Hr as <- <-; auto.
  - rewrite Hreq in Hr. injection Hr as <- <-. auto.
Qed.
End Tls.

(** ** Authenticating the client *)
Module ClientAuth.
Import FileAuth.
#[local] Existing Instance Conf.AuthType_eq_dec.

Record AuthHandshakeResult : Type := handshake {
  startup : Auth.StartupMessage;
  username : bytes;
  database : option bytes;
  startup_bytes : bytes
}.

Inductive auth_failure : Type :=
| StartupNotRead (e : Startup.startup_error)
| StartupNotParsed
| NoUserParameter
| NoAuthFile
| UserNotFound
| PasswordNotRead
| InvalidPasswordMessage
| NoPlainPassword
| WrongPassword
| ScramUnsupported
| NoClientCertificate.

Section client_auth.
Context `{Build} `{Auth.Md5}.
Context (hash_order : list (bytes * bytes) → list (bytes * bytes)).

Definition build_backend_startup (c : Conf.Config) (m : Auth.StartupMessage) : bytes :=
  let extra_params :=
    filter (λ kv, kv.1 ≠ lit "user" ∧ kv.1 ≠ lit "database")
           (hash_order (map_to_list (Auth.parameters m))) in
  Auth.StartupMessage_build (Conf.be_user (Conf.backend c)) (Conf.be_database (Conf.backend c))
    extra_params.

(** The start-up message, buffered or still to be read. *)
Definition read_startup (startup_data stream : bytes) : outcome (Auth.StartupMessage + auth_failure) :=
  let parse data :=
    m ← Auth.StartupMessage_parse data;
    Ret (match m with Some m => inl m | None => inr StartupNotParsed end) in
  match startup_data with
  | [] => match Startup.read_startup_message stream with
          | inl e => Ret (inr (StartupNotRead e))
          | inr (buf, _) => parse buf
          end
  | _ => parse startup_data
  end.

Definition send_auth_error (message : bytes) : bytes :=
  Auth.build_error_response (lit "FATAL") (lit "28P01") message.

(** [password_read]: what the one [read] returns, [None] when it fails. *)
Definition authenticate_md5 (c : Conf.Config) (file_auth : option FileAuthenticator)
    (salt : bytes) (password_read : option bytes) (m : Auth.StartupMessage) (user : bytes)
    : outcome (list bytes * (AuthHandshakeResult + auth_failure)) :=
  match file_auth with
  | None => Ret ([], inr NoAuthFile)
  | Some fa =>
      if negb (has_user fa user)
      then Ret ([send_auth_error (lit "password authentication failed")], inr UserNotFound)
      else
        let request := Auth.build_auth_md5_password salt in
        match password_read with
        | None => Ret ([request], inr PasswordNotRead)
        | Some buf =>
            r ← Auth.parse_password_message buf;
            match r with
            | None => Ret ([request], inr InvalidPasswordMessage)
            | Some client_password =>
                match get_password fa user with
                | None => Ret ([request], inr NoPlainPassword)
                | Some stored_password =>
                    if Auth.verify_md5_response client_password stored_password user salt
                    then Ret ([request], inl (handshake m user (Auth.database m)
                                                (build_backend_startup c m)))
                    else Ret ([request; send_auth_error (lit "password authentication failed")],
                              inr WrongPassword)
                end
            end
        end
  end.

Definition authenticate (c : Conf.Config) (file_auth : option FileAuthenticator)
    (startup_data stream salt : bytes) (password_read : option bytes) (verified_cert : bool)
    : outcome (list bytes * (AuthHandshakeResult + auth_failure)) :=
  r ← read_startup startup_data stream;
  match r with
  | inr e => Ret ([], inr e)
  | inl m =>
      match Auth.user m with
      | None => Ret ([], inr NoUserParameter)
      | Some user =>
          let trusted := handshake m user (Auth.database m) (build_backend_startup c m) in
          match Conf.auth_type (Conf.auth c) with
          | Conf.Trust => Ret ([], inl trusted)
          | Conf.Md5 => authenticate_md5 c file_auth salt password_read m user
          | Conf.ScramSha256 => Ret ([], inr ScramUnsupported)
          | Conf.Cert =>
              if negb verified_cert then Ret ([], inr NoClientCertificate) else Ret ([], inl trusted)
          end
      end
  end.

Definition requires_auth (c : Conf.Config) : bool :=
  negb (bool_decide (Conf.auth_type (Conf.auth c) = Conf.Trust)).

(** What a client must have shown to be let in. *)
Definition proved_identity (c : Conf.Config) (file_auth : option FileAuthenticator) (salt : bytes)
    (password_read : option bytes) (verified_cert : bool) (user : bytes) : Prop :=
  match Conf.auth_type (Conf.auth c) with
  | Conf.Trust => True
  | Conf.ScramSha256 => False
  | Conf.Cert => verified_cert = true
  | Conf.Md5 =>
      ∃ fa pw buf, file_auth = Some fa ∧ users fa !! user = Some (Plain pw) ∧
        password_read = Some buf ∧
        Auth.parse_password_message buf = Ret (Some (Auth.compute_md5_response pw user salt))
  end.

Lemma md5_let_in c fa salt pr m user sent r :
  authenticate_md5 c fa salt pr m user = Ret (sent, inl r) →
  (∃ fa' pw buf, fa = Some fa' ∧ users fa' !! user = Some (Plain pw) ∧ pr = Some buf ∧
    Auth.parse_password_message buf = Ret (Some (Auth.compute_md5_response pw user salt))) ∧
  r = handshake m user (Auth.database m) (build_backend_startup c m).
Proof.
  unfold authenticate_md5. destruct fa as [fa|]; [|by intros [=]].
  destruct (has_user fa user); simpl; [|by intros [=]]. destruct pr as [buf|]; [|by intros [=]].
  intros (pw & Hpw & Hr)%outcome_bind_Ret. destruct pw as [pw|]; [|by injection Hr].
  unfold get_password in Hr. destruct (users fa !! user) as [[p| |]|] eqn:Hu; try by injection Hr.
  unfold Auth.verify_md5_response in Hr. case_bool_decide as Hv; [|by injection Hr].
  injection Hr as <- <-. split; [|done]. subst pw. by exists fa, p, buf.
Qed.


(** The right answer is accepted. *)
Lemma md5_complete c fa data stream salt m user pw cert :
  Conf.auth_type (Conf.auth c) = Conf.Md5 → read_startup data stream = Ret (inl m) →
  Auth.user m = Some user → users fa !! user = Some (Plain pw) →
  Str.utf8_valid (Auth.compute_md5_response pw user salt) = true →
  zlen (Auth.compute_md5_response pw user salt) < 2 ^ 30 →
  authenticate c (Some fa) data stream salt
    (Some (Auth.build_password_message (Auth.compute_md5_response pw user salt))) cert
  = Ret ([Auth.build_auth_md5_password salt],
         inl (handshake m user (Auth.database m) (build_backend_startup c m))).
Proof.
  intros Ht Hrd Hu Hpw Hv Hl. unfold authenticate. rewrite Hrd. cbn [mbind outcome_bind].
  rewrite Hu, Ht. unfold authenticate_md5, has_user, get_password. rewrite Hpw.
  rewrite bool_decide_eq_true_2 by eauto. cbn [negb].
  rewrite (proj1 Auth.password_message_roundtrip) by done. cbn [mbind outcome_bind].
  unfold Auth.verify_md5_response. by rewrite bool_decide_eq_true_2.
Qed.
End client_auth.
End ClientAuth.

(** ** SCRAM-SHA-256 towards the backend (auth/scram.rs) *)
Class ScramCrypto : Type := {
  b64_encode : bytes → bytes;
  b64_decode : bytes → option bytes;
  pbkdf2_sha256 : bytes → bytes → Z → bytes;
  hmac_sha256 : bytes → bytes → bytes;
  sha256 : bytes → bytes
}.
(** What the code relies on: base64 reads back and is text without a comma,
    digests have 32 bytes. *)
Class ScramLaws `{ScramCrypto} : Prop := {
  b64_roundtrip (b : bytes) : b64_decode (b64_encode b) = Some b;
  b64_text (b : bytes) : Forall (λ c, Direct.plain c = true ∧ c ≠ x2c) (b64_encode b);
  hmac_length (k d : bytes) : length (hmac_sha256 k d) = 32%nat
}.

Module Scram.

Inductive ScramError : Type :=
| InvalidServerMessage | MissingNonce | MissingSalt | MissingIterations | InvalidNonce | InvalidSalt
| NotInitialized | InvalidServerSignature | ServerSignatureMismatch.

Record ScramClient : Type := scram {
  sc_username : bytes;
  sc_password : bytes;
  client_nonce : bytes;
  client_first_bare : bytes;
  server_first : bytes;
  salted_password : option bytes
}.

Section scram.
Context `{ScramCrypto}.

Definition generate_nonce (random : bytes) : bytes := b64_encode random.
Definition new (username password nonce : bytes) : ScramClient :=
  scram username password nonce [] [] None.

Definition client_first (c : ScramClient) : ScramClient * bytes :=
  let bare := lit "n=" ++ sc_username c ++ lit ",r=" ++ client_nonce c in
  (scram (sc_username c) (sc_password c) (client_nonce c) bare (server_first c) (salted_password c),
   lit "n,," ++ bare).

Definition xor_bytes (a b : bytes) : bytes :=
  zip_with (λ x y, Z_byte (Z.lxor (byte_Z x) (byte_Z y))) a b.

(** One part of the server's first message. *)
Definition take_part (acc : option bytes * option bytes * option Z) (part : bytes)
    : option bytes * option bytes * option Z :=
  let '(nonce, salt, iterations) := acc in
  match Str.strip_prefix part (lit "r=") with
  | Some v => (Some v, salt, iterations)
  | None =>
      match Str.strip_prefix part (lit "s=") with
      | Some v => (nonce, Some v, iterations)
      | None =>
          match Str.strip_prefix part (lit "i=") with
          | Some v => (nonce, salt, Str.parse_int 0 (two32 - 1) v)
          | None => acc
          end
      end
  end.

Definition without_proof (nonce : bytes) : bytes := lit "c=biws,r=" ++ nonce.
Definition auth_message (c : ScramClient) (nonce : bytes) : bytes :=
  client_first_bare c ++ lit "," ++ server_first c ++ lit "," ++ without_proof nonce.

Definition client_final (c : ScramClient) (msg : bytes) : ScramClient * (bytes + ScramError) :=
  match Str.from_utf8 msg with
  | None => (c, inr InvalidServerMessage)
  | Some text =>
      let c1 := scram (sc_username c) (sc_password c) (client_nonce c) (client_first_bare c) text
                      (salted_password c) in
      let '(nonce, salt_b64, iterations) :=
        foldl take_part (None, None, None) (Str.split_byte x2c text) in
      match nonce, salt_b64, iterations with
      | None, _, _ => (c1, inr MissingNonce)
      | _, None, _ => (c1, inr MissingSalt)
      | _, _, None => (c1, inr MissingIterations)
      | Some nonce, Some salt_b64, Some iterations =>
          if negb (Str.starts_with nonce (client_nonce c)) then (c1, inr InvalidNonce)
          else match b64_decode salt_b64 with
               | None => (c1, inr InvalidSalt)
               | Some salt =>
                   let salted := pbkdf2_sha256 (sc_password c) salt iterations in
                   let c2 := scram (sc_username c) (sc_password c) (client_nonce c)
                               (client_first_bare c) text (Some salted) in
                   let client_key := hmac_sha256 salted (lit "Client Key") in
                   let stored_key := sha256 client_key in
                   let client_signature := hmac_sha256 stored_key (auth_message c2 nonce) in
                   let client_proof := xor_bytes client_key client_signature in
                   (c2, inl (without_proof nonce ++ lit ",p=" ++ b64_encode client_proof))
               end
      end
  end.

Definition verify_server_final (c : ScramClient) (msg : bytes) : unit + ScramError :=
  match Str.from_utf8 msg with
  | None => inr InvalidServerMessage
  | Some text =>
      match Str.strip_prefix text (lit "v=") with
      | None => inr InvalidServerSignature
      | Some sig_b64 =>
          match b64_decode sig_b64, salted_password c with
          | None, _ => inr InvalidServerSignature
          | Some _, None => inr NotInitialized
          | Some server_sig, Some salted =>
              let server_key := hmac_sha256 salted (lit "Server Key") in
              match head (omap (λ p, Str.strip_prefix p (lit "r=")) (Str.split_byte x2c (server_first c)))
              with
              | None => inr MissingNonce
              | Some nonce =>
                  let expected_sig := hmac_sha256 server_key (auth_message c nonce) in
                  if decide (server_sig = expected_sig) then inl tt else inr ServerSignatureMismatch
              end
          end
      end
  end.

(** *** The server of RFC 5802, for a user whose salted password it knows *)
Definition server_first_message (nonce salt : bytes) (iterations : bytes) : bytes :=
  lit "r=" ++ nonce ++ lit ",s=" ++ b64_encode salt ++ lit ",i=" ++ iterations.
Definition server_accepts (salted authmsg proof : bytes) : bool :=
  let stored_key := sha256 (hmac_sha256 salted (lit "Client Key")) in
  bool_decide (sha256 (xor_bytes proof (hmac_sha256 stored_key authmsg)) = stored_key).
Definition server_final_message (salted authmsg : bytes) : bytes :=
  lit "v=" ++ b64_encode (hmac_sha256 (hmac_sha256 salted (lit "Server Key")) authmsg).

Lemma xor_byte_involutive x y :
  Z_byte (Z.lxor (byte_Z (Z_byte (Z.lxor (byte_Z x) (byte_Z y)))) (byte_Z y)) = x.
Proof.
  rewrite byte_Z_byte.
  assert (Hr : Z.lxor (byte_Z x) (byte_Z y) mod 256 = Z.lxor (byte_Z x) (byte_Z y)).
  { apply Z.mod_small. pose proof (byte_Z_range x). pose proof (byte_Z_range y). split.
    - apply Z.lxor_nonneg. lia.
    - destruct (Z.eq_dec (Z.lxor (byte_Z x) (byte_Z y)) 0) as [->|Hne]; [lia|].
      apply Z.log2_lt_cancel. change (Z.log2 256) with 8.
      eapply Z.le_lt_trans; [apply Z.log2_lxor; lia|].
      apply Z.max_lub_lt; (destruct (Z.eq_dec (byte_Z x) 0) as [E1|]; destruct (Z.eq_dec (byte_Z y) 0) as [E2|]);
        try rewrite E1; try rewrite E2; try (simpl; lia); apply Z.log2_lt_pow2; lia. }
  rewrite Hr, Z.lxor_assoc, Z.lxor_nilpotent, Z.lxor_0_r. apply Z_byte_Z.
Qed.

Lemma xor_bytes_involutive a b : length a = length b → xor_bytes (xor_bytes a b) b = a.
Proof.
  revert b. induction a as [|x a IH]; intros [|y b] Hl; try done. simpl. f_equal.
  - apply xor_byte_involutive.
  - apply IH. by injection Hl.
Qed.


(** Words: text without a comma. *)
Definition word (s : bytes) : Prop := Forall (λ c, Direct.plain c = true ∧ c ≠ x2c) s.

Lemma word_app a b : word a → word b → word (a ++ b).
Proof. apply Forall_app_2. Qed.
Lemma word_plain s : word s → Forall (λ c, Direct.plain c = true) s.
Proof. intros Hs. eapply Forall_impl; [exact Hs|]. by intros ? []. Qed.
Lemma word_comma s : word s → x2c ∉ s.
Proof. intros Hs Hin. unfold word in Hs. rewrite Forall_forall in Hs. by destruct (Hs _ Hin). Qed.
Lemma from_utf8_plain s : Forall (λ c, Direct.plain c = true) s → Str.from_utf8 s = Some s.
Proof. intros Hs. unfold Str.from_utf8. by rewrite Direct.plain_utf8. Qed.

Section laws.
Context `{!ScramLaws}.

Lemma b64_word b : word (b64_encode b).
Proof. apply b64_text. Qed.

Lemma server_first_parts nonce salt it :
  word nonce → word it →
  Str.from_utf8 (server_first_message nonce salt it) = Some (server_first_message nonce salt it) ∧
  Str.split_byte x2c (server_first_message nonce salt it)
  = [lit "r=" ++ nonce; lit "s=" ++ b64_encode salt; lit "i=" ++ it].
Proof.
  intros Hn Hi. pose proof (b64_word salt) as Hs. unfold server_first_message. split.
  - apply from_utf8_plain. rewrite !Forall_app. split_and!; try by apply word_plain.
    all: by repeat constructor.
  - replace (lit "r=" ++ nonce ++ lit ",s=" ++ b64_encode salt ++ lit ",i=" ++ it)
      with ((lit "r=" ++ nonce) ++ x2c :: (lit "s=" ++ b64_encode salt) ++ x2c :: lit "i=" ++ it)
      by (rewrite <-!app_assoc; done).
    assert (Hl : ∀ a b w, a ≠ x2c → b ≠ x2c → word w → x2c ∉ a :: b :: w)
      by (intros a b w Ha Hb Hw%word_comma; set_solver).
    rewrite Str.split_byte_word by (apply (Hl x72 x3d); done). f_equal.
    rewrite Str.split_byte_word by (apply (Hl x73 x3d); done). f_equal.
    by rewrite Str.split_byte_notin by (apply (Hl x69 x3d); done).
Qed.

Lemma parts_taken nonce salt it n :
  Str.parse_int 0 (two32 - 1) it = Some n →
  foldl take_part (None, None, None)
    [lit "r=" ++ nonce; lit "s=" ++ b64_encode salt; lit "i=" ++ it]
  = (Some nonce, Some (b64_encode salt), Some n).
Proof.
  intros Hn. cbn [foldl]. unfold take_part at 3. rewrite Str.strip_prefix_app.
  unfold take_part at 2. change (Str.strip_prefix (lit "s=" ++ b64_encode salt) (lit "r=")) with (@None bytes).
  cbn iota. rewrite Str.strip_prefix_app. unfold take_part.
  change (Str.strip_prefix (lit "i=" ++ it) (lit "r=")) with (@None bytes).
  change (Str.strip_prefix (lit "i=" ++ it) (lit "s=")) with (@None bytes).
  cbn iota. by rewrite Str.strip_prefix_app, Hn.
Qed.

(** C31. SCRAM runs to mutual proof: against a server of RFC 5802 that knows the
    salted password, the client's final message carries a proof the server
    accepts, the client accepts the server's signature, and it refuses any other
    signature. *)
Theorem scram_mutual user pw cn sn salt it n :
  word cn → word sn → word it → Str.parse_int 0 (two32 - 1) it = Some n →
  let c1 := (client_first (new user pw cn)).1 in
  let sf := server_first_message (cn ++ sn) salt it in
  let salted := pbkdf2_sha256 pw salt n in
  let am := client_first_bare c1 ++ lit "," ++ sf ++ lit "," ++ without_proof (cn ++ sn) in
  ∃ c2 proof,
    client_final c1 sf = (c2, inl (without_proof (cn ++ sn) ++ lit ",p=" ++ b64_encode proof)) ∧
    server_accepts salted am proof = true ∧
    verify_server_final c2 (server_final_message salted am) = inl tt ∧
    ∀ sig, sig ≠ hmac_sha256 (hmac_sha256 salted (lit "Server Key")) am →
      verify_server_final c2 (lit "v=" ++ b64_encode sig) = inr ServerSignatureMismatch.
Proof.
  intros Hc Hs Hi Hn c1 sf salted am.
  destruct (server_first_parts (cn ++ sn) salt it) as [Hu Hsp]; [by apply word_app|done|].
  fold sf in Hu, Hsp.
  assert (Hfinal : client_final c1 sf =
    (scram user pw cn (client_first_bare c1) sf (Some salted),
     inl (without_proof (cn ++ sn) ++ lit ",p=" ++ b64_encode
       (xor_bytes (hmac_sha256 salted (lit "Client Key"))
          (hmac_sha256 (sha256 (hmac_sha256 salted (lit "Client Key"))) am))))).
  { unfold client_final. rewrite Hu, Hsp, (parts_taken _ _ _ _ Hn). cbn iota.
    replace (Str.starts_with (cn ++ sn) (client_nonce c1)) with true
      by (symmetry; apply Str.starts_with_spec; by exists sn).
    cbn [negb]. rewrite b64_roundtrip. done. }
  rewrite Hfinal. eexists _, _. split; [reflexivity|].
  assert (Hv : ∀ sig, verify_server_final (scram user pw cn (client_first_bare c1) sf (Some salted))
      (lit "v=" ++ b64_encode sig)
    = if decide (sig = hmac_sha256 (hmac_sha256 salted (lit "Server Key")) am)
      then inl tt else inr ServerSignatureMismatch).
  { intros sig. unfold verify_server_final. rewrite from_utf8_plain.
    - rewrite Str.strip_prefix_app, b64_roundtrip. cbn [salted_password server_first]. rewrite Hsp.
      cbn [omap list_omap]. rewrite Str.strip_prefix_app. done.
    - apply Forall_app. split; [by repeat constructor|]. by apply word_plain, b64_word. }
  split_and!.
  - unfold server_accepts. apply bool_decide_eq_true. rewrite xor_bytes_involutive; [done|].
    by rewrite !hmac_length.
  - unfold server_final_message. rewrite Hv. by rewrite decide_True.
  - intros sig Hsig. rewrite Hv. by rewrite decide_False.
Qed.
End laws.
End scram.
End Scram.

(** ** Authenticating to the backend (auth/backend.rs) *)
Module BackendAuth.
Import Scram.

Inductive backend_failure : Type :=
| BackendClosed
| UnsupportedMechanism (mechanisms : list bytes)
| ContinueWithoutInit
| FinalWithoutInit
| ScramFailed (e : ScramError).

Section backend.
Context `{Build} `{Auth.Md5} `{ScramCrypto}.
Context (username password nonce : bytes).

Definition try_parse_auth (data : bytes) : outcome (option (Auth.AuthRequest * Z)) :=
  if zlen data <? 9 then Ret None
  else
    t ← at_ data 0;
    if negb (beqb t MSG_AUTHENTICATION) then Ret None
    else
      length_ ← as_usize <$> i32_at data 1;
      total_len ← u64_add 1 length_;
      if zlen data <? total_len then Ret None
      else
        r ← Auth.AuthRequest_parse (take (Z.to_nat total_len) data);
        Ret (match r with Some req => Some (req, total_len) | None => None end).

(** What is answered to a request: messages to send, the SCRAM client
    afterwards, and whether to go on. *)
Definition answer (req : Auth.AuthRequest) (scram_client : option ScramClient)
    : list bytes * option ScramClient * option backend_failure :=
  match req with
  | Auth.AuthOk => ([], scram_client, None)
  | Auth.CleartextPassword => ([Auth.build_password_message password], scram_client, None)
  | Auth.Md5Password salt =>
      ([Auth.build_password_message (Auth.compute_md5_response password username salt)],
       scram_client, None)
  | Auth.Sasl mechanisms =>
      if bool_decide (lit "SCRAM-SHA-256" ∈ mechanisms) then
        let '(client, first) := client_first (new username password nonce) in
        ([Auth.build_sasl_initial_response (lit "SCRAM-SHA-256") first], Some client, None)
      else ([], scram_client, Some (UnsupportedMechanism mechanisms))
  | Auth.SaslContinue data =>
      match scram_client with
      | None => ([], None, Some ContinueWithoutInit)
      | Some client =>
          let '(client, r) := client_final client data in
          match r with
          | inl final => ([Auth.build_sasl_response final], Some client, None)
          | inr e => ([], Some client, Some (ScramFailed e))
          end
      end
  | Auth.SaslFinal data =>
      match scram_client with
      | None => ([], None, Some FinalWithoutInit)
      | Some client =>
          match verify_server_final client data with
          | inl _ => ([], Some client, None)
          | inr e => ([], Some client, Some (ScramFailed e))
          end
      end
  end.

(** The loop of [authenticate]: the messages sent, and the bytes left over with
    the reads not made.  A read that returns nothing is the end of the stream. *)
Fixpoint auth_loop (fuel : nat) (pending : bytes) (scram_client : option ScramClient)
    (reads : list bytes) : outcome (list bytes * (bytes * list bytes + backend_failure)) :=
  match fuel with
  | O => Diverge
  | S fuel =>
      let read_more :=
        match reads with
        | [] | [] :: _ => Ret ([], inr BackendClosed)
        | d :: reads => auth_loop fuel (pending ++ d) scram_client reads
        end in
      if decide (pending = []) then read_more
      else
        p ← try_parse_auth pending;
        match p with
        | None => read_more
        | Some (req, consumed) =>
            let pending := drop (Z.to_nat consumed) pending in
            match req with
            | Auth.AuthOk => Ret ([], inl (pending, reads))
            | _ =>
                match answer req scram_client with
                | (sent, _, Some e) => Ret (sent, inr e)
                | (sent, scram_client, None) =>
                    r ← auth_loop fuel pending scram_client reads;
                    Ret (sent ++ r.1, r.2)
                end
            end
        end
  end.

(** Every round makes a read or consumes a message. *)
Definition measure (pending : bytes) (reads : list bytes) : nat :=
  (length reads + length (pending ++ concat reads))%nat.
Definition authenticate (initial_data : bytes) (reads : list bytes)
    : outcome (list bytes * (bytes * list bytes + backend_failure)) :=
  auth_loop (S (measure initial_data reads)) initial_data None reads.

(** ** What a request depends on *)
(** More data does not change a decision that was made. *)
Lemma try_parse_app data more :
  try_parse_auth data ≠ Ret None → try_parse_auth (data ++ more) = try_parse_auth data.
Proof.
  unfold try_parse_auth. rewrite zlen_app. pose proof (zlen_nonneg more).
  destruct (Z.ltb_spec (zlen data) 9); [done|].
  rewrite (proj2 (Z.ltb_ge _ _)) by lia.
  destruct (at_Ret data 0) as [t Ht]; [lia|]. rewrite at_app_l, Ht by lia.
  cbn [mbind outcome_bind]. destruct (negb (beqb t MSG_AUTHENTICATION)); [done|].
  rewrite i32_at_app_l by lia. destruct (i32_at data 1) as [n| |]; [|done|done].
  cbn [fmap outcome_fmap mbind outcome_bind].
  destruct (u64_add 1 (as_usize n)) as [total| |]; [|done|done]. cbn [mbind outcome_bind].
  destruct (Z.ltb_spec (zlen data) total); [done|]. intros _.
  rewrite (proj2 (Z.ltb_ge _ _)) by lia.
  rewrite take_app_le; [done|]. unfold zlen in *. lia.
Qed.

Lemma parse_some_length data req : Auth.AuthRequest_parse data = Ret (Some req) → 9 ≤ zlen data.
Proof. unfold Auth.AuthRequest_parse. by destruct (Z.ltb_spec (zlen data) 9). Qed.

Lemma try_parse_consumed data req n :
  try_parse_auth data = Ret (Some (req, n)) → 9 ≤ n ≤ zlen data.
Proof.
  unfold try_parse_auth. destruct (zlen data <? 9); [done|].
  intros (t & _ & Hr)%outcome_bind_Ret. destruct (negb _); [done|].
  apply outcome_bind_Ret in Hr as (len & _ & Hr). apply outcome_bind_Ret in Hr as (total & _ & Hr).
  destruct (Z.ltb_spec (zlen data) total); [done|].
  apply outcome_bind_Ret in Hr as ([r|] & Hp & Hr); [|done]. injection Hr as <- <-.
  apply parse_some_length in Hp. unfold zlen in *. rewrite length_take in Hp. lia.
Qed.

(** The mechanism list is finite. *)
Lemma mechanisms_loop_ends fuel data stop offset :
  0 ≤ offset → stop - offset < Z.of_nat fuel → ends (Auth.mechanisms_loop fuel data stop offset).
Proof.
  revert offset. induction fuel as [|fuel IH]; intros offset Ho Hf; cbn [Auth.mechanisms_loop];
    (destruct (Z.leb_spec stop offset); [done|]); [lia|].
  cbv zeta. pose proof (Auth.scan_bounds data stop offset ltac:(lia)) as Hb.
  apply ends_bind; [destruct (_ <? _); [|done]; unfold sub; by case_match|]. intros m _.
  apply ends_bind; [destruct (_ <? _); [|done]; unfold at_; by case_match|].
  intros [] _; [done|]. apply ends_fmap, IH; lia.
Qed.

Lemma AuthRequest_parse_ends data : zlen data < two64 → ends (Auth.AuthRequest_parse data).
Proof.
  intros Hl. unfold Auth.AuthRequest_parse. destruct (zlen data <? 9); [done|].
  apply ends_bind; [apply ends_at|]. intros t _. destruct (negb _); [done|].
  apply ends_bind; [apply ends_fmap, ends_i32_at|]. intros n _.
  apply ends_bind; [apply ends_wrap_or_panic|]. intros stop _.
  destruct (Z.ltb_spec (zlen data) stop); [done|].
  apply ends_bind; [apply ends_i32_at|]. intros code _.
  repeat (match goal with |- ends (if ?b then _ else _) => destruct b end; try done);
    try (apply ends_bind; [apply ends_sub|done]).
  apply ends_bind; [apply mechanisms_loop_ends; unfold zlen in *; lia|done].
Qed.

Lemma try_parse_ends data : zlen data < two64 → ends (try_parse_auth data).
Proof.
  intros Hl. unfold try_parse_auth. destruct (zlen data <? 9); [done|].
  apply ends_bind; [apply ends_at|]. intros t _. destruct (negb _); [done|].
  apply ends_bind; [apply ends_fmap, ends_i32_at|]. intros n _.
  apply ends_bind; [apply ends_wrap_or_panic|]. intros total _. destruct (_ <? _); [done|].
  apply ends_bind; [|by intros [] _]. apply AuthRequest_parse_ends.
  unfold zlen in *. rewrite length_take. lia.
Qed.

(** ** The exchange does not depend on how the backend's bytes are cut *)

(** A result with what is left of the stream put together. *)
Definition joined (r : list bytes * (bytes * list bytes + backend_failure))
    : list bytes * (bytes + backend_failure) :=
  (r.1, match r.2 with inl (p, rs) => inl (p ++ concat rs) | inr e => inr e end).

Lemma joined_bind sent (m : outcome (list bytes * (bytes * list bytes + backend_failure))) :
  joined <$> (m ≫= λ r, Ret (sent ++ r.1, r.2))
  = ((joined <$> m) ≫= λ r, Ret (sent ++ r.1, r.2)).
Proof. destruct m as [[l [[p rs]|e]]| |]; done. Qed.

Lemma auth_loop_joined fuel fuel' pending sc reads :
  Forall (λ d, d ≠ []) reads → (measure pending reads < fuel)%nat →
  (length (pending ++ concat reads) < fuel')%nat →
  joined <$> auth_loop fuel pending sc reads
  = joined <$> auth_loop fuel' (pending ++ concat reads) sc [].
Proof.
  revert fuel' pending sc reads. induction fuel as [|fuel IH]; intros fuel' pending sc reads Hne Hf Hf';
    [lia|]. destruct fuel' as [|fuel']; [lia|].
  assert (Hread : ∀ d rs, reads = d :: rs →
    joined <$> auth_loop fuel (pending ++ d) sc rs
    = joined <$> auth_loop (S fuel') (pending ++ concat reads) sc []).
  { intros d rs ->. apply Forall_cons in Hne as [_ Hne]. cbn [concat].
    rewrite app_assoc. apply IH; [done| |by rewrite <-app_assoc].
    unfold measure in *. cbn [concat length] in Hf. rewrite <-app_assoc. lia. }
  assert (try_parse_auth pending = Ret None ∨ try_parse_auth pending ≠ Ret None) as [Hn|Hn]
    by (destruct (try_parse_auth pending) as [[]| |]; auto).
  { destruct reads as [|d rs].
    - cbn [concat]. rewrite app_nil_r. cbn [auth_loop]. rewrite Hn. by case_decide.
    - apply Forall_cons in Hne as [Hd _]. rewrite <-(Hread d rs eq_refl). cbn [auth_loop].
      rewrite Hn. case_decide; by destruct d. }
  assert (Hp : pending ≠ []) by (intros ->; by apply Hn).
  cbn [auth_loop]. rewrite !decide_False by (by try intros [? _]%app_eq_nil). rewrite (try_parse_app pending (concat reads) Hn).
  destruct (try_parse_auth pending) as [[[req n]|]| |] eqn:Ht; [|done|done|done].
  cbn [mbind outcome_bind]. apply try_parse_consumed in Ht.
  assert (Hdrop : drop (Z.to_nat n) (pending ++ concat reads) = drop (Z.to_nat n) pending ++ concat reads).
  { apply drop_app_le. unfold zlen in Ht. lia. }
  rewrite Hdrop.
  assert (Hgo : ∀ sc', joined <$> auth_loop fuel (drop (Z.to_nat n) pending) sc' reads
    = joined <$> auth_loop fuel' (drop (Z.to_nat n) pending ++ concat reads) sc' []).
  { intros sc'. unfold measure, zlen in *. apply IH; [done|..];
      rewrite !length_app, ?length_drop in *; unfold measure; rewrite ?length_app, ?length_drop; lia. }
  destruct req; try (destruct (answer _ sc) as [[sent sc'] [e|]]; [done|];
    by rewrite !joined_bind, Hgo).
  unfold joined; cbn [fmap outcome_fmap fst snd concat]. by rewrite app_nil_r.
Qed.

Lemma auth_loop_ends fuel pending sc reads :
  (measure pending reads < fuel)%nat → zlen (pending ++ concat reads) < two64 →
  ends (auth_loop fuel pending sc reads).
Proof.
  revert pending sc reads. induction fuel as [|fuel IH]; intros pending sc reads Hf Hl; [lia|].
  assert (Hread : ends (match reads with
      | [] | [] :: _ => Ret ([], inr BackendClosed)
      | d :: reads => auth_loop fuel (pending ++ d) sc reads
      end)).
  { destruct reads as [|[|b d] rs]; [done|done|]. apply IH.
    - unfold measure in *. cbn [concat length] in Hf. rewrite <-app_assoc. lia.
    - by rewrite <-app_assoc. }
  cbn [auth_loop]. case_decide; [done|].
  apply ends_bind; [apply try_parse_ends; rewrite zlen_app in Hl; pose proof (zlen_nonneg (concat reads)); lia|].
  intros [[req n]|] Hp; [|done]. apply try_parse_consumed in Hp.
  assert (Hgo : ∀ sc', ends (auth_loop fuel (drop (Z.to_nat n) pending) sc' reads)).
  { intros sc'. unfold measure, zlen in *. apply IH; unfold measure;
      rewrite ?length_app, ?length_drop in *; lia. }
  destruct req; try (destruct (answer _ sc) as [[sent sc'] [e|]]; [done|];
    apply ends_bind; [apply Hgo|done]). done.
Qed.

(** C30. Backend authentication always comes to an end, and what it sends and how
    it ends depend only on the bytes the backend sends, not on how they arrive:
    cutting the stream into reads in any way gives the same answers, the same
    result and the same bytes left for the start-up that follows. *)
Theorem backend_auth_chunking initial_data reads :
  Forall (λ d, d ≠ []) reads → zlen (initial_data ++ concat reads) < two64 →
  ends (authenticate initial_data reads) ∧
  joined <$> authenticate initial_data reads
  = joined <$> authenticate (initial_data ++ concat reads) [].
Proof.
  intros Hne Hl. unfold authenticate. split; [apply auth_loop_ends; [lia|done]|].
  rewrite (auth_loop_joined _ (S (measure (initial_data ++ concat reads) []))); [done|done|lia|].
  unfold measure. cbn [concat length]. rewrite app_nil_r. lia.
Qed.
End backend.
End BackendAuth.

(** ** The start-up handshakes (proxy/connection.rs)

    What the handler does on either side, in order.  A direct session forwards the
    backend's start-up as it comes, a pooled session on a fresh backend captures
    it first, and a pooled session on a warm backend replays a captured one. *)
Module Handshakes.
Import FileAuth ClientAuth.

Inductive action : Type := ToClient (b : bytes) | ToBackend (b : bytes).
Inductive startup_failure : Type :=
| ClientRefused (e : auth_failure)
| BackendRefused (e : BackendAuth.backend_failure)
| ClosedDuringStartup.

Definition to_client (l : list action) : bytes :=
  concat (omap (λ a, match a with ToClient b => Some b | ToBackend _ => None end) l).
Definition to_backend (l : list action) : bytes :=
  concat (omap (λ a, match a with ToBackend b => Some b | ToClient _ => None end) l).

Section handshakes.
Context `{Build} `{Auth.Md5} `{ScramCrypto}.
Context (hash_order : list (bytes * bytes) → list (bytes * bytes)).
(** The handler's configuration, the client's side (its buffered start-up, what it
    sends), and the random salt and nonce. *)
Context (c : Conf.Config) (file_auth : option FileAuthenticator)
  (startup_data stream salt nonce : bytes) (password_read : option bytes) (verified_cert : bool).

Definition authenticate_client : outcome (list bytes * (AuthHandshakeResult + auth_failure)) :=
  ClientAuth.authenticate hash_order c file_auth startup_data stream salt password_read verified_cert.
Definition authenticate_backend (reads : list bytes) :=
  BackendAuth.authenticate (Conf.be_user (Conf.backend c)) (Conf.be_password (Conf.backend c)) nonce
    [] reads.

(** The forwarding loop: [pending] first, then read by read, each scanned alone. *)
Fixpoint forward_loop (pending : bytes) (reads : list bytes)
    : outcome (list action * (list bytes + startup_failure)) :=
  let out := if decide (pending = []) then [] else [ToClient pending] in
  ready ← (if decide (pending = []) then Ret false else Ext.contains_ready_for_query pending);
  if (ready : bool) then Ret (out, inl reads)
  else
    match reads with
    | [] | [] :: _ => Ret (out, inr ClosedDuringStartup)
    | data :: reads =>
        ready ← Ext.contains_ready_for_query data;
        if (ready : bool) then Ret (out ++ [ToClient data], inl reads)
        else r ← forward_loop [] reads; Ret (out ++ ToClient data :: r.1, r.2)
    end.

Definition perform_startup_handshake (reads : list bytes)
    : outcome (list action * (list bytes + startup_failure)) :=
  a ← authenticate_client;
  let '(said, r) := a in
  match r with
  | inr e => Ret (ToClient <$> said, inr (ClientRefused e))
  | inl auth_result =>
      b ← authenticate_backend reads;
      let '(sent, r) := b in
      let actions := (ToClient <$> said) ++ [ToBackend (startup_bytes auth_result)]
                     ++ (ToBackend <$> sent) in
      match r with
      | inr e => Ret (actions, inr (BackendRefused e))
      | inl (remaining_data, reads) =>
          f ← forward_loop remaining_data reads;
          Ret (actions ++ ToClient Auth.build_auth_ok :: f.1, f.2)
      end
  end.

(** The capturing loop: the bytes captured and the reads not made. *)
Fixpoint capture_loop (captured pending : bytes) (reads : list bytes)
    : outcome (bytes * list bytes + startup_failure) :=
  let captured := captured ++ pending in
  ready ← (if decide (pending = []) then Ret false else Ext.contains_ready_for_query pending);
  if (ready : bool) then Ret (inl (captured, reads))
  else
    match reads with
    | [] | [] :: _ => Ret (inr ClosedDuringStartup)
    | data :: reads =>
        let captured := captured ++ data in
        ready ← Ext.contains_ready_for_query data;
        if (ready : bool) then Ret (inl (captured, reads)) else capture_loop captured [] reads
    end.

Definition initialize_backend_startup (backend_startup_bytes : bytes) (reads : list bytes)
    : outcome (list action * (bytes * list bytes + startup_failure)) :=
  b ← authenticate_backend reads;
  let '(sent, r) := b in
  let actions := ToBackend backend_startup_bytes :: (ToBackend <$> sent) in
  match r with
  | inr e => Ret (actions, inr (BackendRefused e))
  | inl (remaining_data, reads) =>
      cap ← capture_loop [] remaining_data reads;
      Ret (actions, cap)
  end.

(** The result is the captured response, the start-up bytes for the backend, and
    the reads not made.  The writes succeed here; [Lifetime.begin_session] cuts the
    handshake at one that fails. *)
Definition perform_startup_handshake_capturing (reads : list bytes)
    : outcome (list action * (bytes * bytes * list bytes + startup_failure)) :=
  a ← authenticate_client;
  let '(said, r) := a in
  match r with
  | inr e => Ret (ToClient <$> said, inr (ClientRefused e))
  | inl auth_result =>
      let actions := (ToClient <$> said) ++ [ToClient Auth.build_auth_ok] in
      i ← initialize_backend_startup (startup_bytes auth_result) reads;
      match i.2 with
      | inr e => Ret (actions ++ i.1, inr e)
      | inl (captured, reads) =>
          Ret (actions ++ i.1 ++ [ToClient captured],
               inl (captured, startup_bytes auth_result, reads))
      end
  end.

Definition replay_startup_to_client (captured : bytes)
    : outcome (list action * (bytes + startup_failure)) :=
  a ← authenticate_client;
  let '(said, r) := a in
  match r with
  | inr e => Ret (ToClient <$> said, inr (ClientRefused e))
  | inl auth_result =>
      Ret ((ToClient <$> said) ++ [ToClient Auth.build_auth_ok; ToClient captured],
           inl (startup_bytes auth_result))
  end.

(** ** The three agree *)
Lemma said_client_app l k : to_client (l ++ k) = to_client l ++ to_client k.
Proof. unfold to_client. by rewrite omap_app, concat_app. Qed.
Lemma said_backend_app l k : to_backend (l ++ k) = to_backend l ++ to_backend k.
Proof. unfold to_backend. by rewrite omap_app, concat_app. Qed.
Lemma to_client_said l : to_client (ToClient <$> l) = concat l ∧ to_backend (ToClient <$> l) = [].
Proof. induction l as [|x l [IH1 IH2]]; [done|]. split; [|exact IH2]. cbn. by f_equal. Qed.
Lemma to_backend_sent l : to_client (ToBackend <$> l) = [] ∧ to_backend (ToBackend <$> l) = concat l.
Proof. induction l as [|x l [IH1 IH2]]; [done|]. split; [exact IH1|]. cbn. by f_equal. Qed.

Lemma to_client_cons a l :
  to_client (a :: l) = match a with ToClient b => b | ToBackend _ => [] end ++ to_client l.
Proof. by destruct a. Qed.
Lemma to_backend_cons a l :
  to_backend (a :: l) = match a with ToBackend b => b | ToClient _ => [] end ++ to_backend l.
Proof. by destruct a. Qed.

Lemma to_none : to_client [] = [] ∧ to_backend [] = [].
Proof. done. Qed.
Ltac said := rewrite ?said_client_app, ?said_backend_app, ?to_client_cons, ?to_backend_cons,
  ?(proj1 to_none), ?(proj2 to_none).
Ltac tidy := cbn iota; rewrite ?app_nil_l, ?app_nil_r, <-?app_assoc, ?app_nil_l, ?app_nil_r.

Lemma forward_out pending : to_client (if decide (pending = []) then [] else [ToClient pending]) = pending
  ∧ to_backend (if decide (pending = []) then [] else [ToClient pending]) = [].
Proof. case_decide as Hp; [by subst|]. cbn. by rewrite app_nil_r. Qed.

(** Forwarding and capturing end alike, on the same bytes, which are a prefix of
    what the backend had still to send. *)
Lemma forward_capture pending reads captured :
  match forward_loop pending reads, capture_loop captured pending reads with
  | Ret (out, inl rest), Ret (inl (cap, rest')) =>
      rest = rest' ∧ cap = captured ++ to_client out ∧ to_backend out = [] ∧
      to_client out ++ concat rest = pending ++ concat reads
  | Ret (out, inr e), Ret (inr e') => e = ClosedDuringStartup ∧ e' = e ∧ to_backend out = []
  | Panic, Panic => True
  | Diverge, Diverge => True
  | _, _ => False
  end.
Proof.
  revert pending captured. induction reads as [|d reads IH]; intros pending captured;
    destruct (forward_out pending) as [Hc Hb]; cbn [forward_loop capture_loop];
    (destruct (if decide (pending = []) then Ret false else Ext.contains_ready_for_query pending)
      as [[]| |]; cbn [mbind outcome_bind]; [by rewrite Hc| |done|done]).
  - by rewrite Hb.
  - destruct d as [|b d]; [by rewrite Hb|].
    destruct (Ext.contains_ready_for_query (b :: d)) as [[]| |]; cbn [mbind outcome_bind]; [| |done|done].
    { rewrite said_client_app, said_backend_app, Hc, Hb. unfold to_client, to_backend; cbn [omap list_omap concat].
      by rewrite app_nil_r, !app_assoc. }
    specialize (IH [] ((captured ++ pending) ++ b :: d)).
    destruct (forward_loop [] reads) as [[out [rest|e]]| |],
      (capture_loop ((captured ++ pending) ++ b :: d) [] reads) as [[[cap rest']|e']| |];
      cbn [mbind outcome_bind fst snd] in IH |- *; try done.
    + destruct IH as (-> & -> & Ho & Hrest).
      rewrite (cons_middle (ToClient (b :: d))), app_assoc, !said_client_app, !said_backend_app, Hc, Hb, Ho.
      replace (to_client [ToClient (b :: d)]) with (b :: d) by (cbn; by rewrite app_nil_r).
      rewrite <-!app_assoc, Hrest. cbn [concat]. by rewrite !app_nil_l.
    + destruct IH as (-> & -> & Ho). rewrite (cons_middle (ToClient (b :: d))), app_assoc, !said_backend_app, Hb, Ho.
      done.
Qed.

(** C17. The three start-ups are one to the client: on the same client and the
    same backend, forwarding and capturing succeed together, say the same bytes to
    the client and to the backend and leave the same reads, and replaying what was
    captured to that client says the same bytes again, with none to the backend,
    and returns the same start-up message for later backends.  They also fail
    together, and a client that was refused has caused nothing on the backend. *)
Theorem startups_agree reads :
  match perform_startup_handshake reads, perform_startup_handshake_capturing reads with
  | Ret (acts, inl rest), Ret (acts', inl (captured, startup, rest')) =>
      rest = rest' ∧ to_client acts = to_client acts' ∧ to_backend acts = to_backend acts' ∧
      ∃ replay, replay_startup_to_client captured = Ret (replay, inl startup) ∧
        to_client replay = to_client acts ∧ to_backend replay = []
  | Ret (acts, inr e), Ret (acts', inr e') =>
      e = e' ∧ to_backend acts = to_backend acts' ∧
      (∀ a, e = ClientRefused a → acts = acts' ∧ to_backend acts = [])
  | Panic, Panic => True
  | Diverge, Diverge => True
  | _, _ => False
  end.
Proof.
  unfold perform_startup_handshake, perform_startup_handshake_capturing, initialize_backend_startup,
    replay_startup_to_client.
  destruct authenticate_client as [[said [ar|e]]| |]; cbn [mbind outcome_bind]; [| |done|done].
  2: { split_and!; [done|done|]. intros a _. split; [done|]. apply to_client_said. }
  destruct (to_client_said said) as [Hsc Hsb].
  destruct (authenticate_backend reads) as [[sent [[remaining rs]|e]]| |];
    cbn [mbind outcome_bind fst snd]; [| |done|done];
    destruct (to_backend_sent sent) as [Hbc Hbb].
  2: { split_and!; [done| |done]. said. rewrite Hsb. by tidy. }
  pose proof (forward_capture remaining rs []) as Hfc.
  destruct (forward_loop remaining rs) as [[out [rest|e]]| |],
    (capture_loop [] remaining rs) as [[[cap rest']|e']| |]; cbn [mbind outcome_bind fst snd];
    try done.
  - destruct Hfc as (-> & -> & Hob & _). split_and!; [done|..].
    + said. rewrite Hsc, Hbc. by tidy.
    + said. rewrite Hsb, Hbb, Hob. by tidy.
    + eexists. split; [reflexivity|]. said. rewrite Hsc, Hsb, Hbc. by tidy.
  - destruct Hfc as (-> & -> & Hob). split_and!; [done| |done].
    said. rewrite Hsb, Hbb, Hob. by tidy.
Qed.
End handshakes.
End Handshakes.

(** ** Concrete runs *)
Module HandshakeRuns.
Import FileAuth ClientAuth Scram Handshakes StartUp.
#[local] Existing Instance release_build.

(** Stand-ins for the primitives: an encoding of each byte as two letters, and
    digests that keep the first bytes of what they are given. *)
Definition letter (n : Z) : byte := Z_byte (97 + n).
Definition letters (b : bytes) : bytes :=
  concat ((λ x, [letter (byte_Z x / 16); letter (byte_Z x mod 16)]) <$> b).
Fixpoint unletters (b : bytes) : option bytes :=
  match b with
  | [] => Some []
  | h :: l :: b => r ← unletters b; Some (Z_byte ((byte_Z h - 97) * 16 + (byte_Z l - 97)) :: r)
  | _ => None
  end.
Definition digest (b : bytes) : bytes := take 32 (b ++ replicate 32 x00).

Definition plain_md5 : Auth.Md5 := {| Auth.md5_hex := letters |}.
Definition plain_crypto : ScramCrypto := {|
  b64_encode := letters; b64_decode := unletters;
  pbkdf2_sha256 pw salt n := digest (pw ++ salt ++ [Z_byte n]);
  hmac_sha256 k d := digest (k ++ d); sha256 := digest |}.
#[local] Existing Instances plain_md5 plain_crypto.

Lemma letter_facts x :
  Z_byte ((byte_Z (letter (byte_Z x / 16)) - 97) * 16 + (byte_Z (letter (byte_Z x mod 16)) - 97)) = x
  ∧ Forall (λ c, Direct.plain c = true ∧ c ≠ x2c) [letter (byte_Z x / 16); letter (byte_Z x mod 16)].
Proof. split; [by destruct x|]. repeat constructor; try (by destruct x); by destruct x. Qed.

#[local] Instance plain_laws : ScramLaws.
Proof.
  split.
  - intros b. cbn [b64_decode b64_encode plain_crypto]. induction b as [|x b IH]; [done|].
    change (letters (x :: b)) with ([letter (byte_Z x / 16); letter (byte_Z x mod 16)] ++ letters b).
    cbn [app unletters]. rewrite IH. cbn [mbind option_bind]. by rewrite (proj1 (letter_facts x)).
  - intros b. cbn [b64_encode plain_crypto]. induction b as [|x b IH]; [constructor|].
    apply Forall_app. split; [apply (proj2 (letter_facts x))|exact IH].
  - intros k d. cbn [hmac_sha256 plain_crypto]. unfold digest.
    rewrite length_take, length_app, length_replicate. lia.
Qed.

Lemma scram_mutual_witness :
  let c1 := (client_first (new (lit "app") (lit "pw") (lit "cn"))).1 in
  let sf := server_first_message (lit "cnsn") (lit "salt") (lit "4096") in
  ∃ c2 proof,
    client_final c1 sf = (c2, inl (without_proof (lit "cnsn") ++ lit ",p=" ++ letters proof)).
Proof.
  destruct (scram_mutual (lit "app") (lit "pw") (lit "cn") (lit "sn") (lit "salt") (lit "4096") 4096)
    as (c2 & proof & Hf & _);
    [repeat constructor; done|repeat constructor; done|repeat constructor; done|reflexivity|].
  exists c2, proof. exact Hf.
Defined.

Definition md5_config : Conf.Config :=
  let d := demo_config (demo_publisher true None (lit "debug") None 10) in
  Conf.config (Conf.proxy d) (Conf.backend d) [] (Conf.observability d) (Conf.protocol d)
    (Conf.publisher d) (Conf.performance d) (Conf.resilience d) (Conf.tls d)
    {| Conf.auth_type := Conf.Md5; Conf.auth_file := Some (lit "u"); Conf.auth_query := None;
       Conf.allow_trust := false |} (Conf.admin d).
Definition demo_users : FileAuthenticator :=
  file_auth (<[lit "alice" := Plain (lit "secret")]> {[lit "bob" := Md5 (lit "md5abc")]}).
Definition demo_startup (user : bytes) : bytes := Auth.StartupMessage_build user (lit "shop") [].
Definition demo_answer (user : bytes) : option bytes :=
  Some (Auth.build_password_message
          (Auth.compute_md5_response (lit "secret") user (lit "salt"))).
Definition demo_client (user : bytes) :=
  ClientAuth.authenticate id md5_config (Some demo_users) (demo_startup user) [] (lit "salt")
    (demo_answer user) false.


(** A user whose entry is not a clear password is asked for one and then dropped
    without a word, whatever it answers, and the backend is started with the
    proxy's database where the client asked for another. *)
Example hashed_entry_never_authenticates :
  demo_client (lit "bob")
  = Ret ([Auth.build_auth_md5_password (lit "salt")], inr NoPlainPassword).
Proof. vm_compute. reflexivity. Qed.
Example routed_database_is_not_asked_for :
  ∃ sent r, demo_client (lit "alice") = Ret (sent, inl r) ∧ database r = Some (lit "shop") ∧
    startup_bytes r = Auth.StartupMessage_build (lit "app") (lit "app") [].
Proof. eexists _, _. vm_compute. done. Qed.

(** Requests of a backend, as it sends them. *)
Definition request (code : Z) (body : bytes) : bytes :=
  MSG_AUTHENTICATION :: be32 (8 + zlen body) ++ be32 code ++ body.
Definition demo_backend :=
  BackendAuth.authenticate (lit "app") (lit "pw") (lit "cn").

Lemma backend_auth_chunking_witness :
  let stream := request 5 (lit "salt") ++ request 0 [] ++ lit "rest" in
  BackendAuth.joined <$> demo_backend [] ((λ b, [b]) <$> stream)
  = BackendAuth.joined <$> demo_backend stream [].
Proof.
  destruct (BackendAuth.backend_auth_chunking (lit "app") (lit "pw") (lit "cn") []
              ((λ b, [b]) <$> (request 5 (lit "salt") ++ request 0 [] ++ lit "rest"))) as [_ Hj];
    [repeat constructor; done|vm_compute; reflexivity|exact Hj].
Defined.

(** A backend that asks for SCRAM and then says it is done is believed: nothing
    was proved by it and no proof was sent to it. *)
Example scram_success_without_proof :
  ∃ sent, demo_backend [] [request 10 (lit "SCRAM-SHA-256" ++ [x00; x00]) ++ request 0 []]
          = Ret (sent, inl ([], [])) ∧ length sent = 1%nat.
Proof. eexists. vm_compute. done. Qed.

(** A refusal of the backend is not recognised: the session waits for the
    connection to close. *)
Example backend_error_waits :
  demo_backend [] [Auth.build_error_response (lit "FATAL") (lit "28P01") (lit "no")]
  = Ret ([], inr BackendAuth.BackendClosed).
Proof. vm_compute. reflexivity. Qed.

(** A start-up that succeeds, and the same bytes with the last message cut in two
    reads, where the end is missed. *)
Definition ready_for_query : bytes := [x5a; x00; x00; x00; x05; x49].
Definition demo_startup_with (reads : list bytes) :=
  perform_startup_handshake_capturing id md5_config (Some demo_users) (demo_startup (lit "alice")) []
    (lit "salt") (lit "cn") (demo_answer (lit "alice")) false reads.
Example startup_succeeds :
  ∃ acts startup, demo_startup_with [request 0 []; ready_for_query]
                  = Ret (acts, inl (ready_for_query, startup, [])).
Proof. eexists _, _. vm_compute. reflexivity. Qed.
Example split_ready_is_missed :
  ∃ acts, demo_startup_with [request 0 []; take 3 ready_for_query; drop 3 ready_for_query]
          = Ret (acts, inr ClosedDuringStartup).
Proof. eexists. vm_compute. reflexivity. Qed.
End HandshakeRuns.
