(* ===== verification/Lifetime.v ===== *)
(** * The life of a pooled backend (proxy/connection.rs, proxy/pool_manager.rs)

    One physical backend serves many sessions.  [begin_session] is how a session
    takes it over at its start, [adopt] how a session does that got it in
    mid-session, and between sessions the pool recycles it.  A life is a sequence
    of these. *)

From S2P Require Import Prelude RustStr Events CommandDetector ConnState Wire Extractor AuthMessages UserList CircuitBreaker Acquire HotData StmtCache Bind Anonymize Modes Handler Metrics WaitQueue PoolManager Direct Config Backend Handshake.

Module Lifetime.
Import TlsConf TcpPool FileAuth ClientAuth Handshakes.

(** A client, as its handler meets it: the settings, the accounts, its buffered
    start-up and what it sends, the salt and nonce drawn, its answer to the
    password request, whether it has shown a certificate, and, when it goes away,
    the number of the write to it that fails. *)
Record client : Type := {
  cl_config : Conf.Config;
  cl_accounts : option FileAuthenticator;
  cl_startup_data : bytes;
  cl_stream : bytes;
  cl_salt : bytes;
  cl_nonce : bytes;
  cl_password : option bytes;
  cl_cert : bool;
  cl_gone : option nat
}.

(** Why a session did not begin: its start-up failed, or a write to the client. *)
Inductive session_failure : Type := Failed (e : startup_failure) | ClientGone.

(** What has been said when the [k]-th write to the client fails: the [?] returns
    there. *)
Fixpoint cut (k : nat) (said : list action) : option (list action) :=
  match said with
  | [] => None
  | ToClient d :: said =>
      match k with O => Some [] | S k => cons (ToClient d) <$> cut k said end
  | a :: said => cons a <$> cut k said
  end.
Definition interrupted (cl : client) (said : list action) : option (list action) :=
  cl_gone cl ≫= λ k, cut k said.

Section lifetime.
Context `{Build} `{Auth.Md5} `{ScramCrypto} `{Pki}.
Context (hash_order : list (bytes * bytes) → list (bytes * bytes)).

Definition set_startup_response (captured : bytes) (conn : PooledBackend) : PooledBackend :=
  {| transport := transport conn; startup_response := Some captured |}.

(** The start of [handle_with_managed_connection]: what is said on either side, the
    start-up message kept for later backends, and the connection.  The response is
    stored only once the whole handshake has succeeded, the writes to the client
    included. *)
Definition begin_session (cl : client) (reads : list bytes) (conn : PooledBackend)
    : outcome (list action * (bytes + session_failure) * PooledBackend) :=
  match startup_response conn with
  | Some captured =>
      r ← replay_startup_to_client hash_order (cl_config cl) (cl_accounts cl) (cl_startup_data cl) (cl_stream cl)
            (cl_salt cl) (cl_password cl) (cl_cert cl) captured;
      let '(said, r) := (r : list action * (bytes + startup_failure)) in
      Ret (match interrupted cl said, r with
           | Some said, _ => (said, inr ClientGone, conn)
           | None, inl startup => (said, inl startup, conn)
           | None, inr e => (said, inr (Failed e), conn)
           end)
  | None =>
      r ← perform_startup_handshake_capturing hash_order (cl_config cl) (cl_accounts cl) (cl_startup_data cl)
            (cl_stream cl) (cl_salt cl) (cl_nonce cl) (cl_password cl) (cl_cert cl) reads;
      let '(said, r) := (r : list action * (bytes * bytes * list bytes + startup_failure)) in
      Ret (match interrupted cl said, r with
           | Some said, _ => (said, inr ClientGone, conn)
           | None, inl (captured, startup, _) => (said, inl startup, set_startup_response captured conn)
           | None, inr e => (said, inr (Failed e), conn)
           end)
  end.

(** A connection acquired in mid-session. *)
Definition adopt (c : Conf.Config) (nonce backend_startup_bytes : bytes) (reads : list bytes) (conn : PooledBackend)
    : outcome (list action * (unit + startup_failure) * PooledBackend) :=
  match startup_response conn with
  | Some _ => Ret ([], inl tt, conn)
  | None =>
      r ← initialize_backend_startup c nonce backend_startup_bytes reads;
      let '(said, r) := (r : list action * (bytes * list bytes + startup_failure)) in
      Ret (match r with
           | inl (captured, _) => (said, inl tt, set_startup_response captured conn)
           | inr e => (said, inr e, conn)
           end)
  end.

(** *** Lives *)
Inductive use : Type :=
| Begin (cl : client) (reads : list bytes)
| Adopt (c : Conf.Config) (nonce backend_startup_bytes : bytes) (reads : list bytes)
| Recycle.

(** What came of a use: the session's start-up message when it succeeded. *)
Record used : Type := { u_use : use; u_said : list action; u_startup : option bytes }.

Definition apply_use (m : BackendTransportManager) (u : use) (conn : PooledBackend) : outcome (used * PooledBackend) :=
  match u with
  | Begin cl reads =>
      r ← begin_session cl reads conn;
      let '(said, r, conn) := (r : list action * (bytes + session_failure) * PooledBackend) in
      Ret ({| u_use := u; u_said := said; u_startup := match r with inl b => Some b | inr _ => None end |}, conn)
  | Adopt c nonce startup reads =>
      r ← adopt c nonce startup reads conn;
      let '(said, r, conn) := (r : list action * (unit + startup_failure) * PooledBackend) in
      Ret ({| u_use := u; u_said := said; u_startup := match r with inl _ => Some startup | inr _ => None end |}, conn)
  | Recycle =>
      r ← recycle m conn;
      let '(sent, r, conn) := (r : list bytes * (unit + recycle_error) * PooledBackend) in
      Ret ({| u_use := u; u_said := ToBackend <$> sent; u_startup := match r with inl _ => Some [] | inr _ => None end |}, conn)
  end.

Fixpoint live (m : BackendTransportManager) (conn : PooledBackend) (us : list use) : outcome (list used * PooledBackend) :=
  match us with
  | [] => Ret ([], conn)
  | u :: us =>
      r ← apply_use m u conn;
      rs ← live m (r : used * PooledBackend).2 us;
      Ret (r.1 :: (rs : list used * PooledBackend).1, rs.2)
  end.

Definition is_session (u : use) : bool := match u with Recycle => false | _ => true end.
(** Whether a session said anything to the backend when it took it over. *)
Definition spoke (u : used) : bool :=
  is_session (u_use u) && existsb (λ a, match a with ToBackend _ => true | ToClient _ => false end) (u_said u).

(** The client of a use was told of its success and the backend's own start-up. *)
Definition told (captured : bytes) (u : used) : Prop :=
  match u_use u with
  | Begin _ _ => is_Some (u_startup u) → ∃ said, to_client (u_said u) = said ++ Auth.build_auth_ok ++ captured
  | _ => True
  end.

(** What it said: the session's start-up message, first. *)
Definition starts (u : used) : Prop :=
  ∃ startup more, u_startup u = Some startup ∧ to_backend (u_said u) = startup ++ more.

Lemma quiet_said l : existsb (λ a, match a with ToBackend _ => true | ToClient _ => false end) (ToClient <$> l) = false.
Proof. by induction l. Qed.

(** What was said before the cut is part of what would have been said. *)
Lemma cut_quiet k said said' :
  cut k said = Some said' →
  existsb (λ a, match a with ToBackend _ => true | ToClient _ => false end) said = false →
  existsb (λ a, match a with ToBackend _ => true | ToClient _ => false end) said' = false.
Proof.
  revert k said'. induction said as [|[d|d] said IH]; intros k said'; cbn [cut existsb orb]; [done| |done].
  destruct k as [|k]; [by intros [= <-]|]. intros (s1 & Hc & ->)%fmap_Some Hq. cbn. by eapply IH.
Qed.

Lemma recycle_keeps_response m conn sent r conn' :
  recycle m conn = Ret (sent, r, conn') → startup_response conn' = startup_response conn.
Proof.
  unfold recycle. cbv zeta. intros ([[w1 [[]|]] s1] & _ & Hr)%outcome_bind_Ret; try by injection Hr as _ _ <-.
  apply outcome_bind_Ret in Hr as ([[w2 rs] s2] & _ & Hr). by injection Hr as _ _ <-.
Qed.

Lemma replay_says cl captured said r :
  replay_startup_to_client hash_order (cl_config cl) (cl_accounts cl) (cl_startup_data cl) (cl_stream cl)
    (cl_salt cl) (cl_password cl) (cl_cert cl) captured = Ret (said, r) →
  existsb (λ a, match a with ToBackend _ => true | ToClient _ => false end) said = false ∧
  (∀ b, r = inl b → ∃ s, to_client said = s ++ Auth.build_auth_ok ++ captured).
Proof.
  unfold replay_startup_to_client. intros ([s [ar|e]] & _ & Hr)%outcome_bind_Ret; injection Hr as <- <-.
  - rewrite existsb_app, quiet_said. split; [done|]. intros _ _. rewrite said_client_app.
    destruct (to_client_said s) as [-> _]. exists (concat s). by rewrite !to_client_cons, (proj1 to_none), app_nil_r.
  - split; [apply quiet_said|done].
Qed.

Lemma initialize_says c nonce startup reads said r :
  initialize_backend_startup c nonce startup reads = Ret (said, r) →
  existsb (λ a, match a with ToBackend _ => true | ToClient _ => false end) said = true ∧
  to_client said = [] ∧ ∃ more, to_backend said = startup ++ more.
Proof.
  unfold initialize_backend_startup. intros ([sent [[rem rs]|e]] & _ & Hr)%outcome_bind_Ret.
  1: apply outcome_bind_Ret in Hr as (cap & _ & Hr).
  all: injection Hr as <- _; destruct (to_backend_sent sent) as [Hc Hb];
    rewrite to_client_cons, to_backend_cons, Hc, Hb; eauto.
Qed.

Lemma capturing_says cl reads said r :
  perform_startup_handshake_capturing hash_order (cl_config cl) (cl_accounts cl) (cl_startup_data cl)
    (cl_stream cl) (cl_salt cl) (cl_nonce cl) (cl_password cl) (cl_cert cl) reads = Ret (said, r) →
  ∀ captured startup rest, r = inl (captured, startup, rest) →
  existsb (λ a, match a with ToBackend _ => true | ToClient _ => false end) said = true ∧
  (∃ more, to_backend said = startup ++ more) ∧ ∃ s, to_client said = s ++ Auth.build_auth_ok ++ captured.
Proof.
  unfold perform_startup_handshake_capturing. intros Hr captured startup rest ->.
  apply outcome_bind_Ret in Hr as ([s [ar|e]] & _ & Hr); [|discriminate Hr].
  apply outcome_bind_Ret in Hr as ([acts [[cap rs]|e]] & Hi & Hr); cbn [fst snd] in Hr; [|discriminate Hr].
  injection Hr as <- <- <- <-. destruct (initialize_says _ _ _ _ _ _ Hi) as (He & Hc & more & Hb).
  destruct (to_client_said s) as [Hsc Hsb].
  rewrite !existsb_app, He, quiet_said, !said_backend_app, !said_client_app, Hc, Hb, Hsc, Hsb, !to_client_cons,
    !to_backend_cons, (proj1 to_none), (proj2 to_none), !app_nil_r. split; [done|]. split.
  - exists more. done.
  - exists (concat s). by rewrite app_nil_l, <-app_assoc.
Qed.

Lemma warm_use m u conn captured ud conn' :
  startup_response conn = Some captured → apply_use m u conn = Ret (ud, conn') →
  startup_response conn' = Some captured ∧ spoke ud = false ∧ told captured ud.
Proof.
  intros Hw. destruct u as [cl reads|c nonce startup reads|]; cbn [apply_use].
  - unfold begin_session. rewrite Hw. intros ([[said r] conn1] & Hb & Hr)%outcome_bind_Ret.
    apply outcome_bind_Ret in Hb as ([said' r'] & Hrep & Hb).
    destruct (replay_says _ _ _ _ Hrep) as [Hq Ht].
    destruct (interrupted cl said') as [said1|] eqn:Hi.
    + injection Hb as <- <- <-. injection Hr as <- <-. split; [done|].
      apply bind_Some in Hi as (k & _ & Hi). split; [exact (cut_quiet _ _ _ Hi Hq)|by intros [? [=]]].
    + destruct r' as [b|]; injection Hb as <- <- <-; injection Hr as <- <-;
        (split; [done|]; split; [exact Hq|]); unfold told; cbn; [|by intros [? [=]]].
      intros _. by apply (Ht b).
  - unfold adopt. rewrite Hw. by intros [= <- <-].
  - intros ([[sent r] conn1] & Hrec & Hr)%outcome_bind_Ret. injection Hr as <- <-.
    apply recycle_keeps_response in Hrec. by rewrite Hrec.
Qed.

Lemma cold_use m u conn ud conn' :
  startup_response conn = None → apply_use m u conn = Ret (ud, conn') →
  (u_startup ud = None → spoke ud = false) →
  (startup_response conn' = None ∧ spoke ud = false ∧ ∀ captured, told captured ud) ∨
  ∃ captured, startup_response conn' = Some captured ∧ spoke ud = true ∧ starts ud ∧ told captured ud.
Proof.
  intros Hw. destruct u as [cl reads|c nonce startup reads|]; cbn [apply_use].
  - unfold begin_session. rewrite Hw. intros ([[said r] conn1] & Hb & Hr)%outcome_bind_Ret.
    apply outcome_bind_Ret in Hb as ([said' r'] & Hcap & Hb). pose proof (capturing_says _ _ _ _ Hcap) as Hs.
    destruct (interrupted cl said') as [said1|].
    { injection Hb as <- <- <-. injection Hr as <- <-. intros Hf. left. split; [done|].
      split; [by apply Hf|]. intros cap [? [=]]. }
    destruct r' as [[[cap st] rest]|e]; injection Hb as <- <- <-; injection Hr as <- <-; intros Hf.
    + right. exists cap. destruct (Hs _ _ _ eq_refl) as (He & (more & Hm) & Ht). split; [done|].
      split; [exact He|]. split; [by exists st, more|]. by intros _.
    + left. split; [done|]. split; [by apply Hf|]. intros cap [? [=]].
  - unfold adopt. rewrite Hw. intros ([[said r] conn1] & Hb & Hr)%outcome_bind_Ret.
    apply outcome_bind_Ret in Hb as ([said' r'] & Hcap & Hb). pose proof (initialize_says _ _ _ _ _ _ Hcap) as (He & Hc & more & Hm).
    destruct r' as [[cap rest]|e]; injection Hb as <- <- <-; injection Hr as <- <-; intros Hf.
    + right. exists cap. split; [done|]. split; [exact He|]. split; [by exists startup, more|]. done.
    + specialize (Hf eq_refl). cbn in Hf. unfold spoke in Hf. cbn in Hf. congruence.
  - intros ([[sent r] conn1] & Hrec & Hr)%outcome_bind_Ret. injection Hr as <- <-. intros _. left.
    apply recycle_keeps_response in Hrec. by rewrite Hrec.
Qed.

Lemma warm_life m us : ∀ conn captured uds conn',
  startup_response conn = Some captured → live m conn us = Ret (uds, conn') →
  startup_response conn' = Some captured ∧ filter (λ u, spoke u = true) uds = [] ∧ Forall (told captured) uds.
Proof.
  induction us as [|u us IH]; intros conn captured uds conn' Hw; [by intros [= <- <-]|]. cbn [live].
  intros ([ud conn1] & Hu & Hr)%outcome_bind_Ret. apply outcome_bind_Ret in Hr as ([uds1 conn2] & Hl & Hr).
  injection Hr as <- <-. cbn [fst snd] in *. destruct (warm_use _ _ _ _ _ _ Hw Hu) as (Hw1 & Hq & Ht).
  destruct (IH _ _ _ _ Hw1 Hl) as (Hw2 & Hall & Hts). split; [done|]. split; [|by constructor].
  rewrite filter_cons_False by congruence. done.
Qed.

(** C18. A backend is started up once in its life, as long as no session fails
    after it has begun to talk to it (because its start-up fails, or because the
    client goes away before the captured response has been written to it): however
    many sessions take the backend over, at their start or in mid-session, with
    clients that are refused or go away, and however often it is recycled in
    between, at most one of them says anything to it in doing so, its start-up
    message first; every client that is let in is told of its success and of the
    very start-up that session had captured. *)
Theorem startup_once m us conn uds conn' :
  startup_response conn = None → live m conn us = Ret (uds, conn') →
  Forall (λ u, u_startup u = None → spoke u = false) uds →
  (startup_response conn' = None ∧ filter (λ u, spoke u = true) uds = []) ∨
  ∃ first captured, startup_response conn' = Some captured ∧ filter (λ u, spoke u = true) uds = [first] ∧
    starts first ∧ Forall (told captured) uds.
Proof.
  revert conn uds. induction us as [|u us IH]; intros conn uds Hw; [intros [= <- <-]; by left|]. cbn [live].
  intros ([ud conn1] & Hu & Hr)%outcome_bind_Ret. apply outcome_bind_Ret in Hr as ([uds1 conn2] & Hl & Hr).
  injection Hr as <- <-. intros [Hok Hoks]%Forall_cons. cbn [fst snd] in *.
  destruct (cold_use _ _ _ _ _ Hw Hu Hok) as [(Hw1 & Hq & Ht)|(cap & Hw1 & Hsp & Hst & Ht)].
  - rewrite filter_cons_False by congruence.
    destruct (IH _ _ Hw1 Hl Hoks) as [[Hn He]|(first & cap & Hc & Hf & Hs & Hall)]; [by left|right].
    exists first, cap. split_and!; try done. by constructor.
  - right. destruct (warm_life _ _ _ _ _ _ Hw1 Hl) as (Hc & Hf & Hall). exists ud, cap.
    rewrite filter_cons_True, Hf by done. split_and!; try done. by constructor.
Qed.
(** The condition, as a check. *)
Lemma quiet_failures uds :
  forallb (λ u, match u_startup u with None => negb (spoke u) | Some _ => true end) uds = true →
  Forall (λ u, u_startup u = None → spoke u = false) uds.
Proof.
  rewrite forallb_forall. intros Hf. apply Forall_forall. intros u Hu Hn. apply list_elem_of_In in Hu.
  specialize (Hf u Hu). rewrite Hn in Hf. by apply negb_true_iff.
Qed.
End lifetime.

(** *** A concrete life: a session, a recycling, and the same client again. *)
#[local] Existing Instances release_build HandshakeRuns.plain_md5 HandshakeRuns.plain_crypto BackendRuns.demo_pki.

Definition alice : client := {|
  cl_config := HandshakeRuns.md5_config; cl_accounts := Some HandshakeRuns.demo_users;
  cl_startup_data := HandshakeRuns.demo_startup (lit "alice"); cl_stream := []; cl_salt := lit "salt";
  cl_nonce := lit "cn"; cl_password := HandshakeRuns.demo_answer (lit "alice"); cl_cert := false;
  cl_gone := None
|}.
Definition fresh : PooledBackend := {|
  transport := BackendTls.Plain (Net.mk_stream true
    [Net.Bytes (Pg.put_answer BackendRuns.idle); Net.Bytes (Pg.put_answer BackendRuns.idle)]);
  startup_response := None
|}.
Definition demo_life : list use :=
  [Begin alice [HandshakeRuns.request 0 []; HandshakeRuns.ready_for_query]; Recycle; Begin alice []].

Definition demo_lived : list used * PooledBackend :=
  Eval vm_compute in match live id BackendRuns.demo_manager fresh demo_life with Ret r => r | _ => ([], fresh) end.
Lemma demo_life_runs : live id BackendRuns.demo_manager fresh demo_life = Ret demo_lived.
Proof. vm_compute. reflexivity. Qed.

(** A client that goes away before the last write of its handshake leaves a backend
    that is started up and not known to be: after a recycling that finds nothing
    wrong the next session sends it a second start-up message. *)
Definition hasty : client := {|
  cl_config := cl_config alice; cl_accounts := cl_accounts alice; cl_startup_data := cl_startup_data alice;
  cl_stream := cl_stream alice; cl_salt := cl_salt alice; cl_nonce := cl_nonce alice;
  cl_password := cl_password alice; cl_cert := false; cl_gone := Some 2%nat
|}.
Example second_startup_message :
  match live id BackendRuns.demo_manager fresh
          [Begin hasty [HandshakeRuns.request 0 []; HandshakeRuns.ready_for_query]; Recycle;
           Begin alice [HandshakeRuns.request 0 []; HandshakeRuns.ready_for_query]] with
  | Ret ([u1; u2; u3], _) =>
      spoke u1 = true ∧ u_startup u1 = None ∧ is_Some (u_startup u2) ∧ spoke u3 = true ∧
      to_backend (u_said u3) = to_backend (u_said u1)
  | _ => False
  end.
Proof. vm_compute. repeat split; eauto. Qed.

Lemma startup_once_witness :
  ∃ uds conn first, live id BackendRuns.demo_manager fresh demo_life = Ret (uds, conn) ∧
    filter (λ u, spoke u = true) uds = [first] ∧ starts first ∧
    Forall (told HandshakeRuns.ready_for_query) uds.
Proof.
  destruct (startup_once id BackendRuns.demo_manager demo_life fresh demo_lived.1 demo_lived.2 eq_refl demo_life_runs)
    as [[Hc _]|(first & cap & Hc & Hf & Hs & Ht)].
  - apply quiet_failures. vm_compute. reflexivity.
  - discriminate Hc.
  - injection Hc as <-. exists demo_lived.1, demo_lived.2, first. split; [exact demo_life_runs|].
    split; [exact Hf|]. by split.
Defined.
End Lifetime.
