(* ===== verification/Server.v ===== *)
(** * The server: accepted connections, the client registry, reload and drain
      (proxy/server.rs, proxy/admin_handles.rs)

    The accept loop, the connection tasks and an operator's commands run on
    several threads: the server is a step relation whose steps are the sections of
    code between which they can interleave (a counter update, one lock of the
    registry).  A task ends at any moment, by itself, by a panic or because it is
    aborted; its guard then runs, one shared update at a time. *)

From S2P Require Import Prelude RustStr Events CommandDetector ConnState Wire Extractor AuthMessages UserList CircuitBreaker Acquire HotData StmtCache Bind Anonymize Modes Handler Metrics Direct Config Handshake.

(** ** The client registry (proxy/admin_handles.rs) *)
Module Registry.

Inductive ClientState : Type := Active | Admin.
#[export] Instance ClientState_eq_dec : EqDecision ClientState.
Proof. solve_decision. Defined.

Record ClientEntry : Type := entry {
  conn_id : Z;
  addr : bytes;
  user : bytes;
  database : bytes;
  state : ClientState;
  connect_time : Z;
  last_request_time : Z;
  tls : bool
}.
(** A handle aborts the task it was taken from. *)
Definition AbortHandle : Type := Z.
Record ClientRegistry : Type := client_registry {
  inner : gmap Z ClientEntry;
  abort_handles : gmap Z AbortHandle
}.

Definition new : ClientRegistry := client_registry ∅ ∅.
Definition register (e : ClientEntry) (r : ClientRegistry) : ClientRegistry :=
  client_registry (<[conn_id e := e]> (inner r)) (abort_handles r).
Definition register_abort_handle (id : Z) (h : AbortHandle) (r : ClientRegistry) : ClientRegistry :=
  client_registry (inner r) (<[id := h]> (abort_handles r)).

(** [deregister] takes the two locks one after the other. *)
Definition remove_entry (id : Z) (r : ClientRegistry) : ClientRegistry :=
  client_registry (delete id (inner r)) (abort_handles r).
Definition remove_handle (id : Z) (r : ClientRegistry) : ClientRegistry :=
  client_registry (inner r) (delete id (abort_handles r)).
Definition deregister (id : Z) (r : ClientRegistry) : ClientRegistry :=
  remove_handle id (remove_entry id r).

(** [kill_by_database], lock by lock: the connections found, their handles taken
    and used, their entries removed. *)
Definition kill_find (db : bytes) (r : ClientRegistry) : list Z :=
  (λ kv : Z * ClientEntry, conn_id kv.2) <$>
    filter (λ kv, Str.eq_ignore_ascii_case (database kv.2) db = true) (map_to_list (inner r)).
Definition kill_abort (matched : list Z) (r : ClientRegistry) : ClientRegistry * list Z :=
  (client_registry (inner r) (foldl (λ m id, delete id m) (abort_handles r) matched),
   omap (λ id, abort_handles r !! id) matched).
Definition kill_remove (matched : list Z) (r : ClientRegistry) : ClientRegistry :=
  client_registry (foldl (λ m id, delete id m) (inner r) matched) (abort_handles r).
(** The registry after, the tasks aborted, and the connections reported. *)
Definition kill_by_database (db : bytes) (r : ClientRegistry) : ClientRegistry * list Z * list Z :=
  let matched := kill_find db r in
  if decide (matched = []) then (r, [], [])
  else
    let '(r, aborted) := kill_abort matched r in
    (kill_remove matched r, aborted, matched).

Definition touch (id : Z) (st : ClientState) (now : Z) (r : ClientRegistry) : ClientRegistry :=
  match inner r !! id with
  | Some e =>
      client_registry
        (<[id := entry (conn_id e) (addr e) (user e) (database e) st (connect_time e) now (tls e)]>
           (inner r))
        (abort_handles r)
  | None => r
  end.
Definition len (r : ClientRegistry) : nat := size (inner r).
Definition is_empty (r : ClientRegistry) : bool := bool_decide (inner r = ∅).
(** In the order of the hash map, which nothing fixes. *)
Definition snapshot (r : ClientRegistry) : list ClientEntry := snd <$> map_to_list (inner r).
Definition get (r : ClientRegistry) (id : Z) : option ClientEntry := inner r !! id.

(** ** What a kill removes *)
Definition keyed (m : gmap Z ClientEntry) : Prop := ∀ id e, m !! id = Some e → conn_id e = id.

Lemma keyed_delete (m : gmap Z ClientEntry) (id : Z) : keyed m → keyed (delete id m).
Proof. intros Hk k e [_ Hin]%lookup_delete_Some. by apply Hk. Qed.

Lemma foldl_delete {A} (m : gmap Z A) l id :
  foldl (λ m id, delete id m) m l !! id = if decide (id ∈ l) then None else m !! id.
Proof.
  revert m. induction l as [|x l IH]; intros m; cbn [foldl]; [by rewrite decide_False by set_solver|].
  rewrite IH. destruct (decide (id ∈ l)).
  - by rewrite decide_True by set_solver.
  - destruct (decide (id = x)) as [->|].
    + rewrite decide_True by set_solver. by rewrite lookup_delete_eq.
    + rewrite decide_False by set_solver. by rewrite lookup_delete_ne.
Qed.

Lemma elem_of_kill_find db r id :
  keyed (inner r) →
  id ∈ kill_find db r ↔
  ∃ e, inner r !! id = Some e ∧ Str.eq_ignore_ascii_case (database e) db = true.
Proof.
  intros Hk. unfold kill_find. rewrite list_elem_of_fmap. split.
  - intros ([k e] & -> & [He Hin]%list_elem_of_filter). apply elem_of_map_to_list in Hin.
    exists e. cbn in *. by rewrite (Hk _ _ Hin).
  - intros (e & Hin & He). exists (id, e). split; [symmetry; by apply Hk|].
    apply list_elem_of_filter. split; [done|]. by apply elem_of_map_to_list.
Qed.

(** A kill leaves the entries of other databases and no entry of its own, and
    aborts the connections it reports, those whose handle is not there yet
    excepted. *)
Lemma kill_exact db r r' aborted killed :
  keyed (inner r) → kill_by_database db r = (r', aborted, killed) →
  (∀ id, inner r' !! id = match inner r !! id with
                          | Some e => if Str.eq_ignore_ascii_case (database e) db then None else Some e
                          | None => None
                          end) ∧
  (∀ id, id ∈ killed ↔ ∃ e, inner r !! id = Some e ∧ Str.eq_ignore_ascii_case (database e) db = true) ∧
  aborted = omap (λ id, abort_handles r !! id) killed ∧
  (∀ id, abort_handles r' !! id = if decide (id ∈ killed) then None else abort_handles r !! id).
Proof.
  intros Hk. unfold kill_by_database. pose proof (elem_of_kill_find db r) as Hf.
  assert (Hin : ∀ id, foldl (λ m id, delete id m) (inner r) (kill_find db r) !! id
    = match inner r !! id with
      | Some e => if Str.eq_ignore_ascii_case (database e) db then None else Some e
      | None => None
      end).
  { intros id. rewrite foldl_delete. specialize (Hf id Hk). case_decide as Hd.
    - apply Hf in Hd as (e & -> & ->). done.
    - destruct (inner r !! id) as [e|] eqn:He; [|done].
      destruct (Str.eq_ignore_ascii_case (database e) db) eqn:Hdb; [|done].
      exfalso. apply Hd, Hf. eauto. }
  case_decide as Hm; intros [= <- <- <-].
  - rewrite Hm in Hin, Hf. split_and!; [done|by intros; apply Hf| |]; [done|].
    intros id. by rewrite decide_False by set_solver.
  - split_and!; [done|by intros; apply Hf|done|]. intros id. apply foldl_delete.
Qed.
End Registry.

(** ** Accept loop, tasks, reload and drain (proxy/server.rs) *)
Module Server.
Import Registry FileAuth.

(** How far the guard of a connection has run: the counter, the gauge, the entry;
    after the abort handle the task is gone. *)
Inductive guard_phase : Type := Serving | CountDropped | GaugeDropped | EntryDropped.
#[export] Instance guard_phase_eq_dec : EqDecision guard_phase.
Proof. solve_decision. Defined.
(** The authenticator is the one that was there when the connection came. *)
Record task : Type := connection_task { phase : guard_phase; task_auth : option FileAuthenticator }.

Inductive run_phase : Type := Accepting | Draining | Drained.
Inductive transport : Type := Tcp | Unix.

Section server.
Context `{Build} `{Hdr}.
Abbreviation ProxyMetrics := (@Metrics.ProxyMetrics _).

(** [spawning] is the connection whose handler was spawned and whose abort handle
    is still to be stored; [join_set] are the tasks spawned and not joined, ended
    or not; [aborted] those told to stop; [kills] the kills under way. *)
Record server : Type := mk_server {
  max_connections : Z;
  auth_file : option bytes;
  connection_count : Z;
  active_connections : Z;
  metrics : ProxyMetrics;
  registry : ClientRegistry;
  tasks : gmap Z task;
  join_set : gset Z;
  spawning : option Z;
  aborted : gset Z;
  kills : list (bool * list Z);
  authenticator : option FileAuthenticator;
  serving : run_phase;
  drain_complete : bool
}.

Definition with_metrics (m : ProxyMetrics) (s : server) : server :=
  mk_server (max_connections s) (auth_file s) (connection_count s) (active_connections s) m (registry s)
    (tasks s) (join_set s) (spawning s) (aborted s) (kills s) (authenticator s) (serving s)
    (drain_complete s).
Definition with_active (n : Z) (s : server) : server :=
  mk_server (max_connections s) (auth_file s) (connection_count s) n (metrics s) (registry s)
    (tasks s) (join_set s) (spawning s) (aborted s) (kills s) (authenticator s) (serving s)
    (drain_complete s).
Definition with_registry (r : ClientRegistry) (s : server) : server :=
  mk_server (max_connections s) (auth_file s) (connection_count s) (active_connections s) (metrics s) r
    (tasks s) (join_set s) (spawning s) (aborted s) (kills s) (authenticator s) (serving s)
    (drain_complete s).
Definition with_tasks (t : gmap Z task) (s : server) : server :=
  mk_server (max_connections s) (auth_file s) (connection_count s) (active_connections s) (metrics s)
    (registry s) t (join_set s) (spawning s) (aborted s) (kills s) (authenticator s) (serving s)
    (drain_complete s).
Definition with_spawning (o : option Z) (s : server) : server :=
  mk_server (max_connections s) (auth_file s) (connection_count s) (active_connections s) (metrics s)
    (registry s) (tasks s) (join_set s) o (aborted s) (kills s) (authenticator s) (serving s)
    (drain_complete s).
Definition with_kills (a : gset Z) (k : list (bool * list Z)) (s : server) : server :=
  mk_server (max_connections s) (auth_file s) (connection_count s) (active_connections s) (metrics s)
    (registry s) (tasks s) (join_set s) (spawning s) a k (authenticator s) (serving s)
    (drain_complete s).
Definition with_authenticator (a : option FileAuthenticator) (s : server) : server :=
  mk_server (max_connections s) (auth_file s) (connection_count s) (active_connections s) (metrics s)
    (registry s) (tasks s) (join_set s) (spawning s) (aborted s) (kills s) a (serving s)
    (drain_complete s).
Definition with_drain (j : gset Z) (p : run_phase) (d : bool) (s : server) : server :=
  mk_server (max_connections s) (auth_file s) (connection_count s) (active_connections s) (metrics s)
    (registry s) (tasks s) j (spawning s) (aborted s) (kills s) (authenticator s) p d.

(** *** Starting *)

(** The authenticator [ProxyServer::new] loads; the other answer is the error. *)
Definition load_authenticator (auth_file : option bytes) (f : file_read)
    : option FileAuthenticator + AuthError :=
  match auth_file with
  | Some path => match from_file path f with inl a => inl (Some a) | inr e => inr e end
  | None => inl None
  end.
Definition new (max : Z) (auth_file : option bytes) (auth : option FileAuthenticator) (m : ProxyMetrics)
    : server :=
  mk_server max auth_file 0 0 m Registry.new ∅ ∅ None ∅ [] auth Accepting false.
(** What [run] does before it accepts. *)
Definition begin_run (queue_depth : Z) (s : server) : server :=
  let m := Metrics.set_max_connections (metrics s) (max_connections s) in
  with_metrics (Metrics.with_pool (Metrics.store Metrics.MaxQueueDepth queue_depth (Metrics.pool m)) m) s.

(** *** Accepting *)
Definition reject_connection_over_limit : bytes :=
  let fields := x53 :: lit "FATAL" ++ x00 :: x43 :: lit "53300" ++ x00
                :: x4d :: lit "sorry, too many clients already" ++ [x00; x00] in
  x45 :: be32 (zlen fields + 4) ++ fields.

(** The first half of [spawn_tcp_connection_handler] and of its UNIX twin, up to
    the spawn; the second half is [store_handle].  The guard is made by the task
    when it is first polled; a task counts as polled here as soon as it is spawned.
    (One that is aborted before would leave the counter and the gauge too high.) *)
Definition spawn_connection_handler (id : Z) (s : server) : server :=
  let s := with_active (atomic_add two64 (active_connections s) 1) s in
  let s := with_metrics (Metrics.increment_active_connections (metrics s)) s in
  mk_server (max_connections s) (auth_file s) id (active_connections s) (metrics s) (registry s)
    (<[id := connection_task Serving (authenticator s)]> (tasks s)) ({[id]} ∪ join_set s) (Some id)
    (aborted s) (kills s) (authenticator s) (serving s) (drain_complete s).
Definition store_handle (id : Z) (s : server) : server :=
  with_spawning None (with_registry (register_abort_handle id id (registry s)) s).

Inductive accepted : Type := Accepted (id : Z) | Rejected (reply : option bytes).
Definition accept (t : transport) (s : server) : outcome (server * accepted) :=
  if max_connections s <=? active_connections s then
    Ret (with_metrics (Metrics.record_connection_rejected (metrics s)) s,
         Rejected (match t with Tcp => Some reject_connection_over_limit | Unix => None end))
  else
    id ← u64_add (connection_count s) 1;
    Ret (spawn_connection_handler id s, Accepted id).

(** *** A connection's end: the drop of [ConnectionCountGuard] *)
Definition drop_guard (id : Z) (s : server) : server :=
  match tasks s !! id with
  | Some (connection_task Serving a) =>
      with_tasks (<[id := connection_task CountDropped a]> (tasks s))
        (with_active ((active_connections s - 1) mod two64) s)
  | Some (connection_task CountDropped a) =>
      with_tasks (<[id := connection_task GaugeDropped a]> (tasks s))
        (with_metrics (Metrics.decrement_active_connections (metrics s)) s)
  | Some (connection_task GaugeDropped a) =>
      with_tasks (<[id := connection_task EntryDropped a]> (tasks s))
        (with_registry (remove_entry id (registry s)) s)
  | Some (connection_task EntryDropped a) =>
      with_tasks (delete id (tasks s)) (with_registry (remove_handle id (registry s)) s)
  | None => s
  end.

(** *** Reload: the closure of [build_reload_fn] *)
Definition reload (f : file_read) (s : server) : server * option AuthError :=
  match auth_file s with
  | None => (s, None)
  | Some path =>
      match from_file path f with
      | inl new_auth => (with_authenticator (Some new_auth) s, None)
      | inr e => (s, Some e)
      end
  end.

(** *** Drain *)
Definition abort_all (s : server) : server := with_kills (aborted s ∪ join_set s) (kills s) s.
Definition join (id : Z) (s : server) : server :=
  with_drain (join_set s ∖ {[id]}) (serving s) (drain_complete s) s.
Definition signal_drain_complete (s : server) : server := with_drain (join_set s) Drained true s.

(** *** What can happen *)
Inductive event : Type := EAccepted (id : Z) | ERejected | EQuiet.

Inductive step : server → event → server → Prop :=
| step_accept s t s' id :
    serving s = Accepting → spawning s = None → accept t s = Ret (s', Accepted id) →
    step s (EAccepted id) s'
| step_reject s t s' reply :
    serving s = Accepting → spawning s = None → accept t s = Ret (s', Rejected reply) →
    step s ERejected s'
| step_handle s id : spawning s = Some id → step s EQuiet (store_handle id s)
| step_register s e a :
    tasks s !! conn_id e = Some (connection_task Serving a) →
    step s EQuiet (with_registry (register e (registry s)) s)
| step_touch s id st now : step s EQuiet (with_registry (touch id st now (registry s)) s)
| step_metrics s m :
    Metrics.active_connections m = Metrics.active_connections (metrics s) →
    step s EQuiet (with_metrics m s)
| step_drop s id : is_Some (tasks s !! id) → step s EQuiet (drop_guard id s)
| step_reload s f : step s EQuiet (reload f s).1
| step_kill_find s db :
    step s EQuiet (with_kills (aborted s) ((false, kill_find db (registry s)) :: kills s) s)
| step_kill_abort s k1 matched k2 :
    kills s = k1 ++ (false, matched) :: k2 →
    step s EQuiet
      (with_kills (aborted s ∪ list_to_set (kill_abort matched (registry s)).2)
         (k1 ++ (true, matched) :: k2)
         (with_registry (kill_abort matched (registry s)).1 s))
| step_kill_remove s k1 matched k2 :
    kills s = k1 ++ (true, matched) :: k2 →
    step s EQuiet
      (with_kills (aborted s) (k1 ++ k2) (with_registry (kill_remove matched (registry s)) s))
| step_shutdown s :
    serving s = Accepting → spawning s = None → step s EQuiet (with_drain (join_set s) Draining false s)
| step_join s id :
    serving s = Draining → id ∈ join_set s → tasks s !! id = None → step s EQuiet (join id s)
| step_timeout s : serving s = Draining → step s EQuiet (abort_all s)
| step_drained s : serving s = Draining → join_set s = ∅ → step s EQuiet (signal_drain_complete s).

(** What the server does by itself, whatever its clients do: a guard that is being
    dropped goes on, the task of an aborted connection is dropped at its next await,
    ended tasks are joined, the drain's timer expires, the drain is announced. *)
Inductive own : server → server → Prop :=
| own_drop s id t :
    tasks s !! id = Some t → (phase t ≠ Serving ∨ id ∈ aborted s) → own s (drop_guard id s)
| own_join s id :
    serving s = Draining → id ∈ join_set s → tasks s !! id = None → own s (join id s)
| own_timeout s : serving s = Draining → own s (abort_all s)
| own_drained s : serving s = Draining → join_set s = ∅ → own s (signal_drain_complete s).

Lemma own_step s s' : own s s' → step s EQuiet s'.
Proof. destruct 1; by constructor. Qed.

Inductive run : server → list event → server → Prop :=
| run_nil s : run s [] s
| run_snoc s es s1 e s2 : run s es s1 → step s1 e s2 → run s (es ++ [e]) s2.

Definition accepted_ids (es : list event) : list Z :=
  omap (λ e, match e with EAccepted id => Some id | _ => None end) es.

(** *** The invariant *)
Definition count (P : guard_phase → bool) (m : gmap Z task) : Z :=
  map_count (λ t, P (phase t)) m.
Definition serving_phase (p : guard_phase) : bool := match p with Serving => true | _ => false end.
Definition gauge_phase (p : guard_phase) : bool :=
  match p with Serving | CountDropped => true | _ => false end.

Record inv (s : server) (n : Z) : Prop := mk_inv {
  inv_active : active_connections s = count serving_phase (tasks s);
  inv_limit : active_connections s ≤ max_connections s;
  inv_gauge : Metrics.active_connections (metrics s) = count gauge_phase (tasks s);
  inv_count : connection_count s = n;
  inv_ids : ∀ id, is_Some (tasks s !! id) → 1 ≤ id ≤ n;
  inv_joined : ∀ id, is_Some (tasks s !! id) → id ∈ join_set s;
  inv_listed : ∀ id, is_Some (inner (registry s) !! id) →
    ∃ t, tasks s !! id = Some t ∧ phase t ≠ EntryDropped;
  inv_keyed : keyed (inner (registry s));
  inv_spawning : is_Some (spawning s) → serving s = Accepting;
  inv_unreaped : serving s = Accepting → ∀ id, 1 ≤ id ≤ n → id ∈ join_set s;
  inv_drained : serving s = Drained → join_set s = ∅;
  inv_signal : drain_complete s = true ↔ serving s = Drained
}.

Lemma count_insert P m id t :
  m !! id = None → count P (<[id := t]> m) = count P m + bool_to_Z (P (phase t)).
Proof. apply (map_count_insert (λ t, P (phase t))). Qed.
Lemma count_delete P m id t :
  m !! id = Some t → count P (delete id m) = count P m - bool_to_Z (P (phase t)).
Proof. apply (map_count_delete (λ t, P (phase t))). Qed.
Lemma count_update P m id t t' :
  m !! id = Some t →
  count P (<[id := t']> m) = count P m - bool_to_Z (P (phase t)) + bool_to_Z (P (phase t')).
Proof. apply (map_count_update (λ t, P (phase t))). Qed.
Lemma count_range P m id t :
  m !! id = Some t → bool_to_Z (P (phase t)) ≤ count P m.
Proof.
  intros Hm. pose proof (count_delete P m id t Hm) as Hd. unfold count, map_count in *. lia.
Qed.
Lemma count_bound P (m : gmap Z task) n :
  0 ≤ n → (∀ id, is_Some (m !! id) → 1 ≤ id ≤ n) → 0 ≤ count P m ≤ n.
Proof.
  intros Hn Hids. unfold count, map_count. split; [lia|].
  set (f := filter _ m). rewrite <-length_map_to_list, <-(length_fmap fst).
  enough (length (map_to_list f).*1 ≤ length (seqZ 1 n))%nat by (rewrite length_seqZ in *; lia).
  apply submseteq_length, NoDup_submseteq; [apply NoDup_fst_map_to_list|].
  intros id ([id' t] & -> & Hin%elem_of_map_to_list)%list_elem_of_fmap.
  apply map_lookup_filter_Some in Hin as [Hin _]. apply elem_of_seqZ.
  specialize (Hids id' (mk_is_Some _ _ Hin)). cbn. lia.
Qed.

(** *** Every step keeps it *)
Definition accepts (e : event) : Z := match e with EAccepted _ => 1 | _ => 0 end.

Lemma drop_inv s n id : inv s n → is_Some (tasks s !! id) → n < two64 → inv (drop_guard id s) n.
Proof.
  intros [Ha Hl Hg Hc Hi Hj Hli Hk Hs Hu Hd Hsi] [t Ht] Hn. unfold drop_guard. rewrite Ht.
  assert (Hn0 : 0 ≤ n) by (specialize (Hi id (mk_is_Some _ _ Ht)); lia).
  pose proof (count_bound serving_phase _ _ Hn0 Hi). pose proof (count_bound gauge_phase _ _ Hn0 Hi).
  pose proof (count_range serving_phase _ _ _ Ht). pose proof (count_range gauge_phase _ _ _ Ht).
  destruct t as [p a].
  assert (Htask : ∀ q id', is_Some (<[id := connection_task q a]> (tasks s) !! id') → is_Some (tasks s !! id')).
  { intros q id'. destruct (decide (id' = id)) as [->|]; [eauto|]. by rewrite lookup_insert_ne. }
  assert (Hlisted : ∀ q id', q ≠ EntryDropped ∨ id' ≠ id → is_Some (inner (registry s) !! id') →
    ∃ t, <[id := connection_task q a]> (tasks s) !! id' = Some t ∧ phase t ≠ EntryDropped).
  { intros q id' Hq Hin. destruct (Hli id' Hin) as (t & Ht' & Hp). destruct (decide (id' = id)) as [->|].
    - rewrite lookup_insert_eq. eexists. split; [done|]. destruct Hq; [done|done].
    - rewrite lookup_insert_ne by done. eauto. }
  destruct p; cbn in *; split; cbn; try done; eauto;
    rewrite ?(count_update _ _ _ _ _ Ht), ?(count_delete _ _ _ _ Ht); cbn;
    rewrite ?Z.mod_small by lia; try lia.
  - intros id' [Hne Hin]%lookup_delete_is_Some. apply Hlisted; auto.
  - by apply keyed_delete.
  - intros id' [_ Hin]%lookup_delete_is_Some. auto.
  - intros id' [_ Hin]%lookup_delete_is_Some. auto.
  - intros id' (t & Ht' & Hp)%Hli. exists t. split; [|done].
    rewrite lookup_delete_ne; [done|]. intros ->. rewrite Ht in Ht'. by injection Ht' as <-.
Qed.

(** A registry that lists no more than before. *)
Lemma registry_inv s n r :
  inv s n → keyed (inner r) →
  (∀ id, is_Some (inner r !! id) → is_Some (inner (registry s) !! id)) →
  inv (with_registry r s) n.
Proof. intros [] Hk Hr. split; cbn; auto. Qed.
Lemma kills_inv s n a k : inv s n → inv (with_kills a k s) n.
Proof. intros []. by split. Qed.
Lemma foldl_delete_keyed (m : gmap Z ClientEntry) (l : list Z) :
  keyed m → keyed (foldl (λ m id, delete id m) m l).
Proof. intros Hk id e. rewrite foldl_delete. case_decide; [done|]. apply Hk. Qed.

Lemma accept_inv t s n s' id :
  inv s n → 0 ≤ n → n + 1 < two64 → max_connections s < two64 → serving s = Accepting →
  accept t s = Ret (s', Accepted id) → id = n + 1 ∧ inv s' (n + 1).
Proof.
  intros [Ha Hl Hg Hc Hi Hj Hli Hk Hs Hu Hd Hsi] Hn0 Hn Hm Hp. unfold accept.
  destruct (Z.leb_spec (max_connections s) (active_connections s)); [by intros [=]|].
  rewrite Hc, u64_add_fits by lia. cbn [mbind outcome_bind]. intros [= <- <-]. split; [done|].
  pose proof (count_bound serving_phase _ _ Hn0 Hi). pose proof (count_bound gauge_phase _ _ Hn0 Hi).
  assert (Hnew : tasks s !! (n + 1) = None).
  { apply eq_None_not_Some. intros Hin%Hi. lia. }
  assert (Hsome : ∀ id', is_Some (<[n + 1 := connection_task Serving (authenticator s)]> (tasks s) !! id') →
    id' = n + 1 ∨ is_Some (tasks s !! id')).
  { intros id'. destruct (decide (id' = n + 1)) as [->|]; [auto|]. rewrite lookup_insert_ne by done. auto. }
  split; cbn; try done.
  - rewrite count_insert by done. cbn. unfold atomic_add. rewrite Z.mod_small; lia.
  - unfold atomic_add. rewrite Z.mod_small; lia.
  - rewrite count_insert by done. cbn. unfold atomic_add. rewrite Z.mod_small; lia.
  - intros id' [->|Hin%Hi]%Hsome; lia.
  - intros id' [->|Hin%Hj]%Hsome; set_solver.
  - intros id' (t' & Ht & Hph)%Hli. exists t'. split; [|done].
    rewrite lookup_insert_ne; [done|]. intros <-. congruence.
  - intros _ id' Hid. destruct (decide (id' = n + 1)) as [->|]; [set_solver|].
    apply elem_of_union_r, Hu; [done|lia].
  - congruence.
Qed.

Lemma step_inv s n e s' :
  inv s n → 0 ≤ n → n + accepts e < two64 → max_connections s < two64 →
  step s e s' → inv s' (n + accepts e).
Proof.
  intros Hinv Hn0 Hn Hm Hst. destruct Hst; cbn [accepts] in *; rewrite ?Z.add_0_r in *.
  - by eapply accept_inv.
  - match goal with Ha : accept _ _ = _ |- _ => revert Ha end. unfold accept. destruct (_ <=? _).
    + intros [= <- <-]. destruct Hinv. by split.
    + by intros (? & _ & [=])%outcome_bind_Ret.
  - destruct Hinv. split; cbn; try done.
  - destruct Hinv. split; cbn; try done.
    + intros id'. destruct (decide (id' = conn_id e)) as [->|].
      * intros _. eexists. split; [eassumption|done].
      * rewrite lookup_insert_ne by done. auto.
    + intros id' e'. destruct (decide (id' = conn_id e)) as [->|].
      * rewrite lookup_insert_eq. by intros [= <-].
      * rewrite lookup_insert_ne by done. auto.
  - unfold touch. destruct (inner (registry s) !! id) as [e|] eqn:He; [|by destruct Hinv; split].
    apply registry_inv; [done|..]; cbn; pose proof (inv_keyed _ _ Hinv) as Hk.
    + intros id' e'. destruct (decide (id' = id)) as [->|].
      * rewrite lookup_insert_eq. intros [= <-]. exact (Hk _ _ He).
      * rewrite lookup_insert_ne by done. apply Hk.
    + intros id'. destruct (decide (id' = id)) as [->|]; [eauto|]. by rewrite lookup_insert_ne.
  - destruct Hinv. split; cbn; try done. congruence.
  - by apply drop_inv.
  - unfold reload. destruct (auth_file s) as [path|]; [|done]. destruct (from_file path f); [|done].
    destruct Hinv. by split.
  - by apply kills_inv.
  - apply kills_inv, registry_inv; [done|apply Hinv|done].
  - apply kills_inv, registry_inv; [done|apply foldl_delete_keyed, Hinv|].
    intros id. cbn. rewrite foldl_delete. case_decide; [by intros []|done].
  - destruct Hinv. split; cbn; try done. intros []. congruence.
  - destruct Hinv. split; cbn; try done; try congruence.
    intros id' Hid. apply elem_of_difference. split; [auto|]. intros ->%elem_of_singleton.
    destruct Hid. congruence.
  - by apply kills_inv.
  - destruct Hinv. split; cbn; try done. intros Hsp%inv_spawning0. congruence.
Qed.

(** *** Runs of the server *)
Definition start (c : Conf.Config) (auth : option FileAuthenticator) (m : ProxyMetrics) : server :=
  begin_run (Conf.pool_queue_depth (Conf.performance c))
    (new (Conf.max_connections (Conf.proxy c)) (Conf.auth_file (Conf.auth c)) auth m).

Lemma start_inv c auth m :
  0 ≤ Conf.max_connections (Conf.proxy c) → Metrics.active_connections m = 0 →
  inv (start c auth m) 0.
Proof.
  intros Hmax Hm. split; cbn; try done.
  - by intros id [].
  - by intros id [].
  - by intros id [].
  - intros _ id Hid. lia.
Qed.

Lemma accept_fixed t s s' r :
  accept t s = Ret (s', r) → max_connections s' = max_connections s ∧ auth_file s' = auth_file s.
Proof.
  unfold accept. destruct (_ <=? _); [by intros [= <- _]|].
  intros (id & _ & Hr)%outcome_bind_Ret. by injection Hr as <- _.
Qed.
Lemma step_fixed s e s' :
  step s e s' → max_connections s' = max_connections s ∧ auth_file s' = auth_file s.
Proof.
  destruct 1; try done; try (by eapply accept_fixed).
  - unfold drop_guard. by repeat case_match.
  - unfold reload. by repeat case_match.
Qed.

Lemma seqZ_snoc n : 0 ≤ n → seqZ 1 (n + 1) = seqZ 1 n ++ [n + 1].
Proof.
  intros Hn. rewrite seqZ_app by lia. f_equal. rewrite seqZ_cons by lia.
  replace (Z.pred 1) with 0 by lia. cbn. f_equal. lia.
Qed.

Lemma run_inv c auth m es s :
  run (start c auth m) es s → 0 ≤ Conf.max_connections (Conf.proxy c) < two64 →
  Metrics.active_connections m = 0 → zlen es < two64 →
  inv s (zlen (accepted_ids es)) ∧ accepted_ids es = seqZ 1 (zlen (accepted_ids es)) ∧
  zlen (accepted_ids es) ≤ zlen es ∧ max_connections s = Conf.max_connections (Conf.proxy c).
Proof.
  intros Hrun Hmax Hm. remember (start c auth m) as s0 eqn:Hs0.
  induction Hrun as [s|s es s1 e s2 Hrun IH Hst]; intros Hl; subst s.
  { split_and!; [apply start_inv; [lia|done]|done|done|done]. }
  rewrite zlen_app in Hl. assert (Hone : zlen [e] = 1) by done.
  destruct (IH eq_refl) as (Hinv & Hseq & Hle & Hmx); [lia|]. clear IH.
  pose proof (zlen_nonneg (accepted_ids es)).
  assert (He : zlen (accepted_ids (es ++ [e])) = zlen (accepted_ids es) + accepts e).
  { unfold accepted_ids. rewrite omap_app, zlen_app. by destruct e. }
  assert (Hle1 : accepts e ≤ 1) by (by destruct e).
  pose proof (step_inv _ _ e s2 Hinv ltac:(lia) ltac:(lia) ltac:(lia) Hst) as Hinv'.
  rewrite He, zlen_app. split_and!; [done| |lia|by rewrite (proj1 (step_fixed _ _ _ Hst))].
  unfold accepted_ids in *. rewrite omap_app. cbn [omap list_omap].
  destruct Hst as [s t s' id Hacc _ Ha| | | | | | | | | | | | | |]; cbn [accepts]; rewrite ?app_nil_r, ?Z.add_0_r; try done.
  apply (accept_inv t s _ s' id Hinv) in Ha as [-> _]; [|lia..|done].
  by rewrite seqZ_snoc, <-Hseq by done.
Qed.


(** *** The drain goes forward *)

(** What is left to do: the updates of every guard, the tasks to join, the
    announcement. *)
Definition listed_phase (p : guard_phase) : bool := match p with EntryDropped => false | _ => true end.
Definition work (m : gmap Z task) : Z :=
  count serving_phase m + count gauge_phase m + count listed_phase m + count (λ _, true) m.
Definition remaining (s : server) : Z :=
  work (tasks s) + Z.of_nat (size (join_set s)) +
  match serving s with Drained => 0 | _ => 1 end.

Lemma drop_work s id : is_Some (tasks s !! id) → work (tasks (drop_guard id s)) = work (tasks s) - 1.
Proof.
  intros [t Ht]. unfold drop_guard, work. rewrite Ht.
  destruct t as [[] a]; cbn; rewrite ?(count_update _ _ _ _ _ Ht), ?(count_delete _ _ _ _ Ht); cbn; lia.
Qed.
Lemma drop_rest s id : join_set (drop_guard id s) = join_set s ∧ serving (drop_guard id s) = serving s.
Proof. unfold drop_guard. by repeat case_match. Qed.
Lemma drop_remaining s id : is_Some (tasks s !! id) → remaining (drop_guard id s) = remaining s - 1.
Proof.
  intros Ht. unfold remaining. destruct (drop_rest s id) as [-> ->]. rewrite drop_work by done. lia.
Qed.
Lemma join_remaining s id : id ∈ join_set s → remaining (join id s) = remaining s - 1.
Proof.
  intros Hin. unfold remaining, join. cbn. rewrite size_difference by set_solver.
  rewrite size_singleton. assert (size (join_set s) ≠ 0%nat) by (apply size_non_empty_iff; set_solver). lia.
Qed.

(** The drain's time is up: every task that is left has been aborted. *)
Definition timed_out (s : server) : Prop := serving s ≠ Accepting ∧ join_set s ⊆ aborted s.

Lemma remaining_nonneg s : 0 ≤ remaining s.
Proof. unfold remaining, work, count, map_count. destruct (serving s); lia. Qed.

Lemma drop_aborted s id : aborted (drop_guard id s) = aborted s.
Proof. unfold drop_guard. by repeat case_match. Qed.

(** After the shutdown no step adds to the work that is left, and none takes an
    abort back. *)
Lemma draining_step s e s' :
  serving s ≠ Accepting → step s e s' →
  serving s' ≠ Accepting ∧ remaining s' ≤ remaining s ∧ aborted s ⊆ aborted s' ∧ join_set s' ⊆ join_set s.
Proof.
  intros Hd Hst.
  destruct Hst; try done; try (unfold remaining; cbn; split_and!; [done|lia|set_solver|set_solver]).
  - rewrite (drop_remaining s id) by done. destruct (drop_rest s id) as [-> ->]. rewrite drop_aborted.
    split_and!; [done|lia|done|done].
  - unfold reload. repeat case_match; (split_and!; [done| |done|done]); try done; unfold remaining; cbn; lia.
  - rewrite join_remaining by done. unfold join. cbn. split_and!; [done|lia|set_solver|set_solver].
  - unfold remaining. cbn. split_and!; [done| |set_solver|set_solver]. destruct (serving s); lia.
Qed.

Lemma timed_out_step s e s' : timed_out s → step s e s' → timed_out s'.
Proof.
  intros [Hd Hj] Hst. destruct (draining_step _ _ _ Hd Hst) as (Hd' & _ & Ha & Hjs). split; [done|]. set_solver.
Qed.

(** Once the time is up the server can always go on by itself. *)
Lemma timed_out_progress s n :
  inv s n → timed_out s → drain_complete s = false → ∃ s', own s s' ∧ remaining s' < remaining s.
Proof.
  intros Hinv [Hd Hj] Hdc. assert (Hdr : serving s = Draining).
  { destruct (serving s) eqn:Hsv; [done|done|]. apply (inv_signal _ _ Hinv) in Hsv. congruence. }
  destruct (map_choose_or_empty (tasks s)) as [(id & t & Ht)|Ht].
  { exists (drop_guard id s). split; [|rewrite drop_remaining by done; lia].
    eapply own_drop; [done|]. right. apply Hj, (inv_joined _ _ Hinv). eauto. }
  destruct (set_choose_or_empty (join_set s)) as [[id Hid]|Hjs%leibniz_equiv].
  { exists (join id s). split; [constructor; [done|done|by rewrite Ht]|].
    rewrite join_remaining by done. lia. }
  exists (signal_drain_complete s). split; [by constructor|]. unfold remaining. cbn. rewrite Hdr. lia.
Qed.

Lemma timed_out_finishes n s :
  inv s n → 0 ≤ n < two64 → max_connections s < two64 → timed_out s →
  ∃ s', rtc own s s' ∧ drain_complete s' = true.
Proof.
  intros Hinv Hn Hm Ht. remember (Z.to_nat (remaining s)) as k eqn:Hk.
  revert s Hinv Hm Ht Hk. induction (lt_wf k) as [k _ IH]; intros s Hinv Hm Ht Hk.
  destruct (drain_complete s) eqn:Hdc; [by exists s|].
  destruct (timed_out_progress s n Hinv Ht Hdc) as (s1 & Ho & Hlt).
  pose proof (own_step _ _ Ho) as Hst. pose proof (remaining_nonneg s1).
  pose proof (step_inv s n EQuiet s1 Hinv ltac:(lia) ltac:(cbn; lia) Hm Hst) as Hinv1. cbn in Hinv1. rewrite Z.add_0_r in Hinv1.
  destruct (IH (Z.to_nat (remaining s1)) ltac:(lia) s1 Hinv1) as (s2 & Hr & Hc); [|by eapply timed_out_step|done|].
  - by rewrite (proj1 (step_fixed _ _ _ Hst)).
  - exists s2. split; [by eapply rtc_l|done].
Qed.

(** C27. A drain comes to its end without the help of the clients.  In any state
    after a shutdown was asked for: whatever happens next, the work left (the
    updates of the guards, the tasks to join, the announcement) does not grow and
    no abort is taken back; once the timer has expired, and until the drain is
    announced, the server has a step of its own that makes the work smaller, so
    that at most that many of them are left; and from any such state the expiry of
    the timer and steps of its own lead it to announce the drain, although none of
    its clients leaves. *)
Theorem drain_progress c auth m es s :
  run (start c auth m) es s → 0 ≤ Conf.max_connections (Conf.proxy c) < two64 →
  Metrics.active_connections m = 0 → zlen es < two64 → serving s ≠ Accepting →
  (∀ e s', step s e s' → 0 ≤ remaining s' ≤ remaining s ∧ (timed_out s → timed_out s')) ∧
  (timed_out s → drain_complete s = false → ∃ s', own s s' ∧ remaining s' < remaining s) ∧
  (∃ s', rtc own s s' ∧ drain_complete s' = true).
Proof.
  intros Hrun Hmax Hm Hl Hd. destruct (run_inv _ _ _ _ _ Hrun Hmax Hm Hl) as (Hinv & _ & Hle & Hmx).
  pose proof (zlen_nonneg (accepted_ids es)). split_and!.
  - intros e s' Hst. destruct (draining_step _ _ _ Hd Hst) as (_ & Hr & _). pose proof (remaining_nonneg s').
    split; [done|]. intros Ht. by eapply timed_out_step.
  - intros Ht. by eapply timed_out_progress.
  - destruct (serving s) eqn:Hsv; [done| |exists s; split; [done|by apply (inv_signal _ _ Hinv)]].
    destruct (timed_out_finishes (zlen (accepted_ids es)) (abort_all s)) as (s' & Hr & Hc).
    + by apply kills_inv.
    + lia.
    + cbn. lia.
    + split; cbn; [by rewrite Hsv|set_solver].
    + exists s'. split; [|done]. eapply rtc_l; [by apply own_timeout|done].
Qed.

(** *** Reload *)

(** Sessions keep the accounts they were accepted with. *)
Lemma step_keeps_auth s n e s' id t :
  inv s n → 0 ≤ n → n + accepts e < two64 → max_connections s < two64 → step s e s' →
  tasks s !! id = Some t →
  tasks s' !! id = None ∨ ∃ t', tasks s' !! id = Some t' ∧ task_auth t' = task_auth t.
Proof.
  intros Hinv Hn0 Hn Hm Hst Ht. destruct Hst as [? ? ? ? Hacc _ Ha|? ? ? ? _ _ Ha| | | | |s id' Hid| | | | | | | |];
    cbn [tasks store_handle with_registry with_spawning with_metrics with_kills with_drain join abort_all
         signal_drain_complete]; eauto.
  - pose proof (accept_inv _ _ _ _ _ Hinv Hn0 Hn Hm Hacc Ha) as [-> _].
    revert Ha. unfold accept. destruct (_ <=? _); [by intros [=]|].
    intros (i & _ & Hr)%outcome_bind_Ret. injection Hr as <- ->. cbn. right. exists t.
    rewrite lookup_insert_ne; [done|]. intros <-.
    specialize (inv_ids _ _ Hinv _ (mk_is_Some _ _ Ht)). lia.
  - revert Ha. unfold accept. destruct (_ <=? _); [intros [= <- _]; cbn; eauto|].
    by intros (i & _ & Hr)%outcome_bind_Ret.
  - unfold drop_guard. destruct (decide (id = id')) as [<-|Hne].
    + rewrite Ht. destruct t as [[] a]; cbn; rewrite ?lookup_insert_eq, ?lookup_delete_eq; eauto.
    + right. exists t. split; [|done]. repeat case_match; cbn;
        rewrite ?lookup_insert_ne, ?lookup_delete_ne by done; done.
  - unfold reload. repeat case_match; cbn; eauto.
Qed.

(** A reload that succeeds gives later sessions the accounts of the file; one that
    fails changes nothing. *)
Lemma reload_exact f s s' err :
  reload f s = (s', err) →
  (err = None → ∀ path, auth_file s = Some path →
     ∃ a, from_file path f = inl a ∧ authenticator s' = Some a ∧ tasks s' = tasks s ∧
     ∀ t s2 id, accept t s' = Ret (s2, Accepted id) →
       tasks s2 !! id = Some (connection_task Serving (Some a))) ∧
  (is_Some err → s' = s).
Proof.
  unfold reload. destruct (auth_file s) as [path|]; [|by intros [= <- <-]; split; [|intros []]].
  destruct (from_file path f) as [a|e] eqn:Hf; intros [= <- <-]; (split; [|by intros []]); [|done].
  intros _ path' [= <-]. exists a. split_and!; [done|done|done|]. intros t s2 id. unfold accept.
  destruct (_ <=? _); [by intros [=]|]. intros (i & _ & Hr)%outcome_bind_Ret. injection Hr as <- <-.
  cbn. by rewrite lookup_insert_eq.
Qed.

(** As long as connections are accepted, no ended task is joined: the set keeps
    one task for each connection there ever was. *)
Lemma join_set_never_reaped c auth m es s :
  run (start c auth m) es s → 0 ≤ Conf.max_connections (Conf.proxy c) < two64 →
  Metrics.active_connections m = 0 → zlen es < two64 → serving s = Accepting →
  ∀ id, id ∈ accepted_ids es → id ∈ join_set s.
Proof.
  intros Hrun Hmax Hm Hl Ha id Hid. destruct (run_inv _ _ _ _ _ Hrun Hmax Hm Hl) as (Hinv & Hseq & _).
  apply (inv_unreaped _ _ Hinv Ha). rewrite Hseq in Hid. apply elem_of_seqZ in Hid. lia.
Qed.
End server.

(** *** Concrete runs *)
Section demo.
#[local] Existing Instances release_build Metrics.list_hdr.

Definition demo_start (max : Z) : server :=
  let d := Conf.default_config in
  start (Conf.config
           {| Conf.listen_address := lit "127.0.0.1:5433"; Conf.unix_socket := None;
              Conf.max_connections := max; Conf.shutdown_timeout_secs := 30 |}
           (Conf.backend d) [] (Conf.observability d) (Conf.protocol d) (Conf.publisher d)
           (Conf.performance d) (Conf.resilience d) (Conf.tls d) (Conf.auth d) (Conf.admin d))
    None Metrics.demo_metrics.
Definition after_accept (t : transport) (s : server) : server :=
  match accept t s with Ret (s, _) => s | _ => s end.
Definition ended (id : Z) (s : server) : server := drop_guard id (drop_guard id (drop_guard id (drop_guard id s))).


Definition s1 : server := after_accept Tcp (demo_start 1).
Definition s2 : server := store_handle 1 s1.
Definition s3 : server := after_accept Unix s2.

Lemma accept_run : run (demo_start 1) [EAccepted 1] s1.
Proof.
  apply (run_snoc _ [] (demo_start 1)); [constructor|].
  by apply (step_accept _ Tcp).
Qed.
Lemma reject_run : run (demo_start 1) [EAccepted 1; EQuiet; ERejected] s3.
Proof.
  apply (run_snoc _ [EAccepted 1; EQuiet] s2).
  - apply (run_snoc _ [EAccepted 1] s1); [apply accept_run|]. by constructor.
  - by eapply (step_reject _ Unix).
Qed.


Definition draining : server := with_drain (join_set s2) Draining false s2.
Lemma drain_run : run (demo_start 1) [EAccepted 1; EQuiet; EQuiet] draining.
Proof.
  apply (run_snoc _ [EAccepted 1; EQuiet] s2).
  - apply (run_snoc _ [EAccepted 1] s1); [apply accept_run|]. by constructor.
  - by constructor.
Qed.
Lemma drain_progress_witness :
  serving draining = Draining ∧ remaining draining = 6 ∧ is_Some (tasks draining !! 1) ∧
  ∃ s, rtc own draining s ∧ drain_complete s = true.
Proof.
  split; [reflexivity|]. split; [reflexivity|]. split; [vm_compute; eauto|].
  apply (drain_progress _ None Metrics.demo_metrics _ draining drain_run); [split; done|done|done|done].
Defined.

(** A connection that ends before its abort handle is stored leaves the handle
    behind. *)
Definition after_end : server := store_handle 1 (ended 1 s1).
Lemma drops_run s es id :
  (∀ k, (k < 4)%nat → is_Some (tasks (Nat.iter k (drop_guard id) s) !! id)) →
  run (demo_start 1) es s → run (demo_start 1) (es ++ [EQuiet; EQuiet; EQuiet; EQuiet]) (ended id s).
Proof.
  intros Hk Hrun.
  replace (es ++ [EQuiet; EQuiet; EQuiet; EQuiet])
    with ((((es ++ [EQuiet]) ++ [EQuiet]) ++ [EQuiet]) ++ [EQuiet]) by (by rewrite <-!app_assoc).
  unfold ended.
  eapply run_snoc; [|apply step_drop, (Hk 3%nat); lia].
  eapply run_snoc; [|apply step_drop, (Hk 2%nat); lia].
  eapply run_snoc; [|apply step_drop, (Hk 1%nat); lia].
  eapply run_snoc; [done|apply step_drop, (Hk 0%nat); lia].
Qed.
Example handle_outlives_its_task :
  run (demo_start 1) (([EAccepted 1] ++ [EQuiet; EQuiet; EQuiet; EQuiet]) ++ [EQuiet]) after_end ∧
  tasks after_end = ∅ ∧ abort_handles (registry after_end) !! 1 = Some 1.
Proof.
  split; [|split; vm_compute; reflexivity].
  apply (run_snoc _ _ (ended 1 s1)); [|by constructor].
  apply drops_run; [|apply accept_run]. intros k Hk.
  do 4 (destruct k as [|k]; [vm_compute; eauto|]). lia.
Qed.

(** A kill between the registration of a session and the storing of its handle
    reports the session as killed, forgets it, and aborts nothing. *)
Definition early_entry : ClientEntry := entry 1 (lit "a:1") (lit "u") (lit "shop") Active 0 0 false.
Example killed_but_alive :
  kill_by_database (lit "SHOP") (register early_entry (registry s1)) = (Registry.new, [], [1]) ∧
  is_Some (tasks s1 !! 1).
Proof. split; [vm_compute; reflexivity|vm_compute; eauto]. Qed.
End demo.
End Server.
