(* ===== verification/Admin.v ===== *)
(** * The admin console (admin/commands.rs, admin/response.rs) and the start of a
      session (the handlers of proxy/server.rs that lead to it)

    The console reads the shared handles and acts on the pools, the registry, the
    authenticator and the shutdown trigger: [execute] maps the handles to the
    handles after and the response.  What it waits for or asks the clock is an
    argument. *)

From stdpp Require Import sorting.
From Stdlib Require Import SpecFloat.
From S2P Require Import Prelude RustStr Events CommandDetector ConnState Wire Extractor AuthMessages UserList CircuitBreaker Acquire HotData StmtCache Bind Anonymize Modes Handler Metrics WaitQueue PoolManager Direct Config Backend Handshake Server.

(** ** Responses on the wire (admin/response.rs) *)
Module Response.

Inductive AdminResponse : Type :=
| RowSet (columns : list bytes) (rows : list (list bytes))
| CommandComplete (tag : bytes)
| Error (message : bytes).

(** One field of a row description: no table, type text (25), size -1, modifier
    -1, text format. *)
Definition describe (col : bytes) : bytes :=
  col ++ [x00] ++ be32 0 ++ be16 0 ++ be32 25 ++ be16 (-1) ++ be32 (-1) ++ be16 0.
Definition build_row_description (columns : list bytes) : bytes :=
  let fields := concat (describe <$> columns) in
  x54 :: be32 (4 + 2 + zlen fields) ++ be16 (zlen columns) ++ fields.
Definition put_value (v : bytes) : bytes := be32 (zlen v) ++ v.
Definition build_data_row (values : list bytes) : bytes :=
  let columns := concat (put_value <$> values) in
  x44 :: be32 (4 + 2 + zlen columns) ++ be16 (zlen values) ++ columns.
Definition build_command_complete (tag : bytes) : bytes :=
  x43 :: be32 (4 + zlen tag + 1) ++ tag ++ [x00].
Definition build_ready_for_query : bytes := [x5a; x00; x00; x00; x05; x49].
Definition build_error (message : bytes) : bytes :=
  let fields :=
    (x53 :: lit "ERROR" ++ [x00]) ++ (x43 :: lit "42000" ++ [x00]) ++ (x4d :: message ++ [x00])
    ++ [x00] in
  x45 :: be32 (4 + zlen fields) ++ fields.

Definition to_wire (r : AdminResponse) : bytes :=
  match r with
  | RowSet columns rows =>
      build_row_description columns ++ concat (build_data_row <$> rows)
      ++ build_command_complete (lit "SELECT " ++ Direct.u64_to_string (zlen rows))
      ++ build_ready_for_query
  | CommandComplete tag => build_command_complete tag ++ build_ready_for_query
  | Error message => build_error message ++ build_ready_for_query
  end.

(** ** Reading a response *)

(** The messages a response is made of. *)
Definition messages (r : AdminResponse) : list (byte * bytes) :=
  match r with
  | RowSet columns rows =>
      (x54, be16 (zlen columns) ++ concat (describe <$> columns))
      :: ((λ row, (x44, be16 (zlen row) ++ concat (put_value <$> row))) <$> rows)
      ++ [(x43, lit "SELECT " ++ Direct.u64_to_string (zlen rows) ++ [x00]); (x5a, [x49])]
  | CommandComplete tag => [(x43, tag ++ [x00]); (x5a, [x49])]
  | Error message =>
      [(x45, Ext.put_fields [(x53, lit "ERROR"); (x43, lit "42000"); (x4d, message)]); (x5a, [x49])]
  end.

(** What a client reads of a row: the values, by their lengths. *)
Fixpoint read_values (fuel : nat) (data : bytes) : outcome (list bytes) :=
  match fuel, data with
  | _, [] => Ret []
  | O, _ => Diverge
  | S fuel, _ =>
      n ← i32_at data 0;
      v ← sub data 4 (4 + n);
      vs ← read_values fuel (drop (Z.to_nat (4 + n)) data);
      Ret (v :: vs)
  end.

Lemma row_frames columns :
  build_row_description columns = frame x54 (be16 (zlen columns) ++ concat (describe <$> columns)).
Proof.
  unfold build_row_description, frame. rewrite zlen_app, zlen_be16. by rewrite Z.add_assoc.
Qed.
Lemma data_frame row :
  build_data_row row = frame x44 (be16 (zlen row) ++ concat (put_value <$> row)).
Proof. unfold build_data_row, frame. rewrite zlen_app, zlen_be16. by rewrite Z.add_assoc. Qed.
Lemma complete_frame tag : build_command_complete tag = frame x43 (tag ++ [x00]).
Proof. unfold build_command_complete, frame. rewrite zlen_app. by rewrite Z.add_assoc. Qed.
Lemma ready_frame : build_ready_for_query = frame x5a [x49].
Proof. reflexivity. Qed.

Lemma to_wire_frames r : to_wire r = frames (messages r).
Proof.
  destruct r as [columns rows|tag|message]; cbn [to_wire messages].
  - assert (Hrows : concat (build_data_row <$> rows)
      = frames ((λ row, (x44, be16 (zlen row) ++ concat (put_value <$> row))) <$> rows)).
    { unfold frames. rewrite <-list_fmap_compose. f_equal. apply list_fmap_ext. intros i row _.
      apply data_frame. }
    rewrite row_frames, frames_cons, frames_app, complete_frame, ready_frame, Hrows, !frames_cons.
    by rewrite <-app_assoc.
  - by rewrite !frames_cons, complete_frame, ready_frame.
  - rewrite !frames_cons, ready_frame. unfold build_error, frame. rewrite !Ext.put_fields_cons. cbn.
    by rewrite <-!app_assoc.
Qed.

Lemma read_values_put fuel row :
  (length row ≤ fuel)%nat → Forall (λ v, zlen v < 2 ^ 31) row →
  read_values fuel (concat (put_value <$> row)) = Ret row.
Proof.
  intros Hf Hr. revert fuel Hf. induction Hr as [|v row Hv _ IH]; intros fuel Hf; [by destruct fuel|].
  cbn [fmap list_fmap concat length] in *. destruct fuel as [|fuel]; [lia|].
  pose proof (zlen_nonneg v) as Hv0. unfold put_value at 1. rewrite <-app_assoc.
  set (rest := concat (put_value <$> row)).
  assert (Hread : i32_at (be32 (zlen v) ++ v ++ rest) 0 = Ret (zlen v)).
  { apply (i32_at_be32 []); [done|lia]. }
  assert (Hsub : sub (be32 (zlen v) ++ v ++ rest) 4 (4 + zlen v) = Ret v).
  { apply sub_app; by rewrite ?zlen_be32. }
  cbn [read_values]. rewrite Hread. cbn [mbind outcome_bind]. rewrite Hsub. cbn [mbind outcome_bind].
  replace (drop (Z.to_nat (4 + zlen v)) (be32 (zlen v) ++ v ++ rest)) with rest.
  { rewrite IH by lia. done. }
  rewrite app_assoc, drop_app_length'; [done|]. rewrite length_app, length_be32. unfold zlen. lia.
Qed.

Lemma value_fits row v : v ∈ row → zlen v ≤ zlen (concat (put_value <$> row)).
Proof.
  intros Hv. induction Hv as [v row|v x row _ IH]; cbn [fmap list_fmap concat]; unfold put_value at 1;
    rewrite !zlen_app, zlen_be32; pose proof (zlen_nonneg (concat (put_value <$> row))).
  - lia.
  - pose proof (zlen_nonneg x). lia.
Qed.

(** C39. Every response of the console can be read back: it is a sequence of whole
    messages whose last one says the server is ready (which is what the proxy's own
    scan of it finds); the values of a row come back from its lengths, and the
    fields of an error from its bytes. *)
Theorem admin_response_readable `{Build} r :
  Forall (λ f, 4 + zlen f.2 < 2 ^ 31) (messages r) → zlen (to_wire r) < 2 ^ 63 →
  to_wire r = frames (messages r) ∧
  Ext.extract_ready_for_query (to_wire r) = Ret (Some x49) ∧
  (∀ columns rows row, r = RowSet columns rows → row ∈ rows → zlen row < 2 ^ 15 →
     ∃ payload, (x44, payload) ∈ messages r ∧ i16_at payload 0 = Ret (zlen row) ∧
       read_values (length row) (drop 2 payload) = Ret row) ∧
  (∀ message, r = Error message → Ext.text message = true →
     ∃ payload, (x45, payload) ∈ messages r ∧
       Ext.parse_error_fields payload
       = {| Ext.severity := Some (lit "ERROR"); Ext.sqlstate := Some (lit "42000");
            Ext.message := Some message |}).
Proof.
  intros Hm Hl. split; [apply to_wire_frames|]. split_and!.
  - rewrite to_wire_frames in *. rewrite <-(app_nil_r (frames _)) in Hl |- *.
    assert (Hready : Ext.last_ready None (messages r) = Some x49).
    { destruct r; cbn [messages]; [|done|done]. unfold Ext.last_ready. cbn [foldl].
      by rewrite foldl_app. }
    unfold Ext.extract_ready_for_query. rewrite <-Hready.
    apply (Ext.ready_loop_frames (messages r) []); [|by left|done|].
    + apply Forall_forall. intros f Hf. rewrite Forall_forall in Hm. split; [by apply Hm|].
      intros Ht. destruct r as [cols rows|tag|msg]; cbn [messages] in Hf.
      * apply elem_of_cons in Hf as [->|Hf]; [done|]. apply elem_of_app in Hf as [Hf|Hf].
        -- apply list_elem_of_fmap in Hf as (row & -> & _). done.
        -- set_solver.
      * set_solver.
      * set_solver.
    + pose proof (Ext.length_frames_le (messages r)). rewrite length_app. lia.
  - intros columns rows row -> Hrow Hn. eexists. split_and!.
    + cbn [messages]. apply list_elem_of_further, elem_of_app. left.
      apply list_elem_of_fmap. eauto.
    + apply (i16_at_be16 []); [done|]. pose proof (zlen_nonneg row). lia.
    + change (drop 2 (be16 (zlen row) ++ ?x)) with x. apply read_values_put; [done|].
      rewrite Forall_forall in Hm. apply Forall_forall. intros v Hv.
      assert (Hin : (x44, be16 (zlen row) ++ concat (put_value <$> row)) ∈ messages (RowSet columns rows)).
      { cbn [messages]. apply list_elem_of_further, elem_of_app. left. apply list_elem_of_fmap. eauto. }
      apply Hm in Hin. cbn [snd] in Hin. rewrite zlen_app in Hin.
      pose proof (value_fits row v Hv). pose proof (zlen_nonneg (be16 (zlen row))). lia.
  - intros message -> Ht. eexists. split; [cbn [messages]; apply list_elem_of_here|].
    rewrite Ext.parse_error_fields_put; [done|]. repeat constructor; done.
Qed.
End Response.

(** ** Commands (admin/commands.rs) *)
Module Console.
Import Registry Response Conf.
#[local] Existing Instance Registry.ClientState_eq_dec.

Definition ADMIN_DATABASE : bytes := lit "pgbouncer".

Inductive AdminCommand : Type :=
| ShowPools | ShowStats | ShowDatabases | ShowClients | ShowServers | ShowVersion | ShowConfig
| Pause (database : option bytes) | Resume (database : option bytes)
| Reload | Shutdown (wait : bool) | Kill (database : option bytes).

Definition pool_mode_str (s : Modes.PoolingStrategy) : bytes :=
  match s with
  | Modes.StrategyDisabled => lit "disabled"
  | Modes.StrategySession => lit "session"
  | Modes.StrategyTransaction => lit "transaction"
  | Modes.StrategyHybrid => lit "hybrid"
  end.
Definition tls_mode_str (m : TlsSslMode) : bytes :=
  match m with
  | Disable => lit "disable" | Allow => lit "allow" | Require_ => lit "require"
  | VerifyCa => lit "verify-ca" | VerifyFull => lit "verify-full"
  end.
Definition auth_type_str (a : AuthType) : bytes :=
  match a with
  | Trust => lit "trust" | Md5 => lit "md5" | ScramSha256 => lit "scram-sha-256" | Cert => lit "cert"
  end.
Definition bool_str (b : bool) : bytes := if b then lit "yes" else lit "no".
Definition opt_str (v : option bytes) : bytes := default (lit "<unset>") v.
Definition client_state_str (s : ClientState) : bytes :=
  match s with Active => lit "active" | Admin => lit "active" end.

(** The split at the last colon. *)
Fixpoint rsplit_colon (s : bytes) : option (bytes * bytes) :=
  match s with
  | [] => None
  | b :: s' =>
      match rsplit_colon s' with
      | Some (h, p) => Some (b :: h, p)
      | None => if beqb b x3a then Some ([], s') else None
      end
  end.
Definition split_host_port (addr : bytes) : bytes * bytes :=
  match rsplit_colon addr with Some hp => hp | None => (addr, lit "0") end.

Section parse.
Context `{Unicode}.

Definition parse (sql : bytes) : option AdminCommand :=
  let parts := Str.split_whitespace (Str.to_uppercase (Str.trim sql)) in
  let second := Str.to_lowercase <$> parts !! 1%nat in
  match parts with
  | [] => None
  | p0 :: _ =>
      if bool_decide (p0 = lit "SHOW") && (2 <=? length parts)%nat then
        match parts !! 1%nat with
        | Some p1 =>
            if bool_decide (p1 = lit "POOLS") then Some ShowPools
            else if bool_decide (p1 ∈ [lit "STATS"; lit "STATS_TOTALS"; lit "STATS_AVERAGES"])
            then Some ShowStats
            else if bool_decide (p1 = lit "DATABASES") then Some ShowDatabases
            else if bool_decide (p1 = lit "CLIENTS") then Some ShowClients
            else if bool_decide (p1 = lit "SERVERS") then Some ShowServers
            else if bool_decide (p1 = lit "VERSION") then Some ShowVersion
            else if bool_decide (p1 = lit "CONFIG") then Some ShowConfig
            else None
        | None => None
        end
      else if bool_decide (p0 = lit "PAUSE") then Some (Pause second)
      else if bool_decide (p0 = lit "RESUME") then Some (Resume second)
      else if bool_decide (p0 = lit "RELOAD") then Some Reload
      else if bool_decide (p0 = lit "SHUTDOWN")
      then Some (Shutdown (bool_decide (parts !! 1%nat = Some (lit "WAIT"))))
      else if bool_decide (p0 = lit "KILL") then Some (Kill second)
      else None
  end.

Definition is_admin_command (sql : bytes) : bool :=
  let upper := Str.to_uppercase (Str.trim sql) in
  if Str.starts_with upper (lit "SHOW ") then
    let rest := Str.trim (default [] (Str.strip_prefix upper (lit "SHOW "))) in
    let keyword := default [] (head (Str.split_whitespace rest)) in
    bool_decide (keyword ∈ [lit "POOLS"; lit "STATS"; lit "STATS_TOTALS"; lit "STATS_AVERAGES";
                            lit "DATABASES"; lit "CLIENTS"; lit "SERVERS"; lit "VERSION"; lit "CONFIG"])
  else
    existsb (Str.starts_with upper) [lit "PAUSE"; lit "RESUME"; lit "RELOAD"; lit "SHUTDOWN"; lit "KILL"].
End parse.

(** *** What the console sees *)
Import PoolStatus.
(** A pool manager with its connection pool's status. *)
Record pool_view : Type := { manager : Pool.PoolManager; status : PoolStatus }.
Record ServerPoolSnapshot : Type := {
  ss_database : bytes; ss_backend_addr : bytes; ss_protocol : bytes; ss_size : Z; ss_available : Z;
  ss_max_size : Z
}.
Record DatabaseEntry : Type := {
  en_name : bytes; en_host : bytes; en_port : Z; en_database : bytes; en_user : bytes;
  en_pool_size : Z; en_pool_key : bytes
}.

(** The handles: [cell] is what the reload closure swaps; [listening] says whether
    [run] still waits for the shutdown signal, [triggered] whether it was sent. *)
Record AdminHandles {Cell : Type} : Type := admin_handles {
  config : Config;
  pool_managers : gmap bytes pool_view;
  client_registry : ClientRegistry;
  cell : Cell;
  listening : bool;
  triggered : bool;
  aborted : list Z
}.
Arguments AdminHandles : clear implicits.
Arguments admin_handles {Cell} config pool_managers client_registry cell listening triggered aborted.

Inductive drain_wait : Type := DrainConfirmed | DrainSignalLost | DrainTimedOut.

(** *** Numbers as text *)

(** [m * 2 ^ e] times [k], to the nearest integer, ties by [tie]. *)
Definition nearest (m e k : Z) (tie : Z → bool) : Z :=
  if 0 <=? e then m * k * 2 ^ e
  else
    let d := 2 ^ (- e) in
    let q := m * k / d in
    let r := 2 * (m * k mod d) in
    if (d <? r) || ((d =? r) && tie q) then q + 1 else q.
Definition sign (s : bool) : bytes := if s then lit "-" else [].
(** [f.round().to_string()]: ties away from zero, then an integer in full. *)
Definition rounded_text (f : spec_float) : bytes :=
  match f with
  | S754_zero s => sign s ++ lit "0"
  | S754_infinity s => sign s ++ lit "inf"
  | S754_nan => lit "NaN"
  | S754_finite s m e => sign s ++ Direct.u64_to_string (nearest (Zpos m) e 1 (λ _, true))
  end.
(** [format!("{:.3}s ago", d.as_secs_f64())] of a duration in nanoseconds. *)
Definition as_secs_f64 (nanos : Z) : spec_float :=
  f64_add (f64_of (nanos / 1000000000)) (f64_div (f64_of (nanos mod 1000000000)) (f64_of 1000000000)).
Definition pad3 (z : Z) : bytes :=
  (if z <? 10 then lit "00" else if z <? 100 then lit "0" else []) ++ Direct.u64_to_string z.
Definition elapsed_text (nanos : Z) : bytes :=
  let thousandths :=
    match as_secs_f64 nanos with S754_finite _ m e => nearest (Zpos m) e 1000 Z.odd | _ => 0 end in
  Direct.u64_to_string (thousandths / 1000) ++ lit "." ++ pad3 (thousandths mod 1000) ++ lit "s ago".

Section console.
Context `{Build} `{Unicode} `{Hdr} {Cell : Type}.
(** The version of the build, and the reload closure with the text of its error. *)
Context (version : bytes) (reload_fn : Cell → Cell * option bytes).
Abbreviation AdminHandles := (AdminHandles Cell).

Definition server_snapshot (h : AdminHandles) : list ServerPoolSnapshot :=
  (λ kv : bytes * pool_view,
     {| ss_database := kv.1; ss_backend_addr := st_backend_addr (status kv.2);
        ss_protocol := st_protocol (status kv.2); ss_size := st_size (status kv.2);
        ss_available := st_available (status kv.2); ss_max_size := st_max_size (status kv.2) |})
  <$> map_to_list (pool_managers h).

Definition database_entries (c : Config) : list DatabaseEntry :=
  {| en_name := be_database (backend c); en_host := be_host (backend c); en_port := be_port (backend c);
     en_database := be_database (backend c); en_user := be_user (backend c);
     en_pool_size := pool_size (performance c); en_pool_key := lit "*" |}
  :: ((λ db, {| en_name := db_name db; en_host := db_host db; en_port := db_port db;
                en_database := db_database db; en_user := db_user db;
                en_pool_size := default (pool_size (performance c)) (db_pool_size db);
                en_pool_key := db_name db |}) <$> databases c).

Definition client_key (h : AdminHandles) (e : ClientEntry) : bytes :=
  if bool_decide (is_Some (pool_managers h !! database e)) then database e else lit "*".
Definition live_clients_per_pool_key (h : AdminHandles) : gmap bytes Z :=
  foldl (λ counts e,
           if bool_decide (state e = Admin) then counts
           else <[client_key h e := default 0 (counts !! client_key h e) + 1]> counts)
        ∅ (snapshot (client_registry h)).

Definition u64s : Z → bytes := Direct.u64_to_string.

Definition show_pools (h : AdminHandles) : AdminResponse :=
  let live := live_clients_per_pool_key h in
  RowSet
    [lit "database"; lit "user"; lit "cl_active"; lit "cl_waiting"; lit "sv_active"; lit "sv_idle";
     lit "sv_used"; lit "sv_tested"; lit "sv_login"; lit "maxwait"; lit "pool_mode"]
    ((λ e,
        let '(cl_waiting, sv_active, sv_idle) :=
          match pool_managers h !! en_pool_key e with
          | Some pm => (WQ.depth (Pool.wait_queue (manager pm)),
                        Z.max 0 (st_size (status pm) - st_available (status pm)),
                        st_available (status pm))
          | None => (0, 0, 0)
          end in
        [en_name e; en_user e; u64s (default 0 (live !! en_pool_key e)); u64s cl_waiting;
         u64s sv_active; u64s sv_idle; lit "0"; lit "0"; lit "0"; lit "0";
         pool_mode_str (connection_pooling (performance (config h)))])
     <$> database_entries (config h)).

(** The metrics are the process's, reported under the default database. *)
Definition show_stats (h : AdminHandles) (m : Metrics.ProxyMetrics) (uptime_secs : Z) : AdminResponse :=
  let total_queries := Metrics.total_queries (Metrics.query m) in
  let mean := Metrics.mean_micros (Metrics.get_latency_percentiles (Metrics.query m)) in
  let avg_queries_per_sec := total_queries / Z.max 1 uptime_secs in
  let total_time_us := Acquire.u64_of_f64 (Acquire.f64_mul mean (f64_of total_queries)) in
  RowSet
    [lit "database"; lit "total_xact_count"; lit "total_query_count"; lit "total_received";
     lit "total_sent"; lit "total_xact_time"; lit "total_query_time"; lit "total_wait_time";
     lit "avg_xact_count"; lit "avg_query_count"; lit "avg_recv"; lit "avg_sent"; lit "avg_xact_time";
     lit "avg_query_time"; lit "avg_wait_time"]
    [[be_database (backend (config h)); u64s total_queries; u64s total_queries; lit "0"; lit "0";
      u64s total_time_us; u64s total_time_us; lit "0"; u64s avg_queries_per_sec;
      u64s avg_queries_per_sec; lit "0"; lit "0"; rounded_text mean; rounded_text mean; lit "0"]].

Definition show_databases (h : AdminHandles) : AdminResponse :=
  let live := live_clients_per_pool_key h in
  RowSet
    [lit "name"; lit "host"; lit "port"; lit "database"; lit "force_user"; lit "pool_size";
     lit "reserve_pool"; lit "pool_mode"; lit "max_connections"; lit "current_connections";
     lit "paused"; lit "disabled"]
    ((λ e,
        let pm := pool_managers h !! en_pool_key e in
        let size := default (en_pool_size e) ((λ p, st_max_size (status p)) <$> pm) in
        let paused := default false ((λ p, negb (Pool.is_accepting (manager p))) <$> pm) in
        [en_name e; en_host e; u64s (en_port e); en_database e; []; u64s size; lit "0";
         pool_mode_str (connection_pooling (performance (config h)));
         u64s (max_connections (proxy (config h))); u64s (default 0 (live !! en_pool_key e));
         if paused : bool then lit "1" else lit "0"; lit "0"])
     <$> database_entries (config h)).

Definition by_conn_id (a b : ClientEntry) : Prop := conn_id a ≤ conn_id b.
#[local] Instance by_conn_id_dec a b : Decision (by_conn_id a b).
Proof. unfold by_conn_id. apply _. Defined.

Definition connection_columns : list bytes :=
  [lit "type"; lit "user"; lit "database"; lit "state"; lit "addr"; lit "port"; lit "local_addr";
   lit "local_port"; lit "connect_time"; lit "request_time"; lit "wait"; lit "wait_us";
   lit "close_needed"; lit "ptr"; lit "link"; lit "remote_pid"; lit "tls"].

Definition show_clients (h : AdminHandles) (now : Z) : AdminResponse :=
  let '(local_addr, local_port) := split_host_port (listen_address (proxy (config h))) in
  let entries := merge_sort by_conn_id (snapshot (client_registry h)) in
  RowSet connection_columns
    ((λ e,
        let '(addr, port) := split_host_port (Registry.addr e) in
        [lit "C"; Registry.user e; Registry.database e; client_state_str (state e); addr; port;
         local_addr; local_port; elapsed_text (Timeline.duration_since now (connect_time e));
         elapsed_text (Timeline.duration_since now (last_request_time e)); lit "0"; lit "0"; lit "0"; lit "0"; []; lit "0";
         if Registry.tls e then lit "1" else lit "0"])
     <$> entries).

Definition show_servers (h : AdminHandles) : AdminResponse :=
  let names : gmap bytes (bytes * bytes) :=
    foldl (λ m e, <[en_pool_key e := (en_name e, en_user e)]> m) ∅ (database_entries (config h)) in
  RowSet connection_columns
    ((λ snap,
        let '(addr, port) := split_host_port (ss_backend_addr snap) in
        let '(database, user) := default (ss_database snap, []) (names !! ss_database snap) in
        [lit "S"; user; database; if 0 <? ss_available snap then lit "idle" else lit "active"; addr;
         port; []; lit "0"; []; []; lit "0"; lit "0"; lit "0"; lit "0"; []; lit "0"; lit "0"])
     <$> server_snapshot h).

Definition show_version : AdminResponse := RowSet [lit "version"] [[lit "Scry " ++ version]].

(** A secret is shown as present or not. *)
Definition redacted : bytes := lit "<redacted>".
Definition opt_secret_str (v : option bytes) : bytes :=
  match v with Some _ => redacted | None => lit "<unset>" end.
Definition required_secret_str (v : bytes) : bytes :=
  match v with [] => lit "<unset>" | _ => redacted end.

(** The keys of [SHOW CONFIG] with how each is read from a configuration. *)
Definition config_keys : list (bytes * (Config → bytes)) :=
  [(lit "pool_mode", λ c, pool_mode_str (connection_pooling (performance c)));
   (lit "max_client_conn", λ c, u64s (max_connections (proxy c)));
   (lit "default_pool_size", λ c, u64s (pool_size (performance c)));
   (lit "proxy.listen_address", λ c, listen_address (proxy c));
   (lit "proxy.shutdown_timeout_secs", λ c, u64s (shutdown_timeout_secs (proxy c)));
   (lit "backend.host", λ c, be_host (backend c));
   (lit "backend.port", λ c, u64s (be_port (backend c)));
   (lit "backend.database", λ c, be_database (backend c));
   (lit "backend.user", λ c, be_user (backend c));
   (lit "backend.password", λ c, required_secret_str (be_password (backend c)));
   (lit "performance.pool_min_idle", λ c, u64s (pool_min_idle (performance c)));
   (lit "performance.pool_timeout_secs", λ c, u64s (pool_timeout_secs (performance c)));
   (lit "performance.query_timeout_secs", λ c, u64s (query_timeout_secs (performance c)));
   (lit "tls.client_tls_sslmode", λ c, tls_mode_str (client_tls_sslmode (tls c)));
   (lit "tls.server_tls_sslmode", λ c, tls_mode_str (server_tls_sslmode (tls c)));
   (lit "auth.auth_type", λ c, auth_type_str (auth_type (auth c)));
   (lit "auth.allow_trust", λ c, bool_str (allow_trust (auth c)));
   (lit "admin.enabled", λ c, bool_str (admin_enabled (admin c)));
   (lit "admin.admin_password", λ c, opt_secret_str (admin_password (admin c)));
   (lit "observability.enable_metrics_server", λ c, bool_str (enable_metrics_server (observability c)));
   (lit "observability.metrics_server_address", λ c, metrics_server_address (observability c));
   (lit "observability.metrics_allow_non_loopback",
      λ c, bool_str (metrics_allow_non_loopback (observability c)));
   (lit "observability.enable_debug_endpoints",
      λ c, bool_str (enable_debug_endpoints (observability c)));
   (lit "publisher.enabled", λ c, bool_str (pub_enabled (publisher c)));
   (lit "publisher.publisher_type", λ c, publisher_type (publisher c));
   (lit "publisher.http_endpoint", λ c, opt_str (http_endpoint (publisher c)));
   (lit "publisher.http_api_key", λ c, opt_secret_str (http_api_key (publisher c)));
   (lit "publisher.anonymize", λ c, bool_str (pub_anonymize (publisher c)));
   (lit "publisher.anonymize_salt", λ c, opt_secret_str (anonymize_salt (publisher c)));
   (lit "resilience.circuit_breaker.enabled",
      λ c, bool_str (CB.enabled (circuit_breaker (resilience c))));
   (lit "resilience.healthcheck.active_enabled",
      λ c, bool_str (active_enabled (healthcheck (resilience c))))].
Definition show_config (h : AdminHandles) : AdminResponse :=
  RowSet [lit "key"; lit "value"; lit "default"; lit "changeable"]
    ((λ kf, [kf.1; kf.2 (config h); kf.2 default_config; bool_str false]) <$> config_keys).

(** *** Commands that act *)
Definition with_pools (p : gmap bytes pool_view) (h : AdminHandles) : AdminHandles :=
  admin_handles (config h) p (client_registry h) (cell h) (listening h) (triggered h) (aborted h).
Definition on_manager (f : Pool.PoolManager → Pool.PoolManager) (v : pool_view) : pool_view :=
  {| manager := f (manager v); status := status v |}.

(** The key of the pool a name resolves to. *)
Definition resolve_pool_manager (h : AdminHandles) (db : bytes) : option bytes :=
  match pool_managers h !! db with
  | Some _ => Some db
  | None =>
      e ← list_find (λ e, Str.eq_ignore_ascii_case (en_name e) db = true) (database_entries (config h));
      match pool_managers h !! en_pool_key e.2 with
      | Some _ => Some (en_pool_key e.2)
      | None => None
      end
  end.

Definition no_such_database (db : bytes) : AdminResponse := Error (lit "no such database: " ++ db).
Definition gate (f : Pool.PoolManager → Pool.PoolManager) (tag : bytes) (h : AdminHandles)
    (database : option bytes) : AdminHandles * AdminResponse :=
  match database with
  | Some db =>
      match resolve_pool_manager h db with
      | Some key => (with_pools (alter (on_manager f) key (pool_managers h)) h, CommandComplete tag)
      | None => (h, no_such_database db)
      end
  | None => (with_pools (on_manager f <$> pool_managers h) h, CommandComplete tag)
  end.
Definition pause (h : AdminHandles) : option bytes → AdminHandles * AdminResponse :=
  gate Pool.pause (lit "PAUSE") h.
Definition resume (h : AdminHandles) : option bytes → AdminHandles * AdminResponse :=
  gate Pool.resume (lit "RESUME") h.

Definition reload (h : AdminHandles) : AdminHandles * AdminResponse :=
  let '(c, err) := reload_fn (cell h) in
  (admin_handles (config h) (pool_managers h) (client_registry h) c (listening h) (triggered h)
     (aborted h),
   match err with
   | None => CommandComplete (lit "RELOAD")
   | Some e => Error (lit "reload failed: " ++ e)
   end).

Definition trigger_shutdown (h : AdminHandles) : AdminHandles * bool :=
  (admin_handles (config h) (pool_managers h) (client_registry h) (cell h) (listening h)
     (triggered h || listening h) (aborted h), listening h).
Definition shutdown (h : AdminHandles) (wait : bool) (drain : drain_wait)
    : outcome (AdminHandles * AdminResponse) :=
  let '(h, sent) := trigger_shutdown h in
  if negb sent then
    Ret (h, Error (lit "shutdown already in progress (or the server is no longer accepting the shutdown signal)"))
  else if negb wait then Ret (h, CommandComplete (lit "SHUTDOWN"))
  else
    bound ← u64_add (shutdown_timeout_secs (proxy (config h))) 2;
    Ret (h, match drain with
            | DrainConfirmed => CommandComplete (lit "SHUTDOWN")
            | DrainSignalLost =>
                Error (lit "shutdown initiated but drain completion signal was lost before confirming within "
                       ++ u64s bound ++ lit "s (drain proceeding in background)")
            | DrainTimedOut =>
                Error (lit "shutdown initiated but drain did not complete within "
                       ++ u64s bound ++ lit "s (drain proceeding in background)")
            end).

Definition kill (h : AdminHandles) (database : option bytes) : AdminHandles * AdminResponse :=
  match database with
  | None => (h, Error (lit "KILL requires a database name (usage: KILL <db>)"))
  | Some db =>
      if negb (existsb (λ e, Str.eq_ignore_ascii_case (en_name e) db
                             || Str.eq_ignore_ascii_case (en_pool_key e) db)
                       (database_entries (config h)))
      then (h, no_such_database db)
      else
        let '(r, gone, killed) := kill_by_database db (client_registry h) in
        (admin_handles (config h) (pool_managers h) r (cell h) (listening h) (triggered h)
           (aborted h ++ gone),
         CommandComplete (lit "KILL " ++ u64s (zlen killed)))
  end.

(** [execute]; an unknown command is an error the caller reports. *)
Definition execute (h : AdminHandles) (m : Metrics.ProxyMetrics) (uptime_secs now : Z)
    (drain : drain_wait) (sql : bytes) : outcome (AdminHandles * (AdminResponse + bytes)) :=
  let answer r := Ret (h, inl r) in
  let acted p := Ret (p.1, inl p.2) in
  match parse sql with
  | None => Ret (h, inr (lit "Unknown admin command: " ++ sql))
  | Some ShowPools => answer (show_pools h)
  | Some ShowStats => answer (show_stats h m uptime_secs)
  | Some ShowDatabases => answer (show_databases h)
  | Some ShowClients => answer (show_clients h now)
  | Some ShowServers => answer (show_servers h)
  | Some ShowVersion => answer show_version
  | Some ShowConfig => answer (show_config h)
  | Some (Pause database) => acted (pause h database)
  | Some (Resume database) => acted (resume h database)
  | Some Reload => acted (reload h)
  | Some (Shutdown wait) => r ← shutdown h wait drain; Ret (r.1, inl r.2)
  | Some (Kill database) => acted (kill h database)
  end.

(** ** Rows and columns *)
Definition fits (r : AdminResponse) : Prop :=
  match r with RowSet columns rows => Forall (λ row, length row = length columns) rows | _ => True end.
Lemma fits_map {A} columns (f : A → list bytes) (l : list A) :
  (∀ x, length (f x) = length columns) → fits (RowSet columns (f <$> l)).
Proof. intros Hf. by apply Forall_fmap, Forall_true. Qed.
Lemma fits_clients h now : fits (show_clients h now).
Proof.
  unfold show_clients. destruct (split_host_port _) as [la lp]. apply fits_map. intros e.
  by destruct (split_host_port (Registry.addr e)).
Qed.
Lemma fits_servers h : fits (show_servers h).
Proof.
  apply fits_map. intros e. destruct (split_host_port (ss_backend_addr e)). by destruct (default _ _).
Qed.
Lemma fits_gate f tag h database : fits (gate f tag h database).2.
Proof. unfold gate. destruct database as [db|]; [|done]. by destruct (resolve_pool_manager h db). Qed.
Lemma fits_shutdown h wait drain r : shutdown h wait drain = Ret r → fits r.2.
Proof.
  unfold shutdown, trigger_shutdown. destruct (negb _); [by intros [= <-]|].
  destruct (negb _); [by intros [= <-]|]. intros (b & _ & Hr)%outcome_bind_Ret. injection Hr as <-.
  by destruct drain.
Qed.
Lemma fits_kill h database : fits (kill h database).2.
Proof.
  unfold kill. destruct database as [db|]; [|done]. destruct (negb _); [done|].
  by destruct (kill_by_database db (client_registry h)) as [[r gone] killed].
Qed.

(** C40. Every table the console answers with is one: each row has a value for
    each column, whatever the configuration, the pools and the clients. *)
Theorem admin_rows_fit h m uptime now drain sql h' columns rows :
  execute h m uptime now drain sql = Ret (h', inl (RowSet columns rows)) →
  Forall (λ row, length row = length columns) rows.
Proof.
  enough (Hall : ∀ r, execute h m uptime now drain sql = Ret (h', inl r) → fits r)
    by (intros Hr; apply (Hall _ Hr)).
  intros r. unfold execute.
  destruct (parse sql) as [[]|]; [..|by intros [=]]; try (intros [= <- <-]);
    try (apply fits_clients); try (apply fits_servers); try (apply fits_gate); try (apply fits_kill);
    try (apply fits_map; intros e; by repeat case_match).
  - by repeat constructor.
  - by repeat constructor.
  - unfold reload. by destruct (reload_fn (cell h)) as [c []].
  - intros ([h1 r1] & Hs & Hr)%outcome_bind_Ret. injection Hr as <- <-. by apply fits_shutdown in Hs.
Qed.

(** ** Secrets stay inside *)

(** A configuration with its secrets blotted out: what is left of a password, a key
    or a salt is whether there is one. *)
Definition blot (v : option bytes) : option bytes := (λ _, []) <$> v.
Definition hide_backend (b : BackendConfig) : BackendConfig :=
  {| protocol_ := protocol_ b; be_host := be_host b; be_port := be_port b;
     be_database := be_database b; be_user := be_user b;
     be_password := match be_password b with [] => [] | _ => [x2a] end;
     password_file := password_file b; be_pool_size := be_pool_size b;
     connection_timeout_ms := connection_timeout_ms b |}.
Definition hide_database (d : DatabaseConfig) : DatabaseConfig :=
  {| db_name := db_name d; db_host := db_host d; db_port := db_port d; db_database := db_database d;
     db_user := db_user d; db_password := []; db_pool_size := db_pool_size d |}.
Definition hide_publisher (p : PublisherConfig) : PublisherConfig :=
  {| pub_enabled := pub_enabled p; batch_size := batch_size p; flush_interval_ms := flush_interval_ms p;
     pub_anonymize := pub_anonymize p; publisher_type := publisher_type p;
     max_queue_size := max_queue_size p; http_endpoint := http_endpoint p;
     http_timeout_ms := http_timeout_ms p; http_max_retries := http_max_retries p;
     http_api_key := blot (http_api_key p); http_compression := http_compression p;
     cfg_shadow_id := cfg_shadow_id p; allow_insecure := allow_insecure p;
     anonymize_salt := blot (anonymize_salt p); parse_failure_mode := parse_failure_mode p |}.
Definition hide_admin (a : AdminConfig) : AdminConfig :=
  {| admin_enabled := admin_enabled a; admin_users := admin_users a;
     admin_password := blot (admin_password a) |}.
Definition hide (c : Config) : Config :=
  Conf.config (proxy c) (hide_backend (backend c)) (hide_database <$> databases c) (observability c)
    (protocol c) (hide_publisher (publisher c)) (performance c) (resilience c) (tls c) (auth c)
    (hide_admin (admin c)).
Definition with_config (c : Config) (h : AdminHandles) : AdminHandles :=
  admin_handles c (pool_managers h) (client_registry h) (cell h) (listening h) (triggered h) (aborted h).

Lemma entries_hide c : database_entries (hide c) = database_entries c.
Proof. unfold database_entries. cbn. f_equal. by rewrite <-list_fmap_compose. Qed.
Lemma keys_hide c :
  (λ kf : bytes * (Config → bytes), kf.2 (hide c)) <$> config_keys = (λ kf, kf.2 c) <$> config_keys.
Proof.
  unfold config_keys. cbn [fmap list_fmap fst snd].
  assert (Hp : required_secret_str (be_password (backend (hide c)))
               = required_secret_str (be_password (backend c))) by (cbn; by destruct (be_password _)).
  assert (Ho : ∀ o, opt_secret_str (blot o) = opt_secret_str o) by (by intros []).
  rewrite Hp. cbn. by rewrite !Ho.
Qed.
Lemma resolve_hide h db : resolve_pool_manager (with_config (hide (config h)) h) db = resolve_pool_manager h db.
Proof. unfold resolve_pool_manager. cbn [pool_managers config with_config]. by rewrite entries_hide. Qed.
Lemma gate_hide f tag h database :
  gate f tag (with_config (hide (config h)) h) database
  = (with_config (hide (config h)) (gate f tag h database).1, (gate f tag h database).2).
Proof.
  unfold gate. destruct database as [db|]; [|done]. rewrite resolve_hide.
  by destruct (resolve_pool_manager h db).
Qed.
Lemma kill_hide h database :
  kill (with_config (hide (config h)) h) database
  = (with_config (hide (config h)) (kill h database).1, (kill h database).2).
Proof.
  unfold kill. destruct database as [db|]; [|done]. cbn [config with_config]. rewrite entries_hide.
  destruct (negb _); [done|]. cbn [client_registry with_config].
  by destruct (kill_by_database db (client_registry h)) as [[r gone] killed].
Qed.
Lemma show_config_hide h : show_config (with_config (hide (config h)) h) = show_config h.
Proof.
  unfold show_config. cbn [config with_config]. f_equal. pose proof (keys_hide (config h)) as Hk.
  revert Hk. generalize config_keys as l. induction l as [|[k f] l IH]; [done|]. cbn.
  intros [= -> Hl]. f_equal. by apply IH.
Qed.

Lemma execute_hide h m uptime now drain sql :
  execute (with_config (hide (config h)) h) m uptime now drain sql
  = (λ r, (with_config (hide (config h)) r.1, r.2)) <$> execute h m uptime now drain sql.
Proof.
  unfold execute. destruct (parse sql) as [[]|]; try done.
  - unfold show_pools. cbn [config with_config]. by rewrite entries_hide.
  - unfold show_databases. cbn [config with_config]. by rewrite entries_hide.
  - unfold show_servers. cbn [config with_config]. by rewrite entries_hide.
  - by rewrite show_config_hide.
  - unfold pause. by rewrite gate_hide.
  - unfold resume. by rewrite gate_hide.
  - unfold reload. cbn [cell with_config]. by destruct (reload_fn (cell h)) as [c []].
  - unfold shutdown, trigger_shutdown. cbn [listening with_config]. destruct (listening h); [|done].
    destruct wait; [|done]. cbn [negb config with_config proxy hide].
    by destruct (u64_add (shutdown_timeout_secs (proxy (config h))) 2).
  - by rewrite kill_hide.
Qed.

Lemma execute_config h m uptime now drain sql h1 r :
  execute h m uptime now drain sql = Ret (h1, r) → config h1 = config h.
Proof.
  unfold execute. destruct (parse sql) as [[| | | | | | |o|o| |w|o]|]; try (by intros [= <- _]).
  - unfold pause, gate. destruct o as [db|]; [destruct (resolve_pool_manager h db)|]; by intros [= <- _].
  - unfold resume, gate. destruct o as [db|]; [destruct (resolve_pool_manager h db)|]; by intros [= <- _].
  - unfold reload. destruct (reload_fn (cell h)). by intros [= <- _].
  - intros ([h2 r1] & Hs & Hr)%outcome_bind_Ret. injection Hr as <- _. revert Hs.
    unfold shutdown, trigger_shutdown. destruct (negb _); [by intros [= <- _]|].
    destruct (negb _); [by intros [= <- _]|]. intros (b & _ & Hr)%outcome_bind_Ret. by injection Hr as <- _.
  - unfold kill. destruct o as [db|]; [|by intros [= <- _]]. destruct (negb _); [by intros [= <- _]|].
    destruct (kill_by_database db (client_registry h)) as [[? ?] ?]. by intros [= <- _].
Qed.

(** C22. No command reveals a secret: under two configurations that differ only in
    passwords, the API key and the salt (where both have one), the console answers
    every command alike and does the same to the pools, the registry and the
    rest. *)
Theorem admin_hides_secrets h c m uptime now drain sql :
  hide c = hide (config h) →
  match execute (with_config c h) m uptime now drain sql, execute h m uptime now drain sql with
  | Ret (h1, r), Ret (h2, r') => r = r' ∧ h1 = with_config c h2
  | Panic, Panic => True
  | Diverge, Diverge => True
  | _, _ => False
  end.
Proof.
  intros Hc. pose proof (execute_hide h m uptime now drain sql) as He.
  pose proof (execute_hide (with_config c h) m uptime now drain sql) as He'.
  pose proof (execute_config (with_config c h) m uptime now drain sql) as Hk.
  change (with_config (hide (config (with_config c h))) (with_config c h))
    with (with_config (hide c) h) in He'. change (config (with_config c h)) with c in *.
  rewrite Hc, He in He'.
  destruct (execute (with_config c h) m uptime now drain sql) as [[h1 r]| |],
    (execute h m uptime now drain sql) as [[h2 r']| |]; try done.
  injection He'. specialize (Hk h1 r eq_refl). destruct h1, h2. cbn in *. by intros -> -> -> -> -> -> ->; subst.
Qed.

(** ** Pausing and resuming *)
Definition targets (h : AdminHandles) (database : option bytes) (key : bytes) : bool :=
  match database with
  | None => true
  | Some db => bool_decide (resolve_pool_manager h db = Some key)
  end.

Lemma gate_pools f tag h database key :
  pool_managers (gate f tag h database).1 !! key
  = (λ v, if targets h database key then on_manager f v else v) <$> pool_managers h !! key.
Proof.
  unfold gate, targets. destruct database as [db|];
    [|cbn [fst pool_managers with_pools]; by rewrite lookup_fmap].
  destruct (resolve_pool_manager h db) as [k|] eqn:Hr; cbn [fst pool_managers with_pools].
  - destruct (decide (k = key)) as [->|Hne].
    + rewrite lookup_alter_eq. by rewrite bool_decide_eq_true_2.
    + rewrite lookup_alter_ne by done. rewrite bool_decide_eq_false_2 by congruence.
      by destruct (pool_managers h !! key).
  - rewrite bool_decide_eq_false_2 by done. by destruct (pool_managers h !! key).
Qed.
Lemma gate_targets f tag h database key :
  targets (gate f tag h database).1 database key = targets h database key.
Proof.
  unfold targets. destruct database as [db|]; [|done]. f_equal. f_equal.
  assert (Hsome : ∀ k, is_Some (pool_managers (gate f tag h (Some db)).1 !! k) ↔ is_Some (pool_managers h !! k)).
  { intros k. rewrite gate_pools. apply fmap_is_Some. }
  assert (Hcfg : config (gate f tag h (Some db)).1 = config h).
  { unfold gate. by destruct (resolve_pool_manager h db). }
  set (h1 := (gate f tag h (Some db)).1) in *.
  assert (Hm : ∀ k (A : Type) (x y : A), match pool_managers h1 !! k with Some _ => x | None => y end
                               = match pool_managers h !! k with Some _ => x | None => y end).
  { intros k A x y. specialize (Hsome k). destruct (pool_managers h1 !! k), (pool_managers h !! k);
      [done|by destruct (proj1 Hsome (mk_is_Some _ _ eq_refl))|by destruct (proj2 Hsome (mk_is_Some _ _ eq_refl))|done]. }
  unfold resolve_pool_manager. rewrite Hcfg, Hm. destruct (pool_managers h !! db); [done|].
  destruct (list_find _ _) as [[i e]|]; [|done]. cbn. by rewrite Hm.
Qed.

(** PAUSE and RESUME act on what was named: a named database's pool, found by
    its key or its client-facing name, or every pool when none is named, and no
    other; an unknown name is refused and changes nothing.  After PAUSE the pools
    meant accept no acquisition, and the RESUME of the same name makes them accept
    again and leaves the others as they were. *)
Lemma pause_exact h database :
  let h1 := (pause h database).1 in
  let h2 := (resume h1 database).1 in
  (∀ key v, pool_managers h !! key = Some v →
     ∃ v1 v2, pool_managers h1 !! key = Some v1 ∧ pool_managers h2 !! key = Some v2 ∧
       if targets h database key
       then Pool.is_accepting (manager v1) = false ∧ Pool.is_accepting (manager v2) = true
       else v1 = v ∧ v2 = v) ∧
  ((∃ msg, (pause h database).2 = Error msg) ↔ ∃ db, database = Some db ∧ resolve_pool_manager h db = None) ∧
  (∀ db, database = Some db → resolve_pool_manager h db = None → h1 = h).
Proof.
  cbn zeta. split_and!.
  - intros key v Hv. unfold pause, resume. rewrite !gate_pools, gate_targets, Hv. cbn [fmap option_fmap option_map].
    eexists _, _. split_and!; [done|done|]. destruct (targets h database key); [|done]. split; [done|].
    cbn. unfold Pool.resume, Pool.notify. by repeat case_match.
  - unfold pause, gate. destruct database as [db|]; [destruct (resolve_pool_manager h db) eqn:Hr|].
    + split; [by intros [msg [=]]|]. intros (db' & [= ->] & Hn). congruence.
    + split; [eauto|]. intros _. eexists. done.
    + split; [by intros [msg [=]]|]. by intros (db & [=] & _).
  - intros db -> Hr. unfold pause, gate. by rewrite Hr.
Qed.
End console.
End Console.

(** ** From a connection to its handler (proxy/server.rs) *)
Module Session.
Import Registry Response Console.

Inductive destination {A : Type} : Type := ToAdmin | ToHandler (pool_manager : option A).
Arguments destination : clear implicits.
Arguments ToAdmin {A}.
Arguments ToHandler {A} _.

Section session.
Context `{Build}.

(** What a TCP connection has said before it is handled: its start-up message, and
    whether it came over TLS; nothing when the connection is given up. *)
Definition tcp_startup (sslmode : Conf.TlsSslMode) (tls_config accepted : bool)
    (stream tls_stream : bytes) : outcome (list bytes * option (bytes * bool)) :=
  r ← Tls.handle_ssl_startup sslmode tls_config accepted stream;
  Ret (r.1, match r.2 with
            | inl Tls.Upgraded =>
                match Startup.read_startup_message tls_stream with
                | inr (data, _) => Some (data, true)
                | inl _ => None
                end
            | inl (Tls.Declined startup_data _) => Some (startup_data, false)
            | inl (Tls.NoSslRequest startup_data _) => Some (startup_data, false)
            | inl Tls.Rejected => None
            | inr _ => None
            end).

Definition identify (startup_data : bytes) : outcome (option bytes * option bytes * bool) :=
  match startup_data with
  | [] => Ret (None, None, false)
  | _ =>
      m ← Auth.StartupMessage_parse startup_data;
      Ret (match m with
           | Some m =>
               let db := Auth.database m in
               (db, Auth.user m,
                match db with Some d => Str.eq_ignore_ascii_case d ADMIN_DATABASE | None => false end)
           | None => (None, None, false)
           end)
  end.

(** The entry registered and where the connection goes. *)
Definition handle_client_connection {A} (pools : gmap bytes A) (client_addr : option bytes) (id : Z)
    (startup_data : bytes) (tls : bool) (now : Z) : outcome (ClientEntry * destination A) :=
  i ← identify startup_data;
  let '(database_name, user_name, is_admin) := i in
  Ret (entry id (default (lit "unix") client_addr) (default [] user_name) (default [] database_name)
         (if (is_admin : bool) then Admin else Active) now now tls,
       if is_admin then ToAdmin else ToHandler (Routing.select_pool pools database_name)).

Lemma identify_exact data db user adm :
  identify data = Ret (db, user, adm) →
  (adm = true ↔ ∃ m d, Auth.StartupMessage_parse data = Ret (Some m) ∧ Auth.database m = Some d ∧
                  Str.eq_ignore_ascii_case d ADMIN_DATABASE = true) ∧
  (∀ m, Auth.StartupMessage_parse data = Ret (Some m) → db = Auth.database m).
Proof.
  destruct data as [|b data]; cbn [identify].
  { intros [= <- <- <-]. split; [split; [done|]; intros (m & d & Hp & _)|intros m Hp];
      by vm_compute in Hp. }
  intros (m & Hp & Hr)%outcome_bind_Ret. rewrite Hp. destruct m as [m|]; injection Hr as <- <- <-.
  - split; [|by intros m' [= ->]]. destruct (Auth.database m) as [d|] eqn:Hd; split; try done; eauto.
    + intros (m' & d' & [= <-] & Hd' & Ha). congruence.
    + intros (m' & d' & [= <-] & Hd' & Ha). congruence.
  - split; [split; [done|]; by intros (m' & d' & [=] & _)|done].
Qed.

(** A session is what its start-up message says: a client is registered as
    over TLS when it is, and always is where the mode requires it; it reaches the
    console exactly when it names the admin database, in any case, and is listed as
    such; otherwise it gets the pool of the database it names, or the default. *)
Lemma session_start_exact {A} (pools : gmap bytes A) sslmode cfg acc stream tls_stream sent data tls
    addr id now e dest :
  tcp_startup sslmode cfg acc stream tls_stream = Ret (sent, Some (data, tls)) →
  handle_client_connection pools (Some addr) id data tls now = Ret (e, dest) →
  conn_id e = id ∧ Registry.tls e = tls ∧
  (Conf.requires_encryption sslmode = true → tls = true) ∧
  (state e = Admin ↔ dest = ToAdmin) ∧
  (dest = ToAdmin ↔ ∃ m db, Auth.StartupMessage_parse data = Ret (Some m) ∧ Auth.database m = Some db ∧
                      Str.eq_ignore_ascii_case db ADMIN_DATABASE = true) ∧
  (∀ pool m, dest = ToHandler pool → Auth.StartupMessage_parse data = Ret (Some m) →
     pool = Routing.select_pool pools (Auth.database m)).
Proof.
  intros Ht Hh.
  assert (Htls : Conf.requires_encryption sslmode = true → tls = true).
  { intros Hreq. revert Ht. unfold tcp_startup. intros ([clear r] & Hs & Hr)%outcome_bind_Ret.
    cbn [fst snd] in Hr. destruct r as [r|err]; [|by injection Hr].
    destruct (Tls.no_plaintext_when_required _ _ _ _ _ _ Hreq Hs) as [-> | ->]; [|by injection Hr].
    destruct (Startup.read_startup_message tls_stream) as [|[? ?]]; [by injection Hr|]. by injection Hr as _ _ <-. }
  revert Hh. unfold handle_client_connection. intros ([[db user] adm] & Hi & Hr)%outcome_bind_Ret.
  injection Hr as <- <-. apply identify_exact in Hi as [Ha Hdb].
  split_and!; [done|done|done|by destruct adm| |].
  - rewrite <-Ha. by destruct adm.
  - intros pool m Hd Hm. rewrite <-(Hdb m Hm). destruct adm; [done|]. by injection Hd as <-.
Qed.
End session.

(** *** The console's session *)
Definition constant_time_eq (a b : bytes) : bool :=
  if negb (length a =? length b)%nat then false
  else foldl Z.lor 0 (zip_with (λ x y, Z.lxor (byte_Z x) (byte_Z y)) a b) =? 0.

Lemma foldl_lor_zero acc l : foldl Z.lor acc l = 0 ↔ acc = 0 ∧ Forall (λ z, z = 0) l.
Proof.
  revert acc. induction l as [|z l IH]; intros acc; cbn [foldl].
  - split; [intros ->; auto|by intros [-> _]].
  - rewrite IH, Z.lor_eq_0_iff, Forall_cons. tauto.
Qed.
Lemma xor_zip_zero a b :
  length a = length b →
  Forall (λ z, z = 0) (zip_with (λ x y, Z.lxor (byte_Z x) (byte_Z y)) a b) ↔ a = b.
Proof.
  revert b. induction a as [|x a IH]; intros [|y b] Hl; try discriminate Hl; cbn [zip_with]; [by split|].
  rewrite Forall_cons, (IH b) by (cbn in Hl; lia). rewrite Z.lxor_eq_0_iff. split.
  - intros [Hx ->]. by apply byte_Z_inj in Hx as ->.
  - by intros [= -> ->].
Qed.
Lemma constant_time_eq_spec a b : constant_time_eq a b = bool_decide (a = b).
Proof.
  unfold constant_time_eq. destruct (Nat.eqb_spec (length a) (length b)) as [Hl|Hl]; cbn [negb].
  - pose proof (foldl_lor_zero 0 (zip_with (λ x y, Z.lxor (byte_Z x) (byte_Z y)) a b)) as Hf.
    rewrite (xor_zip_zero a b Hl) in Hf. case_bool_decide as Hab.
    + apply Z.eqb_eq. by apply Hf.
    + apply Z.eqb_neq. intros [_ ?]%Hf. done.
  - rewrite bool_decide_eq_false_2; [done|]. by intros ->.
Qed.

(** What the console asks of the clock, the metrics and the drain at each query. *)
Record environment `{Hdr} : Type := env {
  env_metrics : Metrics.ProxyMetrics; env_uptime : Z; env_now : Z; env_drain : drain_wait
}.

Section gate.
Context `{Build} `{Unicode} `{Hdr} {Cell : Type}.
Context (version : bytes) (reload_fn : Cell → Cell * option bytes).
Abbreviation AdminHandles := (Console.AdminHandles Cell).

(** One read of the loop: the reply, and whether the session goes on. *)
Definition admin_read (h : AdminHandles) (e : environment) (buffer : bytes)
    : outcome (AdminHandles * option bytes * bool) :=
  match buffer with
  | [] => Ret (h, None, false)
  | t :: _ =>
      if beqb t x51 then
        if zlen buffer <? 5 then Ret (h, None, true)
        else
          length_ ← as_usize <$> i32_at buffer 1;
          total ← (a ← u64_add 5 length_; u64_sub a 4);
          if zlen buffer <? total then Ret (h, None, true)
          else
            query_end ← u64_sub total 1;
            query ← sub buffer 5 query_end;
            r ← execute version reload_fn h (env_metrics e) (env_uptime e) (env_now e) (env_drain e)
                  (Str.from_utf8_lossy query);
            let '(h, resp) := r in
            Ret (h, Some (to_wire (match resp with inl resp => resp | inr e => Error e end)), true)
      else if beqb t x58 then Ret (h, None, false)
      else Ret (h, None, true)
  end.

Fixpoint admin_loop (h : AdminHandles) (reads : list (bytes * environment))
    : outcome (AdminHandles * list bytes) :=
  match reads with
  | [] => Ret (h, [])
  | (buffer, e) :: reads =>
      r ← admin_read h e buffer;
      let '(h, reply, go_on) := r in
      if negb go_on then Ret (h, option_list reply)
      else
        rest ← admin_loop h reads;
        Ret (rest.1, option_list reply ++ rest.2)
  end.

(** The password the console asks for, if it can be reached at all. *)
Definition expected_password (a : Conf.AdminConfig) : option bytes :=
  match Conf.admin_enabled a, Conf.admin_password a with
  | true, Some (b :: pw) => Some (b :: pw)
  | _, _ => None
  end.
Definition refusal : bytes :=
  Auth.build_error_response (lit "FATAL") (lit "28000")
    (lit "administrative console is disabled on this server").
Definition wrong_password : bytes :=
  Auth.build_error_response (lit "FATAL") (lit "28P01") (lit "admin authentication failed").

(** [auth_read] is what the one read of the password returns, if it succeeds. *)
Definition handle_admin_connection (h : AdminHandles) (auth_read : option bytes)
    (reads : list (bytes * environment)) : outcome (AdminHandles * list bytes) :=
  match expected_password (Conf.admin (config h)) with
  | None => Ret (h, [refusal])
  | Some expected =>
      match auth_read with
      | None => Ret (h, [Auth.build_auth_cleartext_password])
      | Some auth_buf =>
          provided ← Auth.parse_password_message auth_buf;
          if match provided with Some p => constant_time_eq p expected | None => false end then
            r ← admin_loop h reads;
            Ret (r.1, [Auth.build_auth_cleartext_password; Auth.build_auth_ok; build_ready_for_query]
                      ++ r.2)
          else Ret (h, [Auth.build_auth_cleartext_password; wrong_password])
      end
  end.

(** C16. The console is closed to whoever does not give its password: unless it is
    enabled, has a password that is not empty and is sent exactly that one, no
    command runs, nothing changes, and the client is sent no AuthenticationOk; with
    it the commands of the session are executed. *)
Theorem admin_gate h auth_read reads h' sent :
  handle_admin_connection h auth_read reads = Ret (h', sent) →
  (∃ expected auth_buf sent',
     Conf.admin_enabled (Conf.admin (config h)) = true ∧
     Conf.admin_password (Conf.admin (config h)) = Some expected ∧ expected ≠ [] ∧
     auth_read = Some auth_buf ∧ Auth.parse_password_message auth_buf = Ret (Some expected) ∧
     admin_loop h reads = Ret (h', sent') ∧
     sent = [Auth.build_auth_cleartext_password; Auth.build_auth_ok; build_ready_for_query] ++ sent') ∨
  (h' = h ∧ (Auth.build_auth_ok ∉ sent) ∧
   ¬ (∃ expected auth_buf, expected_password (Conf.admin (config h)) = Some expected ∧
        auth_read = Some auth_buf ∧ Auth.parse_password_message auth_buf = Ret (Some expected))).
Proof.
  unfold handle_admin_connection.
  destruct (expected_password (Conf.admin (config h))) as [expected|] eqn:He.
  2: { intros [= <- <-]. right. split_and!; [done|by vm_compute; set_solver|]. by intros (? & ? & [=] & _). }
  assert (Hexp : Conf.admin_enabled (Conf.admin (config h)) = true ∧
                 Conf.admin_password (Conf.admin (config h)) = Some expected ∧ expected ≠ []).
  { revert He. unfold expected_password. destruct (Conf.admin_enabled _); [|done].
    destruct (Conf.admin_password _) as [[|b pw]|]; [done| |done]. by intros [= <-]. }
  destruct auth_read as [buf|].
  2: { intros [= <- <-]. right. split_and!; [done|by vm_compute; set_solver|]. by intros (? & ? & _ & [=] & _). }
  intros (provided & Hp & Hr)%outcome_bind_Ret. destruct provided as [p|].
  - rewrite constant_time_eq_spec in Hr. case_bool_decide as Heq.
    + subst p. apply outcome_bind_Ret in Hr as ([h1 s1] & Hl & Hr). injection Hr as <- <-. left.
      destruct Hexp as (? & ? & ?). eexists _, _, _. split_and!; done.
    + injection Hr as <- <-. right. split_and!; [done|by vm_compute; set_solver|].
      intros (ex & b & [= <-] & [= <-] & Hp'). congruence.
  - injection Hr as <- <-. right. split_and!; [done|by vm_compute; set_solver|].
    intros (ex & b & _ & [= <-] & Hp'). congruence.
Qed.
End gate.
End Session.

(** ** Concrete runs *)
Module AdminRuns.
Import Registry Response Console Session StartUp.
#[local] Existing Instances release_build Metrics.list_hdr ascii_tables.

Lemma admin_response_readable_witness :
  to_wire (RowSet [lit "version"] [[lit "Scry 0.1.0"]])
  = frames (messages (RowSet [lit "version"] [[lit "Scry 0.1.0"]])).
Proof.
  apply (admin_response_readable (RowSet [lit "version"] [[lit "Scry 0.1.0"]]));
    [repeat constructor; done|vm_compute; reflexivity].
Defined.

Definition secret_config (pw : bytes) (databases : list Conf.DatabaseConfig) : Conf.Config :=
  let d := demo_config (demo_publisher true (Some pw) (lit "debug") None 10) in
  Conf.config (Conf.proxy d) (Conf.backend d) databases (Conf.observability d) (Conf.protocol d)
    (Conf.publisher d) (Conf.performance d) (Conf.resilience d) (Conf.tls d) (Conf.auth d)
    {| Conf.admin_enabled := true; Conf.admin_users := None; Conf.admin_password := Some pw |}.
Definition demo_pool : pool_view :=
  {| manager := Pool.new 10;
     status := {| PoolStatus.st_size := 3; PoolStatus.st_available := 1; PoolStatus.st_max_size := 50; PoolStatus.st_protocol := lit "postgres";
                  PoolStatus.st_backend_addr := lit "db:5432" |} |}.
Definition demo_client (id : Z) (db : bytes) : ClientEntry :=
  entry id (lit "10.0.0.1:5000") (lit "u") db Active 0 0 false.
Definition demo_registry : ClientRegistry :=
  Registry.client_registry {[ 1 := demo_client 1 (lit "app"); 2 := demo_client 2 (lit "other") ]} {[ 1 := 1; 2 := 2 ]}.
Definition demo_handles (pw : bytes) : AdminHandles unit :=
  admin_handles (secret_config pw []) {[ lit "*" := demo_pool ]} demo_registry tt true false [].
Definition demo_execute (h : AdminHandles unit) (sql : bytes) :=
  execute (lit "0.1.0") (λ u, (u, None)) h Metrics.demo_metrics 10 0 DrainConfirmed sql.

Definition config_answer : AdminResponse := show_config (demo_handles (lit "pw")).
Lemma admin_rows_fit_witness :
  match config_answer with RowSet columns rows => Forall (λ row, length row = length columns) rows | _ => True end.
Proof.
  apply (admin_rows_fit (lit "0.1.0") (λ u, (u, None)) (demo_handles (lit "pw")) Metrics.demo_metrics 10 0
           DrainConfirmed (lit "show config") (demo_handles (lit "pw"))).
  vm_compute. reflexivity.
Defined.

Lemma admin_hides_secrets_witness :
  hide (secret_config (lit "hunter2") []) = hide (secret_config (lit "pw") []) ∧
  match demo_execute (with_config (secret_config (lit "hunter2") []) (demo_handles (lit "pw")))
          (lit "SHOW CONFIG"),
        demo_execute (demo_handles (lit "pw")) (lit "SHOW CONFIG") with
  | Ret (h1, r), Ret (h2, r') => r = r' ∧ h1 = with_config (secret_config (lit "hunter2") []) h2
  | Panic, Panic => True
  | Diverge, Diverge => True
  | _, _ => False
  end.
Proof.
  split; [reflexivity|].
  apply (admin_hides_secrets (lit "0.1.0") (λ u, (u, None)) (demo_handles (lit "pw"))). reflexivity.
Defined.

Definition demo_startup (db : bytes) : bytes := Auth.StartupMessage_build (lit "alice") db [].
(** The password, and a query. *)
Definition demo_env : environment := env _ Metrics.demo_metrics 10 0 DrainConfirmed.
Definition demo_query (sql : bytes) : bytes := frame x51 (sql ++ [x00]).
Definition demo_session (pw : bytes) (reads : list bytes) :=
  handle_admin_connection (lit "0.1.0") (λ u : unit, (u, None)) (demo_handles (lit "pw"))
    (Some (Auth.build_password_message pw)) ((λ b, (b, demo_env)) <$> reads).

Lemma admin_gate_witness :
  ∃ h sent, demo_session (lit "no") [demo_query (lit "PAUSE")] = Ret (h, sent) ∧ h = demo_handles (lit "pw").
Proof.
  eexists _, _. split; [vm_compute; reflexivity|].
  destruct (admin_gate (lit "0.1.0") (λ u : unit, (u, None)) (demo_handles (lit "pw"))
              (Some (Auth.build_password_message (lit "no"))) [(demo_query (lit "PAUSE"), demo_env)]
              (demo_handles (lit "pw")) [Auth.build_auth_cleartext_password; wrong_password])
    as [(ex & buf & s & _ & He & _ & [= <-] & Hp & _)|[Hh _]]; [vm_compute; reflexivity| |exact Hh].
  exfalso. revert He Hp. vm_compute. intros [= <-]. discriminate.
Defined.

(** A command that ends in a semicolon, as an interactive client sends it, is not
    known. *)
Example semicolon_is_unknown :
  parse (lit "SHOW POOLS;") = None ∧ parse (lit "RELOAD;") = None ∧
  parse (lit "pause shop;") = Some (Pause (Some (lit "shop;"))).
Proof. vm_compute. done. Qed.
(** The default pool's key is accepted as a name and kills nobody. *)
Example kill_star_kills_nobody :
  ∃ h, demo_execute (demo_handles (lit "pw")) (lit "KILL *") = Ret (h, inl (CommandComplete (lit "KILL 0"))) ∧
       client_registry h = demo_registry.
Proof. eexists. split; vm_compute; reflexivity. Qed.
(** A query with a length field of four slices backwards; one cut in two reads gets
    no answer. *)
Example short_query_panics : demo_session (lit "pw") [[x51; x00; x00; x00; x04; x00]] = Panic.
Proof. vm_compute. reflexivity. Qed.
Example split_query_is_lost :
  ∃ h, demo_session (lit "pw") [take 8 (demo_query (lit "RELOAD")); drop 8 (demo_query (lit "RELOAD"))]
       = Ret (h, [Auth.build_auth_cleartext_password; Auth.build_auth_ok; build_ready_for_query]).
Proof. eexists. vm_compute. reflexivity. Qed.
(** A connection on the UNIX socket is handled before its start-up message is read:
    whatever database it will name, it gets the default pool. *)
Example unix_gets_default_pool (pools : gmap bytes Z) (id now : Z) :
  handle_client_connection pools None id [] false now
  = Ret (entry id (lit "unix") [] [] Active now now false, ToHandler (pools !! lit "*")).
Proof. reflexivity. Qed.
End AdminRuns.
