(* ===== verification/Export.v ===== *)
(** * Export of the metrics (observability/prometheus.rs and the handlers of
      observability/metrics_server.rs)

    The Prometheus text is built from metric families, each a HELP line, a TYPE
    line and its samples, in the order in which the code writes them.  The
    breakers registered with the metrics and the uptime are arguments; JSON and
    HTTP belong to crates, so a handler is the value it hands to them. *)

From stdpp Require Import sorting.
From Stdlib Require Import SpecFloat.
From S2P Require Import Prelude RustStr Events CommandDetector ConnState Wire Extractor AuthMessages UserList CircuitBreaker Acquire HotData StmtCache Bind Anonymize Modes Handler Metrics WaitQueue PoolManager Direct Config Backend Handshake Server Admin.

Module Prometheus.
Import Metrics.

(** ** Text *)
Record sample : Type := mk_sample { s_name : bytes; s_label : option (bytes * bytes); s_value : bytes }.
Record family : Type := mk_family {
  f_name : bytes; f_help : bytes; f_kind : bytes; f_samples : list sample
}.

Definition replace_byte (c : byte) (by_ : bytes) (s : bytes) : bytes :=
  concat ((λ b, if beqb b c then by_ else [b]) <$> s).
Definition escape_label (value : bytes) : bytes :=
  replace_byte x0a [x5c; x6e] (replace_byte x22 [x5c; x22] (replace_byte x5c [x5c; x5c] value)).

Definition put_label (l : option (bytes * bytes)) : bytes :=
  match l with
  | Some (k, v) => x7b :: k ++ [x3d; x22] ++ escape_label v ++ [x22; x7d]
  | None => []
  end.
Definition put_sample (s : sample) : bytes := s_name s ++ put_label (s_label s) ++ x20 :: s_value s.
Definition put_family (f : family) : list bytes :=
  (lit "# HELP " ++ f_name f ++ x20 :: f_help f) :: (lit "# TYPE " ++ f_name f ++ x20 :: f_kind f)
  :: (put_sample <$> f_samples f).
Definition render (fs : list family) : bytes := concat ((λ l, l ++ [x0a]) <$> concat (put_family <$> fs)).

(** [format!("{:.p$}", x)]: the exact value to [p] places, ties to even. *)
Definition pad (p : nat) (z : Z) : bytes :=
  let t := Direct.u64_to_string z in replicate (p - length t) x30 ++ t.
Definition fixed (p : nat) (x : spec_float) : bytes :=
  let unit := 10 ^ Z.of_nat p in
  match x with
  | S754_nan => lit "NaN"
  | S754_infinity s => Console.sign s ++ lit "inf"
  | S754_zero s => Console.sign s ++ lit "0." ++ replicate p x30
  | S754_finite s m e =>
      let n := Console.nearest (Zpos m) e unit Z.odd in
      Console.sign s ++ Direct.u64_to_string (n / unit) ++ lit "." ++ pad p (n mod unit)
  end.
Definition int (z : Z) : bytes := Direct.u64_to_string z.
Definition seconds (micros : Z) : spec_float := f64_div (f64_of micros) (f64_of 1000000).

(** ** The families *)
Definition single (name help kind : string) (v : bytes) : family :=
  mk_family (lit name) (lit help) (lit kind) [mk_sample (lit name) None v].

(** The breakers registered, by backend. *)
Abbreviation breakers := (gmap bytes CB.CircuitBreaker).

Section export.
Context `{Build} `{Hdr}.

Definition export_query_counters (m : ProxyMetrics) : list family :=
  let total := total_queries (query m) in
  let errors := total_errors (query m) in
  let error_rate := if 0 <? total then f64_div (f64_of errors) (f64_of total) else f64_zero in
  [single "scry_queries_total" "Total number of queries processed" "counter" (int total);
   single "scry_query_errors_total" "Total number of query errors" "counter" (int errors);
   single "scry_query_error_rate" "Query error rate" "gauge" (fixed 6 error_rate);
   single "scry_query_timeouts_total" "Total queries aborted due to query_timeout" "counter"
     (int (total_query_timeouts (query m)))].

Definition quantile (q : string) : option (bytes * bytes) := Some (lit "quantile", lit q).
Definition export_quantiles (metric_name : string) (p : LatencyPercentiles) : list sample :=
  [mk_sample (lit metric_name) (quantile "0.5") (fixed 9 (seconds (p50_micros p)));
   mk_sample (lit metric_name) (quantile "0.9") (fixed 9 (seconds (p90_micros p)));
   mk_sample (lit metric_name) (quantile "0.95") (fixed 9 (seconds (p95_micros p)));
   mk_sample (lit metric_name) (quantile "0.99") (fixed 9 (seconds (p99_micros p)));
   mk_sample (lit metric_name) (quantile "0.999") (fixed 9 (seconds (p999_micros p)))].

(** [mean_micros / 1e6 * count as f64]. *)
Definition sum_seconds (p : LatencyPercentiles) (count : Z) : spec_float :=
  Acquire.f64_mul (f64_div (mean_micros p) (f64_of 1000000)) (f64_of count).

Definition export_latency_metrics (m : ProxyMetrics) : list family :=
  let percentiles := get_latency_percentiles (query m) in
  let total := total_queries (query m) in
  [mk_family (lit "scry_query_latency_seconds") (lit "Query latency in seconds") (lit "summary")
     (export_quantiles "scry_query_latency_seconds" percentiles
      ++ [mk_sample (lit "scry_query_latency_seconds_sum") None (fixed 9 (sum_seconds percentiles total));
          mk_sample (lit "scry_query_latency_seconds_count") None (int total)])].

Definition summary (name help : string) (p : LatencyPercentiles) : family :=
  mk_family (lit name) (lit help) (lit "summary") (export_quantiles name p).

Definition export_timeline_metrics (m : ProxyMetrics) : list family :=
  [summary "scry_query_queue_time_seconds" "Time spent waiting before pool acquisition"
     (get_queue_percentiles (query m));
   summary "scry_query_pool_acquire_seconds" "Time spent acquiring connection from pool"
     (get_pool_acquire_percentiles (query m));
   summary "scry_query_backend_seconds" "Time spent executing on backend database"
     (get_backend_percentiles (query m))].

Definition export_proxy_overhead_metrics (m : ProxyMetrics) : list family :=
  [summary "scry_proxy_overhead_seconds"
     "Proxy's own added latency (total minus backend execution time)"
     (proxy_overhead_percentiles (query m))].

Definition export_pool_metrics (m : ProxyMetrics) : outcome (list family) :=
  u ← utilization (pool m);
  Ret [single "scry_pool_connections_total" "Current pool size (total connections)" "gauge"
         (int (gauge (pool m) Size));
       single "scry_pool_connections_available" "Available connections in pool" "gauge"
         (int (gauge (pool m) Available));
       single "scry_pool_connections_max" "Maximum pool size" "gauge" (int (gauge (pool m) MaxSize));
       single "scry_pool_utilization" "Pool utilization (0.0 to 1.0)" "gauge" (fixed 4 u)].

Definition pin_sample (m : ProxyMetrics) (reason : string) (r : CS.PinReason) : sample :=
  mk_sample (lit "scry_pool_pin_reason_total") (Some (lit "reason", lit reason))
    (int (counter (pool m) (PinCount r))).

Definition export_pooling_metrics (m : ProxyMetrics) : list family :=
  let p := pool m in
  let wait_percentiles := get_wait_percentiles p in
  let wait_count := hist_len (wait_histogram p) in
  [single "scry_pool_connections_pinned" "Number of connections currently pinned" "gauge"
     (int (gauge p Pinned));
   mk_family (lit "scry_pool_pin_reason_total") (lit "Pin events by reason") (lit "counter")
     [pin_sample m "prepared_statement" CS.PreparedStatement;
      pin_sample m "session_variable" CS.SessionVariable; pin_sample m "temp_table" CS.TempTable;
      pin_sample m "cursor" CS.Cursor; pin_sample m "advisory_lock" CS.AdvisoryLockHeld;
      pin_sample m "listen" CS.ListenChannel; pin_sample m "unknown_command" CS.UnknownCommand];
   single "scry_pool_queue_depth" "Current wait queue depth" "gauge" (int (gauge p QueueDepth));
   single "scry_pool_queue_max_depth" "Maximum wait queue depth (from config)" "gauge"
     (int (gauge p MaxQueueDepth));
   single "scry_pool_queue_saturation_ratio" "Queue saturation (0.0-1.0, alert if >0.8)" "gauge"
     (fixed 4 (get_queue_saturation p));
   single "scry_pool_queue_rejected_total" "Total requests rejected due to full queue" "counter"
     (int (counter p QueueRejected));
   single "scry_requests_shed_total" "Total requests shed because a circuit breaker was open" "counter"
     (int (counter p RequestsShed));
   mk_family (lit "scry_pool_wait_seconds") (lit "Time spent waiting for connection") (lit "summary")
     (export_quantiles "scry_pool_wait_seconds" wait_percentiles
      ++ [mk_sample (lit "scry_pool_wait_seconds_sum") None (fixed 9 (sum_seconds wait_percentiles wait_count));
          mk_sample (lit "scry_pool_wait_seconds_count") None (int wait_count)])].

Definition export_connection_metrics (m : ProxyMetrics) : list family :=
  [single "scry_active_connections" "Current number of active client connections" "gauge"
     (int (active_connections m));
   single "scry_max_connections" "Maximum allowed client connections" "gauge" (int (max_connections m));
   single "scry_connections_rejected_total" "Total connections rejected due to max_connections limit"
     "counter" (int (connections_rejected m));
   mk_family (lit "scry_connection_timeouts_total") (lit "Total backend connect/acquire timeouts, by kind")
     (lit "counter")
     [mk_sample (lit "scry_connection_timeouts_total") (Some (lit "kind", lit "pool_wait"))
        (int (counter (pool m) PoolWaitTimeout));
      mk_sample (lit "scry_connection_timeouts_total") (Some (lit "kind", lit "backend_connect"))
        (int (counter (pool m) BackendConnectTimeout))]].

Definition export_uptime (uptime_secs : Z) : list family :=
  [single "scry_uptime_seconds" "Proxy uptime in seconds" "counter" (int uptime_secs)].

(** *** Circuit breakers *)
Definition register_circuit_breaker (name : bytes) (cb : CB.CircuitBreaker) (bs : breakers) : breakers :=
  <[name := cb]> bs.

Fixpoint bytes_leb (a b : bytes) : bool :=
  match a, b with
  | [], _ => true
  | _ :: _, [] => false
  | x :: a, y :: b =>
      if byte_Z x <? byte_Z y then true else if byte_Z y <? byte_Z x then false else bytes_leb a b
  end.
Definition by_name {A} (x y : bytes * A) : Prop := Is_true (bytes_leb x.1 y.1).
#[export] Instance by_name_dec {A} : RelDecision (@by_name A).
Proof. intros x y. unfold by_name. apply _. Defined.

Definition circuit_breaker_metrics_all (bs : breakers) : list (bytes * CB.CircuitBreakerMetrics) :=
  merge_sort by_name (prod_map id CB.get_metrics <$> map_to_list bs).

Definition NO_BREAKER_SENTINEL : bytes := lit "none".
Definition breaker_family (all : list (bytes * CB.CircuitBreakerMetrics)) (name : string) (help : bytes)
    (kind : string) (v : CB.CircuitBreakerMetrics → bytes) : family :=
  mk_family (lit name) help (lit kind)
    (match all with
     | [] => [mk_sample (lit name) (Some (lit "backend", NO_BREAKER_SENTINEL)) (lit "0")]
     | _ => (λ kv, mk_sample (lit name) (Some (lit "backend", kv.1)) (v kv.2)) <$> all
     end).

Definition state_value (cb : CB.CircuitBreakerMetrics) : bytes :=
  if decide (CB.m_state cb = lit "closed") then lit "0"
  else if decide (CB.m_state cb = lit "open") then lit "1"
  else if decide (CB.m_state cb = lit "half_open") then lit "2" else lit "0".

Definition export_circuit_breaker_metrics (bs : breakers) : list family :=
  let all := circuit_breaker_metrics_all bs in
  [breaker_family all "scry_circuit_breaker_state"
     (lit "Circuit breaker state (0=Closed, 1=Open, 2=HalfOpen); backend=" ++ [x22] ++ lit "none" ++ [x22]
      ++ lit " is a sentinel meaning no per-backend breaker is currently registered")
     "gauge" state_value;
   breaker_family all "scry_circuit_breaker_consecutive_failures"
     (lit "Consecutive failures in current window") "gauge" (λ cb, int (CB.m_consecutive_failures cb));
   breaker_family all "scry_circuit_breaker_consecutive_successes"
     (lit "Consecutive successes in half-open state") "gauge" (λ cb, int (CB.m_consecutive_successes cb));
   breaker_family all "scry_circuit_breaker_requests_allowed_total"
     (lit "Total requests allowed through") "counter" (λ cb, int (CB.m_requests_allowed cb));
   breaker_family all "scry_circuit_breaker_requests_rejected_total"
     (lit "Total requests rejected (circuit open)") "counter" (λ cb, int (CB.m_requests_rejected cb))].

Definition families (m : ProxyMetrics) (bs : breakers) (uptime_secs : Z) : outcome (list family) :=
  pool_families ← export_pool_metrics m;
  Ret (export_query_counters m ++ export_latency_metrics m ++ export_timeline_metrics m
       ++ export_proxy_overhead_metrics m ++ pool_families ++ export_pooling_metrics m
       ++ export_connection_metrics m ++ export_uptime uptime_secs ++ export_circuit_breaker_metrics bs).
Definition export_metrics (m : ProxyMetrics) (bs : breakers) (uptime_secs : Z) : outcome bytes :=
  fs ← families m bs uptime_secs; Ret (render fs).
End export.

(** ** A reader of the text format *)
Inductive item : Type :=
| IHelp (name help : bytes)
| IType (name kind : bytes)
| ISample (s : sample).

(** A metric name ends at a brace or a space. *)
Fixpoint read_name (l : bytes) : option (bytes * bytes) :=
  match l with
  | [] => None
  | b :: l' =>
      if beqb b x7b || beqb b x20 then Some ([], l)
      else '(n, r) ← read_name l'; Some (b :: n, r)
  end.
(** A label value ends at a quote that is not escaped. *)
Fixpoint unescape (l : bytes) : option (bytes * bytes) :=
  match l with
  | [] => None
  | b :: l' =>
      if beqb b x22 then Some ([], l')
      else if beqb b x5c then
        match l' with
        | [] => None
        | c :: l'' => '(v, r) ← unescape l''; Some ((if beqb c x6e then x0a else c) :: v, r)
        end
      else '(v, r) ← unescape l'; Some (b :: v, r)
  end.
Definition read_sample (l : bytes) : option sample :=
  '(n, r) ← read_name l;
  match r with
  | x20 :: v => Some (mk_sample n None v)
  | x7b :: r =>
      '(k, r) ← Str.split_once x3d r;
      match r with
      | x22 :: r =>
          '(v, r) ← unescape r;
          match r with
          | x7d :: x20 :: value => Some (mk_sample n (Some (k, v)) value)
          | _ => None
          end
      | _ => None
      end
  | _ => None
  end.
Definition read_line (l : bytes) : option item :=
  match Str.strip_prefix l (lit "# HELP ") with
  | Some r => '(n, h) ← Str.split_once x20 r; Some (IHelp n h)
  | None =>
      match Str.strip_prefix l (lit "# TYPE ") with
      | Some r => '(n, k) ← Str.split_once x20 r; Some (IType n k)
      | None => ISample <$> read_sample l
      end
  end.

(** Lines grouped from the last to the first: the samples below a TYPE line,
    which is below the HELP line of the same name. *)
Definition group (i : item) (acc : list sample * option (bytes * bytes) * list family)
    : option (list sample * option (bytes * bytes) * list family) :=
  match i, acc with
  | ISample s, (ss, None, fs) => Some (s :: ss, None, fs)
  | IType n k, (ss, None, fs) => Some (ss, Some (n, k), fs)
  | IHelp n h, (ss, Some (n', k), fs) =>
      if decide (n = n') then
        if forallb (λ s, Str.starts_with (s_name s) n) ss
        then Some ([], None, mk_family n h k ss :: fs) else None
      else None
  | _, _ => None
  end.
Definition group_all (items : list item) : option (list sample * option (bytes * bytes) * list family) :=
  foldr (λ i acc, acc ≫= group i) (Some ([], None, [])) items.
Definition read_exposition (text : bytes) : option (list family) :=
  items ← mapM read_line (removelast (Str.split_byte x0a text));
  acc ← group_all items;
  match acc with ([], None, fs) => Some fs | _ => None end.

(** ** What is written is read back *)
Definition text_byte (b : byte) : bool := negb (beqb b x0a).
Definition name_byte (b : byte) : bool :=
  text_byte b && negb (beqb b x7b) && negb (beqb b x20) && negb (beqb b x23).
Definition wf_text (s : bytes) : bool := forallb text_byte s.
Definition wf_name (s : bytes) : bool := forallb name_byte s && negb (bool_decide (s = [])).
Definition wf_key (s : bytes) : bool := forallb (λ b, text_byte b && negb (beqb b x3d)) s.
Definition wf_sample (family_name : bytes) (s : sample) : bool :=
  wf_name (s_name s) && Str.starts_with (s_name s) family_name && wf_text (s_value s)
  && match s_label s with Some (k, _) => wf_key k | None => true end.
Definition wf_family (f : family) : bool :=
  wf_name (f_name f) && wf_text (f_help f) && wf_text (f_kind f)
  && forallb (wf_sample (f_name f)) (f_samples f).

(** The three replacements, in one pass. *)
Definition escape_byte (b : byte) : bytes :=
  if beqb b x5c then [x5c; x5c] else if beqb b x22 then [x5c; x22]
  else if beqb b x0a then [x5c; x6e] else [b].

Lemma replace_byte_app c w a b : replace_byte c w (a ++ b) = replace_byte c w a ++ replace_byte c w b.
Proof. unfold replace_byte. by rewrite fmap_app, concat_app. Qed.

Lemma escape_label_cons b v : escape_label (b :: v) = escape_byte b ++ escape_label v.
Proof.
  unfold escape_label. change (b :: v) with ([b] ++ v). rewrite !replace_byte_app. f_equal.
  unfold escape_byte, replace_byte. cbn [fmap list_fmap concat app]. unfold beqb.
  repeat case_bool_decide; subst; try done. cbn [fmap list_fmap concat app].
  rewrite bool_decide_false by done. cbn [fmap list_fmap concat app]. by rewrite bool_decide_false by done.
Qed.

Lemma unescape_escape v rest : unescape (escape_label v ++ x22 :: rest) = Some (v, rest).
Proof.
  induction v as [|b v IH]; [done|]. rewrite escape_label_cons, <-app_assoc. unfold escape_byte, beqb.
  repeat case_bool_decide; subst; cbn [app unescape]; unfold beqb;
    rewrite ?bool_decide_true, ?bool_decide_false by done; cbn [app unescape mbind option_bind]; unfold beqb;
    rewrite ?bool_decide_true, ?bool_decide_false by done; by rewrite IH.
Qed.

Lemma escape_label_text v : wf_text (escape_label v) = true.
Proof.
  induction v as [|b v IH]; [done|]. rewrite escape_label_cons. unfold wf_text in *. rewrite forallb_app, IH.
  rewrite andb_true_r. unfold escape_byte, beqb. repeat case_bool_decide; try done.
  simpl. unfold text_byte, beqb. by rewrite bool_decide_false.
Qed.

Lemma wf_name_bytes n :
  wf_name n = true →
  n ≠ [] ∧ Forall (λ b, text_byte b = true ∧ b ≠ x7b ∧ b ≠ x20 ∧ b ≠ x23) n.
Proof.
  unfold wf_name. intros [Hn He%negb_true_iff%bool_decide_eq_false]%andb_true_iff. split; [done|].
  clear He. induction n as [|b n IH]; [done|]. simpl in Hn. apply andb_true_iff in Hn as [Hb Hn].
  constructor; [|by apply IH]. unfold name_byte in Hb.
  apply andb_true_iff in Hb as [[[Ht H1%negb_true_iff]%andb_true_iff H2%negb_true_iff]%andb_true_iff H3%negb_true_iff].
  apply bool_decide_eq_false in H1, H2, H3. done.
Qed.

Lemma read_name_put n c rest :
  wf_name n = true → c = x7b ∨ c = x20 → read_name (n ++ c :: rest) = Some (n, c :: rest).
Proof.
  intros [_ Hn]%wf_name_bytes Hc. induction Hn as [|b n (_ & H1 & H2 & _) _ IH]; cbn [app read_name].
  - by destruct Hc as [-> | ->].
  - unfold beqb. rewrite !bool_decide_false by done. simpl. by rewrite IH.
Qed.

Lemma wf_key_notin k : wf_key k = true → x3d ∉ k.
Proof.
  unfold wf_key. induction k as [|b k IH]; [intros _; apply not_elem_of_nil|]. simpl.
  intros [[_ Hb%negb_true_iff%bool_decide_eq_false]%andb_true_iff Hk]%andb_true_iff.
  apply not_elem_of_cons. split; [congruence|auto].
Qed.

Lemma wf_text_notin t : wf_text t = true → x0a ∉ t.
Proof.
  unfold wf_text. induction t as [|b t IH]; [intros _; apply not_elem_of_nil|]. simpl.
  intros [Hb%negb_true_iff%bool_decide_eq_false Ht]%andb_true_iff.
  apply not_elem_of_cons. split; [congruence|auto].
Qed.

Lemma wf_sample_parts f s :
  wf_sample f s = true →
  wf_name (s_name s) = true ∧ Str.starts_with (s_name s) f = true ∧ wf_text (s_value s) = true ∧
  match s_label s with Some (k, _) => wf_key k = true | None => True end.
Proof.
  unfold wf_sample. intros [[[Hn Hf]%andb_true_iff Hv]%andb_true_iff Hl]%andb_true_iff.
  split_and!; try done. by destruct (s_label s) as [[k v]|].
Qed.

(** A name does not start like a comment. *)
Lemma strip_name n rest pat :
  wf_name n = true → head pat = Some x23 → Str.strip_prefix (n ++ rest) pat = None.
Proof.
  destruct pat as [|c pat]; [done|]. intros [Hne Hn]%wf_name_bytes [= ->]. destruct Hn as [|b n (_ & _ & _ & Hb) _]; [done|].
  unfold Str.strip_prefix. cbn [app Str.starts_with]. unfold beqb. by rewrite bool_decide_false by congruence.
Qed.

Lemma read_put_sample f s : wf_sample f s = true → read_line (put_sample s) = Some (ISample s).
Proof.
  intros (Hn & _ & Hv & Hl)%wf_sample_parts. unfold read_line, put_sample.
  rewrite !(strip_name (s_name s)) by (done || reflexivity). unfold read_sample.
  destruct s as [n [[k v]|] val]; cbn [s_name s_label s_value put_label app] in *.
  - rewrite read_name_put by auto. cbn [mbind option_bind]. rewrite <-!app_assoc. cbn [app].
    rewrite Str.split_once_app by (by apply wf_key_notin). cbn [mbind option_bind]. rewrite <-app_assoc.
    cbn [app]. by rewrite unescape_escape.
  - by rewrite read_name_put by auto.
Qed.

Lemma wf_name_space n : wf_name n = true → x20 ∉ n.
Proof.
  intros [_ Hn]%wf_name_bytes. induction Hn as [|b n (_ & _ & Hb & _) _ IH]; [apply not_elem_of_nil|].
  apply not_elem_of_cons. by split; [congruence|].
Qed.

Lemma read_put_help n h : wf_name n = true → read_line (lit "# HELP " ++ n ++ x20 :: h) = Some (IHelp n h).
Proof.
  intros Hn. unfold read_line. rewrite Str.strip_prefix_app, Str.split_once_app; [done|]. by apply wf_name_space.
Qed.
Lemma read_put_type n k : wf_name n = true → read_line (lit "# TYPE " ++ n ++ x20 :: k) = Some (IType n k).
Proof.
  intros Hn. unfold read_line. replace (Str.strip_prefix _ (lit "# HELP ")) with (@None bytes) by done.
  rewrite Str.strip_prefix_app, Str.split_once_app; [done|]. by apply wf_name_space.
Qed.

Definition items_of (f : family) : list item :=
  IHelp (f_name f) (f_help f) :: IType (f_name f) (f_kind f) :: (ISample <$> f_samples f).

Lemma wf_family_parts f :
  wf_family f = true →
  wf_name (f_name f) = true ∧ wf_text (f_help f) = true ∧ wf_text (f_kind f) = true ∧
  Forall (λ s, wf_sample (f_name f) s = true) (f_samples f).
Proof.
  unfold wf_family. intros [[[Hn Hh]%andb_true_iff Hk]%andb_true_iff Hs]%andb_true_iff. split_and!; try done.
  apply Forall_forall. intros s Hin. rewrite forallb_forall in Hs. apply Hs. by apply list_elem_of_In.
Qed.

Lemma mapM_app_Some {A B} (f : A → option B) l k l' k' :
  mapM f l = Some l' → mapM f k = Some k' → mapM f (l ++ k) = Some (l' ++ k').
Proof. rewrite !mapM_Some. apply Forall2_app. Qed.

Lemma read_put_families fs :
  Forall (λ f, wf_family f = true) fs →
  mapM read_line (concat (put_family <$> fs)) = Some (concat (items_of <$> fs)).
Proof.
  induction 1 as [|f fs Hf _ IH]; [done|]. cbn [fmap list_fmap concat]. apply mapM_app_Some; [|done].
  apply wf_family_parts in Hf as (Hn & _ & _ & Hs). unfold put_family, items_of.
  apply mapM_Some. constructor; [by apply read_put_help|]. constructor; [by apply read_put_type|].
  induction Hs as [|s ss Hs _ IHs]; simpl; constructor; [by apply (read_put_sample (f_name f))|done].
Qed.

Lemma group_family f fs :
  wf_family f = true →
  foldr (λ i acc, acc ≫= group i) (Some ([], None, fs)) (items_of f) = Some ([], None, f :: fs).
Proof.
  intros (_ & _ & _ & Hs)%wf_family_parts. unfold items_of. cbn [foldr].
  assert (Hss : foldr (λ i acc, acc ≫= group i) (Some ([], None, fs)) (ISample <$> f_samples f)
    = Some (f_samples f, None, fs)).
  { clear Hs. induction (f_samples f) as [|s ss IH]; [done|]. cbn [fmap list_fmap foldr]. by rewrite IH. }
  rewrite Hss. cbn [mbind option_bind group]. rewrite decide_True by done.
  replace (forallb _ (f_samples f)) with true; [by destruct f|]. symmetry. apply forallb_forall.
  intros s Hin%list_elem_of_In. rewrite Forall_forall in Hs. by apply wf_sample_parts, Hs.
Qed.

Lemma group_families fs :
  Forall (λ f, wf_family f = true) fs → group_all (concat (items_of <$> fs)) = Some ([], None, fs).
Proof.
  unfold group_all. induction 1 as [|f fs Hf _ IH]; [done|]. cbn [fmap list_fmap concat].
  rewrite foldr_app, IH. by apply group_family.
Qed.

Lemma split_lines ls :
  Forall (λ l, x0a ∉ l) ls →
  removelast (Str.split_byte x0a (concat ((λ l, l ++ [x0a]) <$> ls))) = ls.
Proof.
  intros Hls. replace (Str.split_byte _ _) with (ls ++ [[]]); [by rewrite removelast_last|].
  induction Hls as [|l ls Hl _ IH]; [done|]. cbn [fmap list_fmap concat app]. rewrite <-app_assoc.
  cbn [app]. rewrite Str.split_byte_word by done. by rewrite IH.
Qed.

Lemma name_text n : wf_name n = true → x0a ∉ n.
Proof.
  intros [_ Hn]%wf_name_bytes. induction Hn as [|b n (Hb & _) _ IH]; [apply not_elem_of_nil|].
  apply not_elem_of_cons. split; [|done]. unfold text_byte, beqb in Hb.
  apply negb_true_iff, bool_decide_eq_false in Hb. congruence.
Qed.

Lemma sample_line f s : wf_sample f s = true → x0a ∉ put_sample s.
Proof.
  intros (Hn & _ & Hv & Hl)%wf_sample_parts. unfold put_sample.
  rewrite !not_elem_of_app. split_and!; [by apply name_text| |].
  - destruct (s_label s) as [[k v]|]; [|apply not_elem_of_nil]. cbn [put_label].
    pose proof (wf_text_notin _ (escape_label_text v)).
    assert (x0a ∉ k) by (apply wf_text_notin; unfold wf_text, wf_key in *;
      rewrite forallb_forall in Hl |- *; intros b Hb; specialize (Hl b Hb); by apply andb_true_iff in Hl as [? _]).
    rewrite not_elem_of_cons, !not_elem_of_app, !not_elem_of_cons. split_and!; try done; apply not_elem_of_nil.
  - apply not_elem_of_cons. split; [done|]. by apply wf_text_notin.
Qed.

Lemma family_lines f : wf_family f = true → Forall (λ l, x0a ∉ l) (put_family f).
Proof.
  intros (Hn & Hh & Hk & Hs)%wf_family_parts. pose proof (name_text _ Hn).
  pose proof (wf_text_notin _ Hh). pose proof (wf_text_notin _ Hk). unfold put_family.
  repeat constructor.
  1,2: rewrite !not_elem_of_app, not_elem_of_cons; split_and!; try done;
       apply (bool_decide_unpack _); vm_compute; exact I.
  induction Hs as [|s ss Hs _ IHs]; simpl; constructor; [by apply (sample_line (f_name f))|done].
Qed.

Lemma render_readable fs :
  Forall (λ f, wf_family f = true) fs → read_exposition (render fs) = Some fs.
Proof.
  intros Hfs. unfold read_exposition, render. rewrite split_lines.
  - rewrite read_put_families by done. cbn [mbind option_bind]. by rewrite group_families.
  - induction Hfs as [|f fs Hf _ IH]; [done|]. cbn [fmap list_fmap concat]. apply Forall_app.
    split; [by apply family_lines|done].
Qed.

(** *** The families of the proxy *)
Lemma wf_int z : wf_text (int z) = true.
Proof.
  unfold wf_text, int. pose proof (Direct.plain_u64 z) as Hp. apply forallb_forall. intros b Hb%list_elem_of_In.
  assert (Hd : ∀ d, forallb text_byte (lit (DecimalString.NilEmpty.string_of_uint d)) = true) by (by induction d).
  revert Hb. unfold Direct.u64_to_string, DecimalString.NilZero.string_of_uint.
  destruct (N.to_uint (Z.to_N z)) as [|d|d|d|d|d|d|d|d|d|d]; intros Hb%list_elem_of_In;
    [destruct Hb as [<-|[]]; done|..];
    match type of Hb with In _ (lit (DecimalString.NilEmpty.string_of_uint ?d)) =>
      exact (proj1 (forallb_forall text_byte _) (Hd d) b Hb) end.
Qed.

Lemma wf_text_app a b : wf_text (a ++ b) = wf_text a && wf_text b.
Proof. unfold wf_text. apply forallb_app. Qed.
Lemma wf_zeros n : wf_text (replicate n x30) = true.
Proof. by induction n. Qed.
Lemma wf_sign s : wf_text (Console.sign s) = true.
Proof. by destruct s. Qed.
Lemma wf_fixed p x : wf_text (fixed p x) = true.
Proof.
  unfold fixed, pad. cbv zeta. destruct x as [s|s| |s m e]; rewrite ?wf_text_app, ?wf_sign, ?wf_zeros; try done.
  rewrite !(wf_int _ : wf_text (Direct.u64_to_string _) = true). done.
Qed.

Lemma wf_single name help kind v :
  wf_name (lit name) = true → wf_text (lit help) = true → wf_text (lit kind) = true → wf_text v = true →
  wf_family (single name help kind v) = true.
Proof.
  intros Hn Hh Hk Hv. unfold wf_family, single, wf_sample. cbn [f_name f_help f_kind f_samples forallb s_name s_value s_label].
  rewrite Hn, Hh, Hk, Hv.
  by rewrite (proj2 (Str.starts_with_spec (lit name) (lit name))) by (exists []; by rewrite app_nil_r).
Qed.

Lemma wf_breaker_family all name help kind v :
  wf_name (lit name) = true → wf_text help = true → wf_text (lit kind) = true → (∀ cb, wf_text (v cb) = true) →
  wf_family (breaker_family all name help kind v) = true.
Proof.
  intros Hn Hh Hk Hv. unfold wf_family, breaker_family, wf_sample.
  cbn [f_name f_help f_kind f_samples forallb s_name s_value s_label]. rewrite Hn, Hh, Hk.
  assert (Hp : Str.starts_with (lit name) (lit name) = true)
    by (apply Str.starts_with_spec; exists []; by rewrite app_nil_r).
  cbn [andb]. destruct all as [|kv all];
    [cbn [forallb s_name s_value s_label]; by rewrite Hn, Hp|].
  apply forallb_forall. intros s Hs%list_elem_of_In. apply list_elem_of_fmap in Hs as (kv' & -> & _).
  cbn [s_name s_value s_label]. by rewrite Hn, Hp, Hv.
Qed.

Section proxy_families.
#[local] Existing Instance release_build.
Context `{Hdr}.

Lemma wf_own_name (name : string) : Str.starts_with (lit name) (lit name) = true.
Proof. apply Str.starts_with_spec. exists []. by rewrite app_nil_r. Qed.

Lemma wf_quantiles name p :
  wf_name (lit name) = true → forallb (wf_sample (lit name)) (export_quantiles name p) = true.
Proof.
  intros Hn. unfold export_quantiles, wf_sample. cbn [forallb s_name s_value s_label quantile].
  by rewrite Hn, wf_own_name, !wf_fixed.
Qed.

Lemma wf_summary name help h :
  wf_name (lit name) = true → wf_text (lit help) = true → wf_family (summary name help h) = true.
Proof.
  intros Hn Hh. unfold wf_family, summary. cbn [f_name f_help f_kind f_samples].
  by rewrite Hn, Hh, wf_quantiles.
Qed.

(** A summary with its sum and its count. *)
Lemma wf_counted name help sum_name count_name p sum count :
  wf_name (lit name) = true → wf_text (lit help) = true →
  wf_name (lit sum_name) = true → wf_name (lit count_name) = true →
  Str.starts_with (lit sum_name) (lit name) = true → Str.starts_with (lit count_name) (lit name) = true →
  wf_family (mk_family (lit name) (lit help) (lit "summary")
    (export_quantiles name p ++ [mk_sample (lit sum_name) None (fixed 9 sum);
                                 mk_sample (lit count_name) None (int count)])) = true.
Proof.
  intros Hn Hh Hs Hc Hsn Hcn. unfold wf_family. cbn [f_name f_help f_kind f_samples].
  rewrite forallb_app, wf_quantiles, Hn, Hh by done. unfold wf_sample.
  cbn [forallb s_name s_value s_label]. by rewrite Hs, Hc, Hsn, Hcn, wf_fixed, wf_int.
Qed.

(** [injection] would evaluate the families. *)
Lemma Ret_families (a b : list family) : Ret a = Ret b → a = b.
Proof. congruence. Qed.

Lemma families_wf m bs uptime fs :
  families m bs uptime = Ret fs → Forall (λ f, wf_family f = true) fs.
Proof.
  unfold families. intros (pf & Hp & <-%Ret_families)%outcome_bind_Ret.
  unfold export_pool_metrics in Hp. apply outcome_bind_Ret in Hp as (u & _ & <-%Ret_families).
  assert (Hpin : ∀ reason r, wf_sample (lit "scry_pool_pin_reason_total") (pin_sample m reason r) = true)
    by (intros; unfold wf_sample; cbn [pin_sample s_name s_value s_label]; by rewrite wf_int).
  unfold export_query_counters, export_latency_metrics, export_timeline_metrics, export_proxy_overhead_metrics,
    export_pooling_metrics, export_connection_metrics, export_uptime, export_circuit_breaker_metrics. cbv zeta.
  repeat first [apply Forall_app; split | apply Forall_cons; split | apply Forall_nil; exact I];
    lazymatch goal with
    | |- wf_family (single _ _ _ _) = true =>
        apply wf_single; [reflexivity..|first [exact (wf_int _)|exact (wf_fixed _ _)]]
    | |- wf_family (summary _ _ _) = true => by apply wf_summary
    | |- wf_family (breaker_family _ _ _ _ state_value) = true =>
        apply wf_breaker_family; [reflexivity..|intros cb; unfold state_value; by repeat case_decide]
    | |- wf_family (breaker_family _ _ _ _ _) = true =>
        apply wf_breaker_family; [reflexivity..|intros cb; exact (wf_int _)]
    | |- _ => idtac
    end.
  - by apply wf_counted.
  - unfold wf_family. cbn [f_name f_help f_kind f_samples forallb]. by rewrite !Hpin.
  - by apply wf_counted.
  - unfold wf_family, wf_sample. cbn [f_name f_help f_kind f_samples forallb s_name s_value s_label].
    by rewrite !wf_int.
Qed.

Lemma breaker_listed (bs : breakers) name cb :
  bs !! name = Some cb → (name, CB.get_metrics cb) ∈ circuit_breaker_metrics_all bs.
Proof.
  intros Hcb. unfold circuit_breaker_metrics_all. rewrite merge_sort_Permutation.
  apply list_elem_of_fmap. exists (name, cb). split; [done|]. by apply elem_of_map_to_list.
Qed.

Lemma breaker_state_listed all name cb help kind :
  (name, CB.get_metrics cb) ∈ all →
  mk_sample (lit "scry_circuit_breaker_state") (Some (lit "backend", name))
    (match CB.get_state cb with CB.Closed => lit "0" | CB.Open => lit "1" | CB.HalfOpen => lit "2" end)
  ∈ f_samples (breaker_family all "scry_circuit_breaker_state" help kind state_value).
Proof.
  intros Hin. unfold breaker_family. cbn [f_samples]. destruct all as [|kv all]; [by apply elem_of_nil in Hin|].
  apply list_elem_of_fmap. exists (name, CB.get_metrics cb). split; [|done]. cbn [fst snd]. f_equal.
  unfold state_value. cbn [CB.get_metrics CB.m_state]. by destruct (CB.get_state cb).
Qed.

(** C28. The exported text is well formed whatever the backends are called: a
    reader of the format gets back exactly the families and samples, names with
    quotes, backslashes and newlines included; no family is written twice; and
    the state of every registered breaker is among them. *)
Theorem exposition_readable m bs uptime :
  ∃ fs, families m bs uptime = Ret fs ∧ export_metrics m bs uptime = Ret (render fs) ∧
    read_exposition (render fs) = Some fs ∧ NoDup (f_name <$> fs) ∧
    (∀ name cb, bs !! name = Some cb → ∃ f, f ∈ fs ∧
       mk_sample (lit "scry_circuit_breaker_state") (Some (lit "backend", name))
         (match CB.get_state cb with CB.Closed => lit "0" | CB.Open => lit "1" | CB.HalfOpen => lit "2" end)
       ∈ f_samples f).
Proof.
  assert (Hu : ∃ u, utilization (pool m) = Ret u).
  { unfold utilization. case_match; [eauto|]. rewrite Pg.release_u64_sub. eauto. }
  destruct Hu as [u Hu].
  assert (Hf : ∃ fs, families m bs uptime = Ret fs)
    by (unfold families, export_pool_metrics; rewrite Hu; eauto).
  destruct Hf as [fs Hf]. exists fs. unfold export_metrics. rewrite Hf.
  split_and!; [done..|by eapply render_readable, families_wf| |].
  - unfold families, export_pool_metrics in Hf. rewrite Hu in Hf. apply Ret_families in Hf as <-.
    rewrite !fmap_app.
    unfold export_query_counters, export_latency_metrics, export_timeline_metrics, export_proxy_overhead_metrics,
      export_pooling_metrics, export_connection_metrics, export_uptime, export_circuit_breaker_metrics.
    cbn [fmap list_fmap app f_name single summary breaker_family].
    apply (bool_decide_unpack _). vm_compute. exact I.
  - intros name cb Hcb. unfold families, export_pool_metrics in Hf. rewrite Hu in Hf. apply Ret_families in Hf as <-.
    eexists. split.
    { do 8 (apply elem_of_app; right). apply elem_of_cons. by left. }
    apply breaker_state_listed. by apply breaker_listed.
Qed.
End proxy_families.
End Prometheus.

(** ** The metrics server (observability/metrics_server.rs) *)
Module MetricsServer.
Import Metrics Prometheus.

Record MetricsServerConfig : Type := { listen_address : bytes; enable_debug_endpoints : bool }.
Definition default_config : MetricsServerConfig :=
  {| listen_address := lit "127.0.0.1:9090"; enable_debug_endpoints := false |}.

Record HealthResponse : Type := {
  h_status : CB.HealthStatus; h_warnings : list Health.HealthWarning;
  h_avg_error_rate : spec_float; h_avg_latency_p99_ms : spec_float; h_avg_pool_utilization : spec_float;
  h_sample_count : Z; h_uptime_seconds : Z; h_version : bytes
}.
Record PoolResponse : Type := {
  current_size : Z; available : Z; max_size : Z; utilization_ : spec_float; in_use : Z
}.
Record PhaseBreakdown : Type := {
  queue_time : spec_float; pool_acquire : spec_float; backend_execution : spec_float; total : spec_float
}.
Record TimelineResponse : Type := {
  average_breakdown_ms : PhaseBreakdown; p50_breakdown_ms : PhaseBreakdown;
  p95_breakdown_ms : PhaseBreakdown; p99_breakdown_ms : PhaseBreakdown
}.
Record HotDataResponse : Type := {
  top_fingerprints : list Hot.HotDataEntry; total_unique_fingerprints : Z; decay_factor : spec_float
}.
Inductive response : Type :=
| TextBody (b : bytes)
| HealthBody (r : HealthResponse)
| PoolBody (r : PoolResponse)
| TimelineBody (r : TimelineResponse)
| HotDataBody (r : HotDataResponse)
| NotFound.

Section handlers.
Context `{Build} `{Hdr}.
Context (hash_order : list (bytes * Z) → list (bytes * Z)).
Context (version : bytes).

Definition metrics_handler (m : ProxyMetrics) (bs : breakers) (uptime : Z) : outcome response :=
  text ← export_metrics m bs uptime; Ret (TextBody text).

Definition health_handler (m : ProxyMetrics) (uptime : Z) : response :=
  let h := health m in
  let b := Health.baseline h in
  HealthBody {|
    h_status := Health.get_status h; h_warnings := Health.get_warnings h;
    h_avg_error_rate := Health.avg_error_rate b; h_avg_latency_p99_ms := Health.avg_latency_p99 b;
    h_avg_pool_utilization := Health.avg_pool_utilization b; h_sample_count := Health.sample_count b;
    h_uptime_seconds := uptime; h_version := version
  |}.

Definition pool_handler (m : ProxyMetrics) : outcome response :=
  u ← utilization (pool m);
  used ← u64_sub (gauge (pool m) Size) (gauge (pool m) Available);
  Ret (PoolBody {| current_size := gauge (pool m) Size; available := gauge (pool m) Available;
                   max_size := gauge (pool m) MaxSize; utilization_ := u; in_use := used |}).

Definition breakdown (f : LatencyPercentilesMs → spec_float) (q : QueryMetrics) : PhaseBreakdown := {|
  queue_time := f (to_millis (get_queue_percentiles q));
  pool_acquire := f (to_millis (get_pool_acquire_percentiles q));
  backend_execution := f (to_millis (get_backend_percentiles q));
  total := f (to_millis (get_latency_percentiles q))
|}.
Definition timeline_handler (m : ProxyMetrics) : response :=
  TimelineBody {|
    average_breakdown_ms := breakdown mean_ms (query m);
    p50_breakdown_ms := breakdown p50 (query m);
    p95_breakdown_ms := breakdown p95 (query m);
    p99_breakdown_ms := breakdown p99 (query m)
  |}.

Definition hotdata_handler (m : ProxyMetrics) : response :=
  HotDataBody {|
    top_fingerprints := Hot.get_top_k hash_order (Hot.top_k (hot_data m));
    total_unique_fingerprints := Z.of_nat (Hot.unique_count (Hot.top_k (hot_data m)));
    decay_factor := f64_lit 99 100
  |}.

(** A GET of one of the five paths on a server bound to some address. *)
Definition handle (c : MetricsServerConfig) (loopback : bool) (m : ProxyMetrics) (bs : breakers) (uptime : Z)
    (r : route) : outcome response :=
  match r with
  | RMetrics => metrics_handler m bs uptime
  | RHealth => Ret (health_handler m uptime)
  | _ =>
      if enable_debug_endpoints c && loopback then
        match r with
        | RDebugPool => pool_handler m
        | RDebugTimeline => Ret (timeline_handler m)
        | _ => Ret (hotdata_handler m)
        end
      else Ret NotFound
  end.

(** The routes that answer are those that are mounted. *)
Lemma handled_iff_mounted c loopback m bs uptime r :
  r ∈ serve_routes (enable_debug_endpoints c) loopback ↔ handle c loopback m bs uptime r ≠ Ret NotFound.
Proof.
  unfold serve_routes, handle, metrics_handler, pool_handler.
  destruct (enable_debug_endpoints c), loopback, r; cbn; split; intros Hr; try done;
    try set_solver; try (intros Hc; outcome_inv; done).
Qed.

(** What the hot-data endpoint reports never reaches an address that is not
    loopback: the answers there do not depend on it. *)
Lemma hot_data_stays_local c m m' bs uptime r :
  with_hot (hot_data m') m = m' →
  handle c false m bs uptime r = handle c false m' bs uptime r.
Proof.
  intros <-. destruct r; cbn [handle]; rewrite ?andb_false_r; done.
Qed.
End handlers.

(** The two gauges are written one after the other: a scrape of the pool that
    sees more available connections than it has panics in a checked build and
    reports an absurd number otherwise. *)
Lemma pool_handler_underflow `{Hdr} m :
  gauge (pool m) Size = 1 → gauge (pool m) Available = 2 → gauge (pool m) MaxSize = 0 →
  pool_handler (H := debug_build) m = Panic ∧
  ∃ u, pool_handler (H := release_build) m
       = Ret (PoolBody {| current_size := 1; available := 2; max_size := 0; utilization_ := u;
                          in_use := 18446744073709551615 |}).
Proof.
  intros Hs Ha Hm. unfold pool_handler, utilization. rewrite Hs, Ha, Hm. split; [done|]. by eexists.
Qed.
End MetricsServer.
