(* ===== verification/Bench.v ===== *)
(** * The benchmark runner (benchmarks/src: params.rs, queries.rs, results.rs,
      runner.rs, main.rs)

    A program of its own that loads the proxy with queries.  [Queries] holds the
    texts it sends and how it picks among them, [Workers] its worker tasks at the
    granularity of single accesses to the shared counters, [Runner] the whole of
    [run_benchmark].  The random choices, the answers of the database, the clock
    and the order in which tasks run are inputs. *)

From Stdlib Require Import Floats.SpecFloat.
From S2P Require Import Prelude RustStr Acquire Metrics Direct.

Module Queries.

(** ** Parameters *)
Record QueryParams : Type := {
  user_ids : list Z; product_ids : list Z; order_ids : list Z; categories : list bytes
}.

Inductive load_error : Type := NoConnection | NoUsers | NoProducts | NoOrders | NoCategories.

(** The five answers [load] waits for, in its order. *)
Definition load (connected : bool) (users products orders : option (list Z))
    (cats : option (list bytes)) : load_error + QueryParams :=
  if negb connected then inl NoConnection else
  match users with None => inl NoUsers | Some u =>
  match products with None => inl NoProducts | Some p =>
  match orders with None => inl NoOrders | Some o =>
  match cats with None => inl NoCategories | Some c =>
    inr {| user_ids := u; product_ids := p; order_ids := o; categories := c |}
  end end end end.

Definition is_valid (p : QueryParams) : bool :=
  negb (bool_decide (user_ids p = [])) && negb (bool_decide (product_ids p = [])).

(** ** Query texts *)

(** [i32]'s and [i64]'s [Display]. *)
Definition int_to_string (z : Z) : bytes :=
  if z <? 0 then x2d :: Direct.u64_to_string (- z) else Direct.u64_to_string z.

(** [cat.replace('\'', "''")]. *)
Fixpoint escape (s : bytes) : bytes :=
  match s with
  | [] => []
  | b :: s' => if beqb b x27 then x27 :: x27 :: escape s' else b :: escape s'
  end.

Definition nl : bytes := [x0a].

(** [category] is the choice among the categories, none when there are none;
    [page] is drawn from 0..5. *)
Definition browse_products (category : option bytes) (page : Z) : bytes :=
  lit "SELECT id, sku, name, price, category" ++ nl
    ++ lit "             FROM products" ++ nl
    ++ match category with
       | Some cat =>
           lit "             WHERE is_active = true AND category = '" ++ escape cat ++ x27 :: nl
       | None => lit "             WHERE is_active = true" ++ nl
       end
    ++ lit "             ORDER BY created_at DESC" ++ nl
    ++ lit "             LIMIT 20 OFFSET " ++ int_to_string (page * 20).

Definition view_product (product_id : option Z) : option bytes :=
  (λ id, lit "SELECT * FROM products WHERE id = " ++ int_to_string id) <$> product_id.

Definition search_terms : list bytes :=
  [lit "laptop"; lit "mouse"; lit "keyboard"; lit "monitor"; lit "headset"; lit "wireless";
   lit "gaming"; lit "Product"].
Definition search_products (choice : nat) : bytes :=
  let term := default (lit "laptop") (search_terms !! choice) in
  lit "SELECT id, sku, name, price" ++ nl
    ++ lit "         FROM products" ++ nl
    ++ lit "         WHERE is_active = true AND name ILIKE '%" ++ escape term ++ lit "%'" ++ nl
    ++ lit "         LIMIT 10".

Definition order_history (user_id : option Z) : option bytes :=
  (λ id, lit "SELECT o.id, o.order_number, o.status, o.total_amount, o.created_at" ++ nl
    ++ lit "             FROM orders o" ++ nl
    ++ lit "             WHERE o.user_id = " ++ int_to_string id ++ nl
    ++ lit "             ORDER BY o.created_at DESC" ++ nl
    ++ lit "             LIMIT 5") <$> user_id.

Definition order_details (order_id : option Z) : option bytes :=
  (λ id, lit "SELECT oi.*, p.name as product_name" ++ nl
    ++ lit "             FROM order_items oi" ++ nl
    ++ lit "             JOIN products p ON p.id = oi.product_id" ++ nl
    ++ lit "             WHERE oi.order_id = " ++ int_to_string id) <$> order_id.

(** ** Query types *)
Inductive QueryType : Type :=
| BrowseProducts | ViewProduct | SearchProducts | OrderHistory | OrderDetails.
#[export] Instance QueryType_eq_dec : EqDecision QueryType.
Proof. solve_decision. Defined.

Definition weighted_all : list (QueryType * Z) :=
  [(BrowseProducts, 42); (ViewProduct, 26); (SearchProducts, 16); (OrderHistory, 11);
   (OrderDetails, 5)].

(** The sum of the weights in a [u8]. *)
Definition total_weight `{Build} : outcome Z :=
  ofoldl (λ acc w, wrap_or_panic 256 (acc + w.2)) 0 weighted_all.

(** The loop of [random] from the number drawn. *)
Fixpoint pick_from `{Build} (weighted : list (QueryType * Z)) (pick : Z) : outcome QueryType :=
  match weighted with
  | [] => Ret BrowseProducts
  | (qt, weight) :: rest =>
      if pick <? weight then Ret qt
      else pick' ← wrap_or_panic 256 (pick - weight); pick_from rest pick'
  end.
Definition random `{Build} (pick : Z) : outcome QueryType := pick_from weighted_all pick.

Definition name (qt : QueryType) : bytes :=
  match qt with
  | BrowseProducts => lit "browse_products" | ViewProduct => lit "view_product"
  | SearchProducts => lit "search_products" | OrderHistory => lit "order_history"
  | OrderDetails => lit "order_details"
  end.

(** The messages a simple query answers with, as far as they are told apart. *)
Inductive SimpleQueryMessage : Type := Row | OtherMessage.
Definition row_count (results : list SimpleQueryMessage) : Z :=
  Z.of_nat (length (filter (λ r, match r with Row => true | OtherMessage => false end = true) results)).

(** [choice] picks from a list as [SliceRandom::choose] does: nothing from an
    empty one.  No text: nothing is sent and no row counted. *)
Definition choose {A} (l : list A) (choice : nat) : option A :=
  l !! (choice mod length l)%nat.
Definition query_text (qt : QueryType) (p : QueryParams) (choice : nat) (page : Z) : option bytes :=
  match qt with
  | BrowseProducts => Some (browse_products (choose (categories p) choice) page)
  | ViewProduct => view_product (choose (product_ids p) choice)
  | SearchProducts => Some (search_products (choice mod 8)%nat)
  | OrderHistory => order_history (choose (user_ids p) choice)
  | OrderDetails => order_details (choose (order_ids p) choice)
  end.
Definition execute (qt : QueryType) (p : QueryParams) (choice : nat) (page : Z)
    (simple_query : bytes → option (list SimpleQueryMessage)) : option Z :=
  match query_text qt p choice page with
  | Some text => row_count <$> simple_query text
  | None => Some 0
  end.

(** ** A category is sent as one literal *)

(** A string literal of SQL, from behind its opening quote: its value and what
    follows its closing quote. *)
Fixpoint read_literal (s : bytes) : option (bytes * bytes) :=
  match s with
  | [] => None
  | b :: s' =>
      if beqb b x27 then
        match s' with
        | b' :: s'' => if beqb b' x27 then (λ r, (x27 :: r.1, r.2)) <$> read_literal s''
                       else Some ([], s')
        | [] => Some ([], [])
        end
      else (λ r, (b :: r.1, r.2)) <$> read_literal s'
  end.

Lemma read_escape s rest :
  head rest ≠ Some x27 → read_literal (escape s ++ x27 :: rest) = Some (s, rest).
Proof.
  intros Hr. induction s as [|b s IH]; cbn -[beqb].
  - change (beqb x27 x27) with true. cbn iota. destruct rest as [|b' rest']; [done|].
    unfold beqb. rewrite bool_decide_false; [done|]. intros ->. by apply Hr.
  - unfold beqb at 1. case_bool_decide as Hb.
    + subst b. cbn -[beqb]. change (beqb x27 x27) with true. cbn iota. by rewrite IH.
    + cbn -[beqb]. unfold beqb at 1. rewrite bool_decide_false by done. by rewrite IH.
Qed.

Definition browse_head : bytes :=
  lit "SELECT id, sku, name, price, category" ++ nl
    ++ lit "             FROM products" ++ nl
    ++ lit "             WHERE is_active = true AND category = '".

(** Whatever a category contains, the server reads it back as one literal and the
    clauses that follow are those of the program. *)
Theorem category_is_one_literal cat page :
  ∃ rest, browse_products (Some cat) page = browse_head ++ rest ∧
    read_literal rest = Some (cat, nl ++ lit "             ORDER BY created_at DESC" ++ nl
      ++ lit "             LIMIT 20 OFFSET " ++ int_to_string (page * 20)).
Proof.
  eexists. split.
  - unfold browse_products, browse_head. by rewrite <-!app_assoc.
  - by apply read_escape.
Qed.

(** ** The mix of queries *)
Definition picks : list Z := seqZ 0 100.

Definition gives `{Build} (qt : QueryType) (k : Z) : bool :=
  match random k with Ret q => bool_decide (q = qt) | _ => false end.

(** The weights sum to 100, no number drawn overflows, and of the hundred numbers
    each type is given to as many as its weight says. *)
Theorem random_follows_weights (B : Build) :
  total_weight = Ret 100 ∧ Forall (λ k, returns (random k) = true) picks ∧
  Forall (λ w, Z.of_nat (length (filter (λ k, gives w.1 k = true) picks)) = w.2) weighted_all.
Proof. destruct B as [[]]; split_and!; repeat constructor; vm_compute; done. Qed.

(** With valid parameters only the details of an order can go unsent, when there
    are no orders. *)
Theorem valid_params_query qt p choice page :
  is_valid p = true → query_text qt p choice page = None → qt = OrderDetails ∧ order_ids p = [].
Proof.
  unfold is_valid. intros [Hu Hp]%andb_true_iff. rewrite negb_true_iff, bool_decide_eq_false in Hu, Hp.
  assert (Hc : ∀ A (l : list A), choose l choice = None → l = []).
  { intros A [|a l]; [done|]. intros Hn%lookup_ge_None. exfalso.
    pose proof (Nat.mod_upper_bound choice (length (a :: l))). simpl in *. lia. }
  destruct qt; cbn; [done| |done| |]; intros Hq%fmap_None%Hc; by auto.
Qed.
End Queries.

(** ** The worker tasks *)
Module Workers.
Section workers.
Context {H : Type} (hist_record : H → Z → option H).

(** [LatencyHistogram::record]: a value the histogram refuses is dropped. *)
Definition record (h : H) (nanos : Z) : H :=
  default h (hist_record h (Z.max ((nanos / 1000) mod two64) 1)).

(** Where a worker is in its loop: about to take a query from [remaining], about
    to put one back, waiting for a permit, at its query, about to count it, about
    to drop the permit, out of the loop. *)
Inductive phase : Type :=
| Deciding | Restoring | Waiting | Querying | Counting (ok : bool) | Releasing | Stopped.

Record BenchmarkState : Type := shared {
  histogram : H; successful : Z; failed : Z; remaining : Z; permits : Z
}.

Definition set_remaining (s : BenchmarkState) (r : Z) : BenchmarkState :=
  shared (histogram s) (successful s) (failed s) r (permits s).
Definition set_permits (s : BenchmarkState) (p : Z) : BenchmarkState :=
  shared (histogram s) (successful s) (failed s) (remaining s) p.
Definition count (s : BenchmarkState) (ok : bool) : BenchmarkState :=
  shared (histogram s) (if ok then atomic_add two64 (successful s) 1 else successful s)
    (if ok then failed s else atomic_add two64 (failed s) 1) (remaining s) (permits s).

(** One access of a worker; [ok] and [nanos] are how its query ends and how long
    it took.  [None] when the worker has to wait or has ended. *)
Definition worker_step (ph : phase) (ok : bool) (nanos : Z) (s : BenchmarkState) :
    option (phase * BenchmarkState) :=
  match ph with
  | Deciding =>
      Some (if remaining s =? 0 then Restoring else Waiting,
            set_remaining s (atomic_add two64 (remaining s) (-1)))
  | Restoring => Some (Stopped, set_remaining s (atomic_add two64 (remaining s) 1))
  | Waiting => if 0 <? permits s then Some (Querying, set_permits s (permits s - 1)) else None
  | Querying =>
      Some (Counting ok, shared (record (histogram s) nanos) (successful s) (failed s)
                           (remaining s) (permits s))
  | Counting ok => Some (Releasing, count s ok)
  | Releasing => Some (Deciding, set_permits s (permits s + 1))
  | Stopped => None
  end.

Record world : Type := world_ { workers : gmap nat phase; sh : BenchmarkState }.

(** Worker [i] takes a step. *)
Record move : Type := move_ { who : nat; ends_ok : bool; took : Z }.
Definition step (w : world) (m : move) : option world :=
  ph ← workers w !! who m;
  r ← worker_step ph (ends_ok m) (took m) (sh w);
  Some (world_ (<[who m := r.1]> (workers w)) r.2).
Fixpoint run (w : world) (ms : list move) : option world :=
  match ms with
  | [] => Some w
  | m :: ms => w' ← step w m; run w' ms
  end.

Fixpoint spawn (n : nat) : gmap nat phase :=
  match n with O => ∅ | S n => <[n := Deciding]> (spawn n) end.
Definition start (h : H) (connections : nat) (total : Z) : world :=
  world_ (spawn connections) (shared h 0 0 total (Z.of_nat connections)).

Definition stopped (ph : phase) : bool := match ph with Stopped => true | _ => false end.
Definition restoring (ph : phase) : bool := match ph with Restoring => true | _ => false end.
Definition deciding (ph : phase) : bool := match ph with Deciding => true | _ => false end.
(** Has taken a query it has not counted. *)
Definition taken (ph : phase) : bool :=
  match ph with Waiting | Querying | Counting _ => true | _ => false end.
Definition holding (ph : phase) : bool :=
  match ph with Querying | Counting _ | Releasing => true | _ => false end.

Definition number (P : phase → bool) (w : world) : Z := map_count P (workers w).
Definition all_stopped (w : world) : Prop := map_Forall (λ _ ph, stopped ph = true) (workers w).
(** Queries counted so far. *)
Definition counted (w : world) : Z := successful (sh w) + failed (sh w).

(** *** Invariant *)
Record inv (n : nat) (total k : Z) (w : world) : Prop := {
  i_size : Z.of_nat (size (workers w)) = Z.of_nat n;
  i_range : 0 ≤ remaining (sh w) < two64;
  i_counts : 0 ≤ successful (sh w) ∧ 0 ≤ failed (sh w) ∧ counted w ≤ k;
  i_permits : permits (sh w) + number holding w = Z.of_nat n;
  i_balance : ∃ q, remaining (sh w) + counted w + number taken w + number restoring w
                   = total + q * two64;
  i_work : (number restoring w = 0 ∧ number stopped w = 0
            ∧ remaining (sh w) + counted w + number taken w = total)
           ∨ total ≤ counted w + number taken w
}.

Lemma number_step P w i ph ph' s :
  workers w !! i = Some ph →
  number P (world_ (<[i := ph']> (workers w)) s)
    = number P w - bool_to_Z (P ph) + bool_to_Z (P ph').
Proof. apply map_count_update. Qed.

Lemma number_nonneg P w : 0 ≤ number P w.
Proof. unfold number, map_count. lia. Qed.

Lemma number_pos P w i ph : workers w !! i = Some ph → bool_to_Z (P ph) ≤ number P w.
Proof.
  intros Hw. pose proof (map_count_delete P _ _ _ Hw) as Hd. unfold number.
  enough (0 ≤ map_count P (delete i (workers w))) by lia. unfold map_count. lia.
Qed.
Lemma spawn_fresh n m : (n ≤ m)%nat → spawn n !! m = None.
Proof.
  induction n as [|n IH]; intros Hm; [done|]. cbn. rewrite lookup_insert_ne by lia. apply IH. lia.
Qed.
Lemma number_spawn P n : map_count P (spawn n) = Z.of_nat n * bool_to_Z (P Deciding).
Proof.
  induction n as [|n IH]; [apply map_count_empty|]. cbn [spawn].
  rewrite map_count_insert, IH by by apply spawn_fresh. lia.
Qed.
Lemma size_spawn n : size (spawn n) = n.
Proof.
  induction n as [|n IH]; [done|]. cbn [spawn]. by rewrite map_size_insert_None, IH by by apply spawn_fresh.
Qed.

Lemma inv_start h n total : 0 ≤ total < two64 → inv n total 0 (start h n total).
Proof.
  intros Ht. split; unfold counted, number; cbn [start workers sh successful failed remaining permits];
    rewrite ?number_spawn, ?size_spawn; cbn [bool_to_Z restoring taken holding stopped]; try lia.
  exists 0. lia.
Qed.

(** A step of a worker, told apart by its phase. *)
Lemma step_cases w m w' :
  step w m = Some w' →
  ∃ ph ph' s, workers w !! who m = Some ph ∧ worker_step ph (ends_ok m) (took m) (sh w) = Some (ph', s)
    ∧ w' = world_ (<[who m := ph']> (workers w)) s.
Proof.
  unfold step. destruct (workers w !! who m) as [ph|] eqn:Hw; [|done]. cbn.
  destruct (worker_step ph _ _ _) as [[ph' s]|] eqn:Hs; [|done]. cbn. intros [= <-]. eauto 8.
Qed.

Lemma atomic_add_range a b : 0 ≤ atomic_add two64 a b < two64.
Proof. unfold atomic_add. by apply Z.mod_pos_bound. Qed.
Lemma atomic_add_eq a b : ∃ q, atomic_add two64 a b = a + b + q * two64.
Proof. exists (- ((a + b) / two64)). unfold atomic_add. rewrite Z.mod_eq by done. lia. Qed.
Lemma atomic_add_fits a b : 0 ≤ a + b < two64 → atomic_add two64 a b = a + b.
Proof. apply Z.mod_small. Qed.

(** Every clause of the invariant from the changes in the numbers; [q] is how often
    the counter has wrapped. *)
Ltac balance q :=
  cbn in *; split; unfold counted; cbn in *;
  repeat match goal with Hn : number _ (world_ _ _) = _ |- _ => rewrite Hn; clear Hn end;
  rewrite ?atomic_add_fits by lia; try lia; try (exists q; lia).

Lemma inv_step n total k w m w' :
  0 ≤ k < two64 - 1 → step w m = Some w' → inv n total k w → inv n total (k + 1) w'.
Proof.
  intros Hk (ph & ph' & s & Hw & Hs & ->)%step_cases [Hsz Hr (Hsu & Hfa & Hc) Hp [q Hb] Hwk].
  assert (Hsize : Z.of_nat (size (<[who m:=ph']> (workers w))) = Z.of_nat n)
    by by rewrite map_size_insert_Some by eauto.
  pose proof (number_step restoring w _ _ ph' s Hw) as Hre.
  pose proof (number_step taken w _ _ ph' s Hw) as Hta.
  pose proof (number_step holding w _ _ ph' s Hw) as Hho.
  pose proof (number_step stopped w _ _ ph' s Hw) as Hst.
  pose proof (number_pos restoring w _ _ Hw). pose proof (number_pos taken w _ _ Hw).
  pose proof (atomic_add_range (remaining (sh w)) (-1)). pose proof (atomic_add_range (remaining (sh w)) 1).
  destruct (atomic_add_eq (remaining (sh w)) (-1)) as [q1 Hq1].
  destruct (atomic_add_eq (remaining (sh w)) 1) as [q2 Hq2].
  pose proof (number_nonneg restoring w).
  unfold counted in *.
  destruct ph as [| | | |ok| |]; cbn in Hs; simplify_eq.
  - destruct (remaining (sh w) =? 0) eqn:Hz; bool_to_Z; cbn in *;
      split; unfold counted; cbn in *; rewrite ?Hre, ?Hta, ?Hho, ?Hst; try lia;
      try (exists (q + q1); lia).
    destruct Hwk as [Hwk|]; [left|right; lia]. rewrite atomic_add_fits by lia. lia.
  - cbn in *; split; unfold counted; cbn in *; rewrite ?Hre, ?Hta, ?Hho, ?Hst; try lia;
      try (exists (q + q2); lia).
  - destruct (0 <? permits (sh w)) eqn:Hz; simplify_eq. balance q.
  - balance q.
  - destruct ok; balance q.
  - balance q.
Qed.

Lemma run_length_inv n total ms k w w' :
  run w ms = Some w' → 0 ≤ k → k + Z.of_nat (length ms) < two64 →
  inv n total k w → inv n total (k + Z.of_nat (length ms)) w'.
Proof.
  revert k w. induction ms as [|m ms IH]; cbn [run length]; intros k w Hr Hk Hl Hi.
  - simplify_eq. by replace (k + Z.of_nat 0) with k by lia.
  - destruct (step w m) as [w1|] eqn:Hs; [|done]. cbn in Hr.
    replace (k + Z.of_nat (S (length ms))) with (k + 1 + Z.of_nat (length ms)) by lia.
    apply (IH _ w1); [done|lia|lia|]. eapply inv_step; [lia|done..].
Qed.

(** A run short enough that no counter of queries wraps; it would take centuries. *)
Definition short (ms : list move) : Prop := Z.of_nat (length ms) < two64.

Lemma run_keeps_inv h n total ms w :
  0 ≤ total < two64 → short ms → run (start h n total) ms = Some w →
  inv n total (Z.of_nat (length ms)) w.
Proof.
  intros Ht Hm Hr. eapply (run_length_inv n total ms 0) in Hr; [done|lia|done|by apply inv_start].
Qed.

Lemma all_stopped_none P w : (P Stopped = false) → all_stopped w → number P w = 0.
Proof.
  intros HP Ha. apply map_count_none. intros i ph Hi. specialize (Ha i ph Hi). by destruct ph.
Qed.

(** *** What holds of every schedule *)

Lemma inv_done n total k w : inv n total k w → (0 < n)%nat → all_stopped w → total ≤ counted w.
Proof.
  intros [Hsz _ _ _ _ Hwk] Hn Ha. rewrite (all_stopped_none taken) in Hwk by done.
  enough (0 < number stopped w) by lia.
  destruct (map_choose (workers w)) as (i & ph & Hi).
  { intros He. rewrite He, map_size_empty in Hsz. lia. }
  pose proof (number_pos stopped w i ph Hi) as Hp. rewrite (Ha _ _ Hi) in Hp. cbn in Hp. lia.
Qed.

Lemma inv_can_step n total k w i ph ok nanos :
  inv n total k w → workers w !! i = Some ph → stopped ph = false →
  is_Some (step w (move_ i ok nanos)).
Proof.
  intros [Hsz _ _ Hp _ _] Hi Hs. unfold step. cbn. rewrite Hi. cbn. destruct ph; cbn; try done.
  assert (number holding w < Z.of_nat n); [|destruct (Z.ltb_spec 0 (permits (sh w))); [eauto|lia]].
  pose proof (map_count_delete holding _ _ _ Hi) as Hd. cbn in Hd.
  pose proof (map_count_size holding (delete i (workers w))) as Hle.
  rewrite map_size_delete_Some in Hle by eauto. unfold number.
  assert (size (workers w) ≠ 0%nat) by (intros He%map_size_empty_inv; by rewrite He in Hi). lia.
Qed.

(** No worker leaves before all the queries have been taken, and when all have
    left at least as many have been counted as were asked for. *)
Theorem no_query_left_out h n total ms w :
  0 ≤ total < two64 → short ms → run (start h n total) ms = Some w →
  (0 < number stopped w → total ≤ counted w + number taken w) ∧
  ((0 < n)%nat → all_stopped w → total ≤ counted w).
Proof.
  intros Ht Hm Hr. pose proof (run_keeps_inv _ _ _ _ _ Ht Hm Hr) as Hi.
  split; [|by eapply inv_done]. destruct Hi as [_ _ _ _ _ Hwk]. lia.
Qed.

(** No worker waits: there are as many permits as workers. *)
Theorem never_blocked h n total ms w i ph ok nanos :
  0 ≤ total < two64 → short ms → run (start h n total) ms = Some w →
  workers w !! i = Some ph → stopped ph = false → is_Some (step w (move_ i ok nanos)).
Proof. intros Ht Hm Hr. eapply inv_can_step, run_keeps_inv; done. Qed.

(** *** Without overlap the runner is exact

    A schedule in which no worker decides while another has yet to put a query
    back. *)
Fixpoint calm (w : world) (ms : list move) : bool :=
  match ms with
  | [] => true
  | m :: ms =>
      ((number restoring w =? 0) || negb (default false (deciding <$> workers w !! who m)))
      && match step w m with Some w' => calm w' ms | None => true end
  end.

Definition exact (total : Z) (w : world) : Prop :=
  (number restoring w = 0 ∧ remaining (sh w) + counted w + number taken w = total)
  ∨ (number restoring w = 1 ∧ remaining (sh w) = two64 - 1 ∧ counted w + number taken w = total).

(** How many more steps the workers take before they are about to decide or, from
    there, before they have left. *)
Definition rank (ph : phase) : Z :=
  match ph with
  | Stopped => 0 | Restoring => 1 | Deciding => 2 | Releasing => 3 | Counting _ => 4
  | Querying => 5 | Waiting => 6
  end.
Definition at_least (j : Z) (ph : phase) : bool := j <=? rank ph.
Definition ahead (w : world) : Z :=
  number (at_least 1) w + number (at_least 2) w + number (at_least 3) w
  + number (at_least 4) w + number (at_least 5) w + number (at_least 6) w.
(** What is left to do: five steps a query that nobody has taken. *)
Definition effort (total : Z) (w : world) : Z := 5 * (total - counted w - number taken w) + ahead w.

Lemma ahead_step w i ph ph' s :
  workers w !! i = Some ph →
  ahead (world_ (<[i := ph']> (workers w)) s) = ahead w - rank ph + rank ph'.
Proof.
  intros Hw. unfold ahead. rewrite !(λ P, number_step P w i ph ph' s Hw). destruct ph, ph'; cbn; lia.
Qed.

(** Every step, of any schedule, is one unit of effort. *)
Lemma effort_step n total k w m w' :
  0 ≤ k < two64 - 1 → inv n total k w → step w m = Some w' → effort total w' = effort total w - 1.
Proof.
  intros Hk [_ _ (Hsu & Hfa & Hc) _ _ _] (ph & ph' & s & Hw & Hs & ->)%step_cases.
  unfold effort. rewrite (ahead_step _ _ _ _ _ Hw), (number_step taken _ _ _ _ _ Hw).
  unfold counted in *.
  destruct ph as [| | | |[]| |]; cbn in Hs; simplify_eq; cbn;
    rewrite ?atomic_add_fits by lia; try lia; case_bool; simplify_eq; cbn; lia.
Qed.

Lemma exact_step n total k w m w' :
  0 ≤ total < two64 → 0 ≤ k < two64 - 1 → inv n total k w → calm w [m] = true →
  step w m = Some w' → exact total w → exact total w'.
Proof.
  intros Ht Hk [_ Hr (Hsu & Hfa & Hc) _ _ _] Hcalm Hstep Hex.
  cbn [calm] in Hcalm. apply andb_true_iff in Hcalm as [Hcalm _].
  apply step_cases in Hstep as (ph & ph' & s & Hw & Hs & ->). rewrite Hw in Hcalm. cbn in Hcalm.
  unfold exact, counted in *.
  rewrite (number_step taken _ _ _ _ _ Hw), (number_step restoring _ _ _ _ _ Hw).
  pose proof (number_pos restoring w _ _ Hw). pose proof (number_nonneg taken w).
  destruct ph as [| | | |[]| |]; cbn in Hs; simplify_eq; cbn in *;
    rewrite ?atomic_add_fits by lia; try lia.
  - rewrite orb_false_r in Hcalm. bool_to_Z. destruct Hex as [Hex|Hex]; [|lia].
    destruct (remaining (sh w) =? 0) eqn:Hz; bool_to_Z; cbn;
      [right; rewrite Hz; change (atomic_add two64 0 (-1)) with (two64 - 1); lia|left; rewrite atomic_add_fits by lia; lia].
  - destruct Hex as [Hex|(Hex & -> & Hex')]; [lia|left].
    change (atomic_add two64 (two64 - 1) 1) with 0. lia.
  - case_bool; simplify_eq. cbn. lia.
Qed.

Lemma calm_cons w m ms :
  calm w (m :: ms) = true → calm w [m] = true ∧ ∀ w', step w m = Some w' → calm w' ms = true.
Proof.
  cbn. intros [Hd Hr]%andb_true_iff. rewrite Hd. split; [by destruct (step w m)|].
  intros w' Hs. by rewrite Hs in Hr.
Qed.

Lemma calm_run_inv n total ms k w w' :
  0 ≤ total < two64 → run w ms = Some w' → calm w ms = true → 0 ≤ k →
  k + Z.of_nat (length ms) < two64 → inv n total k w → exact total w →
  exact total w' ∧ effort total w' = effort total w - Z.of_nat (length ms).
Proof.
  intros Ht. revert k w. induction ms as [|m ms IH]; cbn [run length]; intros k w Hr Hc Hk Hl Hi He.
  - simplify_eq. split; [done|]. lia.
  - destruct (step w m) as [w1|] eqn:Hs; [|done]. cbn in Hr.
    apply calm_cons in Hc as [Hc Hc']. specialize (Hc' _ Hs).
    destruct (IH (k + 1) w1 Hr Hc') as [Hx Hf]; [lia|lia| | |].
    + eapply inv_step; [lia|done..].
    + eapply exact_step; [done| |done..]. lia.
    + split; [done|]. rewrite Hf, (effort_step n total k w m w1) by (done || lia). lia.
Qed.

Lemma exact_start h n total : exact total (start h n total).
Proof.
  left. unfold counted, number. cbn [start workers sh successful failed remaining].
  rewrite !number_spawn. cbn [bool_to_Z restoring taken]. lia.
Qed.
Lemma effort_start h n total : effort total (start h n total) = 5 * total + 2 * Z.of_nat n.
Proof.
  unfold effort, ahead, counted, number. cbn [start workers sh successful failed].
  rewrite !number_spawn. cbn. lia.
Qed.
Lemma effort_bound n total k w : inv n total k w → exact total w → 0 ≤ effort total w.
Proof.
  intros [_ Hr _ _ _ _] He. unfold effort, ahead.
  pose proof (λ j, number_nonneg (at_least j) w) as Hn.
  pose proof (Hn 1). pose proof (Hn 2). pose proof (Hn 3). pose proof (Hn 4). pose proof (Hn 5).
  pose proof (Hn 6). unfold exact in He. lia.
Qed.

(** When no worker decides while another has yet to put a query back, never more
    queries are taken than asked for, there are at most five steps a query and two
    a worker, and exactly as many queries as asked for are counted when all the
    workers have left. *)
Theorem exact_without_overlap h n total ms w :
  0 ≤ total < two64 → short ms → run (start h n total) ms = Some w →
  calm (start h n total) ms = true →
  counted w + number taken w ≤ total ∧
  Z.of_nat (length ms) ≤ 5 * total + 2 * Z.of_nat n ∧
  ((0 < n)%nat → all_stopped w → counted w = total ∧ remaining (sh w) = 0).
Proof.
  intros Ht Hm Hr Hc. pose proof (inv_start h n total Ht) as Hi0.
  destruct (calm_run_inv n total ms 0 _ _ Ht Hr Hc) as [He Hf]; [lia|done..|apply exact_start|].
  pose proof (run_keeps_inv _ _ _ _ _ Ht Hm Hr) as Hi. rewrite effort_start in Hf.
  pose proof (effort_bound _ _ _ _ Hi He). pose proof (i_range _ _ _ _ Hi).
  split_and!; [unfold exact in He; lia|lia|]. intros Hn Ha.
  pose proof (inv_done _ _ _ _ Hi Hn Ha). unfold exact in He.
  rewrite (all_stopped_none taken), (all_stopped_none restoring) in He by done. lia.
Qed.

(** Who goes next without overlap: a worker with a query to put back, if any. *)
Lemma calm_next n total k w :
  inv n total k w → ¬ all_stopped w → ∃ m, is_Some (step w m) ∧ calm w [m] = true.
Proof.
  intros Hi Hs. destruct (Z.eq_dec (number restoring w) 0) as [Hz|Hz].
  - apply map_not_Forall in Hs as (i & ph & Hl & Hs); [|apply _].
    exists (move_ i true 0). split.
    + eapply inv_can_step; [done..|]. by destruct ph.
    + cbn [calm]. rewrite Hz. cbn. by destruct (step _ _).
  - destruct (map_count_some restoring (workers w)) as (i & ph & Hl & Hp).
    { pose proof (number_nonneg restoring w). unfold number in *. lia. }
    exists (move_ i true 0). destruct ph; try done. split.
    + by eapply inv_can_step.
    + cbn [calm who]. rewrite Hl. cbn. rewrite orb_true_r. by destruct (step _ _).
Qed.

Lemma calm_completes_from n total fuel k w :
  0 ≤ total < two64 → 0 ≤ k → inv n total k w → exact total w →
  effort total w ≤ Z.of_nat fuel → k + Z.of_nat fuel < two64 - 1 →
  ∃ ms w', run w ms = Some w' ∧ calm w ms = true ∧ all_stopped w'.
Proof.
  intros Ht. revert k w. induction fuel as [|fuel IH]; intros k w Hk Hi He Hf Hl;
    (destruct (decide (all_stopped w)) as [Ha|Ha]; [by exists [], w|]);
    destruct (calm_next _ _ _ _ Hi Ha) as (m & [w1 Hs] & Hc);
    pose proof (effort_step _ _ k _ _ _ ltac:(lia) Hi Hs);
    pose proof (inv_step _ _ k _ _ _ ltac:(lia) Hs Hi) as Hi1;
    pose proof (exact_step _ _ k _ _ _ Ht ltac:(lia) Hi Hc Hs He) as He1;
    pose proof (effort_bound _ _ _ _ Hi1 He1); [lia|].
  destruct (IH (k + 1) w1) as (ms & w' & Hr & Hcm & Ha'); [lia|done|done|lia|lia|].
  exists (m :: ms), w'. cbn [run]. rewrite Hs. split; [done|]. split; [|done].
  cbn [calm] in *. rewrite Hs in *. rewrite andb_true_r in Hc. by rewrite Hc.
Qed.

(** Scheduled so, the runner comes to its end. *)
Theorem calm_run_completes h n total :
  0 ≤ total → 5 * total + 2 * Z.of_nat n < two64 - 1 →
  ∃ ms w, run (start h n total) ms = Some w ∧ calm (start h n total) ms = true ∧ all_stopped w.
Proof.
  intros Ht Hl. assert (0 ≤ total < two64) by lia.
  apply (calm_completes_from n total (Z.to_nat (5 * total + 2 * Z.of_nat n)) 0);
    auto using inv_start, exact_start with lia. rewrite effort_start. lia.
Qed.

(** *** With overlap it goes on

    Whoever is at work when the counter has wrapped around cannot leave before it
    has come down to zero again. *)
Definition at_work (w : world) (i : nat) : Prop :=
  ∃ ph, workers w !! i = Some ph ∧ restoring ph = false ∧ stopped ph = false.

Lemma at_work_step n total k w m w' i :
  inv n total k w → step w m = Some w' → 1 ≤ remaining (sh w) →
  remaining (sh w) + number restoring w < two64 → at_work w i →
  at_work w' i ∧ remaining (sh w) - 1 ≤ remaining (sh w') ∧
  remaining (sh w') + number restoring w' ≤ remaining (sh w) + number restoring w.
Proof.
  intros [_ Hr _ _ _ _] (ph & ph' & s & Hw & Hs & ->)%step_cases H1 Hu (ph0 & Hi & Hre & Hst).
  rewrite (number_step restoring _ _ _ _ _ Hw). pose proof (number_pos restoring w _ _ Hw) as Hp.
  unfold at_work. cbn [workers sh].
  assert (Hph : ph' = Restoring ∨ ph' = Stopped → ph = Restoring).
  { destruct ph as [| | | |ok| |]; cbn in Hs; simplify_eq;
      try (destruct (Z.eqb_spec (remaining (sh w)) 0); [lia|]); try case_bool; naive_solver. }
  split.
  - destruct (decide (i = who m)) as [->|Hne].
    + rewrite lookup_insert_eq. rewrite Hw in Hi. injection Hi as <-. eexists. split; [done|].
      destruct ph'; try done; rewrite Hph in Hre by auto; done.
    + rewrite lookup_insert_ne by done. eauto.
  - destruct ph as [| | | |[]| |]; cbn in Hs; simplify_eq; cbn in *;
      try (destruct (Z.eqb_spec (remaining (sh w)) 0); [lia|]);
      try (case_bool; simplify_eq); cbn; rewrite ?atomic_add_fits by lia; lia.
Qed.

Lemma at_work_run n total ms k w w' i :
  inv n total k w → 0 ≤ k → k + Z.of_nat (length ms) < two64 → run w ms = Some w' →
  Z.of_nat (length ms) ≤ remaining (sh w) →
  remaining (sh w) + number restoring w < two64 → at_work w i → at_work w' i.
Proof.
  revert k w. induction ms as [|m ms IH]; cbn [run length]; intros k w Hi Hk Hl Hr Hlen Hu Ha;
    [by simplify_eq|].
  destruct (step w m) as [w1|] eqn:Hs; [|done]. cbn in Hr.
  destruct (at_work_step _ _ _ _ _ _ i Hi Hs) as (Ha' & Hr1 & Hu1); [lia|done|done|].
  eapply (IH (k + 1)); [eapply inv_step; [|done..]; lia|lia|lia|done|lia|lia|done].
Qed.

Definition quick (i : nat) : move := move_ i true 0.
(** Worker 0 does the only query and finds the counter at zero; before it has put
    its one back worker 1 looks. *)
Definition overlap : list move :=
  [quick 0; quick 0; quick 0; quick 0; quick 0; quick 0; quick 1; quick 0].

(** One query is asked for and done, and the runner does not end within the next
    2^64 - 10 steps. *)
Theorem overlap_runs_on h :
  ∃ w, run (start h 2 1) overlap = Some w ∧ counted w = 1 ∧ number stopped w = 1 ∧
    ∀ more w', run w more = Some w' → Z.of_nat (length more) ≤ two64 - 10 → ¬ all_stopped w'.
Proof.
  destruct (run (start h 2 1) overlap) as [w|] eqn:Hr; [|by vm_compute in Hr].
  exists w. assert (Hi : inv 2 1 8 w) by (eapply (run_keeps_inv h 2 1 overlap); [unfold two64; lia|done|done]).
  assert (Hw : workers w = <[0%nat := Stopped]> (<[1%nat := Waiting]> ∅) ∧ remaining (sh w) = two64 - 1
               ∧ counted w = 1) by (vm_compute in Hr; injection Hr as <-; split_and!; vm_compute; reflexivity).
  destruct Hw as (Hw & Hrem & Hc). unfold number.
  split_and!; [done|done|rewrite Hw; vm_compute; reflexivity|].
  intros more w' Hm Hl Ha.
  destruct (at_work_run 2 1 more 8 w w' 1 Hi) as (ph & Hph & _ & Hst);
    [lia|lia|done|rewrite Hrem; lia| | |].
  - rewrite Hrem. unfold number. rewrite Hw. vm_compute. reflexivity.
  - exists Waiting. rewrite Hw. split_and!; vm_compute; reflexivity.
  - specialize (Ha _ _ Hph). congruence.
Qed.
End workers.
End Workers.

(** ** The whole run *)
Module Runner.
Import Queries Workers.

(** *** The pool *)

(** What the url crate reads from a URL. *)
Record Url : Type := {
  host_str : option bytes; url_port : option Z; username : bytes; url_password : option bytes;
  path : bytes
}.
Record PoolSettings : Type := {
  ps_host : option bytes; ps_port : option Z; ps_user : option bytes; ps_password : option bytes;
  ps_dbname : option bytes; ps_max_size : Z
}.
Definition create_pool (url : option Url) (pool_size : Z) : option PoolSettings :=
  (λ u, {| ps_host := host_str u; ps_port := url_port u;
           ps_user := if decide (username u = []) then None else Some (username u);
           ps_password := url_password u; ps_dbname := Str.strip_prefix (path u) [x2f];
           ps_max_size := pool_size |}) <$> url.

(** *** Waiting for the database *)

(** A round of the loop: no connection, or one on which the probing query fails or
    succeeds. *)
Inductive attempt : Type := NoClient | Probed (ok : bool).
#[export] Instance attempt_eq_dec : EqDecision attempt.
Proof. solve_decision. Defined.

(** [StillWaiting]: the rounds are used up; with it the failures counted and the
    seconds slept so far. *)
Inductive waited : Type := Ready | GaveUp | StillWaiting (attempts slept : Z).
Definition max_attempts : Z := 30.
Fixpoint wait_ready (attempts slept : Z) (rounds : list attempt) : waited :=
  match rounds with
  | [] => StillWaiting attempts slept
  | Probed true :: _ => Ready
  | Probed false :: rounds => wait_ready attempts slept rounds
  | NoClient :: rounds =>
      if max_attempts <=? attempts + 1 then GaveUp
      else wait_ready (attempts + 1) (slept + 1) rounds
  end.

Definition refusals (rounds : list attempt) : Z :=
  Z.of_nat (length (filter (λ a, a = NoClient) rounds)).

Lemma wait_counts rounds attempts slept :
  0 ≤ attempts < max_attempts → Probed true ∉ rounds →
  wait_ready attempts slept rounds =
    if max_attempts <=? attempts + refusals rounds then GaveUp
    else StillWaiting (attempts + refusals rounds) (slept + refusals rounds).
Proof.
  unfold refusals. revert attempts slept.
  induction rounds as [|a rounds IH]; intros attempts slept Ha Hn.
  - cbn. rewrite (proj2 (Z.leb_gt _ _)) by lia. f_equal; lia.
  - apply not_elem_of_cons in Hn as [Hna Hn]. destruct a as [|[]]; cbn [wait_ready]; [|done|].
    + rewrite filter_cons_True by done. cbn [length].
      destruct (Z.leb_spec max_attempts (attempts + 1)).
      * rewrite (proj2 (Z.leb_le _ _)); [done|lia].
      * rewrite IH by (done || lia).
        replace (attempts + 1 + _) with (attempts + Z.of_nat (S (length (filter (λ a, a = NoClient) rounds)))) by lia.
        case_bool; [done|]. f_equal; lia.
    + rewrite filter_cons_False by done. by rewrite IH.
Qed.

(** The loop gives up at the thirtieth refused connection, after 29 seconds; every
    other round leaves it where it was. *)
Theorem wait_gives_up rounds :
  Probed true ∉ rounds →
  wait_ready 0 0 rounds =
    if 30 <=? refusals rounds then GaveUp else StillWaiting (refusals rounds) (refusals rounds).
Proof. intros Hn. rewrite wait_counts by done. done. Qed.

(** A database that takes connections and fails every query is asked for ever,
    without a pause and without a failure counted. *)
Theorem unusable_database_never_given_up n :
  wait_ready 0 0 (replicate n (Probed false)) = StillWaiting 0 0.
Proof. by induction n. Qed.

(** *** Resource usage *)
Section usage.
Context (parse_f32 parse_f64 : bytes → option spec_float).

Definition strip_suffix (s pat : bytes) : option bytes :=
  reverse <$> Str.strip_prefix (reverse s) (reverse pat).

Definition parse_cpu_percent (s : bytes) : spec_float :=
  default f64_zero (parse_f32 (reverse (Str.skip_while (beqb x25) (reverse s)))).

Inductive unit_ : Type := GiB | MiB | KiB | B.
Definition unit_text (u : unit_) : bytes :=
  match u with GiB => lit "GiB" | MiB => lit "MiB" | KiB => lit "KiB" | B => lit "B" end.
(** The number and the unit of the part before the slash. *)
Definition split_usage (s : bytes) : bytes * unit_ :=
  let usage := Str.trim (default (lit "0") (head (Str.split_byte x2f s))) in
  match strip_suffix usage (lit "GiB") with Some v => (v, GiB) | None =>
  match strip_suffix usage (lit "MiB") with Some v => (v, MiB) | None =>
  match strip_suffix usage (lit "KiB") with Some v => (v, KiB) | None =>
  match strip_suffix usage (lit "B") with Some v => (v, B) | None => (usage, B)
  end end end end.
Definition parse_memory_bytes (s : bytes) : Z :=
  let (v, u) := split_usage s in
  let value := default f64_zero (parse_f64 v) in
  let k x := f64_mul x (f64_of 1024) in
  Acquire.u64_of_f64 (match u with GiB => k (k (k value)) | MiB => k (k value) | KiB => k value | B => value end).

Record ResourceUsage : Type := {
  cpu_percent : spec_float; memory_mb : spec_float; sample_count : Z
}.
(** Sums of floats start from minus zero. *)
Definition calculate_resource_usage `{Build} (samples : list (spec_float * Z)) :
    outcome (option ResourceUsage) :=
  match samples with
  | [] => Ret None
  | _ =>
      let n := Z.of_nat (length samples) in
      let cpu_sum := foldl (SFadd 24 128) (S754_zero true) (fst <$> samples) in
      mem_sum ← ofoldl u64_add 0 (snd <$> samples);
      Ret (Some {| cpu_percent := SFdiv 24 128 cpu_sum (binary_normalize 24 128 n 0 false);
                   memory_mb := f64_div (f64_div (f64_of mem_sum) (f64_of n)) (f64_of (1024 * 1024));
                   sample_count := n |})
  end.

Lemma strip_suffix_app s pat : strip_suffix (s ++ pat) pat = Some s.
Proof.
  unfold strip_suffix. rewrite reverse_app, Str.strip_prefix_app. cbn. by rewrite reverse_involutive.
Qed.

Definition numeric (b : byte) : bool := Str.in_range 48 57 b || beqb b x2e.

Lemma numeric_plain b : numeric b = true → b ≠ x2f ∧ b ≠ x69 ∧ Str.ascii_ws b = false ∧ Str.is_ascii b.
Proof. destruct b; cbn; try discriminate; intros _; split_and!; try discriminate; done. Qed.

Lemma trim_usage num u :
  Forall (λ b, numeric b = true) num → num ≠ [] →
  Str.trim (num ++ unit_text u ++ [x20]) = num ++ unit_text u.
Proof.
  intros Hn Hne.
  assert (Ha : Forall Str.is_ascii num) by (eapply Forall_impl; [done|]; intros b Hb; by apply numeric_plain).
  assert (Hu : ∃ i, unit_text u = i ++ [x42] ∧ Forall Str.is_ascii i)
    by (destruct u; [exists (lit "Gi")|exists (lit "Mi")|exists (lit "Ki")|exists []]; split; try done; repeat constructor).
  destruct Hu as (i & -> & Hi).
  replace (num ++ (i ++ [x42]) ++ [x20]) with ((num ++ i) ++ x42 :: [x20]) by by rewrite <-!app_assoc.
  assert (Hall : Forall Str.is_ascii (num ++ i)) by by apply Forall_app.
  rewrite Str.trim_app_stop; [|apply Forall_app; split; [done|by repeat constructor]|done].
  rewrite Str.trim_start_ascii by done. destruct num as [|b num]; [done|].
  apply Forall_cons in Hn as [Hb _]. destruct (numeric_plain b Hb) as (_ & _ & Hws & _).
  cbn -[Str.trim_end Str.ascii_ws]. rewrite Hws. change (Str.trim_end [x20]) with (@nil byte).
  by rewrite <-app_comm_cons, <-app_assoc.
Qed.

Lemma split_unit num u :
  Forall (λ b, numeric b = true) num →
  strip_suffix (num ++ unit_text u) (unit_text u) = Some num ∧
  (∀ u', u' ≠ u → u' ≠ B → strip_suffix (num ++ unit_text u) (unit_text u') = None).
Proof.
  intros Hn. split; [apply strip_suffix_app|]. intros u' Hu HB.
  unfold strip_suffix. rewrite reverse_app.
  assert (Hr : Forall (λ b, numeric b = true) (reverse num)) by by apply Forall_reverse.
  destruct u', u; try done; cbn; destruct (reverse num) as [|b r]; try done;
    apply Forall_cons in Hr as [Hb _]; destruct b; done.
Qed.

(** Of the usage docker reports, "10.5MiB / 16GiB", the number and the unit before
    the slash are read. *)
Theorem docker_usage num u limit :
  Forall (λ b, numeric b = true) num → num ≠ [] →
  split_usage (num ++ unit_text u ++ lit " / " ++ limit) = (num, u).
Proof.
  intros Hn Hne. unfold split_usage.
  replace (num ++ unit_text u ++ lit " / " ++ limit)
    with ((num ++ unit_text u ++ [x20]) ++ x2f :: x20 :: limit) by by rewrite <-!app_assoc.
  rewrite Str.split_byte_word.
  2:{ rewrite !not_elem_of_app. split; [|destruct u; vm_compute; set_solver].
      intros Hin. rewrite Forall_forall in Hn. by apply Hn, numeric_plain in Hin as [? _]. }
  change (default _ (head (?x :: _))) with x. rewrite trim_usage by done.
  destruct (split_unit num u Hn) as [Hs Hother].
  change (lit "GiB") with (unit_text GiB). change (lit "MiB") with (unit_text MiB).
  change (lit "KiB") with (unit_text KiB). change (lit "B") with (unit_text B).
  destruct u; rewrite ?Hs, ?Hother by done; rewrite ?Hs; done.
Qed.
End usage.

(** *** Results *)

(** The hdrhistogram crate; [lh_record] refuses a value beyond the bounds. *)
Class LatencyHist : Type := {
  LH : Type;
  lh_new_with_bounds : Z → Z → Z → LH;
  lh_record : LH → Z → option LH;
  lh_value_at_quantile : LH → spec_float → Z;
  lh_max : LH → Z; lh_min : LH → Z; lh_mean : LH → spec_float; lh_stdev : LH → spec_float
}.

Section results.
Context `{Build} `{LatencyHist}.

Definition new_histogram : LH := lh_new_with_bounds 1 60000000 3.

Record LatencyPercentiles : Type := {
  p50 : Z; p75 : Z; p90 : Z; p95 : Z; p99 : Z; p999 : Z; lp_max : Z; lp_min : Z;
  mean : spec_float; stddev : spec_float
}.
Definition from_histogram (h : LH) : LatencyPercentiles :=
  {| p50 := lh_value_at_quantile h (f64_lit 50 100); p75 := lh_value_at_quantile h (f64_lit 75 100);
     p90 := lh_value_at_quantile h (f64_lit 90 100); p95 := lh_value_at_quantile h (f64_lit 95 100);
     p99 := lh_value_at_quantile h (f64_lit 99 100); p999 := lh_value_at_quantile h (f64_lit 999 1000);
     lp_max := lh_max h; lp_min := lh_min h; mean := lh_mean h; stddev := lh_stdev h |}.

Record RunConfig : Type := {
  connections : nat; total : Z; label : bytes; proxy_name : bytes;
  anonymize : option bool; events_enabled : option bool;
  proxy_container : option bytes; postgres_container : option bytes
}.
Record BenchmarkConfig : Type := {
  bc_connections : nat; target_queries : Z; bc_anonymize : option bool; bc_events : option bool
}.
Record BenchmarkResults : Type := {
  r_label : bytes; r_proxy : bytes; r_config : BenchmarkConfig; timestamp : bytes;
  duration_secs : spec_float; total_queries : Z; successful_queries : Z; failed_queries : Z;
  throughput_qps : spec_float; latency_us : LatencyPercentiles;
  proxy_resource_usage : option ResourceUsage; postgres_resource_usage : option ResourceUsage
}.

Definition as_secs_f64 (nanos : Z) : spec_float :=
  f64_add (f64_of (nanos / 1000000000)) (f64_div (f64_of (nanos mod 1000000000)) (f64_of 1000000000)).

(** What the run meets: the URL as parsed, the rounds of the wait, the parameters
    read from the database, the steps of the workers in their order, the time they
    took, what the monitors of the containers sampled. *)
Record surroundings : Type := {
  url : option Url; rounds : list attempt; loaded : load_error + QueryParams;
  schedule : list move; elapsed : Z; proxy_samples : list (spec_float * Z);
  postgres_samples : list (spec_float * Z); now : bytes
}.

Inductive bench_error : Type :=
| InvalidUrl | DatabaseNotReady | LoadFailed (e : load_error) | InsufficientData.

(** A container that is not named is not monitored. *)
Definition monitored (container : option bytes) (samples : list (spec_float * Z)) :=
  match container with Some _ => samples | None => [] end.

(** [Diverge] while the wait goes on or a worker has not left. *)
Definition run_benchmark (config : RunConfig) (env : surroundings) :
    outcome (bench_error + BenchmarkResults) :=
  match create_pool (url env) (Z.of_nat (connections config)) with
  | None => Ret (inl InvalidUrl)
  | Some _ =>
  match wait_ready 0 0 (rounds env) with
  | GaveUp => Ret (inl DatabaseNotReady)
  | StillWaiting _ _ => Diverge
  | Ready =>
  match loaded env with
  | inl e => Ret (inl (LoadFailed e))
  | inr params =>
  if negb (is_valid params) then Ret (inl InsufficientData) else
  match run lh_record (start new_histogram (connections config) (total config)) (schedule env) with
  | None => Diverge
  | Some w =>
  if negb (bool_decide (all_stopped w)) then Diverge else
  proxy_usage ← calculate_resource_usage (monitored (proxy_container config) (proxy_samples env));
  postgres_usage ← calculate_resource_usage (monitored (postgres_container config) (postgres_samples env));
  all ← u64_add (successful (sh w)) (failed (sh w));
  Ret (inr {|
    r_label := label config; r_proxy := proxy_name config;
    r_config := {| bc_connections := connections config; target_queries := total config;
                   bc_anonymize := anonymize config; bc_events := events_enabled config |};
    timestamp := now env; duration_secs := as_secs_f64 (elapsed env);
    total_queries := all; successful_queries := successful (sh w); failed_queries := failed (sh w);
    throughput_qps := f64_div (f64_of (successful (sh w))) (as_secs_f64 (elapsed env));
    latency_us := from_histogram (histogram (sh w));
    proxy_resource_usage := proxy_usage; postgres_resource_usage := postgres_usage |})
  end end end end.

(** A run that reports has found the database ready and its data sufficient, and
    what it reports adds up: every query counted succeeded or failed, and there are
    no fewer than asked for. *)
Theorem results_add_up config env r :
  run_benchmark config env = Ret (inr r) →
  (0 < connections config)%nat → 0 ≤ total config < two64 → short (schedule env) →
  wait_ready 0 0 (rounds env) = Ready ∧
  (∃ params, loaded env = inr params ∧ is_valid params = true) ∧
  total_queries r = successful_queries r + failed_queries r ∧
  target_queries (r_config r) = total config ∧ total config ≤ total_queries r.
Proof.
  intros Hrun Hn Ht Hs. unfold run_benchmark in Hrun.
  destruct (create_pool _ _); [|done]. destruct (wait_ready _ _ _); try done.
  destruct (loaded env) as [|params]; [done|]. destruct (is_valid params) eqn:Hv; [|done]. cbn in Hrun.
  destruct (run _ _ _) as [w|] eqn:Hw; [|done].
  destruct (bool_decide (all_stopped w)) eqn:Ha; [|done]. cbn [negb] in Hrun. bool_to_Z.
  pose proof (run_keeps_inv _ _ _ _ _ _ Ht Hs Hw) as Hi.
  pose proof (inv_done _ _ _ _ Hi Hn Ha) as Hd. destruct (i_counts _ _ _ _ Hi) as (H1 & H2 & H3).
  unfold short in Hs. outcome_inv. unfold counted in *. rewrite u64_add_fits in * by lia.
  outcome_inv. subst. cbn. split_and!; eauto.
Qed.
End results.
End Runner.
