(* ===== verification/Logging.v ===== *)
(** * What reaches the logs (observability/mod.rs, the [Debug] implementations of
      config/mod.rs, protocol/traits.rs and auth/types.rs)

    [{:?}] of a value is a tree ([debug]) that the standard library's formatter
    prints; two values with one tree print the same text.  The class [Debug] is
    the trait, with an instance for each type as it is derived or written by hand.
    [init] chooses the layers of the log subscriber. *)

From Stdlib Require Import SpecFloat.
From S2P Require Import Prelude RustStr Events UserList CircuitBreaker Acquire Bind Anonymize Modes Direct Config Backend.

(** ** Debug output *)
Module Redaction.
Import Conf.

Inductive debug : Type :=
| DText (t : bytes)
| DStr (s : bytes)
| DInt (z : Z)
| DBool (b : bool)
| DFloat (f : spec_float)
| DVariant (name : bytes)
| DNone
| DSome (d : debug)
| DList (ds : list debug)
| DStruct (name : bytes) (fields : list (bytes * debug)).

Class Debug (A : Type) : Type := fmt : A → debug.

(** *** The standard library's *)
#[export] Instance debug_str : Debug bytes := DStr.
#[export] Instance debug_int : Debug Z := DInt.
#[export] Instance debug_bool : Debug bool := DBool.
#[export] Instance debug_f64 : Debug spec_float := DFloat.
#[export] Instance debug_option `{Debug A} : Debug (option A) :=
  λ o, match o with None => DNone | Some a => DSome (fmt a) end.
#[export] Instance debug_list `{Debug A} : Debug (list A) | 10 := λ l, DList (fmt <$> l).

(** *** Secrets *)
Inductive RedactedSecret : Type := TheSecret.
#[export] Instance debug_redacted : Debug RedactedSecret := λ _, DText (lit "<redacted>").
Definition redacted_opt (value : option bytes) : option RedactedSecret := (λ _, TheSecret) <$> value.

(** *** Derived for the enumerations *)
#[export] Instance debug_protocol : Debug DatabaseProtocol := λ _, DVariant (lit "Postgres").
#[export] Instance debug_parse_failure : Debug Anon.ParseFailureMode := λ m,
  DVariant (match m with Anon.Redact => lit "Redact" | Anon.Drop => lit "Drop" end).
#[export] Instance debug_strategy : Debug Modes.PoolingStrategy := λ s,
  DVariant (match s with
            | Modes.StrategyDisabled => lit "Disabled" | Modes.StrategySession => lit "Session"
            | Modes.StrategyTransaction => lit "Transaction" | Modes.StrategyHybrid => lit "Hybrid"
            end).
#[export] Instance debug_backpressure : Debug Direct.BackpressureMode := λ m,
  DVariant (match m with
            | Direct.RejectImmediate => lit "RejectImmediate" | Direct.RetryHint => lit "RetryHint"
            | Direct.LogAndReject => lit "LogAndReject"
            end).
#[export] Instance debug_sslmode : Debug TlsSslMode := λ m,
  DVariant (match m with
            | Disable => lit "Disable" | Allow => lit "Allow" | Require_ => lit "Require"
            | VerifyCa => lit "VerifyCa" | VerifyFull => lit "VerifyFull"
            end).
#[export] Instance debug_auth_type : Debug AuthType := λ t,
  DVariant (match t with
            | Trust => lit "Trust" | Md5 => lit "Md5" | ScramSha256 => lit "ScramSha256" | Cert => lit "Cert"
            end).

(** *** Derived for the structures *)
#[export] Instance debug_proxy : Debug ProxyConfig := λ c, DStruct (lit "ProxyConfig")
  [(lit "listen_address", fmt (listen_address c)); (lit "unix_socket", fmt (unix_socket c));
   (lit "max_connections", fmt (max_connections c));
   (lit "shutdown_timeout_secs", fmt (shutdown_timeout_secs c))].
#[export] Instance debug_database : Debug DatabaseConfig := λ c, DStruct (lit "DatabaseConfig")
  [(lit "name", fmt (db_name c)); (lit "host", fmt (db_host c)); (lit "port", fmt (db_port c));
   (lit "database", fmt (db_database c)); (lit "user", fmt (db_user c));
   (lit "password", fmt (db_password c)); (lit "pool_size", fmt (db_pool_size c))].
#[export] Instance debug_observability : Debug ObservabilityConfig := λ c, DStruct (lit "ObservabilityConfig")
  [(lit "enable_tracing", fmt (enable_tracing c)); (lit "otlp_endpoint", fmt (otlp_endpoint c));
   (lit "service_name", fmt (service_name c));
   (lit "metrics_server_address", fmt (metrics_server_address c));
   (lit "enable_metrics_server", fmt (enable_metrics_server c));
   (lit "unsafe_debug_logging", fmt (unsafe_debug_logging c));
   (lit "enable_debug_endpoints", fmt (enable_debug_endpoints c));
   (lit "metrics_allow_non_loopback", fmt (metrics_allow_non_loopback c))].
#[export] Instance debug_protocol_config : Debug ProtocolConfig := λ c, DStruct (lit "ProtocolConfig")
  [(lit "max_prepared_statements", fmt (max_prepared_statements c))].
#[export] Instance debug_budget : Debug LatencyBudget := λ c, DStruct (lit "LatencyBudget")
  [(lit "overhead_p50_micros", fmt (overhead_p50_micros c));
   (lit "overhead_p95_micros", fmt (overhead_p95_micros c));
   (lit "overhead_p99_micros", fmt (overhead_p99_micros c));
   (lit "reference_workload", fmt (reference_workload c))].
#[export] Instance debug_performance : Debug PerformanceConfig := λ c, DStruct (lit "PerformanceConfig")
  [(lit "latency_budget", fmt (latency_budget c)); (lit "query_timeout_secs", fmt (query_timeout_secs c));
   (lit "connection_pooling", fmt (connection_pooling c)); (lit "pool_size", fmt (pool_size c));
   (lit "pool_min_idle", fmt (pool_min_idle c)); (lit "pool_timeout_secs", fmt (pool_timeout_secs c));
   (lit "pool_recycle_secs", fmt (pool_recycle_secs c));
   (lit "pool_aggressive_unpinning", fmt (pool_aggressive_unpinning c));
   (lit "buffer_size", fmt (buffer_size c)); (lit "pool_queue_depth", fmt (pool_queue_depth c));
   (lit "pool_idle_unpin_secs", fmt (pool_idle_unpin_secs c)); (lit "pool_lifo", fmt (pool_lifo c));
   (lit "pool_reset_timeout_ms", fmt (pool_reset_timeout_ms c));
   (lit "pool_ratio_warning_threshold", fmt (pool_ratio_warning_threshold c));
   (lit "pool_backpressure_mode", fmt (pool_backpressure_mode c));
   (lit "pool_retry_hint_ms", fmt (pool_retry_hint_ms c));
   (lit "pool_queue_saturation_warn_threshold", fmt (pool_queue_saturation_warn_threshold c))].
#[export] Instance debug_breaker : Debug CB.CircuitBreakerConfig := λ c, DStruct (lit "CircuitBreakerConfig")
  [(lit "enabled", fmt (CB.enabled c)); (lit "failure_threshold", fmt (CB.failure_threshold c));
   (lit "success_threshold", fmt (CB.success_threshold c)); (lit "window_secs", fmt (CB.window_secs c));
   (lit "open_timeout_secs", fmt (CB.open_timeout_secs c));
   (lit "use_health_monitor", fmt (CB.use_health_monitor c))].
#[export] Instance debug_retry : Debug Acquire.ConnectionRetryConfig := λ c, DStruct (lit "ConnectionRetryConfig")
  [(lit "enabled", fmt (Acquire.enabled c)); (lit "max_attempts", fmt (Acquire.max_attempts c));
   (lit "initial_backoff_ms", fmt (Acquire.initial_backoff_ms c));
   (lit "max_backoff_ms", fmt (Acquire.max_backoff_ms c));
   (lit "backoff_multiplier", fmt (Acquire.backoff_multiplier c));
   (lit "jitter_factor", fmt (Acquire.jitter_factor c))].
#[export] Instance debug_healthcheck : Debug HealthcheckConfig := λ c, DStruct (lit "HealthcheckConfig")
  [(lit "active_enabled", fmt (active_enabled c)); (lit "interval_secs", fmt (interval_secs c));
   (lit "timeout_ms", fmt (timeout_ms c)); (lit "failure_threshold", fmt (hc_failure_threshold c))].
#[export] Instance debug_resilience : Debug ResilienceConfig := λ c, DStruct (lit "ResilienceConfig")
  [(lit "circuit_breaker", fmt (circuit_breaker c)); (lit "connection_retry", fmt (connection_retry c));
   (lit "healthcheck", fmt (healthcheck c))].
#[export] Instance debug_tls : Debug TlsConfig := λ c, DStruct (lit "TlsConfig")
  [(lit "client_tls_sslmode", fmt (client_tls_sslmode c));
   (lit "client_tls_cert_file", fmt (client_tls_cert_file c));
   (lit "client_tls_key_file", fmt (client_tls_key_file c));
   (lit "client_tls_ca_file", fmt (client_tls_ca_file c));
   (lit "server_tls_sslmode", fmt (server_tls_sslmode c));
   (lit "server_tls_ca_file", fmt (server_tls_ca_file c));
   (lit "server_tls_cert_file", fmt (server_tls_cert_file c));
   (lit "server_tls_key_file", fmt (server_tls_key_file c))].
#[export] Instance debug_auth : Debug AuthConfig := λ c, DStruct (lit "AuthConfig")
  [(lit "auth_type", fmt (auth_type c)); (lit "auth_file", fmt (auth_file c));
   (lit "auth_query", fmt (auth_query c)); (lit "allow_trust", fmt (allow_trust c))].

(** *** Written by hand *)
#[export] Instance debug_backend : Debug BackendConfig := λ c, DStruct (lit "BackendConfig")
  [(lit "protocol", fmt (protocol_ c)); (lit "host", fmt (be_host c)); (lit "port", fmt (be_port c));
   (lit "database", fmt (be_database c)); (lit "user", fmt (be_user c)); (lit "password", fmt TheSecret);
   (lit "password_file", fmt (password_file c)); (lit "pool_size", fmt (be_pool_size c));
   (lit "connection_timeout_ms", fmt (connection_timeout_ms c))].
#[export] Instance debug_publisher : Debug PublisherConfig := λ c, DStruct (lit "PublisherConfig")
  [(lit "enabled", fmt (pub_enabled c)); (lit "batch_size", fmt (batch_size c));
   (lit "flush_interval_ms", fmt (flush_interval_ms c)); (lit "anonymize", fmt (pub_anonymize c));
   (lit "publisher_type", fmt (publisher_type c)); (lit "max_queue_size", fmt (max_queue_size c));
   (lit "http_endpoint", fmt (http_endpoint c)); (lit "http_timeout_ms", fmt (http_timeout_ms c));
   (lit "http_max_retries", fmt (http_max_retries c));
   (lit "http_api_key", fmt (redacted_opt (http_api_key c)));
   (lit "http_compression", fmt (http_compression c)); (lit "shadow_id", fmt (cfg_shadow_id c));
   (lit "allow_insecure", fmt (allow_insecure c));
   (lit "anonymize_salt", fmt (redacted_opt (anonymize_salt c)));
   (lit "parse_failure_mode", fmt (parse_failure_mode c))].
#[export] Instance debug_admin : Debug AdminConfig := λ c, DStruct (lit "AdminConfig")
  [(lit "enabled", fmt (admin_enabled c)); (lit "admin_users", fmt (admin_users c));
   (lit "admin_password", fmt (redacted_opt (admin_password c)))].
#[export] Instance debug_config : Debug Config := λ c, DStruct (lit "Config")
  [(lit "proxy", fmt (proxy c)); (lit "backend", fmt (backend c)); (lit "databases", fmt (databases c));
   (lit "observability", fmt (observability c)); (lit "protocol", fmt (protocol c));
   (lit "publisher", fmt (publisher c)); (lit "performance", fmt (performance c));
   (lit "resilience", fmt (resilience c)); (lit "tls", fmt (tls c)); (lit "auth", fmt (auth c));
   (lit "admin", fmt (admin c))].
#[export] Instance debug_backend_target : Debug Proto.ProtocolConfig := λ c, DStruct (lit "ProtocolConfig")
  [(lit "host", fmt (Proto.host c)); (lit "port", fmt (Proto.port c));
   (lit "database", fmt (Proto.database c)); (lit "user", fmt (Proto.user c));
   (lit "password", fmt (Proto.password c))].

(** *** What the output tells

    [public c]: the configuration with its secrets blanked, the presence of the
    optional ones kept. *)
Definition blank (v : option bytes) : option bytes := (λ _, []) <$> v.
Definition public_backend (b : BackendConfig) : BackendConfig :=
  {| protocol_ := protocol_ b; be_host := be_host b; be_port := be_port b; be_database := be_database b;
     be_user := be_user b; be_password := []; password_file := password_file b;
     be_pool_size := be_pool_size b; connection_timeout_ms := connection_timeout_ms b |}.
Definition public_publisher (p : PublisherConfig) : PublisherConfig :=
  {| pub_enabled := pub_enabled p; batch_size := batch_size p; flush_interval_ms := flush_interval_ms p;
     pub_anonymize := pub_anonymize p; publisher_type := publisher_type p;
     max_queue_size := max_queue_size p; http_endpoint := http_endpoint p;
     http_timeout_ms := http_timeout_ms p; http_max_retries := http_max_retries p;
     http_api_key := blank (http_api_key p); http_compression := http_compression p;
     cfg_shadow_id := cfg_shadow_id p; allow_insecure := allow_insecure p;
     anonymize_salt := blank (anonymize_salt p); parse_failure_mode := parse_failure_mode p |}.
Definition public_admin (a : AdminConfig) : AdminConfig :=
  {| admin_enabled := admin_enabled a; admin_users := admin_users a;
     admin_password := blank (admin_password a) |}.
Definition public_database (d : DatabaseConfig) : DatabaseConfig :=
  {| db_name := db_name d; db_host := db_host d; db_port := db_port d; db_database := db_database d;
     db_user := db_user d; db_password := []; db_pool_size := db_pool_size d |}.
Definition public (c : Config) : Config :=
  config (proxy c) (public_backend (backend c)) (public_database <$> databases c) (observability c) (protocol c)
    (public_publisher (publisher c)) (performance c) (resilience c) (tls c) (auth c)
    (public_admin (admin c)).

(** Output that tells the values apart. *)
Class Tells (A : Type) `{Debug A} : Prop := tells (a b : A) : fmt a = fmt b → a = b.

#[export] Instance tells_str : Tells bytes.
Proof. by intros a b [=]. Qed.
#[export] Instance tells_int : Tells Z.
Proof. by intros a b [=]. Qed.
#[export] Instance tells_bool : Tells bool.
Proof. by intros a b [=]. Qed.
#[export] Instance tells_f64 : Tells spec_float.
Proof. by intros a b [=]. Qed.
#[export] Instance tells_option `{Tells A} : Tells (option A).
Proof. intros [a|] [b|]; cbn; try done. intros [= Hf]. f_equal. by apply tells. Qed.
#[export] Instance tells_list `{Tells A} : Tells (list A).
Proof.
  intros l k Hl. injection Hl as Hl. revert k Hl; induction l as [|a l IH]; intros [|b k]; cbn; try done.
  intros [= Ha Hl]. f_equal; [by apply tells|by apply IH].
Qed.

Lemma struct_tells n fs gs : DStruct n fs = DStruct n gs → fs = gs.
Proof. by intros [=]. Qed.
Lemma field_tells `{Tells A} (n : bytes) (a b : A) (l k : list (bytes * debug)) : (n, fmt a) :: l = (n, fmt b) :: k → a = b ∧ l = k.
Proof. intros Hl. injection Hl as Ha Hk. split; [by apply tells|done]. Qed.

(** Two structures print alike when their fields do. *)
Ltac tell_struct :=
  let E := fresh "E" in
  intros a b E; apply struct_tells in E;
  repeat (apply field_tells in E as [? E]); destruct a, b; simpl in *; subst; reflexivity.
Ltac tell_variant := by intros [] [].

#[export] Instance tells_redacted : Tells RedactedSecret.
Proof. tell_variant. Qed.
#[export] Instance tells_protocol : Tells DatabaseProtocol.
Proof. tell_variant. Qed.
#[export] Instance tells_parse_failure : Tells Anon.ParseFailureMode.
Proof. tell_variant. Qed.
#[export] Instance tells_strategy : Tells Modes.PoolingStrategy.
Proof. tell_variant. Qed.
#[export] Instance tells_backpressure : Tells Direct.BackpressureMode.
Proof. tell_variant. Qed.
#[export] Instance tells_sslmode : Tells TlsSslMode.
Proof. tell_variant. Qed.
#[export] Instance tells_auth_type : Tells AuthType.
Proof. tell_variant. Qed.
#[export] Instance tells_proxy : Tells ProxyConfig.
Proof. tell_struct. Qed.
#[export] Instance tells_database : Tells DatabaseConfig.
Proof. tell_struct. Qed.
#[export] Instance tells_observability : Tells ObservabilityConfig.
Proof. tell_struct. Qed.
#[export] Instance tells_protocol_config : Tells ProtocolConfig.
Proof. tell_struct. Qed.
#[export] Instance tells_budget : Tells LatencyBudget.
Proof. tell_struct. Qed.
#[export] Instance tells_performance : Tells PerformanceConfig.
Proof. tell_struct. Qed.
#[export] Instance tells_breaker : Tells CB.CircuitBreakerConfig.
Proof. tell_struct. Qed.
#[export] Instance tells_retry : Tells Acquire.ConnectionRetryConfig.
Proof. tell_struct. Qed.
#[export] Instance tells_healthcheck : Tells HealthcheckConfig.
Proof. tell_struct. Qed.
#[export] Instance tells_resilience : Tells ResilienceConfig.
Proof. tell_struct. Qed.
#[export] Instance tells_tls : Tells TlsConfig.
Proof. tell_struct. Qed.
#[export] Instance tells_auth : Tells AuthConfig.
Proof. tell_struct. Qed.

(** The hand-written ones tell the public part. *)
Lemma redacted_blank a b : redacted_opt a = redacted_opt b ↔ blank a = blank b.
Proof. by destruct a, b. Qed.
Ltac tell_public d p :=
  split;
  [ let E := fresh "E" in
    intros E; apply struct_tells in E; repeat (apply field_tells in E as [? E]); unfold p;
    f_equal; try assumption; apply redacted_blank; assumption
  | intros [=]; unfold fmt, d;
    repeat match goal with Hb : blank _ = blank _ |- _ => apply redacted_blank in Hb end; congruence ].

Lemma backend_tells a b : fmt a = fmt b ↔ public_backend a = public_backend b.
Proof. tell_public debug_backend public_backend. Qed.
Lemma publisher_tells a b : fmt a = fmt b ↔ public_publisher a = public_publisher b.
Proof. tell_public debug_publisher public_publisher. Qed.
Lemma admin_tells a b : fmt a = fmt b ↔ public_admin a = public_admin b.
Proof. tell_public debug_admin public_admin. Qed.

Lemma field_head (n : bytes) d d' (l k : list (bytes * debug)) : (n, d) :: l = (n, d') :: k → d = d' ∧ l = k.
Proof. by intros [=]. Qed.

(** The named databases of the configuration have no passwords of their own. *)
Definition no_database_passwords (c : Config) : Prop := Forall (λ d, db_password d = []) (databases c).
Lemma public_databases c : no_database_passwords c → public_database <$> databases c = databases c.
Proof.
  unfold no_database_passwords. induction 1 as [|[] ds Hd _ IH]; [done|]. rewrite fmap_cons, IH.
  simpl in Hd. by subst.
Qed.

(** C23. The debug output of a configuration tells exactly its public part: two
    configurations whose named databases carry no passwords print the same tree
    when and only when they agree on everything but the backend password, the API
    key, the anonymisation salt and the admin password, and on whether each of the
    last three is set. *)
Theorem debug_tells_public (c c' : Config) :
  no_database_passwords c → no_database_passwords c' → fmt c = fmt c' ↔ public c = public c'.
Proof.
  intros Hd Hd'. pose proof (public_databases _ Hd) as Hp1. pose proof (public_databases _ Hd') as Hp2. split.
  - intros E%struct_tells. repeat (apply field_head in E as [? E]). unfold public. rewrite Hp1, Hp2.
    f_equal; first [by apply backend_tells|by apply publisher_tells|by apply admin_tells|by apply tells].
  - intros Hp. change (debug_config c = debug_config c'). unfold debug_config.
    assert (databases c = databases c') as -> by (rewrite <-Hp1, <-Hp2; exact (f_equal databases Hp)).
    rewrite (proj2 (backend_tells _ _) (f_equal backend Hp)), (proj2 (publisher_tells _ _) (f_equal publisher Hp)),
      (proj2 (admin_tells _ _) (f_equal admin Hp)).
    by rewrite (f_equal proxy Hp : proxy c = _),
      (f_equal observability Hp : observability c = _), (f_equal protocol Hp : protocol c = _),
      (f_equal performance Hp : performance c = _), (f_equal resilience Hp : resilience c = _),
      (f_equal tls Hp : tls c = _), (f_equal auth Hp : auth c = _).
Qed.

(** Two configurations with one named database and different backend passwords. *)
Definition demo_secret (password : bytes) : Config :=
  let d := default_config in let b := backend d in
  config (proxy d)
    {| protocol_ := protocol_ b; be_host := be_host b; be_port := be_port b; be_database := be_database b;
       be_user := be_user b; be_password := password; password_file := password_file b;
       be_pool_size := be_pool_size b; connection_timeout_ms := connection_timeout_ms b |}
    [{| db_name := lit "shop"; db_host := lit "h"; db_port := 5432; db_database := lit "shop";
        db_user := lit "u"; db_password := []; db_pool_size := None |}]
    (observability d) (protocol d) (publisher d) (performance d) (resilience d) (tls d) (auth d) (admin d).

Lemma debug_tells_public_witness :
  demo_secret (lit "swordfish") ≠ demo_secret (lit "hunter2") ∧
  fmt (demo_secret (lit "swordfish")) = fmt (demo_secret (lit "hunter2")).
Proof.
  split; [intros [=]|].
  apply (debug_tells_public (demo_secret (lit "swordfish")) (demo_secret (lit "hunter2")));
    [repeat constructor|repeat constructor|reflexivity].
Defined.

(** The password of a named database is no such secret: its structure derives
    [Debug], so the output of the whole configuration shows it; and so does the
    target of the pool, [ProtocolConfig]. *)
Lemma database_password_shown c c' :
  databases c ≠ databases c' → fmt c ≠ fmt c'.
Proof.
  intros Hd E%struct_tells. repeat (apply field_head in E as [? E]). apply Hd. by apply tells.
Qed.
Lemma target_password_shown c c' : Proto.password c ≠ Proto.password c' → fmt c ≠ fmt c'.
Proof. intros Hd E%struct_tells. by repeat (apply field_tells in E as [? E]). Qed.

(** *** Accounts *)
Definition password_kind (e : FileAuth.PasswordEntry) : bytes :=
  match e with
  | FileAuth.Plain _ => lit "Plain" | FileAuth.Md5 _ => lit "Md5"
  | FileAuth.ScramSha256 _ => lit "ScramSha256"
  end.
#[export] Instance debug_password_entry : Debug FileAuth.PasswordEntry := λ e,
  DText (password_kind e ++ lit "(<redacted>)").
#[export] Instance debug_credentials : Debug FileAuth.UserCredentials := λ c,
  DStruct (lit "UserCredentials")
    [(lit "username", fmt (FileAuth.username c)); (lit "password", fmt (FileAuth.password c))].

(** The debug output of an account tells its name and how its password is stored,
    and nothing else. *)
Lemma credentials_tell_kind (c c' : FileAuth.UserCredentials) :
  fmt c = fmt c' ↔
  FileAuth.username c = FileAuth.username c' ∧
  password_kind (FileAuth.password c) = password_kind (FileAuth.password c').
Proof.
  unfold fmt, debug_credentials. split.
  - intros E%struct_tells. apply field_tells in E as [Hu E]. apply field_head in E as [Hp _].
    split; [done|]. injection Hp as Hp. by apply app_inv_tail in Hp.
  - intros [-> Hp]. unfold fmt at 2 4. unfold debug_password_entry. by rewrite Hp.
Qed.
End Redaction.

(** ** The log subscriber (observability/mod.rs) *)
Module Tracing.

Inductive layer : Type :=
| FmtLayer (filter : bytes)
| OtlpLayer (endpoint service_name filter : bytes).

Section init.
(** Whether the filter library parses a directive. *)
Context (parses : bytes → bool).

(** [RUST_LOG], when it is set and parses. *)
Definition console_filter (rust_log : option bytes) : bytes :=
  match rust_log with
  | Some f => if parses f then f else lit "warn"
  | None => lit "warn"
  end.
Definition otlp_export_filter : bytes := lit "info".

(** The flag of [unsafe_debug_logging] after it, and the layers, each with its own
    filter; [None] when the exporter cannot be installed. *)
Definition init (c : Conf.ObservabilityConfig) (rust_log : option bytes) (installed : bool)
    : bool * option (list layer) :=
  (Conf.unsafe_debug_logging c,
   if Conf.enable_tracing c then
     match Conf.otlp_endpoint c with
     | Some endpoint =>
         if installed then
           Some [FmtLayer (console_filter rust_log);
                 OtlpLayer endpoint (Conf.service_name c) otlp_export_filter]
         else None
     | None => Some [FmtLayer (console_filter rust_log)]
     end
   else Some [FmtLayer (console_filter rust_log)]).

(** The exporter's filter does not depend on the console's: with tracing on and
    an endpoint, spans of level info are exported whatever [RUST_LOG] is. *)
Lemma export_ignores_console c rust_log endpoint :
  Conf.enable_tracing c = true → Conf.otlp_endpoint c = Some endpoint →
  ∃ ls, (init c rust_log true).2 = Some ls ∧
    OtlpLayer endpoint (Conf.service_name c) (lit "info") ∈ ls.
Proof. intros He Ho. unfold init. rewrite He, Ho. eexists. split; [done|]. set_solver. Qed.

(** Without the flag the logs do not depend on the text of a statement. *)
Lemma statements_not_logged c rust_log installed text text' :
  Conf.unsafe_debug_logging c = false →
  Anon.loggable (init c rust_log installed).1 text = Anon.loggable (init c rust_log installed).1 text'.
Proof. intros Hf. simpl. by rewrite Hf. Qed.
End init.
End Tracing.

(** ** Spans (proxy/connection.rs, proxy/server.rs) *)
Module Spans.
Section spans.
Context `{Unicode} `{Anon.Blake3}.

Record connection_span : Type := {
  cs_conn_id : Z; cs_client_addr : bytes; cs_tls : bool; cs_database : option bytes
}.
Definition new_connection_span (conn_id : Z) (client_addr : bytes) (tls : bool) : connection_span :=
  {| cs_conn_id := conn_id; cs_client_addr := client_addr; cs_tls := tls; cs_database := None |}.
Definition record_database (database : option bytes) (s : connection_span) : connection_span :=
  match database with
  | Some db => {| cs_conn_id := cs_conn_id s; cs_client_addr := cs_client_addr s; cs_tls := cs_tls s;
                  cs_database := Some db |}
  | None => s
  end.

Record query_span : Type := {
  qs_conn_id : Z; qs_pooling_mode : bytes; qs_backend_id : bytes; qs_command : bytes;
  qs_fingerprint : bytes; qs_query : bytes; qs_duration_ms : option Z; qs_success : option bool
}.
Definition new_query_span (flag : bool) (connection_id : Z) (pooling_mode backend_id query : bytes)
    : outcome query_span :=
  fingerprint ← Anon.query_fingerprint query;
  Ret {| qs_conn_id := connection_id; qs_pooling_mode := pooling_mode; qs_backend_id := backend_id;
         qs_command := Anon.command_tag query; qs_fingerprint := fingerprint;
         qs_query := Anon.loggable flag query; qs_duration_ms := None; qs_success := None |}.
(** [duration] is in nanoseconds. *)
Definition record_query_span_outcome (duration : Z) (success : bool) (s : query_span) : query_span :=
  {| qs_conn_id := qs_conn_id s; qs_pooling_mode := qs_pooling_mode s; qs_backend_id := qs_backend_id s;
     qs_command := qs_command s; qs_fingerprint := qs_fingerprint s; qs_query := qs_query s;
     qs_duration_ms := Some ((duration / 1000000) mod two64); qs_success := Some success |}.

(** Unless unsafe logging is on, a span tells of a statement only its command, one
    of a fixed list, and sixteen digits of a hash. *)
Lemma query_span_hides_statement id mode backend query query' fingerprint :
  Anon.command_tag query = Anon.command_tag query' →
  Anon.query_fingerprint query = Ret fingerprint → Anon.query_fingerprint query' = Ret fingerprint →
  ∃ s, new_query_span false id mode backend query = Ret s ∧ new_query_span false id mode backend query' = Ret s ∧
    qs_command s ∈ lit "OTHER" :: Anon.KEYWORDS.
Proof.
  intros Hc Hf Hf'. unfold new_query_span. rewrite Hf, Hf', Hc. eexists. split; [done|]. split; [done|].
  apply Anon.command_tag_known.
Qed.
End spans.
End Spans.
