(* ===== verification/Boot.v ===== *)
(** * Starting the server and its background tasks (ProxyServer::new, the tasks
      of [run] and [warmup_pools] in proxy/server.rs, proxy/mod.rs)

    [proxy_new] is [ProxyServer::new] as a function of the configuration and of
    what it meets outside: whether addresses can be bound, what the PEM files and
    the user list hold.  The background tasks are functions of one tick of their
    interval. *)

From Stdlib Require Import SpecFloat Sorted.
From S2P Require Import Prelude RustStr Events CommandDetector ConnState Wire Extractor AuthMessages UserList CircuitBreaker Acquire HotData StmtCache Bind Anonymize Modes Handler Metrics WaitQueue PoolManager Direct Config Backend Handshake Server Admin Export Logging.

Module Boot.
Import TlsConf TcpPool.

Section boot.
Context `{Build} `{Pki}.

(** What is outside: [tcp_bound], deadpool's verdict per pool, the user list, and
    for a UNIX socket whether its path exists, can be removed and be bound. *)
Record environment : Type := {
  tcp_bound : bool;
  pool_built : bytes → bool;
  auth_source : FileAuth.file_read;
  socket_exists : bool;
  socket_removed : bool;
  socket_bound : bool
}.

Inductive boot_error : Type :=
| BindFailed
| PoolFailed (database : bytes) (e : new_error)
| ClientTlsFailed (e : TlsError)
| AuthFileFailed (e : FileAuth.AuthError)
| SocketNotRemoved
| SocketNotBound.

(** A pool manager: its settings and the connection pool under it. *)
Record managed : Type := { m_spec : Routing.PoolSpec; m_pool : TcpConnectionPool }.

Record booted : Type := {
  b_router : Routing.DatabaseRouter;
  b_pools : gmap bytes managed;
  b_breakers : Prometheus.breakers;
  b_healthcheck : bool;
  b_tls : option ServerConfig;
  b_auth : option FileAuth.FileAuthenticator;
  b_unix : bool
}.

Definition protocol_config (db : Conf.DatabaseConfig) : Proto.ProtocolConfig := {|
  Proto.host := Conf.db_host db; Proto.port := Conf.db_port db;
  Proto.database := Some (Conf.db_database db); Proto.user := Some (Conf.db_user db);
  Proto.password := Some (Conf.db_password db)
|}.

(** The closure [create_pool_manager]; [now] is the clock. *)
Definition create_managed (c : Conf.Config) (e : environment) (now : Z) (db : Conf.DatabaseConfig)
    (bs : Prometheus.breakers) : outcome (boot_error + managed * Prometheus.breakers) :=
  let cb := Conf.circuit_breaker (Conf.resilience c) in
  let retry := Conf.connection_retry (Conf.resilience c) in
  let bs := if CB.enabled cb then Prometheus.register_circuit_breaker (Conf.db_name db) (CB.new now) bs else bs in
  let size := default (Conf.pool_size (Conf.performance c)) (Conf.db_pool_size db) in
  match TcpPool.new (Proto.get (Conf.protocol_ (Conf.backend c)) (Conf.pool_reset_timeout_ms (Conf.performance c))).1
          (protocol_config db) (Conf.tls c) size (if CB.enabled cb then Some cb else None)
          (if Acquire.enabled retry then Some retry else None) (Conf.pool_lifo (Conf.performance c))
          (Conf.connection_timeout_ms (Conf.backend c)) (pool_built e (Conf.db_name db)) with
  | inl err => Ret (inl (PoolFailed (Conf.db_name db) err))
  | inr pool =>
      spec ← Routing.create_pool_manager c db;
      Ret (inr ({| m_spec := spec; m_pool := pool |}, bs))
  end.

Fixpoint create_all (c : Conf.Config) (e : environment) (now : Z) (dbs : list (bytes * Conf.DatabaseConfig))
    (pools : gmap bytes managed) (bs : Prometheus.breakers)
    : outcome (boot_error + gmap bytes managed * Prometheus.breakers) :=
  match dbs with
  | [] => Ret (inr (pools, bs))
  | (key, db) :: dbs =>
      r ← create_managed c e now db bs;
      match (r : boot_error + managed * Prometheus.breakers) with
      | inl err => Ret (inl err)
      | inr (m, bs) => create_all c e now dbs (<[key := m]> pools) bs
      end
  end.

Definition bind_unix (c : Conf.Config) (e : environment) : boot_error + bool :=
  match Conf.unix_socket (Conf.proxy c) with
  | None => inr false
  | Some _ =>
      if socket_exists e && negb (socket_removed e) then inl SocketNotRemoved
      else if negb (socket_bound e) then inl SocketNotBound else inr true
  end.

Definition proxy_new (c : Conf.Config) (e : environment) (now : Z) (bs : Prometheus.breakers)
    : outcome (boot_error + booted) :=
  if negb (tcp_bound e) then Ret (inl BindFailed)
  else
    let router := Routing.new (Conf.databases c) (Conf.backend c) (Conf.pool_size (Conf.performance c)) in
    let bs := if CB.enabled (Conf.circuit_breaker (Conf.resilience c)) then bs else ∅ in
    r ← (if Conf.pooling_disabled (Conf.connection_pooling (Conf.performance c)) then Ret (inr (∅, bs))
         else create_all c e now
                ((lit "*", Routing.default_config router)
                 :: ((λ db, (Conf.db_name db, db)) <$> Conf.databases c)) ∅ bs);
    match (r : boot_error + gmap bytes managed * Prometheus.breakers) with
    | inl err => Ret (inl err)
    | inr (pools, bs) =>
        Ret (match load_client_tls_config (Conf.tls c) with
             | inl err => inl (ClientTlsFailed err)
             | inr tls_config =>
                 match Server.load_authenticator (Conf.auth_file (Conf.auth c)) (auth_source e) with
                 | inr err => inl (AuthFileFailed err)
                 | inl authenticator =>
                     match bind_unix c e with
                     | inl err => inl err
                     | inr unix =>
                         inr {| b_router := router; b_pools := pools; b_breakers := bs;
                                b_healthcheck := Conf.active_enabled (Conf.healthcheck (Conf.resilience c));
                                b_tls := tls_config; b_auth := authenticator; b_unix := unix |}
                     end
                 end
             end)
    end.

(** [warmup_pools]: [warm] is what one pool's warm-up returns. *)
Definition warmup_pools (b : booted) (min_idle : nat) (warm : bytes → nat → nat) : nat :=
  if decide (b_pools b = ∅ ∨ min_idle = 0%nat) then 0%nat
  else foldr (λ kv n, (warm kv.1 min_idle + n)%nat) 0%nat (map_to_list (b_pools b)).

(** *** The process ([main], [start_proxy]) *)
Inductive main_error : Type :=
| LoadFailed (e : Conf.load_error)
| TracingFailed
| StartFailed (e : StartUp.start_error)
| BootFailed (e : boot_error).

(** A process about to serve: [r_flag] is [unsafe_debug_logging], [r_metrics] the
    configuration of the metrics server, when there is one. *)
Record running {E : Type} : Type := {
  r_config : Conf.Config;
  r_flag : bool;
  r_layers : list Tracing.layer;
  r_warnings : list Conf.config_warning;
  r_metrics : option MetricsServer.MetricsServerConfig;
  r_batcher : Batch.EventBatcher E Publisher.any_publisher;
  r_server : booted;
  r_warmed : nat
}.
Arguments running : clear implicits.

(** What [main] finds: the merged configuration and the files of [load], the log
    filter, what the publisher needs, and the server's environment. *)
Record surroundings : Type := {
  s_allow_unknown : option bytes;
  s_env_keys : list bytes;
  s_loaded : Conf.Config;
  s_read_file : bytes → option bytes;
  s_parses : bytes → bool;
  s_rust_log : option bytes;
  s_otlp_installed : bool;
  s_shadow_file : option bytes;
  s_uuid : bytes;
  s_client : bool;
  s_environment : environment;
  s_now : Z;
  s_warm : bytes → nat → nat
}.

Definition metrics_server_config (o : Conf.ObservabilityConfig) : option MetricsServer.MetricsServerConfig :=
  if Conf.enable_metrics_server o
  then Some {| MetricsServer.listen_address := Conf.metrics_server_address o;
               MetricsServer.enable_debug_endpoints := Conf.enable_debug_endpoints o |}
  else None.

Definition main `{Unicode} `{SocketAddrs} {E : Type} `{!EventPublisher E Publisher.any_publisher}
    (s : surroundings) : outcome (main_error + running E) :=
  match Conf.load (s_allow_unknown s) (s_env_keys s) (s_loaded s) (s_read_file s) with
  | inr e => Ret (inl (LoadFailed e))
  | inl c =>
      match Tracing.init (s_parses s) (Conf.observability c) (s_rust_log s) (s_otlp_installed s) with
      | (_, None) => Ret (inl TracingFailed)
      | (flag, Some layers) =>
          r ← StartUp.start_proxy c (s_shadow_file s) (s_uuid s) (s_client s);
          match (r : list Conf.config_warning * Batch.EventBatcher E Publisher.any_publisher + StartUp.start_error) with
          | inr e => Ret (inl (StartFailed e))
          | inl (warnings, batcher) =>
              r ← proxy_new c (s_environment s) (s_now s) ∅;
              match (r : boot_error + booted) with
              | inl e => Ret (inl (BootFailed e))
              | inr b =>
                  let min_idle := Z.to_nat (Conf.pool_min_idle (Conf.performance c)) in
                  Ret (inr {| r_config := c; r_flag := flag; r_layers := layers; r_warnings := warnings;
                              r_metrics := metrics_server_config (Conf.observability c);
                              r_batcher := batcher; r_server := b;
                              r_warmed := if (0 <? min_idle)%nat then warmup_pools b min_idle (s_warm s) else 0%nat |})
              end
          end
      end
  end.

(** *** The pools of a server that started *)
Definition made_by (c : Conf.Config) (e : environment) (m : managed) : Prop :=
  ∃ db size breaker retry lifo timeout built,
    TcpPool.new (Proto.get (Conf.protocol_ (Conf.backend c)) (Conf.pool_reset_timeout_ms (Conf.performance c))).1
      (protocol_config db) (Conf.tls c) size breaker retry lifo timeout built = inr (m_pool m) ∧
    Routing.spec_db (m_spec m) = db.

Lemma create_managed_made c e now db bs m bs' :
  create_managed c e now db bs = Ret (inr (m, bs')) → made_by c e m.
Proof.
  unfold create_managed. cbv zeta. destruct (TcpPool.new _ _ _ _ _ _ _ _ _) as [err|pool] eqn:Hn; [by intros [=]|].
  intros (spec & Hs & [= <- <-])%outcome_bind_Ret. unfold Routing.create_pool_manager in Hs.
  apply outcome_bind_Ret in Hs as (w & _ & [= <-]). do 7 eexists. split; [exact Hn|done].
Qed.

Lemma create_all_made c e now dbs pools bs pools' bs' :
  map_Forall (λ _, made_by c e) pools →
  create_all c e now dbs pools bs = Ret (inr (pools', bs')) → map_Forall (λ _, made_by c e) pools'.
Proof.
  revert pools bs; induction dbs as [|[key db] dbs IH]; intros pools bs Hp; [by intros [= <- <-]|].
  cbn [create_all]. intros ([err|[m bs1]] & Hm & Hr)%outcome_bind_Ret; [discriminate Hr|].
  apply (IH (<[key := m]> pools) bs1); [|done]. apply map_Forall_insert_2; [|done].
  by eapply create_managed_made.
Qed.

(** What a server that started has. *)
Lemma proxy_new_parts c e now bs b :
  proxy_new c e now bs = Ret (inr b) →
  map_Forall (λ _, made_by c e) (b_pools b) ∧
  load_client_tls_config (Conf.tls c) = inr (b_tls b) ∧
  Server.load_authenticator (Conf.auth_file (Conf.auth c)) (auth_source e) = inl (b_auth b).
Proof.
  unfold proxy_new. destruct (tcp_bound e); [|done]. cbn [negb]. cbv zeta.
  intros ([err|[pools bs1]] & Hp & Hr)%outcome_bind_Ret; [discriminate Hr|].
  assert (Hmade : map_Forall (λ _, made_by c e) pools).
  { destruct (Conf.pooling_disabled _); [injection Hp as <- _; apply map_Forall_empty|].
    eapply create_all_made; [apply map_Forall_empty|exact Hp]. }
  destruct (load_client_tls_config (Conf.tls c)) as [|tls]; [discriminate Hr|].
  destruct (Server.load_authenticator _ _) as [auth|]; [|discriminate Hr].
  destruct (bind_unix c e); [discriminate Hr|]. injection Hr as <-. done.
Qed.

Lemma client_tls_present tc o :
  load_client_tls_config tc = inr o → (is_Some o ↔ Conf.client_tls_sslmode tc ≠ Conf.Disable).
Proof.
  unfold load_client_tls_config. intros Hl. destruct (Conf.client_tls_sslmode tc).
  { injection Hl as <-. split; [by intros [? [=]]|done]. }
  all: split; [done|]; intros _;
    repeat match type of Hl with
    | (?m ≫= _) = _ => destruct m; [discriminate Hl|]; cbn [mbind sum_bind] in Hl
    end;
    unfold build_result in Hl; case_match; [discriminate Hl|]; injection Hl as <-; eauto.
Qed.

(** What accepted authentication settings have loaded. *)
Lemma auth_promised c e tls auth :
  ConfSafe.auth_ok c → load_client_tls_config (Conf.tls c) = inr tls →
  Server.load_authenticator (Conf.auth_file (Conf.auth c)) (auth_source e) = inl auth →
  (∃ err, client_verifier [] = Some err) →
  match Conf.auth_type (Conf.auth c) with
  | Conf.Trust => Conf.allow_trust (Conf.auth c) = true
  | Conf.Md5 => is_Some auth
  | Conf.ScramSha256 => False
  | Conf.Cert => ∃ sc root roots, tls = Some sc ∧ sc_client_roots sc = Some (root :: roots)
  end.
Proof.
  unfold ConfSafe.auth_ok. intros Hok Htls Hauth Hroots.
  pose proof (client_tls_present _ _ Htls) as Hsome. destruct (Conf.auth_type (Conf.auth c)); try done.
  - destruct Hok as [f Hf]. unfold Server.load_authenticator in Hauth. rewrite Hf in Hauth.
    destruct (FileAuth.from_file f (auth_source e)); [|discriminate Hauth]. injection Hauth as <-. eauto.
  - destruct tls as [sc|].
    + destruct (BackendRuns.client_roots_when_verifying (Conf.tls c) sc) as (r & rs & Hr); [done..|]. eauto.
    + destruct Hok as [Hm|Hm]; rewrite Hm in Hsome; destruct (proj2 Hsome ltac:(done)); done.
Qed.

Lemma main_parts `{Unicode} `{SocketAddrs} {E : Type} `{!EventPublisher E Publisher.any_publisher} s (r : running E) :
  main s = Ret (inr r) →
  Conf.load (s_allow_unknown s) (s_env_keys s) (s_loaded s) (s_read_file s) = inl (r_config r) ∧
  Conf.validate (r_config r) = inl (r_warnings r) ∧
  proxy_new (r_config r) (s_environment s) (s_now s) ∅ = Ret (inr (r_server r)) ∧
  r_metrics r = metrics_server_config (Conf.observability (r_config r)) ∧
  r_flag r = Conf.unsafe_debug_logging (Conf.observability (r_config r)).
Proof.
  unfold main. destruct (Conf.load _ _ _ _) as [c|e] eqn:Hload; [|by intros [=]].
  destruct (Tracing.init _ _ _ _) as [flag [layers|]] eqn:Hinit; [|by intros [=]].
  intros ([[ws b]|e] & Hst & Hr)%outcome_bind_Ret; [|discriminate Hr].
  apply outcome_bind_Ret in Hr as ([e|srv] & Hnew & Hr); [discriminate Hr|]. cbv zeta in Hr.
  assert (Hv : Conf.validate c = inl ws).
  { unfold StartUp.start_proxy in Hst. destruct (Conf.validate c) as [ws'|]; [|discriminate Hst].
    destruct (Publisher.create_publisher _ _ _ _); [|discriminate Hst].
    apply outcome_bind_Ret in Hst as (b' & _ & Hst). congruence. }
  assert (Hflag : flag = Conf.unsafe_debug_logging (Conf.observability c))
    by (unfold Tracing.init in Hinit; congruence).
  injection Hr as <-. done.
Qed.

(** C21. A process that comes up has what its configuration promises: the
    configuration passed its checks; there is TLS towards clients exactly when it
    is not disabled; the user list for md5, certificate roots for certificate
    authentication (when rustls builds no verifier from no roots), and no password
    at all only when trust is acknowledged; every pool opens connections only with
    the protection configured for backends; and a metrics server listens
    beyond the loopback interface only when that is acknowledged. *)
Theorem boot_secures `{Unicode} `{SocketAddrs} {E : Type} `{!EventPublisher E Publisher.any_publisher}
    s (r : running E) :
  main s = Ret (inr r) → (∃ err, client_verifier [] = Some err) →
  let c := r_config r in let b := r_server r in
  Conf.validate c = inl (r_warnings r) ∧
  (is_Some (b_tls b) ↔ Conf.client_tls_sslmode (Conf.tls c) ≠ Conf.Disable) ∧
  match Conf.auth_type (Conf.auth c) with
  | Conf.Trust => Conf.allow_trust (Conf.auth c) = true
  | Conf.Md5 => is_Some (b_auth b)
  | Conf.ScramSha256 => False
  | Conf.Cert => ∃ sc root roots, b_tls b = Some sc ∧ sc_client_roots sc = Some (root :: roots)
  end ∧
  (∀ name m p sent conn, b_pools b !! name = Some m →
     create (manager (m_pool m)) p = (sent, inl conn) →
     BackendRuns.meets (Conf.server_tls_sslmode (Conf.tls c)) (BackendRuns.configured_roots (Conf.tls c))
       (Conf.db_host (Routing.spec_db (m_spec m))) (transport conn)) ∧
  (∀ mc, r_metrics r = Some mc →
     ∃ loopback, parse_socket_addr (MetricsServer.listen_address mc) = Some loopback ∧
       (loopback = true ∨ Conf.metrics_allow_non_loopback (Conf.observability c) = true)).
Proof.
  intros (_ & Hv & (Hpools & Htls & Hauth)%proxy_new_parts & Hmet & _)%main_parts Hroots c b. subst c b.
  pose proof (client_tls_present _ _ Htls) as Hsome.
  assert (Hok : ConfSafe.auth_ok (r_config r)).
  { apply ConfSafe.auth_rejected_false. by apply ConfSafe.validate_inl in Hv as [[Hv' _] _]. }
  split; [exact Hv|]. split; [exact Hsome|]. split; [|split].
  - by apply auth_promised with (1 := Hok) (e := s_environment s).
  - intros name m p sent conn Hm Hc.
    destruct (Hpools name m Hm) as (db & size & br & re & li & ti & bu & Hn & <-).
    by destruct (BackendRuns.opened_as_configured _ _ _ _ _ _ _ _ _ _ _ _ _ Hn Hc) as (Hmeet & _).
  - intros mc. rewrite Hmet. unfold metrics_server_config.
    destruct (Conf.enable_metrics_server _) eqn:Hen; [|done]. intros [= <-].
    apply ConfSafe.validate_inl in Hv as [_ Hv].
    exact (proj1 (ConfSafe.check_metrics_inl _ _) (ex_intro _ _ Hv) Hen).
Qed.
End boot.

(** Everything outside works; the pools are made for TLS to the database. *)
Definition demo_environment : environment := {|
  tcp_bound := true; pool_built _ := true; auth_source := FileAuth.NotFound;
  socket_exists := true; socket_removed := true; socket_bound := true
|}.
Definition demo_config : Conf.Config :=
  let d := StartUp.demo_config (StartUp.demo_publisher true (Some (lit "salt")) (lit "debug") None 10) in
  Conf.config (Conf.proxy d) (Conf.backend d) [] (Conf.observability d) (Conf.protocol d) (Conf.publisher d)
    (Conf.performance d) (Conf.resilience d) BackendRuns.demo_tls (Conf.auth d) (Conf.admin d).

Definition demo_surroundings : surroundings := {|
  s_allow_unknown := None; s_env_keys := []; s_loaded := demo_config; s_read_file _ := None;
  s_parses _ := true; s_rust_log := None; s_otlp_installed := true; s_shadow_file := None; s_uuid := [];
  s_client := true; s_environment := demo_environment; s_now := 0; s_warm _ n := n
|}.
#[local] Existing Instances release_build BackendRuns.demo_pki ascii_tables StartUp.loopback_only
  StartUp.any_publisher_trait.

Lemma boot_secures_witness :
  ∃ (r : running (E := byte)) m, main demo_surroundings = Ret (inr r) ∧
    ¬ is_Some (b_tls (r_server r)) ∧ b_pools (r_server r) !! lit "*" = Some m ∧
    ∀ p sent conn, create (manager (m_pool m)) p = (sent, inl conn) →
      BackendRuns.meets Conf.VerifyFull [lit "root"] (lit "localhost") (transport conn).
Proof.
  eassert (Hm : main (E := byte) demo_surroundings = Ret (inr _)) by reflexivity.
  eexists _, _. split; [exact Hm|].
  destruct (boot_secures (E := byte) demo_surroundings _ Hm (ex_intro _ [] eq_refl)) as (_ & Htls & _ & Hpool & _).
  split; [intros Hs; by apply Htls in Hs|]. split; [reflexivity|].
  intros p sent conn Hc. exact (Hpool (lit "*") _ p sent conn eq_refl Hc).
Defined.
End Boot.

(** ** Background tasks *)
Module Background.
Import Net Metrics.

(** *** Active health checks *)
Record probing : Type := { hc : Acquire.ActiveHealthcheck; breakers : Prometheus.breakers }.

(** What happens to the breakers: a tick of the health check, on a connection of
    its own ([None] when there is none before its deadline), or a call of the pool
    of [database].  The health monitor, one for the process, is read by
    [record_failure] only: its status is an argument of the call. *)
Inductive event : Type :=
| Tick (connection : option stream) (now : Z)
| Use (database : bytes) (o : CB.op).

Section probes.
Context `{Build} (cfg : Acquire.HealthcheckConfig) (breaker_cfg : CB.CircuitBreakerConfig).

Definition probe (connection : option stream) : outcome bool :=
  match connection with
  | None => Ret false
  | Some s =>
      r ← Pg.health_check s;
      Ret (match (r : list bytes * option bool * stream).1.2 with Some true => true | _ => false end)
  end.

Definition report (healthy : bool) (now : Z) (bs : Prometheus.breakers) : Prometheus.breakers :=
  match bs !! lit "*" with
  | Some cb => <[lit "*" := CB.report_health healthy now cb]> bs
  | None => bs
  end.

(** One tick of the loop [ProxyServer::new] spawns. *)
Definition healthcheck_tick (connection : option stream) (now : Z) (st : probing) : outcome probing :=
  passed ← probe connection;
  r ← Acquire.check cfg passed (hc st);
  Ret {| hc := (r : bool * _).2; breakers := report r.1 now (breakers st) |}.

Definition breaker_step (st : probing) (e : event) : outcome probing :=
  match e with
  | Tick connection now => healthcheck_tick connection now st
  | Use database o =>
      match breakers st !! database with
      | None => Ret st
      | Some cb =>
          cb ← CB.call breaker_cfg cb o;
          Ret {| hc := hc st; breakers := <[database := cb]> (breakers st) |}
      end
  end.
Definition breaker_run : probing → list event → outcome probing := ofoldl breaker_step.

(** *** What it should do *)
Definition healthy_after (ps : list bool) : bool :=
  negb (Acquire.hc_failure_threshold cfg <=? Acquire.trailing_failures ps).
Definition ticks (es : list event) : list (option stream) :=
  omap (λ e, match e with Tick s _ => Some s | Use _ _ => None end) es.

(** The calls one breaker sees, the probes having the results [past ++ ps]. *)
Fixpoint calls (name : bytes) (past : list bool) (es : list event) (ps : list bool) : list CB.op :=
  match es, ps with
  | [], _ => []
  | Use database o :: es, _ =>
      (if decide (database = name) then [o] else []) ++ calls name past es ps
  | Tick _ now :: es, p :: ps =>
      (if decide (name = lit "*") then [CB.Health (healthy_after (past ++ [p])) now] else [])
        ++ calls name (past ++ [p]) es ps
  | Tick _ _ :: _, [] => []
  end.

Lemma report_lookup healthy now bs name :
  report healthy now bs !! name
  = (if decide (name = lit "*") then CB.report_health healthy now else id) <$> bs !! name.
Proof.
  unfold report. case_decide as Hn.
  - subst name. destruct (bs !! lit "*") as [cb|] eqn:Hb; [by rewrite lookup_insert_eq|by rewrite Hb].
  - rewrite option_fmap_id. case_match; [|done]. by rewrite lookup_insert_ne.
Qed.

Lemma report_state healthy now cb :
  CB.get_state (CB.report_health healthy now cb) = CB.Open ↔ healthy = false.
Proof.
  unfold CB.report_health, CB.try_transition_to_half_open.
  destruct healthy, (CB.get_state cb) eqn:Hs; try (split; [congruence|done]); try (split; [done|done]);
    simpl; try rewrite Hs; try done.
  case_match; simpl; [done|]. unfold CB.get_state, CB.from_u8 in Hs. repeat case_match; done.
Qed.

Context (Hen : Acquire.active_enabled cfg = true) (Hth : 1 ≤ Acquire.hc_failure_threshold cfg).

(** One check follows the failures in a row. *)
Lemma check_follows past p :
  Z.of_nat (length past) + 1 < two32 →
  Acquire.check cfg p (Acquire.Hc (Acquire.trailing_failures past) (healthy_after past))
  = Ret (healthy_after (past ++ [p]),
         Acquire.Hc (Acquire.trailing_failures (past ++ [p])) (healthy_after (past ++ [p]))).
Proof.
  intros Hl. pose proof (Acquire.health_follows_failures cfg (past ++ [p]) Hen Hth) as Hf.
  rewrite length_app in Hf. specialize (Hf ltac:(simpl; lia)).
  unfold Acquire.run_checks in Hf. rewrite ofoldl_app in Hf.
  change (ofoldl _ Acquire.hc_new past) with (Acquire.run_checks cfg Acquire.hc_new past) in Hf.
  rewrite (Acquire.health_follows_failures cfg past Hen Hth) in Hf by lia.
  cbn [mbind outcome_bind ofoldl] in Hf. fold (healthy_after past) in Hf. fold (healthy_after (past ++ [p])) in Hf.
  destruct (Acquire.check cfg p _) as [[healthy h]| |] eqn:Hck; cbn [mbind outcome_bind] in Hf; try discriminate Hf.
  injection Hf as Hh. cbn [snd] in Hh. subst h. f_equal. f_equal.
  unfold Acquire.check in Hck. rewrite Hen in Hck. cbn [negb] in Hck. destruct p; [congruence|].
  apply outcome_bind_Ret in Hck as (f & _ & Hck). congruence.
Qed.

(** Every breaker is the run of its own calls. *)
Lemma breaker_run_split es : ∀ past ps bs final,
  Z.of_nat (length (past ++ ps)) < two32 →
  Forall2 (λ s p, probe s = Ret p) (ticks es) ps →
  (∀ name, option_Forall2 (λ cb cb', CB.run breaker_cfg cb (calls name past es ps) = Ret cb')
     (bs !! name) (final !! name)) →
  breaker_run {| hc := Acquire.Hc (Acquire.trailing_failures past) (healthy_after past); breakers := bs |} es
  = Ret {| hc := Acquire.Hc (Acquire.trailing_failures (past ++ ps)) (healthy_after (past ++ ps));
           breakers := final |}.
Proof.
  induction es as [|[s now|database o] es IH]; intros past ps bs final Hl Hts Hrun.
  - apply Forall2_nil_inv_l in Hts as ->. rewrite app_nil_r. unfold breaker_run. simpl. do 2 f_equal.
    apply map_eq. intros name. specialize (Hrun name). destruct Hrun as [cb cb' Hr|]; [|done].
    unfold CB.run in Hr. cbn in Hr. by injection Hr as ->.
  - apply Forall2_cons_inv_l in Hts as (p & ps' & Hp & Hts & ->). rewrite length_app in Hl. simpl in Hl.
    unfold breaker_run. cbn [ofoldl breaker_step]. unfold healthcheck_tick. rewrite Hp. cbn [mbind outcome_bind].
    cbn [hc]. rewrite check_follows by lia. cbn [mbind outcome_bind fst snd breakers].
    replace (past ++ p :: ps') with ((past ++ [p]) ++ ps') by (by rewrite <-app_assoc).
    apply IH; [rewrite !length_app; simpl; lia|done|].
    intros name. rewrite report_lookup. specialize (Hrun name). cbn [calls] in Hrun.
    destruct Hrun as [cb cb' Hr|]; constructor. case_decide; [|exact Hr].
    unfold CB.run in Hr |- *. exact Hr.
  - unfold breaker_run. cbn [ofoldl breaker_step breakers].
    destruct (bs !! database) as [cb|] eqn:Hb.
    + pose proof (Hrun database) as Hd. cbn [calls] in Hd. rewrite decide_True, Hb in Hd by done.
      inversion Hd as [cb0 cb' Hr Hcb Hfin|]; subst cb0. unfold CB.run in Hr. cbn [app ofoldl] in Hr.
      apply outcome_bind_Ret in Hr as (cb1 & Hc & Hr). rewrite Hc. cbn [mbind outcome_bind hc].
      apply IH; [done..|]. intros name. destruct (decide (database = name)) as [<-|Hne].
      * rewrite lookup_insert_eq, <-Hfin. by constructor.
      * rewrite lookup_insert_ne by done. specialize (Hrun name). cbn [calls] in Hrun.
        by rewrite decide_False in Hrun by done.
    + cbn [mbind outcome_bind]. apply IH; [done..|]. intros name. specialize (Hrun name). cbn [calls] in Hrun.
      case_decide as Hn; [|done]. subst name. rewrite Hb in Hrun |- *. inversion Hrun. constructor.
Qed.
Lemma calls_tick_snoc s now p es : ∀ past ps,
  length (ticks es) = length ps →
  calls (lit "*") past (es ++ [Tick s now]) (ps ++ [p])
  = calls (lit "*") past es ps ++ [CB.Health (healthy_after (past ++ ps ++ [p])) now].
Proof.
  induction es as [|[s1 now1|database o] es IH]; intros past ps Hl.
  - destruct ps; [|done]. cbn [app calls]. by rewrite decide_True.
  - destruct ps as [|p1 ps]; [done|]. injection Hl as Hl. cbn [app calls]. rewrite IH by done.
    rewrite decide_True by done. by rewrite <-!app_assoc.
  - cbn [app calls]. rewrite IH by done. by rewrite app_assoc.
Qed.

(** Right after a tick the default breaker tells the verdict. *)
Lemma open_after_tick es ps s now p cb cb' :
  length (ticks es) = length ps →
  CB.run breaker_cfg cb (calls (lit "*") [] (es ++ [Tick s now]) (ps ++ [p])) = Ret cb' →
  (CB.get_state cb' = CB.Open ↔
   Acquire.hc_failure_threshold cfg ≤ Acquire.trailing_failures (ps ++ [p])).
Proof.
  intros Hl. rewrite calls_tick_snoc by done. unfold CB.run. rewrite ofoldl_app.
  intros (cb1 & _ & Hr)%outcome_bind_Ret. cbn in Hr. injection Hr as <-.
  rewrite report_state. unfold healthy_after. rewrite negb_false_iff. apply Z.leb_le.
Qed.
End probes.

(** C24. The breakers of the databases do not disturb each other, and the active
    health check touches only the default one.  Whatever probes and calls of the
    pools are interleaved, each breaker ends as the run of its own calls alone (to
    which the verdicts of the probes are added for the default one), the checker
    holds the number of probes that failed in a row, and right after a probe the
    default breaker is open exactly when that number has reached the threshold. *)
Theorem breakers_isolated `{Build} cfg breaker_cfg es ps bs final :
  Acquire.active_enabled cfg = true → 1 ≤ Acquire.hc_failure_threshold cfg →
  Z.of_nat (length ps) < two32 → Forall2 (λ s p, probe s = Ret p) (ticks es) ps →
  (∀ name, option_Forall2 (λ cb cb', CB.run breaker_cfg cb (calls cfg name [] es ps) = Ret cb')
     (bs !! name) (final !! name)) →
  breaker_run cfg breaker_cfg {| hc := Acquire.hc_new; breakers := bs |} es
    = Ret {| hc := Acquire.Hc (Acquire.trailing_failures ps) (healthy_after cfg ps); breakers := final |} ∧
  (∀ es' s now cb, es = es' ++ [Tick s now] → final !! lit "*" = Some cb →
     CB.get_state cb = CB.Open ↔ Acquire.hc_failure_threshold cfg ≤ Acquire.trailing_failures ps) ∧
  (∀ name, name ≠ lit "*" →
     calls cfg name [] es ps
     = omap (λ e, match e with Use database o => if decide (database = name) then Some o else None
                             | Tick _ _ => None end) es).
Proof.
  intros Hen Hth Hl Hts Hrun. split_and!.
  - pose proof (breaker_run_split cfg breaker_cfg Hen Hth es [] ps bs final Hl Hts Hrun) as Hs.
    rewrite app_nil_l in Hs. rewrite <-Hs.
    unfold Acquire.hc_new, healthy_after, Acquire.trailing_failures. simpl.
    by replace (Acquire.hc_failure_threshold cfg <=? 0) with false by (symmetry; apply Z.leb_gt; lia).
  - intros es' s now cb -> Hcb. specialize (Hrun (lit "*")). rewrite Hcb in Hrun.
    inversion Hrun as [cb0 cb1 Hr|]; subst.
    unfold ticks in Hts. rewrite omap_app in Hts.
    apply Forall2_app_inv_l in Hts as (ps1 & ps2 & Hts & Ht & ->).
    apply Forall2_cons_inv_l in Ht as (p & ps3 & _ & Hnil & ->). apply Forall2_nil_inv_l in Hnil as ->.
    eapply open_after_tick; [by eapply Forall2_length|done].
  - intros name Hn. clear Hrun Hl. generalize (@nil bool).
    revert ps Hts; induction es as [|[s now|database o] es IH]; intros ps Hts past; [done|..].
    + apply Forall2_cons_inv_l in Hts as (p & ps' & _ & Hts & ->). cbn [calls]. rewrite decide_False by done.
      by apply IH.
    + cbn [calls]. rewrite (IH ps) by done. cbn. by case_decide.
Qed.

(** A probe of a server that closes the connection, and one of a server in order. *)
Definition closing : option stream := Some (mk_stream true [Bytes []]).
Definition answering : option stream := Some (mk_stream true [Bytes (Pg.put_answer BackendRuns.idle)]).
Definition two_failures : Acquire.HealthcheckConfig :=
  {| Acquire.active_enabled := true; Acquire.hc_failure_threshold := 2 |}.
Definition demo_breakers : Prometheus.breakers := {[ lit "*" := CB.new 0; lit "shop" := CB.new 0 ]}.

(** The default breaker opens at the second failure in a row; a failure of
    database "shop" in between stays its own. *)
Lemma breakers_isolated_witness :
  ∃ st cb, breaker_run (H := release_build) two_failures CB.demo_config
      {| hc := Acquire.hc_new; breakers := demo_breakers |}
      [Tick answering 1; Tick None 2; Use (lit "shop") (CB.Failure 3 3 None); Tick closing 4] = Ret st ∧
    breakers st !! lit "*" = Some cb ∧ CB.get_state cb = CB.Open.
Proof.
  destruct (breakers_isolated (H := release_build) two_failures CB.demo_config
      [Tick answering 1; Tick None 2; Use (lit "shop") (CB.Failure 3 3 None); Tick closing 4]
      [true; false; false] demo_breakers
      {[ lit "*" := CB.transition_to_open 4 (CB.new 0);
         lit "shop" := CB.add_window_count (CB.store_failures 1 (CB.new 0)) ]}) as (Hr & Ho & _).
  - reflexivity.
  - vm_compute. discriminate.
  - vm_compute. reflexivity.
  - repeat constructor; vm_compute; reflexivity.
  - intros name. unfold demo_breakers.
    destruct (decide (name = lit "*")) as [->|H1]; [by rewrite !lookup_insert_eq; constructor; vm_compute|].
    rewrite !(lookup_insert_ne _ (lit "*")) by done.
    destruct (decide (name = lit "shop")) as [->|H2]; [by rewrite !lookup_singleton_eq; constructor; vm_compute|].
    rewrite !lookup_singleton_ne by done. constructor.
  - eexists _, _. split; [exact Hr|]. split; [apply lookup_insert_eq|].
    eapply (Ho [_; _; _]); [reflexivity|apply lookup_insert_eq|]. vm_compute. discriminate.
Defined.

(** A verdict always returns. *)
Lemma verdicts_return `{Build} cfg breaker_cfg name nows : ∀ past ps cb,
  ∃ cb', CB.run breaker_cfg cb (calls cfg name past (Tick closing <$> nows) ps) = Ret cb'.
Proof.
  induction nows as [|now nows IH]; intros past ps cb; [by eexists|]. cbn [fmap list_fmap calls].
  destruct ps as [|p ps]; [by eexists|]. case_decide; [|apply IH]. apply IH.
Qed.

(** The probe sends its query on a connection that has not been started up.  The
    protocol begins with the length of the start-up message, for which the query
    is an absurd one, so that a server refuses it and closes; such a probe fails.
    With active health checks on, the default breaker then opens after
    [failure_threshold] ticks although the backend is well. *)
Lemma probe_skips_startup `{Build} cfg breaker_cfg (nows : list Z) cb :
  Startup.read_startup_message Pg.empty_query = inl (Startup.LengthTooLarge 1358954496) ∧
  (Acquire.active_enabled cfg = true → 1 ≤ Acquire.hc_failure_threshold cfg ≤ Z.of_nat (length nows) →
   Z.of_nat (length nows) < two32 →
   ∃ st cb', breaker_run cfg breaker_cfg {| hc := Acquire.hc_new; breakers := {[ lit "*" := cb ]} |}
       (Tick closing <$> nows) = Ret st ∧
     breakers st !! lit "*" = Some cb' ∧ CB.get_state cb' = CB.Open).
Proof.
  split; [reflexivity|]. intros Hen Hth Hl.
  assert (Htf : ∀ n, Acquire.trailing_failures (replicate n false) = Z.of_nat n).
  { induction n as [|n IH]; [done|]. rewrite replicate_S_end, Acquire.trailing_failures_snoc, IH. lia. }
  assert (Htick : ∀ l, ticks (Tick closing <$> l) = replicate (length l) closing)
    by (induction l as [|x l IH]; [done|]; cbn; by f_equal).
  destruct (verdicts_return cfg breaker_cfg (lit "*") nows [] (replicate (length nows) false) cb) as [cb' Hr].
  eexists (Build_probing _ {[ lit "*" := cb' ]}), cb'. split; [|split; [apply lookup_singleton_eq|]].
  - replace Acquire.hc_new with (Acquire.Hc (Acquire.trailing_failures []) (healthy_after cfg [])).
    + apply breaker_run_split with (ps := replicate (length nows) false) (final := {[ lit "*" := cb' ]}); [done|lia| | |].
      * by rewrite app_nil_l, length_replicate.
      * rewrite Htick. apply Forall2_replicate. reflexivity.
      * intros name. destruct (decide (name = lit "*")) as [->|Hn].
        -- rewrite !lookup_singleton_eq. by constructor.
        -- rewrite !lookup_singleton_ne by done. constructor.
    + unfold healthy_after, Acquire.trailing_failures, Acquire.hc_new. simpl.
      by replace (Acquire.hc_failure_threshold cfg <=? 0) with false by (symmetry; apply Z.leb_gt; lia).
  - destruct nows as [|now nows _] using rev_ind; [simpl in Hth; lia|].
    rewrite length_app, Nat.add_comm, fmap_app in Hr. simpl in Hr. rewrite replicate_cons_app in Hr.
    apply (open_after_tick _ _ _ _ _ _ _ _ _) in Hr; [|by rewrite Htick, !length_replicate].
    apply Hr. rewrite <-replicate_S_end, Htf. rewrite length_app in Hth. simpl in Hth. lia.
Qed.

(** *** Releasing idle sticky connections *)

(** The seconds between two clean-ups of a pool, when they are scheduled. *)
Definition cleanup_interval_secs (idle_unpin_secs : Z) (pools : nat) : option Z :=
  if (0 <? idle_unpin_secs) && negb (pools =? 0)%nat then Some (Z.max 1 (idle_unpin_secs / 2)) else None.

Abbreviation ns := 1000000000.
Definition cleanup_times (start interval : Z) (k : nat) : Z := start + Z.of_nat k * (interval * ns).

(** A binding that is not used again is released: of the ticks that start before
    the limit, one comes after the limit but no later than a second or half the
    limit after it, and its clean-up removes the binding. *)
Lemma idle_binding_released cfg start interval p client conn info :
  cleanup_interval_secs (Pool.idle_unpin_secs cfg) 1 = Some interval →
  Pool.sticky_map p !! client = Some (conn, info) →
  start ≤ Pool.last_used info + Pool.idle_unpin_secs cfg * ns →
  ∃ k, let now := cleanup_times start interval k in
    now ≤ Pool.last_used info + (Pool.idle_unpin_secs cfg + Z.max 1 (Pool.idle_unpin_secs cfg / 2)) * ns ∧
    ∀ p', Pool.sticky_map p' !! client = Some (conn, info) →
      Pool.sticky_map (Pool.cleanup_idle cfg now p').2 !! client = None ∧
      conn ∈ Pool.idle (Pool.cleanup_idle cfg now p').2.
Proof.
  unfold cleanup_interval_secs. destruct (Z.ltb_spec 0 (Pool.idle_unpin_secs cfg)) as [Hpos|]; [|done].
  intros [= <-] _ Hs. set (i := Z.max 1 (Pool.idle_unpin_secs cfg / 2)).
  assert (Hi : 0 < i * ns) by lia.
  set (limit := Pool.last_used info + Pool.idle_unpin_secs cfg * ns) in *.
  exists (Z.to_nat ((limit - start) / (i * ns) + 1)). cbv zeta. unfold cleanup_times.
  pose proof (Z.div_pos (limit - start) (i * ns) ltac:(lia) Hi) as Hd.
  rewrite Z2Nat.id by lia.
  pose proof (Z.mul_div_le (limit - start) (i * ns) Hi). pose proof (Z.mul_succ_div_gt (limit - start) (i * ns) Hi).
  set (q := (limit - start) / (i * ns)) in *. split; [lia|]. intros p' Hp'.
  destruct (Pool.cleanup_idle_exact cfg (start + (q + 1) * (i * ns)) p') as [_ Hc].
  destruct (Hc Hpos) as (Hk & Hidle & _). split.
  - apply eq_None_not_Some. intros [e He]. pose proof He as He'. apply Hk in He' as [He' Hle].
    rewrite Hp' in He'. injection He' as <-. simpl in Hle. lia.
  - apply Hidle. right. exists client, info. split; [done|]. lia.
Qed.

(** *** Queue saturation *)
Section saturation.
Context `{Hdr}.
Record monitor : Type := { gauges : PoolMetrics; last_warned : Z }.
Record warning : Type := { w_database : bytes; w_queue_depth : Z; w_saturation : spec_float }.
Definition warn_cooldown : Z := 30 * ns.

Definition saturation_monitored (threshold : spec_float) : bool :=
  SFltb f64_zero threshold && SFltb threshold (f64_of 1).

(** One pool of one tick; [now] and [now'] are the two readings of the clock. *)
Definition saturation_check (threshold : spec_float) (database : bytes) (queue_depth now now' : Z)
    (st : monitor) : monitor * option warning :=
  let saturation := get_queue_saturation (gauges st) in
  let g := store QueueDepth queue_depth (gauges st) in
  if f64_ge saturation threshold && (warn_cooldown <? now - last_warned st)
  then ({| gauges := g; last_warned := now' |},
        Some {| w_database := database; w_queue_depth := queue_depth; w_saturation := saturation |})
  else ({| gauges := g; last_warned := last_warned st |}, None).

Fixpoint saturation_tick (threshold : spec_float) (pools : list (bytes * Z * (Z * Z))) (st : monitor)
    : monitor * list (Z * warning) :=
  match pools with
  | [] => (st, [])
  | (database, depth, (now, now')) :: pools =>
      let '(st, w) := saturation_check threshold database depth now now' st in
      let '(st, ws) := saturation_tick threshold pools st in
      (st, option_list ((now,.) <$> w) ++ ws)
  end.

(** Warnings keep the cool-down, when the clock does not go back. *)
Lemma warnings_spaced threshold pools st :
  Forall (λ p, p.2.1 ≤ p.2.2) pools →
  Sorted (λ a b, a + warn_cooldown < b)
    (last_warned st :: (fst <$> (saturation_tick threshold pools st).2)).
Proof.
  revert st; induction pools as [|[[database depth] [now now']] pools IH]; intros st Hc.
  { simpl. by repeat constructor. }
  apply Forall_cons in Hc as [Hn Hc]. simpl in Hn. cbn [saturation_tick]. unfold saturation_check.
  destruct (f64_ge _ _ && _) eqn:Hw.
  - apply andb_true_iff in Hw as [_ Hw%Z.ltb_lt].
    specialize (IH {| gauges := store QueueDepth depth (gauges st); last_warned := now' |} Hc).
    destruct (saturation_tick _ _ _) as [st' ws]. simpl in IH |- *.
    apply Sorted_inv in IH as [IH Hh]. constructor; [|constructor; lia]. constructor; [done|].
    destruct ws as [|w ws]; [constructor|]. simpl in Hh |- *. inversion Hh; subst. constructor. lia.
  - specialize (IH {| gauges := store QueueDepth depth (gauges st); last_warned := last_warned st |} Hc).
    by destruct (saturation_tick _ _ _) as [st' ws].
Qed.

End saturation.
#[local] Existing Instance list_hdr.

(** The saturation is read before the depth of the pool at hand is stored, from a
    gauge that all pools share: the warning tells the name and the depth of one
    database and the saturation of another.  Here "quiet" is reported, with an
    empty queue that is 80% full. *)
Example warning_names_the_wrong_pool :
  let start := {| gauges := store MaxQueueDepth 100 PoolMetrics_new; last_warned := 0 |} in
  (saturation_tick (f64_lit 8 10)
     [(lit "busy", 80, (31 * ns, 31 * ns)); (lit "quiet", 0, (31 * ns, 31 * ns))] start).2
  = [(31 * ns, {| w_database := lit "quiet"; w_queue_depth := 0; w_saturation := f64_div (f64_of 80) (f64_of 100) |})].
Proof. vm_compute. reflexivity. Qed.

(** *** What starts the shutdown *)

(** SIGINT, or the failure to listen for it; SIGTERM; a request of the console. *)
Inductive shutdown_source : Type := CtrlC (listening : bool) | SigTerm | AdminRequest.

(** Which of them the future of [run] waits for: SIGTERM only when its handler
    could be installed. *)
Definition awaited (sigterm_installed : bool) (src : shutdown_source) : bool :=
  match src with SigTerm => sigterm_installed | CtrlC _ | AdminRequest => true end.
(** The first of a sequence of occurrences that starts the drain. *)
Fixpoint shutdown_begins (sigterm_installed : bool) (srcs : list shutdown_source) : option shutdown_source :=
  match srcs with
  | [] => None
  | src :: srcs =>
      if awaited sigterm_installed src then Some src else shutdown_begins sigterm_installed srcs
  end.

(** With its handler installed SIGTERM starts the drain unless it has been started
    before; without it only SIGTERM is lost.  To fail to listen for SIGINT starts the
    drain as SIGINT does. *)
Lemma shutdown_begins_exact installed srcs :
  shutdown_begins installed srcs = None ↔ ∀ src, src ∈ srcs → src = SigTerm ∧ installed = false.
Proof.
  induction srcs as [|src srcs IH]; [set_solver|]. cbn [shutdown_begins].
  destruct (awaited installed src) eqn:Ha.
  - split; [done|]. intros Hall. destruct (Hall src ltac:(set_solver)) as [-> ->]. done.
  - rewrite IH. destruct src; try done. cbn in Ha. subst. set_solver.
Qed.
End Background.
